(* ===== verification/_CoqProject ===== *)
-Q . S2P
Prelude.v
Heap.v
HeapCost.v
Memory.v
Storage.v
CopyOnWrite.v
CowSpec.v
ByteBuffer.v
BufferSpec.v
BufferClients.v
Diagnostics.v
Sys.v
SysSession.v
SysFiles.v
Concur.v
Dispatch.v
Observing.v
Timer.v
TimerPrograms.v
Schedule.v
ScheduleLive.v
ScheduleSystem.v
CowThreads.v
CowSerial.v
CowOrder.v
Machine.v
Runtime.v
RuntimePrograms.v
