(* ===== verification/Prelude.v ===== *)
(** * NPFoundation: a verification development

    NPFoundation is a small C, C++ and Objective-C library for Apple platforms
    ([src/Sources/NPFoundation], headers under [include/NPFoundation]).  This
    development models its code and proves what its headers promise; where the
    code does something else, a theorem shows that instead.

    ** Parts and files

    This file has what all others share: the outcomes of running code ([Done]
    and [Stop] with a [fault]), the state monad [prog], bounded loops [loop], the
    total-correctness predicate [wp] with its rules and tactics, machine integers,
    and list exchange.

    - [Heap.v]: [DataStructures/Heap.h].  [heap T] is the vector and the type of
      [Heap<T>]; [push], [pop], [top], [build], [heapify], [siftUp] and the index
      functions are the methods.  The element type is a class with [operator<]
      and [operator>].
    - [HeapCost.v]: how many rounds of [heapify] building a heap takes.
    - [Memory.v], [Storage.v]: malloc, realloc, free and memmove over blocks of
      bytes, and from [ByteBuffer.h] and [ByteBuffer.cpp] the allocator hooks with
      their contract ([AllocatorLaws], discharged for the default allocator) and
      [ByteBufferStorage].
    - [CopyOnWrite.v], [CowSpec.v]: [CopyOnWriteBacked.h], generic in the element
      type (class [CowElement], laws [CowLaws]); the abstraction [abs] to
      independent values, and the theorems.
    - [ByteBuffer.v], [BufferSpec.v]: [ByteBuffer], whose storage is a
      copy-on-write instance of [ByteBufferStorage]; the definitions and the
      lemmas, and what each method promises.
    - [BufferClients.v]: programs over any number of buffers that share blocks,
      with every special member and method, and the abstract buffers they see.
    - [Diagnostics.v]: [Diagnostics.h] and [Diagnostics.cpp], one method at a time
      and as sequences of calls.
    - [Sys.v]: [sys.h] and [sys.cpp], on top of [Diagnostics.v].
    - [SysSession.v]: clients that make any calls of [sys.h], each depending on
      what the earlier ones returned.
    - [SysFiles.v]: kernels that keep files, and what the mappings of [sys.h] show
      of them and change in them.
    - [Concur.v]: code as a sequence of atomic steps, run alone or interleaved,
      and invariants of pools of threads by the phases of one thread.
    - [Observing.v]: [objc/NSValueObserving.m], interleaved under
      [@synchronized].
    - [Dispatch.v], [Timer.v]: [dispatch/timer.m], alone and interleaved, on top
      of [Observing.v] for a timer bound to an object.
    - [TimerPrograms.v]: programs over any number of timers and the objects they
      are bound to.
    - [Schedule.v], [ScheduleLive.v]: [dispatch/schedule.m], whose blocks run on a
      serial queue while clients, clock and sources go on.
    - [ScheduleSystem.v]: programs over any number of schedules and the handles
      that [schedule.h] gives them, behind which the blocks run.
    - [CowThreads.v], [CowOrder.v]: [retain], [release], [read] and [unique] of
      [CopyOnWriteBacked.h] as atomic steps of several threads, first with
      sequentially consistent accesses, then on a memory that knows the memory
      orders the source gives and detects data races by vector clocks.
    - [CowSerial.v]: a thread's operations, as methods run in one go and as atomic
      steps among other threads.
    - [Machine.v]: [machine/MachineContext.c] and the destination macros of
      [Definitions.h].
    - [Runtime.v]: [objc/NSObjCRuntime.c] and the macros of [NSObjCRuntime.h].
    - [RuntimePrograms.v]: programs that use the macros any number of times, on
      any classes and in any order.

    A C++ object under construction is a record or an entry of a map; a method is
    a function in the monad over the state it works on; a call of another
    component is a call of its definition, lifted with [zoom].  Undefined
    behaviour, failed assertions, [abort] and exceptions are faults, so that "runs
    without a fault" is part of every [wp].

    ** What the theorems show

    - Containers.  A heap refines a multiset under any sequence of operations
      ([heap_refines_multiset]), sorts ([build_then_pop_sorts]), its loops are
      logarithmic ([sift_logarithmic]), and building one is linear
      ([build_linear]).
    - Memory.  [reserve] and [setBytes] on every branch, for every allocator that
      keeps the contract and every pattern of refused requests; the rounding of
      capacities ([nextPowerOf2_correct]).
    - Sharing.  Copy-on-write instances are independent values
      ([cow_refines_values]), nothing leaks or is used after it is freed
      ([cow_no_leak]), and [unique] gives a pointer nobody else has.  The same holds
      of threads ([cow_threads_correct]), each of which reads what it would read
      alone ([thread_reads_serially]).  Under the memory orders of the source, readers
      never race ([read_only_never_races]), while [unique] can ([unique_races]).
    - Buffers.  Programs over any number of buffers get what buffers that share
      nothing would give them, until a private copy is refused
      ([buffers_refine_queues]), and cursors and blocks stay well formed whatever
      is refused ([buffers_well_formed]); what was written is read back
      ([write_read_roundtrip]); what a refused private copy does
      ([failed_copy_aborts], [failed_copy_loses_bytes], [failed_copy_reads_null]).
    - Reports.  A [Diagnostics] object is the list of what was reported since the
      errors were last cleared ([diagnostics_refines]).
    - System calls.  Errors are retried, reported and never leak a descriptor or a
      mapping ([mmap_correct], [withMmapReadOnly_unmaps], [resolve_closes]); what a
      client has open and mapped is what the replies said ([session_refines]), and
      testing for errors once at the end is enough ([check_once]).  What is
      written through a mapping is read back through another, and nothing else
      changes ([mapped_roundtrip]).
    - Concurrency on the Apple side.  Timers and handlers under any interleaving
      ([timer_interleaving], [attach_interleaving]).  A resume of a source that is
      not suspended traps: [timer_interleaving] says where that can happen,
      [timer_race_over_resumes] that it does.  Timers as three-state machines in any
      program ([timers_follow_machines]).  When throttle and debounce call back,
      alone ([throttle_correct], [debounce_correct]) and among others behind their
      handles ([schedules_correct], [handles_correct]), and that a debounced
      signal is answered ([debounce_answers]).
    - Methods.  Replacing and overriding put the new block in front of what ran
      before and change nothing else ([swizzle_correct]); in a whole program a
      class is a table of stacks of blocks ([swizzles_refine_stacks]).  Between
      two steps of the macro the new block cannot call on ([replace_window]).
    - Registers.  When the context of a thread is filled, and what a failure leaves
      in it ([NPMachineContextGet_correct]).

    ** Bounds and fuel

    Loops of the source run in [loop] with fuel that their theorems show to be
    enough: in the heap one more than the size or the index (and
    [sift_logarithmic] that far fewer do), in [NPClassGetOwnMethod] one more than
    the number of methods.  The retry loops of [Sys.v] may go on as long as the
    kernel interrupts them, so their fuel is a parameter and the theorems suppose
    that the kernel answers within it ([responsive]).  [find_method] has the
    number of classes as fuel, which bounds the height of a well-formed hierarchy.
    Sizes are bounded where the code's integers are: [2^62] elements in a heap,
    fewer than [2^32] references to a block, fewer than [SIZE_MAX] signals.

    ** Parameters

    Code outside the repository is a parameter or a list of the calls made to it:
    custom allocators, the POSIX kernel ([KernelLaws], and in [SysFiles.v]
    [FileKernel] for what calls do to files) and [strerror], the Mach kernel,
    [dispatch_time], [calloc] of a handle, what client callbacks and handlers do.
    The hypotheses on them are their documented behaviour, and each theorem with
    such a hypothesis has a concrete instance.  The C and C++ standard libraries
    and the runtime functions of Objective-C are modelled as the languages
    document them.

    ** Not modelled

    - [Mixable.h] deletes copy operations, which only a compiler can check;
      [NPFoundation.h], the other umbrella headers and [NPFoundation.cpp] only
      include files; the rest of [Definitions.h] are attributes and linkage.
    - What [printf] does with conversions the library does not use, and the
      capacity of a [std::vector] or [std::string], which no method shows.
    - That [@synchronized] may be entered again by the thread that is in it, which
      no code here does; and that a null pointer plus an offset other than 0 is
      already undefined in C++, where the model waits for the access.
    - Reference counting by ARC, block copying and the destruction of queues: the
      objects of [Timer.v] and [Schedule.v] live as long as the program.
    - The tests under [src/Tests], some of whose data are the concrete runs
      here. *)

From stdpp Require Export base tactics numbers list gmap option strings.

#[export] Set Default Goal Selector "!".
#[global] Open Scope Z_scope.

(** ** Outcomes of running a piece of the program *)

(** Why a run stopped short.  [FAssert] is a failed [assert], [FAbort] a call of
    [abort], [FThrow] a C++ exception that leaves the operation, [FUndefined]
    undefined behaviour (a null or dangling pointer, an index out of range),
    [FOverflow] signed overflow, and [FFuel] a loop that did not finish within
    the iterations it was given. *)
Inductive fault :=
| FAssert
| FAbort
| FThrow
| FUndefined
| FOverflow
| FFuel.

#[export] Instance fault_eq_dec : EqDecision fault.
Proof. solve_decision. Defined.

Inductive outcome (S A : Type) :=
| Done (a : A) (s : S)
| Stop (f : fault) (s : S).
Arguments Done {S A} a s.
Arguments Stop {S A} f s.

(** Imperative code over a state [S]. *)
Definition prog (S A : Type) : Type := S → outcome S A.

#[export] Instance prog_ret S : MRet (prog S) := λ A a s, Done a s.
#[export] Instance prog_bind S : MBind (prog S) := λ A B k m s,
  match m s with
  | Done a s' => k a s'
  | Stop f s' => Stop f s'
  end.

Definition stop {S A} (f : fault) : prog S A := λ s, Stop f s.
Definition get {S} : prog S S := λ s, Done s s.
Definition put {S} (s' : S) : prog S unit := λ _, Done tt s'.
Definition gets {S A} (f : S → A) : prog S A := λ s, Done (f s) s.
Definition modify {S} (f : S → S) : prog S unit := λ s, Done tt (f s).
Definition assert_ {S} (b : bool) : prog S unit := if b then mret tt else stop FAssert.
Definition when {S} (b : bool) (m : prog S unit) : prog S unit := if b then m else mret tt.
Definition of_option {S A} (f : fault) (o : option A) : prog S A :=
  match o with Some a => mret a | None => stop f end.

(** A loop whose body says whether to go round again ([inl]) or to leave ([inr]). *)
Fixpoint loop {S A B} (fuel : nat) (body : A → prog S (A + B)) (a : A) : prog S B :=
  match fuel with
  | O => stop FFuel
  | Datatypes.S n =>
      r ← body a;
      match r with
      | inl a' => loop n body a'
      | inr b => mret b
      end
  end.

(** Run code over a part of the state. *)
Definition zoom {S T A} (g : S → T) (p : T → S → S) (m : prog T A) : prog S A := λ s,
  match m (g s) with
  | Done a t => Done a (p t s)
  | Stop f t => Stop f (p t s)
  end.

(** ** Total correctness *)

(** [wp m Q s]: run from [s], [m] finishes (it neither stops nor runs out of
    fuel) with a result and a state that satisfy [Q]. *)
Definition wp {S A} (m : prog S A) (Q : A → S → Prop) (s : S) : Prop :=
  match m s with
  | Done a s' => Q a s'
  | Stop _ _ => False
  end.

(** [halts m f s]: run from [s], [m] stops with fault [f]. *)
Definition halts {S A} (m : prog S A) (f : fault) (s : S) : Prop :=
  match m s with
  | Done _ _ => False
  | Stop f' _ => f' = f
  end.

(** ** Machine integers *)

Definition SIZE_MAX : Z := 2 ^ 64 - 1.
Definition INT64_MAX : Z := 2 ^ 63 - 1.
Definition INT64_MIN : Z := - 2 ^ 63.

(** Conversion to [size_t], [uint32_t] and [int64_t]: modulo [2^w], the last
    one read as two's complement. *)
Definition to_size (z : Z) : Z := z `mod` 2 ^ 64.
Definition to_u32 (z : Z) : Z := z `mod` 2 ^ 32.
Definition to_i64 (z : Z) : Z :=
  if z `mod` 2 ^ 64 <? 2 ^ 63 then z `mod` 2 ^ 64 else z `mod` 2 ^ 64 - 2 ^ 64.

(** The value of a signed 64-bit operation, whose overflow is undefined. *)
Definition i64 {S} (z : Z) : prog S Z :=
  if (INT64_MIN <=? z) && (z <=? INT64_MAX) then mret z else stop FOverflow.

(** ** Rules of [wp] *)

Section wp_rules.
Context {S : Type}.
Implicit Types s : S.

Lemma wp_ret {A} (a : A) Q s : Q a s → wp (mret a) Q s.
Proof. done. Qed.

Lemma wp_bind {A B} (m : prog S A) (k : A → prog S B) Q s :
  wp m (λ a, wp (k a) Q) s → wp (m ≫= k) Q s.
Proof. unfold wp, mbind, prog_bind. by destruct (m s). Qed.

Lemma wp_bind_inv {A B} (m : prog S A) (k : A → prog S B) Q s :
  wp (m ≫= k) Q s → wp m (λ a, wp (k a) Q) s.
Proof. unfold wp, mbind, prog_bind. by destruct (m s). Qed.

Lemma wp_mono {A} (m : prog S A) (Q R : A → S → Prop) s :
  wp m Q s → (∀ a s', Q a s' → R a s') → wp m R s.
Proof. unfold wp. destruct (m s); [by eauto|done]. Qed.

Lemma wp_get (Q : S → S → Prop) s : Q s s → wp get Q s.
Proof. done. Qed.

Lemma wp_put s' (Q : unit → S → Prop) s : Q tt s' → wp (put s') Q s.
Proof. done. Qed.

Lemma wp_gets {A} (f : S → A) Q s : Q (f s) s → wp (gets f) Q s.
Proof. done. Qed.

Lemma wp_modify (f : S → S) Q s : Q tt (f s) → wp (modify f) Q s.
Proof. done. Qed.

Lemma wp_assert (b : bool) (Q : unit → S → Prop) s : b = true → Q tt s → wp (assert_ b) Q s.
Proof. by intros ->. Qed.

Lemma wp_when (b : bool) (m : prog S unit) Q s :
  (b = true → wp m Q s) → (b = false → Q tt s) → wp (when b m) Q s.
Proof. destruct b; naive_solver. Qed.

Lemma wp_of_option {A} f (o : option A) a Q s : o = Some a → Q a s → wp (of_option f o) Q s.
Proof. by intros ->. Qed.

Lemma wp_i64 z Q s : INT64_MIN ≤ z ≤ INT64_MAX → Q z s → wp (i64 z) Q s.
Proof.
  intros [H1 H2] HQ. unfold i64.
  by rewrite (proj2 (Z.leb_le _ _) H1), (proj2 (Z.leb_le _ _) H2).
Qed.

Lemma wp_zoom {T A} (g : S → T) p (m : prog T A) Q s :
  wp m (λ a t, Q a (p t s)) (g s) → wp (zoom g p m) Q s.
Proof. unfold wp, zoom. by destruct (m (g s)). Qed.

(** Running is deterministic: [wp] gives the one result. *)
Lemma wp_exec {A} (m : prog S A) Q s :
  wp m Q s ↔ ∃ a s', m s = Done a s' ∧ Q a s'.
Proof.
  unfold wp. destruct (m s); split; [by eauto|by intros (?&?&[= <- <-]&?)|done|].
  by intros (?&?&?&?).
Qed.

(** The postcondition may also speak of the run itself. *)
Lemma wp_run {A} (m : prog S A) Q s : wp m (λ a s', m s = Done a s' → Q a s') s → wp m Q s.
Proof. unfold wp. destruct (m s); auto. Qed.

Lemma wp_done {A} (m : prog S A) Q s a s' : wp m Q s → m s = Done a s' → Q a s'.
Proof. unfold wp. intros Hm Hd. by rewrite Hd in Hm. Qed.

Lemma wp_halts {A} (m : prog S A) Q f s : wp m Q s → halts m f s → False.
Proof. unfold wp, halts. by destruct (m s). Qed.

Lemma halts_stop {A} f s : halts (stop (A := A) f) f s.
Proof. done. Qed.

Lemma halts_bind_l {A B} (m : prog S A) (k : A → prog S B) f s :
  halts m f s → halts (m ≫= k) f s.
Proof. unfold halts, mbind, prog_bind. by destruct (m s). Qed.

Lemma halts_bind_r {A B} (m : prog S A) (k : A → prog S B) f s :
  wp m (λ a s', halts (k a) f s') s → halts (m ≫= k) f s.
Proof. unfold halts, wp, mbind, prog_bind. by destruct (m s). Qed.

Lemma halts_zoom {T A} (g : S → T) p (m : prog T A) f s :
  halts m f (g s) → halts (zoom g p m) f s.
Proof. unfold halts, zoom. by destruct (m (g s)). Qed.

(** A loop whose body keeps [I] and lowers [μ] finishes within any fuel above [μ]. *)
Lemma wp_loop {A B} (I : A → S → Prop) (μ : A → S → nat)
    (body : A → prog S (A + B)) (Q : B → S → Prop) fuel a s :
  (∀ a s, I a s →
    wp (body a) (λ r s', match r with
                         | inl a' => I a' s' ∧ (μ a' s' < μ a s)%nat
                         | inr b => Q b s'
                         end) s) →
  I a s → (μ a s < fuel)%nat → wp (loop fuel body a) Q s.
Proof.
  intros Hbody. revert a s.
  induction fuel as [|fuel IH]; intros a s HI Hμ; [lia|].
  simpl. apply wp_bind. eapply wp_mono; [by apply Hbody|].
  intros [a'|b] s' Hr; [|done]. destruct Hr. apply IH; [done|lia].
Qed.

(** A loop that finishes gives the same with more fuel. *)
Lemma loop_mono {A B} (body : A → prog S (A + B)) n m a s b s' :
  loop n body a s = Done b s' → (n ≤ m)%nat → loop m body a s = Done b s'.
Proof.
  revert m a s. induction n as [|n IH]; intros m a s H Hle; [done|].
  destruct m as [|m]; [lia|]. simpl in *. unfold mbind, prog_bind in *.
  destruct (body a s) as [[a'|b'] s1|]; [|done..]. apply IH; [done|lia].
Qed.

(** Two loops whose bodies agree wherever the first may come to. *)
Lemma loop_same {A B} (I : A → S → Prop) (body body' : A → prog S (A + B)) fuel a s :
  (∀ a s, I a s → body' a s = body a s ∧ ∀ a' s', body a s = Done (inl a') s' → I a' s') →
  I a s → loop fuel body' a s = loop fuel body a s.
Proof.
  intros Hbody. revert a s. induction fuel as [|fuel IH]; intros a s HI; [done|]. simpl.
  destruct (Hbody a s HI) as [Heq Hnext]. unfold mbind, prog_bind. rewrite Heq.
  destruct (body a s) as [[a'|b] s'|]; [|done..]. by apply IH, Hnext.
Qed.

(** Fuel above the measure finishes the loop, whatever fuel above it is taken. *)
Lemma loop_within {A B} (I : A → S → Prop) (μ : A → S → nat) (Q : S → Prop) (body : A → prog S (A + B)) fuel fuel' a s :
  (∀ a s, I a s →
    wp (body a) (λ r s', match r with inl a' => I a' s' ∧ (μ a' s' < μ a s)%nat | inr _ => Q s' end) s) →
  I a s → (μ a s < fuel)%nat → (μ a s < fuel')%nat →
  ∃ b s', loop fuel body a s = Done b s' ∧ loop fuel' body a s = Done b s' ∧ Q s'.
Proof.
  intros Hbody HI Hf Hf'.
  assert (wp (loop (Datatypes.S (μ a s)) body a) (λ _, Q) s) as Hwp by (eapply wp_loop; [done|done|lia]).
  apply wp_exec in Hwp as (b & s' & Hrun & HQ).
  exists b, s'. split_and!; [eapply loop_mono; [exact Hrun|lia]..|done].
Qed.
End wp_rules.

#[export] Instance wp_proper {S A} (m : prog S A) :
  Proper (pointwise_relation A (pointwise_relation S impl) ==> eq ==> impl) (wp m).
Proof. intros Q R HQR s ? <- H. eapply wp_mono; [done|]. intros; by apply HQR. Qed.

#[export] Instance wp_iff_proper {S A} (m : prog S A) :
  Proper (pointwise_relation A (pointwise_relation S iff) ==> eq ==> iff) (wp m).
Proof.
  intros Q R HQR s ? <-.
  split; intros H; (eapply wp_mono; [done|]); intros ? ?; by apply HQR.
Qed.

(** ** Tactics *)

(** One step of symbolic execution. *)
Ltac wp_step :=
  match goal with
  | |- wp (_ ≫= _) _ _ => apply wp_bind
  | |- wp (mret _) _ _ => apply wp_ret
  | |- wp (gets _) _ _ => apply wp_gets
  | |- wp get _ _ => apply wp_get
  | |- wp (put _) _ _ => apply wp_put
  | |- wp (modify _) _ _ => apply wp_modify
  | |- wp (zoom _ _ _) _ _ => apply wp_zoom
  | |- wp (when _ _) _ _ => apply wp_when; intros ?
  | |- wp (of_option _ (Some _)) _ _ => eapply wp_of_option; [done|]
  | |- wp (match ?x with _ => _ end) _ _ => let E := fresh "E" in destruct x eqn:E
  end.

Ltac wp_go := repeat (wp_step; simpl).

(** Turn boolean tests into propositions. *)
Ltac b2p :=
  repeat match goal with
  | H : (_ && _) = true |- _ => apply andb_true_iff in H; destruct H
  | H : (_ || _) = false |- _ => apply orb_false_iff in H; destruct H
  | H : negb _ = true |- _ => apply negb_true_iff in H
  | H : negb _ = false |- _ => apply negb_false_iff in H
  | H : (_ <? _) = true |- _ => apply Z.ltb_lt in H
  | H : (_ <? _) = false |- _ => apply Z.ltb_ge in H
  | H : (_ <=? _) = true |- _ => apply Z.leb_le in H
  | H : (_ <=? _) = false |- _ => apply Z.leb_gt in H
  | H : (_ =? _) = true |- _ => apply Z.eqb_eq in H
  | H : (_ =? _) = false |- _ => apply Z.eqb_neq in H
  | H : bool_decide _ = true |- _ => apply bool_decide_eq_true in H
  | H : bool_decide _ = false |- _ => apply bool_decide_eq_false in H
  end.

Create HintDb np discriminated.
#[export] Hint Resolve wp_ret wp_gets wp_modify : np.

(** ** Machine integers: conversions that change nothing *)

Lemma to_size_id z : 0 ≤ z ≤ SIZE_MAX → to_size z = z.
Proof. unfold SIZE_MAX. intros. apply Z.mod_small. lia. Qed.

Lemma to_u32_id z : 0 ≤ z < 2 ^ 32 → to_u32 z = z.
Proof. intros. by apply Z.mod_small. Qed.

Lemma to_i64_id z : 0 ≤ z ≤ INT64_MAX → to_i64 z = z.
Proof.
  unfold to_i64, INT64_MAX. intros. rewrite Z.mod_small by lia.
  destruct (Z.ltb_spec z (2 ^ 63)); lia.
Qed.

(** ** Lists: exchanging two elements *)

Definition list_swap {A} (i j : nat) (l : list A) : list A :=
  match l !! i, l !! j with
  | Some a, Some b => <[i:=b]> (<[j:=a]> l)
  | _, _ => l
  end.

Section list_swap.
Context {A : Type}.
Implicit Types l : list A.

Lemma length_list_swap i j l : length (list_swap i j l) = length l.
Proof.
  unfold list_swap. destruct (l !! i), (l !! j); try done. by rewrite !length_insert.
Qed.

Lemma list_lookup_swap i j k l :
  (i < length l)%nat → (j < length l)%nat →
  list_swap i j l !! k =
    if decide (k = i) then l !! j else if decide (k = j) then l !! i else l !! k.
Proof.
  intros Hi Hj. unfold list_swap.
  destruct (lookup_lt_is_Some_2 l i Hi) as [a Ha].
  destruct (lookup_lt_is_Some_2 l j Hj) as [b Hb]. rewrite Ha, Hb.
  destruct (decide (k = i)) as [->|Hki].
  { apply list_lookup_insert_eq. by rewrite length_insert. }
  rewrite list_lookup_insert_ne by done.
  destruct (decide (k = j)) as [->|Hkj]; [by apply list_lookup_insert_eq|].
  by rewrite list_lookup_insert_ne.
Qed.

Lemma list_swap_perm i j l :
  (i < length l)%nat → (j < length l)%nat → list_swap i j l ≡ₚ l.
Proof.
  intros Hi Hj. apply Permutation_inj. split; [apply length_list_swap|].
  exists (λ k, if decide (k = i) then j else if decide (k = j) then i else k).
  split; [intros x y; repeat case_decide; congruence|].
  intros k. rewrite list_lookup_swap by done. repeat case_decide; done.
Qed.
End list_swap.
