(* ===== verification/Heap.v ===== *)
(** * The binary heap of [DataStructures/Heap.h]

    The class template [NP::Heap<T>]: a vector kept in heap order by [heapify]
    (downwards) and [siftUp] (upwards).  Indices are [int64_t] values held in
    [Z]: a read outside the vector stops with [FUndefined], an index
    computation outside the 64-bit range with [FOverflow], and a loop that
    would not finish with [FFuel]. *)

From stdpp Require Import sorting.
From S2P Require Import Prelude.

(** The operators [<] and [>] of the element type. *)
Class Comparable (T : Type) := {
  ltb : T → T → bool;
  gtb : T → T → bool;
}.

(** What [std::less]-like code may ask of them: [<] is a strict weak order, and
    [>] is its converse. *)
Class ComparableLaws (T : Type) `{Comparable T} : Prop := {
  ltb_asym : ∀ a b : T, ltb a b = true → ltb b a = false;
  ltb_cotrans : ∀ a b c : T, ltb a b = false → ltb b c = false → ltb a c = false;
  gtb_ltb : ∀ a b : T, gtb a b = ltb b a;
}.

Module Heap.
Inductive HeapType := max | min.

#[export] Instance HeapType_eq_dec : EqDecision HeapType.
Proof. solve_decision. Defined.

Record heap (T : Type) := mkHeap {
  storage : list T;
  type : HeapType;
}.
Arguments mkHeap {T} _ _.
Arguments storage {T} _.
Arguments type {T} _.

Section ops.
Context {T : Type} `{Comparable T}.

Definition set_storage (st : list T) (h : heap T) : heap T := mkHeap st (type h).

(** [storage[i]]: the index is converted to [size_t], so a negative one is as
    far out of range as one past the end. *)
Definition at_ (i : Z) : prog (heap T) T :=
  st ← gets storage;
  if 0 <=? i then of_option FUndefined (st !! Z.to_nat i) else stop FUndefined.

Definition getType : prog (heap T) HeapType := gets type.

Definition size : prog (heap T) Z := st ← gets storage; mret (to_i64 (Z.of_nat (length st))).

Definition empty : prog (heap T) bool :=
  st ← gets storage; mret (match st with [] => true | _ => false end).

Definition clear : prog (heap T) unit := modify (set_storage []).

(** [std::vector::reserve] changes no element; it throws past [max_size()]. *)
Definition reserve (max_size : Z) (capacity : Z) : prog (heap T) unit :=
  when (0 <? capacity) (when (max_size <? to_size capacity) (stop FThrow)).

Definition top : prog (heap T) (option T) :=
  b ← empty;
  if (b : bool) then mret None else x ← at_ 0; mret (Some x).

Definition lessThan (lhs rhs : Z) : prog (heap T) bool :=
  a ← at_ lhs; b ← at_ rhs; mret (ltb a b).

Definition greaterThan (lhs rhs : Z) : prog (heap T) bool :=
  a ← at_ lhs; b ← at_ rhs; mret (gtb a b).

Definition parentIndex (idx : Z) : prog (heap T) Z := t ← i64 (idx - 1); mret (Z.quot t 2).

Definition leftIndex (idx : Z) : prog (heap T) Z := t ← i64 (2 * idx); i64 (t + 1).

Definition rightIndex (idx : Z) : prog (heap T) Z := t ← i64 (2 * idx); i64 (t + 2).

Definition set_at (i : Z) (x : T) : prog (heap T) unit :=
  modify (λ h, set_storage (<[Z.to_nat i := x]> (storage h)) h).

Definition swap (lhs rhs : Z) : prog (heap T) unit :=
  a ← at_ lhs; b ← at_ rhs; set_at rhs a;; set_at lhs b.

Definition comparator (lhs rhs : Z) : prog (heap T) bool :=
  t ← getType;
  match t with
  | min => lessThan lhs rhs
  | max => greaterThan lhs rhs
  end.

(** One round of the [while (left < size)] loop of [heapify]. *)
Definition heapify_body (size : Z) (il : Z * Z) : prog (heap T) ((Z * Z) + unit) :=
  let '(idx, left_) := il in
  if left_ <? size then
    c ← comparator left_ idx;
    let next := if (c : bool) then left_ else idx in
    right ← rightIndex idx;
    c' ← (if right <? size then comparator right next else mret false);
    let next := if (c' : bool) then right else next in
    if negb (next =? idx) then
      swap idx next;;
      left' ← leftIndex next;
      mret (inl (next, left'))
    else mret (inr tt)
  else mret (inr tt).

Definition heapify (idx size : Z) : prog (heap T) unit :=
  left_ ← leftIndex idx;
  loop (S (Z.to_nat size)) (heapify_body size) (idx, left_).

(** One round of the [while (idx > 0)] loop of [siftUp]. *)
Definition siftUp_body (idx : Z) : prog (heap T) (Z + unit) :=
  if 0 <? idx then
    parent ← parentIndex idx;
    c ← comparator idx parent;
    if negb c then mret (inr tt)
    else swap idx parent;; mret (inl parent)
  else mret (inr tt).

Definition siftUp (idx : Z) : prog (heap T) unit :=
  loop (S (Z.to_nat idx)) siftUp_body idx.

(** One round of the [for (idx = size / 2 - 1; idx >= 0; idx --)] loop of [build]. *)
Definition build_body (size : Z) (idx : Z) : prog (heap T) (Z + unit) :=
  if 0 <=? idx then
    heapify idx size;;
    idx' ← i64 (idx - 1);
    mret (inl idx')
  else mret (inr tt).

Definition build : prog (heap T) unit :=
  n ← size;
  idx ← i64 (Z.quot n 2 - 1);
  loop (S (Z.to_nat n)) (build_body n) idx.

Definition push (value : T) : prog (heap T) unit :=
  modify (λ h, set_storage (storage h ++ [value]) h);;
  n ← size;
  idx ← i64 (n - 1);
  siftUp idx.

Definition pop : prog (heap T) (option T) :=
  n ← size;
  if n <? 1 then mret None
  else
    n ← i64 (n - 1);
    when (0 <? n) (swap 0 n;; heapify 0 n);;
    value ← at_ n;
    modify (λ h, set_storage (removelast (storage h)) h);;
    mret (Some value).

(** The constructors: an empty heap, and one built from a list. *)
Definition make (t : HeapType) : heap T := mkHeap [] t.

Definition make_from (list : list T) (t : HeapType) : outcome (heap T) unit :=
  build (mkHeap list t).

End ops.

(** ** The order of a heap *)

Section order.
Context {T : Type} `{ComparableLaws T}.
Implicit Types (st : list T) (x y z : T) (t : HeapType) (h : heap T).

(** [before t x y]: [comparator] holds of [x] and [y] in a heap of type [t],
    so [x] belongs nearer the top than [y]. *)
Definition before t x y : bool := match t with min => ltb x y | max => gtb x y end.

Lemma before_asym t x y : before t x y = true → before t y x = false.
Proof. destruct t; simpl; rewrite ?gtb_ltb; apply ltb_asym. Qed.

Lemma before_irrefl t x : before t x x = false.
Proof. destruct (before t x x) eqn:E; [|done]. by rewrite (before_asym t x x E) in E. Qed.

Lemma not_before_trans t x y z :
  before t x y = false → before t y z = false → before t x z = false.
Proof.
  destruct t; simpl; rewrite ?gtb_ltb; [intros; by eapply ltb_cotrans|apply ltb_cotrans].
Qed.

(** The edge from parent [p] to child [c] is in order. *)
Definition edge_ok t st (p c : nat) : Prop :=
  ∀ x y, st !! p = Some x → st !! c = Some y → before t y x = false.

(** No element of [ms] belongs before [x]. *)
Definition extremal t x (ms : list T) : Prop := ∀ y, y ∈ ms → before t y x = false.

Definition child (p c : nat) : Prop := c = (2 * p + 1)%nat ∨ c = (2 * p + 2)%nat.

(** Every edge inside the first [n] elements whose parent is at [k] or later is
    in order. *)
Definition heap_from t (k n : nat) st : Prop :=
  ∀ p c, child p c → (c < n)%nat → (k ≤ p)%nat → edge_ok t st p c.

Definition heap_ordered (h : heap T) : Prop :=
  heap_from (type h) 0 (length (storage h)) (storage h).

(** [heap_ordered] as a test. *)
Definition heap_orderedb (h : heap T) : bool :=
  forallb (λ c, match storage h !! c, storage h !! ((c - 1) / 2)%nat with
                | Some x, Some y => negb (before (type h) x y)
                | _, _ => true
                end) (seq 1 (length (storage h) - 1)).

Lemma before_trans t x y z : before t x y = true → before t y z = true → before t x z = true.
Proof.
  intros Hxy Hyz. destruct (before t x z) eqn:E; [done|].
  rewrite <- Hxy. symmetry. eapply not_before_trans; [done|by apply before_asym].
Qed.

(** *** Sifting down, as a fact about lists *)

(** All edges from [k] on are in order, except those from [i] to its children. *)
Record down_inv t (k n i : nat) st : Prop := {
  down_edges : ∀ p c, child p c → (c < n)%nat → (k ≤ p)%nat → p ≠ i → edge_ok t st p c;
  down_grand : ∀ q c, child q i → child i c → (c < n)%nat → (k ≤ q)%nat → edge_ok t st q c;
}.

(** [j] is the child [heapify] exchanges [i] with. *)
Record best_child t (n i j : nat) st : Prop := {
  best_is_child : child i j;
  best_lt : (j < n)%nat;
  best_before : ∀ x y, st !! i = Some x → st !! j = Some y → before t y x = true;
  best_rest : ∀ c, child i c → (c < n)%nat → edge_ok t st j c;
}.

Lemma parent_exists (c : nat) : (0 < c)%nat → ∃ p, child p c.
Proof.
  intros Hc. exists ((c - 1) / 2)%nat.
  pose proof (Nat.div_mod_eq (c - 1) 2). pose proof (Nat.mod_upper_bound (c - 1) 2).
  unfold child. lia.
Qed.

Lemma best_child_intro t n i j st x y :
  st !! i = Some x → st !! j = Some y → child i j → (j < n)%nat → before t y x = true →
  (∀ c z, child i c → (c < n)%nat → st !! c = Some z → before t z y = false) →
  best_child t n i j st.
Proof.
  intros Hx Hy Hij Hj Hb Hr. split; [done|done|congruence|].
  intros c Hc Hn y' z Hy' Hz. simplify_eq. by eapply Hr.
Qed.

Lemma down_inv_start t k n st : heap_from t (S k) n st → down_inv t k n k st.
Proof.
  intros Hh. split.
  - intros p c Hc Hn Hk Hp. apply Hh; [done..|lia].
  - intros q c Hq Hc Hn Hk. unfold child in *. lia.
Qed.

Lemma down_inv_done t k n i st :
  down_inv t k n i st → (∀ c, child i c → (c < n)%nat → edge_ok t st i c) → heap_from t k n st.
Proof.
  intros [He _] Hi p c Hc Hn Hk. destruct (decide (p = i)) as [->|]; [by apply Hi|by apply He].
Qed.

Lemma down_inv_step t k n i j st :
  (n ≤ length st)%nat → (k ≤ i)%nat → down_inv t k n i st → best_child t n i j st →
  down_inv t k n j (list_swap i j st).
Proof.
  intros Hlen Hk [He Hg] [Hij Hj Hb Hr].
  assert (i < j)%nat as Hlt by (unfold child in Hij; lia).
  assert (i < length st)%nat as Hi by lia. assert (j < length st)%nat as Hj' by lia.
  destruct (lookup_lt_is_Some_2 st i Hi) as [x Hx].
  destruct (lookup_lt_is_Some_2 st j Hj') as [y Hy].
  split.
  - intros p c Hpc Hc Hkp Hpj a b. rewrite !list_lookup_swap by done.
    assert (c ≠ p) by (unfold child in Hpc; lia).
    destruct (decide (p = i)) as [->|Hpi]; repeat case_decide; intros Ha Hbb; simplify_eq.
    + apply before_asym. by eapply Hb.
    + eapply (Hr c); done.
    + eapply (Hg p j); done.
    + exfalso. unfold child in *. lia.
    + eapply (He p c); done.
  - intros q c Hqj Hjc Hc Hkq a b. rewrite !list_lookup_swap by done.
    assert (q = i) as -> by (unfold child in *; lia).
    rewrite decide_True by done.
    assert (c ≠ i ∧ c ≠ j) as [??] by (unfold child in Hjc; lia).
    rewrite !decide_False by done. intros Ha Hbb.
    eapply (He j c); [done|done|lia|lia|done|done].
Qed.

(** *** Sifting up, as a fact about lists *)

(** All edges of the first [n] elements are in order, except the one into [i]. *)
Record up_inv t (n i : nat) st : Prop := {
  up_edges : ∀ p c, child p c → (c < n)%nat → c ≠ i → edge_ok t st p c;
  up_grand : ∀ q c, child q i → child i c → (c < n)%nat → edge_ok t st q c;
}.

Lemma up_inv_done t n i st :
  up_inv t n i st → (∀ p, child p i → edge_ok t st p i) → heap_from t 0 n st.
Proof.
  intros [He _] Hi p c Hc Hn _. destruct (decide (c = i)) as [->|]; [by apply Hi|by apply He].
Qed.

Lemma up_inv_step t n i p st :
  (n ≤ length st)%nat → (i < n)%nat → child p i → up_inv t n i st →
  (∀ x y, st !! p = Some x → st !! i = Some y → before t y x = true) →
  up_inv t n p (list_swap i p st).
Proof.
  intros Hlen Hin Hpi [He Hg] Hb.
  assert (p < i)%nat as Hlt by (unfold child in Hpi; lia).
  assert (i < length st)%nat as Hi by lia. assert (p < length st)%nat as Hp by lia.
  destruct (lookup_lt_is_Some_2 st i Hi) as [y Hy].
  destruct (lookup_lt_is_Some_2 st p Hp) as [x Hx].
  split.
  - intros p' c Hpc Hc Hcp a b. rewrite !list_lookup_swap by done.
    assert (c ≠ p') by (unfold child in Hpc; lia).
    destruct (decide (c = i)) as [->|Hci].
    { assert (p' = p) as -> by (unfold child in *; lia).
      rewrite (decide_False (P := p = i)), decide_True by lia. intros Ha ?; simplify_eq.
      apply before_asym. by eapply Hb. }
    rewrite (decide_False (P := c = p)) by done.
    repeat case_decide; intros Ha Hbb; simplify_eq.
    + eapply (Hg p c); done.
    + eapply not_before_trans; [eapply (He p c); done|].
      apply before_asym. by eapply Hb.
    + eapply (He p' c); done.
  - intros q c Hqp Hpc Hc a b. rewrite !list_lookup_swap by done.
    assert (q ≠ i ∧ q ≠ p) as [??] by (unfold child in *; lia).
    rewrite (decide_False (P := q = i)), (decide_False (P := q = p)) by done.
    assert (∀ z, st !! q = Some z → before t x z = false) as Hqx.
    { intros z Hz. eapply (He q p); [done|lia|lia|done|done]. }
    repeat case_decide; intros Ha Hbb; simplify_eq.
    + by apply Hqx.
    + unfold child in *. lia.
    + eapply not_before_trans; [eapply (He p c); done|by apply Hqx].
Qed.
(** *** Rules for the small operations *)

Lemma wp_at (i : nat) x Q h :
  storage h !! i = Some x → Q x h → wp (at_ (Z.of_nat i)) Q h.
Proof.
  intros Hx HQ. unfold at_. wp_go; [|b2p; lia].
  rewrite Nat2Z.id. by eapply wp_of_option.
Qed.

Lemma wp_size Q h :
  Z.of_nat (length (storage h)) ≤ INT64_MAX → Q (Z.of_nat (length (storage h))) h → wp size Q h.
Proof. intros Hl HQ. unfold size. wp_go. rewrite to_i64_id by lia. done. Qed.

Lemma wp_leftIndex (i : nat) Q h :
  2 * Z.of_nat i + 1 ≤ INT64_MAX → Q (Z.of_nat (2 * i + 1)) h →
  wp (leftIndex (Z.of_nat i)) Q h.
Proof.
  intros Hi HQ. unfold leftIndex. wp_step. apply wp_i64; [unfold INT64_MIN; lia|].
  apply wp_i64; [unfold INT64_MIN; lia|]. by replace (2 * _ + 1) with (Z.of_nat (2 * i + 1)) by lia.
Qed.

Lemma wp_rightIndex (i : nat) Q h :
  2 * Z.of_nat i + 2 ≤ INT64_MAX → Q (Z.of_nat (2 * i + 2)) h →
  wp (rightIndex (Z.of_nat i)) Q h.
Proof.
  intros Hi HQ. unfold rightIndex. wp_step. apply wp_i64; [unfold INT64_MIN; lia|].
  apply wp_i64; [unfold INT64_MIN; lia|]. by replace (2 * _ + 2) with (Z.of_nat (2 * i + 2)) by lia.
Qed.

Lemma wp_parentIndex (p i : nat) Q h :
  child p i → Z.of_nat i ≤ INT64_MAX → Q (Z.of_nat p) h →
  wp (parentIndex (Z.of_nat i)) Q h.
Proof.
  unfold child. intros Hi Hm HQ. unfold parentIndex. wp_step.
  apply wp_i64; [unfold INT64_MIN; lia|]. wp_step.
  replace (Z.quot _ 2) with (Z.of_nat p); [done|].
  rewrite Z.quot_div_nonneg by lia. Z.to_euclidean_division_equations. lia.
Qed.

Lemma wp_comparator (i j : nat) x y Q h :
  storage h !! i = Some x → storage h !! j = Some y →
  Q (before (type h) x y) h → wp (comparator (Z.of_nat i) (Z.of_nat j)) Q h.
Proof.
  intros Hx Hy HQ. unfold comparator, getType. wp_step. apply wp_gets.
  destruct (type h); unfold greaterThan, lessThan.
  all: wp_step; (eapply wp_at; [done|]); wp_step; (eapply wp_at; [done|]).
  all: by apply wp_ret.
Qed.

Lemma wp_swap (i j : nat) Q h :
  (i < length (storage h))%nat → (j < length (storage h))%nat →
  Q tt (mkHeap (list_swap i j (storage h)) (type h)) →
  wp (swap (Z.of_nat i) (Z.of_nat j)) Q h.
Proof.
  intros Hi Hj HQ.
  destruct (lookup_lt_is_Some_2 _ i Hi) as [x Hx].
  destruct (lookup_lt_is_Some_2 _ j Hj) as [y Hy].
  unfold swap. wp_step. eapply wp_at; [done|]. wp_step. eapply wp_at; [done|].
  unfold set_at. wp_go. unfold set_storage; simpl. rewrite !Nat2Z.id.
  unfold list_swap in HQ. by rewrite Hx, Hy in HQ.
Qed.

(** *** [heapify] *)

(** What one round of the loop does: either the node is in order with its
    children and nothing changes, or it is exchanged with its best child. *)
Lemma wp_heapify_body (n i : nat) Q h :
  (n ≤ length (storage h))%nat → (i < n)%nat → Z.of_nat n ≤ 2 ^ 62 →
  ((∀ c, child i c → (c < n)%nat → edge_ok (type h) (storage h) i c) → Q (inr tt) h) →
  (∀ j, best_child (type h) n i j (storage h) →
    Q (inl (Z.of_nat j, Z.of_nat (2 * j + 1))) (mkHeap (list_swap i j (storage h)) (type h))) →
  wp (heapify_body (Z.of_nat n) (Z.of_nat i, Z.of_nat (2 * i + 1))) Q h.
Proof.
  intros Hn Hi Hmax Hdone Hswap. unfold heapify_body.
  destruct (lookup_lt_is_Some_2 (storage h) i) as [x Hx]; [lia|].
  destruct (Z.ltb_spec (Z.of_nat (2 * i + 1)) (Z.of_nat n)) as [Hl|Hl]; last first.
  { apply wp_ret, Hdone. unfold child. lia. }
  destruct (lookup_lt_is_Some_2 (storage h) (2 * i + 1)) as [y Hy]; [lia|].
  assert (∀ j, best_child (type h) n i j (storage h) → wp
    (if negb (Z.of_nat j =? Z.of_nat i) then
       swap (Z.of_nat i) (Z.of_nat j);; left' ← leftIndex (Z.of_nat j);
       mret (inl (Z.of_nat j, left'))
     else mret (inr tt)) Q h) as Hstep.
  { intros j Hj. pose proof (best_is_child _ _ _ _ _ Hj) as Hc.
    pose proof (best_lt _ _ _ _ _ Hj).
    rewrite (proj2 (Z.eqb_neq _ _)) by (unfold child in Hc; lia). simpl. wp_step.
    apply wp_swap; [lia|lia|]. wp_step. apply wp_leftIndex; [unfold INT64_MAX; lia|].
    apply wp_ret. by apply Hswap. }
  wp_step. eapply wp_comparator; [done|done|]. simpl. wp_step.
  apply wp_rightIndex; [unfold INT64_MAX; lia|]. wp_step.
  assert (∀ c, child i c → c = (2 * i + 1)%nat ∨ c = (2 * i + 2)%nat) as Hcs by done.
  destruct (Z.ltb_spec (Z.of_nat (2 * i + 2)) (Z.of_nat n)) as [Hr|Hr].
  - destruct (lookup_lt_is_Some_2 (storage h) (2 * i + 2)) as [z Hz]; [lia|].
    destruct (before (type h) y x) eqn:Eyx; (eapply wp_comparator; [done|done|]).
    + destruct (before (type h) z y) eqn:Ezy; apply Hstep.
      * eapply best_child_intro; [done|done|by right|lia|by eapply before_trans|].
        intros c w [->| ->]%Hcs _ Hw; simplify_eq; [by apply before_asym|apply before_irrefl].
      * eapply best_child_intro; [done|done|by left|lia|done|].
        intros c w [->| ->]%Hcs _ Hw; simplify_eq; [apply before_irrefl|done].
    + destruct (before (type h) z x) eqn:Ezx.
      * apply Hstep. eapply best_child_intro; [done|done|by right|lia|done|].
        intros c w [->| ->]%Hcs _ Hw; simplify_eq; [|apply before_irrefl].
        eapply not_before_trans; [done|by apply before_asym].
      * rewrite Z.eqb_refl. simpl. apply wp_ret, Hdone.
        by intros c [->| ->]%Hcs _ a b Ha Hb; simplify_eq.
  - apply wp_ret. destruct (before (type h) y x) eqn:Eyx.
    + apply Hstep. eapply best_child_intro; [done|done|by left|lia|done|].
      intros c w [->| ->]%Hcs Hc Hw; [|lia]. simplify_eq. apply before_irrefl.
    + rewrite Z.eqb_refl. simpl. apply wp_ret, Hdone.
      intros c [->| ->]%Hcs Hc a b Ha Hb; [|lia]. by simplify_eq.
Qed.

(** [heapify] finishes, moves only elements below [n], and extends the heap
    order from the nodes after [k] to [k] itself. *)
Lemma wp_heapify (k n : nat) Q h :
  (n ≤ length (storage h))%nat → (k < n)%nat → Z.of_nat n ≤ 2 ^ 62 →
  heap_from (type h) (S k) n (storage h) →
  (∀ st', st' ≡ₚ storage h → (∀ m, (n ≤ m)%nat → st' !! m = storage h !! m) →
    heap_from (type h) k n st' → Q tt (mkHeap st' (type h))) →
  wp (heapify (Z.of_nat k) (Z.of_nat n)) Q h.
Proof.
  intros Hlen Hk Hmax Hh HQ. unfold heapify. wp_step.
  apply wp_leftIndex; [unfold INT64_MAX; lia|].
  apply (wp_loop (λ il h', ∃ i st', il = (Z.of_nat i, Z.of_nat (2 * i + 1)) ∧
      h' = mkHeap st' (type h) ∧ (k ≤ i < n)%nat ∧ st' ≡ₚ storage h ∧
      (∀ m, (n ≤ m)%nat → st' !! m = storage h !! m) ∧ down_inv (type h) k n i st')
    (λ il _, (n - Z.to_nat il.1)%nat)).
  - intros il h' (i & st' & -> & -> & Hi & Hp & Hm & Hinv). simpl.
    assert (length st' = length (storage h)) as Hl by by apply Permutation_length.
    apply wp_heapify_body; simpl; [lia|lia|lia| |].
    + intros Hok. apply HQ; [done..|]. by eapply down_inv_done.
    + intros j Hj. pose proof (best_is_child _ _ _ _ _ Hj) as Hc.
      pose proof (best_lt _ _ _ _ _ Hj).
      assert (i < j)%nat by (unfold child in Hc; lia).
      split; [|lia]. exists j, (list_swap i j st').
      split_and!; [done|done|lia|lia| | |apply down_inv_step; [lia|lia|done|done]].
      * etrans; [apply list_swap_perm; lia|done].
      * intros m Hnm. rewrite list_lookup_swap, !decide_False by lia. by apply Hm.
  - exists k, (storage h).
    split_and!; [done|by destruct h|lia|lia|done|done|by apply down_inv_start].
  - simpl. lia.
Qed.

(** *** [siftUp], [push], [build], [pop] *)

(** One round of [siftUp]: the element is in order with its parent, if it has
    one, or is exchanged with it. *)
Lemma wp_siftUp_body (j : nat) Q h :
  (j < length (storage h))%nat → Z.of_nat (length (storage h)) ≤ 2 ^ 62 →
  ((∀ p, child p j → edge_ok (type h) (storage h) p j) → Q (inr tt) h) →
  (∀ p, child p j →
    (∀ x y, storage h !! p = Some x → storage h !! j = Some y → before (type h) y x = true) →
    Q (inl (Z.of_nat p)) (mkHeap (list_swap j p (storage h)) (type h))) →
  wp (siftUp_body (Z.of_nat j)) Q h.
Proof.
  intros Hj Hmax Hdone Hswap. unfold siftUp_body.
  destruct (Z.ltb_spec 0 (Z.of_nat j)) as [Hpos|Hpos]; last first.
  { apply wp_ret, Hdone. intros p Hp. unfold child in Hp. lia. }
  destruct (parent_exists j) as [p Hch]; [lia|].
  assert (p < j)%nat as Hlt by (unfold child in Hch; lia).
  wp_step. apply (wp_parentIndex p); [done|unfold INT64_MAX; lia|]. wp_step.
  destruct (lookup_lt_is_Some_2 (storage h) j) as [y Hy]; [lia|].
  destruct (lookup_lt_is_Some_2 (storage h) p) as [x Hx]; [lia|].
  eapply wp_comparator; [done|done|]. simpl.
  destruct (before (type h) y x) eqn:E; simpl.
  - wp_step. apply wp_swap; [lia|lia|]. apply wp_ret, Hswap; [done|]. intros; by simplify_eq.
  - apply wp_ret, Hdone. intros p' Hp'. replace p' with p by (unfold child in *; lia).
    intros a b ??; by simplify_eq.
Qed.

Lemma wp_siftUp (i : nat) Q h :
  (i < length (storage h))%nat → Z.of_nat (length (storage h)) ≤ 2 ^ 62 →
  up_inv (type h) (length (storage h)) i (storage h) →
  (∀ st', st' ≡ₚ storage h → heap_ordered (mkHeap st' (type h)) → Q tt (mkHeap st' (type h))) →
  wp (siftUp (Z.of_nat i)) Q h.
Proof.
  intros Hi Hmax Hinv HQ. unfold siftUp.
  apply (wp_loop (λ idx h', ∃ j st', idx = Z.of_nat j ∧ h' = mkHeap st' (type h) ∧
      (j < length (storage h))%nat ∧ st' ≡ₚ storage h ∧
      up_inv (type h) (length (storage h)) j st') (λ idx _, Z.to_nat idx)).
  - intros idx h' (j & st' & -> & -> & Hj & Hp & Hup).
    assert (length st' = length (storage h)) as Hl by by apply Permutation_length.
    apply wp_siftUp_body; simpl; [lia|lia| |].
    + intros Hok. apply HQ; [done|]. unfold heap_ordered; simpl. rewrite Hl. by eapply up_inv_done.
    + intros p Hch Hb. assert (p < j)%nat as Hlt by (unfold child in Hch; lia). split; [|lia].
      exists p, (list_swap j p st').
      split_and!; [done|done|lia| |by apply up_inv_step; [lia|..]].
      etrans; [apply list_swap_perm; lia|done].
  - exists i, (storage h). split_and!; [done|by destruct h|done..].
  - lia.
Qed.

(** *** How many rounds they take *)

Lemma log2_child (p c : nat) : child p c → (Nat.log2 (p + 1) < Nat.log2 (c + 1))%nat.
Proof.
  intros Hc. assert (2 * (p + 1) ≤ c + 1)%nat as Hle by (unfold child in Hc; lia).
  apply Nat.log2_le_mono in Hle. rewrite Nat.log2_double in Hle by lia. lia.
Qed.

(** One level further down there is room for half as many. *)
Lemma log2_levels (m p c : nat) :
  child p c → (c < m)%nat → (Nat.log2 (m / (c + 1)) < Nat.log2 (m / (p + 1)))%nat.
Proof.
  intros Hc Hm. assert (2 * (m / (c + 1)) ≤ m / (p + 1))%nat as Hle.
  { apply Nat.div_le_lower_bound; [lia|]. pose proof (Nat.Div0.mul_div_le m (c + 1)).
    unfold child in Hc. nia. }
  assert (1 ≤ m / (c + 1))%nat as H1 by (apply Nat.div_le_lower_bound; lia).
  apply Nat.log2_le_mono in Hle. rewrite Nat.log2_double in Hle by lia. lia.
Qed.

Lemma up_inv_snoc t st x :
  heap_from t 0 (length st) st → up_inv t (S (length st)) (length st) (st ++ [x]).
Proof.
  intros Hh. split.
  - intros p c Hpc Hc Hne a b. assert (c < length st)%nat by lia.
    rewrite !lookup_app_l by (unfold child in Hpc; lia). by apply Hh; [..|lia].
  - intros q c Hq Hc Hn. unfold child in *. lia.
Qed.

Lemma wp_push x Q h :
  heap_ordered h → Z.of_nat (length (storage h)) < 2 ^ 62 →
  (∀ h', type h' = type h → storage h' ≡ₚ x :: storage h → heap_ordered h' → Q tt h') →
  wp (push x) Q h.
Proof.
  intros Hh Hmax HQ. unfold push. wp_step. apply wp_modify. wp_step.
  apply wp_size; unfold set_storage; simpl; rewrite length_app; simpl.
  { unfold INT64_MAX. lia. }
  wp_step. apply wp_i64; [unfold INT64_MAX, INT64_MIN; lia|].
  replace (_ - 1) with (Z.of_nat (length (storage h))) by lia.
  apply wp_siftUp; simpl; rewrite ?length_app; simpl; [lia|lia| |].
  - rewrite Nat.add_1_r. by apply up_inv_snoc.
  - intros st' Hp Ho. apply HQ; simpl; [done| |done].
    rewrite Hp. by rewrite Permutation_app_comm.
Qed.

Lemma wp_build Q h :
  Z.of_nat (length (storage h)) ≤ 2 ^ 62 →
  (∀ h', type h' = type h → storage h' ≡ₚ storage h → heap_ordered h' → Q tt h') →
  wp build Q h.
Proof.
  intros Hmax HQ. unfold build. set (n := length (storage h)) in *.
  assert (Z.of_nat n ≤ INT64_MAX) by (unfold INT64_MAX; lia).
  wp_step. apply wp_size; [done|]. fold n. wp_step.
  rewrite Z.quot_div_nonneg by lia.
  assert (Z.of_nat n `div` 2 = Z.of_nat (n / 2)) as ->.
  { change 2 with (Z.of_nat 2). by rewrite <- Nat2Z.inj_div. }
  pose proof (Nat.div_mod_eq n 2). pose proof (Nat.mod_upper_bound n 2).
  set (m := (n / 2)%nat) in *. clearbody m.
  apply wp_i64; [unfold INT64_MIN, INT64_MAX; lia|].
  apply (wp_loop (λ idx h', ∃ k, idx = Z.of_nat k - 1 ∧ (2 * k ≤ n)%nat ∧ type h' = type h ∧
      storage h' ≡ₚ storage h ∧ heap_from (type h) k n (storage h'))
    (λ idx _, Z.to_nat (idx + 1))).
  - intros idx h' (k & -> & Hk & Ht & Hp & Hh). unfold build_body.
    assert (length (storage h') = n) as Hl by by apply Permutation_length.
    destruct (Z.leb_spec 0 (Z.of_nat k - 1)) as [Hpos|Hneg].
    + wp_step. replace (Z.of_nat k - 1) with (Z.of_nat (k - 1)) by lia.
      apply wp_heapify; [lia|lia|lia| |].
      { rewrite Ht. by replace (S (k - 1)) with k by lia. }
      intros st' Hp' _ Hh'. wp_step. apply wp_i64; [unfold INT64_MIN, INT64_MAX; lia|].
      apply wp_ret. split; [|lia]. exists (k - 1)%nat. simpl.
      split_and!; [lia|lia|done|by rewrite Hp'|by rewrite <- Ht].
    + apply wp_ret, HQ; [done|done|]. unfold heap_ordered. rewrite Ht, Hl.
      by replace 0%nat with k by lia.
  - exists m. split_and!; [done|lia|done|done|]. intros p c Hpc Hc Hp. unfold child in Hpc. lia.
  - lia.
Qed.

(** The first element belongs no later than any other. *)
Lemma heap_root t st r :
  heap_from t 0 (length st) st → st !! 0%nat = Some r →
  ∀ i x, st !! i = Some x → before t x r = false.
Proof.
  intros Hh Hr i. induction (lt_wf i) as [i _ IH]. intros x Hx.
  destruct (decide (i = 0%nat)) as [->|Hi].
  { simplify_eq. apply before_irrefl. }
  destruct (parent_exists i) as [p Hp]; [lia|].
  assert (p < i)%nat as Hpi by (unfold child in Hp; lia).
  pose proof (lookup_lt_Some _ _ _ Hx).
  destruct (lookup_lt_is_Some_2 st p) as [y Hy]; [lia|].
  eapply not_before_trans; [|by eapply IH]. eapply (Hh p i); [done..|lia|done|done].
Qed.

Lemma heap_from_app_l t k st st2 :
  heap_from t k (length st) (st ++ st2) → heap_from t k (length st) st.
Proof.
  intros Hh p c Hpc Hc Hp a b Ha Hb. eapply (Hh p c); [done..| |].
  all: by apply lookup_app_l_Some.
Qed.

(** The first and the last element of a list of two or more, exchanged. *)
Lemma list_swap_ends x y (l : list T) :
  list_swap 0 (S (length l)) (x :: l ++ [y]) = y :: l ++ [x].
Proof.
  unfold list_swap. simpl. rewrite list_lookup_middle by done. simpl.
  by rewrite insert_app_r_alt, Nat.sub_diag by done.
Qed.

Lemma heap_from_swap_ends t x y (l : list T) :
  heap_from t 0 (length (x :: l ++ [y])) (x :: l ++ [y]) →
  heap_from t 1 (S (length l)) (y :: l ++ [x]).
Proof.
  intros Ho p c Hpc Hc Hp a b.
  assert (∀ i z w, (1 ≤ i ≤ length l)%nat → (z :: l ++ [x]) !! i = (w :: l ++ [y]) !! i) as Hsame.
  { intros [|i] z w Hi; [lia|]. simpl. by rewrite !lookup_app_l by lia. }
  assert (p < c)%nat by (unfold child in Hpc; lia).
  rewrite (Hsame p y x), (Hsame c y x) by lia.
  apply Ho; [done|simpl; rewrite length_app; simpl; lia|lia].
Qed.

(** What is left after the exchanged root has been sifted down and cut off. *)
Lemma pop_rest t x y (l st' : list T) :
  st' ≡ₚ y :: l ++ [x] →
  (∀ m, (S (length l) ≤ m)%nat → st' !! m = (y :: l ++ [x]) !! m) →
  heap_from t 0 (S (length l)) st' →
  ∃ st, st' = st ++ [x] ∧ st ≡ₚ l ++ [y] ∧ heap_from t 0 (length st) st.
Proof.
  intros Hp Hm Hh. pose proof (Permutation_length Hp) as Hl.
  simpl in Hl. rewrite length_app in Hl. simpl in Hl.
  destruct st' as [|z st _] using rev_ind; [simpl in Hl; lia|].
  rewrite length_app in Hl. simpl in Hl. assert (length st = S (length l)) as Hst by lia.
  specialize (Hm (S (length l)) ltac:(lia)). rewrite <- Hst in Hm at 1.
  rewrite list_lookup_middle in Hm by done. simpl in Hm.
  rewrite list_lookup_middle in Hm by done. simplify_eq.
  exists st. split_and!; [done| |].
  - rewrite app_comm_cons in Hp. apply Permutation_app_inv_r in Hp.
    rewrite Hp. apply Permutation_cons_append.
  - rewrite Hst. rewrite <- Hst in Hh |- *. by eapply heap_from_app_l.
Qed.

Lemma wp_pop_nil Q h : storage h = [] → Q None h → wp pop Q h.
Proof. intros Hst HQ. unfold pop. wp_step. apply wp_size; by rewrite Hst. Qed.

Lemma wp_pop_cons x l Q h :
  storage h = x :: l → heap_ordered h → Z.of_nat (length (storage h)) ≤ 2 ^ 62 →
  (∀ h', type h' = type h → storage h' ≡ₚ l → heap_ordered h' → Q (Some x) h') →
  wp pop Q h.
Proof.
  intros Hst Ho Hmax HQ.
  assert (Z.of_nat (length (storage h)) ≤ INT64_MAX) as Hm by (unfold INT64_MAX; lia).
  unfold pop. wp_step. apply wp_size; [done|]. unfold heap_ordered in Ho. rewrite Hst in *.
  destruct (Z.ltb_spec (Z.of_nat (length (x :: l))) 1) as [Hlt|Hlt]; [simpl in Hlt; lia|].
  wp_step. apply wp_i64; [unfold INT64_MIN; lia|].
  replace (_ - 1) with (Z.of_nat (length l)) by (simpl; lia). wp_step.
  destruct l as [|y l _] using rev_ind.
  { simpl. apply wp_ret. wp_step. change 0 with (Z.of_nat 0).
    eapply wp_at; [by rewrite Hst|]. wp_go. apply HQ; [done|by rewrite Hst|].
    unfold heap_ordered. rewrite Hst. simpl. intros p c Hpc Hc. lia. }
  assert (length (storage h) = S (S (length l))) as Hn.
  { rewrite Hst. simpl. rewrite length_app. simpl. lia. }
  rewrite length_app, Nat.add_1_r. apply wp_when; intros Hpos; b2p; [|lia].
  wp_step. change 0 with (Z.of_nat 0). apply wp_swap; [lia|lia|].
  rewrite Hst, list_swap_ends.
  apply wp_heapify; simpl; rewrite ?length_app; simpl; [lia|lia|rewrite Hst in Hn; lia| |].
  { by apply heap_from_swap_ends. }
  intros st' Hp Hm' Hh'.
  destruct (pop_rest (type h) x y l st') as (st & -> & Hst' & Hhst); [done..|].
  assert (length st = S (length l)) as Hls.
  { apply Permutation_length in Hst'. rewrite length_app in Hst'. simpl in Hst'. lia. }
  wp_step. eapply wp_at; [simpl; by apply list_lookup_middle|]. wp_go.
  unfold set_storage. simpl. rewrite removelast_last. by apply HQ.
Qed.

Lemma heap_root_elem h r l :
  storage h = r :: l → heap_ordered h → extremal (type h) r (storage h).
Proof.
  intros Hst Ho y [i Hy]%list_elem_of_lookup. eapply heap_root; [exact Ho|by rewrite Hst|done].
Qed.

Lemma wp_top Q h : Q (head (storage h)) h → wp top Q h.
Proof.
  intros HQ. unfold top, empty. do 2 wp_step. apply wp_gets, wp_ret.
  destruct (storage h) as [|x l] eqn:E; [done|]. simpl in HQ |- *.
  wp_step. change 0 with (Z.of_nat 0). eapply wp_at; [by rewrite E|]. done.
Qed.

(** ** A priority queue as a multiset, and the heap as one *)

(** The public methods with their arguments; the vector's [max_size()] is the one
    of its allocator. *)
Inductive op :=
| Push (x : T)
| Pop
| Top
| Clear
| Size
| Empty
| GetType
| Reserve (max_size capacity : Z).

(** What a method returns. *)
Inductive result :=
| RNothing
| RElement (o : option T)
| RSize (n : Z)
| REmpty (b : bool)
| RType (t : HeapType).

Definition exec_op (o : op) : prog (heap T) result :=
  match o with
  | Push x => push x;; mret RNothing
  | Pop => r ← pop; mret (RElement r)
  | Top => r ← top; mret (RElement r)
  | Clear => clear;; mret RNothing
  | Size => n ← size; mret (RSize n)
  | Empty => b ← empty; mret (REmpty b)
  | GetType => t ← getType; mret (RType t)
  | Reserve max_size capacity => reserve max_size capacity;; mret RNothing
  end.

Fixpoint exec_ops (os : list op) : prog (heap T) (list result) :=
  match os with
  | [] => mret []
  | o :: os => r ← exec_op o; rs ← exec_ops os; mret (r :: rs)
  end.

(** The specification works on a multiset (a list up to permutation) and does
    not say which of several equivalent extremal elements is taken. *)
Inductive spec_op t : op → list T → result → list T → Prop :=
| spec_push x ms : spec_op t (Push x) ms RNothing (x :: ms)
| spec_pop_empty : spec_op t Pop [] (RElement None) []
| spec_pop x ms ms' : ms ≡ₚ x :: ms' → extremal t x ms → spec_op t Pop ms (RElement (Some x)) ms'
| spec_top_empty : spec_op t Top [] (RElement None) []
| spec_top x ms : x ∈ ms → extremal t x ms → spec_op t Top ms (RElement (Some x)) ms
| spec_clear ms : spec_op t Clear ms RNothing []
| spec_size ms : spec_op t Size ms (RSize (Z.of_nat (length ms))) ms
| spec_empty ms : spec_op t Empty ms (REmpty (bool_decide (length ms = 0%nat))) ms
| spec_type ms : spec_op t GetType ms (RType t) ms
| spec_reserve max_size capacity ms : spec_op t (Reserve max_size capacity) ms RNothing ms.

(** [reserve] of more than the vector can hold throws. *)
Definition op_ok (o : op) : Prop :=
  match o with Reserve max_size capacity => capacity ≤ Z.min max_size SIZE_MAX | _ => True end.

Inductive spec_ops t : list op → list T → list result → list T → Prop :=
| spec_nil ms : spec_ops t [] ms [] ms
| spec_cons o os ms r ms1 ms2 rs ms3 :
    spec_op t o ms r ms1 → ms1 ≡ₚ ms2 → spec_ops t os ms2 rs ms3 →
    spec_ops t (o :: os) ms (r :: rs) ms3.

Lemma exec_op_refines o ms h Q :
  heap_ordered h → storage h = ms → Z.of_nat (length ms) < 2 ^ 62 → op_ok o →
  (∀ r ms' h', spec_op (type h) o ms r ms' → type h' = type h → heap_ordered h' →
     storage h' ≡ₚ ms' → Q r h') →
  wp (exec_op o) Q h.
Proof.
  intros Ho Hms Hmax Hok HQ. subst ms. destruct o as [x| | | | | | |max_size capacity]; simpl.
  - wp_step. apply wp_push; [done|lia|]. intros h' Ht Hp Ho'. apply wp_ret.
    eapply HQ; [constructor|done..].
  - wp_step. destruct (storage h) as [|x l] eqn:Hst.
    + apply wp_pop_nil; [done|]. apply wp_ret. eapply HQ; [constructor|done|done|by rewrite Hst].
    + eapply wp_pop_cons; [done|done|rewrite Hst; lia|]. intros h' Ht Hp Ho'. apply wp_ret.
      eapply HQ; [by apply spec_pop; [|rewrite <- Hst; eapply heap_root_elem]|done..].
  - wp_step. apply wp_top, wp_ret. destruct (storage h) as [|x l] eqn:Hst; simpl.
    + eapply HQ; [constructor|done|done|by rewrite Hst].
    + eapply HQ; [apply spec_top; [by left|]|done|done|by rewrite Hst].
      rewrite <- Hst. by eapply heap_root_elem.
  - unfold clear. wp_go. eapply HQ; [constructor|done| |done].
    unfold heap_ordered. simpl. intros p c Hpc Hc. lia.
  - unfold size. wp_go. rewrite to_i64_id by (unfold INT64_MAX; lia). eapply HQ; [constructor|done..].
  - unfold empty. wp_go. eapply HQ; [|done..].
    replace (match storage h with [] => true | _ => false end) with (bool_decide (length (storage h) = 0%nat));
      [constructor|by destruct (storage h)].
  - unfold getType. wp_go. eapply HQ; [constructor|done..].
  - simpl in Hok. wp_step. unfold reserve. destruct (Z.ltb_spec 0 capacity); simpl.
    + rewrite to_size_id, (proj2 (Z.ltb_ge _ _)) by lia. apply wp_ret, wp_ret. eapply HQ; [constructor|done..].
    + apply wp_ret, wp_ret. eapply HQ; [constructor|done..].
Qed.

(** Popping until nothing is left. *)
Fixpoint pop_all (fuel : nat) : prog (heap T) (list T) :=
  match fuel with
  | O => mret []
  | S fuel => r ← pop; match r with None => mret [] | Some x => l ← pop_all fuel; mret (x :: l) end
  end.

Definition sorted t : list T → Prop := StronglySorted (λ x y, before t y x = false).

Lemma wp_pop_all Q h :
  heap_ordered h → Z.of_nat (length (storage h)) ≤ 2 ^ 62 →
  (∀ l h', storage h' = [] → l ≡ₚ storage h → sorted (type h) l → Q l h') →
  wp (pop_all (S (length (storage h)))) Q h.
Proof.
  remember (length (storage h)) as n eqn:Hn. revert h Hn Q.
  induction n as [|n IH]; intros h Hn Q Ho Hmax HQ; simpl pop_all; wp_step;
    destruct (storage h) as [|x l] eqn:Hst; simplify_eq/=.
  - apply wp_pop_nil; [done|]. apply wp_ret, HQ; [done|done|constructor].
  - eapply wp_pop_cons; [done|done|rewrite Hst; simpl; lia|]. intros h' Ht Hp Ho'. wp_step.
    assert (length (storage h') = length l) as Hl by by apply Permutation_length.
    change (r ← pop; _) with (@pop_all (S (length l))).
    apply IH; [done|done|lia|]. intros l' h'' Hempty Hp' Hs. apply wp_ret.
    apply HQ; [done|by rewrite Hp', Hp|]. rewrite Ht in Hs. constructor; [done|].
    apply Forall_forall. intros y Hy. eapply heap_root_elem; [done|done|].
    rewrite Hst. right. by rewrite <- Hp, <- Hp'.
Qed.
End order.

(** ** What the heap promises *)

Section properties.
Context {T : Type} `{ComparableLaws T}.

(** [pop] on a heap in order: on an empty heap it returns [nullopt] and
    changes nothing; otherwise it returns an element that no other element of
    the heap belongs before (a largest one for a max heap, a smallest one for a
    min heap), takes out exactly that element, and leaves the heap in order.  It
    reads only inside the vector, overflows no index and finishes. *)
Theorem pop_correct (h : heap T)
  (Ho : heap_ordered h) (Hmax : Z.of_nat (length (storage h)) ≤ 2 ^ 62) :
  wp pop (λ r h', type h' = type h ∧ heap_ordered h' ∧
    match r with
    | None => storage h = [] ∧ h' = h
    | Some x => storage h ≡ₚ x :: storage h' ∧ extremal (type h) x (storage h) ∧
                head (storage h) = Some x
    end) h.
Proof.
  destruct (storage h) as [|x l] eqn:Hst.
  - apply wp_pop_nil; [done|]. by split_and!.
  - eapply wp_pop_cons; [done|done|by rewrite Hst|]. intros h' Ht Hp Ho'.
    split_and!; [done|done|by rewrite Hp| |done].
    rewrite <- Hst. by eapply heap_root_elem.
Qed.

(** [push] on a heap in order adds exactly the given value and leaves the
    heap in order; the loop of [siftUp] finishes and reads inside the vector. *)
Theorem push_correct (h : heap T) (x : T)
  (Ho : heap_ordered h) (Hmax : Z.of_nat (length (storage h)) < 2 ^ 62) :
  wp (push x) (λ _ h', type h' = type h ∧ storage h' ≡ₚ x :: storage h ∧ heap_ordered h') h.
Proof. by apply wp_push. Qed.

(** Building a heap from any list puts it in order without losing or adding
    an element; every [heapify] of the loop finishes and stays in range. *)
Theorem build_correct (l : list T) (t : HeapType) (Hmax : Z.of_nat (length l) ≤ 2 ^ 62) :
  ∃ h, make_from l t = Done tt h ∧ type h = t ∧ storage h ≡ₚ l ∧ heap_ordered h.
Proof.
  destruct (proj1 (wp_exec build (λ _ h', type h' = t ∧ storage h' ≡ₚ l ∧ heap_ordered h')
    (mkHeap l t))) as ([] & h & He & Hh); [by apply wp_build|].
  by exists h.
Qed.

(** C8: popping a heap built from a list until it is empty yields the list
    sorted by the heap's order (ascending for a min heap, descending for a max
    heap). *)
Theorem build_then_pop_sorts (l : list T) (t : HeapType) (Hmax : Z.of_nat (length l) ≤ 2 ^ 62) :
  wp (build;; pop_all (S (length l))) (λ r h, storage h = [] ∧ r ≡ₚ l ∧ sorted t r) (mkHeap l t).
Proof.
  wp_step. apply wp_build; [done|]. intros h Ht Hp Ho. simpl in Ht, Hp.
  assert (length l = length (storage h)) as Hl by by rewrite (Permutation_length Hp).
  rewrite Hl in Hmax |- *. apply wp_pop_all; [done|done|].
  intros r h' He Hr Hs. split_and!; [done|by rewrite Hr|by rewrite <- Ht].
Qed.

(** From node [i] the loop of [heapify] goes down the levels below: as many rounds
    as [i + 1] can be doubled up to the size, and one more. *)
Lemma heapify_within (h : heap T) (i fuel : nat) :
  let m := length (storage h) in
  (i < m)%nat → Z.of_nat m ≤ 2 ^ 62 → (Nat.log2 (m / (i + 1)) < fuel)%nat →
  ∃ h', loop fuel (heapify_body (Z.of_nat m)) (Z.of_nat i, 2 * Z.of_nat i + 1) h = Done tt h' ∧
    heapify (Z.of_nat i) (Z.of_nat m) h = Done tt h' ∧ length (storage h') = m.
Proof.
  intros m Hi Hmax Hfuel. destruct (loop_within
      (λ il h', ∃ j, il = (Z.of_nat j, Z.of_nat (2 * j + 1)) ∧ (j < m)%nat ∧ length (storage h') = m)
      (λ il _, Nat.log2 (m / (Z.to_nat il.1 + 1)))%nat (λ h', length (storage h') = m) (heapify_body (Z.of_nat m)) fuel (S m)
      (Z.of_nat i, Z.of_nat (2 * i + 1)) h) as ([] & h' & Hrun & Hfull & Hlen); [| | | |exists h'; split_and!; [| |done]].
  - intros il h1 (j & -> & Hj & Hl). apply wp_heapify_body; [lia|lia|lia|done|].
    intros k [Hch Hk _ _]. simpl. rewrite !Nat2Z.id, length_list_swap. split; [by exists k|].
    by apply log2_levels.
  - by exists i.
  - simpl. by rewrite Nat2Z.id.
  - simpl. rewrite Nat2Z.id. apply (Nat.le_lt_trans _ (Nat.log2 m)).
    + apply Nat.log2_le_mono, Nat.Div0.div_le_upper_bound. nia.
    + pose proof (Nat.log2_lt_lin m). lia.
  - by replace (2 * Z.of_nat i + 1) with (Z.of_nat (2 * i + 1)) by lia.
  - unfold heapify. rewrite Nat2Z.id.
    pose proof (wp_leftIndex i (λ r h', r = Z.of_nat (2 * i + 1) ∧ h' = h) h) as Hleft.
    apply wp_exec in Hleft as (r & h1 & Hleft & -> & ->); [|unfold INT64_MAX; lia|done].
    unfold mbind, prog_bind. by rewrite Hleft.
Qed.

(** C25: sifting is logarithmic.  In a heap of [n] elements, in order or not, the
    loops of [siftUp] and [heapify] are over after at most [log2 n + 1] rounds:
    with as many they end in the same heap as with the [n + 1] they are given in
    this model, and read no element outside the vector. *)
Theorem sift_logarithmic (h : heap T) (i fuel : nat)
  (Hi : (i < length (storage h))%nat) (Hmax : Z.of_nat (length (storage h)) ≤ 2 ^ 62)
  (Hfuel : (Nat.log2 (length (storage h)) < fuel)%nat) :
  let n := Z.of_nat (length (storage h)) in
  (∃ h', loop fuel siftUp_body (Z.of_nat i) h = Done tt h' ∧ siftUp (Z.of_nat i) h = Done tt h') ∧
  (∃ h', loop fuel (heapify_body n) (Z.of_nat i, 2 * Z.of_nat i + 1) h = Done tt h' ∧
    heapify (Z.of_nat i) n h = Done tt h').
Proof.
  intros n. set (m := length (storage h)) in *. split.
  - unfold siftUp. destruct (loop_within
      (λ idx h', ∃ j, idx = Z.of_nat j ∧ (j < m)%nat ∧ length (storage h') = m)
      (λ idx _, Nat.log2 (Z.to_nat idx + 1)) (λ _, True) siftUp_body fuel (S (Z.to_nat (Z.of_nat i)))
      (Z.of_nat i) h) as ([] & h' & ? & ? & _); [| | | |by exists h'].
    + intros idx h1 (j & -> & Hj & Hl). apply wp_siftUp_body; [lia|lia|done|].
      intros p Hch _. rewrite !Nat2Z.id. split; [|by apply log2_child].
      exists p. simpl. rewrite length_list_swap. unfold child in Hch. split_and!; [done|lia|done].
    + by exists i.
    + rewrite Nat2Z.id. apply (Nat.le_lt_trans _ (Nat.log2 m)); [apply Nat.log2_le_mono; lia|done].
    + rewrite Nat2Z.id. pose proof (Nat.log2_lt_lin (i + 1)). lia.
  - destruct (heapify_within h i fuel) as (h' & ? & ? & _); [done|done| |by exists h'].
    apply (Nat.le_lt_trans _ (Nat.log2 m)); [|done].
    apply Nat.log2_le_mono, Nat.Div0.div_le_upper_bound. fold m. nia.
Qed.

(** C1: any sequence of the public methods on a heap in order behaves like the
    same sequence on a multiset from which [pop] takes, and of which [top] shows,
    an extremal element, as long as the heap stays below [2^62] elements and
    [reserve] asks for no more than a vector can hold. *)
Theorem heap_refines_multiset (os : list op) (h : heap T)
  (Ho : heap_ordered h) (Hmax : Z.of_nat (length (storage h) + length os) ≤ 2 ^ 62) (Hos : Forall op_ok os) :
  wp (exec_ops os) (λ rs h', heap_ordered h' ∧
    ∃ ms, spec_ops (type h) os (storage h) rs ms ∧ storage h' ≡ₚ ms) h.
Proof.
  revert h Ho Hmax. induction Hos as [|o os Hok Hos IH]; intros h Ho Hmax; simpl.
  - apply wp_ret. split; [done|]. eexists. by split; [constructor|].
  - simpl in Hmax. wp_step. eapply exec_op_refines; [done|done|lia|done|].
    intros r ms h1 Hs Ht Ho1 Hp. wp_step.
    assert (length (storage h1) ≤ S (length (storage h)))%nat as Hl.
    { rewrite (Permutation_length Hp). inversion Hs; subst; simpl; try lia.
      match goal with E : storage h ≡ₚ _ :: _ |- _ => apply Permutation_length in E; simpl in E end.
      lia. }
    eapply wp_mono; [apply IH; [done|lia]|]. intros rs h2 (Ho2 & ms2 & Hss & Hp2).
    apply wp_ret. split; [done|]. exists ms2. rewrite Ht in Hss. split; [|done].
    by econstructor.
Qed.
End properties.

(** ** The integers, and the heaps of the unit tests *)

#[export] Instance Z_comparable : Comparable Z := { ltb := Z.ltb; gtb := Z.gtb }.

#[export] Instance Z_comparable_laws : ComparableLaws Z.
Proof. split; simpl; intros; rewrite ?Z.gtb_ltb in *; b2p; try apply Z.ltb_ge; lia || done. Qed.

Lemma heap_orderedb_ok (h : heap Z) : heap_orderedb h = true → heap_ordered h.
Proof.
  unfold heap_orderedb. rewrite forallb_forall. intros Hb p c Hpc Hc _ x y Hx Hy.
  assert ((c - 1) / 2 = p)%nat as Hp.
  { unfold child in Hpc. destruct Hpc as [-> | ->].
    - replace (2 * p + 1 - 1)%nat with (p * 2)%nat by lia. by rewrite Nat.div_mul.
    - replace (2 * p + 2 - 1)%nat with (1 + p * 2)%nat by lia. by rewrite Nat.div_add. }
  specialize (Hb c). rewrite Hy, Hp, Hx in Hb. apply negb_true_iff, Hb.
  apply in_seq. unfold child in Hpc. lia.
Qed.

Definition test_min : heap Z := mkHeap [2; 7; 10; 11; 20; 18] min.

Example test_pushes :
  (push 10;; push 11;; push 2;; push 7;; push 20;; push 18;; top) (make min) =
    Done (Some 2) test_min.
Proof. reflexivity. Qed.

Example test_pop_all :
  pop_all 7 test_min = Done [2; 7; 10; 11; 18; 20] (mkHeap [] min).
Proof. reflexivity. Qed.

Lemma pop_correct_witness :
  heap_ordered test_min ∧
  wp pop (λ r h', type h' = min ∧ heap_ordered h' ∧
    match r with
    | None => storage test_min = [] ∧ h' = test_min
    | Some x => storage test_min ≡ₚ x :: storage h' ∧ extremal min x (storage test_min) ∧
                head (storage test_min) = Some x
    end) test_min.
Proof.
  split; [by apply heap_orderedb_ok|].
  apply (pop_correct test_min); [by apply heap_orderedb_ok|vm_compute; discriminate].
Defined.

Lemma push_correct_witness :
  wp (push 1) (λ _ h', type h' = min ∧ storage h' ≡ₚ 1 :: storage test_min ∧ heap_ordered h')
    test_min.
Proof.
  apply (push_correct test_min 1); [by apply heap_orderedb_ok|vm_compute; reflexivity].
Defined.

Lemma sift_logarithmic_witness :
  (∃ h', loop 3 siftUp_body 5 (mkHeap [2; 7; 10; 11; 20; 1] min) = Done tt h' ∧
    siftUp 5 (mkHeap [2; 7; 10; 11; 20; 1] min) = Done tt h') ∧
  (∃ h', loop 3 (heapify_body 6) (5, 11) (mkHeap [2; 7; 10; 11; 20; 1] min) = Done tt h' ∧
    heapify 5 6 (mkHeap [2; 7; 10; 11; 20; 1] min) = Done tt h').
Proof.
  exact (sift_logarithmic (mkHeap [2; 7; 10; 11; 20; 1] min) 5 3 ltac:(simpl; lia)
    ltac:(vm_compute; discriminate) ltac:(vm_compute; lia)).
Defined.

Lemma build_correct_witness :
  ∃ h, make_from [4; 4; 1; 4; 1] min = Done tt h ∧ type h = min ∧
    storage h ≡ₚ [4; 4; 1; 4; 1] ∧ heap_ordered h.
Proof. apply (build_correct [4; 4; 1; 4; 1] min). vm_compute. discriminate. Defined.

Lemma build_then_pop_sorts_witness :
  wp (build;; pop_all 5) (λ r h, storage h = [] ∧ r ≡ₚ [5; 1; 9; 3] ∧ sorted max r)
    (mkHeap [5; 1; 9; 3] max).
Proof. apply (build_then_pop_sorts [5; 1; 9; 3] max). vm_compute. discriminate. Defined.

Definition demo_ops : list (op (T := Z)) := [Reserve 100 8; Push 3; Push 1; Top; Size; Pop; Empty; GetType; Clear; Pop].

Lemma heap_refines_multiset_witness :
  wp (exec_ops demo_ops) (λ rs h', heap_ordered h' ∧
    ∃ ms, spec_ops min demo_ops [] rs ms ∧ storage h' ≡ₚ ms)
    (make min).
Proof.
  apply (heap_refines_multiset demo_ops (make min)).
  - by apply heap_orderedb_ok.
  - vm_compute. discriminate.
  - repeat constructor. vm_compute. discriminate.
Defined.
End Heap.
