(* ===== verification/HeapCost.v ===== *)
(** * HeapCost: building a heap takes linear time

    [Heap.h] says that building from a vector heapifies it in O(n) rather than
    pushing element by element.  Here every [heapify] that [build] calls is given
    a number of rounds of its own; the builds are the same, and the numbers add
    up to less than twice the size. *)

From S2P Require Import Prelude Heap.
Import Heap.

Module HeapCost.

(** ** Rounds *)

Section rounds.
Context {T : Type} `{Comparable T}.

(** [heapify] whose loop may go round so many times. *)
Definition heapify_in (rounds : nat) (idx size : Z) : prog (heap T) unit :=
  left_ ← leftIndex idx;
  loop rounds (heapify_body size) (idx, left_).

(** [build], where [heapify] of each index has its own number of rounds. *)
Definition build_body_in (rounds : Z → nat) (size : Z) (idx : Z) : prog (heap T) (Z + unit) :=
  if 0 <=? idx then
    heapify_in (rounds idx) idx size;;
    idx' ← i64 (idx - 1);
    mret (inl idx')
  else mret (inr tt).

Definition build_in (rounds : Z → nat) : prog (heap T) unit :=
  n ← size;
  idx ← i64 (Z.quot n 2 - 1);
  loop (S (Z.to_nat n)) (build_body_in rounds n) idx.
End rounds.

(** A node sinks at most to the bottom: one round for each level below it, and
    the last, which finds it in place. *)
Definition levels (n : nat) (idx : Z) : nat := S (Nat.log2 (n / S (Z.to_nat idx))).

(** The rounds of all nodes with children. *)
Definition total (n : nat) : nat := sum_list_with (levels n ∘ Z.of_nat) (seq 0 (n / 2)).

(** ** The sum *)

Lemma sum_list_S {A} (f : A → nat) l : sum_list_with (λ x, S (f x)) l = (length l + sum_list_with f l)%nat.
Proof. induction l as [|x l IH]; simpl; [done|]. rewrite IH. lia. Qed.

Lemma sum_list_ext {A} (f g : A → nat) l : (∀ x, x ∈ l → f x = g x) → sum_list_with f l = sum_list_with g l.
Proof.
  induction l as [|x l IH]; intros Hf; simpl; [done|]. rewrite (Hf x), IH; [done| |by left].
  intros y Hy. apply Hf. by right.
Qed.

Definition below (n i : nat) : nat := Nat.log2 (n / S i).

(** With half as many elements every node has one level less below it. *)
Lemma below_half n i : (i < n / 2)%nat → below n i = S (below (n / 2) i).
Proof.
  intros Hi. unfold below. rewrite Nat.Div0.div_div, (Nat.mul_comm 2), <- Nat.Div0.div_div.
  assert (2 ≤ n / S i)%nat as H2.
  { apply Nat.div_le_lower_bound; [lia|]. pose proof (Nat.Div0.mul_div_le n 2). lia. }
  set (q := (n / S i)%nat) in *. clearbody q. pose proof (Nat.div_mod_eq q 2) as Hq.
  pose proof (Nat.mod_upper_bound q 2).
  assert (1 ≤ q / 2)%nat by lia.
  assert (q mod 2 = 0 ∨ q mod 2 = 1)%nat as [Hr|Hr] by lia; rewrite Hr in Hq; rewrite Hq at 1.
  - rewrite Nat.add_0_r. by apply Nat.log2_double.
  - apply Nat.log2_succ_double. lia.
Qed.

(** The lower half of the nodes has nothing below it. *)
Lemma below_leaf n i : (n / 2 ≤ i)%nat → below n i = 0%nat.
Proof.
  intros Hi. unfold below. pose proof (Nat.div_mod_eq n 2). pose proof (Nat.mod_upper_bound n 2).
  assert (n / S i < 2)%nat as H2 by (apply Nat.Div0.div_lt_upper_bound; lia).
  set (q := (n / S i)%nat) in *. clearbody q. by destruct q as [|[|q]]; [| |lia].
Qed.

Lemma sum_below n : (sum_list_with (below n) (seq 0 (n / 2)) ≤ n)%nat.
Proof.
  induction n as [n IH] using lt_wf_ind. destruct (decide (n = 0%nat)) as [->|Hn]; [vm_compute; lia|].
  pose proof (Nat.Div0.mul_div_le n 2) as Hdiv. assert (n / 2 < n)%nat as Hlt by (apply Nat.div_lt; lia).
  specialize (IH (n / 2)%nat Hlt). set (m := (n / 2)%nat) in *.
  assert (m / 2 ≤ m)%nat as Hm by (apply Nat.Div0.div_le_upper_bound; lia).
  rewrite (sum_list_ext _ (λ i, S (below m i))), sum_list_S, length_seq.
  2: { intros i [_ Hi]%elem_of_seq. by apply below_half. }
  assert (seq 0 m = seq 0 (m / 2) ++ seq (m / 2) (m - m / 2)) as -> by (rewrite <- seq_app; f_equal; lia).
  rewrite sum_list_with_app, (sum_list_ext _ (λ _, 0%nat) (seq (m / 2) _)).
  2: { intros i [Hi _]%elem_of_seq. by apply below_leaf. }
  assert (sum_list_with (λ _ : nat, 0%nat) (seq (m / 2) (m - m / 2)) = 0%nat) as ->; [|lia].
  generalize (seq (m / 2) (m - m / 2)) as l. intros l. by induction l.
Qed.

Lemma total_linear n : (2 * total n ≤ 3 * n)%nat.
Proof.
  unfold total. rewrite (sum_list_ext _ (λ i, S (below n i))), sum_list_S, length_seq.
  - pose proof (sum_below n). pose proof (Nat.Div0.mul_div_le n 2). lia.
  - intros i _. unfold levels, below. simpl. by rewrite Nat2Z.id.
Qed.

(** ** The build *)

Section build.
Context {T : Type} `{ComparableLaws T}.

Lemma heapify_in_levels (h : heap T) (i : nat) :
  let n := length (storage h) in
  (i < n)%nat → Z.of_nat n ≤ 2 ^ 62 →
  heapify_in (levels n (Z.of_nat i)) (Z.of_nat i) (Z.of_nat n) h = heapify (Z.of_nat i) (Z.of_nat n) h ∧
  ∃ h', heapify (Z.of_nat i) (Z.of_nat n) h = Done tt h' ∧ length (storage h') = n.
Proof.
  intros n Hi Hmax.
  assert (Nat.log2 (n / (i + 1)) < levels n (Z.of_nat i))%nat as Hl
    by (unfold levels; rewrite Nat2Z.id, Nat.add_1_r; lia).
  destruct (heapify_within h i _ Hi Hmax Hl) as (h' & Hrun & Hfull & Hlen). fold n in Hfull, Hrun, Hlen.
  split; [|by exists h']. rewrite Hfull. unfold heapify_in.
  pose proof (wp_leftIndex i (λ r h', r = Z.of_nat (2 * i + 1) ∧ h' = h) h) as Hleft.
  apply wp_exec in Hleft as (r & h1 & Hleft & -> & ->); [|unfold INT64_MAX; lia|done].
  unfold mbind, prog_bind. rewrite Hleft, <- Hrun. do 2 f_equal. lia.
Qed.

Lemma build_in_levels (h : heap T) :
  Z.of_nat (length (storage h)) ≤ 2 ^ 62 → build_in (levels (length (storage h))) h = build h.
Proof.
  intros Hmax. set (n := length (storage h)) in *. unfold build_in, build, mbind, prog_bind.
  unfold size, gets, mbind, prog_bind. cbn -[loop i64 to_i64]. fold n. rewrite to_i64_id by (unfold INT64_MAX; lia).
  destruct (i64 _ h) as [idx h1|] eqn:Hidx; [|done].
  assert (h1 = h ∧ 2 * (idx + 1) ≤ Z.of_nat n) as [-> Hle].
  { unfold i64 in Hidx. destruct (_ && _); [|done]. injection Hidx as <- <-. split; [done|].
    rewrite Z.quot_div_nonneg by lia. pose proof (Z.mul_div_le (Z.of_nat n) 2). lia. }
  apply (loop_same (λ idx h', 2 * (idx + 1) ≤ Z.of_nat n ∧ length (storage h') = n)); [|done].
  clear Hidx Hle. intros j h1 [Hj Hlen]. unfold build_body_in, build_body.
  destruct (Z.leb_spec 0 j) as [Hpos|]; [|by split].
  destruct (heapify_in_levels h1 (Z.to_nat j)) as [Heq (h' & Hrun & Hlen')]; [lia|lia|].
  rewrite Hlen in *. rewrite Z2Nat.id in * by done. unfold mbind, prog_bind. rewrite Heq, Hrun.
  split; [done|]. unfold i64. destruct (_ && _); [|done]. simpl. intros a' s' [= <- <-]. split; [lia|done].
Qed.

(** C24: Building a heap takes linear time.  Every [heapify] that [build] calls is
    over after one round more than there are levels below its node, whatever the
    elements are: given just these rounds, [build] ends in the same heap; and
    all of them together are at most one and a half times as many as there are
    elements, although a single one may take a logarithm of them. *)
Theorem build_linear (l : list T) (t : HeapType) (Hmax : Z.of_nat (length l) ≤ 2 ^ 62) :
  (∃ h, build_in (levels (length l)) (mkHeap l t) = Done tt h ∧ make_from l t = Done tt h ∧
    heap_ordered h ∧ storage h ≡ₚ l) ∧
  (2 * total (length l) ≤ 3 * length l)%nat.
Proof.
  split; [|apply total_linear].
  destruct (proj1 (wp_exec build (λ _ h', heap_ordered h' ∧ storage h' ≡ₚ l) (mkHeap l t))) as ([] & h & He & Hh).
  { by apply wp_build. }
  exists h. split; [|done]. rewrite <- He. exact (build_in_levels (mkHeap l t) Hmax).
Qed.
End build.

Lemma build_linear_witness :
  (∃ h, build_in (levels 7) (mkHeap [1; 2; 3; 4; 5; 6; 7] max) = Done tt h ∧
    make_from [1; 2; 3; 4; 5; 6; 7] max = Done tt h ∧ heap_ordered h ∧ storage h ≡ₚ [1; 2; 3; 4; 5; 6; 7]) ∧
  (2 * total 7 ≤ 3 * 7)%nat.
Proof. exact (build_linear [1; 2; 3; 4; 5; 6; 7] max ltac:(vm_compute; discriminate)). Defined.

(** Three rounds for the root and two for each of its children, all of them taken. *)
Example rounds_taken : levels 7 <$> [0; 1; 2] = [3; 2; 2]%nat ∧ total 7 = 7%nat ∧
  build_in (levels 7) (mkHeap [1; 2; 3; 4; 5; 6; 7] max) = Done tt (mkHeap [7; 5; 6; 4; 2; 1; 3] max) ∧
  build_in (λ idx, Nat.pred (levels 7 idx)) (mkHeap [1; 2; 3; 4; 5; 6; 7] max) ≠
    Done tt (mkHeap [7; 5; 6; 4; 2; 1; 3] max).
Proof. vm_compute. split_and!; [done..|discriminate]. Qed.
End HeapCost.
