(* ===== verification/Memory.v ===== *)
(** * The C heap under the byte buffer

    Blocks of bytes obtained from [malloc] and [realloc], pointers into them,
    and [memmove]: the part of the C library that [ByteBuffer.cpp] calls
    through the default [ByteBufferAllocator].  A request for memory may fail;
    which requests fail, and whether [realloc] moves a block, is decided by a
    plan that the state carries, so a theorem about every state is a theorem
    about every such behaviour. *)

From Stdlib Require Export Strings.Byte.
From S2P Require Import Prelude.

Module Memory.
(** A byte of memory; [None] is one that has never been written. *)
Definition cell : Type := option byte.

#[export] Instance byte_eq_dec : EqDecision byte := Byte.byte_eq_dec.

(** [Ptr b off] points [off] bytes into block [b]; [Wild off] is what adding a
    non-zero [off] to a null pointer gives, which is not null and points nowhere (the
    addition itself is undefined in C++; here only using the result is). *)
Inductive ptr :=
| Null
| Wild (off : Z)
| Ptr (b : positive) (off : Z).

#[export] Instance ptr_eq_dec : EqDecision ptr.
Proof. solve_decision. Defined.

Definition ptr_add (p : ptr) (n : Z) : ptr :=
  match p with
  | Null => if n =? 0 then Null else Wild n
  | Wild off => Wild (off + n)
  | Ptr b off => Ptr b (off + n)
  end.

Definition is_null (p : ptr) : bool := match p with Null => true | _ => false end.

(** What the C library does with a request: refuse it, serve it with a block at
    a new place, or (for [realloc]) grow the block where it is. *)
Inductive decision := Refuse | Move | Stay.

Record mem := mkMem {
  m_blocks : gmap positive (list cell);
  m_next : positive;
  m_plan : list decision;
}.

Definition empty_mem (plan : list decision) : mem := mkMem ∅ 1 plan.

Definition set_blocks (bs : gmap positive (list cell)) (m : mem) : mem :=
  mkMem bs (m_next m) (m_plan m).

(** The bytes at [p], if [n] bytes can be read there. *)
Definition load (p : ptr) (n : Z) (m : mem) : option (list cell) :=
  match p with
  | Ptr b off =>
      cs ← m_blocks m !! b;
      if (0 <=? off) && (off + n <=? Z.of_nat (length cs))
      then Some (take (Z.to_nat n) (drop (Z.to_nat off) cs)) else None
  | _ => None
  end.

(** [cs] with [data] written at [off]. *)
Definition splice (off : nat) (data cs : list cell) : list cell :=
  take off cs ++ data ++ drop (off + length data) cs.

Definition store (p : ptr) (data : list cell) (m : mem) : option mem :=
  match p with
  | Ptr b off =>
      cs ← m_blocks m !! b;
      if (0 <=? off) && (off + Z.of_nat (length data) <=? Z.of_nat (length cs))
      then Some (set_blocks (<[b := splice (Z.to_nat off) data cs]> (m_blocks m)) m) else None
  | _ => None
  end.

Definition uninit (n : nat) : list cell := replicate n None.

(** The next decision of the C library; when the plan is used up, requests are served. *)
Definition decide_request : prog mem decision := λ m,
  match m_plan m with
  | [] => Done Move m
  | d :: ds => Done d (mkMem (m_blocks m) (m_next m) ds)
  end.

Definition new_block (cs : list cell) : prog mem ptr := λ m,
  Done (Ptr (m_next m) 0) (mkMem (<[m_next m := cs]> (m_blocks m)) (Pos.succ (m_next m)) (m_plan m)).

Definition malloc (len : Z) : prog mem ptr :=
  d ← decide_request;
  match d with
  | Refuse => mret Null
  | _ => new_block (uninit (Z.to_nat len))
  end.

(** [free] of a null pointer does nothing; of anything but the start of a live
    block (a double free, an interior pointer) it is undefined. *)
Definition free (p : ptr) : prog mem unit :=
  match p with
  | Null => mret tt
  | Ptr b 0 =>
      bs ← gets m_blocks;
      _ ← of_option FUndefined (bs !! b);
      modify (set_blocks (delete b bs))
  | _ => stop FUndefined
  end.

Definition resize (n : nat) (cs : list cell) : list cell :=
  take n cs ++ uninit (n - length cs).

Definition realloc (p : ptr) (len : Z) : prog mem ptr :=
  match p with
  | Null => malloc len
  | Ptr b 0 =>
      bs ← gets m_blocks;
      cs ← of_option FUndefined (bs !! b);
      d ← decide_request;
      match d with
      | Refuse => mret Null
      | Move =>
          modify (set_blocks (delete b bs));;
          new_block (resize (Z.to_nat len) cs)
      | Stay =>
          modify (set_blocks (<[b := resize (Z.to_nat len) cs]> bs));;
          mret p
      end
  | _ => stop FUndefined
  end.

(** All the source bytes are read before any is written, so the two ranges may overlap. *)
Definition memmove (dst src : ptr) (n : Z) : prog mem unit :=
  m ← get;
  data ← of_option FUndefined (load src n m);
  m' ← of_option FUndefined (store dst data m);
  put m'.

(** Blocks are numbered in the order they are made, so no live block is reused. *)
Definition mem_wf (m : mem) : Prop :=
  ∀ b, is_Some (m_blocks m !! b) → (b < m_next m)%positive.

(** ** Lemmas *)

Lemma length_splice off data cs :
  (off + length data ≤ length cs)%nat → length (splice off data cs) = length cs.
Proof. intros. unfold splice. rewrite !length_app, length_take, length_drop. lia. Qed.

Lemma take_splice off data cs :
  (off ≤ length cs)%nat → take off (splice off data cs) = take off cs.
Proof. intros. unfold splice. rewrite take_app_length'; [done|]. rewrite length_take. lia. Qed.

Lemma drop_splice off data cs :
  (off ≤ length cs)%nat → take (length data) (drop off (splice off data cs)) = data.
Proof.
  intros. unfold splice. rewrite drop_app_length'; [|rewrite length_take; lia].
  by rewrite take_app_length.
Qed.

Lemma take_splice_data off data cs :
  (off ≤ length cs)%nat → take (off + length data) (splice off data cs) = take off cs ++ data.
Proof.
  intros. unfold splice. rewrite app_assoc. apply take_app_length'.
  rewrite length_app, length_take. lia.
Qed.

Lemma drop_splice_data off data cs :
  (off ≤ length cs)%nat → drop (off + length data) (splice off data cs) = drop (off + length data) cs.
Proof.
  intros. unfold splice. rewrite app_assoc. apply drop_app_length'.
  rewrite length_app, length_take. lia.
Qed.

Lemma length_resize n cs : length (resize n cs) = n.
Proof. unfold resize, uninit. rewrite length_app, length_take, length_replicate. lia. Qed.

Lemma take_resize k n cs :
  (k ≤ n)%nat → (k ≤ length cs)%nat → take k (resize n cs) = take k cs.
Proof.
  intros. unfold resize. rewrite take_app_le by (rewrite length_take; lia).
  by rewrite take_take, Nat.min_l.
Qed.

Lemma load_length p n m cs : 0 ≤ n → load p n m = Some cs → Z.of_nat (length cs) = n.
Proof.
  unfold load. intros Hn. destruct p as [| |b off]; try done.
  destruct (m_blocks m !! b) as [cs'|]; simpl; [|done].
  destruct (_ && _) eqn:E; [|done]. intros [= <-]. b2p. rewrite length_take, length_drop. lia.
Qed.

Lemma load_slice b (off n : nat) m cs :
  m_blocks m !! b = Some cs → (off + n ≤ length cs)%nat →
  load (Ptr b (Z.of_nat off)) (Z.of_nat n) m = Some (take n (drop off cs)).
Proof.
  intros Hb Hn. unfold load. rewrite Hb. simpl. rewrite !Nat2Z.id.
  destruct (Z.leb_spec 0 (Z.of_nat off)); [|lia].
  destruct (Z.leb_spec (Z.of_nat off + Z.of_nat n) (Z.of_nat (length cs))); [done|lia].
Qed.

Lemma load_at b off n m cs :
  m_blocks m !! b = Some cs → 0 ≤ off → 0 ≤ n → off + n ≤ Z.of_nat (length cs) →
  load (Ptr b off) n m = Some (take (Z.to_nat n) (drop (Z.to_nat off) cs)).
Proof.
  intros Hb Ho Hn Hl. rewrite <- (Z2Nat.id off), <- (Z2Nat.id n), !Nat2Z.id by done.
  apply load_slice; [done|lia].
Qed.

Lemma store_slice b (off : nat) data m cs :
  m_blocks m !! b = Some cs → (off + length data ≤ length cs)%nat →
  store (Ptr b (Z.of_nat off)) data m = Some (set_blocks (<[b := splice off data cs]> (m_blocks m)) m).
Proof.
  intros Hb Hn. unfold store. rewrite Hb. simpl. rewrite !Nat2Z.id.
  destruct (Z.leb_spec 0 (Z.of_nat off)); [|lia].
  destruct (Z.leb_spec (Z.of_nat off + Z.of_nat (length data)) (Z.of_nat (length cs))); [done|lia].
Qed.

(** Reading depends on the block read from alone. *)
Lemma load_blocks p n m m' :
  (∀ b off, p = Ptr b off → m_blocks m' !! b = m_blocks m !! b) → load p n m' = load p n m.
Proof. unfold load. intros Hb. destruct p as [| |b off]; try done. by rewrite (Hb b off). Qed.

Lemma decide_request_ok Q m :
  (∀ d m', m_blocks m' = m_blocks m → m_next m' = m_next m → Q d m') → wp decide_request Q m.
Proof. intros HQ. unfold wp, decide_request. destruct (m_plan m); by apply HQ. Qed.

Lemma new_block_ok cs Q m :
  mem_wf m →
  (∀ b m', m_blocks m !! b = None → m_blocks m' = <[b := cs]> (m_blocks m) → mem_wf m' →
    Q (Ptr b 0) m') →
  wp (new_block cs) Q m.
Proof.
  intros Hwf HQ. apply HQ; [|done|].
  - apply eq_None_not_Some. intros Hb%Hwf. lia.
  - intros b. simpl. rewrite lookup_insert_is_Some. intros [->|[_ Hb%Hwf]]; lia.
Qed.

Lemma mem_wf_blocks m m' : m_next m' = m_next m → dom (m_blocks m') ⊆ dom (m_blocks m) →
  mem_wf m → mem_wf m'.
Proof.
  intros Hn Hd Hwf b Hb. rewrite Hn. apply Hwf. apply elem_of_dom, Hd. by apply elem_of_dom.
Qed.
(** [mem_wf] as a test. *)
Lemma mem_wf_check m :
  bool_decide (map_Forall (λ b _, (b < m_next m)%positive) (m_blocks m)) = true → mem_wf m.
Proof. rewrite bool_decide_eq_true. intros Hm b [cs Hb]. exact (Hm b cs Hb). Qed.

Lemma mem_wf_same m m' :
  m_blocks m' = m_blocks m → m_next m' = m_next m → mem_wf m → mem_wf m'.
Proof. intros Hb Hn. apply mem_wf_blocks; [done|by rewrite Hb]. Qed.

Lemma mem_wf_delete b m : mem_wf m → mem_wf (set_blocks (delete b (m_blocks m)) m).
Proof. apply mem_wf_blocks; [done|]. simpl. rewrite dom_delete_L. set_solver. Qed.

Lemma mem_wf_insert b cs cs' m :
  m_blocks m !! b = Some cs → mem_wf m → mem_wf (set_blocks (<[b := cs']> (m_blocks m)) m).
Proof.
  intros Hb. apply mem_wf_blocks; [done|]. simpl. rewrite dom_insert_L.
  apply elem_of_dom_2 in Hb. set_solver.
Qed.

(** *** The C library, as total-correctness rules *)

Lemma malloc_ok len Q m :
  mem_wf m → 0 < len →
  (∀ m', m_blocks m' = m_blocks m → mem_wf m' → Q Null m') →
  (∀ b cs m', m_blocks m !! b = None → Z.of_nat (length cs) = len →
    m_blocks m' = <[b := cs]> (m_blocks m) → mem_wf m' → Q (Ptr b 0) m') →
  wp (malloc len) Q m.
Proof.
  intros Hwf Hlen Hnull Hnew. unfold malloc. wp_step.
  apply decide_request_ok. intros d m1 Hb Hn. pose proof (mem_wf_same m m1 Hb Hn Hwf).
  destruct d; [by apply wp_ret, Hnull|..]; (apply new_block_ok; [done|]);
    intros b m' Hfresh Hm' Hwf'; rewrite Hb in *; (eapply Hnew; [done| |done|done]);
    unfold uninit; rewrite length_replicate; lia.
Qed.

Lemma realloc_ok b cs len Q m :
  mem_wf m → 0 < len → m_blocks m !! b = Some cs →
  (∀ m', m_blocks m' = m_blocks m → mem_wf m' → Q Null m') →
  (∀ b' cs' m', b' = b ∨ m_blocks m !! b' = None → Z.of_nat (length cs') = len →
    (∀ k, (k ≤ length cs)%nat → (k ≤ length cs')%nat → take k cs' = take k cs) →
    m_blocks m' = <[b' := cs']> (delete b (m_blocks m)) → mem_wf m' → Q (Ptr b' 0) m') →
  wp (realloc (Ptr b 0) len) Q m.
Proof.
  intros Hwf Hlen Hcs Hnull Hnew. unfold realloc.
  wp_step. apply wp_gets. wp_step. rewrite Hcs. eapply wp_of_option; [done|]. wp_step.
  apply decide_request_ok. intros d m1 Hb Hn. pose proof (mem_wf_same m m1 Hb Hn Hwf) as Hwf1.
  set (cs1 := resize (Z.to_nat len) cs).
  assert (Z.of_nat (length cs1) = len) by (subst cs1; rewrite length_resize; lia).
  assert (∀ k, (k ≤ length cs)%nat → (k ≤ length cs1)%nat → take k cs1 = take k cs).
  { intros k Hk1 Hk2. subst cs1. rewrite length_resize in Hk2. by apply take_resize. }
  rewrite <- Hb in Hcs, Hnew |- *. destruct d.
  - by apply wp_ret, Hnull.
  - wp_step. apply wp_modify. apply new_block_ok; [by apply mem_wf_delete|].
    intros b' m' Hf Hm' Hwf'. eapply Hnew; [|done|done|done|done].
    destruct (decide (b' = b)) as [->|]; [by left|right]. simpl in Hf. by rewrite lookup_delete_ne in Hf.
  - wp_step. apply wp_modify, wp_ret.
    eapply Hnew; [by left|done|done| |by eapply mem_wf_insert].
    simpl. by rewrite insert_delete_eq.
Qed.

Lemma free_ok b cs Q m :
  mem_wf m → m_blocks m !! b = Some cs →
  (∀ m', m_blocks m' = delete b (m_blocks m) → mem_wf m' → Q tt m') →
  wp (free (Ptr b 0)) Q m.
Proof.
  intros Hwf Hcs HQ. unfold free. wp_step. apply wp_gets. wp_step.
  rewrite Hcs. eapply wp_of_option; [done|]. apply wp_modify, HQ; [done|].
  by apply mem_wf_delete.
Qed.

Lemma memmove_ok dst src n data m1 Q m :
  mem_wf m → load src n m = Some data → store dst data m = Some m1 →
  (∀ m', m_blocks m' = m_blocks m1 → mem_wf m' → Q tt m') →
  wp (memmove dst src n) Q m.
Proof.
  intros Hwf Hl Hs HQ. unfold memmove.
  wp_step. apply wp_get. wp_step. rewrite Hl. eapply wp_of_option; [done|]. wp_step.
  rewrite Hs. eapply wp_of_option; [done|]. apply wp_put, HQ; [done|].
  unfold store in Hs. destruct dst as [| |b off]; try done.
  destruct (m_blocks m !! b) as [cs|] eqn:Hb; simpl in Hs; [|done].
  destruct (_ && _) in Hs; [|done]. simplify_eq. by eapply mem_wf_insert.
Qed.
End Memory.
