(* ===== verification/Storage.v ===== *)
(** * [ByteBufferAllocator] and [ByteBufferStorage] of [ByteBuffer.h] and [ByteBuffer.cpp]

    The four hooks a buffer manages its memory through, with the contract they
    are held to ([AllocatorLaws]) and the default implementation over the C
    heap, and the block behind a buffer: its constructors, [reserve],
    [setBytes], [copyBytesTo] and its destructor. *)

From Stdlib Require Import Bool.
From S2P Require Import Prelude Memory.
Import Memory.

Module Storage.

(** ** Sizes *)

Definition nextPowerOf2ClampedToMax (minimumCapacity : Z) : Z :=
  if minimumCapacity <=? 1 then 1
  else
    let capacity := minimumCapacity - 1 in
    let capacity := Z.lor capacity (Z.shiftr capacity 1) in
    let capacity := Z.lor capacity (Z.shiftr capacity 2) in
    let capacity := Z.lor capacity (Z.shiftr capacity 4) in
    let capacity := Z.lor capacity (Z.shiftr capacity 8) in
    let capacity := Z.lor capacity (Z.shiftr capacity 16) in
    let capacity := Z.lor capacity (Z.shiftr capacity (8 * 4)) in
    if capacity =? SIZE_MAX then SIZE_MAX else to_size (capacity + 1).

Definition minimumOf (lhs rhs : Z) : Z := if lhs <? rhs then lhs else rhs.

(** ** The allocator *)

Record ByteBufferAllocator := mkAllocator {
  allocate : Z → prog mem ptr;
  reallocate : ptr → Z → prog mem ptr;
  deallocate : ptr → Z → prog mem unit;
  copybytes : ptr → ptr → Z → prog mem unit;
}.

Definition defaultAllocate (len : Z) : prog mem ptr := malloc len.
Definition defaultReallocate (bytes : ptr) (len : Z) : prog mem ptr := realloc bytes len.
Definition defaultDeallocate (bytes : ptr) (len : Z) : prog mem unit := free bytes.
Definition defaultCopybytes (dst source : ptr) (len : Z) : prog mem unit := memmove dst source len.

Definition default_allocator : ByteBufferAllocator :=
  mkAllocator defaultAllocate defaultReallocate defaultDeallocate defaultCopybytes.

(** The constructor from four hooks, any of which may be a null function pointer. *)
Definition make_allocator {S} (a : option (Z → prog mem ptr)) (r : option (ptr → Z → prog mem ptr))
    (d : option (ptr → Z → prog mem unit)) (c : option (ptr → ptr → Z → prog mem unit)) :
    prog S ByteBufferAllocator :=
  match a, r, d, c with
  | Some a, Some r, Some d, Some c => mret (mkAllocator a r d c)
  | _, _, _, _ => stop FAssert
  end.

(** What [ByteBuffer.h] asks of the hooks: [allocate] and [reallocate] return
    null and leave memory alone, or return a block of the asked size, which
    [reallocate] fills with what the old block held; [deallocate] takes a block
    back; [copybytes] moves bytes like [memmove].  Nothing else in memory
    changes. *)
Class AllocatorLaws (a : ByteBufferAllocator) : Prop := {
  allocate_ok : ∀ len Q m, mem_wf m → 0 < len →
    (∀ m', m_blocks m' = m_blocks m → mem_wf m' → Q Null m') →
    (∀ b cs m', m_blocks m !! b = None → Z.of_nat (length cs) = len →
      m_blocks m' = <[b := cs]> (m_blocks m) → mem_wf m' → Q (Ptr b 0) m') →
    wp (allocate a len) Q m;
  reallocate_ok : ∀ b cs len Q m, mem_wf m → 0 < len → m_blocks m !! b = Some cs →
    (∀ m', m_blocks m' = m_blocks m → mem_wf m' → Q Null m') →
    (∀ b' cs' m', b' = b ∨ m_blocks m !! b' = None → Z.of_nat (length cs') = len →
      (∀ k, (k ≤ length cs)%nat → (k ≤ length cs')%nat → take k cs' = take k cs) →
      m_blocks m' = <[b' := cs']> (delete b (m_blocks m)) → mem_wf m' → Q (Ptr b' 0) m') →
    wp (reallocate a (Ptr b 0) len) Q m;
  deallocate_ok : ∀ b cs Q m, mem_wf m → m_blocks m !! b = Some cs →
    (∀ m', m_blocks m' = delete b (m_blocks m) → mem_wf m' → Q tt m') →
    wp (deallocate a (Ptr b 0) (Z.of_nat (length cs))) Q m;
  copybytes_ok : ∀ dst src n data m1 Q m, mem_wf m → load src n m = Some data →
    store dst data m = Some m1 →
    (∀ m', m_blocks m' = m_blocks m1 → mem_wf m' → Q tt m') →
    wp (copybytes a dst src n) Q m;
}.

(** ** The storage block *)

Record ByteBufferStorage := mkStorage {
  bytes : ptr;
  capacity : Z;
  allocator : ByteBufferAllocator;
}.

(** The methods run on the object and the memory. *)
Definition sprog (A : Type) : Type := prog (ByteBufferStorage * mem) A.

Definition this : sprog ByteBufferStorage := gets fst.
Definition in_mem {A} (m : prog mem A) : sprog A := zoom snd (λ m s, (s.1, m)) m.
Definition set_block (p : ptr) (cap : Z) : sprog unit :=
  modify (λ s, (mkStorage p cap (allocator s.1), s.2)).

(** [ByteBufferStorage(allocator, capacity)] *)
Definition storage_new (a : ByteBufferAllocator) (cap : Z) : prog mem ByteBufferStorage :=
  let rounded := nextPowerOf2ClampedToMax cap in
  allocated ← allocate a rounded;
  if negb (is_null allocated) then mret (mkStorage allocated rounded a)
  else mret (mkStorage Null 0 a).

(** [ByteBufferStorage(const ByteBufferStorage &)] *)
Definition storage_copy (s : ByteBufferStorage) : prog mem ByteBufferStorage :=
  if is_null (bytes s) then mret (mkStorage Null 0 (allocator s))
  else
    allocated ← allocate (allocator s) (capacity s);
    if is_null allocated then mret (mkStorage Null 0 (allocator s))
    else
      copybytes (allocator s) allocated (bytes s) (capacity s);;
      mret (mkStorage allocated (capacity s) (allocator s)).

(** [~ByteBufferStorage()] *)
Definition storage_destroy (s : ByteBufferStorage) : prog mem unit :=
  when (negb (is_null (bytes s))) (deallocate (allocator s) (bytes s) (capacity s)).

Definition reserve (minimumNeededCapacity : Z) : sprog bool :=
  s ← this;
  if negb (is_null (bytes s)) && (minimumNeededCapacity <=? capacity s) then mret true
  else
    let newCapacity := nextPowerOf2ClampedToMax minimumNeededCapacity in
    if newCapacity <? minimumNeededCapacity then mret false
    else
      newBytes ← in_mem (if is_null (bytes s) then allocate (allocator s) newCapacity
                         else reallocate (allocator s) (bytes s) newCapacity);
      if is_null newBytes then mret false
      else set_block newBytes newCapacity;; mret true.

Definition setBytes (src : ptr) (size atIndex : Z) : sprog Z :=
  if is_null src || (size =? 0) then mret 0
  else if to_size (SIZE_MAX - size) <? atIndex then mret 0
  else
    r ← reserve (to_size (atIndex + size));
    if negb r then mret 0
    else
      s ← this;
      in_mem (copybytes (allocator s) (ptr_add (bytes s) atIndex) src size);;
      mret size.

Definition copyBytesTo (destination : ptr) (size fromIndex : Z) : sprog Z :=
  s ← this;
  if is_null destination || is_null (bytes s) || (capacity s <=? fromIndex) then mret 0
  else
    let count := minimumOf size (to_size (capacity s - fromIndex)) in
    if count =? 0 then mret 0
    else
      in_mem (copybytes (allocator s) destination (ptr_add (bytes s) fromIndex) count);;
      mret count.

Definition getBytes : sprog ptr := s ← this; mret (bytes s).
Definition getCapacity : sprog Z := s ← this; mret (capacity s).

(** ** Rounding up to a power of two *)

(** [x] has bit [i] exactly when [c] has one of the [k] bits from [i] on. *)
Definition covers (k c x : Z) : Prop :=
  ∀ i, 0 ≤ i → Z.testbit x i = true ↔ ∃ j, i ≤ j < i + k ∧ Z.testbit c j = true.

Lemma covers_self c : covers 1 c c.
Proof.
  intros i Hi. split; [intros; exists i; split; [lia|done]|].
  intros (j & Hj & Hb). by replace i with j by lia.
Qed.

Lemma covers_double k c x : 0 < k → covers k c x → covers (k + k) c (Z.lor x (Z.shiftr x k)).
Proof.
  intros Hk Hx i Hi. rewrite Z.lor_spec, Z.shiftr_spec, orb_true_iff by done.
  unfold covers in Hx. rewrite !Hx by lia. split.
  - intros [(j & Hj & Hb)|(j & Hj & Hb)]; exists j; (split; [lia|done]).
  - intros (j & Hj & Hb). destruct (decide (j < i + k)); [left|right]; exists j; (split; [lia|done]).
Qed.

Lemma covers_ones c x : 0 < c < 2 ^ 64 → 0 ≤ x → covers 64 c x → x = Z.ones (Z.succ (Z.log2 c)).
Proof.
  intros Hc Hx0 Hx. assert (Z.log2 c < 64) by (apply Z.log2_lt_pow2; lia).
  pose proof (Z.log2_nonneg c). apply Z.bits_inj'. intros i Hi.
  rewrite Z.testbit_ones_nonneg by lia. apply eq_true_iff_eq.
  unfold covers in Hx. rewrite Hx, Z.ltb_lt by lia. split.
  - intros (j & Hj & Hb). destruct (decide (j ≤ Z.log2 c)); [lia|].
    rewrite Z.bits_above_log2 in Hb by lia. done.
  - intros Hl. exists (Z.log2 c). split; [lia|]. apply Z.bit_log2. lia.
Qed.

Lemma smear_nonneg k x : 0 ≤ x → 0 ≤ Z.lor x (Z.shiftr x k).
Proof. intros. apply Z.lor_nonneg. split; [done|]. by apply Z.shiftr_nonneg. Qed.

(** The bit-smearing computes the least power of two that is large enough, and
    saturates where that power would not fit. *)
Lemma nextPowerOf2_spec n :
  0 ≤ n ≤ SIZE_MAX →
  nextPowerOf2ClampedToMax n =
    if n <=? 1 then 1 else if n <=? 2 ^ 63 then 2 ^ Z.log2_up n else SIZE_MAX.
Proof.
  intros Hn. unfold nextPowerOf2ClampedToMax. destruct (Z.leb_spec n 1) as [|H1]; [done|].
  cbv zeta. set (x := Z.lor _ (Z.shiftr _ (8 * 4))).
  assert (x = Z.ones (Z.succ (Z.log2 (n - 1)))) as Hx.
  { subst x. apply covers_ones; [unfold SIZE_MAX in Hn; lia|repeat apply smear_nonneg; lia|].
    apply (covers_double 32); [lia|]. apply (covers_double 16); [lia|].
    apply (covers_double 8); [lia|]. apply (covers_double 4); [lia|].
    apply (covers_double 2); [lia|]. apply (covers_double 1); [lia|]. apply covers_self. }
  clearbody x. rewrite Z.ones_equiv in Hx. rewrite Z.log2_up_eqn by lia.
  replace (Z.pred n) with (n - 1) by lia.
  pose proof (Z.log2_nonneg (n - 1)) as Hl. set (l := Z.log2 (n - 1)) in *.
  destruct (Z.leb_spec n (2 ^ 63)) as [H2|H2].
  - assert (l < 63) by (apply Z.log2_lt_pow2; lia).
    assert (2 ^ Z.succ l ≤ 2 ^ 63) by (apply Z.pow_le_mono_r; lia).
    rewrite (proj2 (Z.eqb_neq _ _)) by (unfold SIZE_MAX; lia).
    rewrite to_size_id by (unfold SIZE_MAX; lia). lia.
  - assert (l = 63) as ->.
    { apply Z.le_antisymm; [apply Z.lt_succ_r, Z.log2_lt_pow2; unfold SIZE_MAX in Hn; lia|].
      apply Z.log2_le_pow2; lia. }
    by rewrite Hx.
Qed.

(** What the callers need: at least what was asked, never zero, in range. *)
Lemma nextPowerOf2_bounds n :
  0 ≤ n ≤ SIZE_MAX →
  n ≤ nextPowerOf2ClampedToMax n ≤ SIZE_MAX ∧ 0 < nextPowerOf2ClampedToMax n.
Proof.
  intros Hn. rewrite nextPowerOf2_spec by done.
  destruct (Z.leb_spec n 1) as [|H1]; [unfold SIZE_MAX; lia|].
  destruct (Z.leb_spec n (2 ^ 63)) as [H2|H2]; [|unfold SIZE_MAX in *; lia].
  pose proof (Z.log2_up_spec n H1).
  assert (2 ^ Z.log2_up n ≤ 2 ^ 63).
  { apply Z.pow_le_mono_r; [lia|]. rewrite <- (Z.log2_up_pow2 63) by lia.
    by apply Z.log2_up_le_mono. }
  unfold SIZE_MAX. lia.
Qed.

(** ** The default allocator keeps the contract *)

#[export] Instance default_allocator_laws : AllocatorLaws default_allocator.
Proof.
  split; simpl.
  - intros len Q m. apply malloc_ok.
  - intros b cs len Q m. apply realloc_ok.
  - intros b cs Q m. apply free_ok.
  - intros dst src n data m1 Q m. apply memmove_ok.
Qed.

(** ** What a storage holds *)

Definition storage_block (s : ByteBufferStorage) : option positive :=
  match bytes s with Ptr b _ => Some b | _ => None end.

Definition contents (s : ByteBufferStorage) (m : mem) : list cell :=
  match storage_block s with Some b => default [] (m_blocks m !! b) | None => [] end.

(** All the memory that the storage does not own. *)
Definition rest (s : ByteBufferStorage) (m : mem) : gmap positive (list cell) :=
  match storage_block s with Some b => delete b (m_blocks m) | None => m_blocks m end.

(** A storage has no block and capacity zero, or owns a block of exactly its capacity. *)
Inductive storage_ok : ByteBufferStorage → mem → Prop :=
| storage_ok_null a m : AllocatorLaws a → storage_ok (mkStorage Null 0 a) m
| storage_ok_block a b cs m : AllocatorLaws a → m_blocks m !! b = Some cs →
    (0 < length cs)%nat → Z.of_nat (length cs) ≤ SIZE_MAX →
    storage_ok (mkStorage (Ptr b 0) (Z.of_nat (length cs)) a) m.

Lemma storage_ok_laws s m : storage_ok s m → AllocatorLaws (allocator s).
Proof. by destruct 1. Qed.

Lemma contents_length s m : storage_ok s m → Z.of_nat (length (contents s m)) = capacity s.
Proof. destruct 1 as [|a b cs m Ha Hb]; [done|]. unfold contents. simpl. by rewrite Hb. Qed.

Lemma capacity_range s m : storage_ok s m → 0 ≤ capacity s ≤ SIZE_MAX.
Proof. destruct 1; simpl; unfold SIZE_MAX in *; lia. Qed.

(** A storage only looks at its own block. *)
Lemma storage_ok_ext s m m' :
  (∀ b, storage_block s = Some b → m_blocks m' !! b = m_blocks m !! b) →
  storage_ok s m → storage_ok s m' ∧ contents s m' = contents s m.
Proof.
  intros Hb. destruct 1 as [a m Ha|a b cs m Ha Hcs Hl Hmax]; simpl in *.
  - by split; [constructor|].
  - specialize (Hb b eq_refl). split; [constructor; [done|by rewrite Hb|done|done]|].
    unfold contents. simpl. by rewrite Hb.
Qed.

Lemma contents_block a b cs cap m :
  m_blocks m !! b = Some cs → contents (mkStorage (Ptr b 0) cap a) m = cs.
Proof. intros Hb. unfold contents. simpl. by rewrite Hb. Qed.

(** Memory that one storage leaves alone is what another one owns. *)
Lemma rest_lookup s m s' m' b cs :
  rest s' m' = rest s m → storage_block s ≠ Some b → m_blocks m !! b = Some cs →
  m_blocks m' !! b = Some cs ∧ storage_block s' ≠ Some b.
Proof.
  unfold rest. intros Hr Hs Hb.
  assert (rest s m !! b = Some cs) as H.
  { unfold rest. destruct (storage_block s) as [b'|]; [|done].
    rewrite lookup_delete_ne; [done|congruence]. }
  unfold rest in H. rewrite <- Hr in H. destruct (storage_block s') as [b'|]; [|done].
  apply lookup_delete_Some in H as [??]. split; [done|congruence].
Qed.

(** ** Rules for the operations *)

Lemma wp_storage_new a cap Q m :
  AllocatorLaws a → mem_wf m → 0 ≤ cap ≤ SIZE_MAX →
  (∀ s m', storage_ok s m' → mem_wf m' → allocator s = a → rest s m' = m_blocks m →
    (bytes s = Null ∨ capacity s = nextPowerOf2ClampedToMax cap) → Q s m') →
  wp (storage_new a cap) Q m.
Proof.
  intros Ha Hwf Hcap HQ. unfold storage_new. cbv zeta.
  destruct (nextPowerOf2_bounds cap Hcap) as [Hb Hpos]. wp_step.
  apply allocate_ok; [done|done|..].
  - intros m' Hm' Hwf'. simpl. apply wp_ret, HQ; [by constructor|done|done|done|by left].
  - intros b cs m' Hf Hl Hm' Hwf'. simpl. apply wp_ret. rewrite <- Hl in *.
    apply HQ; [|done|done| |by right].
    + constructor; [done|by rewrite Hm', lookup_insert_eq|lia|lia].
    + unfold rest. simpl. rewrite Hm'. by apply delete_insert_id.
Qed.

Lemma wp_storage_copy s Q m :
  storage_ok s m → mem_wf m →
  (∀ s' m', storage_ok s' m' → mem_wf m' → allocator s' = allocator s →
    rest s' m' = m_blocks m →
    (bytes s' = Null ∨ (capacity s' = capacity s ∧ contents s' m' = contents s m)) → Q s' m') →
  wp (storage_copy s) Q m.
Proof.
  intros Hs Hwf HQ. unfold storage_copy. destruct Hs as [a m Ha|a b cs m Ha Hb Hl Hmax]; simpl.
  { apply wp_ret, HQ; [by constructor|done|done|done|by left]. }
  wp_step. apply allocate_ok; [done|lia|..].
  { intros m' Hm' Hwf'. simpl. apply wp_ret, HQ; [by constructor|done|done|done|by left]. }
  intros b' cs' m' Hf Hl' Hm' Hwf'. simpl. wp_step.
  assert (b ≠ b') by congruence.
  assert (length cs' = length cs) as Hlen by lia.
  eapply copybytes_ok; [done| | |].
  - apply (load_slice b 0 (length cs) m' cs); [by rewrite Hm', lookup_insert_ne|done].
  - rewrite drop_0, take_ge by done. apply (store_slice b' 0 cs m' cs'); [|lia].
    by rewrite Hm', lookup_insert_eq.
  - intros m'' Hm'' Hwf''. simpl in Hm''. apply wp_ret.
    assert (splice 0 cs cs' = cs) as Hsp.
    { unfold splice. simpl. rewrite drop_ge by lia. by rewrite app_nil_r. }
    rewrite Hsp, Hm', insert_insert_eq in Hm''.
    apply HQ; [|done|done| |right; split; [done|]].
    + constructor; [done|by rewrite Hm'', lookup_insert_eq|done|done].
    + unfold rest. simpl. rewrite Hm''. by apply delete_insert_id.
    + rewrite (contents_block _ _ cs) by by rewrite Hm'', lookup_insert_eq.
      by rewrite (contents_block _ _ cs).
Qed.

Lemma wp_storage_destroy s Q m :
  storage_ok s m → mem_wf m →
  (∀ m', m_blocks m' = rest s m → mem_wf m' → Q tt m') →
  wp (storage_destroy s) Q m.
Proof.
  intros Hs Hwf HQ. unfold storage_destroy. destruct Hs as [a m Ha|a b cs m Ha Hb Hl Hmax]; simpl.
  - by apply wp_ret, HQ.
  - by eapply deallocate_ok.
Qed.

(** The effect of a successful [reserve n]. *)
Record reserved (n : Z) s m s' m' : Prop := {
  res_ok : storage_ok s' m';
  res_wf : mem_wf m';
  res_rest : rest s' m' = rest s m;
  res_allocator : allocator s' = allocator s;
  res_room : n ≤ capacity s';
  res_block : is_Some (storage_block s');
  res_keeps : take (length (contents s m)) (contents s' m') = contents s m;
  res_growth : (s' = s ∧ m' = m) ∨
    (capacity s' = nextPowerOf2ClampedToMax n ∧ (bytes s = Null ∨ capacity s < n));
}.

Lemma wp_reserve n Q s m :
  storage_ok s m → mem_wf m → 0 ≤ n ≤ SIZE_MAX →
  (∀ m', m_blocks m' = m_blocks m → mem_wf m' → (bytes s = Null ∨ capacity s < n) →
    Q false (s, m')) →
  (∀ s' m', reserved n s m s' m' → Q true (s', m')) →
  wp (reserve n) Q (s, m).
Proof.
  intros Hs Hwf Hn Hno Hyes. unfold reserve, this. wp_step. apply wp_gets. simpl.
  destruct (nextPowerOf2_bounds n Hn) as [Hb Hpos].
  destruct (Z.ltb_spec (nextPowerOf2ClampedToMax n) n) as [|_]; [lia|].
  destruct Hs as [a m Ha|a b cs m Ha Hcs Hl Hmax]; simpl.
  - wp_step. unfold in_mem. apply wp_zoom. simpl. apply allocate_ok; [done|lia|..].
    + intros m' Hm' Hwf'. simpl. by apply wp_ret, Hno; [..|left].
    + intros b cs m' Hf Hlen Hm' Hwf'. simpl. unfold set_block. wp_go. rewrite <- Hlen in *.
      apply Hyes. split; simpl; [|done| |done|lia|done| |by right; split; [|left]].
      * constructor; [done|by rewrite Hm', lookup_insert_eq|lia|lia].
      * unfold rest. simpl. rewrite Hm'. by apply delete_insert_id.
      * done.
  - destruct (Z.leb_spec n (Z.of_nat (length cs))) as [Hfit|Hgrow].
    { apply wp_ret, Hyes. split; [by constructor|done|done|done|done|done| |by left].
      rewrite (contents_block _ _ cs) by done. by apply take_ge. }
    wp_step. unfold in_mem. apply wp_zoom. simpl. eapply reallocate_ok; [done|lia|done|..].
    + intros m' Hm' Hwf'. simpl. by apply wp_ret, Hno; [..|right].
    + intros b' cs' m' Hb' Hlen Hk Hm' Hwf'. simpl. unfold set_block. wp_go. rewrite <- Hlen in *.
      apply Hyes. split; simpl; [|done| |done|lia|done| |by right; split; [|right]].
      * constructor; [done|by rewrite Hm', lookup_insert_eq|lia|lia].
      * unfold rest. simpl. rewrite Hm'. apply delete_insert_id.
        destruct Hb' as [->|Hb']; [by apply lookup_delete_eq|].
        apply lookup_delete_None. by right.
      * rewrite (contents_block _ _ cs _ m) by done.
        rewrite (contents_block _ _ cs' _ m') by by rewrite Hm', lookup_insert_eq.
        rewrite Hk by lia. by apply take_ge.
Qed.

(** The source of a copy does not lie in a block that the copy may free. *)
Definition source_survives (src : ptr) (size atIndex : Z) (s : ByteBufferStorage) : Prop :=
  ∀ b off, src = Ptr b off → storage_block s = Some b → atIndex + size ≤ capacity s.

(** The effect of writing [data] at [atIndex]. *)
Record written (data : list cell) (atIndex : Z) s m s' m' : Prop := {
  wr_ok : storage_ok s' m';
  wr_wf : mem_wf m';
  wr_rest : rest s' m' = rest s m;
  wr_allocator : allocator s' = allocator s;
  wr_room : atIndex + Z.of_nat (length data) ≤ capacity s';
  wr_contents : take (Z.to_nat atIndex + length data) (contents s' m') =
    take (Z.to_nat atIndex) (contents s m) ++ data;
  wr_beyond : take (length (contents s m) - (Z.to_nat atIndex + length data))
      (drop (Z.to_nat atIndex + length data) (contents s' m')) =
    drop (Z.to_nat atIndex + length data) (contents s m);
  wr_growth : (bytes s' = bytes s ∧ capacity s' = capacity s) ∨
    (capacity s < atIndex + Z.of_nat (length data) ∧
     capacity s' = nextPowerOf2ClampedToMax (atIndex + Z.of_nat (length data)));
}.

(** The source can still be read once the room has been reserved. *)
Lemma reserved_load src size atIndex data s m s' m' :
  reserved (atIndex + size) s m s' m' → source_survives src size atIndex s →
  load src size m = Some data → load src size m' = Some data.
Proof.
  intros [_ _ Hrest _ _ _ _ Hgrow] Hsrc Hload. destruct src as [| |b off]; [done|done|].
  destruct (m_blocks m !! b) as [cs|] eqn:Hb; [|by unfold load in Hload; rewrite Hb in Hload].
  destruct (decide (storage_block s = Some b)) as [Hown|Hother].
  - specialize (Hsrc b off eq_refl Hown). destruct Hgrow as [[_ ->]|[_ [Hn|]]]; [done| |lia].
    unfold storage_block in Hown. by rewrite Hn in Hown.
  - rewrite <- Hload. apply load_blocks. intros ? ? [= <- <-]. rewrite Hb.
    eapply rest_lookup; [exact Hrest|done|done].
Qed.

(** Room for [n] bytes had to be asked for and was not granted. *)
Definition refused (n : Z) s m : Prop :=
  (bytes s = Null ∨ capacity s < n) ∧ ∃ st, reserve n (s, m) = Done false st.

Lemma wp_setBytes src size atIndex data Q s m :
  storage_ok s m → mem_wf m → 0 ≤ size ≤ SIZE_MAX → 0 ≤ atIndex ≤ capacity s →
  load src size m = Some data → source_survives src size atIndex s →
  (∀ m', m_blocks m' = m_blocks m → mem_wf m' →
    (size = 0 ∨ SIZE_MAX < atIndex + size ∨ refused (atIndex + size) s m) →
    Q 0 (s, m')) →
  (∀ s' m', 0 < size → written data atIndex s m s' m' → Q size (s', m')) →
  wp (setBytes src size atIndex) Q (s, m).
Proof.
  intros Hs Hwf Hsize Hat Hload Hsrc Hno Hyes.
  pose proof (load_length _ _ _ _ (proj1 Hsize) Hload) as Hdata.
  pose proof (capacity_range _ _ Hs) as Hcap. pose proof (contents_length _ _ Hs) as Hlen.
  unfold setBytes. destruct (is_null src) eqn:Hnull; [by destruct src|]. simpl.
  destruct (Z.eqb_spec size 0) as [|Hnz]; [apply wp_ret, Hno; [done|done|by left]|].
  rewrite to_size_id by lia.
  destruct (Z.ltb_spec (SIZE_MAX - size) atIndex) as [Hov|Hfit].
  { apply wp_ret, Hno; [done|done|lia]. }
  rewrite to_size_id by lia. wp_step. apply wp_run, wp_reserve; [done|done|lia|..].
  { intros m' Hm' Hwf' Hwhy Hrun. simpl. apply wp_ret, Hno; [done|done|].
    do 2 right. split; [done|by eexists]. }
  intros s1 m1 Hres _. simpl.
  wp_step. unfold this. apply wp_gets. wp_step. unfold in_mem. apply wp_zoom. simpl.
  pose proof (reserved_load _ _ _ _ _ _ _ _ Hres Hsrc Hload) as Hload1.
  destruct Hres as [Hok1 Hwf1 Hrest1 Hall1 Hroom1 Hblk1 Hkeep1 Hgrow1].
  pose proof (storage_ok_laws _ _ Hok1) as Hlaws.
  destruct Hok1 as [a m1 Ha|a b cs m1 Ha Hcs Hpos Hmax]; simpl in *; [by destruct Hblk1|].
  rewrite (contents_block _ _ cs) in Hkeep1 by done.
  assert (length data = Z.to_nat size) as Hdl by lia.
  assert (store (Ptr b (0 + atIndex)) data m1 =
    Some (set_blocks (<[b := splice (Z.to_nat atIndex) data cs]> (m_blocks m1)) m1)) as Hstore.
  { replace (0 + atIndex) with (Z.of_nat (Z.to_nat atIndex)) by lia. apply store_slice; [done|lia]. }
  eapply copybytes_ok; [done|exact Hload1|exact Hstore|].
  intros m2 Hm2 Hwf2. simpl in Hm2. apply wp_ret, Hyes; [lia|].
  set (cs2 := splice (Z.to_nat atIndex) data cs) in *.
  assert (length cs2 = length cs) as Hl2 by (apply length_splice; lia).
  assert (m_blocks m2 !! b = Some cs2) as Hb2 by by rewrite Hm2, lookup_insert_eq.
  rewrite <- Hl2 in *. split; simpl; [by constructor|done| |done|lia| | |].
  - rewrite <- Hrest1. unfold rest. simpl. by rewrite Hm2, delete_insert_eq.
  - rewrite (contents_block _ _ cs2) by done. subst cs2. rewrite take_splice_data by lia.
    f_equal. rewrite <- Hkeep1, take_take. f_equal. lia.
  - rewrite (contents_block _ _ cs2) by done. subst cs2. rewrite drop_splice_data by lia.
    rewrite <- Hkeep1 at 2. by rewrite skipn_firstn_comm.
  - assert (atIndex + size = atIndex + Z.of_nat (length data)) as He by lia.
    destruct Hgrow1 as [[<- _]|[-> Hwhy]]; [by left|right]. rewrite <- He. split; [|done].
    destruct Hwhy as [Hn|]; [|done]. destruct Hs; simpl in *; [lia|done].
Qed.

(** The whole block after a write. *)
Lemma written_splice data atIndex s m s' m' : written data atIndex s m s' m' →
  ∃ tail, contents s' m' = splice (Z.to_nat atIndex) data (contents s m) ++ tail.
Proof.
  intros [_ _ _ _ _ Hc Hb _]. set (n := (Z.to_nat atIndex + length data)%nat) in *.
  exists (drop (length (contents s m) - n) (drop n (contents s' m'))).
  unfold splice. fold n. rewrite <- (take_drop n (contents s' m')) at 1.
  rewrite <- (take_drop (length (contents s m) - n) (drop n (contents s' m'))) at 1.
  by rewrite Hc, Hb, <- !app_assoc.
Qed.

Lemma wp_setBytes_nothing src size atIndex Q st :
  src = Null ∨ size = 0 → Q 0 st → wp (setBytes src size atIndex) Q st.
Proof. intros [->| ->] HQ; unfold setBytes; simpl; [done|]. by rewrite orb_true_r. Qed.

(** Reading out of the storage into memory it does not own. *)
Lemma wp_copyBytesTo dst size fromIndex Q s m :
  storage_ok s m → mem_wf m → 0 < size ≤ SIZE_MAX → 0 ≤ fromIndex →
  fromIndex < capacity s → dst ≠ Null →
  (let data := take (Z.to_nat (Z.min size (capacity s - fromIndex)))
                 (drop (Z.to_nat fromIndex) (contents s m)) in
   ∃ m1, store dst data m = Some m1 ∧
     ∀ m', m_blocks m' = m_blocks m1 → mem_wf m' →
       Q (Z.min size (capacity s - fromIndex)) (s, m')) →
  wp (copyBytesTo dst size fromIndex) Q (s, m).
Proof.
  intros Hs Hwf Hsize Hfrom Hlt Hdst HQ. pose proof (capacity_range _ _ Hs) as Hcap.
  unfold copyBytesTo, this. wp_step. apply wp_gets. simpl.
  destruct (is_null dst) eqn:Hnull; [by destruct dst|]. simpl.
  destruct Hs as [a m Ha|a b cs m Ha Hcs Hpos Hmax]; simpl in *; [lia|].
  destruct (Z.leb_spec (Z.of_nat (length cs)) fromIndex) as [|_]; [lia|].
  rewrite to_size_id by lia.
  assert (∀ x y, minimumOf x y = Z.min x y) as Hmin.
  { intros x y. unfold minimumOf. destruct (Z.ltb_spec x y); lia. }
  rewrite Hmin. set (n := Z.min size _) in *.
  destruct (Z.eqb_spec n 0) as [|_]; [lia|]. wp_step. unfold in_mem. apply wp_zoom. simpl.
  destruct HQ as (m1 & Hst & HQ). rewrite (contents_block _ _ cs) in Hst by done.
  eapply copybytes_ok; [done| |exact Hst|].
  - replace n with (Z.of_nat (Z.to_nat n)) at 1 by lia.
    replace fromIndex with (Z.of_nat (Z.to_nat fromIndex)) at 1 by lia.
    rewrite Z.add_0_l. apply load_slice; [done|lia].
  - intros m' Hm' Hwf'. by apply wp_ret, HQ.
Qed.

(** A copy that the C library refuses, and a write to the empty storage that is
    left, which then gets a block nobody has written to. *)
Lemma storage_copy_refused s m ds :
  storage_ok s m → allocator s = default_allocator → bytes s ≠ Null → m_plan m = Refuse :: ds →
  storage_copy s m = Done (mkStorage Null 0 default_allocator) (mkMem (m_blocks m) (m_next m) ds).
Proof.
  intros Hs Ha Hb Hp. unfold storage_copy. destruct (bytes s) eqn:E; [done|..]; simpl;
    rewrite Ha; simpl; unfold defaultAllocate, malloc, decide_request, mbind, prog_bind; by rewrite Hp.
Qed.

Lemma wp_setBytes_empty src size atIndex data Q m :
  mem_wf m → head (m_plan m) ≠ Some Refuse → 0 < size → 0 ≤ atIndex → atIndex + size ≤ SIZE_MAX →
  load src size m = Some data →
  (∀ s' m', storage_ok s' m' → mem_wf m' → rest s' m' = m_blocks m →
    contents s' m' = splice (Z.to_nat atIndex) data
      (uninit (Z.to_nat (nextPowerOf2ClampedToMax (atIndex + size)))) → Q size (s', m')) →
  wp (setBytes src size atIndex) Q (mkStorage Null 0 default_allocator, m).
Proof.
  intros Hwf Hplan Hsize Hat Hmax Hload HQ.
  pose proof (load_length _ _ _ _ (Z.lt_le_incl _ _ Hsize) Hload) as Hl.
  destruct (nextPowerOf2_bounds (atIndex + size)) as [Hb Hpos]; [lia|].
  set (cap := nextPowerOf2ClampedToMax (atIndex + size)) in *.
  set (b := m_next m). set (cs := uninit (Z.to_nat cap)).
  set (m1 := mkMem (<[b := cs]> (m_blocks m)) (Pos.succ b) (tail (m_plan m))).
  assert (length cs = Z.to_nat cap) as Hcs by apply length_replicate.
  assert (m_blocks m !! b = None) as Hfresh by (apply eq_None_not_Some; intros Hc%Hwf; lia).
  assert (reserve (atIndex + size) (mkStorage Null 0 default_allocator, m) =
    Done true (mkStorage (Ptr b 0) cap default_allocator, m1)) as Hres.
  { unfold reserve, this, in_mem, zoom, set_block, gets, modify, mbind, prog_bind. simpl. fold cap.
    rewrite (proj2 (Z.ltb_ge _ _)) by lia.
    unfold defaultAllocate, malloc, decide_request, new_block, mbind, prog_bind.
    destruct m as [bs nx [|[| |] ds]]; done. }
  assert (mem_wf m1) as Hwf1.
  { intros b' Hb'. simpl in *. apply lookup_insert_is_Some in Hb' as [<-|[_ Hb']]; [lia|].
    apply Hwf in Hb'. unfold b. lia. }
  assert (load src size m1 = Some data) as Hload1.
  { rewrite <- Hload. apply load_blocks. intros b' off ->. simpl. apply lookup_insert_ne.
    intros <-. unfold load in Hload. by rewrite Hfresh in Hload. }
  unfold setBytes. destruct (is_null src) eqn:Hnull; [by destruct src|]. simpl.
  rewrite (proj2 (Z.eqb_neq _ _)), to_size_id by lia.
  destruct (Z.ltb_spec (SIZE_MAX - size) atIndex) as [|_]; [lia|]. rewrite to_size_id by lia.
  wp_step. unfold wp at 1. rewrite Hres. simpl. wp_step. unfold this. apply wp_gets. wp_step.
  unfold in_mem. apply wp_zoom. simpl. unfold defaultCopybytes.
  eapply (memmove_ok _ _ _ _ (set_blocks (<[b := splice (Z.to_nat atIndex) data cs]> (m_blocks m1)) m1));
    [done|exact Hload1| |].
  - replace atIndex with (Z.of_nat (Z.to_nat atIndex)) at 1 by lia.
    apply store_slice; [apply lookup_insert_eq|lia].
  - intros m2 Hm2 Hwf2. simpl in Hm2. rewrite insert_insert_eq in Hm2.
    assert (length (splice (Z.to_nat atIndex) data cs) = length cs) as Hls by (apply length_splice; lia).
    assert (m_blocks m2 !! b = Some (splice (Z.to_nat atIndex) data cs)) as Hb2
      by by rewrite Hm2, lookup_insert_eq.
    apply wp_ret, HQ; [|done| |by rewrite (contents_block _ _ _ _ _ Hb2)].
    + replace cap with (Z.of_nat (length (splice (Z.to_nat atIndex) data cs))) by lia.
      apply storage_ok_block; [apply _|done|lia|lia].
    + unfold rest. simpl. rewrite Hm2. by apply delete_insert_id.
Qed.

(** ** What the storage promises *)

(** C30: [nextPowerOf2ClampedToMax] returns 1 for sizes up to 1, the least power
    of two that is at least the argument for sizes up to [2^63], and [SIZE_MAX]
    above; so it is never below its argument and the guard
    [newCapacity < minimumNeededCapacity] of [reserve] never fires. *)
Theorem nextPowerOf2_correct (n : Z) (Hn : 0 ≤ n ≤ SIZE_MAX) :
  n ≤ nextPowerOf2ClampedToMax n ≤ SIZE_MAX ∧
  (n ≤ 1 → nextPowerOf2ClampedToMax n = 1) ∧
  (1 < n ≤ 2 ^ 63 → ∃ k, 0 < k ∧ nextPowerOf2ClampedToMax n = 2 ^ k ∧ 2 ^ (k - 1) < n ≤ 2 ^ k) ∧
  (2 ^ 63 < n → nextPowerOf2ClampedToMax n = SIZE_MAX).
Proof.
  destruct (nextPowerOf2_bounds n Hn) as [Hb _]. split; [done|].
  rewrite nextPowerOf2_spec by done. destruct (Z.leb_spec n 1); [split_and!; lia|].
  split; [lia|]. destruct (Z.leb_spec n (2 ^ 63)); [|by split; [lia|]].
  split; [|lia]. intros _. exists (Z.log2_up n).
  pose proof (Z.log2_up_spec n ltac:(lia)) as Hs. pose proof (Z.log2_up_pos n ltac:(lia)).
  by rewrite <- Z.sub_1_r in Hs.
Qed.

Lemma nextPowerOf2_correct_witness :
  1000 ≤ nextPowerOf2ClampedToMax 1000 ≤ SIZE_MAX ∧
  (1000 ≤ 1 → nextPowerOf2ClampedToMax 1000 = 1) ∧
  (1 < 1000 ≤ 2 ^ 63 →
    ∃ k, 0 < k ∧ nextPowerOf2ClampedToMax 1000 = 2 ^ k ∧ 2 ^ (k - 1) < 1000 ≤ 2 ^ k) ∧
  (2 ^ 63 < 1000 → nextPowerOf2ClampedToMax 1000 = SIZE_MAX).
Proof. apply (nextPowerOf2_correct 1000). vm_compute. split; discriminate. Defined.

Example nextPowerOf2_1000 : nextPowerOf2ClampedToMax 1000 = 1024.
Proof. reflexivity. Qed.

Example nextPowerOf2_top : nextPowerOf2ClampedToMax (2 ^ 63) = 2 ^ 63.
Proof. reflexivity. Qed.

(** C5: [reserve n] over any allocator that keeps its contract.  It returns true
    exactly when the block then holds [n] bytes: the block is left alone when it
    was already large enough, and is otherwise grown to the rounded size with
    everything it held; it never shrinks.  It returns false only when the
    allocator refused, and then the object and every byte of memory are as
    before.  No memory outside the block changes. *)
Theorem reserve_correct (s : ByteBufferStorage) (m : mem) (n : Z)
  (Hs : storage_ok s m) (Hwf : mem_wf m) (Hn : 0 ≤ n ≤ SIZE_MAX) :
  wp (reserve n) (λ r st, mem_wf st.2 ∧ storage_ok st.1 st.2 ∧ rest st.1 st.2 = rest s m ∧
    if (r : bool) then
      n ≤ capacity st.1 ∧ capacity s ≤ capacity st.1 ∧
      take (length (contents s m)) (contents st.1 st.2) = contents s m ∧
      (if negb (is_null (bytes s)) && (n <=? capacity s) then st = (s, m)
       else capacity st.1 = nextPowerOf2ClampedToMax n)
    else st.1 = s ∧ m_blocks st.2 = m_blocks m ∧ (bytes s = Null ∨ capacity s < n)) (s, m).
Proof.
  apply wp_reserve; [done..| |].
  - intros m' Hm' Hwf' Hwhy. simpl.
    destruct (storage_ok_ext s m m') as [Hok Hc]; [by intros; rewrite Hm'|done|].
    split_and!; [done|done| |done|done|done].
    unfold rest. by rewrite Hm'.
  - intros s' m' [Hok Hwf' Hrest Hall Hroom Hblk Hkeep Hgrow]. simpl.
    pose proof (contents_length _ _ Hs). pose proof (contents_length _ _ Hok).
    assert (capacity s ≤ capacity s').
    { apply (f_equal length) in Hkeep. rewrite length_take in Hkeep. lia. }
    split_and!; [done..|]. destruct (is_null (bytes s)) eqn:Hnull; simpl.
    + destruct Hgrow as [[-> ->]|[? _]]; [|done]. unfold storage_block in Hblk.
      destruct (bytes s); [by destruct Hblk|done|done].
    + destruct (Z.leb_spec n (capacity s)).
      * destruct Hgrow as [[-> ->]|[_ [Hb|]]]; [done|by rewrite Hb in Hnull|lia].
      * destruct Hgrow as [[-> ->]|[? _]]; [lia|done].
Qed.

(** A storage of four bytes over the default allocator, next to a block with
    the three bytes of a client. *)
Definition some_cells (l : list byte) : list cell := Some <$> l.
Definition ex_storage : ByteBufferStorage := mkStorage (Ptr 1 0) 4 default_allocator.
Definition ex_mem (plan : list decision) : mem :=
  mkMem {[1%positive := some_cells [x61; x62; x63; x64]; 2%positive := some_cells [x78; x79; x7a]]}
    3 plan.

Lemma ex_storage_ok plan : storage_ok ex_storage (ex_mem plan).
Proof. apply (storage_ok_block default_allocator 1 (some_cells [x61; x62; x63; x64])); done || apply _ || (simpl; lia). Qed.

Lemma ex_mem_wf plan : mem_wf (ex_mem plan).
Proof. by apply mem_wf_check. Qed.

Lemma reserve_correct_witness :
  wp (reserve 9) (λ r st, mem_wf st.2 ∧ storage_ok st.1 st.2 ∧
    rest st.1 st.2 = rest ex_storage (ex_mem [Refuse]) ∧
    if (r : bool) then
      9 ≤ capacity st.1 ∧ capacity ex_storage ≤ capacity st.1 ∧
      take (length (contents ex_storage (ex_mem [Refuse]))) (contents st.1 st.2) =
        contents ex_storage (ex_mem [Refuse]) ∧
      (if negb (is_null (bytes ex_storage)) && (9 <=? capacity ex_storage)
       then st = (ex_storage, ex_mem [Refuse])
       else capacity st.1 = nextPowerOf2ClampedToMax 9)
    else st.1 = ex_storage ∧ m_blocks st.2 = m_blocks (ex_mem [Refuse]) ∧
         (bytes ex_storage = Null ∨ capacity ex_storage < 9)) (ex_storage, ex_mem [Refuse]).
Proof.
  apply (reserve_correct ex_storage (ex_mem [Refuse]) 9).
  - apply ex_storage_ok.
  - apply ex_mem_wf.
  - vm_compute. split; discriminate.
Defined.

(** C4: [setBytes] with a readable source that does not lie in the storage's own
    block, or that does but needs no growth.  It returns [size], and then the
    block is what it was with the source bytes, as they were before the call (so
    the ranges may overlap), in place of those at [atIndex]; all other bytes are
    kept, and the block is longer only if the write went beyond its end.  Or it
    returns 0 and changes nothing, which it does only for an empty source, a size
    that overflows, or a [reserve] that was needed and refused.  Memory outside
    the block is untouched. *)
Theorem setBytes_correct (s : ByteBufferStorage) (m : mem) (src : ptr) (size atIndex : Z)
  (data : list cell) (Hs : storage_ok s m) (Hwf : mem_wf m)
  (Hsize : 0 ≤ size ≤ SIZE_MAX) (Hat : 0 ≤ atIndex ≤ capacity s)
  (Hload : load src size m = Some data) (Hsrc : source_survives src size atIndex s) :
  wp (setBytes src size atIndex) (λ r st, storage_ok st.1 st.2 ∧ mem_wf st.2 ∧
    rest st.1 st.2 = rest s m ∧
    ((r = size ∧ 0 < size ∧
      (∃ tail, contents st.1 st.2 = splice (Z.to_nat atIndex) data (contents s m) ++ tail) ∧
      (capacity st.1 = capacity s ∨ capacity s < atIndex + size ∧
       capacity st.1 = nextPowerOf2ClampedToMax (atIndex + size))) ∨
     (r = 0 ∧ st.1 = s ∧ m_blocks st.2 = m_blocks m ∧
      (size = 0 ∨ SIZE_MAX < atIndex + size ∨ refused (atIndex + size) s m))))
    (s, m).
Proof.
  eapply wp_setBytes; [done..| |].
  - intros m' Hm' Hwf' Hwhy. simpl.
    destruct (storage_ok_ext s m m') as [Hok Hc]; [by intros; rewrite Hm'|done|].
    split_and!; [done|done|unfold rest; by rewrite Hm'|by right].
  - intros s' m' Hpos Hw. pose proof (written_splice _ _ _ _ _ _ Hw) as Htail.
    destruct Hw as [Hok Hwf' Hrest _ _ _ _ Hgrow]. simpl.
    pose proof (load_length _ _ _ _ (proj1 Hsize) Hload) as Hl. rewrite Hl in Hgrow.
    split_and!; [done..|]. left. split_and!; [done|done|done|naive_solver].
Qed.

Lemma setBytes_correct_witness :
  wp (setBytes (Ptr 2 0) 3 2) (λ r st, storage_ok st.1 st.2 ∧ mem_wf st.2 ∧
    rest st.1 st.2 = rest ex_storage (ex_mem []) ∧
    ((r = 3 ∧ 0 < 3 ∧
      (∃ tail, contents st.1 st.2 =
         splice 2 (some_cells [x78; x79; x7a]) (contents ex_storage (ex_mem [])) ++ tail) ∧
      (capacity st.1 = capacity ex_storage ∨ capacity ex_storage < 2 + 3 ∧
       capacity st.1 = nextPowerOf2ClampedToMax (2 + 3))) ∨
     (r = 0 ∧ st.1 = ex_storage ∧ m_blocks st.2 = m_blocks (ex_mem []) ∧
      (3 = 0 ∨ SIZE_MAX < 2 + 3 ∨ refused (2 + 3) ex_storage (ex_mem [])))))
    (ex_storage, ex_mem []).
Proof.
  apply (setBytes_correct ex_storage (ex_mem []) (Ptr 2 0) 3 2 (some_cells [x78; x79; x7a])).
  - apply ex_storage_ok.
  - apply ex_mem_wf.
  - vm_compute. split; discriminate.
  - vm_compute. split; discriminate.
  - reflexivity.
  - intros b off. vm_compute. congruence.
Defined.

(** C34: a source range inside the block itself, when the write has to grow the
    block and the C library moves it: the bytes can be read before the call, but
    [reserve] frees the block they lie in, so [setBytes] goes on to read freed
    memory. *)
Theorem setBytes_overlap_dangles (m : mem) (b : positive) (cs : list cell) (off size atIndex : Z)
  (Hwf : mem_wf m) (Hb : m_blocks m !! b = Some cs) (Hplan : head (m_plan m) ≠ Some Refuse)
  (Hmove : head (m_plan m) ≠ Some Stay) (Hoff : 0 ≤ off) (Hin : off + size ≤ Z.of_nat (length cs))
  (Hat : 0 ≤ atIndex) (Hsize : 0 < size)
  (Hgrow : Z.of_nat (length cs) < atIndex + size ≤ SIZE_MAX) :
  is_Some (load (Ptr b off) size m) ∧
  halts (setBytes (Ptr b off) size atIndex) FUndefined
    (mkStorage (Ptr b 0) (Z.of_nat (length cs)) default_allocator, m).
Proof.
  assert (b < m_next m)%positive as Hnext by by apply Hwf.
  split.
  { replace off with (Z.of_nat (Z.to_nat off)) by lia.
    replace size with (Z.of_nat (Z.to_nat size)) by lia.
    rewrite (load_slice b _ _ m cs); [done|done|lia]. }
  assert (∃ m0, decide_request m = Done Move m0 ∧ m_blocks m0 = m_blocks m ∧ m_next m0 = m_next m)
    as (m0 & Hreq & Hm0 & Hn0).
  { unfold decide_request. destruct (m_plan m) as [|[| |] ds]; [by eauto|done|by eauto|done]. }
  destruct (nextPowerOf2_bounds (atIndex + size)) as [Hr _]; [lia|].
  unfold setBytes. simpl.
  destruct (Z.eqb_spec size 0) as [|_]; [lia|]. rewrite to_size_id by lia.
  destruct (Z.ltb_spec (SIZE_MAX - size) atIndex) as [|_]; [lia|]. rewrite to_size_id by lia.
  apply halts_bind_r. unfold reserve, this. wp_step. apply wp_gets. simpl.
  destruct (Z.leb_spec (atIndex + size) (Z.of_nat (length cs))) as [|_]; [lia|].
  destruct (Z.ltb_spec (nextPowerOf2ClampedToMax (atIndex + size)) (atIndex + size)) as [|_]; [lia|].
  wp_step. unfold in_mem at 1. apply wp_zoom. simpl. unfold defaultReallocate, realloc.
  wp_step. apply wp_gets. wp_step. rewrite Hb. eapply wp_of_option; [done|]. wp_step.
  unfold wp at 1. rewrite Hreq. wp_step. apply wp_modify. unfold wp, new_block. simpl.
  apply halts_bind_r. wp_step. apply halts_bind_l, halts_zoom. simpl.
  unfold defaultCopybytes, memmove. apply halts_bind_r, wp_get, halts_bind_l.
  unfold load. simpl. rewrite Hn0, lookup_insert_ne, lookup_delete_eq by lia. done.
Qed.

Lemma setBytes_overlap_dangles_witness :
  is_Some (load (Ptr 1 1) 2 (ex_mem [])) ∧
  halts (setBytes (Ptr 1 1) 2 3) FUndefined
    (mkStorage (Ptr 1 0) 4 default_allocator, ex_mem []).
Proof.
  apply (setBytes_overlap_dangles (ex_mem []) 1 (some_cells [x61; x62; x63; x64]) 1 2 3);
    try reflexivity; try (vm_compute; congruence).
  - apply ex_mem_wf.
  - vm_compute. split; congruence.
Defined.

End Storage.
