(* ===== verification/CopyOnWrite.v ===== *)
(** * [CopyOnWriteBacked<T>] of [CopyOnWriteBacked.h]

    References to heap elements with copy-on-write value semantics.  The store
    holds every live [CopyOnWriteBacked] instance with the [Block] it points to
    (none once it has been moved from), the blocks with their reference counts,
    and the elements.  Instances, blocks and elements are named by positives;
    an access to one that is not live stops with [FUndefined], so a double free
    or a use after free cannot go unnoticed. *)

From S2P Require Import Prelude.

(** The copy constructor and the destructor of the element type, which work on
    a state of their own (the memory behind a byte buffer, say). *)
Class CowElement (T W : Type) := {
  copy_construct : T → prog W T;
  destroy : T → prog W unit;
}.

Module Cow.
Record Block := mkBlock {
  element : positive;
  retain_count : Z;
}.

#[export] Instance Block_eq_dec : EqDecision Block.
Proof. solve_decision. Defined.

Record cow (T W : Type) := mkCow {
  refs : gmap positive (option positive);
  blocks : gmap positive Block;
  elems : gmap positive T;
  ext : W;
  next_block : positive;
  next_elem : positive;
}.
Arguments mkCow {T W} _ _ _ _ _ _.
Arguments refs {T W} _.
Arguments blocks {T W} _.
Arguments elems {T W} _.
Arguments ext {T W} _.
Arguments next_block {T W} _.
Arguments next_elem {T W} _.

Section ops.
Context {T W : Type} `{CowElement T W}.
Implicit Types (c : cow T W) (x y b e : positive).

Definition set_refs r c : cow T W := mkCow r (blocks c) (elems c) (ext c) (next_block c) (next_elem c).
Definition set_blocks bs c : cow T W := mkCow (refs c) bs (elems c) (ext c) (next_block c) (next_elem c).
Definition set_elems es c : cow T W := mkCow (refs c) (blocks c) es (ext c) (next_block c) (next_elem c).
Definition set_ext w c : cow T W := mkCow (refs c) (blocks c) (elems c) w (next_block c) (next_elem c).

(** An empty store. *)
Definition cow_empty (w : W) : cow T W := mkCow ∅ ∅ ∅ w 1 1.

Definition in_ext {A} (m : prog W A) : prog (cow T W) A := zoom ext set_ext m.

Definition get_block b : prog (cow T W) Block :=
  bs ← gets blocks; of_option FUndefined (bs !! b).

Definition put_block b (k : Block) : prog (cow T W) unit :=
  modify (λ c, set_blocks (<[b := k]> (blocks c)) c).

(** [new T(...)] with the constructed value, and [new Block(element)]. *)
Definition new_element (t : T) : prog (cow T W) positive := λ c,
  Done (next_elem c) (mkCow (refs c) (blocks c) (<[next_elem c := t]> (elems c)) (ext c)
    (next_block c) (Pos.succ (next_elem c))).

Definition new_block e : prog (cow T W) positive := λ c,
  Done (next_block c) (mkCow (refs c) (<[next_block c := mkBlock e 1]> (blocks c)) (elems c) (ext c)
    (Pos.succ (next_block c)) (next_elem c)).

Definition retain b : prog (cow T W) positive :=
  k ← get_block b;
  put_block b (mkBlock (element k) (to_u32 (retain_count k + 1)));;
  mret b.

(** [delete this->element]: the destructor runs, then the element is gone. *)
Definition delete_element e : prog (cow T W) unit :=
  es ← gets elems;
  t ← of_option FUndefined (es !! e);
  in_ext (destroy t);;
  modify (λ c, set_elems (delete e (elems c)) c).

Definition release b : prog (cow T W) unit :=
  k ← get_block b;
  put_block b (mkBlock (element k) (to_u32 (retain_count k - 1)));;
  when (retain_count k =? 1)
    (delete_element (element k);; modify (λ c, set_blocks (delete b (blocks c)) c)).

(** [this->block] of a live instance. *)
Definition block_of x : prog (cow T W) (option positive) :=
  r ← gets refs; of_option FUndefined (r !! x).

Definition set_block x (o : option positive) : prog (cow T W) unit :=
  modify (λ c, set_refs (<[x := o]> (refs c)) c).

(** [p->...] through a block pointer that may be null. *)
Definition deref (o : option positive) : prog (cow T W) positive := of_option FUndefined o.

(** A new instance takes a name that is not in use. *)
Definition new_instance x : prog (cow T W) unit :=
  r ← gets refs;
  match r !! x with None => mret tt | Some _ => stop FUndefined end.

Definition release_opt (o : option positive) : prog (cow T W) unit :=
  match o with Some b => release b | None => mret tt end.

(** [CopyOnWriteBacked(T *element)] *)
Definition construct x e : prog (cow T W) unit :=
  new_instance x;;
  b ← new_block e;
  set_block x (Some b).

(** [CopyOnWriteMake<T>(args...)], with the constructor call [mk] *)
Definition CopyOnWriteMake x (mk : prog W T) : prog (cow T W) unit :=
  t ← in_ext mk;
  e ← new_element t;
  construct x e.

(** [~CopyOnWriteBacked()] *)
Definition destruct_ x : prog (cow T W) unit :=
  o ← block_of x;
  release_opt o;;
  modify (λ c, set_refs (delete x (refs c)) c).

(** [CopyOnWriteBacked(const CopyOnWriteBacked &other)] *)
Definition copy_ctor x y : prog (cow T W) unit :=
  new_instance x;;
  o ← block_of y;
  b ← deref o;
  b ← retain b;
  set_block x (Some b).

(** [CopyOnWriteBacked(CopyOnWriteBacked &&other)] *)
Definition move_ctor x y : prog (cow T W) unit :=
  new_instance x;;
  o ← block_of y;
  set_block x o;;
  set_block y None.

(** [operator=(const CopyOnWriteBacked &other)] *)
Definition copy_assign x y : prog (cow T W) unit :=
  o ← block_of x;
  o' ← block_of y;
  when (negb (bool_decide (o = o')))
    (b ← deref o';
     retained ← retain b;
     release_opt o;;
     set_block x (Some retained)).

(** [operator=(CopyOnWriteBacked &&other)] *)
Definition move_assign x y : prog (cow T W) unit :=
  when (negb (Pos.eqb x y))
    (o ← block_of x;
     release_opt o;;
     o' ← block_of y;
     set_block x o';;
     set_block y None).

Definition retainCount x : prog (cow T W) Z :=
  o ← block_of x; b ← deref o; k ← get_block b; mret (retain_count k).

(** [read()] and [operator->()]: the element pointer. *)
Definition read x : prog (cow T W) positive :=
  o ← block_of x; b ← deref o; k ← get_block b; mret (element k).

(** Reading and running a method of the element behind a pointer. *)
Definition get_element e : prog (cow T W) T :=
  es ← gets elems; of_option FUndefined (es !! e).

Definition on_element {A} e (m : prog (T * W) A) : prog (cow T W) A :=
  t ← get_element e;
  zoom (λ c, (t, ext c)) (λ tw c, set_ext tw.2 (set_elems (<[e := tw.1]> (elems c)) c)) m.

Definition unique x : prog (cow T W) positive :=
  n ← retainCount x;
  when (1 <? n)
    (e ← read x;
     t ← get_element e;
     t' ← in_ext (copy_construct t);
     e' ← new_element t';
     unshared ← new_block e';
     o ← block_of x;
     b ← deref o;
     release b;;
     set_block x (Some unshared));;
  read x.

End ops.

(** ** Counting the owners of a block *)

(** 1 if [r] is a reference to [b]. *)
Definition ind (b : positive) (r : option positive) : nat := if decide (r = Some b) then 1 else 0.

(** How many instances point to [b], and how many local pointers do. *)
Definition ref_count (b : positive) (m : gmap positive (option positive)) : nat :=
  size (filter (λ p, p.2 = Some b) m).

Definition occ (b : positive) (extra : list positive) : nat := sum_list (ind b ∘ Some <$> extra).

Section counting.
Implicit Types (m : gmap positive (option positive)) (b x y : positive).

Lemma ref_count_insert_new b x r m :
  m !! x = None → ref_count b (<[x := r]> m) = (ind b r + ref_count b m)%nat.
Proof.
  intros Hx. unfold ref_count, ind. rewrite map_filter_insert. simpl.
  rewrite delete_id by done. case_decide; [|done].
  rewrite map_size_insert_None; [done|]. apply map_lookup_filter_None. by left.
Qed.

Lemma ref_count_delete b x r m :
  m !! x = Some r → ref_count b m = (ind b r + ref_count b (delete x m))%nat.
Proof.
  intros Hx. rewrite <- ref_count_insert_new with (x := x) by apply lookup_delete_eq.
  by rewrite insert_delete_id.
Qed.

Lemma ref_count_insert b x r r' m :
  m !! x = Some r → (ind b r + ref_count b (<[x := r']> m) = ind b r' + ref_count b m)%nat.
Proof.
  intros Hx. rewrite (ref_count_delete b x r m) by done. rewrite <- insert_delete_eq.
  rewrite ref_count_insert_new by apply lookup_delete_eq. lia.
Qed.

Lemma ref_count_pos b x m : m !! x = Some (Some b) → (0 < ref_count b m)%nat.
Proof.
  intros Hx. rewrite (ref_count_delete b x (Some b)) by done.
  unfold ind. rewrite decide_True by done. lia.
Qed.

Lemma ref_count_one b x y m :
  ref_count b m = 1%nat → m !! x = Some (Some b) → m !! y = Some (Some b) → x = y.
Proof.
  intros H1 Hx Hy. destruct (decide (x = y)) as [|Hne]; [done|].
  rewrite (ref_count_delete b x (Some b)) in H1 by done. unfold ind in H1.
  rewrite decide_True in H1 by done.
  assert (0 < ref_count b (delete x m))%nat; [|lia].
  apply (ref_count_pos b y). by rewrite lookup_delete_ne.
Qed.

Lemma ref_count_le b m : (ref_count b m ≤ size m)%nat.
Proof. apply map_subseteq_size, map_filter_subseteq. Qed.

Lemma occ_cons b a extra : occ b (a :: extra) = (ind b (Some a) + occ b extra)%nat.
Proof. done. Qed.

Lemma occ_le b extra : (occ b extra ≤ length extra)%nat.
Proof.
  induction extra as [|a extra IH]; [done|]. rewrite occ_cons. unfold ind.
  case_decide; simpl; lia.
Qed.

Lemma ind_self b : ind b (Some b) = 1%nat.
Proof. unfold ind. by rewrite decide_True. Qed.

Lemma ind_ne b b' : b ≠ b' → ind b (Some b') = 0%nat.
Proof. intros. unfold ind. rewrite decide_False; congruence. Qed.
End counting.

(** The references held in a possibly null pointer. *)
Definition optl (o : option positive) : list positive := match o with Some b => [b] | None => [] end.

(** ** The invariant of the store *)

Section inv.
Context {T W : Type} `{CowElement T W}.
Implicit Types (c : cow T W) (x y b e : positive) (extra : list positive).

(** The pointers to [b]: those in instances, and those in local variables [extra]. *)
Definition owners extra c b : nat := (occ b extra + ref_count b (refs c))%nat.

(** Every block counts exactly the pointers to it and has at least one; a pointer
    is to a live block; live blocks and live elements correspond one to one. *)
Record cow_inv extra c : Prop := {
  inv_count : ∀ b, match blocks c !! b with
    | Some k => retain_count k = Z.of_nat (owners extra c b) ∧ (0 < owners extra c b)%nat
    | None => owners extra c b = 0%nat
    end;
  inv_elem : ∀ b k, blocks c !! b = Some k → is_Some (elems c !! element k);
  inv_inj : ∀ b b' k k', blocks c !! b = Some k → blocks c !! b' = Some k' →
    element k = element k' → b = b';
  inv_noleak : ∀ e, is_Some (elems c !! e) → ∃ b k, blocks c !! b = Some k ∧ element k = e;
  inv_next_block : ∀ b, is_Some (blocks c !! b) → (b < next_block c)%positive;
  inv_next_elem : ∀ e, is_Some (elems c !! e) → (e < next_elem c)%positive;
}.

(** There are fewer pointers than a 32-bit counter can count. *)
Definition in_bounds extra c : Prop := Z.of_nat (size (refs c) + length extra) < 2 ^ 32.

(** The element pointer of an instance, and the element itself. *)
Definition elem_ptr c x : option positive :=
  o ← refs c !! x; b ← o; k ← blocks c !! b; Some (element k).

Definition value c x : option T := e ← elem_ptr c x; elems c !! e.

Lemma owners_bound extra c b : in_bounds extra c → Z.of_nat (owners extra c b) < 2 ^ 32.
Proof.
  unfold in_bounds, owners. pose proof (occ_le b extra). pose proof (ref_count_le b (refs c)). lia.
Qed.

Lemma inv_owned extra c b : cow_inv extra c → (0 < owners extra c b)%nat →
  ∃ k, blocks c !! b = Some k ∧ retain_count k = Z.of_nat (owners extra c b).
Proof.
  intros Hinv Hpos. pose proof (inv_count _ _ Hinv b) as Hb.
  destruct (blocks c !! b) as [k|]; [|lia]. exists k. tauto.
Qed.

Lemma inv_ref extra c x b : cow_inv extra c → refs c !! x = Some (Some b) →
  ∃ k, blocks c !! b = Some k ∧ retain_count k = Z.of_nat (owners extra c b).
Proof.
  intros Hinv Hx. apply inv_owned; [done|]. unfold owners.
  pose proof (ref_count_pos _ _ _ Hx). lia.
Qed.

Lemma cow_empty_inv (w : W) : cow_inv [] (cow_empty w).
Proof.
  split; simpl.
  - intros b. by rewrite lookup_empty.
  - intros b k. by rewrite lookup_empty.
  - intros b b' k k'. by rewrite lookup_empty.
  - intros e. rewrite lookup_empty. by intros [].
  - intros b. rewrite lookup_empty. by intros [].
  - intros e. rewrite lookup_empty. by intros [].
Qed.

(** The invariant only depends on how many pointers there are to each block. *)
Lemma cow_inv_owners extra extra' c c' :
  blocks c' = blocks c → elems c' = elems c →
  next_block c' = next_block c → next_elem c' = next_elem c →
  (∀ b, owners extra' c' b = owners extra c b) → cow_inv extra c → cow_inv extra' c'.
Proof.
  intros Hb He Hnb Hne Ho [H1 H2 H3 H4 H5 H6]. split; rewrite ?Hb, ?He, ?Hnb, ?Hne; try done.
  intros b. rewrite !Ho. apply H1.
Qed.

Lemma occ_optl b o extra : occ b (optl o ++ extra) = (ind b o + occ b extra)%nat.
Proof. destruct o; [done|]. unfold ind. by rewrite decide_False. Qed.

(** *** Moving pointers between instances and local variables *)

Lemma cow_inv_set_ref x r r' extra c :
  refs c !! x = Some r → cow_inv (optl r' ++ extra) c →
  cow_inv (optl r ++ extra) (set_refs (<[x := r']> (refs c)) c).
Proof.
  intros Hx. apply cow_inv_owners; try done. intros b. unfold owners. simpl.
  rewrite !occ_optl. pose proof (ref_count_insert b x r r' (refs c) Hx). lia.
Qed.

Lemma cow_inv_new_ref x r extra c :
  refs c !! x = None → cow_inv (optl r ++ extra) c →
  cow_inv extra (set_refs (<[x := r]> (refs c)) c).
Proof.
  intros Hx. apply cow_inv_owners; try done. intros b. unfold owners. simpl.
  rewrite occ_optl, ref_count_insert_new by done. lia.
Qed.

Lemma cow_inv_delete_ref x r extra c :
  refs c !! x = Some r → cow_inv extra c →
  cow_inv (optl r ++ extra) (set_refs (delete x (refs c)) c).
Proof.
  intros Hx. apply cow_inv_owners; try done. intros b. unfold owners. simpl.
  rewrite occ_optl, (ref_count_delete b x r (refs c)) by done. lia.
Qed.

Lemma cow_inv_perm extra extra' c : extra ≡ₚ extra' → cow_inv extra c → cow_inv extra' c.
Proof.
  intros Hp. apply cow_inv_owners; try done. intros b. unfold owners, occ.
  f_equal. by rewrite Hp.
Qed.

(** *** The counter and the two heap objects *)

(** Both stores have the same blocks with the same elements, whatever the counts. *)
Definition same_elements c c' : Prop :=
  ∀ b, element <$> blocks c' !! b = element <$> blocks c !! b.

(** [c'] is [c] except for reference counts. *)
Record recounted c c' : Prop := {
  rec_refs : refs c' = refs c;
  rec_elems : elems c' = elems c;
  rec_ext : ext c' = ext c;
  rec_elements : same_elements c c';
}.

Lemma cow_inv_recount extra extra' c b k n :
  cow_inv extra c → blocks c !! b = Some k →
  (∀ b', b' ≠ b → owners extra' c b' = owners extra c b') →
  n = Z.of_nat (owners extra' c b) → (0 < owners extra' c b)%nat →
  let c' := set_blocks (<[b := mkBlock (element k) n]> (blocks c)) c in
  cow_inv extra' c' ∧ recounted c c'.
Proof.
  intros Hinv Hb Ho Hn Hpos. destruct Hinv as [H1 H2 H3 H4 H5 H6].
  assert (same_elements c (set_blocks (<[b := mkBlock (element k) n]> (blocks c)) c)) as Hsame.
  { intros b'. simpl. destruct (decide (b' = b)) as [->|].
    - by rewrite lookup_insert_eq, Hb.
    - by rewrite lookup_insert_ne by done. }
  assert (∀ b' k', <[b := mkBlock (element k) n]> (blocks c) !! b' = Some k' →
    ∃ k0, blocks c !! b' = Some k0 ∧ element k0 = element k') as Hback.
  { intros b' k' Hk'. specialize (Hsame b'). simpl in Hsame. rewrite Hk' in Hsame. simpl in Hsame.
    destruct (blocks c !! b') as [k0|]; [|done]. simpl in Hsame. exists k0.
    split; [done|congruence]. }
  split; [|by split]. split; simpl.
  - intros b'. change (owners extra' _ b') with (owners extra' c b').
    destruct (decide (b' = b)) as [->|Hne]; [by rewrite lookup_insert_eq|].
    rewrite lookup_insert_ne, Ho by done. apply H1.
  - intros b' k' (k0 & Hk0 & <-)%Hback. by eapply H2.
  - intros b1 b2 k1 k2 (k3 & Hk3 & <-)%Hback (k4 & Hk4 & <-)%Hback. by eapply H3.
  - intros e (b' & k' & Hb' & <-)%H4. specialize (Hsame b'). simpl in Hsame. rewrite Hb' in Hsame.
    destruct (<[b:=_]> (blocks c) !! b') as [k1|] eqn:E; [|done]. exists b', k1.
    split; [done|]. simpl in Hsame. congruence.
  - intros b' [k' (k0 & Hk0 & _)%Hback]. by apply H5.
  - done.
Qed.

Lemma wp_get_block b k Q c : blocks c !! b = Some k → Q k c → wp (get_block b) Q c.
Proof. intros Hb HQ. unfold get_block. wp_step. apply wp_gets. by eapply wp_of_option. Qed.

Lemma wp_retain b extra Q c :
  cow_inv extra c → in_bounds (b :: extra) c → (0 < owners extra c b)%nat →
  (∀ c', cow_inv (b :: extra) c' → recounted c c' → Q b c') →
  wp (retain b) Q c.
Proof.
  intros Hinv Hbd Hpos HQ. destruct (inv_owned _ _ _ Hinv Hpos) as (k & Hb & Hk).
  pose proof (owners_bound _ _ b Hbd) as Hmax. unfold owners in Hmax.
  rewrite occ_cons, ind_self in Hmax.
  unfold retain. wp_step. eapply wp_get_block; [done|]. unfold put_block. wp_go.
  rewrite to_u32_id by (unfold owners in Hk; lia).
  apply HQ; apply (cow_inv_recount extra (b :: extra)); try done; unfold owners in *;
    rewrite ?occ_cons, ?ind_self; try lia; intros b' Hne; rewrite occ_cons, ind_ne by done; lia.
Qed.

(** The state after the last owner of [b] has let go of it. *)
Definition without b e (w : W) c : cow T W :=
  set_blocks (delete b (blocks c)) (set_elems (delete e (elems c)) (set_ext w c)).

Lemma cow_inv_without extra c b k w :
  cow_inv (b :: extra) c → blocks c !! b = Some k → owners extra c b = 0%nat →
  cow_inv extra (without b (element k) w c).
Proof.
  intros [H1 H2 H3 H4 H5 H6] Hb Ho. unfold without. split; simpl.
  - intros b'. change (owners extra _ b') with (owners extra c b').
    destruct (decide (b' = b)) as [->|Hne]; [by rewrite lookup_delete_eq|].
    rewrite lookup_delete_ne by done. specialize (H1 b'). unfold owners in *.
    by rewrite occ_cons, ind_ne in H1 by done.
  - intros b' k' [Hne Hk']%lookup_delete_Some. rewrite lookup_delete_ne; [by eapply H2|].
    intros He. apply Hne. by eapply H3.
  - intros b1 b2 k1 k2 [_ Hk1]%lookup_delete_Some [_ Hk2]%lookup_delete_Some. by eapply H3.
  - intros e [t [Hne Ht]%lookup_delete_Some]. destruct (H4 e) as (b' & k' & Hb' & <-); [done|].
    exists b', k'. split; [|done]. rewrite lookup_delete_ne; [done|]. intros ->. congruence.
  - intros b' [k' [_ Hk']%lookup_delete_Some]. by apply H5.
  - intros e [t [_ Ht]%lookup_delete_Some]. by apply H6.
Qed.

Lemma wp_release b extra Q c :
  cow_inv (b :: extra) c → in_bounds (b :: extra) c →
  ((0 < owners extra c b)%nat → ∀ c', cow_inv extra c' → recounted c c' → Q tt c') →
  (owners extra c b = 0%nat → ∀ k t, blocks c !! b = Some k → elems c !! element k = Some t →
    wp (destroy t) (λ _ w, cow_inv extra (without b (element k) w c) →
      Q tt (without b (element k) w c)) (ext c)) →
  wp (release b) Q c.
Proof.
  intros Hinv Hbd Hshared Hlast.
  assert (owners (b :: extra) c b = S (owners extra c b)) as Ho.
  { unfold owners. rewrite occ_cons, ind_self. lia. }
  destruct (inv_owned _ _ b Hinv) as (k & Hb & Hk); [lia|].
  pose proof (owners_bound _ _ b Hbd) as Hmax.
  unfold release. wp_step. eapply wp_get_block; [done|]. wp_step. unfold put_block. wp_step. simpl.
  rewrite to_u32_id by lia. apply wp_when; intros Htest; b2p.
  - destruct (inv_elem _ _ Hinv b k Hb) as [t Ht].
    specialize (Hlast ltac:(lia) k t Hb Ht). unfold delete_element.
    wp_step. wp_step. apply wp_gets. wp_step. simpl. rewrite Ht. eapply wp_of_option; [done|].
    wp_step. unfold in_ext. apply wp_zoom. simpl. eapply wp_mono; [exact Hlast|].
    intros [] w HQ. apply wp_modify, wp_modify. simpl. unfold without in HQ.
    unfold set_blocks, set_elems, set_ext in *. simpl in *. rewrite delete_insert_eq.
    apply HQ. apply (cow_inv_without extra c b k w); [done|done|lia].
  - apply Hshared; [lia|..]; apply (cow_inv_recount (b :: extra) extra); try done; try lia;
      intros b' Hne; unfold owners; rewrite occ_cons, ind_ne by done; lia.
Qed.

(** The state after [new Block(new T(...))]. *)
Definition with_new (t : T) c : cow T W :=
  mkCow (refs c) (<[next_block c := mkBlock (next_elem c) 1]> (blocks c))
    (<[next_elem c := t]> (elems c)) (ext c) (Pos.succ (next_block c)) (Pos.succ (next_elem c)).

Lemma next_block_fresh extra c : cow_inv extra c → blocks c !! next_block c = None.
Proof. intros Hinv. apply eq_None_not_Some. intros Hb%(inv_next_block _ _ Hinv). lia. Qed.

Lemma next_elem_fresh extra c : cow_inv extra c → elems c !! next_elem c = None.
Proof. intros Hinv. apply eq_None_not_Some. intros Hb%(inv_next_elem _ _ Hinv). lia. Qed.

Lemma cow_inv_with_new extra t c : cow_inv extra c → cow_inv (next_block c :: extra) (with_new t c).
Proof.
  intros Hinv. pose proof (next_block_fresh _ _ Hinv) as Hnb.
  pose proof (next_elem_fresh _ _ Hinv) as Hne. destruct Hinv as [H1 H2 H3 H4 H5 H6].
  assert (∀ b k, blocks c !! b = Some k → element k ≠ next_elem c) as Hold.
  { intros b k Hb He. destruct (H2 b k Hb) as [t' Ht']. congruence. }
  unfold with_new. split; simpl.
  - intros b. unfold owners. rewrite occ_cons. simpl. fold (owners extra c b).
    destruct (decide (b = next_block c)) as [->|Hb].
    + rewrite lookup_insert_eq, ind_self. simpl. specialize (H1 (next_block c)).
      rewrite Hnb in H1. unfold owners in H1. lia.
    + rewrite lookup_insert_ne, ind_ne by done. apply H1.
  - intros b k [[<- <-]|[Hb Hk]]%lookup_insert_Some; simpl; [by rewrite lookup_insert_eq|].
    rewrite lookup_insert_ne; [by eapply H2|]. intros He. by eapply Hold.
  - intros b1 b2 k1 k2 [[<- <-]|[Hb1 Hk1]]%lookup_insert_Some
      [[<- <-]|[Hb2 Hk2]]%lookup_insert_Some; simpl; intros He.
    + done.
    + by destruct (Hold b2 k2 Hk2).
    + by destruct (Hold b1 k1 Hk1).
    + by eapply H3.
  - intros e [t' [[<- _]|[Hee Ht']]%lookup_insert_Some].
    + exists (next_block c), (mkBlock (next_elem c) 1). by rewrite lookup_insert_eq.
    + destruct (H4 e) as (b & k & Hb & <-); [done|]. exists b, k.
      rewrite lookup_insert_ne; [done|]. congruence.
  - intros b. rewrite lookup_insert_is_Some. intros [<-|[_ Hb%H5]]; lia.
  - intros e. rewrite lookup_insert_is_Some. intros [<-|[_ He%H6]]; lia.
Qed.

(** *** [release] does not look at the instances *)

Lemma set_refs_self c r : refs c = r → set_refs r c = c.
Proof. intros <-. by destruct c. Qed.

Lemma release_refs b r c :
  release b (set_refs r c) =
    match release b c with
    | Done a c' => Done a (set_refs r c')
    | Stop f c' => Stop f (set_refs r c')
    end.
Proof.
  unfold release, get_block, put_block, delete_element, in_ext, zoom, gets, modify, of_option,
    when, mbind, prog_bind, mret, prog_ret, stop. simpl.
  destruct (blocks c !! b) as [k|]; [|done]. simpl.
  destruct (retain_count k =? 1); [|done]. simpl.
  destruct (elems c !! element k) as [t|]; [|done]. simpl.
  by destruct (destroy t (ext c)).
Qed.

(** A release that happens just before the pointer that is given up is cleared
    or redirected: [r] is what the instances will be then. *)
Lemma wp_release_before b r extra Q c :
  cow_inv (b :: extra) (set_refs r c) → in_bounds (b :: extra) (set_refs r c) →
  ((0 < owners extra (set_refs r c) b)%nat → ∀ c', cow_inv extra c' →
    recounted (set_refs r c) c' → Q tt (set_refs (refs c) c')) →
  (owners extra (set_refs r c) b = 0%nat → ∀ k t, blocks c !! b = Some k →
    elems c !! element k = Some t →
    wp (destroy t) (λ _ w, cow_inv extra (without b (element k) w (set_refs r c)) →
      Q tt (without b (element k) w c)) (ext c)) →
  wp (release b) Q c.
Proof.
  intros Hinv Hbd Hshared Hlast.
  assert (wp (release b) (λ a c', Q a (set_refs (refs c) c')) (set_refs r c)) as Hwp.
  { eapply wp_release; [done..|]. intros Ho k t Hk Ht. simpl in Hk, Ht |- *.
    eapply wp_mono; [by eapply Hlast|]. intros [] w HQ Hi. specialize (HQ Hi).
    unfold without, set_blocks, set_elems, set_ext, set_refs in *. simpl in *. done. }
  unfold wp in *. rewrite release_refs in Hwp. destruct (release b c) as [[] c'|f c'] eqn:E; [|done].
  assert (refs c' = refs c) as Hr.
  { pose proof (release_refs b (refs c) c) as Hself. rewrite set_refs_self in Hself by done.
    rewrite E in Hself. by injection Hself as ->. }
  assert (set_refs (refs c) (set_refs r c') = c') as Hid by (rewrite <- Hr; by destruct c').
  by rewrite Hid in Hwp.
Qed.

(** ** The operations *)

Lemma wp_block_of x r Q c : refs c !! x = Some r → Q r c → wp (block_of x) Q c.
Proof. intros Hx HQ. unfold block_of. wp_step. apply wp_gets. by eapply wp_of_option. Qed.

Lemma wp_new_instance x Q c : refs c !! x = None → Q tt c → wp (new_instance x) Q c.
Proof. intros Hx HQ. unfold new_instance. wp_step. apply wp_gets. by rewrite Hx. Qed.

Lemma wp_new_element t (Q : positive → cow T W → Prop) c :
  Q (next_elem c) (mkCow (refs c) (blocks c) (<[next_elem c := t]> (elems c)) (ext c)
    (next_block c) (Pos.succ (next_elem c))) → wp (new_element t) Q c.
Proof. done. Qed.

Lemma wp_new_block e (Q : positive → cow T W → Prop) c :
  Q (next_block c) (mkCow (refs c) (<[next_block c := mkBlock e 1]> (blocks c)) (elems c) (ext c)
    (Pos.succ (next_block c)) (next_elem c)) → wp (new_block e) Q c.
Proof. done. Qed.

Lemma wp_construct_new x t Q c :
  cow_inv [] c → refs c !! x = None →
  (∀ c', c' = set_refs (<[x := Some (next_block c)]> (refs c)) (with_new t c) →
    cow_inv [] c' → Q tt c') →
  wp (e ← new_element t; construct x e) Q c.
Proof.
  intros Hinv Hx HQ. wp_step. apply wp_new_element.
  unfold construct. wp_step. apply wp_new_instance; [done|]. wp_step. apply wp_new_block.
  apply wp_modify. simpl. apply HQ; [done|].
  apply (cow_inv_new_ref x (Some (next_block c)) [] (with_new t c)); [done|].
  by apply cow_inv_with_new.
Qed.

Lemma wp_CopyOnWriteMake x mk Q c :
  cow_inv [] c → refs c !! x = None →
  wp mk (λ t w, ∀ c', c' = set_refs (<[x := Some (next_block c)]> (refs c))
      (with_new t (set_ext w c)) → cow_inv [] c' → Q tt c') (ext c) →
  wp (CopyOnWriteMake x mk) Q c.
Proof.
  intros Hinv Hx Hmk. unfold CopyOnWriteMake. wp_step. unfold in_ext. apply wp_zoom.
  eapply wp_mono; [exact Hmk|]. intros t w HQ. apply wp_construct_new; [|done|].
  - revert Hinv. by apply cow_inv_owners.
  - intros c' -> Hinv'. by apply HQ.
Qed.

Lemma in_bounds_le extra extra' c c' :
  (size (refs c') + length extra' ≤ size (refs c) + length extra)%nat →
  in_bounds extra c → in_bounds extra' c'.
Proof. unfold in_bounds. lia. Qed.

Lemma wp_copy_ctor x y b Q c :
  cow_inv [] c → refs c !! x = None → refs c !! y = Some (Some b) →
  Z.of_nat (size (refs c)) + 1 < 2 ^ 32 →
  (∀ c1, recounted c c1 → cow_inv [] (set_refs (<[x := Some b]> (refs c)) c1) →
    Q tt (set_refs (<[x := Some b]> (refs c)) c1)) →
  wp (copy_ctor x y) Q c.
Proof.
  intros Hinv Hx Hy Hsz HQ. unfold copy_ctor.
  wp_step. apply wp_new_instance; [done|]. wp_step. eapply wp_block_of; [done|].
  wp_step. unfold deref. eapply wp_of_option; [done|]. wp_step.
  apply (wp_retain b []); [done|unfold in_bounds; simpl; lia| |].
  { unfold owners. pose proof (ref_count_pos _ _ _ Hy). lia. }
  intros c1 Hinv1 Hrec. apply wp_modify. rewrite (rec_refs _ _ Hrec). apply HQ; [done|].
  rewrite <- (rec_refs _ _ Hrec). apply (cow_inv_new_ref x (Some b) []); [|done].
  by rewrite (rec_refs _ _ Hrec).
Qed.

Lemma wp_move_ctor x y r Q c :
  cow_inv [] c → refs c !! x = None → refs c !! y = Some r →
  (∀ c', c' = set_refs (<[y := None]> (<[x := r]> (refs c))) c → cow_inv [] c' → Q tt c') →
  wp (move_ctor x y) Q c.
Proof.
  intros Hinv Hx Hy HQ. unfold move_ctor.
  wp_step. apply wp_new_instance; [done|]. wp_step. eapply wp_block_of; [done|].
  wp_step. apply wp_modify, wp_modify. simpl. apply HQ; [by destruct c|].
  revert Hinv. apply cow_inv_owners; try done. intros b. unfold owners. simpl.
  assert (x ≠ y) by congruence.
  assert (<[x:=r]> (refs c) !! y = Some r) as Hy' by by rewrite lookup_insert_ne.
  pose proof (ref_count_insert b y r None (<[x:=r]> (refs c)) Hy') as H1.
  pose proof (ref_count_insert_new b x r (refs c) Hx) as H2.
  assert (ind b None = 0%nat) by (unfold ind; by rewrite decide_False). lia.
Qed.

Lemma set_refs_set_refs r r' c : set_refs r (set_refs r' c) = set_refs r c.
Proof. done. Qed.

(** Letting go of a possibly null pointer whose place will be taken by what [r]
    says: the last owner destroys the element, any other only counts down. *)
Lemma wp_release_opt_before o r Q c :
  cow_inv (optl o) (set_refs r c) → in_bounds (optl o) (set_refs r c) →
  (∀ c', cow_inv [] c' → recounted (set_refs r c) c' → Q tt (set_refs (refs c) c')) →
  (∀ b k t, o = Some b → owners [] (set_refs r c) b = 0%nat →
    blocks c !! b = Some k → elems c !! element k = Some t →
    wp (destroy t) (λ _ w, cow_inv [] (without b (element k) w (set_refs r c)) →
      Q tt (without b (element k) w c)) (ext c)) →
  wp (release_opt o) Q c.
Proof.
  intros Hinv Hbd Hkeep Hlast. destruct o as [b|]; simpl in *.
  - apply (wp_release_before b r []); [done|done| |].
    + intros _. apply Hkeep.
    + intros Ho k t. by apply Hlast.
  - apply wp_ret. specialize (Hkeep _ Hinv). rewrite set_refs_set_refs, (set_refs_self c (refs c)) in Hkeep by done.
    by apply Hkeep.
Qed.

(** There is room in the counters for one more pointer. *)
Definition fits c : Prop := Z.of_nat (size (refs c)) + 1 < 2 ^ 32.

Lemma wp_destruct x o Q c :
  cow_inv [] c → refs c !! x = Some o → fits c →
  (∀ c', cow_inv [] c' → recounted (set_refs (delete x (refs c)) c) c' → Q tt c') →
  (∀ b k t, o = Some b → owners [] (set_refs (delete x (refs c)) c) b = 0%nat →
    blocks c !! b = Some k → elems c !! element k = Some t →
    wp (destroy t) (λ _ w, ∀ c', c' = without b (element k) w (set_refs (delete x (refs c)) c) →
      cow_inv [] c' → Q tt c') (ext c)) →
  wp (destruct_ x) Q c.
Proof.
  intros Hinv Hx Hfit Hkeep Hlast. unfold destruct_.
  wp_step. eapply wp_block_of; [done|]. wp_step.
  apply (wp_release_opt_before o (delete x (refs c))).
  - rewrite <- (app_nil_r (optl o)). by apply cow_inv_delete_ref.
  - unfold in_bounds, fits in *. simpl. pose proof (map_size_delete_Some x (refs c) (mk_is_Some _ _ Hx)).
    destruct o; simpl; lia.
  - intros c' Hinv' Hrec. apply wp_modify. simpl.
    rewrite set_refs_set_refs, set_refs_self by by rewrite (rec_refs _ _ Hrec).
    by apply Hkeep.
  - intros b k t Ho Hno Hb Ht. eapply wp_mono; [by eapply Hlast|].
    intros [] w HQ Hinv'. apply wp_modify. by apply HQ.
Qed.

Lemma wp_retainCount x b k Q c :
  refs c !! x = Some (Some b) → blocks c !! b = Some k → Q (retain_count k) c →
  wp (retainCount x) Q c.
Proof.
  intros Hx Hb HQ. unfold retainCount. wp_step. eapply wp_block_of; [done|].
  wp_step. unfold deref. eapply wp_of_option; [done|]. wp_step. by eapply wp_get_block.
Qed.

Lemma wp_read x b k Q c :
  refs c !! x = Some (Some b) → blocks c !! b = Some k → Q (element k) c → wp (read x) Q c.
Proof.
  intros Hx Hb HQ. unfold read. wp_step. eapply wp_block_of; [done|].
  wp_step. unfold deref. eapply wp_of_option; [done|]. wp_step. by eapply wp_get_block.
Qed.

(** [x] split off: the store before the old block has been counted down. *)
Definition split_off x (t' : T) (w : W) c : cow T W :=
  set_refs (<[x := Some (next_block c)]> (refs c)) (with_new t' (set_ext w c)).

Lemma wp_unique x b Q c :
  cow_inv [] c → refs c !! x = Some (Some b) → fits c →
  (∀ k, blocks c !! b = Some k → ref_count b (refs c) = 1%nat → Q (element k) c) →
  (∀ k t, blocks c !! b = Some k → elems c !! element k = Some t →
    (1 < ref_count b (refs c))%nat →
    wp (copy_construct t) (λ t' w, ∀ c', cow_inv [] c' → recounted (split_off x t' w c) c' →
      Q (next_elem c) c') (ext c)) →
  wp (unique x) Q c.
Proof.
  intros Hinv Hx Hfit Hown Hshared. destruct (inv_ref _ _ _ _ Hinv Hx) as (k & Hb & Hk).
  pose proof (ref_count_pos _ _ _ Hx) as Hpos.
  assert (owners [] c b = ref_count b (refs c)) as Ho by done. rewrite Ho in Hk.
  destruct (inv_elem _ _ Hinv b k Hb) as [t Ht].
  unfold unique. wp_step. eapply wp_retainCount; [done|done|]. wp_step. rewrite Hk.
  apply wp_when; intros Htest; b2p; last first.
  { eapply wp_read; [done|done|]. apply Hown; [done|lia]. }
  wp_step. eapply wp_read; [done|done|]. wp_step. unfold get_element. wp_step. apply wp_gets.
  rewrite Ht. eapply wp_of_option; [done|]. wp_step. unfold in_ext. apply wp_zoom.
  eapply wp_mono; [apply (Hshared k t); [done|done|lia]|]. intros t' w HQ.
  wp_step. apply wp_new_element. wp_step. apply wp_new_block. simpl.
  change (mkCow _ _ _ _ _ _) with (with_new t' (set_ext w c)).
  wp_step. eapply wp_block_of; [done|]. wp_step. unfold deref. eapply wp_of_option; [done|].
  wp_step. set (c2 := with_new t' (set_ext w c)).
  assert (cow_inv [next_block c] c2) as Hinv2.
  { apply (cow_inv_with_new [] t' (set_ext w c)). revert Hinv. by apply cow_inv_owners. }
  set (r := <[x := Some (next_block c)]> (refs c)).
  pose proof (ref_count_insert b x (Some b) (Some (next_block c)) (refs c) Hx) as Hcnt.
  rewrite ind_self, (ind_ne b (next_block c)) in Hcnt; [|intros ->;
    by rewrite (next_block_fresh _ _ Hinv) in Hb].
  apply (wp_release_opt_before (Some b) r).
  - apply (cow_inv_set_ref x (Some b) (Some (next_block c)) [] c2); [done|done].
  - unfold in_bounds, fits, r in *. simpl. rewrite (map_size_insert_Some _ _ _ (mk_is_Some _ _ Hx)). lia.
  - intros c' Hinv' Hrec. apply wp_modify. simpl.
    rewrite set_refs_set_refs, set_refs_self by by rewrite (rec_refs _ _ Hrec).
    pose proof (rec_elements _ _ Hrec (next_block c)) as He. simpl in He.
    rewrite lookup_insert_eq in He. simpl in He.
    destruct (blocks c' !! next_block c) as [k'|] eqn:Hk'; [|done]. simpl in He.
    eapply wp_read; [by rewrite (rec_refs _ _ Hrec); apply lookup_insert_eq|done|].
    injection He as ->. by apply HQ.
  - intros ? ? ? [= <-] Hno. unfold owners in Hno. simpl in Hno. fold r in Hcnt. lia.
Qed.

Lemma insert_refs_size x r c : is_Some (refs c !! x) → size (<[x := r]> (refs c)) = size (refs c).
Proof. apply map_size_insert_Some. Qed.

Lemma wp_copy_assign x y o o' Q c :
  cow_inv [] c → refs c !! x = Some o → refs c !! y = Some o' → fits c →
  (o = o' → Q tt c) →
  (∀ b', o ≠ o' → o' = Some b' →
    (∀ c', cow_inv [] c' → (∃ c1, recounted c c1 ∧ recounted (set_refs (<[x := o']> (refs c)) c1) c') →
      Q tt c') ∧
    (∀ b c1 k t, o = Some b → recounted c c1 →
      owners [] (set_refs (<[x := o']> (refs c)) c1) b = 0%nat →
      blocks c1 !! b = Some k → elems c1 !! element k = Some t →
      wp (destroy t) (λ _ w, ∀ c',
        c' = without b (element k) w (set_refs (<[x := o']> (refs c)) c1) →
        cow_inv [] c' → Q tt c') (ext c1))) →
  o = o' ∨ is_Some o' →
  wp (copy_assign x y) Q c.
Proof.
  intros Hinv Hx Hy Hfit Hsame Hdiff Hvalid. unfold copy_assign.
  wp_step. eapply wp_block_of; [done|]. wp_step. eapply wp_block_of; [done|].
  apply wp_when; intros Htest; b2p; [|by apply Hsame].
  destruct Hvalid as [|[b' ->]]; [done|]. destruct (Hdiff b' Htest eq_refl) as [Hkeep Hlast].
  wp_step. unfold deref. eapply wp_of_option; [done|]. wp_step.
  apply (wp_retain b' []); [done|unfold in_bounds, fits in *; simpl; lia| |].
  { unfold owners. pose proof (ref_count_pos _ _ _ Hy). lia. }
  intros c1 Hinv1 Hrec1. pose proof (rec_refs _ _ Hrec1) as Hr1. wp_step.
  apply (wp_release_opt_before o (<[x := Some b']> (refs c))).
  - rewrite <- (app_nil_r (optl o)), <- Hr1.
    apply (cow_inv_set_ref x o (Some b')); [by rewrite Hr1|done].
  - unfold in_bounds, fits in *. simpl. rewrite insert_refs_size by done. destruct o; simpl; lia.
  - intros c' Hinv' Hrec. apply wp_modify. simpl. rewrite Hr1.
    rewrite set_refs_set_refs, set_refs_self by by rewrite (rec_refs _ _ Hrec).
    apply Hkeep; [done|]. by exists c1.
  - intros b k t -> Hno Hb Ht. eapply wp_mono; [by eapply (Hlast b c1 k t)|].
    intros [] w HQ Hinv'. apply wp_modify. simpl. rewrite Hr1. by apply HQ.
Qed.

(** The instances after [x = std::move(y)]. *)
Definition moved_refs x y (o' : option positive) c : gmap positive (option positive) :=
  <[x := o']> (<[y := None]> (refs c)).

Lemma wp_move_assign x y o o' Q c :
  cow_inv [] c → refs c !! x = Some o → refs c !! y = Some o' → fits c →
  (x = y → Q tt c) →
  (x ≠ y → ∀ c', cow_inv [] c' → recounted (set_refs (moved_refs x y o' c) c) c' → Q tt c') →
  (x ≠ y → ∀ b k t, o = Some b → owners [] (set_refs (moved_refs x y o' c) c) b = 0%nat →
    blocks c !! b = Some k → elems c !! element k = Some t →
    wp (destroy t) (λ _ w, ∀ c', c' = without b (element k) w (set_refs (moved_refs x y o' c) c) →
      cow_inv [] c' → Q tt c') (ext c)) →
  wp (move_assign x y) Q c.
Proof.
  intros Hinv Hx Hy Hfit Hsame Hkeep Hlast. unfold move_assign.
  apply wp_when; intros Htest; b2p; [|apply Hsame; by apply Pos.eqb_eq].
  apply Pos.eqb_neq in Htest. specialize (Hkeep Htest). specialize (Hlast Htest).
  assert (<[y := None]> (<[x := o']> (refs c)) = moved_refs x y o' c) as Hcomm.
  { unfold moved_refs. by rewrite insert_insert_ne. }
  wp_step. eapply wp_block_of; [done|]. wp_step.
  apply (wp_release_opt_before o (moved_refs x y o' c)).
  - rewrite <- (app_nil_r (optl o)).
    refine (cow_inv_set_ref x o o' [] (set_refs (<[y := None]> (refs c)) c) _ _).
    { simpl. by rewrite lookup_insert_ne. }
    by apply (cow_inv_set_ref y o' None [] c).
  - unfold in_bounds, fits, moved_refs in *. simpl. rewrite !map_size_insert_Some.
    + destruct o; simpl; lia.
    + by eexists.
    + rewrite lookup_insert_ne by done. by eexists.
  - intros c' Hinv' Hrec. wp_step. eapply wp_block_of; [done|]. wp_step. apply wp_modify, wp_modify.
    simpl. rewrite Hcomm, !set_refs_set_refs, set_refs_self by by rewrite (rec_refs _ _ Hrec).
    by apply Hkeep.
  - intros b k t Ho Hno Hb Ht. eapply wp_mono; [by eapply Hlast|]. intros [] w HQ Hinv'.
    wp_step. eapply wp_block_of; [done|]. wp_step. apply wp_modify, wp_modify. simpl.
    rewrite Hcomm. by apply HQ.
Qed.

Lemma wp_on_element {A} e t (m : prog (T * W) A) Q c :
  elems c !! e = Some t →
  wp m (λ a tw, Q a (set_ext tw.2 (set_elems (<[e := tw.1]> (elems c)) c))) (t, ext c) →
  wp (on_element e m) Q c.
Proof.
  intros He Hm. unfold on_element, get_element. wp_step. wp_step. apply wp_gets. rewrite He.
  eapply wp_of_option; [done|]. by apply wp_zoom.
Qed.

Lemma cow_inv_on_element extra e t w c :
  is_Some (elems c !! e) → cow_inv extra c →
  cow_inv extra (set_ext w (set_elems (<[e := t]> (elems c)) c)).
Proof.
  intros He [H1 H2 H3 H4 H5 H6]. split; simpl; try done.
  - intros b k Hb. rewrite lookup_insert_is_Some. destruct (decide (e = element k)); [by left|right].
    split; [done|]. by eapply H2.
  - intros e'. rewrite lookup_insert_is_Some. intros [<-|[_ He']]; by apply H4.
  - intros e'. rewrite lookup_insert_is_Some. intros [<-|[_ He']]; by apply H6.
Qed.

End inv.
End Cow.
