(* ===== verification/CowSpec.v ===== *)
(** * [CopyOnWriteBacked<T>] as a value type

    The promise of [CopyOnWriteBacked.h]: an instance behaves like a value of
    the element type, although instances share elements.  [CowLaws] is what the
    element type must keep; [abs] forgets blocks, counts and sharing, and each
    operation is shown to do to the map of values what the same operation does
    to independent values.  Element types whose values live in a state of their
    own (byte buffer storages in memory) and types that are plain values are
    both instances. *)

From S2P Require Import Prelude CopyOnWrite.
Import Cow.

(** What an element type owes: [val] reads the value of an element, [pool es w]
    says that the live elements [es] coexist in [w], [outside es w] is what else
    [w] holds.  Copying yields an element with a value [copied] allows, and
    neither copying nor destroying disturbs the other elements or the outside. *)
Class CowLaws (T W V O : Type) `{CowElement T W} := {
  val : T → W → V;
  pool : gmap positive T → W → Prop;
  outside : gmap positive T → W → O;
  copied : V → V → Prop;
  copy_construct_ok : ∀ es w e t Q, pool es w → es !! e = Some t →
    (∀ t' w',
      (∀ e', es !! e' = None → pool (<[e' := t']> es) w' ∧ outside (<[e' := t']> es) w' = outside es w) →
      (∀ e' u, es !! e' = Some u → val u w' = val u w) →
      copied (val t w) (val t' w') → Q t' w') →
    wp (copy_construct t) Q w;
  destroy_ok : ∀ es w e t Q, pool es w → es !! e = Some t →
    (∀ w', pool (delete e es) w' → outside (delete e es) w' = outside es w →
      (∀ e' u, e' ≠ e → es !! e' = Some u → val u w' = val u w) → Q tt w') →
    wp (destroy t) Q w;
}.

Module CowSpec.
Section spec.
Context {T W V O : Type} `{CL : CowLaws T W V O}.
Implicit Types (c : cow T W) (x y b e : positive).

Definition same_vals (es : gmap positive T) (w w' : W) : Prop :=
  ∀ e u, es !! e = Some u → val u w' = val u w.

(** The value behind a block pointer, and the values of all instances; an
    instance that has been moved from has none. *)
Definition value_at c (o : option positive) : option V :=
  b ← o; k ← blocks c !! b; t ← elems c !! element k; Some (val t (ext c)).

Definition abs c : gmap positive (option V) := value_at c <$> refs c.

Record cow_ok c : Prop := {
  ok_inv : cow_inv [] c;
  ok_pool : pool (elems c) (ext c);
}.

Definition out c : O := outside (elems c) (ext c).

Lemma value_at_element c b e :
  element <$> blocks c !! b = Some e → value_at c (Some b) = t ← elems c !! e; Some (val t (ext c)).
Proof. unfold value_at. simpl. destruct (blocks c !! b); [|done]. by intros [= <-]. Qed.

Lemma value_at_recounted c c' o : recounted c c' → value_at c' o = value_at c o.
Proof.
  intros [_ He Hx Hs]. destruct o as [b|]; [|done]. specialize (Hs b). unfold value_at. simpl.
  rewrite He, Hx. destruct (blocks c' !! b), (blocks c !! b); simpl in Hs |- *; [by injection Hs as ->|done..].
Qed.

Lemma abs_recounted r c c' : recounted (set_refs r c) c' → abs c' = value_at c <$> r.
Proof.
  intros Hrec. unfold abs. rewrite (rec_refs _ _ Hrec). apply map_fmap_ext. intros x o _.
  by rewrite (value_at_recounted _ _ _ Hrec).
Qed.

Lemma cow_ok_recounted c c' : pool (elems c) (ext c) → cow_inv [] c' → recounted c c' → cow_ok c'.
Proof. intros Hp Hi [_ He Hx _]. split; [done|by rewrite He, Hx]. Qed.

Lemma out_recounted c c' : recounted c c' → out c' = out c.
Proof. intros [_ He Hx _]. unfold out. by rewrite He, Hx. Qed.

Lemma abs_lookup c x v : abs c !! x = Some v ↔ ∃ o, refs c !! x = Some o ∧ value_at c o = v.
Proof. unfold abs. rewrite lookup_fmap, fmap_Some. split; intros (o & ? & ?); by exists o. Qed.

Lemma abs_lookup_None c x : abs c !! x = None ↔ refs c !! x = None.
Proof. unfold abs. by rewrite lookup_fmap, fmap_None. Qed.

(** A live instance has a value unless it has been moved from. *)
Lemma value_at_Some c x b : cow_inv [] c → refs c !! x = Some (Some b) →
  ∃ k t, blocks c !! b = Some k ∧ elems c !! element k = Some t ∧
    value_at c (Some b) = Some (val t (ext c)).
Proof.
  intros Hinv Hx. destruct (inv_ref _ _ _ _ Hinv Hx) as (k & Hb & _).
  destruct (inv_elem _ _ Hinv b k Hb) as [t Ht]. exists k, t. split_and!; [done..|].
  unfold value_at. simpl. rewrite Hb. simpl. by rewrite Ht.
Qed.

Lemma abs_Some c x v : cow_inv [] c → abs c !! x = Some (Some v) →
  ∃ b k t, refs c !! x = Some (Some b) ∧ blocks c !! b = Some k ∧
    elems c !! element k = Some t ∧ v = val t (ext c).
Proof.
  intros Hinv ([b|] & Hx & Hv)%abs_lookup; [|done].
  destruct (value_at_Some c x b Hinv Hx) as (k & t & Hb & Ht & Hv').
  exists b, k, t. split_and!; try done. congruence.
Qed.

(** The values after a block has gone that no instance points to. *)
(** No other block has the element of [b]. *)
Definition sole_element c b k : Prop :=
  ∀ b' k', blocks c !! b' = Some k' → element k' = element k → b' = b.

Lemma sole_element_inv extra c b k : cow_inv extra c → blocks c !! b = Some k → sole_element c b k.
Proof. intros Hinv Hb b' k' Hb' He. by eapply (inv_inj _ _ Hinv). Qed.

Lemma sole_element_recounted c c' b k : same_elements c c' → cow_inv [] c →
  blocks c' !! b = Some k → sole_element c' b k.
Proof.
  intros Hs Hinv Hb b' k' Hb' He. pose proof (Hs b) as H1. pose proof (Hs b') as H2.
  rewrite Hb in H1. rewrite Hb' in H2. simpl in H1, H2.
  destruct (blocks c !! b) as [k1|] eqn:E1, (blocks c !! b') as [k2|] eqn:E2; try done.
  simpl in H1, H2. eapply (inv_inj _ _ Hinv); [done|done|congruence].
Qed.

Lemma abs_without r b k w c :
  sole_element c b k → blocks c !! b = Some k → ref_count b r = 0%nat →
  (∀ e u, e ≠ element k → elems c !! e = Some u → val u w = val u (ext c)) →
  abs (without b (element k) w (set_refs r c)) = value_at c <$> r.
Proof.
  intros Hsole Hb Hno Hsame. unfold abs. apply map_fmap_ext. intros x [b'|] Hx; [|done].
  simpl in Hx. assert (b' ≠ b) as Hne.
  { intros ->. pose proof (ref_count_pos _ _ _ Hx). lia. }
  unfold value_at. simpl. rewrite lookup_delete_ne by done.
  destruct (blocks c !! b') as [k'|] eqn:Hb'; [|done]. simpl.
  assert (element k' ≠ element k) as Hek.
  { intros He. apply Hne. by eapply Hsole. }
  rewrite lookup_delete_ne by done. destruct (elems c !! element k') as [u|] eqn:Hu; [|done].
  simpl. f_equal. by eapply Hsame.
Qed.

(** A new block with a new element leaves the other values alone. *)
Lemma value_at_fresh t w c : value_at (with_new t (set_ext w c)) (Some (next_block c)) = Some (val t w).
Proof. unfold value_at. simpl. rewrite !lookup_insert_eq. simpl. by rewrite lookup_insert_eq. Qed.

Lemma values_with_new t w c :
  cow_inv [] c → same_vals (elems c) (ext c) w →
  value_at (with_new t (set_ext w c)) <$> refs c = abs c.
Proof.
  intros Hinv Hsame. apply map_fmap_ext. intros y [b|] Hy; [|done].
  destruct (value_at_Some c y b Hinv Hy) as (k & u & Hb & Hu & ->). unfold value_at. simpl.
  rewrite lookup_insert_ne by (intros <-; by rewrite (next_block_fresh _ _ Hinv) in Hb).
  rewrite Hb. simpl.
  rewrite lookup_insert_ne by (intros Hk; rewrite <- Hk, (next_elem_fresh _ _ Hinv) in Hu; done).
  rewrite Hu. simpl. f_equal. by eapply Hsame.
Qed.

(** The values after redirecting an instance, before any count has changed. *)
Lemma value_at_insert x o (r : gmap positive (option positive)) c :
  value_at c <$> <[x := o]> r = <[x := value_at c o]> (value_at c <$> r).
Proof. apply fmap_insert. Qed.

Lemma abs_with_new x t w c :
  cow_inv [] c → same_vals (elems c) (ext c) w →
  value_at (with_new t (set_ext w c)) <$> <[x := Some (next_block c)]> (refs c) =
    <[x := Some (val t w)]> (abs c).
Proof. intros Hinv Hsame. by rewrite value_at_insert, value_at_fresh, values_with_new. Qed.

(** ** Each operation on values *)

Lemma wp_make_value x mk (P : V → Prop) Q c :
  cow_ok c → abs c !! x = None →
  wp mk (λ t w,
    (∀ e, elems c !! e = None → pool (<[e := t]> (elems c)) w ∧ outside (<[e := t]> (elems c)) w = out c) ∧
    same_vals (elems c) (ext c) w ∧ P (val t w)) (ext c) →
  (∀ v c', cow_ok c' → P v → abs c' = <[x := Some v]> (abs c) → out c' = out c → Q tt c') →
  wp (CopyOnWriteMake x mk) Q c.
Proof.
  intros [Hinv Hp] Hx%abs_lookup_None Hmk HQ. apply wp_CopyOnWriteMake; [done|done|].
  eapply wp_mono; [exact Hmk|]. intros t w (Hpool & Hsame & HP) c' -> Hinv'.
  destruct (Hpool (next_elem c)) as [Hpool' Hout]; [by eapply next_elem_fresh|].
  apply (HQ (val t w)); [by split|done| |done].
  by apply abs_with_new.
Qed.

Lemma wp_copy_ctor_value x y v Q c :
  cow_ok c → fits c → abs c !! x = None → abs c !! y = Some (Some v) →
  (∀ c', cow_ok c' → abs c' = <[x := Some v]> (abs c) → out c' = out c → Q tt c') →
  wp (copy_ctor x y) Q c.
Proof.
  intros [Hinv Hp] Hfit Hx%abs_lookup_None Hy HQ.
  destruct (abs_Some _ _ _ Hinv Hy) as (b & k & t & Hy' & Hb & Ht & ->).
  apply (wp_copy_ctor x y b); [done..|]. intros c1 Hrec Hinv1.
  pose proof Hrec as [Hr He Hxt Hs]. apply HQ.
  - split; [done|]. simpl. by rewrite He, Hxt.
  - unfold abs. simpl. rewrite fmap_insert. f_equal.
    + transitivity (value_at c1 (Some b)); [done|]. rewrite (value_at_recounted c c1) by done.
      unfold value_at. simpl. rewrite Hb. simpl. by rewrite Ht.
    + apply map_fmap_ext. intros z o _. by rewrite <- (value_at_recounted c c1).
  - unfold out. simpl. by rewrite He, Hxt.
Qed.

Lemma wp_move_ctor_value x y v Q c :
  cow_ok c → abs c !! x = None → abs c !! y = Some v →
  (∀ c', cow_ok c' → abs c' = <[y := None]> (<[x := v]> (abs c)) → out c' = out c → Q tt c') →
  wp (move_ctor x y) Q c.
Proof.
  intros [Hinv Hp] Hx%abs_lookup_None (o & Hy & <-)%abs_lookup HQ.
  eapply wp_move_ctor; [done|done|exact Hy|]. intros c' -> Hinv'.
  apply HQ; [by split| |done]. unfold abs. simpl. by rewrite !fmap_insert.
Qed.

Lemma wp_destruct_value x v Q c :
  cow_ok c → fits c → abs c !! x = Some v →
  (∀ c', cow_ok c' → abs c' = delete x (abs c) → out c' = out c → Q tt c') →
  wp (destruct_ x) Q c.
Proof.
  intros [Hinv Hp] Hfit (o & Hx & _)%abs_lookup HQ.
  assert (value_at c <$> delete x (refs c) = delete x (abs c)) as Habs by apply fmap_delete.
  eapply wp_destruct; [done|done|done| |].
  - intros c' Hinv' Hrec. apply HQ.
    + by eapply (cow_ok_recounted (set_refs (delete x (refs c)) c)).
    + by rewrite (abs_recounted _ _ _ Hrec).
    + by rewrite (out_recounted _ _ Hrec).
  - intros b k t -> Hno Hb Ht. apply (destroy_ok (elems c) _ (element k)); [done|done|].
    intros w Hpool Hout Hsame c' -> Hinv'. apply HQ; [by split| |done].
    rewrite abs_without; [done|by eapply sole_element_inv|done..].
Qed.

Lemma wp_copy_assign_value x y v v' Q c :
  cow_ok c → fits c → abs c !! x = Some v → abs c !! y = Some v' → x = y ∨ is_Some v' →
  (∀ c', cow_ok c' → abs c' = <[x := v']> (abs c) → out c' = out c → Q tt c') →
  wp (copy_assign x y) Q c.
Proof.
  intros [Hinv Hp] Hfit (o & Hx & <-)%abs_lookup (o' & Hy & <-)%abs_lookup Hvalid HQ.
  eapply wp_copy_assign; [done|exact Hx|exact Hy|done| | |].
  - intros ->. apply HQ; [done| |done]. symmetry. apply insert_id.
    unfold abs. by rewrite lookup_fmap, Hx.
  - intros b' Hne ->. split.
    + intros c' Hinv' (c1 & Hrec1 & Hrec2).
      pose proof (rec_elems _ _ Hrec1) as He. pose proof (rec_ext _ _ Hrec1) as Hxt.
      apply HQ.
      * eapply (cow_ok_recounted (set_refs (<[x:=Some b']> (refs c)) c1)); [|done|done].
        simpl. by rewrite He, Hxt.
      * rewrite (abs_recounted _ _ _ Hrec2), value_at_insert, (value_at_recounted _ _ _ Hrec1).
        f_equal. apply map_fmap_ext. intros z w _. by apply value_at_recounted.
      * rewrite (out_recounted _ _ Hrec2). by rewrite <- (out_recounted _ _ Hrec1).
    + intros b c1 k t -> Hrec1 Hno Hb Ht.
      pose proof (rec_elems _ _ Hrec1) as He. pose proof (rec_ext _ _ Hrec1) as Hxt.
      apply (destroy_ok (elems c1) _ (element k)); [by rewrite He, Hxt|done|].
      intros w Hpool Hout Hsame c' -> Hinv'. apply HQ; [by split| |].
      * rewrite abs_without; [|by eapply sole_element_recounted; first apply Hrec1|done..].
        rewrite value_at_insert, (value_at_recounted _ _ _ Hrec1).
        f_equal. apply map_fmap_ext. intros z u _. by apply value_at_recounted.
      * unfold out. simpl. by rewrite Hout, He, Hxt.
  - destruct Hvalid as [->|[v Hv]]; [left; congruence|right]. by destruct o'.
Qed.

Lemma wp_move_assign_value x y v v' Q c :
  cow_ok c → fits c → abs c !! x = Some v → abs c !! y = Some v' →
  (∀ c', cow_ok c' → abs c' = (if decide (x = y) then abs c else <[x := v']> (<[y := None]> (abs c))) →
    out c' = out c → Q tt c') →
  wp (move_assign x y) Q c.
Proof.
  intros [Hinv Hp] Hfit (o & Hx & <-)%abs_lookup (o' & Hy & <-)%abs_lookup HQ.
  assert (value_at c <$> moved_refs x y o' c = <[x := value_at c o']> (<[y := None]> (abs c))) as Habs.
  { unfold moved_refs. by rewrite !value_at_insert. }
  eapply wp_move_assign; [done|exact Hx|exact Hy|done| | |].
  - intros Heq. apply HQ; [done|by rewrite decide_True|done].
  - intros Hne c' Hinv' Hrec. rewrite decide_False in HQ by done. apply HQ.
    + by eapply (cow_ok_recounted (set_refs (moved_refs x y o' c) c)).
    + by rewrite (abs_recounted _ _ _ Hrec).
    + by rewrite (out_recounted _ _ Hrec).
  - intros Hne b k t -> Hno Hb Ht. rewrite decide_False in HQ by done.
    apply (destroy_ok (elems c) _ (element k)); [done|done|].
    intros w Hpool Hout Hsame c' -> Hinv'. apply HQ; [by split| |done].
    rewrite abs_without; [done|by eapply sole_element_inv|done..].
Qed.

(** *** Mutation *)

(** [e] is the element of [x] and of no other instance. *)
Definition exclusive c x e : Prop :=
  ∃ b k, refs c !! x = Some (Some b) ∧ blocks c !! b = Some k ∧ element k = e ∧
    ref_count b (refs c) = 1%nat.

Definition shared c x : Prop :=
  ∃ b, refs c !! x = Some (Some b) ∧ (1 < ref_count b (refs c))%nat.

(** The element of an instance. *)
Definition element_of c x (t : T) : Prop := ∃ e, elem_ptr c x = Some e ∧ elems c !! e = Some t.

(** What [unique()] may have done to the value: nothing when [x] was the only
    owner, a copy otherwise. *)
Inductive unshared c x (v v' : V) : Prop :=
| unshared_sole : ¬ shared c x → v' = v → unshared c x v v'
| unshared_copy t t' w : shared c x → copied v v' → element_of c x t →
    copy_construct t (ext c) = Done t' w → v' = val t' w → unshared c x v v'.

(** Old elements are still there, with their values. *)
Definition keeps_elems c c' : Prop :=
  elems c ⊆ elems c' ∧ same_vals (elems c) (ext c) (ext c').

Lemma ref_count_fresh x r c :
  cow_inv [] c → refs c !! x = Some r →
  ref_count (next_block c) (<[x := Some (next_block c)]> (refs c)) = 1%nat.
Proof.
  intros Hinv Hx. pose proof (next_block_fresh _ _ Hinv) as Hfresh.
  pose proof (inv_count _ _ Hinv (next_block c)) as H0. rewrite Hfresh in H0.
  assert (r ≠ Some (next_block c)) as Hr.
  { intros ->. pose proof (ref_count_pos _ _ _ Hx). unfold owners in H0. lia. }
  pose proof (ref_count_insert (next_block c) x r (Some (next_block c)) (refs c) Hx) as Hc.
  rewrite ind_self in Hc. unfold ind in Hc. rewrite decide_False in Hc by done.
  unfold owners in H0. simpl in *. lia.
Qed.

(** [unique()], with the copy it made of a shared element. *)
Lemma wp_unique_made x v Q c :
  cow_ok c → fits c → abs c !! x = Some (Some v) →
  (∀ e t c', cow_ok c' → exclusive c' x e → elems c' !! e = Some t →
    unshared c x v (val t (ext c')) → abs c' = <[x := Some (val t (ext c'))]> (abs c) →
    out c' = out c → dom (refs c') = dom (refs c) → keeps_elems c c' →
    (¬ shared c x → c' = c) → (shared c x → elems c !! e = None) →
    (shared c x → ∃ t0, element_of c x t0 ∧ copy_construct t0 (ext c) = Done t (ext c')) → Q e c') →
  wp (unique x) Q c.
Proof.
  intros [Hinv Hp] Hfit Hx HQ. pose proof Hx as Hx0.
  destruct (abs_Some _ _ _ Hinv Hx) as (b & k & t & Hr & Hb & Ht & ->).
  eapply wp_unique; [done|done|done| |].
  - intros k' Hb' H1. rewrite Hb in Hb'. injection Hb' as <-.
    assert (¬ shared c x) as Hns by (intros (b' & Hb' & Hm); simplify_eq; lia).
    eapply (HQ _ t); [done| |done|by left| |done|done|by split|done|done|done].
    + by exists b, k.
    + by rewrite insert_id.
  - intros k' t0 Hb' Ht' Hmany. rewrite Hb in Hb'. injection Hb' as <-.
    rewrite Ht in Ht'. injection Ht' as <-. assert (shared c x) as Hsh by by exists b.
    apply wp_run, (copy_construct_ok (elems c) _ (element k)); [done|done|].
    intros t' w Hpool Hsame Hcop Hrun c' Hinv' Hrec.
    pose proof Hrec as [Hr' He' Hx' Hs']. simpl in Hr', He', Hx'.
    pose proof (next_elem_fresh _ _ Hinv) as Hfresh.
    destruct (Hpool (next_elem c)) as [Hpool' Hout]; [done|].
    apply (HQ _ t').
    + split; [done|]. by rewrite He', Hx'.
    + pose proof (Hs' (next_block c)) as Hnew. simpl in Hnew. rewrite lookup_insert_eq in Hnew.
      destruct (blocks c' !! next_block c) as [kn|] eqn:Hkn; [|done].
      exists (next_block c), kn. rewrite Hr', lookup_insert_eq.
      split_and!; [done|done|by injection Hnew|]. by eapply (ref_count_fresh x (Some b)).
    + by rewrite He', lookup_insert_eq.
    + rewrite Hx'. eapply unshared_copy; [done|done| |exact Hrun|done].
      exists (element k). unfold elem_ptr. rewrite Hr. simpl. by rewrite Hb.
    + rewrite (abs_recounted _ _ _ Hrec), Hx'. by apply abs_with_new.
    + unfold out. by rewrite He', Hx'.
    + rewrite Hr', dom_insert_lookup_L; done.
    + split; rewrite ?Hx'; [|done]. rewrite He'. by apply insert_subseteq.
    + done.
    + done.
    + intros _. exists t. split; [|by rewrite Hx'].
      exists (element k). unfold elem_ptr. rewrite Hr. simpl. by rewrite Hb.
Qed.

Lemma wp_unique_value x v Q c :
  cow_ok c → fits c → abs c !! x = Some (Some v) →
  (∀ e t c', cow_ok c' → exclusive c' x e → elems c' !! e = Some t →
    unshared c x v (val t (ext c')) → abs c' = <[x := Some (val t (ext c'))]> (abs c) →
    out c' = out c → dom (refs c') = dom (refs c) → keeps_elems c c' →
    (¬ shared c x → c' = c) → (shared c x → elems c !! e = None) → Q e c') →
  wp (unique x) Q c.
Proof. intros Hok Hfit Hx HQ. eapply wp_unique_made; [done..|]. intros e t c' **. by eapply (HQ e t). Qed.

(** Running a method through the pointer [unique()] returned changes the value
    of [x] and of no other instance. *)
Lemma wp_mutate_value {A} x e t (m : prog (T * W) A) Q c :
  cow_ok c → exclusive c x e → elems c !! e = Some t →
  wp m (λ a tw,
    pool (<[e := tw.1]> (elems c)) tw.2 ∧ same_vals (delete e (elems c)) (ext c) tw.2 ∧
    (∀ c', cow_ok c' → abs c' = <[x := Some (val tw.1 tw.2)]> (abs c) → refs c' = refs c →
      out c' = outside (<[e := tw.1]> (elems c)) tw.2 → Q a c')) (t, ext c) →
  wp (on_element e m) Q c.
Proof.
  intros [Hinv Hp] (b & k & Hx & Hb & <- & Hone) Ht Hm. eapply wp_on_element; [done|].
  eapply wp_mono; [exact Hm|]. intros a [t' w] (Hpool & Hsame & HQ). simpl in *.
  apply HQ; [|clear HQ|done|done].
  { split; [|done]. by apply cow_inv_on_element. }
  apply map_eq. intros y. unfold abs. simpl. rewrite lookup_fmap.
  destruct (decide (y = x)) as [->|Hne].
  - rewrite lookup_insert_eq, Hx. simpl. unfold value_at. simpl. rewrite Hb. simpl.
    by rewrite lookup_insert_eq.
  - rewrite lookup_insert_ne, lookup_fmap by done.
    destruct (refs c !! y) as [[b'|]|] eqn:Hy; [|done|done]. apply (f_equal Some).
    destruct (value_at_Some c y b' Hinv Hy) as (k' & u & Hb' & Hu & Hv). rewrite Hv.
    unfold value_at. simpl. rewrite Hb'. simpl.
    assert (element k' ≠ element k) as Hek.
    { intros He. apply Hne. assert (b' = b) as -> by by eapply (inv_inj _ _ Hinv).
      by eapply ref_count_one. }
    rewrite lookup_insert_ne, Hu by done. simpl. f_equal. apply (Hsame (element k')).
    by rewrite lookup_delete_ne.
Qed.

Lemma wp_read_value x v Q c :
  cow_ok c → abs c !! x = Some (Some v) →
  (∀ e t, elem_ptr c x = Some e → elems c !! e = Some t → v = val t (ext c) → Q e c) →
  wp (read x) Q c.
Proof.
  intros [Hinv Hp] Hx HQ. destruct (abs_Some _ _ _ Hinv Hx) as (b & k & t & Hr & Hb & Ht & Hv).
  eapply wp_read; [done|done|]. apply (HQ _ t); [|done|done].
  unfold elem_ptr. rewrite Hr. simpl. by rewrite Hb.
Qed.

(** ** Sequences of operations *)

(** The constructor call [mk] builds a value that satisfies [P], and the method
    [m] takes a value to one [R] relates it to, without touching anything else. *)
Definition constructs (mk : prog W T) (P : V → Prop) : Prop :=
  ∀ es w, pool es w → wp mk (λ t w',
    (∀ e, es !! e = None → pool (<[e := t]> es) w' ∧ outside (<[e := t]> es) w' = outside es w) ∧
    same_vals es w w' ∧ P (val t w')) w.

Definition mutates (m : prog (T * W) unit) (R : V → V → Prop) : Prop :=
  ∀ es w e t, pool es w → es !! e = Some t → wp m (λ _ tw,
    pool (<[e := tw.1]> es) tw.2 ∧ same_vals (delete e es) w tw.2 ∧
    outside (<[e := tw.1]> es) tw.2 = outside es w ∧ R (val t w) (val tw.1 tw.2)) (t, w).

Inductive op :=
| Make (x : positive) (mk : prog W T) (P : V → Prop)
| CopyCtor (x y : positive)
| MoveCtor (x y : positive)
| CopyAssign (x y : positive)
| MoveAssign (x y : positive)
| Mutate (x : positive) (m : prog (T * W) unit) (R : V → V → Prop)
| Destruct (x : positive).

Definition exec_op (o : op) : prog (cow T W) unit :=
  match o with
  | Make x mk _ => CopyOnWriteMake x mk
  | CopyCtor x y => copy_ctor x y
  | MoveCtor x y => move_ctor x y
  | CopyAssign x y => copy_assign x y
  | MoveAssign x y => move_assign x y
  | Mutate x m _ => e ← unique x; on_element e m
  | Destruct x => destruct_ x
  end.

(** What a client may call: names of live instances, and no value of an
    instance that has been moved from. *)
Definition legal (o : op) (a : gmap positive (option V)) : Prop :=
  match o with
  | Make x mk P => a !! x = None ∧ constructs mk P
  | CopyCtor x y => a !! x = None ∧ ∃ v, a !! y = Some (Some v)
  | MoveCtor x y => a !! x = None ∧ is_Some (a !! y)
  | CopyAssign x y => is_Some (a !! x) ∧ ∃ v, a !! y = Some v ∧ (x = y ∨ is_Some v)
  | MoveAssign x y => is_Some (a !! x) ∧ is_Some (a !! y)
  | Mutate x m R => (∃ v, a !! x = Some (Some v)) ∧ mutates m R
  | Destruct x => is_Some (a !! x)
  end.

(** The same operations on independent values. *)
Inductive spec_op : op → gmap positive (option V) → gmap positive (option V) → Prop :=
| spec_Make x mk (P : V → Prop) v a : P v → spec_op (Make x mk P) a (<[x := Some v]> a)
| spec_CopyCtor x y v a : a !! y = Some v → spec_op (CopyCtor x y) a (<[x := v]> a)
| spec_MoveCtor x y v a : a !! y = Some v → spec_op (MoveCtor x y) a (<[y := None]> (<[x := v]> a))
| spec_CopyAssign x y v a : a !! y = Some v → spec_op (CopyAssign x y) a (<[x := v]> a)
| spec_MoveAssign_self x a : spec_op (MoveAssign x x) a a
| spec_MoveAssign x y v a : x ≠ y → a !! y = Some v →
    spec_op (MoveAssign x y) a (<[x := v]> (<[y := None]> a))
| spec_Mutate x m (R : V → V → Prop) v v1 v2 a : a !! x = Some (Some v) → v1 = v ∨ copied v v1 →
    R v1 v2 → spec_op (Mutate x m R) a (<[x := Some v2]> a)
| spec_Destruct x a : spec_op (Destruct x) a (delete x a).

Lemma exec_op_ok o c :
  cow_ok c → fits c → legal o (abs c) →
  wp (exec_op o) (λ _ c', cow_ok c' ∧ spec_op o (abs c) (abs c') ∧ out c' = out c) c.
Proof.
  intros Hok Hfit. destruct o as [x mk P|x y|x y|x y|x y|x m R|x]; simpl.
  - intros [Hx Hmk]. eapply wp_make_value; [done|done|apply Hmk, Hok|].
    intros v c' Hok' HP -> Hout. split_and!; [done|by constructor|done].
  - intros [Hx [v Hy]]. eapply wp_copy_ctor_value; [done..|].
    intros c' Hok' -> Hout. split_and!; [done|by constructor|done].
  - intros [Hx [v Hy]]. eapply wp_move_ctor_value; [done..|].
    intros c' Hok' -> Hout. split_and!; [done|by constructor|done].
  - intros ([v Hx] & v' & Hy & Hv). eapply wp_copy_assign_value; [done..|].
    intros c' Hok' -> Hout. split_and!; [done|by constructor|done].
  - intros ([v Hx] & v' & Hy). eapply wp_move_assign_value; [done..|].
    intros c' Hok' Habs Hout. split_and!; [done| |done].
    case_decide; rewrite Habs; [subst; constructor|by constructor].
  - intros ([v Hx] & Hm). wp_step. eapply wp_unique_value; [done..|].
    intros e t c1 Hok1 Hex Ht Hv Habs Hout _ _ _ _. eapply wp_mutate_value; [done..|].
    eapply wp_mono; [eapply Hm; [apply Hok1|done]|]. intros [] [t' w] (Hp & Hs & Ho & HR).
    split_and!; [done|done|]. intros c' Hok' -> _ Hout'. split_and!; [done| |].
    + rewrite Habs, insert_insert_eq. eapply spec_Mutate; [done| |exact HR].
      destruct Hv; auto.
    + rewrite Hout', <- Hout. exact Ho.
  - intros [v Hx]. eapply wp_destruct_value; [done..|].
    intros c' Hok' -> Hout. split_and!; [done|by constructor|done].
Qed.

Fixpoint exec_ops (os : list op) : prog (cow T W) unit :=
  match os with [] => mret tt | o :: os => exec_op o;; exec_ops os end.

Inductive spec_ops : list op → gmap positive (option V) → gmap positive (option V) → Prop :=
| spec_nil a : spec_ops [] a a
| spec_cons o os a a' a'' : spec_op o a a' → spec_ops os a' a'' → spec_ops (o :: os) a a''.

(** Every operation is legal where it runs, whatever the values were so far. *)
Fixpoint legal_ops (os : list op) (a : gmap positive (option V)) : Prop :=
  match os with
  | [] => True
  | o :: os => legal o a ∧ ∀ a', spec_op o a a' → legal_ops os a'
  end.

Lemma size_abs c : size (abs c) = size (refs c).
Proof. apply map_size_fmap. Qed.

Lemma size_insert_le {A} x (v : A) (m : gmap positive A) : (size (<[x := v]> m) ≤ S (size m))%nat.
Proof. rewrite map_size_insert. destruct (m !! x); simpl; lia. Qed.

Lemma spec_op_size o a a' : legal o a → spec_op o a a' → (size a' ≤ S (size a))%nat.
Proof.
  intros Hl Hs. destruct Hs; simpl in Hl; try (by apply size_insert_le).
  - rewrite map_size_insert_Some; [apply size_insert_le|].
    rewrite lookup_insert_is_Some. naive_solver.
  - lia.
  - rewrite map_size_insert_Some; [apply size_insert_le|].
    rewrite lookup_insert_is_Some. naive_solver.
  - rewrite map_size_delete. destruct (a !! x); simpl; lia.
Qed.

Lemma exec_ops_ok os c :
  cow_ok c → Z.of_nat (size (refs c) + length os) < 2 ^ 32 → legal_ops os (abs c) →
  wp (exec_ops os) (λ _ c', cow_ok c' ∧ spec_ops os (abs c) (abs c') ∧ out c' = out c) c.
Proof.
  revert c. induction os as [|o os IH]; intros c Hok Hfit Hl; simpl in *.
  { apply wp_ret. split_and!; [done|constructor|done]. }
  destruct Hl as [Ho Hrest]. wp_step. eapply wp_mono; [apply exec_op_ok; [done| |done]|].
  { unfold fits. lia. }
  intros [] c1 (Hok1 & Hs1 & Hout1). eapply wp_mono; [apply IH; [done| |by apply Hrest]|].
  - pose proof (spec_op_size _ _ _ Ho Hs1). rewrite !size_abs in *. lia.
  - intros [] c' (Hok' & Hs' & Hout'). split_and!; [done|by econstructor|congruence].
Qed.

(** With no live reference left there is no block and no element left. *)
Lemma cow_ok_no_leak c :
  cow_ok c → (∀ x v, abs c !! x ≠ Some (Some v)) → blocks c = ∅ ∧ elems c = ∅.
Proof.
  intros [Hinv _] Hno.
  assert (blocks c = ∅) as Hb.
  { apply map_empty. intros b. destruct (blocks c !! b) as [k|] eqn:Hb; [|done]. exfalso.
    pose proof (inv_count _ _ Hinv b) as Hc. rewrite Hb in Hc. destruct Hc as [_ Hpos].
    unfold owners, ref_count in Hpos. simpl in Hpos.
    destruct (map_choose (filter (λ p, p.2 = Some b) (refs c))) as (x & o & Hx).
    { intros He. rewrite He, map_size_empty in Hpos. lia. }
    apply map_lookup_filter_Some in Hx as [Hx Ho]. simpl in Ho. subst o.
    destruct (value_at_Some c x b Hinv Hx) as (? & u & _ & _ & Hv).
    apply (Hno x (val u (ext c))). apply abs_lookup. eauto. }
  split; [done|]. apply map_empty. intros e. apply eq_None_not_Some. intros He.
  destruct (inv_noleak _ _ Hinv e He) as (b & k & Hbk & _). by rewrite Hb, lookup_empty in Hbk.
Qed.

Lemma cow_empty_ok w : pool ∅ w → cow_ok (cow_empty w).
Proof. intros Hp. split; [apply cow_empty_inv|done]. Qed.

(** ** The properties *)

(** C2: [CopyOnWriteBacked] has value semantics.  Any sequence of legal
    constructions, copies, moves, assignments, mutations through [unique()] and
    destructions runs without a fault (no dangling access, no double free) and
    leaves the instances with the values the same sequence gives when it is run
    on independent values: a mutation reaches no other instance. *)
Theorem cow_refines_values os c :
  cow_ok c → Z.of_nat (size (refs c) + length os) < 2 ^ 32 → legal_ops os (abs c) →
  wp (exec_ops os) (λ _ c', cow_ok c' ∧ spec_ops os (abs c) (abs c')) c.
Proof. intros. eapply wp_mono; [by apply exec_ops_ok|]. naive_solver. Qed.

(** C6: Reference counting neither leaks nor frees early.  After any legal
    sequence from the empty store, an instance that has not been moved from
    reaches a live block and a live element, and once no such instance is left,
    every block and every element has been deleted. *)
Theorem cow_no_leak os w :
  pool ∅ w → Z.of_nat (length os) < 2 ^ 32 → legal_ops os ∅ →
  wp (exec_ops os) (λ _ c',
    (∀ x b, refs c' !! x = Some (Some b) → ∃ t, value c' x = Some t) ∧
    ((∀ x v, abs c' !! x ≠ Some (Some v)) → blocks c' = ∅ ∧ elems c' = ∅)) (cow_empty w).
Proof.
  intros Hp Hfit Hl. eapply wp_mono; [apply exec_ops_ok; [by apply cow_empty_ok|done|done]|].
  intros [] c' (Hok & _). split; [|by apply cow_ok_no_leak].
  intros x b Hx. destruct (value_at_Some c' x b (ok_inv _ Hok) Hx) as (k & t & Hb & Ht & _).
  exists t. unfold value, elem_ptr. rewrite Hx. simpl. rewrite Hb. done.
Qed.

(** [retainCount()] is the number of instances that share the block. *)
Theorem retainCount_correct x b c :
  cow_ok c → refs c !! x = Some (Some b) →
  wp (retainCount x) (λ n c', c' = c ∧ n = Z.of_nat (ref_count b (refs c))) c.
Proof.
  intros [Hinv _] Hx. destruct (inv_ref _ _ _ _ Hinv Hx) as (k & Hb & Hk).
  by eapply wp_retainCount.
Qed.

(** C26: [unique()] gives exclusive access.  The returned pointer is to an
    element of [x] alone; the other instances keep their values; a copy is made
    only if the element was shared, and a sole owner keeps its element, with no
    change at all. *)
Theorem unique_correct x v c :
  cow_ok c → fits c → abs c !! x = Some (Some v) →
  wp (unique x) (λ e c', cow_ok c' ∧ exclusive c' x e ∧
    (∀ y, y ≠ x → abs c' !! y = abs c !! y) ∧
    (∃ v', abs c' !! x = Some (Some v') ∧ unshared c x v v') ∧
    (∀ e0, exclusive c x e0 → c' = c ∧ e = e0)) c.
Proof.
  intros Hok Hfit Hx. destruct (abs_Some _ _ _ (ok_inv _ Hok) Hx) as (b & k & t & Hr & Hb & Ht & _).
  destruct (decide (ref_count b (refs c) = 1%nat)) as [H1|Hmany].
  - eapply wp_unique; [apply Hok|done|done| |].
    + intros k' Hk' _. rewrite Hb in Hk'. injection Hk' as <-.
      split_and!; [done|by exists b, k|done|exists v; split; [done|left; [|done]; intros (b' & ? & ?); simplify_eq; lia]|].
      intros e0 (b0 & k0 & Hr0 & Hb0 & <- & _). split; [done|]. congruence.
    + intros. lia.
  - eapply wp_unique_value; [done..|]. intros e u c' Hok' Hex _ Hv Habs _ _ _ _ _.
    split_and!; [done|done| | |].
    + intros y Hy. by rewrite Habs, lookup_insert_ne.
    + exists (val u (ext c')). by rewrite Habs, lookup_insert_eq.
    + intros e0 (b0 & k0 & Hr0 & _ & _ & H1). congruence.
Qed.

End spec.

(** ** Plain element types *)

(** A type whose copies equal the original and whose destructor does nothing. *)
Section plain.
Context (T : Type).

#[export] Instance plain_element : CowElement T unit :=
  { copy_construct := λ t, mret t; destroy := λ _, mret tt }.

#[export, program] Instance plain_laws : CowLaws T unit T unit := {
  val := λ t _, t;
  pool := λ _ _, True;
  outside := λ _ _, tt;
  copied := λ v v', v' = v;
}.
Next Obligation. intros es w e t Q _ _ HQ. by apply wp_ret, HQ. Qed.
Next Obligation. intros es w e t Q _ _ HQ. by apply wp_ret, HQ. Qed.

End plain.

(** ** A client that shares and mutates *)

Definition demo_ops : list (op (T := Z) (W := unit) (V := Z)) :=
  [Make 1 (mret 7) (λ v, v = 7);
   CopyCtor 2 1;
   Mutate 2 (modify (λ tw, (tw.1 + 1, tw.2))) (λ v v', v' = v + 1);
   CopyCtor 3 2;
   MoveAssign 1 3;
   Destruct 2;
   Destruct 1;
   Destruct 3].

Lemma demo_constructs n : constructs (T := Z) (W := unit) (mret n) (λ v, v = n).
Proof. intros es w _. by apply wp_ret. Qed.

Lemma demo_mutates :
  mutates (T := Z) (W := unit) (modify (λ tw, (tw.1 + 1, tw.2))) (λ v v' : Z, v' = v + 1).
Proof. intros es w e t _ _. by apply wp_modify. Qed.

(** The state after each step is the map the inversion of the step names. *)
Ltac demo_legal :=
  repeat match goal with
  | |- legal_ops [] _ => exact I
  | |- legal_ops (_ :: _) _ => split; simpl
  | |- ∀ a', spec_op _ _ a' → _ => let H := fresh in intros ? H; inversion H; subst; clear H
  | |- _ ∧ _ => split
  | |- constructs _ _ => apply demo_constructs
  | |- mutates _ _ => apply demo_mutates
  | |- _ => progress simplify_map_eq
  | |- ∃ _, _ => eexists
  | |- _ => by eauto
  end.

Lemma demo_ops_legal : legal_ops demo_ops ∅.
Proof. unfold demo_ops. demo_legal. Qed.

Lemma cow_refines_values_witness :
  wp (exec_ops demo_ops) (λ _ c', cow_ok c' ∧ spec_ops demo_ops ∅ (abs c')) (cow_empty tt).
Proof.
  apply (cow_refines_values demo_ops (cow_empty tt)).
  - by apply cow_empty_ok.
  - vm_compute. reflexivity.
  - apply demo_ops_legal.
Defined.

Lemma cow_no_leak_witness :
  wp (exec_ops demo_ops) (λ _ c',
    (∀ x b, refs c' !! x = Some (Some b) → ∃ t, value c' x = Some t) ∧
    ((∀ x v, abs c' !! x ≠ Some (Some v)) → blocks c' = ∅ ∧ elems c' = ∅)) (cow_empty tt).
Proof.
  apply (cow_no_leak demo_ops tt).
  - done.
  - vm_compute. reflexivity.
  - apply demo_ops_legal.
Defined.

(** Two instances that share one element. *)
Definition shared_store : cow Z unit :=
  mkCow {[1%positive := Some 1%positive; 2%positive := Some 1%positive]}
    {[1%positive := mkBlock 1 2]} {[1%positive := 7]} tt 2 2.

Lemma shared_store_reached :
  exec_ops (T := Z) (W := unit) (V := Z) [Make 1 (mret 7) (λ v, v = 7); CopyCtor 2 1] (cow_empty tt) =
    Done tt shared_store.
Proof. vm_compute. reflexivity. Qed.

Lemma shared_store_ok : cow_ok shared_store.
Proof.
  pose proof (exec_ops_ok (T := Z) (W := unit) [Make 1 (mret 7) (λ v, v = 7); CopyCtor 2 1]
    (cow_empty tt)) as Hwp.
  unfold wp in Hwp. rewrite shared_store_reached in Hwp. apply Hwp.
  - by apply cow_empty_ok.
  - vm_compute. reflexivity.
  - demo_legal.
Qed.

Lemma retainCount_correct_witness :
  wp (retainCount 2) (λ n c', c' = shared_store ∧ n = 2) shared_store.
Proof.
  apply (retainCount_correct 2 1 shared_store); [exact shared_store_ok|reflexivity].
Defined.

Lemma unique_correct_witness :
  wp (unique 2) (λ e c', cow_ok c' ∧ exclusive c' 2 e ∧
    (∀ y, y ≠ 2%positive → abs c' !! y = abs shared_store !! y) ∧
    (∃ v', abs c' !! 2%positive = Some (Some v') ∧ unshared shared_store 2 7 v') ∧
    (∀ e0, exclusive shared_store 2 e0 → c' = shared_store ∧ e = e0)) shared_store.
Proof.
  apply (unique_correct 2 7 shared_store); [exact shared_store_ok|vm_compute; reflexivity..].
Defined.

End CowSpec.
