(* ===== verification/ByteBuffer.v ===== *)
(** * [ByteBuffer] of [ByteBuffer.h] and [ByteBuffer.cpp]

    Growable buffers with a reader and a writer cursor over storage that they
    share copy-on-write.  The world holds every live buffer: the store of
    [CopyOnWriteBacked<ByteBufferStorage>] instances over memory
    ([CopyOnWrite.v], [Storage.v]) and, under the same names, the cursors.
    Assertions are enabled, as in a debug build. *)

From S2P Require Import Prelude CopyOnWrite CowSpec Memory Storage.
Import Cow CowSpec Memory Storage.

(** The element of a buffer's [storage] is copied and destroyed by
    [ByteBufferStorage]'s own constructor and destructor. *)
#[export] Instance storage_element : CowElement ByteBufferStorage mem :=
  { copy_construct := storage_copy; destroy := storage_destroy }.

Module ByteBuffer.

Record indices := mkIndices { readerIndex : Z; writerIndex : Z }.

Record world := mkWorld {
  storage : cow ByteBufferStorage mem;
  cursors : gmap positive indices;
}.

Definition bprog (A : Type) : Type := prog world A.

Definition on_storage {A} (m : prog (cow ByteBufferStorage mem) A) : bprog A :=
  zoom storage (λ c w, mkWorld c (cursors w)) m.

(** Reading and writing the cursors of a live buffer. *)
Definition cursors_of (x : positive) : bprog indices :=
  cs ← gets cursors; of_option FUndefined (cs !! x).

Definition set_cursors (x : positive) (i : indices) : bprog unit :=
  modify (λ w, mkWorld (storage w) (<[x := i]> (cursors w))).

Definition getReaderIndex x : bprog Z := i ← cursors_of x; mret (readerIndex i).
Definition getWriterIndex x : bprog Z := i ← cursors_of x; mret (writerIndex i).

Definition set_readerIndex x (r : Z) : bprog unit :=
  i ← cursors_of x; set_cursors x (mkIndices r (writerIndex i)).
Definition set_writerIndex x (k : Z) : bprog unit :=
  i ← cursors_of x; set_cursors x (mkIndices (readerIndex i) k).

(** [this->storage.read()->m()] and [this->storage.unique()->m()] *)
Definition storage_read x {A} (m : sprog A) : bprog A :=
  on_storage (e ← read x; on_element e m).
Definition storage_unique x {A} (m : sprog A) : bprog A :=
  on_storage (e ← unique x; on_element e m).

(** ** Construction, copies and destruction *)

(** [ByteBuffer(allocator, capacity)]; [allocator.buffer(capacity)] is the same. *)
Definition buffer_new x (a : ByteBufferAllocator) (capacity : Z) : bprog unit :=
  set_cursors x (mkIndices 0 0);;
  on_storage (CopyOnWriteMake x (storage_new a capacity)).

(** The implicit members: each copies or moves the three fields in order. *)
Definition buffer_copy x y : bprog unit :=
  i ← cursors_of y; set_cursors x i;; on_storage (copy_ctor x y).
Definition buffer_move x y : bprog unit :=
  i ← cursors_of y; set_cursors x i;; on_storage (move_ctor x y).
Definition buffer_assign x y : bprog unit :=
  i ← cursors_of y; set_cursors x i;; on_storage (copy_assign x y).
Definition buffer_move_assign x y : bprog unit :=
  i ← cursors_of y; set_cursors x i;; on_storage (move_assign x y).
Definition buffer_destroy x : bprog unit :=
  on_storage (destruct_ x);; modify (λ w, mkWorld (storage w) (delete x (cursors w))).

(** ** Views *)

Definition bytes x : bprog ptr := storage_read x getBytes.
Definition mutableBytes x : bprog ptr := storage_unique x getBytes.
Definition capacity x : bprog Z := storage_read x getCapacity.

Definition readableBytesView x : bprog ptr :=
  base ← bytes x;
  if is_null base then mret Null else r ← getReaderIndex x; mret (ptr_add base r).

Definition writableBytes x : bprog Z :=
  capacity ← capacity x;
  k ← getWriterIndex x;
  mret (if k <? capacity then to_size (capacity - k) else 0).

Definition readableBytes x : bprog Z :=
  k ← getWriterIndex x;
  r ← getReaderIndex x;
  mret (if r <? k then to_size (k - r) else 0).

(** ** Moving the cursors *)

Definition moveReaderIndexTo x (index : Z) : bprog unit :=
  k ← getWriterIndex x;
  assert_ (index <=? k);;
  set_readerIndex x index.

Definition moveReaderIndexForwardBy x (offset : Z) : bprog unit :=
  r ← getReaderIndex x; moveReaderIndexTo x (to_size (r + offset)).

Definition moveWriterIndexTo x (index : Z) : bprog unit :=
  capacity ← capacity x;
  assert_ (index <=? capacity);;
  set_writerIndex x index.

Definition moveWriterIndexForwardBy x (offset : Z) : bprog unit :=
  k ← getWriterIndex x; moveWriterIndexTo x (to_size (k + offset)).

(** ** Writing *)

Definition writeBytes x (src : ptr) (size : Z) : bprog Z :=
  k ← getWriterIndex x;
  written ← storage_unique x (setBytes src size k);
  moveWriterIndexForwardBy x written;;
  mret written.

(** A [std::string]: where its characters are and how many. *)
Record std_string := mkString { str_data : ptr; str_size : Z }.

Definition writeString x (string : std_string) : bprog Z :=
  writeBytes x (str_data string) (str_size string).

(** [strlen]: the cells before the first NUL; undefined if there is none, or if
    an indeterminate cell comes first. *)
Fixpoint cstring_length (cs : list cell) : option Z :=
  match cs with
  | [] | None :: _ => None
  | Some c :: cs => if decide (c = Byte.x00) then Some 0 else n ← cstring_length cs; Some (n + 1)
  end.

Definition strlen (p : ptr) : prog mem Z :=
  m ← get;
  match p with
  | Ptr b off =>
      cs ← of_option FUndefined (m_blocks m !! b);
      if 0 <=? off then of_option FUndefined (cstring_length (drop (Z.to_nat off) cs))
      else stop FUndefined
  | _ => stop FUndefined
  end.

Definition writeCString x (cString : ptr) : bprog Z :=
  if is_null cString then mret 0
  else
    n ← on_storage (in_ext (strlen cString));
    writeBytes x cString n.

(** ** Reading *)

Definition readBytes x (destination : ptr) (size : Z) : bprog Z :=
  readable ← readableBytes x;
  let count := minimumOf size readable in
  if count =? 0 then mret 0
  else
    r ← getReaderIndex x;
    read ← storage_read x (copyBytesTo destination count r);
    moveReaderIndexForwardBy x read;;
    mret read.

(** The result is the characters of the string. *)
Definition readString x (size : Z) : bprog (list cell) :=
  readable ← readableBytes x;
  let count := minimumOf size readable in
  if count =? 0 then mret []
  else
    view ← readableBytesView x;
    string ← on_storage (in_ext (m ← get; of_option FUndefined (load view count m)));
    moveReaderIndexForwardBy x count;;
    mret string.

Definition skipBytes x (size : Z) : bprog Z :=
  readable ← readableBytes x;
  let count := minimumOf size readable in
  moveReaderIndexForwardBy x count;;
  mret count.

(** ** Reusing the block *)

Definition discardReadBytes x : bprog unit :=
  r ← getReaderIndex x;
  if r =? 0 then mret tt
  else
    readable ← readableBytes x;
    (if 0 <? readable then
       on_storage (
         storage ← unique x;
         bytes ← on_element storage getBytes;
         on_element storage (setBytes (ptr_add bytes r) readable 0);;
         mret tt)
     else mret tt);;
    set_readerIndex x 0;;
    set_writerIndex x readable.

Definition clear x : bprog unit := set_readerIndex x 0;; set_writerIndex x 0.

(** ** The storages of a store share memory *)

(** The memory blocks the live storages own. *)
Definition owned (es : gmap positive ByteBufferStorage) : gset positive :=
  list_to_set (omap (storage_block ∘ snd) (map_to_list es)).

Lemma elem_of_owned es b : b ∈ owned es ↔ ∃ e s, es !! e = Some s ∧ storage_block s = Some b.
Proof.
  unfold owned. rewrite elem_of_list_to_set, list_elem_of_omap. split.
  - intros ([e s] & Hes & Hb). apply elem_of_map_to_list in Hes. by exists e, s.
  - intros (e & s & Hes & Hb). exists (e, s). by rewrite elem_of_map_to_list.
Qed.

(** Everything in memory that no storage owns. *)
Definition client_mem (es : gmap positive ByteBufferStorage) (m : mem) : gmap positive (list cell) :=
  filter (λ p, p.1 ∉ owned es) (m_blocks m).

Lemma client_mem_lookup es m b cs :
  client_mem es m !! b = Some cs ↔ m_blocks m !! b = Some cs ∧ b ∉ owned es.
Proof. unfold client_mem. by rewrite map_lookup_filter_Some. Qed.

(** Every storage is well formed, and no two own the same block. *)
Record storages_ok (es : gmap positive ByteBufferStorage) (m : mem) : Prop := {
  so_wf : mem_wf m;
  so_ok : ∀ e s, es !! e = Some s → storage_ok s m;
  so_apart : ∀ e e' s s' b, es !! e = Some s → es !! e' = Some s' →
    storage_block s = Some b → storage_block s' = Some b → e = e';
}.

Lemma storage_block_live s m b : storage_ok s m → storage_block s = Some b →
  ∃ cs, m_blocks m !! b = Some cs ∧ contents s m = cs ∧ (0 < length cs)%nat.
Proof.
  destruct 1 as [|a b' cs m Ha Hb]; [done|]. intros [= <-]. exists cs.
  split_and!; [done| |done]. by apply contents_block.
Qed.

Lemma rest_lookup_Some s m b cs :
  rest s m !! b = Some cs ↔ m_blocks m !! b = Some cs ∧ storage_block s ≠ Some b.
Proof.
  unfold rest. destruct (storage_block s) as [b'|]; [|naive_solver].
  rewrite lookup_delete_Some. naive_solver.
Qed.

(** The same for an element that may not be there. *)
Definition rest_opt (o : option ByteBufferStorage) (m : mem) : gmap positive (list cell) :=
  match o with Some s => rest s m | None => m_blocks m end.

Definition owns (o : option ByteBufferStorage) (b : positive) : Prop :=
  match o with Some s => storage_block s = Some b | None => False end.

Lemma rest_opt_lookup o m b cs : rest_opt o m !! b = Some cs ↔ m_blocks m !! b = Some cs ∧ ¬ owns o b.
Proof. destruct o; simpl; [apply rest_lookup_Some|naive_solver]. Qed.

Section change.
Context (es es' : gmap positive ByteBufferStorage) (m m' : mem) (e : positive).

(** The storage at [e] is made, changed or destroyed, and the memory it did not
    own before and does not own after is the same. *)
Hypothesis (Hes : ∀ e', e' ≠ e → es' !! e' = es !! e')
  (Hold : storages_ok es m) (Hwf' : mem_wf m') (Hok' : ∀ s, es' !! e = Some s → storage_ok s m')
  (Hrest : rest_opt (es' !! e) m' = rest_opt (es !! e) m).

Lemma change_other e2 s b : e2 ≠ e → es !! e2 = Some s → storage_block s = Some b →
  m_blocks m' !! b = m_blocks m !! b ∧ ¬ owns (es' !! e) b.
Proof using Hold Hrest.
  intros Hne H2 Hb. pose proof (so_ok _ _ Hold e2 s H2) as Hs.
  destruct (storage_block_live s m b Hs Hb) as (cs & Hcs & _).
  assert (rest_opt (es !! e) m !! b = Some cs) as H.
  { apply rest_opt_lookup. split; [done|]. destruct (es !! e) as [s1|] eqn:H1; [|by intros []].
    intros Hb1. apply Hne. by eapply (so_apart _ _ Hold). }
  rewrite <- Hrest in H. apply rest_opt_lookup in H as [-> Hno]. done.
Qed.

Lemma change_kept e2 s : e2 ≠ e → es !! e2 = Some s → storage_ok s m' ∧ contents s m' = contents s m.
Proof using Hold Hrest.
  intros Hne H2. apply (storage_ok_ext s m m'); [|by eapply so_ok].
  intros b Hb. by eapply change_other.
Qed.

Lemma change_ok : storages_ok es' m'.
Proof using Hes Hold Hwf' Hok' Hrest.
  split; [done|..].
  - intros e2 s H2. destruct (decide (e2 = e)) as [->|Hne]; [by apply Hok'|].
    rewrite Hes in H2 by done. by eapply change_kept.
  - assert (∀ e1 e2 s1 s2 b, e1 = e → e2 ≠ e → es' !! e1 = Some s1 → es' !! e2 = Some s2 →
      storage_block s1 = Some b → storage_block s2 = Some b → False) as Hside.
    { intros e1 e2 s1 s2 b -> Hne H1 H2 Hb1 Hb2. rewrite Hes in H2 by done.
      destruct (change_other e2 s2 b) as [_ Hno]; [done..|]. apply Hno. by rewrite H1. }
    intros e1 e2 s1 s2 b H1 H2 Hb1 Hb2.
    destruct (decide (e1 = e)) as [->|Hn1], (decide (e2 = e)) as [->|Hn2]; [done|..].
    + exfalso. by eapply (Hside e e2 s1 s2).
    + exfalso. by eapply (Hside e e1 s2 s1).
    + rewrite Hes in H1, H2 by done. by eapply (so_apart _ _ Hold).
Qed.

Lemma change_client : client_mem es' m' = client_mem es m.
Proof using Hes Hrest.
  apply map_eq. intros b. apply option_eq. intros cs. rewrite !client_mem_lookup, !elem_of_owned.
  pose proof (rest_opt_lookup (es' !! e) m' b cs) as H1.
  rewrite Hrest, rest_opt_lookup in H1.
  assert (∀ (es0 : gmap positive ByteBufferStorage) (m0 : mem), (m_blocks m0 !! b = Some cs ∧ ¬ (∃ e0 s, es0 !! e0 = Some s ∧ storage_block s = Some b)) ↔
    (m_blocks m0 !! b = Some cs ∧ ¬ owns (es0 !! e) b) ∧
    ¬ (∃ e0 s, e0 ≠ e ∧ es0 !! e0 = Some s ∧ storage_block s = Some b)) as Hsplit.
  { intros es0 m0. split.
    - intros [Hb Hno]. split_and!; [done| |naive_solver]. intros Ho. apply Hno.
      destruct (es0 !! e) as [s|] eqn:He; [by exists e, s|done].
    - intros [[Hb Hno] Hne]. split; [done|]. intros (e0 & s & H0 & Hs).
      destruct (decide (e0 = e)) as [->|]; [|by apply Hne; exists e0, s].
      apply Hno. by rewrite H0. }
  rewrite !Hsplit, H1. apply and_iff_compat_l, not_iff_compat.
  split; intros (e0 & s & Hne & H0 & Hs); exists e0, s; [rewrite <- Hes by done|rewrite Hes by done]; done.
Qed.
End change.

#[export, program] Instance storage_laws :
    CowLaws ByteBufferStorage mem (list cell) (gmap positive (list cell)) := {
  val := contents;
  pool := storages_ok;
  outside := client_mem;
  copied := λ v v', v' = v ∨ v' = [];
}.
Next Obligation.
  intros es m e s Q Hp He HQ. apply wp_storage_copy; [by eapply so_ok|by eapply so_wf|].
  intros s' m' Hok Hwf Hall Hrest Hc. apply HQ.
  - intros e' He'. split.
    + apply (change_ok es _ m m' e'); try done; rewrite ?lookup_insert_eq, ?He'; try done.
      * intros. by rewrite lookup_insert_ne.
      * by intros ? [= <-].
    + apply (change_client es _ m m' e'); rewrite ?lookup_insert_eq, ?He'; try done.
      intros. by rewrite lookup_insert_ne.
  - intros e' u Hu. apply (storage_ok_ext u m m'); [|by eapply so_ok]. intros b Hb.
    destruct (storage_block_live u m b) as (cs & Hcs & _); [by eapply so_ok|done|].
    rewrite Hcs. rewrite <- Hrest in Hcs. by apply rest_lookup_Some in Hcs as [-> _].
  - destruct Hc as [Hn|[_ Hc]]; [right|by left]. unfold contents, storage_block. by rewrite Hn.
Qed.
Next Obligation.
  intros es m e s Q Hp He HQ. apply wp_storage_destroy; [by eapply so_ok|by eapply so_wf|].
  intros m' Hm' Hwf.
  assert (rest_opt (delete e es !! e) m' = rest_opt (es !! e) m) as Hrest.
  { by rewrite lookup_delete_eq, He. }
  assert (∀ e', e' ≠ e → delete e es !! e' = es !! e') as Hes by (intros; by rewrite lookup_delete_ne).
  apply HQ.
  - apply (change_ok es _ m m' e); try done. by rewrite lookup_delete_eq.
  - by apply (change_client es _ m m' e).
  - intros e' u Hne Hu. by eapply (change_kept es (delete e es) m m' e).
Qed.

(** ** The invariant of the world *)

Implicit Types (w : world) (x y : positive) (v : list cell) (i : indices) (c : cow ByteBufferStorage mem).

(** The reader is not past the writer, and the writer not past the block. *)
Definition indices_ok v i : Prop := 0 ≤ readerIndex i ≤ writerIndex i ∧ writerIndex i ≤ Z.of_nat (length v).

Record world_ok w : Prop := {
  wo_cow : cow_ok (storage w);
  wo_dom : dom (cursors w) = dom (refs (storage w));
  wo_indices : ∀ x v i, abs (storage w) !! x = Some (Some v) → cursors w !! x = Some i → indices_ok v i;
}.

(** Buffer [x] is live, with block contents [v] and cursors [i]. *)
Definition buffer_at w x v i : Prop :=
  abs (storage w) !! x = Some (Some v) ∧ cursors w !! x = Some i.

(** [w'] is [w] with [x] changed, and neither another buffer nor client memory. *)
Record buffer_update x v i w w' : Prop := {
  bu_ok : world_ok w';
  bu_abs : abs (storage w') = <[x := Some v]> (abs (storage w));
  bu_cursors : cursors w' = <[x := i]> (cursors w);
  bu_client : out (storage w') = out (storage w);
  bu_sole : ¬ shared (storage w) x → ¬ shared (storage w') x;
}.

Lemma element_of_value c x v t : cow_ok c → abs c !! x = Some (Some v) → element_of c x t →
  contents t (ext c) = v ∧ storage_ok t (ext c).
Proof.
  intros [Hinv Hp] Hx (e & He & Ht). destruct (abs_Some _ _ _ Hinv Hx) as (b & k & t' & Hr & Hb & Ht' & ->).
  unfold elem_ptr in He. rewrite Hr in He. simpl in He. rewrite Hb in He. injection He as <-.
  simplify_eq. split; [done|]. by eapply so_ok.
Qed.

Lemma abs_element c x v : cow_ok c → abs c !! x = Some (Some v) →
  ∃ t, element_of c x t ∧ contents t (ext c) = v ∧ storage_ok t (ext c).
Proof.
  intros Hok Hx. destruct (abs_Some _ _ _ (ok_inv _ Hok) Hx) as (b & k & t & Hr & Hb & Ht & _).
  assert (element_of c x t) as Hel.
  { exists (element k). unfold elem_ptr. rewrite Hr. simpl. by rewrite Hb. }
  exists t. split; [done|]. by eapply element_of_value.
Qed.

Lemma abs_length c x v : cow_ok c → abs c !! x = Some (Some v) → Z.of_nat (length v) ≤ SIZE_MAX.
Proof.
  intros Hok Hx. destruct (abs_element c x v Hok Hx) as (t & _ & <- & Ht).
  rewrite contents_length by done. by eapply capacity_range.
Qed.

(** ** Mutating one storage *)

Lemma pool_update es m e s s' m' :
  storages_ok es m → es !! e = Some s → storage_ok s' m' → mem_wf m' → rest s' m' = rest s m →
  storages_ok (<[e := s']> es) m' ∧ same_vals (V := list cell) (delete e es) m m' ∧
  client_mem (<[e := s']> es) m' = client_mem es m.
Proof.
  intros Hp He Hok Hwf Hr.
  assert (rest_opt (<[e := s']> es !! e) m' = rest_opt (es !! e) m) as Hrest.
  { by rewrite lookup_insert_eq, He. }
  assert (∀ e', e' ≠ e → <[e := s']> es !! e' = es !! e') as Hes by (intros; by rewrite lookup_insert_ne).
  split_and!.
  - apply (change_ok es _ m m' e); try done. rewrite lookup_insert_eq. by intros ? [= <-].
  - intros e' u [Hne Hu]%lookup_delete_Some. by eapply (change_kept es (<[e := s']> es) m m' e).
  - by apply (change_client es _ m m' e).
Qed.

(** A range that could be read before [unique()] can be read after it. *)
Lemma keeps_load c c' src n data : cow_ok c → cow_ok c' → keeps_elems c c' → out c' = out c →
  load src n (ext c) = Some data → load src n (ext c') = Some data.
Proof.
  intros [_ Hp] [_ Hp'] [Hsub Hsame] Hout Hload. rewrite <- Hload. apply load_blocks.
  intros b off ->. unfold load in Hload.
  destruct (m_blocks (ext c) !! b) as [cs|] eqn:Hb; [|done]. clear Hload.
  destruct (decide (b ∈ owned (elems c))) as [Hown|Hfree].
  - apply elem_of_owned in Hown as (e & s & Hs & Hbs).
    destruct (storage_block_live s (ext c) b) as (cs0 & Hcs0 & Hc & Hpos); [by eapply so_ok|done|].
    rewrite Hb in Hcs0. injection Hcs0 as <-.
    pose proof (Hsame e s Hs) as Hv. simpl in Hv. rewrite Hc in Hv.
    unfold contents in Hv. rewrite Hbs in Hv.
    destruct (m_blocks (ext c') !! b) as [cs'|]; simpl in Hv; [by subst|rewrite <- Hv in Hpos; simpl in Hpos; lia].
  - assert (out c !! b = Some cs) as Ho by by apply client_mem_lookup.
    rewrite <- Hout in Ho. by apply client_mem_lookup in Ho as [-> _].
Qed.

(** If a private copy is needed, the allocator provides it. *)
Definition copy_served c x : Prop :=
  shared c x → ∀ t t' m', element_of c x t → storage_copy t (ext c) = Done t' m' →
    Storage.bytes t' = Null → Storage.bytes t = Null.

Lemma copy_served_same c x v v' : cow_ok c → abs c !! x = Some (Some v) → copy_served c x →
  unshared c x v v' → v' = v.
Proof.
  intros Hok Hx Hserved [? ->|t t' m' Hsh _ Hel Hrun ->]; [done|].
  destruct (element_of_value c x v t Hok Hx Hel) as [Hc Ht].
  specialize (Hserved Hsh t t' m' Hel Hrun). simpl.
  apply (wp_done (storage_copy t) (λ t' m', Storage.bytes t' = Null ∨ contents t' m' = contents t (ext c))
    (ext c)) in Hrun.
  - rewrite <- Hc. destruct Hrun as [Hn|]; [|done]. specialize (Hserved Hn).
    unfold contents, storage_block. by rewrite Hn, Hserved.
  - apply wp_storage_copy; [done|apply Hok|]. intros s' m'' _ _ _ _ [?|[_ ?]]; auto.
Qed.

(** The source is not in the block the write may free. *)
Definition source_ok c x (src : ptr) (size k : Z) : Prop :=
  ¬ shared c x → ∀ t, element_of c x t → source_survives src size k t.

Lemma exclusive_element c x e t : exclusive c x e → elems c !! e = Some t → element_of c x t.
Proof.
  intros (b & k & Hr & Hb & <- & _) Ht. exists (element k). split; [|done].
  unfold elem_ptr. rewrite Hr. simpl. by rewrite Hb.
Qed.

Lemma source_ok_unique c c1 x e t src size k data :
  cow_ok c → cow_ok c1 → source_ok c x src size k → load src size (ext c) = Some data →
  exclusive c1 x e → elems c1 !! e = Some t → keeps_elems c c1 → out c1 = out c →
  (¬ shared c x → c1 = c) → (shared c x → elems c !! e = None) →
  source_survives src size k t.
Proof.
  intros Hok Hok1 Hsrc Hload Hex Ht [Hsub _] Hout Hsole Hfresh.
  assert (shared c x ∨ ¬ shared c x) as [Hsh|Hns].
  { unfold shared. destruct (refs c !! x) as [[b|]|] eqn:Hr; [|right; naive_solver..].
    destruct (decide (1 < ref_count b (refs c))%nat); [left; by exists b|right; naive_solver]. }
  - intros b off -> Hb. exfalso. specialize (Hfresh Hsh). unfold load in Hload.
    destruct (m_blocks (ext c) !! b) as [cs|] eqn:Hcs; [|done]. clear Hload.
    destruct (decide (b ∈ owned (elems c))) as [Hown|Hfree].
    + apply elem_of_owned in Hown as (e2 & s2 & H2 & Hb2).
      assert (elems c1 !! e2 = Some s2) as H2' by by eapply lookup_weaken.
      assert (e2 = e) as -> by by eapply (so_apart _ _ (ok_pool _ Hok1)). congruence.
    + assert (out c !! b = Some cs) as Ho by by apply client_mem_lookup.
      rewrite <- Hout in Ho. apply client_mem_lookup in Ho as [_ Hno]. apply Hno.
      apply elem_of_owned. by exists e, t.
  - rewrite (Hsole Hns) in Hex, Ht. apply Hsrc; [done|]. by eapply exclusive_element.
Qed.

Lemma exclusive_not_shared c c' x e : exclusive c x e → refs c' = refs c → ¬ shared c' x.
Proof. intros (b & k & Hr & _ & _ & H1) Hrefs (b' & Hb' & Hm). rewrite Hrefs in *. simplify_eq. lia. Qed.

(** [storage.unique()->setBytes(src, size, k)] *)
Lemma wp_unique_setBytes x src size k data v Q c :
  cow_ok c → fits c → abs c !! x = Some (Some v) → copy_served c x →
  0 ≤ size ≤ SIZE_MAX → 0 ≤ k ≤ Z.of_nat (length v) →
  load src size (ext c) = Some data → source_ok c x src size k →
  (∀ c', cow_ok c' → abs c' = abs c → out c' = out c → dom (refs c') = dom (refs c) →
    ¬ shared c' x → size = 0 ∨ Z.of_nat (length v) < k + size → Q 0 c') →
  (∀ c' v', cow_ok c' → abs c' = <[x := Some v']> (abs c) → out c' = out c →
    dom (refs c') = dom (refs c) → ¬ shared c' x → 0 < size → k + size ≤ Z.of_nat (length v') →
    take (Z.to_nat (k + size)) v' = take (Z.to_nat k) v ++ data →
    (length v' = length v ∨
      (Z.of_nat (length v) < k + size ∧ Z.of_nat (length v') = nextPowerOf2ClampedToMax (k + size))) → Q size c') →
  wp (e ← unique x; on_element e (setBytes src size k)) Q c.
Proof.
  intros Hok Hfit Hx Hserved Hsize Hk Hload Hsrc Hno Hyes. wp_step.
  apply (wp_unique_value x v); [done..|].
  intros e t c1 Hok1 Hex Ht Hun Habs Hout Hdom Hkeeps Hsole Hfresh.
  pose proof (copy_served_same _ _ _ _ Hok Hx Hserved Hun) as Hv. rewrite Hv in *. simpl in Hv.
  assert (abs c1 = abs c) as Habs1 by by rewrite Habs, insert_id.
  pose proof (ok_pool _ Hok1) as Hp1. simpl in Hp1. pose proof (so_ok _ _ Hp1 e t Ht) as Ht1.
  pose proof (contents_length _ _ Ht1) as Hlen. rewrite Hv in Hlen.
  eapply wp_mutate_value; [done|done|done|].
  apply (wp_setBytes src size k data); [done|apply Hp1|done|lia| | |..].
  - by eapply (keeps_load c c1).
  - by eapply (source_ok_unique c c1).
  - intros m' Hm' Hwf' Hwhy. simpl.
    assert (size = 0 ∨ Z.of_nat (length v) < k + size) as Hwhy'.
    { pose proof (abs_length c x v Hok Hx). unfold contents, storage_block in Hv.
      destruct Hwhy as [|[|[[Hn|] _]]]; [by left|right; lia| |right; lia].
      rewrite Hn in Hv. subst v. simpl in *. lia. }
    destruct (storage_ok_ext t (ext c1) m') as [Ht' Hc']; [by intros; rewrite Hm'|done|].
    destruct (pool_update (elems c1) (ext c1) e t t m') as (Hp' & Hs' & Ho'); try done.
    { unfold rest. by rewrite Hm'. }
    split_and!; [done|done|]. intros c' Hok' Habs' Hr' Hout'. apply Hno; [done| | |by rewrite Hr'|by eapply exclusive_not_shared|done].
    + rewrite Habs', Hc', Hv, Habs1. by apply insert_id.
    + exact (eq_trans Hout' (eq_trans Ho' Hout)).
  - intros s' m' Hpos [Hs Hwf' Hrest Hall Hroom Hcont _ Hgrow]. simpl.
    destruct (pool_update (elems c1) (ext c1) e t s' m') as (Hp' & Hs' & Ho'); try done.
    pose proof (load_length _ _ _ _ (proj1 Hsize) Hload) as Hd.
    pose proof (contents_length _ _ Hs) as Hl'. rewrite Hv in Hcont.
    split_and!; [done|done|]. intros c' Hok' Habs' Hr' Hout'.
    apply (Hyes c' (contents s' m')); [done| | |by rewrite Hr'|by eapply exclusive_not_shared|done|lia| |].
    + by rewrite Habs', Habs1.
    + exact (eq_trans Hout' (eq_trans Ho' Hout)).
    + rewrite <- Hcont. f_equal. lia.
    + rewrite Hd in Hgrow. destruct Hgrow as [[_ Hg]|[? Hg]]; [left; lia|right; split; [lia|congruence]].
Qed.

(** ** Rules for the methods *)

(** Running a method that leaves the element and memory as they are. *)
Lemma wp_on_element_const {A} e t (m : sprog A) Q c :
  elems c !! e = Some t → wp m (λ a tw, tw = (t, ext c) ∧ Q a c) (t, ext c) → wp (on_element e m) Q c.
Proof.
  intros Ht Hm. eapply wp_on_element; [done|]. eapply wp_mono; [exact Hm|].
  intros a tw [-> HQ]. simpl. rewrite insert_id by done. by destruct c.
Qed.

Lemma wp_on_storage {A} (m : prog (cow ByteBufferStorage mem) A) Q w :
  wp m (λ a c, Q a (mkWorld c (cursors w))) (storage w) → wp (on_storage m) Q w.
Proof. intros Hm. unfold on_storage. apply wp_zoom. exact Hm. Qed.

Lemma set_ext_id c : set_ext (ext c) c = c.
Proof. by destruct c. Qed.

Lemma world_eta w : mkWorld (storage w) (cursors w) = w.
Proof. by destruct w. Qed.

Lemma wp_storage_read {A} x (m : sprog A) v Q w :
  cow_ok (storage w) → abs (storage w) !! x = Some (Some v) →
  (∀ t, element_of (storage w) x t → contents t (ext (storage w)) = v →
    wp m (λ a tw, tw = (t, ext (storage w)) ∧ Q a w) (t, ext (storage w))) →
  wp (storage_read x m) Q w.
Proof.
  intros Hok Hx Hm. apply wp_on_storage. wp_step. eapply wp_read_value; [done|done|].
  intros e t He Ht Hv. eapply wp_on_element_const; [done|]. rewrite world_eta.
  apply Hm; [by exists e|done].
Qed.

Lemma wp_capacity x v Q w :
  cow_ok (storage w) → abs (storage w) !! x = Some (Some v) →
  Q (Z.of_nat (length v)) w → wp (capacity x) Q w.
Proof.
  intros Hok Hx HQ. unfold capacity. eapply wp_storage_read; [done|done|].
  intros t Hel Hv. destruct (element_of_value _ _ _ _ Hok Hx Hel) as [_ Ht].
  unfold getCapacity, this. wp_go. split; [done|]. by rewrite <- (contents_length _ _ Ht), Hv.
Qed.

Lemma wp_cursors_of x i Q w : cursors w !! x = Some i → Q i w → wp (cursors_of x) Q w.
Proof. intros Hi HQ. unfold cursors_of. wp_step. apply wp_gets. by eapply wp_of_option. Qed.

Lemma wp_getReaderIndex x i Q w : cursors w !! x = Some i → Q (readerIndex i) w → wp (getReaderIndex x) Q w.
Proof. intros Hi HQ. unfold getReaderIndex. wp_step. by eapply wp_cursors_of. Qed.

Lemma wp_getWriterIndex x i Q w : cursors w !! x = Some i → Q (writerIndex i) w → wp (getWriterIndex x) Q w.
Proof. intros Hi HQ. unfold getWriterIndex. wp_step. by eapply wp_cursors_of. Qed.

(** [w] with the cursors of [x] set to [i]. *)
Definition with_cursors x i w : world := mkWorld (storage w) (<[x := i]> (cursors w)).

Lemma wp_set_readerIndex x i r Q w : cursors w !! x = Some i →
  Q tt (with_cursors x (mkIndices r (writerIndex i)) w) → wp (set_readerIndex x r) Q w.
Proof. intros Hi HQ. unfold set_readerIndex. wp_step. by eapply wp_cursors_of. Qed.

Lemma wp_set_writerIndex x i k Q w : cursors w !! x = Some i →
  Q tt (with_cursors x (mkIndices (readerIndex i) k) w) → wp (set_writerIndex x k) Q w.
Proof. intros Hi HQ. unfold set_writerIndex. wp_step. by eapply wp_cursors_of. Qed.

Lemma wp_readableBytes x i Q w :
  cursors w !! x = Some i → 0 ≤ readerIndex i ≤ writerIndex i → writerIndex i ≤ SIZE_MAX →
  Q (writerIndex i - readerIndex i) w → wp (readableBytes x) Q w.
Proof.
  intros Hi Hr Hk HQ. unfold readableBytes.
  wp_step. eapply wp_getWriterIndex; [done|]. wp_step. eapply wp_getReaderIndex; [done|]. wp_step.
  destruct (Z.ltb_spec (readerIndex i) (writerIndex i)); [by rewrite to_size_id by lia|].
  by replace 0 with (writerIndex i - readerIndex i) by lia.
Qed.

Lemma wp_moveWriterIndexForwardBy x v i n Q w :
  cow_ok (storage w) → buffer_at w x v i → 0 ≤ writerIndex i → 0 ≤ n →
  writerIndex i + n ≤ Z.of_nat (length v) →
  Q tt (with_cursors x (mkIndices (readerIndex i) (writerIndex i + n)) w) →
  wp (moveWriterIndexForwardBy x n) Q w.
Proof.
  intros Hok [Hx Hi] Hk Hn Hfit HQ. pose proof (abs_length _ _ _ Hok Hx).
  unfold moveWriterIndexForwardBy. wp_step. eapply wp_getWriterIndex; [done|].
  rewrite to_size_id by lia. unfold moveWriterIndexTo.
  wp_step. eapply wp_capacity; [done|done|]. wp_step. apply wp_assert; [by apply Z.leb_le|].
  by eapply wp_set_writerIndex.
Qed.

Lemma wp_moveReaderIndexForwardBy x i n Q w :
  cursors w !! x = Some i → 0 ≤ readerIndex i → 0 ≤ n → readerIndex i + n ≤ writerIndex i →
  writerIndex i ≤ SIZE_MAX →
  Q tt (with_cursors x (mkIndices (readerIndex i + n) (writerIndex i)) w) →
  wp (moveReaderIndexForwardBy x n) Q w.
Proof.
  intros Hi Hr Hn Hfit Hmax HQ. unfold moveReaderIndexForwardBy.
  wp_step. eapply wp_getReaderIndex; [done|]. rewrite to_size_id by lia. unfold moveReaderIndexTo.
  wp_step. eapply wp_getWriterIndex; [done|]. wp_step. apply wp_assert; [by apply Z.leb_le|].
  by eapply wp_set_readerIndex.
Qed.

Lemma buffer_at_ok w x v i : world_ok w → buffer_at w x v i →
  indices_ok v i ∧ Z.of_nat (length v) ≤ SIZE_MAX.
Proof. intros Hw [Hx Hi]. split; [by eapply wo_indices|]. eapply abs_length; [apply Hw|done]. Qed.

Lemma buffer_updated w x v i v' i' c' :
  world_ok w → buffer_at w x v i → cow_ok c' → abs c' = <[x := Some v']> (abs (storage w)) →
  out c' = out (storage w) → dom (refs c') = dom (refs (storage w)) → (¬ shared (storage w) x → ¬ shared c' x) → indices_ok v' i' →
  buffer_update x v' i' w (mkWorld c' (<[x := i']> (cursors w))).
Proof.
  intros [Hc Hd Hidx] [Hx Hi] Hok' Habs Hout Hdom Hsole Hind. split; [|done..]. split; simpl; [done| |].
  - rewrite Hdom, <- Hd. apply dom_insert_lookup_L. by eexists.
  - intros y u j. rewrite Habs. destruct (decide (y = x)) as [->|Hne].
    + rewrite !lookup_insert_eq. by intros [= <-] [= <-].
    + rewrite !lookup_insert_ne by done. apply Hidx.
Qed.

(** [writeBytes] from a readable source. *)
Lemma wp_writeBytes x v i src size data Q w :
  world_ok w → fits (storage w) → buffer_at w x v i → copy_served (storage w) x →
  0 ≤ size ≤ SIZE_MAX → load src size (ext (storage w)) = Some data →
  source_ok (storage w) x src size (writerIndex i) →
  (∀ w', buffer_update x v i w w' →
    size = 0 ∨ Z.of_nat (length v) < writerIndex i + size → Q 0 w') →
  (∀ w' v', buffer_update x v' (mkIndices (readerIndex i) (writerIndex i + size)) w w' → 0 < size →
    take (Z.to_nat (writerIndex i + size)) v' = take (Z.to_nat (writerIndex i)) v ++ data →
    (length v' = length v ∨ (Z.of_nat (length v) < writerIndex i + size ∧
      Z.of_nat (length v') = nextPowerOf2ClampedToMax (writerIndex i + size))) →
    Q size w') →
  wp (writeBytes x src size) Q w.
Proof.
  intros Hw Hfit Hx Hserved Hsize Hload Hsrc Hno Hyes.
  destruct (buffer_at_ok _ _ _ _ Hw Hx) as [[Hr Hk] Hmax]. destruct Hx as [Habs Hi].
  unfold writeBytes. wp_step. eapply wp_getWriterIndex; [done|]. wp_step. apply wp_on_storage.
  eapply (wp_unique_setBytes x src size _ data v); [apply Hw|done|done|done|done|lia|done|done|..].
  - intros c' Hok' Habs' Hout' Hdom' Hsole' Hwhy.
    assert (abs c' = <[x := Some v]> (abs (storage w))) as Habs2 by by rewrite Habs', insert_id.
    wp_step. eapply (wp_moveWriterIndexForwardBy x v i 0); [done| |lia|done|lia|].
    { split; [|done]. simpl. by rewrite Habs'. }
    apply wp_ret, Hno; [|done]. unfold with_cursors. simpl. rewrite Z.add_0_r.
    replace (mkIndices _ _) with i by by destruct i.
    by apply (buffer_updated w x v i).
  - intros c' v' Hok' Habs' Hout' Hdom' Hsole' Hpos Hroom Hcont Hgrow.
    wp_step. eapply (wp_moveWriterIndexForwardBy x v' i size); [done| |lia|lia|done|].
    { split; [|done]. simpl. by rewrite Habs', lookup_insert_eq. }
    apply wp_ret, (Hyes _ v'); [|done|done|done]. apply (buffer_updated w x v i); try done.
    unfold indices_ok. simpl. lia.
Qed.

(** What a client may read next. *)
Definition readable v i : list cell :=
  take (Z.to_nat (writerIndex i - readerIndex i)) (drop (Z.to_nat (readerIndex i)) v).

Lemma length_readable v i : indices_ok v i →
  Z.of_nat (length (readable v i)) = writerIndex i - readerIndex i.
Proof. unfold indices_ok, readable. intros. rewrite length_take, length_drop. lia. Qed.

Lemma take_readable v i n : 0 ≤ n ≤ writerIndex i - readerIndex i →
  take (Z.to_nat n) (readable v i) = take (Z.to_nat n) (drop (Z.to_nat (readerIndex i)) v).
Proof. intros. unfold readable. rewrite take_take. f_equal. lia. Qed.

(** Consuming [n] bytes. *)
Definition consume n i : indices := mkIndices (readerIndex i + n) (writerIndex i).

Lemma readable_consume v i n : 0 ≤ n ≤ writerIndex i - readerIndex i → 0 ≤ readerIndex i →
  readable v (consume n i) = drop (Z.to_nat n) (readable v i).
Proof.
  intros. unfold readable, consume. simpl. rewrite skipn_firstn_comm, drop_drop.
  f_equal; [lia|]. f_equal. lia.
Qed.

Lemma readable_alt v i : 0 ≤ readerIndex i ≤ writerIndex i →
  readable v i = drop (Z.to_nat (readerIndex i)) (take (Z.to_nat (writerIndex i)) v).
Proof. intros. unfold readable. rewrite take_drop_commute. do 2 f_equal. lia. Qed.

Lemma readable_write v v' i size data : indices_ok v i → 0 ≤ size →
  take (Z.to_nat (writerIndex i + size)) v' = take (Z.to_nat (writerIndex i)) v ++ data →
  readable v' (mkIndices (readerIndex i) (writerIndex i + size)) = readable v i ++ data.
Proof.
  intros [Hr Hk] Hs Hv. rewrite !readable_alt by (simpl; lia). simpl. rewrite Hv.
  apply drop_app_le. rewrite length_take. lia.
Qed.

Lemma buffer_cursors w x v i i' :
  world_ok w → buffer_at w x v i → indices_ok v i' → buffer_update x v i' w (with_cursors x i' w).
Proof.
  intros Hw Hx Hi'. apply (buffer_updated w x v i); try done; [apply Hw|].
  symmetry. apply insert_id, Hx.
Qed.

Lemma minimumOf_min m n : minimumOf m n = Z.min m n.
Proof. unfold minimumOf. destruct (Z.ltb_spec m n); lia. Qed.

Lemma indices_ok_consume v i n : indices_ok v i → 0 ≤ n ≤ writerIndex i - readerIndex i →
  indices_ok v (consume n i).
Proof. unfold indices_ok, consume. simpl. lia. Qed.

Lemma wp_skipBytes x v i size Q w :
  world_ok w → buffer_at w x v i → 0 ≤ size →
  (let n := Z.min size (writerIndex i - readerIndex i) in
   buffer_update x v (consume n i) w (with_cursors x (consume n i) w) →
   Q n (with_cursors x (consume n i) w)) →
  wp (skipBytes x size) Q w.
Proof.
  intros Hw Hx Hs HQ. destruct (buffer_at_ok _ _ _ _ Hw Hx) as [Hi Hmax].
  pose proof Hi as [Hr Hk]. destruct Hx as [Ha Hc]. unfold skipBytes.
  wp_step. eapply wp_readableBytes; [done|lia|lia|]. rewrite minimumOf_min.
  set (n := Z.min _ _) in *. wp_step. eapply wp_moveReaderIndexForwardBy; [done|lia|lia|lia|lia|].
  apply wp_ret, HQ. eapply buffer_cursors; [done|by split|]. apply indices_ok_consume; [done|lia].
Qed.

(** Where the bytes of a buffer are. *)
Lemma buffer_block w x v i t : world_ok w → buffer_at w x v i → element_of (storage w) x t →
  (0 < length v)%nat →
  ∃ b, Storage.bytes t = Ptr b 0 ∧ m_blocks (ext (storage w)) !! b = Some v ∧
    b ∈ owned (elems (storage w)).
Proof.
  intros Hw [Hx _] Hel Hpos. destruct (element_of_value _ _ _ _ (wo_cow _ Hw) Hx Hel) as [Hc Ht].
  destruct Ht as [a m Ha|a b cs m Ha Hb Hl Hmax]; simpl in *.
  { subst v. unfold contents in Hpos. simpl in Hpos. lia. }
  rewrite (contents_block _ _ cs) in Hc by done. subst cs. exists b. split_and!; [done|done|].
  destruct Hel as (e & _ & He). apply elem_of_owned. by exists e, (mkStorage (Ptr b 0) (Z.of_nat (length v)) a).
Qed.

Lemma wp_readString x v i size Q w :
  world_ok w → buffer_at w x v i → 0 ≤ size →
  (let n := Z.min size (writerIndex i - readerIndex i) in
   buffer_update x v (consume n i) w (with_cursors x (consume n i) w) →
   Q (take (Z.to_nat n) (readable v i)) (with_cursors x (consume n i) w)) →
  wp (readString x size) Q w.
Proof.
  intros Hw Hx Hs HQ. destruct (buffer_at_ok _ _ _ _ Hw Hx) as [Hi Hmax].
  pose proof Hi as [Hr Hk]. pose proof Hx as [Ha Hc]. unfold readString.
  wp_step. eapply wp_readableBytes; [done|lia|lia|]. rewrite minimumOf_min.
  set (n := Z.min _ _) in *. specialize (HQ (buffer_cursors _ _ _ _ _ Hw Hx
    (indices_ok_consume v i n Hi ltac:(lia)))).
  destruct (Z.eqb_spec n 0) as [Hn|Hn].
  { apply wp_ret. rewrite Hn in HQ. simpl in HQ. unfold consume, with_cursors in HQ.
    rewrite Z.add_0_r in HQ. replace (mkIndices _ _) with i in HQ by by destruct i.
    rewrite insert_id in HQ by done. by rewrite world_eta in HQ. }
  wp_step. unfold readableBytesView, bytes. wp_step. eapply wp_storage_read; [apply Hw|done|].
  intros t Hel Hv. unfold getBytes, this. wp_go. split; [done|].
  destruct (buffer_block w x v i t Hw Hx Hel) as (b & -> & Hb & _); [lia|]. simpl.
  wp_step. eapply wp_getReaderIndex; [done|]. apply wp_ret. wp_step. apply wp_on_storage.
  unfold in_ext. wp_step. wp_step. wp_step. rewrite (take_readable v i n) in HQ by lia.
  eapply wp_of_option; [apply (load_at b _ _ _ v); [done|lia..]|].
  wp_step. eapply wp_moveReaderIndexForwardBy; [done|lia|lia|lia|lia|].
  rewrite set_ext_id, world_eta. by apply wp_ret.
Qed.

(** Writing into client memory leaves the buffers alone. *)
Lemma client_write c dst data m1 m' :
  cow_ok c → (∀ b off, dst = Ptr b off → b ∉ owned (elems c)) →
  store dst data (ext c) = Some m1 → m_blocks m' = m_blocks m1 → mem_wf m' →
  cow_ok (set_ext m' c) ∧ abs (set_ext m' c) = abs c.
Proof.
  intros [Hinv Hp] Hdst Hst Hm' Hwf'. pose proof Hp as [Hwf Hok Hap].
  assert (∀ e s, elems c !! e = Some s →
    storage_ok s m' ∧ contents s m' = contents s (ext c)) as Hkeep.
  { intros e s He. apply (storage_ok_ext s (ext c) m'); [|by eapply Hok]. intros b Hb.
    rewrite Hm'. unfold store in Hst. destruct dst as [| |b' off]; [done|done|].
    assert (b' ≠ b). { intros ->. apply (Hdst b off eq_refl). apply elem_of_owned. by exists e, s. }
    destruct (m_blocks (ext c) !! b'); [|done]. simpl in Hst. destruct (_ && _); [|done].
    injection Hst as <-. simpl. by rewrite lookup_insert_ne. }
  split; [split|].
  - revert Hinv. by apply cow_inv_owners.
  - split; [done|intros; by eapply Hkeep|done].
  - apply map_fmap_ext. intros x [b|] Hx; [|done].
    destruct (value_at_Some c x b Hinv Hx) as (k & t & Hb & Ht & ->). unfold value_at. simpl.
    rewrite Hb. simpl. rewrite Ht. simpl. f_equal. by eapply Hkeep.
Qed.

(** [readBytes] into memory of the client. *)
Lemma wp_readBytes x v i dst size m1 Q w :
  world_ok w → buffer_at w x v i → 0 ≤ size → dst ≠ Null →
  (∀ b off, dst = Ptr b off → b ∉ owned (elems (storage w))) →
  (let n := Z.min size (writerIndex i - readerIndex i) in
   (0 < n → store dst (take (Z.to_nat n) (readable v i)) (ext (storage w)) = Some m1) ∧
   ∀ w', world_ok w' → abs (storage w') = abs (storage w) →
     cursors w' = <[x := consume n i]> (cursors w) →
     (if n =? 0 then storage w' = storage w else m_blocks (ext (storage w')) = m_blocks m1) →
     elems (storage w') = elems (storage w) → Q n w') →
  wp (readBytes x dst size) Q w.
Proof.
  intros Hw Hx Hs Hnull Hdst [Hst HQ]. destruct (buffer_at_ok _ _ _ _ Hw Hx) as [Hi Hmax].
  pose proof Hi as [Hr Hk]. pose proof Hx as [Ha Hc]. unfold readBytes.
  wp_step. eapply wp_readableBytes; [done|lia|lia|]. rewrite minimumOf_min.
  set (n := Z.min _ _) in *. destruct (Z.eqb_spec n 0) as [Hn|Hn].
  { apply wp_ret. rewrite Hn in HQ. apply HQ; try done.
    unfold consume. rewrite Z.add_0_r. symmetry. apply insert_id. by destruct i. }
  wp_step. eapply wp_getReaderIndex; [done|]. wp_step. unfold storage_read. apply wp_on_storage.
  wp_step. eapply wp_read_value; [apply Hw|done|]. intros e t He Ht Hv.
  eapply wp_on_element; [done|].
  destruct (element_of_value (storage w) x v t (wo_cow _ Hw) Ha) as [Hct Htok]; [by exists e|].
  pose proof (contents_length _ _ Htok) as Hlen. rewrite Hct in Hlen.
  assert (Z.min n (Storage.capacity t - readerIndex i) = n) as Hmin by lia.
  apply wp_copyBytesTo; [done|apply Hw|lia|lia|lia|done|]. rewrite Hmin, Hct.
  exists m1. rewrite <- (take_readable v i n) by lia. split; [apply Hst; lia|].
  intros m' Hm' Hwf'. simpl. rewrite insert_id by done.
  change (set_ext m' (set_elems (elems (storage w)) (storage w))) with (set_ext m' (storage w)).
  destruct (client_write (storage w) dst (take (Z.to_nat n) (readable v i)) m1 m') as [Hok' Habs'];
    [apply Hw|done|apply Hst; lia|done|done|].
  wp_step. eapply wp_moveReaderIndexForwardBy; [done|lia|lia|lia|lia|]. apply wp_ret.
  apply HQ; simpl; try done. split; simpl; [done| |].
  - rewrite <- (wo_dom _ Hw). apply dom_insert_lookup_L. by eexists.
  - intros y u j. rewrite Habs'. destruct (decide (y = x)) as [->|Hne].
    + rewrite lookup_insert_eq, Ha. intros [= <-] [= <-].
      apply (indices_ok_consume v i n); [done|lia].
    + rewrite lookup_insert_ne by done. by eapply wo_indices.
Qed.

Lemma storage_ok_block_of t m : storage_ok t m → (0 < length (contents t m))%nat →
  ∃ b, Storage.bytes t = Ptr b 0 ∧ m_blocks m !! b = Some (contents t m).
Proof.
  destruct 1 as [a m Ha|a b cs m Ha Hb]; [unfold contents; simpl; lia|]. intros _.
  exists b. by rewrite (contents_block _ _ cs).
Qed.

(** Moving the readable bytes to the front of the block, which never grows. *)
Lemma wp_move_to_front x v i Q c :
  cow_ok c → fits c → abs c !! x = Some (Some v) → copy_served c x → indices_ok v i →
  Z.of_nat (length v) ≤ SIZE_MAX → readerIndex i < writerIndex i →
  (∀ c' v', cow_ok c' → abs c' = <[x := Some v']> (abs c) → out c' = out c →
    dom (refs c') = dom (refs c) → ¬ shared c' x → length v' = length v →
    take (Z.to_nat (writerIndex i - readerIndex i)) v' = readable v i → Q tt c') →
  wp (s ← unique x; b ← on_element s getBytes;
      on_element s (setBytes (ptr_add b (readerIndex i)) (writerIndex i - readerIndex i) 0);;
      mret tt) Q c.
Proof.
  intros Hok Hfit Hx Hserved Hi Hmax Hlt HQ. pose proof Hi as [Hr Hk].
  wp_step. apply (wp_unique_value x v); [done..|].
  intros e t c1 Hok1 Hex Ht Hun Habs Hout Hdom Hkeeps Hsole Hfresh.
  pose proof (copy_served_same _ _ _ _ Hok Hx Hserved Hun) as Hv. rewrite Hv in *. simpl in Hv.
  pose proof (ok_pool _ Hok1) as Hp1. simpl in Hp1. pose proof (so_ok _ _ Hp1 e t Ht) as Ht1.
  pose proof (contents_length _ _ Ht1) as Hlen. rewrite Hv in Hlen.
  wp_step. eapply wp_on_element_const; [done|]. unfold getBytes, this. wp_go. split; [done|].
  wp_step. eapply wp_mutate_value; [done|done|done|].
  destruct (storage_ok_block_of t _ Ht1) as (b & -> & Hb); [rewrite Hv; lia|]. rewrite Hv in Hb.
  apply (wp_setBytes _ _ _ (readable v i)); [done|apply Hp1|lia|lia| | |..].
  - by apply load_at; [|lia..].
  - intros b' off' _ _. lia.
  - intros m' _ _ [|[|[[Hn|] _]]]; [lia|lia| |lia].
    destruct Ht1; simpl in *; [lia|done].
  - intros s' m' Hpos [Hs Hwf' Hrest Hall Hroom Hcont _ Hgrow]. simpl.
    destruct (pool_update (elems c1) (ext c1) e t s' m') as (Hp' & Hs' & Ho'); try done.
    pose proof (contents_length _ _ Hs) as Hl'. pose proof (length_readable v i Hi) as Hlr.
    split_and!; [done|done|]. intros c' Hok' Habs' Hr' Hout'. apply wp_ret.
    apply (HQ c' (contents s' m')); [done| | |by rewrite Hr'|by eapply exclusive_not_shared| |].
    + by rewrite Habs', Habs, insert_insert_eq.
    + exact (eq_trans Hout' (eq_trans Ho' Hout)).
    + rewrite Hlr in Hgrow. destruct Hgrow as [[_ Hg]|[Hg _]]; simpl in Hg; lia.
    + simpl in Hcont. replace (length (readable v i)) with (Z.to_nat (writerIndex i - readerIndex i)) in Hcont by lia.
      done.
Qed.

Lemma wp_discardReadBytes x v i Q w :
  world_ok w → fits (storage w) → buffer_at w x v i →
  (0 < readerIndex i < writerIndex i → copy_served (storage w) x) →
  (∀ w' v', buffer_update x v' (mkIndices 0 (writerIndex i - readerIndex i)) w w' →
    length v' = length v →
    readable v' (mkIndices 0 (writerIndex i - readerIndex i)) = readable v i → Q tt w') →
  wp (discardReadBytes x) Q w.
Proof.
  intros Hw Hfit Hx Hserved HQ. destruct (buffer_at_ok _ _ _ _ Hw Hx) as [Hi Hmax].
  pose proof Hi as [Hr Hk]. pose proof Hx as [Ha Hc]. unfold discardReadBytes.
  set (i' := mkIndices 0 _) in *.
  wp_step. eapply wp_getReaderIndex; [done|].
  destruct (Z.eqb_spec (readerIndex i) 0) as [H0|H0].
  { apply wp_ret. assert (i' = i) as ->.
    { subst i'. rewrite H0, Z.sub_0_r, <- H0. by destruct i. }
    apply (HQ w v); [|done|done]. pose proof (buffer_cursors w x v i i Hw Hx Hi) as Hu.
    unfold with_cursors in Hu. by rewrite insert_id, world_eta in Hu. }
  wp_step. eapply wp_readableBytes; [done|lia|lia|].
  assert (∀ c' v', cow_ok c' → abs c' = <[x := Some v']> (abs (storage w)) →
    out c' = out (storage w) → dom (refs c') = dom (refs (storage w)) → (¬ shared (storage w) x → ¬ shared c' x) →
    length v' = length v → readable v' i' = readable v i →
    wp (set_readerIndex x 0;; set_writerIndex x (writerIndex i - readerIndex i)) Q
      (mkWorld c' (cursors w))) as Hend.
  { intros c' v' Hok' Habs' Hout' Hdom' Hsole' Hlen' Hread. wp_step. eapply wp_set_readerIndex; [done|].
    eapply wp_set_writerIndex; [apply lookup_insert_eq|]. unfold with_cursors. simpl.
    rewrite insert_insert_eq. apply (HQ _ v'); [|done|done].
    apply (buffer_updated w x v i); try done. subst i'. unfold indices_ok. simpl. lia. }
  wp_step. destruct (Z.ltb_spec 0 (writerIndex i - readerIndex i)) as [Hpos|Hzero].
  - apply wp_on_storage. apply (wp_move_to_front x v i); [apply Hw|done|done|apply Hserved; lia|done|done|lia|].
    intros c' v' Hok' Habs' Hout' Hdom' Hsole' Hlen' Hread. apply (Hend c' v'); try done.
    unfold readable at 1. subst i'. simpl. by rewrite Z.sub_0_r, drop_0.
  - apply wp_ret. rewrite <- world_eta. apply (Hend (storage w) v); try done; [apply Hw| |].
    + symmetry. by apply insert_id.
    + unfold readable. subst i'. simpl. by rewrite Z.sub_0_r, !(Z2Nat.nonpos (_ - _)) by lia.
Qed.

Lemma wp_clear x v i Q w :
  world_ok w → buffer_at w x v i →
  (buffer_update x v (mkIndices 0 0) w (with_cursors x (mkIndices 0 0) w) →
    Q tt (with_cursors x (mkIndices 0 0) w)) →
  wp (clear x) Q w.
Proof.
  intros Hw Hx HQ. pose proof Hx as [Ha Hc]. unfold clear. wp_step.
  eapply wp_set_readerIndex; [done|]. eapply wp_set_writerIndex; [apply lookup_insert_eq|].
  unfold with_cursors in *. simpl in *. rewrite insert_insert_eq. apply HQ.
  apply (buffer_cursors w x v i); [done|done|]. unfold indices_ok. simpl. lia.
Qed.

Lemma update_fits x v0 i0 v i w w' : buffer_at w x v0 i0 → buffer_update x v i w w' →
  fits (storage w) → fits (storage w').
Proof.
  intros [Hx _] Hu. unfold fits. rewrite <- !size_abs, (bu_abs _ _ _ _ _ Hu).
  rewrite map_size_insert_Some; [done|by eexists].
Qed.

Lemma update_at x v i w w' : buffer_update x v i w w' → buffer_at w' x v i.
Proof.
  intros Hu. split; [rewrite (bu_abs _ _ _ _ _ Hu)|rewrite (bu_cursors _ _ _ _ _ Hu)]; apply lookup_insert_eq.
Qed.

Lemma update_other x v i w w' y v' i' : buffer_update x v i w w' → y ≠ x →
  buffer_at w' y v' i' ↔ buffer_at w y v' i'.
Proof.
  intros Hu Hne. unfold buffer_at. rewrite (bu_abs _ _ _ _ _ Hu), (bu_cursors _ _ _ _ _ Hu).
  by rewrite !lookup_insert_ne by done.
Qed.

(** ** Making, sharing and destroying buffers *)

Lemma dom_abs c : dom (abs c) = dom (refs c).
Proof. apply dom_fmap_L. Qed.

Lemma world_intro c cs : cow_ok c → dom cs = dom (abs c) →
  (∀ x v i, abs c !! x = Some (Some v) → cs !! x = Some i → indices_ok v i) → world_ok (mkWorld c cs).
Proof. intros Hok Hd Hi. split; simpl; [done|by rewrite <- dom_abs|done]. Qed.

Lemma world_dom w : world_ok w → dom (cursors w) = dom (abs (storage w)).
Proof. intros Hw. by rewrite (wo_dom _ Hw), dom_abs. Qed.

Lemma storage_new_constructs a cap es m : AllocatorLaws a → 0 ≤ cap ≤ SIZE_MAX → storages_ok es m →
  wp (storage_new a cap) (λ s m',
    (∀ e, es !! e = None → storages_ok (<[e := s]> es) m' ∧
      client_mem (<[e := s]> es) m' = client_mem es m) ∧
    same_vals (V := list cell) es m m' ∧
    (contents s m' = [] ∨ Z.of_nat (length (contents s m')) = nextPowerOf2ClampedToMax cap)) m.
Proof.
  intros Ha Hcap Hp. apply wp_storage_new; [done|by eapply so_wf|done|].
  intros s m' Hok Hwf _ Hrest Hc. split_and!.
  - intros e He.
    assert (rest_opt (<[e := s]> es !! e) m' = rest_opt (es !! e) m) as Hr.
    { by rewrite lookup_insert_eq, He. }
    assert (∀ e', e' ≠ e → <[e := s]> es !! e' = es !! e') as Hes by (intros; by rewrite lookup_insert_ne).
    split; [|by apply (change_client es _ m m' e)].
    apply (change_ok es _ m m' e); try done. rewrite lookup_insert_eq. by intros ? [= <-].
  - intros e u Hu. apply (storage_ok_ext u m m'); [|by eapply so_ok]. intros b Hb.
    destruct (storage_block_live u m b) as (cs & Hcs & _); [by eapply so_ok|done|].
    rewrite Hcs. rewrite <- Hrest in Hcs. by apply rest_lookup_Some in Hcs as [-> _].
  - destruct Hc as [Hn|Hc]; [left|right; by rewrite contents_length].
    unfold contents, storage_block. by rewrite Hn.
Qed.

Lemma wp_buffer_new x a cap Q w :
  AllocatorLaws a → world_ok w → abs (storage w) !! x = None → 0 ≤ cap ≤ SIZE_MAX →
  (∀ w' v, world_ok w' → v = [] ∨ Z.of_nat (length v) = nextPowerOf2ClampedToMax cap →
    abs (storage w') = <[x := Some v]> (abs (storage w)) →
    cursors w' = <[x := mkIndices 0 0]> (cursors w) → out (storage w') = out (storage w) → Q tt w') →
  wp (buffer_new x a cap) Q w.
Proof.
  intros Ha Hw Hx Hcap HQ. unfold buffer_new. wp_step. apply wp_modify. apply wp_on_storage. simpl.
  eapply (wp_make_value x (storage_new a cap)
    (λ v, v = [] ∨ Z.of_nat (length v) = nextPowerOf2ClampedToMax cap)); [apply Hw|done| |].
  - apply storage_new_constructs; [done|done|apply Hw].
  - intros v c' Hok' Hv Habs Hout. apply (HQ _ v); try done. apply world_intro; [done| |].
    + by rewrite Habs, !dom_insert_L, (world_dom w).
    + intros y u j. rewrite Habs. destruct (decide (y = x)) as [->|Hne].
      * rewrite !lookup_insert_eq. intros [= <-] [= <-]. unfold indices_ok. simpl. lia.
      * rewrite !lookup_insert_ne by done. apply Hw.
Qed.

(** A copy has the contents and the cursors of the original, and copies no byte. *)
Lemma wp_buffer_copy x y v i Q w :
  world_ok w → fits (storage w) → abs (storage w) !! x = None → buffer_at w y v i →
  (∀ w', world_ok w' → abs (storage w') = <[x := Some v]> (abs (storage w)) →
    cursors w' = <[x := i]> (cursors w) → out (storage w') = out (storage w) → Q tt w') →
  wp (buffer_copy x y) Q w.
Proof.
  intros Hw Hfit Hx [Ha Hc] HQ. unfold buffer_copy. wp_step. eapply wp_cursors_of; [done|].
  wp_step. apply wp_modify. apply wp_on_storage. simpl.
  eapply wp_copy_ctor_value; [apply Hw|done|done|done|]. intros c' Hok' Habs Hout.
  apply HQ; try done. apply world_intro; [done| |].
  - by rewrite Habs, !dom_insert_L, (world_dom w).
  - intros z u j. rewrite Habs. destruct (decide (z = x)) as [->|Hne].
    + rewrite !lookup_insert_eq. intros [= <-] [= <-]. by eapply wo_indices.
    + rewrite !lookup_insert_ne by done. apply Hw.
Qed.

Lemma wp_buffer_destroy x o Q w :
  world_ok w → fits (storage w) → abs (storage w) !! x = Some o →
  (∀ w', world_ok w' → abs (storage w') = delete x (abs (storage w)) →
    cursors w' = delete x (cursors w) → out (storage w') = out (storage w) → Q tt w') →
  wp (buffer_destroy x) Q w.
Proof.
  intros Hw Hfit Hx HQ. unfold buffer_destroy. wp_step. apply wp_on_storage.
  eapply wp_destruct_value; [apply Hw|done|done|]. intros c' Hok' Habs Hout. apply wp_modify.
  apply HQ; try done. apply world_intro; [done| |]; simpl.
  - by rewrite Habs, !dom_delete_L, (world_dom w).
  - intros z u j. rewrite Habs. intros [_ H1]%lookup_delete_Some [_ H2]%lookup_delete_Some.
    by eapply wo_indices.
Qed.

(** Without buffers, memory is what the client has. *)
Lemma world_empty w : world_ok w → abs (storage w) = ∅ → m_blocks (ext (storage w)) = out (storage w).
Proof.
  intros Hw Habs. destruct (cow_ok_no_leak (storage w)) as [_ He]; [apply Hw| |].
  { intros y v. by rewrite Habs. }
  apply map_eq. intros b. apply option_eq. intros cs. unfold out. simpl.
  rewrite client_mem_lookup, elem_of_owned, He. split; [|naive_solver].
  intros Hb. split; [done|]. intros (e & s & Hes & _). by rewrite lookup_empty in Hes.
Qed.

(** After a special member: the values of all buffers and their cursors. *)
Definition becomes w (a : gmap positive (option (list cell))) (cs : gmap positive indices) (w' : world) : Prop :=
  world_ok w' ∧ abs (storage w') = a ∧ cursors w' = cs ∧ out (storage w') = out (storage w).

Lemma becomes_intro w c' a cs : cow_ok c' → abs c' = a → out c' = out (storage w) → dom cs = dom a →
  (∀ x v i, a !! x = Some (Some v) → cs !! x = Some i → indices_ok v i) → becomes w a cs (mkWorld c' cs).
Proof. intros Hok <- Hout Hd Hi. split_and!; [by apply world_intro|done..]. Qed.

(** Memberwise assignment takes the contents and the cursors of the source, moving
    leaves the source without a block but with its cursors. *)
Lemma wp_buffer_assign x y o v i w :
  world_ok w → fits (storage w) → abs (storage w) !! x = Some o → buffer_at w y v i →
  wp (buffer_assign x y) (λ _, becomes w (<[x := Some v]> (abs (storage w))) (<[x := i]> (cursors w))) w.
Proof.
  intros Hw Hfit Hx [Ha Hc]. unfold buffer_assign. wp_step. eapply wp_cursors_of; [done|].
  wp_step. apply wp_modify. apply wp_on_storage. simpl.
  eapply wp_copy_assign_value; [apply Hw|done|done|done|by right|]. intros c' Hok' Habs Hout.
  apply becomes_intro; [done..|by rewrite !dom_insert_L, (world_dom w)|].
  intros z u j. rewrite !lookup_insert_Some.
  intros [[<- [= <-]]|[? Hv1]] [[? <-]|[? Hv2]]; try done; by eapply wo_indices.
Qed.

Lemma wp_buffer_move x y o i w :
  world_ok w → abs (storage w) !! x = None → abs (storage w) !! y = Some o → cursors w !! y = Some i →
  wp (buffer_move x y) (λ _, becomes w (<[y := None]> (<[x := o]> (abs (storage w))))
    (<[x := i]> (cursors w))) w.
Proof.
  intros Hw Hx Ha Hc. assert (x ≠ y) by congruence.
  assert (y ∈ dom (abs (storage w))) by by apply elem_of_dom.
  unfold buffer_move. wp_step. eapply wp_cursors_of; [done|].
  wp_step. apply wp_modify. apply wp_on_storage. simpl.
  eapply wp_move_ctor_value; [apply Hw|done|done|]. intros c' Hok' Habs Hout.
  apply becomes_intro; [done..| |].
  - rewrite !dom_insert_L, (world_dom w) by done. set_solver.
  - intros z u j. rewrite !lookup_insert_Some.
    intros [[_ ?]|[? [[<- ->]|[? Hv1]]]] [[? <-]|[? Hv2]]; try done; by eapply wo_indices.
Qed.

Lemma wp_buffer_move_assign x y o o' i w :
  world_ok w → fits (storage w) → abs (storage w) !! x = Some o → abs (storage w) !! y = Some o' →
  cursors w !! y = Some i →
  wp (buffer_move_assign x y) (λ _, becomes w
    (if decide (x = y) then abs (storage w) else <[x := o']> (<[y := None]> (abs (storage w))))
    (<[x := i]> (cursors w))) w.
Proof.
  intros Hw Hfit Hx Ha Hc. unfold buffer_move_assign. wp_step. eapply wp_cursors_of; [done|].
  wp_step. apply wp_modify. apply wp_on_storage. simpl.
  assert (x ∈ dom (abs (storage w)) ∧ y ∈ dom (abs (storage w))) as [??] by by split; apply elem_of_dom.
  eapply wp_move_assign_value; [apply Hw|done|done|done|]. intros c' Hok' Habs Hout.
  apply becomes_intro; [done..| |].
  - rewrite dom_insert_L, (world_dom w) by done. case_decide; rewrite ?dom_insert_L; set_solver.
  - intros z u j. case_decide; rewrite !lookup_insert_Some.
    + subst y. intros Hv1 [[<- <-]|[? Hv2]]; by eapply wo_indices.
    + intros [[<- ->]|[? [[? ?]|[? Hv1]]]] [[? <-]|[? Hv2]]; try done; by eapply wo_indices.
Qed.

Inductive special :=
| New (x : positive) (a : ByteBufferAllocator) (cap : Z)
| Copy (x y : positive)
| Move_ (x y : positive)
| Assign (x y : positive)
| MoveAssign_ (x y : positive)
| Destroy (x : positive).

Definition exec_special (o : special) : bprog unit :=
  match o with
  | New x a cap => buffer_new x a cap
  | Copy x y => buffer_copy x y
  | Move_ x y => buffer_move x y
  | Assign x y => buffer_assign x y
  | MoveAssign_ x y => buffer_move_assign x y
  | Destroy x => buffer_destroy x
  end.

(** What each special member does to the values [a] and the cursors [cs]. *)
Inductive special_spec (a : gmap positive (option (list cell))) (cs : gmap positive indices) :
    special → gmap positive (option (list cell)) → gmap positive indices → Prop :=
| sp_new x al cap v : AllocatorLaws al → 0 ≤ cap ≤ SIZE_MAX → a !! x = None →
    v = [] ∨ Z.of_nat (length v) = nextPowerOf2ClampedToMax cap →
    special_spec a cs (New x al cap) (<[x := Some v]> a) (<[x := mkIndices 0 0]> cs)
| sp_copy x y v i : a !! x = None → a !! y = Some (Some v) → cs !! y = Some i →
    special_spec a cs (Copy x y) (<[x := Some v]> a) (<[x := i]> cs)
| sp_move x y o i : a !! x = None → a !! y = Some o → cs !! y = Some i →
    special_spec a cs (Move_ x y) (<[y := None]> (<[x := o]> a)) (<[x := i]> cs)
| sp_assign x y o v i : a !! x = Some o → a !! y = Some (Some v) → cs !! y = Some i →
    special_spec a cs (Assign x y) (<[x := Some v]> a) (<[x := i]> cs)
| sp_move_assign x y o o' i : a !! x = Some o → a !! y = Some o' → cs !! y = Some i →
    special_spec a cs (MoveAssign_ x y)
      (if decide (x = y) then a else <[x := o']> (<[y := None]> a)) (<[x := i]> cs)
| sp_destroy x o : a !! x = Some o → special_spec a cs (Destroy x) (delete x a) (delete x cs).

Lemma special_ok o w :
  world_ok w → fits (storage w) → (∃ a cs, special_spec (abs (storage w)) (cursors w) o a cs) →
  wp (exec_special o) (λ _ w', ∃ a cs, special_spec (abs (storage w)) (cursors w) o a cs ∧
    becomes w a cs w') w.
Proof.
  intros Hw Hfit (a & cs & Hs). inversion Hs; subst; simpl.
  - eapply wp_buffer_new; [done..|]. intros w' v' Hok' Hv Habs Hcur Hout.
    do 2 eexists. split; [by eapply sp_new|done].
  - eapply wp_buffer_copy; [done|done|done|by split|]. intros w' Hok' Habs Hcur Hout.
    do 2 eexists. split; [exact Hs|done].
  - eapply wp_mono; [by eapply wp_buffer_move|]. eauto.
  - eapply wp_mono; [eapply wp_buffer_assign; [done|done|done|by split]|]. eauto.
  - eapply wp_mono; [by eapply wp_buffer_move_assign|]. eauto.
  - eapply wp_buffer_destroy; [done..|]. intros w' Hok' Habs Hcur Hout.
    do 2 eexists. split; [exact Hs|done].
Qed.

End ByteBuffer.
