(* ===== verification/BufferSpec.v ===== *)
(** * What [ByteBuffer] promises

    A buffer as a queue of bytes, its writes and reads on every branch, its
    special members, the memory it gives back, and what happens when the private
    copy of a shared buffer is refused. *)

From S2P Require Import Prelude CopyOnWrite CowSpec Memory Storage ByteBuffer.
Import Cow CowSpec Memory Storage ByteBuffer.

Module BufferSpec.
Implicit Types (w : world) (x y : positive) (v : list cell) (i : indices) (c : cow ByteBufferStorage mem).

(** ** A buffer as a queue of bytes *)

#[local] Arguments out : simpl never.

(** Reading memory that no buffer owns. *)
Definition client_load (cm : gmap positive (list cell)) (src : ptr) (n : Z) : option (list cell) :=
  load src n (mkMem cm 1 []).

Lemma client_load_ok c src n data : client_load (out c) src n = Some data →
  load src n (ext c) = Some data ∧ ∀ b off, src = Ptr b off → b ∉ owned (elems c).
Proof.
  intros Hl. unfold client_load in Hl. destruct src as [| |b off]; [done|done|].
  assert (∃ cs, out c !! b = Some cs) as [cs Hcs].
  { unfold load in Hl. cbn [m_blocks] in Hl. destruct (out c !! b); [by eexists|done]. }
  pose proof Hcs as [Hb Hno]%client_mem_lookup. split; [|by intros ? ? [= <- <-]].
  rewrite <- Hl. apply load_blocks. intros ? ? [= <- <-]. simpl. by rewrite Hcs, Hb.
Qed.

Lemma client_source_ok c x src n k data :
  client_load (out c) src n = Some data → source_ok c x src n k.
Proof.
  intros [_ Hno]%client_load_ok _ t (e & _ & He) b off Hsrc Hb. exfalso.
  apply (Hno b off Hsrc). apply elem_of_owned. by exists e, t.
Qed.

Lemma not_shared_served c x : ¬ shared c x → copy_served c x.
Proof. by intros Hn Hs. Qed.

Inductive qop :=
| QWrite (src : ptr) (size : Z)
| QReadString (size : Z)
| QSkip (size : Z)
| QDiscard
| QClear
| QReadable.

Inductive qres :=
| RCount (n : Z)
| RBytes (l : list cell)
| RUnit.

Definition exec_q x (o : qop) : bprog qres :=
  match o with
  | QWrite src size => n ← writeBytes x src size; mret (RCount n)
  | QReadString size => l ← readString x size; mret (RBytes l)
  | QSkip size => n ← skipBytes x size; mret (RCount n)
  | QDiscard => discardReadBytes x;; mret RUnit
  | QClear => clear x;; mret RUnit
  | QReadable => n ← readableBytes x; mret (RCount n)
  end.

Fixpoint exec_qs x (os : list qop) : bprog (list qres) :=
  match os with
  | [] => mret []
  | o :: os => r ← exec_q x o; rs ← exec_qs x os; mret (r :: rs)
  end.

(** The queue of unread bytes: a write appends all its bytes or, when the
    allocator refuses, none; a read takes a prefix. *)
Inductive q_step (cm : gmap positive (list cell)) : qop → list cell → qres → list cell → Prop :=
| q_write src size data q : client_load cm src size = Some data →
    q_step cm (QWrite src size) q (RCount size) (q ++ data)
| q_refused src size q : q_step cm (QWrite src size) q (RCount 0) q
| q_read size q :
    q_step cm (QReadString size) q (RBytes (take (Z.to_nat size) q)) (drop (Z.to_nat size) q)
| q_skip size q :
    q_step cm (QSkip size) q (RCount (Z.min size (Z.of_nat (length q)))) (drop (Z.to_nat size) q)
| q_discard q : q_step cm QDiscard q RUnit q
| q_clear q : q_step cm QClear q RUnit []
| q_readable q : q_step cm QReadable q (RCount (Z.of_nat (length q))) q.

Inductive q_steps (cm : gmap positive (list cell)) : list qop → list cell → list qres → list cell → Prop :=
| q_nil q : q_steps cm [] q [] q
| q_cons o os q r q' rs q'' : q_step cm o q r q' → q_steps cm os q' rs q'' →
    q_steps cm (o :: os) q (r :: rs) q''.

(** Sources are readable client memory and sizes fit a [size_t]. *)
Definition q_legal (cm : gmap positive (list cell)) (o : qop) : Prop :=
  match o with
  | QWrite src size => 0 ≤ size ≤ SIZE_MAX ∧ is_Some (client_load cm src size)
  | QReadString size | QSkip size => 0 ≤ size ≤ SIZE_MAX
  | _ => True
  end.

(** [x] is a live buffer that shares its block with nobody, and [q] is what it
    has left to read. *)
Record queue_at x (q : list cell) w : Prop := {
  qa_ok : world_ok w;
  qa_fits : fits (storage w);
  qa_sole : ¬ shared (storage w) x;
  qa_at : ∃ v i, buffer_at w x v i ∧ readable v i = q;
}.

Lemma update_queue x v0 i0 v i q w w' :
  queue_at x q w → buffer_at w x v0 i0 → buffer_update x v i w w' → queue_at x (readable v i) w'.
Proof.
  intros [Hok Hfit Hsole _] Hx Hu. split; [by eapply bu_ok|by eapply update_fits|by eapply bu_sole|].
  exists v, i. split; [by eapply update_at|done].
Qed.

(** Taking as many bytes as there are, or as many as were asked for. *)
Lemma take_min_length {A} n (q : list A) : 0 ≤ n →
  take (Z.to_nat (Z.min n (Z.of_nat (length q)))) q = take (Z.to_nat n) q ∧
  drop (Z.to_nat (Z.min n (Z.of_nat (length q)))) q = drop (Z.to_nat n) q.
Proof.
  intros Hn. destruct (Z.min_spec n (Z.of_nat (length q))) as [[_ ->]|[Hle ->]]; [done|].
  rewrite Nat2Z.id, firstn_all, drop_all, take_ge, drop_ge by lia. done.
Qed.

Lemma exec_q_ok x o q w :
  queue_at x q w → q_legal (out (storage w)) o →
  wp (exec_q x o) (λ r w', ∃ q', queue_at x q' w' ∧ q_step (out (storage w)) o q r q' ∧
    out (storage w') = out (storage w)) w.
Proof.
  intros Hq Hl. pose proof Hq as [Hok Hfit Hsole (v & i & Hx & <-)].
  destruct (buffer_at_ok _ _ _ _ Hok Hx) as [Hi Hmax].
  pose proof (length_readable v i Hi) as Hlen. pose proof Hi as [Hr Hk].
  destruct o as [src size|size|size| | |]; simpl in *.
  - destruct Hl as [Hs [data Hdata]]. pose proof (client_load_ok _ _ _ _ Hdata) as [Hload _].
    wp_step. eapply (wp_writeBytes x v i src size data); try done.
    + by apply not_shared_served.
    + by eapply client_source_ok.
    + intros w' Hu _. apply wp_ret. exists (readable v i).
      split_and!; [by eapply update_queue|constructor|by eapply bu_client].
    + intros w' v' Hu _ Hcont _. apply wp_ret. eexists. split_and!; [by eapply update_queue| |by eapply bu_client].
      rewrite (readable_write v v' i size data) by (done || lia). by constructor.
  - wp_step. eapply wp_readString; [done|done|lia|]. intros n Hu. apply wp_ret.
    eexists. split_and!; [by eapply update_queue| |by eapply bu_client].
    rewrite readable_consume by lia. subst n. rewrite <- Hlen.
    destruct (take_min_length size (readable v i)) as [-> ->]; [lia|]. constructor.
  - wp_step. eapply wp_skipBytes; [done|done|lia|]. intros n Hu. apply wp_ret.
    eexists. split_and!; [by eapply update_queue| |by eapply bu_client].
    rewrite readable_consume by lia. subst n. rewrite <- Hlen.
    destruct (take_min_length size (readable v i)) as [_ ->]; [lia|]. constructor.
  - wp_step. eapply wp_discardReadBytes; [done|done|done|intros _; by apply not_shared_served|].
    intros w' v' Hu _ Hread. apply wp_ret. eexists.
    split_and!; [by eapply update_queue| |by eapply bu_client]. rewrite Hread. constructor.
  - wp_step. eapply wp_clear; [done|done|]. intros Hu. apply wp_ret. eexists.
    split_and!; [by eapply update_queue| |by eapply bu_client]. constructor.
  - wp_step. eapply wp_readableBytes; [apply Hx|lia|lia|]. apply wp_ret.
    exists (readable v i). split_and!; [done| |done]. rewrite <- Hlen. constructor.
Qed.

Lemma exec_qs_ok x os q w :
  queue_at x q w → Forall (q_legal (out (storage w))) os →
  wp (exec_qs x os) (λ rs w', ∃ q', queue_at x q' w' ∧ q_steps (out (storage w)) os q rs q' ∧
    out (storage w') = out (storage w)) w.
Proof.
  revert q w. induction os as [|o os IH]; intros q w Hq Hl; simpl.
  { apply wp_ret. exists q. split_and!; [done|constructor|done]. }
  apply Forall_cons in Hl as [Ho Hl]. wp_step. eapply wp_mono; [by apply exec_q_ok|].
  intros r w1 (q1 & Hq1 & Hs1 & Hout1). wp_step. rewrite <- Hout1 in Hl.
  eapply wp_mono; [by apply IH|]. intros rs w2 (q2 & Hq2 & Hs2 & Hout2). apply wp_ret.
  exists q2. rewrite Hout1 in *. split_and!; [done|by econstructor|done].
Qed.

(** ** The properties *)

(** [data] was appended to [x], or nothing because there was no room for it. *)
Definition appended x v i (size : Z) (data : list cell) w (n : Z) (w' : world) : Prop :=
  ∃ v', buffer_update x v' (mkIndices (readerIndex i) (writerIndex i + n)) w w' ∧
    readable v' (mkIndices (readerIndex i) (writerIndex i + n)) = readable v i ++ take (Z.to_nat n) data ∧
    (n = size ∨ (n = 0 ∧ v' = v ∧ Z.of_nat (length v) < writerIndex i + size)) ∧
    (∀ y u j, y ≠ x → buffer_at w' y u j ↔ buffer_at w y u j).

Lemma wp_writeBytes_appended x v i src size data w :
  world_ok w → fits (storage w) → buffer_at w x v i → copy_served (storage w) x →
  0 ≤ size ≤ SIZE_MAX → load src size (ext (storage w)) = Some data →
  source_ok (storage w) x src size (writerIndex i) →
  wp (writeBytes x src size) (appended x v i size data w) w.
Proof.
  intros Hw Hfit Hx Hserved Hsize Hload Hsrc. destruct (buffer_at_ok _ _ _ _ Hw Hx) as [Hi _].
  pose proof (load_length _ _ _ _ (proj1 Hsize) Hload) as Hdl.
  eapply (wp_writeBytes x v i src size data); try done.
  - intros w' Hu Hwhy. exists v. rewrite Z.add_0_r, take_0, app_nil_r.
    replace (mkIndices _ _) with i by by destruct i.
    split_and!; [done|done| |intros; by eapply update_other].
    destruct Hwhy as [->|?]; [by left|by right].
  - intros w' v' Hu Hpos Hcont _. exists v'.
    split_and!; [done| |by left|intros; by eapply update_other].
    rewrite take_ge by lia. apply readable_write; [done|lia|done].
Qed.

Lemma cstring_length_chars chars tl : Byte.x00 ∉ chars →
  cstring_length (Some <$> chars ++ Byte.x00 :: tl) = Some (Z.of_nat (length chars)).
Proof.
  induction chars as [|ch chars IH]; intros Hno; [done|].
  rewrite not_elem_of_cons in Hno. destruct Hno as [Hne Hno].
  transitivity (n ← cstring_length (Some <$> chars ++ Byte.x00 :: tl); Some (n + 1)).
  - simpl. by rewrite decide_False by congruence.
  - rewrite IH by done. simpl. f_equal. lia.
Qed.


(** A buffer that shares its block with nobody is a queue of bytes.  Any
    sequence of writes from client memory, [readString], [skipBytes],
    [discardReadBytes], [clear] and [readableBytes], over any allocator that
    keeps its contract and refuses what it likes, runs without a fault and gives
    the results of a queue: a write appends all its bytes, or none and returns
    0; a read takes a prefix; discarding read bytes is not observable.  Client
    memory is untouched. *)
Theorem buffer_refines_queue x os q w :
  queue_at x q w → Forall (q_legal (out (storage w))) os →
  wp (exec_qs x os) (λ rs w', ∃ q', queue_at x q' w' ∧ q_steps (out (storage w)) os q rs q' ∧
    out (storage w') = out (storage w)) w.
Proof. apply exec_qs_ok. Qed.

(** [writeBytes] on any buffer, shared or not, whose private copy is served
    if it needs one.  The bytes are appended to what can be read, or, only when
    they do not fit in the capacity, the allocation is refused and nothing is
    written; the writer cursor moves by the returned count; no other buffer and
    no client memory changes. *)
Theorem writeBytes_correct x v i src size data w :
  world_ok w → fits (storage w) → buffer_at w x v i → copy_served (storage w) x →
  0 ≤ size ≤ SIZE_MAX → load src size (ext (storage w)) = Some data →
  source_ok (storage w) x src size (writerIndex i) →
  wp (writeBytes x src size) (appended x v i size data w) w.
Proof. apply wp_writeBytes_appended. Qed.

(** [writeCString] writes the characters before the terminating NUL, as
    [writeBytes] does, and nothing of what follows it; a null pointer writes
    nothing at all. *)
Theorem writeCString_correct x v i p b off cs chars tl w :
  world_ok w → fits (storage w) → buffer_at w x v i → copy_served (storage w) x →
  p = Ptr b (Z.of_nat off) → m_blocks (ext (storage w)) !! b = Some cs →
  drop off cs = Some <$> chars ++ Byte.x00 :: tl → Byte.x00 ∉ chars →
  Z.of_nat (length chars) ≤ SIZE_MAX →
  source_ok (storage w) x p (Z.of_nat (length chars)) (writerIndex i) →
  wp (writeCString x p) (appended x v i (Z.of_nat (length chars)) (Some <$> chars) w) w ∧
  wp (writeCString x Null) (λ n w', n = 0 ∧ w' = w) w.
Proof.
  intros Hw Hfit Hx Hserved -> Hb Hcs Hnul Hmax Hsrc. split; [|done].
  unfold writeCString. simpl. wp_step. apply wp_on_storage. unfold in_ext. wp_step. unfold strlen.
  wp_step. wp_step. wp_step. eapply wp_of_option; [exact Hb|].
  destruct (Z.leb_spec 0 (Z.of_nat off)); [|lia]. rewrite Nat2Z.id.
  eapply wp_of_option; [exact (eq_trans (f_equal cstring_length Hcs) (cstring_length_chars chars tl Hnul))|].
  rewrite set_ext_id, world_eta. apply wp_writeBytes_appended; try done; [lia|].
  assert (off + length chars ≤ length cs)%nat.
  { apply (f_equal length) in Hcs. rewrite length_drop, length_fmap, length_app in Hcs. simpl in Hcs. lia. }
  rewrite (load_slice b off _ _ cs) by done. apply (f_equal Some).
  etransitivity; [exact (f_equal (take (length chars)) Hcs)|]. rewrite fmap_app.
  apply take_app_length'. by rewrite length_fmap.
Qed.

(** [readBytes] into client memory returns [min(size, readableBytes())],
    stores exactly that prefix of the readable bytes at the destination, moves
    the reader cursor past it, and changes no buffer's contents, shared or not. *)
Theorem readBytes_correct x v i dst size m1 w :
  world_ok w → buffer_at w x v i → 0 ≤ size → dst ≠ Null →
  (∀ b off, dst = Ptr b off → b ∉ owned (elems (storage w))) →
  store dst (take (Z.to_nat size) (readable v i)) (ext (storage w)) = Some m1 →
  wp (readBytes x dst size) (λ n w', n = Z.min size (writerIndex i - readerIndex i) ∧ world_ok w' ∧
    abs (storage w') = abs (storage w) ∧ cursors w' = <[x := consume n i]> (cursors w) ∧
    readable v (consume n i) = drop (Z.to_nat n) (readable v i) ∧
    (0 < n → m_blocks (ext (storage w')) = m_blocks m1)) w.
Proof.
  intros Hw Hx Hs Hnull Hdst Hst. destruct (buffer_at_ok _ _ _ _ Hw Hx) as [Hi _].
  pose proof (length_readable v i Hi) as Hlen. pose proof Hi as [Hr Hk].
  eapply (wp_readBytes x v i dst size m1); try done. intros n. split.
  - intros _. subst n. rewrite <- Hlen. by destruct (take_min_length size (readable v i)) as [-> _].
  - intros w' Hok' Habs Hcur Hmem _. split_and!; try done.
    + apply readable_consume; lia.
    + intros Hpos. by rewrite (proj2 (Z.eqb_neq n 0)) in Hmem by lia.
Qed.

(** C9: what was written is what is read.  On any buffer, shared or not, whose
    private copy is served if it needs one ([copy_served]), from a readable source
    that does not lie in a block the write may free ([source_ok]): write some
    bytes, skip what could be read before, and read as many bytes as were to be
    written.  The bytes come back exactly as they were given and nothing is left
    to read, or the write had been refused for want of room and nothing is read.
    No other buffer changes. *)
Theorem write_read_roundtrip x v i src size data w :
  world_ok w → fits (storage w) → buffer_at w x v i → copy_served (storage w) x →
  0 ≤ size ≤ SIZE_MAX → load src size (ext (storage w)) = Some data →
  source_ok (storage w) x src size (writerIndex i) →
  wp (n ← writeBytes x src size;
      skipBytes x (writerIndex i - readerIndex i);;
      string ← readString x size;
      rest ← readableBytes x;
      mret (n, string, rest))
    (λ '(n, string, rest) w', rest = 0 ∧
      ((n = size ∧ string = data) ∨ (n = 0 ∧ string = [] ∧ Z.of_nat (length v) < writerIndex i + size)) ∧
      (∀ y u j, y ≠ x → buffer_at w' y u j ↔ buffer_at w y u j)) w.
Proof.
  intros Hw Hfit Hx Hserved Hsize Hload Hsrc.
  destruct (buffer_at_ok _ _ _ _ Hw Hx) as [Hi Hmax]. pose proof Hi as [Hr Hk].
  pose proof (load_length _ _ _ _ (proj1 Hsize) Hload) as Hdl.
  pose proof (length_readable v i Hi) as Hlen.
  wp_step. eapply wp_mono; [by eapply wp_writeBytes_appended|].
  intros n w1 (v' & Hu1 & Hread & Hn & Hother).
  pose proof (update_at _ _ _ _ _ Hu1) as Hx1.
  assert (0 ≤ n ≤ size) as Hn0 by lia.
  destruct (buffer_at_ok _ _ _ _ (bu_ok _ _ _ _ _ Hu1) Hx1) as [[_ Hk1] Hmax1]. simpl in Hk1.
  set (i1 := mkIndices (readerIndex i) (writerIndex i + n)) in *.
  wp_step. eapply (wp_skipBytes x v' i1); [apply Hu1|done|lia|]. intros m Hu2.
  assert (m = writerIndex i - readerIndex i) as -> by (unfold m, i1; simpl; lia).
  pose proof (update_at _ _ _ _ _ Hu2) as Hx2. set (w2 := with_cursors x _ w1) in *.
  wp_step. eapply (wp_readString x v'); [apply Hu2|done|lia|]. intros m Hu3.
  assert (m = n) as -> by (unfold m, i1; simpl; lia).
  pose proof (update_at _ _ _ _ _ Hu3) as [_ Hc3].
  wp_step. eapply wp_readableBytes; [done|simpl; lia|simpl; lia|]. apply wp_ret.
  split; [simpl; lia|]. rewrite readable_consume, Hread, drop_app_length' by (simpl; lia).
  rewrite take_take, Nat.min_id. split.
  - destruct Hn as [->|(-> & _ & Hfull)]; [left|right; by rewrite take_0].
    split; [done|]. by rewrite take_ge by lia.
  - intros y u j Hy. rewrite (update_other _ _ _ _ _ _ _ _ Hu3 Hy), (update_other _ _ _ _ _ _ _ _ Hu2 Hy).
    by apply Hother.
Qed.

(** [discardReadBytes] moves the readable bytes to the front of the block:
    the reader cursor becomes 0, what can be read stays the same, the capacity
    stays the same (nothing is reallocated), so the discarded bytes become
    writable; no other buffer changes, even when the block was shared. *)
Theorem discardReadBytes_correct x v i w :
  world_ok w → fits (storage w) → buffer_at w x v i → copy_served (storage w) x →
  wp (discardReadBytes x) (λ _ w', ∃ v',
    let i' := mkIndices 0 (writerIndex i - readerIndex i) in
    buffer_update x v' i' w w' ∧ readable v' i' = readable v i ∧ length v' = length v ∧
    (∀ y u j, y ≠ x → buffer_at w' y u j ↔ buffer_at w y u j)) w.
Proof.
  intros Hw Hfit Hx Hserved. eapply wp_discardReadBytes; [done..|].
  intros w' v' Hu Hlen Hread. exists v'. split_and!; try done. intros. by eapply update_other.
Qed.

(** Destroying the last buffer gives all its memory back: what is left in
    memory is what the client had. *)
Theorem buffer_destroy_frees x o w :
  world_ok w → fits (storage w) → abs (storage w) = {[x := o]} →
  wp (buffer_destroy x) (λ _ w', m_blocks (ext (storage w')) = out (storage w) ∧
    cursors w' = ∅) w.
Proof.
  intros Hw Hfit Hx. eapply wp_buffer_destroy; [done|done|by rewrite Hx; apply lookup_singleton_eq|].
  intros w' Hok' Habs Hcur Hout. rewrite Hx, delete_singleton_eq in Habs. split.
  - rewrite <- Hout. by apply world_empty.
  - apply dom_empty_iff_L. by rewrite (world_dom _ Hok'), Habs, dom_empty_L.
Qed.

(** The special members of [ByteBuffer].  Construction, copies, moves,
    assignments (of a buffer to itself too) and destruction run without a fault
    and do to contents and cursors what they do to independent values, whatever
    blocks the buffers share; cursors stay within their bounds and client memory
    is untouched. *)
Theorem special_members_correct o w :
  world_ok w → fits (storage w) → (∃ a cs, special_spec (abs (storage w)) (cursors w) o a cs) →
  wp (exec_special o) (λ _ w', ∃ a cs, special_spec (abs (storage w)) (cursors w) o a cs ∧
    world_ok w' ∧ abs (storage w') = a ∧ cursors w' = cs ∧ out (storage w') = out (storage w)) w.
Proof. apply special_ok. Qed.

(** The allocator refuses the private copy that a shared buffer needs. *)
Definition copy_refused c x : Prop :=
  shared c x ∧ ∀ t t' m', element_of c x t → storage_copy t (ext c) = Done t' m' →
    Storage.bytes t' = Null.

Lemma copy_refused_empty c x v v' : copy_refused c x → unshared c x v v' → v' = [].
Proof.
  intros [Hsh Href] [Hns|t t' m' _ _ Hel Hrun ->]; [done|]. specialize (Href _ _ _ Hel Hrun).
  simpl. unfold contents, storage_block. by rewrite Href.
Qed.

(** C35: A write to a shared buffer with something in it, when the private copy
    is refused: the buffer is left with an empty block but keeps its cursors, so
    even a write of nothing fails the assertion that the writer cursor is within
    the capacity, where [ByteBuffer.h] announces a short write. *)
Theorem failed_copy_aborts x v i src size w :
  world_ok w → fits (storage w) → buffer_at w x v i → 0 < writerIndex i →
  copy_refused (storage w) x → src = Null ∨ size = 0 →
  halts (writeBytes x src size) FAssert w.
Proof.
  intros Hw Hfit Hx Hpos Href Hsrc. destruct (buffer_at_ok _ _ _ _ Hw Hx) as [[Hr Hk] Hmax].
  destruct Hx as [Ha Hc]. unfold writeBytes.
  apply halts_bind_r. eapply wp_getWriterIndex; [done|].
  apply halts_bind_r. apply wp_on_storage. wp_step.
  eapply wp_unique_value; [apply Hw|done|done|].
  intros e t c1 Hok1 Hex Ht Hun Habs _ _ _ _ _.
  apply (copy_refused_empty _ _ _ _ Href) in Hun. rewrite Hun in Habs.
  eapply wp_on_element_const; [done|]. apply wp_setBytes_nothing; [done|]. split; [done|].
  apply halts_bind_l. unfold moveWriterIndexForwardBy.
  apply halts_bind_r. eapply wp_getWriterIndex; [done|]. rewrite Z.add_0_r, to_size_id by lia.
  unfold moveWriterIndexTo. apply halts_bind_r.
  eapply wp_capacity; [done|simpl; rewrite Habs; apply lookup_insert_eq|]. simpl.
  apply halts_bind_l. unfold assert_.
  rewrite (proj2 (Z.leb_gt _ _)) by (simpl; lia). apply halts_stop.
Qed.

(** Contents of a block of which only [data] at [k] has been written. *)
Lemma readable_fresh i k size data n : 0 ≤ readerIndex i ≤ k → k = writerIndex i → 0 ≤ size →
  Z.of_nat (length data) = size → k + size ≤ Z.of_nat n →
  readable (splice (Z.to_nat k) data (uninit n)) (mkIndices (readerIndex i) (k + size)) =
    uninit (Z.to_nat (k - readerIndex i)) ++ data.
Proof.
  intros Hr Hk Hs Hl Hn. rewrite readable_alt by (simpl; lia). simpl.
  replace (Z.to_nat (k + size)) with (Z.to_nat k + length data)%nat by lia.
  unfold uninit. rewrite take_splice_data by (rewrite length_replicate; lia).
  rewrite take_replicate, Nat.min_l by lia.
  rewrite drop_app_le by (rewrite length_replicate; lia). rewrite drop_replicate. do 2 f_equal. lia.
Qed.

(** C36: a write to any buffer that shares its block, over the default allocator:
    when the private copy is refused and the allocation that follows is served,
    [writeBytes] reports success and appends its bytes, but the bytes that were
    waiting to be read have become indeterminate. *)
Theorem failed_copy_loses_bytes x v i src size data ds w :
  world_ok w → fits (storage w) → buffer_at w x v i → 0 < writerIndex i →
  shared (storage w) x → (∀ t, element_of (storage w) x t → allocator t = default_allocator) →
  m_plan (ext (storage w)) = Refuse :: ds → head ds ≠ Some Refuse →
  0 < size ≤ SIZE_MAX - writerIndex i → load src size (ext (storage w)) = Some data →
  wp (writeBytes x src size) (λ n w', n = size ∧ ∃ v',
    let i' := mkIndices (readerIndex i) (writerIndex i + size) in
    buffer_update x v' i' w w' ∧
    readable v' i' = uninit (Z.to_nat (writerIndex i - readerIndex i)) ++ data) w.
Proof.
  intros Hw Hfit Hx Hpos Hsh Hdef Hplan Hserved Hsize Hload.
  destruct (buffer_at_ok _ _ _ _ Hw Hx) as [[Hr Hk] Hmax]. pose proof Hx as [Ha Hc].
  pose proof (wo_cow _ Hw) as Hok. unfold writeBytes. wp_step. eapply wp_getWriterIndex; [done|].
  wp_step. apply wp_on_storage. wp_step. apply (wp_unique_made x v); [done..|].
  intros e t c1 Hok1 Hex Ht Hun Habs Hout Hdom _ _ Hfresh Hmade.
  destruct (Hmade Hsh) as (t0 & Ht0 & Hcopy). simpl in Hcopy.
  destruct (element_of_value _ _ _ _ Hok Ha Ht0) as [Hv0 Hok0].
  assert (Storage.bytes t0 ≠ Null) as Hb0.
  { intros Hn. unfold contents, storage_block in Hv0. rewrite Hn in Hv0. subst v. simpl in Hk. lia. }
  rewrite (storage_copy_refused t0 _ ds) in Hcopy by auto. injection Hcopy as <- Hm.
  pose proof (ok_pool _ Hok1) as Hp1. simpl in Hp1.
  eapply wp_mutate_value; [done|done|done|].
  assert (m_blocks (ext c1) = m_blocks (ext (storage w))) as Hblocks by by rewrite <- Hm.
  eapply (wp_setBytes_empty src size _ data); [apply Hp1|by rewrite <- Hm|lia..| |].
  { rewrite <- Hload. apply load_blocks. intros b off _. by rewrite Hblocks. }
  intros s' m' Hs' Hwf' Hrest Hcont. simpl.
  destruct (pool_update (elems c1) (ext c1) e _ s' m' Hp1 Ht Hs' Hwf' Hrest) as (Hp' & Hsv & Ho').
  split_and!; [done|done|]. intros c' Hok' Habs' Hr' Hout'.
  set (v' := contents s' m') in *. pose proof (load_length _ _ _ _ (Z.lt_le_incl _ _ (proj1 Hsize)) Hload) as Hl.
  destruct (nextPowerOf2_bounds (writerIndex i + size)) as [Hn _]; [lia|].
  assert (writerIndex i + size ≤ Z.of_nat (length v')) as Hroom.
  { rewrite Hcont, length_splice; unfold uninit; rewrite length_replicate; lia. }
  assert (abs c' = <[x := Some v']> (abs (storage w))) as Habs2 by by rewrite Habs', Habs, insert_insert_eq.
  wp_step. eapply (wp_moveWriterIndexForwardBy x v' i size); [done| |lia|lia|done|].
  { split; [|done]. simpl. by rewrite Habs2, lookup_insert_eq. }
  apply wp_ret. split; [done|]. exists v'. split.
  - apply (buffer_updated w x v i); [done|done|done|exact Habs2|exact (eq_trans Hout' (eq_trans Ho' Hout))|
      by simpl; rewrite Hr'|by intros []|].
    unfold indices_ok. simpl. lia.
  - rewrite Hcont. apply readable_fresh; lia.
Qed.

(** ** A client *)

(** Client memory: a C string and room for eight bytes. *)
Definition demo_text : list cell :=
  some_cells [x68; x65; x6c; x6c; x6f; x20; x77; x6f; x72; x6c; x64; x21; Byte.x00].
Definition demo_start (plan : list decision) : world :=
  mkWorld (cow_empty (mkMem {[1%positive := demo_text; 2%positive := uninit 8]} 3 plan)) ∅.

Definition run {A} (m : bprog A) (w : world) : world :=
  match m w with Done _ w' | Stop _ w' => w' end.

Lemma run_ok {A} (m : bprog A) (P : world → Prop) w : wp m (λ _ w', P w') w → P (run m w).
Proof. unfold wp, run. by destruct (m w). Qed.

(** A buffer that holds "hello", and the same with a second buffer sharing it. *)
Definition demo_new (plan : list decision) : world :=
  run (buffer_new 1 default_allocator 16) (demo_start plan).
Definition demo_one (plan : list decision) : world :=
  run (writeBytes 1 (Ptr 1 0) 5) (demo_new plan).
Definition demo_two (plan : list decision) : world := run (buffer_copy 2 1) (demo_one plan).

Definition demo_value : list cell := take 5 demo_text ++ uninit 11.
Definition demo_indices : indices := mkIndices 0 5.

Lemma demo_start_ok plan : world_ok (demo_start plan).
Proof.
  apply world_intro; [apply cow_empty_ok; split| |].
  - by apply mem_wf_check.
  - intros e s He. by rewrite lookup_empty in He.
  - intros e e' s s' b He. by rewrite lookup_empty in He.
  - done.
  - intros x v i Hx. by apply abs_lookup in Hx as (o & Ho & _).
Qed.

Lemma demo_new_ok plan : world_ok (demo_new plan).
Proof.
  apply (run_ok _ world_ok). eapply wp_buffer_new; [apply _|apply demo_start_ok|done|unfold SIZE_MAX; lia|auto].
Qed.

Lemma not_shared_one c x b : refs c !! x = Some (Some b) → ref_count b (refs c) = 1%nat → ¬ shared c x.
Proof. intros Hx H1 (b' & Hb' & Hm). simplify_eq. lia. Qed.

Lemma demo_new_at : buffer_at (demo_new []) 1 (uninit 16) (mkIndices 0 0).
Proof. split; vm_compute; reflexivity. Qed.

Lemma demo_new_queue : queue_at 1 [] (demo_new []).
Proof.
  split; [apply demo_new_ok|vm_compute; reflexivity|by eapply (not_shared_one _ _ 1)|].
  exists (uninit 16), (mkIndices 0 0). split; [apply demo_new_at|vm_compute; reflexivity].
Qed.

Lemma demo_load plan n : 0 ≤ n ≤ 13 →
  load (Ptr 1 0) n (ext (storage (demo_new plan))) = Some (take (Z.to_nat n) demo_text).
Proof.
  intros Hn. apply (load_at 1 0 n _ demo_text); [|lia|lia|simpl; lia].
  unfold demo_new, run. destruct plan as [|[| |] plan]; reflexivity.
Qed.

Definition demo_ops : list qop :=
  [QWrite (Ptr 1 0) 12; QReadString 5; QSkip 1; QDiscard; QReadable; QReadString 100; QClear].

Lemma demo_qops_legal : Forall (q_legal (out (storage (demo_new [])))) demo_ops.
Proof.
  repeat constructor; simpl; try (unfold SIZE_MAX; lia). exists (take 12 demo_text). reflexivity.
Qed.

(** What the sequence returns when nothing is refused. *)
Example demo_run : ∃ w', exec_qs 1 demo_ops (demo_new []) =
  Done [RCount 12; RBytes (some_cells [x68; x65; x6c; x6c; x6f]); RCount 1; RUnit; RCount 6;
        RBytes (some_cells [x77; x6f; x72; x6c; x64; x21]); RUnit] w'.
Proof. eexists. vm_compute. reflexivity. Qed.

Lemma demo_one_ok plan : world_ok (demo_one plan).
Proof.
  assert (buffer_at (demo_new plan) 1 (match plan with Refuse :: _ => [] | _ => uninit 16 end)
    (mkIndices 0 0)) as Hat.
  { destruct plan as [|[| |] plan]; split; reflexivity. }
  assert (¬ shared (storage (demo_new plan)) 1) as Hns.
  { destruct plan as [|[| |] plan]; by eapply (not_shared_one _ _ 1). }
  apply (run_ok _ world_ok).
  eapply (wp_writeBytes 1 _ _ (Ptr 1 0) 5 (take 5 demo_text) _ (demo_new plan)).
  - apply demo_new_ok.
  - destruct plan as [|[| |] plan]; reflexivity.
  - apply Hat.
  - by apply not_shared_served.
  - unfold SIZE_MAX. lia.
  - apply demo_load. lia.
  - apply (client_source_ok _ _ _ _ _ (take 5 demo_text)). destruct plan as [|[| |] plan]; reflexivity.
  - intros w' Hu _. by eapply bu_ok.
  - intros w' v' Hu _ _ _. by eapply bu_ok.
Qed.

Lemma demo_one_at plan : buffer_at (demo_one (Move :: plan)) 1 demo_value demo_indices.
Proof. split; reflexivity. Qed.

Lemma demo_two_ok plan : world_ok (demo_two (Move :: plan)).
Proof.
  apply (run_ok _ world_ok).
  eapply (wp_buffer_copy 2 1 _ _ _ (demo_one (Move :: plan)));
    [apply demo_one_ok|reflexivity|reflexivity|apply demo_one_at|auto].
Qed.

Lemma demo_two_at plan : buffer_at (demo_two (Move :: plan)) 2 demo_value demo_indices.
Proof. split; reflexivity. Qed.

Lemma demo_two_shared plan : shared (storage (demo_two (Move :: plan))) 2.
Proof. exists 1%positive. split; [reflexivity|]. vm_compute. lia. Qed.

Definition demo_storage : ByteBufferStorage := mkStorage (Ptr 3 0) 16 default_allocator.

Lemma demo_element plan t : element_of (storage (demo_two (Move :: plan))) 2 t → t = demo_storage.
Proof.
  intros (e & He & Ht). assert (e = 1%positive) as ->; [vm_compute in He; congruence|].
  assert (elems (storage (demo_two (Move :: plan))) !! 1%positive = Some demo_storage) as Hd
    by (vm_compute; reflexivity). congruence.
Qed.

Lemma demo_served : copy_served (storage (demo_two [Move])) 2.
Proof.
  intros _ t t' m' ->%demo_element Hrun.
  apply (f_equal (λ o, match o with Done s _ => Storage.bytes s | Stop _ _ => Null end)) in Hrun.
  cbv beta iota in Hrun. rewrite <- Hrun. by vm_compute.
Qed.

Lemma demo_refused plan : copy_refused (storage (demo_two (Move :: Refuse :: plan))) 2.
Proof.
  split; [apply demo_two_shared|]. intros t t' m' ->%demo_element Hrun.
  apply (f_equal (λ o, match o with Done s _ => Storage.bytes s | Stop _ _ => Null end)) in Hrun.
  cbv beta iota in Hrun. rewrite <- Hrun. by vm_compute.
Qed.

Lemma demo_client_2 plan : 2%positive ∉ owned (elems (storage (demo_two (Move :: plan)))).
Proof. apply (bool_decide_eq_true_1 (2%positive ∉ _)). vm_compute. reflexivity. Qed.

Lemma buffer_refines_queue_witness :
  wp (exec_qs 1 demo_ops) (λ rs w', ∃ q', queue_at 1 q' w' ∧
    q_steps (out (storage (demo_new []))) demo_ops [] rs q' ∧
    out (storage w') = out (storage (demo_new []))) (demo_new []).
Proof. apply (buffer_refines_queue 1 demo_ops [] (demo_new [])); [apply demo_new_queue|apply demo_qops_legal]. Defined.

(** The second buffer writes while it shares the block of the first. *)
Lemma writeBytes_correct_witness :
  wp (writeBytes 2 (Ptr 1 5) 7)
    (appended 2 demo_value demo_indices 7 (take 7 (drop 5 demo_text)) (demo_two [Move])) (demo_two [Move]).
Proof.
  apply (writeBytes_correct 2 demo_value demo_indices (Ptr 1 5) 7 (take 7 (drop 5 demo_text))).
  - apply demo_two_ok.
  - vm_compute. reflexivity.
  - apply demo_two_at.
  - apply demo_served.
  - vm_compute. split; discriminate.
  - vm_compute. reflexivity.
  - apply (client_source_ok _ _ _ _ _ (take 7 (drop 5 demo_text))). vm_compute. reflexivity.
Defined.

Lemma write_read_roundtrip_witness :
  wp (n ← writeBytes 2 (Ptr 1 5) 7; skipBytes 2 5;; string ← readString 2 7;
      rest ← readableBytes 2; mret (n, string, rest))
    (λ '(n, string, rest) w', rest = 0 ∧
      ((n = 7 ∧ string = take 7 (drop 5 demo_text)) ∨ (n = 0 ∧ string = [] ∧ 16 < 5 + 7)) ∧
      (∀ y u j, y ≠ 2%positive → buffer_at w' y u j ↔ buffer_at (demo_two [Move]) y u j)) (demo_two [Move]).
Proof.
  apply (write_read_roundtrip 2 demo_value demo_indices (Ptr 1 5) 7 (take 7 (drop 5 demo_text))).
  - apply demo_two_ok.
  - vm_compute. reflexivity.
  - apply demo_two_at.
  - apply demo_served.
  - vm_compute. split; discriminate.
  - vm_compute. reflexivity.
  - apply (client_source_ok _ _ _ _ _ (take 7 (drop 5 demo_text))). vm_compute. reflexivity.
Defined.

Lemma writeCString_correct_witness :
  wp (writeCString 2 (Ptr 1 6)) (appended 2 demo_value demo_indices 6
    (some_cells [x77; x6f; x72; x6c; x64; x21]) (demo_two [Move])) (demo_two [Move]) ∧
  wp (writeCString 2 Null) (λ n w', n = 0 ∧ w' = demo_two [Move]) (demo_two [Move]).
Proof.
  apply (writeCString_correct 2 demo_value demo_indices (Ptr 1 6) 1 6 demo_text
    [x77; x6f; x72; x6c; x64; x21] []).
  - apply demo_two_ok.
  - vm_compute. reflexivity.
  - apply demo_two_at.
  - apply demo_served.
  - reflexivity.
  - vm_compute. reflexivity.
  - reflexivity.
  - apply (bool_decide_eq_true_1 (Byte.x00 ∉ _)). vm_compute. reflexivity.
  - vm_compute. discriminate.
  - apply (client_source_ok _ _ _ _ _ (some_cells [x77; x6f; x72; x6c; x64; x21])). vm_compute. reflexivity.
Defined.

(** Memory with "hello" stored in the client's second block. *)
Definition demo_dst : mem :=
  Memory.set_blocks (<[2%positive := take 5 demo_text ++ uninit 3]>
    (m_blocks (ext (storage (demo_two [Move]))))) (ext (storage (demo_two [Move]))).

Lemma readBytes_correct_witness :
  wp (readBytes 2 (Ptr 2 0) 8) (λ n w',
    n = Z.min 8 (writerIndex demo_indices - readerIndex demo_indices) ∧ world_ok w' ∧
    abs (storage w') = abs (storage (demo_two [Move])) ∧
    cursors w' = <[2%positive := consume n demo_indices]> (cursors (demo_two [Move])) ∧
    readable demo_value (consume n demo_indices) = drop (Z.to_nat n) (readable demo_value demo_indices) ∧
    (0 < n → m_blocks (ext (storage w')) = m_blocks demo_dst)) (demo_two [Move]).
Proof.
  apply (readBytes_correct 2 demo_value demo_indices (Ptr 2 0) 8 demo_dst).
  - apply demo_two_ok.
  - apply demo_two_at.
  - lia.
  - discriminate.
  - intros b off [= <- <-]. apply demo_client_2.
  - vm_compute. reflexivity.
Defined.

Lemma discardReadBytes_correct_witness :
  wp (discardReadBytes 2) (λ _ w', ∃ v',
    let i' := mkIndices 0 5 in
    buffer_update 2 v' i' (demo_two [Move]) w' ∧ readable v' i' = readable demo_value demo_indices ∧
    length v' = length demo_value ∧
    (∀ y u j, y ≠ 2%positive → buffer_at w' y u j ↔ buffer_at (demo_two [Move]) y u j)) (demo_two [Move]).
Proof.
  apply (discardReadBytes_correct 2 demo_value demo_indices).
  - apply demo_two_ok.
  - vm_compute. reflexivity.
  - apply demo_two_at.
  - apply demo_served.
Defined.

Lemma buffer_destroy_frees_witness :
  wp (buffer_destroy 1) (λ _ w', m_blocks (ext (storage w')) = out (storage (demo_one [Move])) ∧
    cursors w' = ∅) (demo_one [Move]).
Proof.
  apply (buffer_destroy_frees 1 (Some demo_value)).
  - apply demo_one_ok.
  - vm_compute. reflexivity.
  - vm_compute. reflexivity.
Defined.

Lemma special_members_correct_witness :
  wp (exec_special (MoveAssign_ 1 2)) (λ _ w', ∃ a cs,
    special_spec (abs (storage (demo_two [Move]))) (cursors (demo_two [Move])) (MoveAssign_ 1 2) a cs ∧
    world_ok w' ∧ abs (storage w') = a ∧ cursors w' = cs ∧
    out (storage w') = out (storage (demo_two [Move]))) (demo_two [Move]).
Proof.
  apply (special_members_correct (MoveAssign_ 1 2) (demo_two [Move])).
  - apply demo_two_ok.
  - vm_compute. reflexivity.
  - do 2 eexists. apply (sp_move_assign _ _ 1 2 (Some demo_value) (Some demo_value) demo_indices);
      vm_compute; reflexivity.
Defined.

Lemma failed_copy_aborts_witness :
  halts (writeBytes 2 (Ptr 1 0) 0) FAssert (demo_two [Move; Refuse]).
Proof.
  apply (failed_copy_aborts 2 demo_value demo_indices).
  - apply demo_two_ok.
  - vm_compute. reflexivity.
  - apply demo_two_at.
  - reflexivity.
  - apply demo_refused.
  - by right.
Defined.

Lemma failed_copy_loses_bytes_witness :
  wp (writeBytes 2 (Ptr 1 5) 7) (λ n w', n = 7 ∧ ∃ v', let i' := mkIndices 0 12 in
    buffer_update 2 v' i' (demo_two [Move; Refuse; Move]) w' ∧
    readable v' i' = uninit 5 ++ take 7 (drop 5 demo_text)) (demo_two [Move; Refuse; Move]).
Proof.
  apply (failed_copy_loses_bytes 2 demo_value demo_indices (Ptr 1 5) 7
    (take 7 (drop 5 demo_text)) [Move]).
  - apply demo_two_ok.
  - vm_compute. reflexivity.
  - apply demo_two_at.
  - reflexivity.
  - apply demo_two_shared.
  - intros t ->%demo_element. reflexivity.
  - reflexivity.
  - discriminate.
  - vm_compute. split; congruence.
  - reflexivity.
Defined.

End BufferSpec.
