(* ===== verification/BufferClients.v ===== *)
(** * Clients of [ByteBuffer]

    Programs that make, copy, move, assign, fill, read and destroy any number of
    buffers, which may share blocks, in any order.  Next to them stands what the
    documentation in [ByteBuffer.h] draws: a buffer of its own per name, with a
    discardable, a readable and a writable region, and the memory of the client.
    The one thing a client can tell apart is a private copy that is refused; up to
    there the two agree. *)

From S2P Require Import Prelude CopyOnWrite CowSpec Memory Storage ByteBuffer BufferSpec.
Import Cow CowSpec Memory Storage ByteBuffer BufferSpec.

Module BufferClients.
Implicit Types (w : world) (x y : positive) (v : list cell) (i : indices)
  (c : cow ByteBufferStorage mem) (cm : gmap positive (list cell)).

(** ** The public interface *)

(** The member functions with their arguments.  A pointer to the block is only
    good for looking through it: [Peek] reads what [readableBytesView] points at,
    [Poke] writes through [mutableBytes] into bytes that wait to be read. *)
Inductive method :=
| Peek
| Poke (at_ : Z) (data : list cell)
| Capacity
| WritableBytes
| ReadableBytes
| GetReaderIndex
| GetWriterIndex
| WriteBytes (src : ptr) (size : Z)
| WriteString (string : std_string)
| WriteCString (cString : ptr)
| ReadBytes (destination : ptr) (size : Z)
| ReadString (size : Z)
| SkipBytes (size : Z)
| DiscardReadBytes
| Clear.

(** A client statement: a special member, or a call on a buffer. *)
Inductive statement := Member (o : special) | Call x (m : method).

Definition peek x : bprog (list cell) :=
  n ← readableBytes x;
  view ← readableBytesView x;
  if n =? 0 then mret []
  else on_storage (in_ext (m ← get; of_option FUndefined (load view n m))).

Definition poke x (at_ : Z) (data : list cell) : bprog unit :=
  r ← getReaderIndex x;
  p ← mutableBytes x;
  on_storage (in_ext (m ← get; m' ← of_option FUndefined (store (ptr_add p (r + at_)) data m); put m')).

Definition invoke x (m : method) : bprog qres :=
  match m with
  | Peek => l ← peek x; mret (RBytes l)
  | Poke at_ data => poke x at_ data;; mret RUnit
  | Capacity => n ← capacity x; mret (RCount n)
  | WritableBytes => n ← writableBytes x; mret (RCount n)
  | ReadableBytes => n ← readableBytes x; mret (RCount n)
  | GetReaderIndex => n ← getReaderIndex x; mret (RCount n)
  | GetWriterIndex => n ← getWriterIndex x; mret (RCount n)
  | WriteBytes src size => n ← writeBytes x src size; mret (RCount n)
  | WriteString string => n ← writeString x string; mret (RCount n)
  | WriteCString cString => n ← writeCString x cString; mret (RCount n)
  | ReadBytes destination size => n ← readBytes x destination size; mret (RCount n)
  | ReadString size => l ← readString x size; mret (RBytes l)
  | SkipBytes size => n ← skipBytes x size; mret (RCount n)
  | DiscardReadBytes => discardReadBytes x;; mret RUnit
  | Clear => clear x;; mret RUnit
  end.

Definition perform (o : statement) : bprog qres :=
  match o with
  | Member o => exec_special o;; mret RUnit
  | Call x m => invoke x m
  end.

Fixpoint performs (os : list statement) : bprog (list qres) :=
  match os with
  | [] => mret []
  | o :: os => r ← perform o; rs ← performs os; mret (r :: rs)
  end.

(** ** What the header draws *)

(** Discardable bytes, readable bytes, and room for more. *)
Record queue := Queue { past : Z; unread : list cell; room : Z }.

Definition pending (q : queue) : Z := Z.of_nat (length (unread q)).
Definition filled (q : queue) : Z := past q + pending q.
Definition total (q : queue) : Z := filled q + room q.

(** The buffers of a client, [None] for one that was moved from, and its memory. *)
Record client := mkClient {
  buffers : gmap positive (option queue);
  memory : gmap positive (list cell);
}.

Definition client_store cm (dst : ptr) (data : list cell) : option (gmap positive (list cell)) :=
  m_blocks <$> store dst data (mkMem cm 1 []).

(** The characters of a C string in client memory. *)
Definition string_at cm (p : ptr) : option (list cell) :=
  match p with
  | Ptr b off =>
      cs ← cm !! b;
      n ← (if 0 <=? off then cstring_length (drop (Z.to_nat off) cs) else None);
      client_load cm p n
  | _ => None
  end.

Definition bytes_at cm (src : ptr) (size : Z) : option (list cell) :=
  if is_null src || (size =? 0) then Some [] else client_load cm src size.

(** What a write is asked to append. *)
Definition source cm (m : method) : option (list cell) :=
  match m with
  | WriteBytes src size => bytes_at cm src size
  | WriteString s => bytes_at cm (str_data s) (str_size s)
  | WriteCString p => if is_null p then Some [] else string_at cm p
  | _ => None
  end.

(** Appending, with a new capacity if there is no room. *)
Definition grown (q : queue) (data : list cell) : queue :=
  let n := Z.of_nat (length data) in
  Queue (past q) (unread q ++ data)
    ((if n <=? room q then total q else nextPowerOf2ClampedToMax (filled q + n)) - (filled q + n)).

Definition eaten (n : Z) (q : queue) : queue :=
  let n := Z.min n (pending q) in Queue (past q + n) (drop (Z.to_nat n) (unread q)) (room q).

Definition front (n : Z) (q : queue) : list cell := take (Z.to_nat n) (unread q).

Inductive method_step cm : method → queue → qres → queue → gmap positive (list cell) → Prop :=
| step_peek q : method_step cm Peek q (RBytes (unread q)) q cm
| step_poke at_ data q :
    method_step cm (Poke at_ data) q RUnit (Queue (past q) (splice (Z.to_nat at_) data (unread q)) (room q)) cm
| step_capacity q : method_step cm Capacity q (RCount (total q)) q cm
| step_writable q : method_step cm WritableBytes q (RCount (room q)) q cm
| step_readable q : method_step cm ReadableBytes q (RCount (pending q)) q cm
| step_reader q : method_step cm GetReaderIndex q (RCount (past q)) q cm
| step_writer q : method_step cm GetWriterIndex q (RCount (filled q)) q cm
| step_wrote m data q : source cm m = Some data → filled q + Z.of_nat (length data) ≤ SIZE_MAX →
    method_step cm m q (RCount (Z.of_nat (length data))) (grown q data) cm
| step_refused m data q : source cm m = Some data → room q < Z.of_nat (length data) →
    method_step cm m q (RCount 0) q cm
| step_read_bytes dst size q cm' : dst ≠ Null →
    (front size q = [] ∧ cm' = cm ∨ client_store cm dst (front size q) = Some cm') →
    method_step cm (ReadBytes dst size) q (RCount (Z.min size (pending q))) (eaten size q) cm'
| step_read_null size q : method_step cm (ReadBytes Null size) q (RCount 0) q cm
| step_read_string size q : method_step cm (ReadString size) q (RBytes (front size q)) (eaten size q) cm
| step_skip size q : method_step cm (SkipBytes size) q (RCount (Z.min size (pending q))) (eaten size q) cm
| step_discard q : method_step cm DiscardReadBytes q RUnit (Queue 0 (unread q) (past q + room q)) cm
| step_clear q : method_step cm Clear q RUnit (Queue 0 [] (total q)) cm.

(** What may be called: sources and destinations are memory of the client, sizes
    fit a [size_t]. *)
Definition method_legal cm (q : queue) (m : method) : Prop :=
  match m with
  | WriteBytes _ size => 0 ≤ size ≤ SIZE_MAX ∧ is_Some (source cm m)
  | WriteString s => 0 ≤ str_size s ≤ SIZE_MAX ∧ is_Some (source cm m)
  | WriteCString _ => ∃ data, source cm m = Some data ∧ Z.of_nat (length data) ≤ SIZE_MAX
  | ReadBytes dst size => 0 ≤ size ≤ SIZE_MAX ∧
      (dst = Null ∨ front size q = [] ∨ is_Some (client_store cm dst (front size q)))
  | ReadString size | SkipBytes size => 0 ≤ size ≤ SIZE_MAX
  | Poke at_ data => 0 ≤ at_ ∧ at_ + Z.of_nat (length data) ≤ pending q ∧ data ≠ []
  | _ => True
  end.

(** Whether the call asks for a block of its own. *)
Definition takes_copy (q : queue) (m : method) : bool :=
  match m with
  | WriteBytes _ _ | WriteString _ | Poke _ _ => true
  | WriteCString p => negb (is_null p)
  | DiscardReadBytes => (0 <? past q) && (0 <? pending q)
  | _ => false
  end.

(** The special members; a new buffer has its capacity rounded up, or none. *)
Inductive member_step (bs : gmap positive (option queue)) : special → gmap positive (option queue) → Prop :=
| step_new x al cap n : AllocatorLaws al → 0 ≤ cap ≤ SIZE_MAX → bs !! x = None →
    n = 0 ∨ n = nextPowerOf2ClampedToMax cap →
    member_step bs (New x al cap) (<[x := Some (Queue 0 [] n)]> bs)
| step_copy x y q : bs !! x = None → bs !! y = Some (Some q) →
    member_step bs (Copy x y) (<[x := Some q]> bs)
| step_move x y o : bs !! x = None → bs !! y = Some o →
    member_step bs (Move_ x y) (<[y := None]> (<[x := o]> bs))
| step_assign x y o q : bs !! x = Some o → bs !! y = Some (Some q) →
    member_step bs (Assign x y) (<[x := Some q]> bs)
| step_move_assign x y o o' : bs !! x = Some o → bs !! y = Some o' →
    member_step bs (MoveAssign_ x y) (if decide (x = y) then bs else <[x := o']> (<[y := None]> bs))
| step_destroy x o : bs !! x = Some o → member_step bs (Destroy x) (delete x bs).

Inductive client_step : client → statement → qres → client → Prop :=
| member_client_step bs cm o bs' : member_step bs o bs' →
    client_step (mkClient bs cm) (Member o) RUnit (mkClient bs' cm)
| call_client_step bs cm x m q r q' cm' : bs !! x = Some (Some q) → method_step cm m q r q' cm' →
    client_step (mkClient bs cm) (Call x m) r (mkClient (<[x := Some q']> bs) cm').

Inductive client_steps : client → list statement → list qres → client → Prop :=
| client_done s : client_steps s [] [] s
| client_more s o os r s1 rs s' : client_step s o r s1 → client_steps s1 os rs s' →
    client_steps s (o :: os) (r :: rs) s'.

(** The number of buffers stays below the range of a reference count. *)
Definition few (bs : gmap positive (option queue)) : Prop := Z.of_nat (size bs) + 1 < 2 ^ 32.

Definition statement_legal (s : client) (o : statement) : Prop :=
  match o with
  | Member o => (∃ bs, member_step (buffers s) o bs) ∧ ∀ bs, member_step (buffers s) o bs → few bs
  | Call x m => ∃ q, buffers s !! x = Some (Some q) ∧ method_legal (memory s) q m
  end.

(** Whatever has been refused so far, the next statement may be made. *)
Fixpoint legal (s : client) (os : list statement) : Prop :=
  match os with
  | [] => True
  | o :: os => statement_legal s o ∧ ∀ r s', client_step s o r s' → legal s' os
  end.

(** ** What the drawing says of a world *)

Definition queue_of v i : queue :=
  Queue (readerIndex i) (readable v i) (Z.of_nat (length v) - writerIndex i).

Definition entry (o : option (option (list cell))) (i : option indices) : option (option queue) :=
  match o, i with
  | Some (Some v), Some i => Some (Some (queue_of v i))
  | Some None, _ => Some None
  | _, _ => None
  end.

Definition queues w : gmap positive (option queue) := merge entry (abs (storage w)) (cursors w).

Lemma queues_lookup w x : queues w !! x = entry (abs (storage w) !! x) (cursors w !! x).
Proof. unfold queues. rewrite lookup_merge. by destruct (_ !! x), (_ !! x). Qed.

(** The world holds what the client's drawing shows. *)
Record shows (s : client) w : Prop := {
  sh_ok : world_ok w;
  sh_fits : fits (storage w);
  sh_memory : out (storage w) = memory s;
  sh_buffers : queues w = buffers s;
}.

Lemma shows_at s w x q : shows s w → buffers s !! x = Some (Some q) →
  ∃ v i, buffer_at w x v i ∧ q = queue_of v i.
Proof.
  intros [_ _ _ Hb]. rewrite <- Hb, queues_lookup. unfold buffer_at, entry.
  destruct (_ !! x) as [[v|]|], (_ !! x) as [i|]; try done. intros [= <-]. by exists v, i.
Qed.

Lemma queues_size w : world_ok w → dom (queues w) = dom (abs (storage w)).
Proof.
  intros Hw. apply set_eq. intros x. rewrite !elem_of_dom, queues_lookup.
  assert (is_Some (abs (storage w) !! x) ↔ is_Some (cursors w !! x)) as H.
  { by rewrite <- !elem_of_dom, (world_dom w). }
  destruct (abs (storage w) !! x) as [[v|]|], (cursors w !! x) as [i|]; simpl; naive_solver.
Qed.

Lemma few_fits w : world_ok w → few (queues w) ↔ fits (storage w).
Proof.
  intros Hw. unfold few, fits. rewrite <- size_abs, <- !size_dom, queues_size by done. done.
Qed.

Lemma queues_insert w w' x o i : abs (storage w') = <[x := o]> (abs (storage w)) →
  cursors w' = <[x := i]> (cursors w) → queues w' = <[x := default None (entry (Some o) (Some i))]> (queues w).
Proof.
  intros Ha Hc. apply map_eq. intros y. rewrite queues_lookup, Ha, Hc.
  destruct (decide (y = x)) as [->|Hne].
  - rewrite !lookup_insert_eq. by destruct o.
  - rewrite !lookup_insert_ne by done. symmetry. apply queues_lookup.
Qed.

Lemma shows_update s w x v i v' i' w' : shows s w → buffer_at w x v i → buffer_update x v' i' w w' →
  shows (mkClient (<[x := Some (queue_of v' i')]> (buffers s)) (memory s)) w'.
Proof.
  intros [Hw Hfit Hm Hb] Hx Hu. pose proof Hu as [Hok Ha Hc Ho _].
  split; [done|by eapply update_fits|by rewrite Ho|].
  by rewrite (queues_insert w w' x (Some v') i'), Hb.
Qed.

Lemma shows_same s w x q : shows s w → buffers s !! x = Some (Some q) →
  shows (mkClient (<[x := Some q]> (buffers s)) (memory s)) w.
Proof. intros Hs Hx. rewrite insert_id by done. by destruct s. Qed.

Lemma pending_of v i : indices_ok v i → pending (queue_of v i) = writerIndex i - readerIndex i.
Proof. apply length_readable. Qed.

Lemma total_of v i : indices_ok v i → total (queue_of v i) = Z.of_nat (length v).
Proof. intros Hi. unfold total, filled. rewrite pending_of by done. simpl. lia. Qed.

Lemma filled_of v i : indices_ok v i → filled (queue_of v i) = writerIndex i.
Proof. intros Hi. unfold filled. rewrite pending_of by done. simpl. lia. Qed.

Lemma eaten_of v i n : indices_ok v i → 0 ≤ n →
  queue_of v (consume (Z.min n (writerIndex i - readerIndex i)) i) = eaten n (queue_of v i).
Proof.
  intros Hi Hn. pose proof Hi as [Hr _]. unfold eaten. cbv zeta. rewrite pending_of by done.
  unfold queue_of at 1. rewrite readable_consume by lia. done.
Qed.

Lemma front_of v i n : indices_ok v i → 0 ≤ n →
  take (Z.to_nat (Z.min n (writerIndex i - readerIndex i))) (readable v i) = front n (queue_of v i).
Proof.
  intros Hi Hn. rewrite <- (length_readable v i Hi).
  by destruct (take_min_length n (readable v i) Hn) as [-> _].
Qed.

(** ** A private copy is provided, or the buffer is left without its bytes *)

Lemma served_or_refused c x v : cow_ok c → abs c !! x = Some (Some v) →
  copy_served c x ∨ (copy_refused c x ∧ v ≠ []).
Proof.
  intros Hok Hx. destruct (abs_element c x v Hok Hx) as (t & (e & He & Ht) & Hv & Htok).
  assert (∀ u, element_of c x u → u = t) as Huniq.
  { intros u (e' & He' & Hu). congruence. }
  destruct (abs_Some _ _ _ (ok_inv _ Hok) Hx) as (b & _ & _ & Hr & _).
  destruct (decide (1 < ref_count b (refs c))%nat) as [Hm|Hm].
  2: { left. apply not_shared_served. intros (b' & Hb' & Hm'). by simplify_eq. }
  destruct (decide (Storage.bytes t = Null)) as [Hn|Hn].
  { left. by intros _ u t' m' ->%Huniq. }
  destruct (storage_copy t (ext c)) as [t' m'|f m'] eqn:Hrun.
  2: { left. intros _ u t' m'' ->%Huniq. by rewrite Hrun. }
  destruct (decide (Storage.bytes t' = Null)) as [Hn'|Hn'].
  - right. split; [split; [by exists b|]|].
    + intros u t1 m1 ->%Huniq. rewrite Hrun. by intros [= <- <-].
    + intros ->. destruct Htok as [|a b0 cs m Ha Hb0]; [done|]. unfold contents in Hv. simpl in Hv. rewrite Hb0 in Hv.
      simpl in Hv. subst cs. simpl in *. lia.
  - left. intros _ u t1 m1 ->%Huniq. rewrite Hrun. by intros [= <- <-].
Qed.

(** ** Rules for the calls *)

(** A write of nothing only takes a block of its own. *)
Lemma wp_writeBytes_nothing x v i src size Q w :
  world_ok w → fits (storage w) → buffer_at w x v i → copy_served (storage w) x →
  src = Null ∨ size = 0 → (∀ w', buffer_update x v i w w' → Q 0 w') → wp (writeBytes x src size) Q w.
Proof.
  intros Hw Hfit Hx Hserved Hsrc HQ. destruct (buffer_at_ok _ _ _ _ Hw Hx) as [Hi Hmax].
  pose proof Hi as [Hr Hk]. pose proof Hx as [Ha Hc].
  unfold writeBytes. wp_step. eapply wp_getWriterIndex; [done|]. wp_step. apply wp_on_storage. wp_step.
  apply (wp_unique_value x v); [apply Hw|done..|].
  intros e t c1 Hok1 Hex Ht Hun Habs Hout Hdom _ _ _.
  rewrite (copy_served_same _ _ _ _ (wo_cow _ Hw) Ha Hserved Hun) in Habs.
  eapply wp_on_element_const; [done|]. apply wp_setBytes_nothing; [done|]. split; [done|].
  wp_step. eapply (wp_moveWriterIndexForwardBy x v i 0); [done| |lia|done|lia|].
  { split; [simpl; by rewrite Habs, lookup_insert_eq|done]. }
  apply wp_ret, HQ. unfold with_cursors. simpl. rewrite Z.add_0_r.
  replace (mkIndices _ _) with i by by destruct i.
  apply (buffer_updated w x v i); try done. intros _. by eapply exclusive_not_shared.
Qed.

(** The view of a buffer that has a block. *)
Lemma wp_view x v i Q w : world_ok w → buffer_at w x v i → (0 < length v)%nat →
  (∀ b, m_blocks (ext (storage w)) !! b = Some v → Q (Ptr b (readerIndex i)) w) →
  wp (readableBytesView x) Q w.
Proof.
  intros Hw Hx Hpos HQ. pose proof Hx as [Ha Hc]. unfold readableBytesView, bytes.
  wp_step. eapply wp_storage_read; [apply Hw|done|].
  intros t Hel Hv. unfold getBytes, this. wp_go. split; [done|].
  destruct (buffer_block w x v i t Hw Hx Hel) as (b & -> & Hb & _); [done|]. simpl.
  wp_step. eapply wp_getReaderIndex; [done|]. apply wp_ret. by apply HQ.
Qed.

Lemma wp_view_const x v i Q w : world_ok w → buffer_at w x v i →
  (∀ p, Q p w) → wp (readableBytesView x) Q w.
Proof.
  intros Hw [Ha Hc] HQ. unfold readableBytesView, bytes. wp_step. eapply wp_storage_read; [apply Hw|done|].
  intros t Hel Hv. unfold getBytes, this. wp_go. split; [done|].
  destruct (is_null _); [by apply wp_ret|]. wp_step. eapply wp_getReaderIndex; [done|]. by apply wp_ret.
Qed.

Lemma wp_peek x v i Q w : world_ok w → buffer_at w x v i → Q (readable v i) w → wp (peek x) Q w.
Proof.
  intros Hw Hx HQ. destruct (buffer_at_ok _ _ _ _ Hw Hx) as [Hi Hmax].
  pose proof (length_readable v i Hi) as Hlen. pose proof Hi as [Hr Hk]. unfold peek.
  wp_step. eapply wp_readableBytes; [apply Hx|lia|lia|]. wp_step.
  destruct (Z.eqb_spec (writerIndex i - readerIndex i) 0) as [H0|H0].
  - eapply wp_view_const; [done..|]. intros p. apply wp_ret.
    replace [] with (readable v i); [done|]. apply nil_length_inv. lia.
  - eapply wp_view; [done|done|lia|]. intros b Hb. apply wp_on_storage. unfold in_ext. wp_step. wp_step. wp_step.
    eapply wp_of_option; [apply (load_at b _ _ _ v); [done|lia..]|]. by rewrite set_ext_id, world_eta.
Qed.

(** [writableBytes] is what is left of the block. *)
Lemma wp_writableBytes x v i Q w : world_ok w → buffer_at w x v i →
  Q (Z.of_nat (length v) - writerIndex i) w → wp (writableBytes x) Q w.
Proof.
  intros Hw Hx HQ. destruct (buffer_at_ok _ _ _ _ Hw Hx) as [[Hr Hk] Hmax]. destruct Hx as [Ha Hc].
  unfold writableBytes. wp_step. eapply wp_capacity; [apply Hw|done|]. wp_step.
  eapply wp_getWriterIndex; [done|]. wp_step.
  destruct (Z.ltb_spec (writerIndex i) (Z.of_nat (length v))); [by rewrite to_size_id by lia|].
  by replace 0 with (Z.of_nat (length v) - writerIndex i) by lia.
Qed.

(** A null destination is given nothing, and nothing is consumed. *)
Lemma wp_readBytes_null x v i size Q w : world_ok w → buffer_at w x v i →
  (∀ w', buffer_update x v i w w' → Q 0 w') → wp (readBytes x Null size) Q w.
Proof.
  intros Hw Hx HQ. destruct (buffer_at_ok _ _ _ _ Hw Hx) as [Hi Hmax].
  pose proof Hi as [Hr Hk]. pose proof Hx as [Ha Hc]. pose proof (buffer_cursors w x v i i Hw Hx Hi) as Hu.
  unfold readBytes. wp_step. eapply wp_readableBytes; [done|lia|lia|].
  destruct (_ =? 0).
  { apply wp_ret, HQ. unfold with_cursors in Hu. by rewrite insert_id, world_eta in Hu. }
  wp_step. eapply wp_getReaderIndex; [done|]. wp_step. eapply wp_storage_read; [apply Hw|done|].
  intros t _ _. unfold copyBytesTo, this. wp_go. split; [done|].
  wp_step. eapply wp_moveReaderIndexForwardBy; [done|lia|done|lia|lia|]. apply wp_ret, HQ.
  rewrite Z.add_0_r. replace (mkIndices _ _) with i by by destruct i. done.
Qed.

(** What the client stores in its own memory, no buffer sees. *)
Lemma client_store_ok c dst data cm' : client_store (out c) dst data = Some cm' →
  dst ≠ Null ∧ (∀ b off, dst = Ptr b off → b ∉ owned (elems c)) ∧
  ∃ m1, store dst data (ext c) = Some m1 ∧
    ∀ c', elems c' = elems c → m_blocks (ext c') = m_blocks m1 → out c' = cm'.
Proof.
  unfold client_store, store. destruct dst as [| |b off]; [done|done|]. cbn [m_blocks].
  destruct (out c !! b) as [cs|] eqn:Hb; [|done].
  pose proof Hb as [Hb' Hno]%client_mem_lookup. simpl. rewrite Hb'. simpl.
  destruct (_ && _); [|done]. simpl. intros [= <-]. split_and!; [done|by intros ?? [= <- _]|].
  eexists. split; [done|]. intros c' He Hm. unfold out. simpl in *. rewrite He.
  apply map_eq. intros b'. apply option_eq. intros cs'. rewrite client_mem_lookup, Hm.
  destruct (decide (b' = b)) as [->|Hne].
  - rewrite !lookup_insert_eq. naive_solver.
  - rewrite !lookup_insert_ne by done. symmetry. apply client_mem_lookup.
Qed.

(** Writing through the pointer of a storage nobody shares. *)
Lemma wp_store_through c x e t b v off data Q :
  cow_ok c → exclusive c x e → elems c !! e = Some t → Storage.bytes t = Ptr b 0 →
  m_blocks (ext c) !! b = Some v → 0 ≤ off → off + Z.of_nat (length data) ≤ Z.of_nat (length v) →
  (∀ c', cow_ok c' → abs c' = <[x := Some (splice (Z.to_nat off) data v)]> (abs c) → refs c' = refs c →
    out c' = out c → Q tt c') →
  wp (in_ext (m ← get; m' ← of_option FUndefined (store (Ptr b off) data m); put m')) Q c.
Proof.
  intros Hok Hex Ht Hbt Hb Ho Hl HQ. pose proof (ok_pool _ Hok) as Hp. simpl in Hp.
  pose proof (so_ok _ _ Hp e t Ht) as Htok. pose proof (so_wf _ _ Hp) as Hwf.
  set (v' := splice (Z.to_nat off) data v) in *.
  set (m' := Memory.set_blocks (<[b := v']> (m_blocks (ext c))) (ext c)).
  assert (store (Ptr b off) data (ext c) = Some m') as Hst.
  { rewrite <- (Z2Nat.id off) by done. unfold m', v'. rewrite <- (store_slice b _ data _ v); [|done|lia]. done. }
  assert (wp (on_element e (in_mem (put m'))) (λ _, Q tt) c) as Hm.
  { eapply wp_mutate_value; [done|done|done|]. unfold in_mem. wp_go.
    assert (length v' = length v) as Hv by (apply length_splice; lia).
    assert (storage_ok t m' ∧ contents t m' = v') as [Ht' Hc'].
    { destruct Htok as [a m Ha|a b0 cs m Ha Hb0 Hpos Hmax]; [done|]. simpl in Hbt. injection Hbt as ->.
      assert (cs = v) as -> by congruence. rewrite <- Hv in *.
      assert (m_blocks m' !! b = Some v') as Hb' by apply lookup_insert_eq.
      split; [by constructor|by apply contents_block]. }
    destruct (pool_update (elems c) (ext c) e t t m') as (Hp' & Hs' & Ho'); [done|done|done|by eapply mem_wf_insert| |].
    { unfold rest, storage_block. rewrite Hbt. apply delete_insert_eq. }
    split_and!; [done|done|]. intros c' Hok' Habs' Hr' Hout'. apply HQ; [done|by rewrite Habs', Hc'|done|].
    exact (eq_trans Hout' Ho'). }
  unfold in_ext. wp_step. wp_step. wp_step. wp_step. eapply wp_of_option; [exact Hst|]. wp_step.
  unfold wp, on_element, get_element, zoom, mbind, prog_bind, gets in Hm. cbn in Hm. rewrite Ht in Hm.
  cbn in Hm. rewrite insert_id in Hm by done. by destruct c.
Qed.

Lemma splice_within n at_ (data l : list cell) : (at_ + length data ≤ n)%nat → (n ≤ length l)%nat →
  take n (splice at_ data l) = splice at_ data (take n l).
Proof.
  intros H1 H2. unfold splice. rewrite take_take, Nat.min_l by lia. rewrite skipn_firstn_comm.
  rewrite !take_app, length_take, (take_ge (take at_ l)), (take_ge data) by (rewrite ?length_take; lia).
  do 3 f_equal. lia.
Qed.

Lemma drop_splice_before r at_ (data l : list cell) : (r + at_ ≤ length l)%nat →
  drop r (splice (r + at_) data l) = splice at_ data (drop r l).
Proof.
  intros H. unfold splice. rewrite drop_app_le by (rewrite length_take; lia).
  rewrite drop_drop, <- take_drop_commute, <- Nat.add_assoc. done.
Qed.

(** [poke] changes the bytes it is aimed at, in this buffer only. *)
Lemma wp_poke x v i at_ data Q w :
  world_ok w → fits (storage w) → buffer_at w x v i → copy_served (storage w) x →
  0 ≤ at_ → at_ + Z.of_nat (length data) ≤ writerIndex i - readerIndex i → data ≠ [] →
  (∀ w' v', buffer_update x v' i w w' → length v' = length v →
    readable v' i = splice (Z.to_nat at_) data (readable v i) → Q tt w') →
  wp (poke x at_ data) Q w.
Proof.
  intros Hw Hfit Hx Hserved Hat Hlen Hne HQ. destruct (buffer_at_ok _ _ _ _ Hw Hx) as [Hi Hmax].
  pose proof Hi as [Hr Hk]. pose proof Hx as [Ha Hc]. destruct data as [|d data]; [done|]. clear Hne.
  set (ds := d :: data) in *. assert (0 < Z.of_nat (length ds)) as Hpos by (subst ds; simpl; lia).
  unfold poke, mutableBytes, storage_unique. wp_step. eapply wp_getReaderIndex; [done|].
  wp_step. apply wp_on_storage. wp_step. apply (wp_unique_value x v); [apply Hw|done..|].
  intros e t c1 Hok1 Hex Ht Hun Habs Hout Hdom _ _ _.
  pose proof (copy_served_same _ _ _ _ (wo_cow _ Hw) Ha Hserved Hun) as Hv. rewrite Hv in *. simpl in Hv.
  pose proof (so_ok _ _ (ok_pool _ Hok1) e t Ht) as Htok.
  destruct (storage_ok_block_of t _ Htok) as (b & Hbt & Hb); [rewrite Hv; lia|]. rewrite Hv in Hb.
  eapply wp_on_element_const; [done|]. unfold getBytes, this. wp_go. split; [done|]. rewrite Hbt.
  change (ptr_add (Ptr b 0) (readerIndex i + at_)) with (Ptr b (readerIndex i + at_)).
  apply wp_on_storage. eapply (wp_store_through c1 x e t b v); [done|done|done|done|done|lia|lia|].
  intros c' Hok' Habs' Hrefs' Hout'. simpl. rewrite Z2Nat.inj_add in Habs' by lia.
  set (v' := splice _ ds v) in *. assert (length v' = length v) as Hl' by (apply length_splice; lia).
  apply (HQ _ v'); [|done|].
  - rewrite <- (insert_id (cursors w) x i Hc). apply (buffer_updated w x v i); [done|done|done| | | | |].
    + by rewrite Habs', Habs, insert_insert_eq.
    + by rewrite Hout'.
    + by rewrite Hrefs'.
    + intros _. by eapply exclusive_not_shared.
    + unfold indices_ok. lia.
  - unfold readable. unfold v'. rewrite drop_splice_before by lia. apply splice_within; [lia|].
    rewrite length_drop. lia.
Qed.

(** ** One statement *)

(** The call did what the drawing says. *)
Definition outcome s x m q (r : qres) w' : Prop :=
  ∃ q' cm', method_step (memory s) m q r q' cm' ∧ shows (mkClient (<[x := Some q']> (buffers s)) cm') w'.

Lemma outcome_update s w x v i v' i' m r w' :
  shows s w → buffer_at w x v i → method_step (memory s) m (queue_of v i) r (queue_of v' i') (memory s) →
  buffer_update x v' i' w w' → outcome s x m (queue_of v i) r w'.
Proof. intros Hs Hx Hm Hu. do 2 eexists. split; [exact Hm|]. by eapply shows_update. Qed.

Lemma outcome_same s w x q m r :
  shows s w → buffers s !! x = Some (Some q) → method_step (memory s) m q r q (memory s) → outcome s x m q r w.
Proof. intros Hs Hx Hm. do 2 eexists. split; [exact Hm|]. by eapply shows_same. Qed.

Lemma queue_of_grown v v' i data : indices_ok v i → Z.of_nat (length v) ≤ SIZE_MAX →
  let n := Z.of_nat (length data) in
  take (Z.to_nat (writerIndex i + n)) v' = take (Z.to_nat (writerIndex i)) v ++ data →
  writerIndex i + n ≤ Z.of_nat (length v') →
  (length v' = length v ∨ (Z.of_nat (length v) < writerIndex i + n ∧
    Z.of_nat (length v') = nextPowerOf2ClampedToMax (writerIndex i + n))) →
  queue_of v' (mkIndices (readerIndex i) (writerIndex i + n)) = grown (queue_of v i) data.
Proof.
  intros Hi Hmax n Hcont Hfit Hlen. unfold grown. cbv zeta. fold n.
  rewrite filled_of, total_of by done. unfold queue_of at 1. cbn [past unread room readerIndex writerIndex].
  rewrite (readable_write v v' i n data) by (done || lia). unfold queue_of. cbn [past unread room].
  f_equal. destruct (Z.leb_spec n (Z.of_nat (length v) - writerIndex i)); lia.
Qed.

Lemma grown_nothing v i : indices_ok v i → grown (queue_of v i) [] = queue_of v i.
Proof.
  intros Hi. pose proof Hi as [Hr Hk]. unfold grown. cbv zeta. rewrite (proj2 (Z.leb_le _ _)) by (simpl; lia).
  rewrite app_nil_r, total_of, filled_of by done. unfold queue_of. cbn [past unread room length]. f_equal. lia.
Qed.

#[local] Arguments client_load : simpl never.

Lemma cstring_length_nonneg cs n : cstring_length cs = Some n → 0 ≤ n.
Proof.
  revert n. induction cs as [|[ch|] l IH]; intros n; simpl; [done| |done].
  case_decide; [by intros [= <-]|]. destruct (cstring_length l); [|done]. simpl. intros [= <-].
  specialize (IH _ eq_refl). lia.
Qed.

(** [writeBytes] from client memory, for whichever call asked for it. *)
Lemma write_ok s w x v i m src size data :
  shows s w → buffer_at w x v i → copy_served (storage w) x → 0 ≤ size ≤ SIZE_MAX →
  source (memory s) m = Some data → bytes_at (memory s) src size = Some data →
  wp (writeBytes x src size) (λ n w', outcome s x m (queue_of v i) (RCount n) w') w.
Proof.
  intros Hs Hx Hserved Hsize Hsrc Hdata. pose proof Hs as [Hw Hfit Hm _].
  destruct (buffer_at_ok _ _ _ _ Hw Hx) as [Hi Hmax]. pose proof Hi as [Hr Hk].
  unfold bytes_at in Hdata. destruct (is_null src || (size =? 0)) eqn:Hnone.
  - injection Hdata as <-. eapply wp_writeBytes_nothing; [done..| |].
    + apply orb_true_iff in Hnone as [H|H]; [left; by destruct src|right; by apply Z.eqb_eq].
    + intros w' Hu. eapply outcome_update; [done|done| |exact Hu].
      rewrite <- (grown_nothing v i) at 2 by done. apply (step_wrote _ m []); [done|].
      rewrite filled_of by done. simpl. lia.
  - apply orb_false_iff in Hnone as [_ Hpos]. apply Z.eqb_neq in Hpos. rewrite <- Hm in Hdata.
    destruct (client_load_ok _ _ _ _ Hdata) as [Hload _].
    pose proof (load_length _ _ _ _ (proj1 Hsize) Hload) as Hdl.
    eapply (wp_writeBytes x v i src size data); try done; [by eapply client_source_ok|..].
    + intros w' Hu Hwhy. eapply outcome_update; [done|done| |exact Hu]. eapply step_refused; [done|].
      simpl. lia.
    + intros w' v' Hu _ Hcont Hgrow. rewrite <- Hdl in *. eapply outcome_update; [done|done| |exact Hu].
      destruct (buffer_at_ok _ _ _ _ (bu_ok _ _ _ _ _ Hu) (update_at _ _ _ _ _ Hu)) as [[_ Hk'] _].
      rewrite (queue_of_grown v v' i data) by done. constructor; [done|]. rewrite filled_of by done. simpl in Hk'.
      pose proof (abs_length _ _ _ (wo_cow _ (bu_ok _ _ _ _ _ Hu)) (proj1 (update_at _ _ _ _ _ Hu))). lia.
Qed.

Lemma writeCString_ok s w x v i p data :
  shows s w → buffer_at w x v i → (is_null p = false → copy_served (storage w) x) →
  source (memory s) (WriteCString p) = Some data → Z.of_nat (length data) ≤ SIZE_MAX →
  wp (writeCString x p) (λ n w', outcome s x (WriteCString p) (queue_of v i) (RCount n) w') w.
Proof.
  intros Hs Hx Hserved Hsrc Hmax. pose proof Hs as [Hw Hfit Hm Hbs]. unfold writeCString.
  pose proof Hsrc as Hstr. simpl in Hstr. destruct (is_null p) eqn:Hp.
  - injection Hstr as <-. apply wp_ret. eapply outcome_update; [done|done| |].
    + destruct (buffer_at_ok _ _ _ _ Hw Hx) as [Hi Hlen]. pose proof Hi as [Hr Hk].
      rewrite <- (grown_nothing v i) at 2 by done. apply (step_wrote _ (WriteCString p) []); [done|].
      rewrite filled_of by done. simpl. lia.
    + pose proof (buffer_cursors w x v i i Hw Hx (proj1 (buffer_at_ok _ _ _ _ Hw Hx))) as Hu.
      unfold with_cursors in Hu. rewrite insert_id, world_eta in Hu by apply Hx. exact Hu.
  - destruct p as [| |b off]; [done|done|]. unfold string_at in Hstr.
    destruct (memory s !! b) as [cs|] eqn:Hb; simpl in Hstr; [|done].
    destruct (Z.leb_spec 0 off) as [Ho|]; [|done].
    destruct (cstring_length _) as [n|] eqn:Hn; simpl in Hstr; [|done].
    pose proof Hb as Hb'. rewrite <- Hm in Hb'. apply client_mem_lookup in Hb' as [Hb' _].
    pose proof (cstring_length_nonneg _ _ Hn) as Hn0.
    pose proof (load_length _ _ _ _ Hn0 Hstr) as Hdl.
    wp_step. apply wp_on_storage. unfold in_ext, strlen. wp_step. wp_step. wp_step. wp_step.
    eapply wp_of_option; [exact Hb'|]. rewrite (proj2 (Z.leb_le 0 off)) by done.
    eapply wp_of_option; [exact Hn|]. rewrite set_ext_id, world_eta.
    eapply (write_ok s w x v i _ (Ptr b off) n data); [done|done|by apply Hserved|lia|done|].
    unfold bytes_at. simpl. destruct (Z.eqb_spec n 0) as [->|]; [|done].
    apply f_equal. symmetry. apply nil_length_inv. lia.
Qed.

(** [readBytes] into client memory, which then holds what was read. *)
Lemma readBytes_ok s w x v i dst size :
  shows s w → buffer_at w x v i → method_legal (memory s) (queue_of v i) (ReadBytes dst size) →
  wp (readBytes x dst size) (λ n w', outcome s x (ReadBytes dst size) (queue_of v i) (RCount n) w') w.
Proof.
  intros Hs Hx [Hsize Hdst]. pose proof Hs as [Hw Hfit Hm Hbs].
  destruct (buffer_at_ok _ _ _ _ Hw Hx) as [Hi Hmax]. pose proof Hi as [Hr Hk].
  pose proof (front_of v i size Hi ltac:(lia)) as Hfront. set (q := queue_of v i) in *.
  assert (pending q = writerIndex i - readerIndex i) as Hpend by by apply pending_of.
  pose proof (length_readable v i Hi) as Hlen.
  destruct (decide (dst = Null)) as [->|Hnull].
  { eapply wp_readBytes_null; [done..|]. intros w' Hu.
    eapply outcome_update; [done|done|apply step_read_null|exact Hu]. }
  assert (front size q = [] ∨ ∃ cm', client_store (memory s) dst (front size q) = Some cm') as Hcase
    by (destruct Hdst as [?|[?|[cm' ?]]]; [done|by left|right; by exists cm']).
  clear Hdst.
  destruct (decide (Z.min size (pending q) = 0)) as [H0|H0].
  - assert (front size q = []) as Hnil by (rewrite <- Hfront, <- Hpend, H0; apply take_0).
    unfold readBytes. wp_step. eapply wp_readableBytes; [apply Hx|lia|lia|]. rewrite minimumOf_min, <- Hpend, H0.
    apply wp_ret. pose proof (step_read_bytes (memory s) dst size q (memory s) Hnull ltac:(by left)) as H.
    rewrite H0 in H. do 2 eexists. split; [exact H|].
    replace (eaten size q) with q.
    2: { unfold eaten. cbv zeta. rewrite H0, Z.add_0_r, drop_0. by destruct q. }
    eapply shows_same; [done|]. destruct Hx as [Ha Hc]. by rewrite <- Hbs, queues_lookup, Ha, Hc.
  - assert (∃ cm', client_store (memory s) dst (front size q) = Some cm') as (cm' & Hcm).
    { destruct Hcase as [Hnil|]; [|done]. exfalso. rewrite <- Hfront in Hnil.
      apply (f_equal length) in Hnil. rewrite length_take in Hnil. simpl in Hnil. lia. }
    pose proof Hcm as Hcm'. rewrite <- Hm in Hcm'. apply client_store_ok in Hcm' as (_ & Hfree & m1 & Hst & Hout).
    eapply (wp_readBytes x v i dst size m1); [done|done|lia|done|done|]. intros n. split.
    + intros _. unfold n. by rewrite Hfront.
    + intros w' Hok' Habs Hcur Hmem Hel. unfold n in *. rewrite <- Hpend in *.
      rewrite (proj2 (Z.eqb_neq _ _) H0) in Hmem.
      do 2 eexists. split; [apply (step_read_bytes _ dst size q cm'); [done|by right]|]. split; simpl.
      * done.
      * apply few_fits; [done|]. unfold few. rewrite <- size_dom, queues_size, Habs, <- queues_size, size_dom by done.
        by apply few_fits.
      * by apply Hout.
      * rewrite (queues_insert w w' x (Some v) (consume (Z.min size (pending q)) i)).
        -- simpl. rewrite Hpend. unfold q. rewrite eaten_of by (done || lia). by rewrite Hbs.
        -- rewrite Habs. symmetry. apply insert_id, Hx.
        -- done.
Qed.

(** The calls that only look. *)
Lemma look_ok s w x q m {A} (p : bprog A) (r : A → qres) a :
  shows s w → buffers s !! x = Some (Some q) → method_step (memory s) m q (r a) q (memory s) →
  (∀ Q : A → world → Prop, Q a w → wp p Q w) → wp (l ← p; mret (r l)) (outcome s x m q) w.
Proof. intros Hs Hx Hm Hp. wp_step. apply Hp, wp_ret. by apply outcome_same. Qed.

Lemma invoke_ok s w x q m :
  shows s w → buffers s !! x = Some (Some q) → method_legal (memory s) q m →
  (takes_copy q m = true → copy_served (storage w) x) → wp (invoke x m) (outcome s x m q) w.
Proof.
  intros Hs Hq Hl Hserved. pose proof Hs as [Hw Hfit Hm Hbs].
  destruct (shows_at _ _ _ _ Hs Hq) as (v & i & Hx & ->).
  destruct (buffer_at_ok _ _ _ _ Hw Hx) as [Hi Hmax]. pose proof Hi as [Hr Hk]. pose proof Hx as [Ha Hc].
  pose proof (pending_of v i Hi) as Hpend. pose proof (total_of v i Hi) as Htot.
  pose proof (filled_of v i Hi) as Hfill.
  destruct m as [|k ds| | | | | |src size|st|p|dst size|size|size| |]; cbn [invoke].
  - apply (look_ok _ _ _ _ _ _ RBytes (readable v i)); [done|done|constructor|]. intros Q. by apply wp_peek.
  - destruct Hl as (Hat & Hds & Hne). wp_step.
    eapply (wp_poke x v i k ds); [done|done|done|by apply Hserved|done|lia|done|].
    intros w' v' Hu Hlen Hread. apply wp_ret. eapply outcome_update; [done|done| |exact Hu].
    pose proof (step_poke (memory s) k ds (queue_of v i)) as H. simpl in H.
    unfold queue_of at 2. rewrite Hlen, Hread. exact H.
  - apply (look_ok _ _ _ _ _ _ RCount (total (queue_of v i))); [done|done|constructor|].
    intros Q HQ. rewrite Htot in HQ. by eapply wp_capacity; [apply Hw|..].
  - apply (look_ok _ _ _ _ _ _ RCount (room (queue_of v i))); [done|done|constructor|]. intros Q. by apply wp_writableBytes.
  - apply (look_ok _ _ _ _ _ _ RCount (pending (queue_of v i))); [done|done|constructor|].
    intros Q HQ. rewrite Hpend in HQ. by apply (wp_readableBytes x i); [|lia|lia|].
  - apply (look_ok _ _ _ _ _ _ RCount (past (queue_of v i))); [done|done|constructor|]. intros Q. by apply (wp_getReaderIndex x i).
  - apply (look_ok _ _ _ _ _ _ RCount (filled (queue_of v i))); [done|done|constructor|].
    intros Q HQ. rewrite Hfill in HQ. by apply (wp_getWriterIndex x i).
  - destruct Hl as [Hsize [data Hdata]]. wp_step. eapply wp_mono; [eapply write_ok; [done|done|by apply Hserved|done|exact Hdata|exact Hdata]|].
    intros n w' Ho. by apply wp_ret.
  - destruct Hl as [Hsize [data Hdata]]. unfold writeString. wp_step.
    eapply wp_mono; [eapply write_ok; [done|done|by apply Hserved|done|exact Hdata|exact Hdata]|].
    intros n w' Ho. by apply wp_ret.
  - destruct Hl as (data & Hdata & Hdl). wp_step.
    eapply wp_mono; [eapply writeCString_ok; [done|done| |exact Hdata|done]|].
    + intros Hp. apply Hserved. simpl. by rewrite Hp.
    + intros n w' Ho. by apply wp_ret.
  - wp_step. eapply wp_mono; [by apply readBytes_ok|]. intros n w' Ho. by apply wp_ret.
  - simpl in Hl. wp_step. eapply wp_readString; [done|done|lia|]. intros n Hu. apply wp_ret. unfold n in *.
    rewrite front_of by (done || lia). eapply outcome_update; [done|done| |exact Hu].
    rewrite eaten_of by (done || lia). constructor.
  - simpl in Hl. wp_step. eapply wp_skipBytes; [done|done|lia|]. intros n Hu. apply wp_ret. unfold n in *.
    eapply outcome_update; [done|done| |exact Hu]. rewrite eaten_of by (done || lia).
    rewrite <- Hpend. constructor.
  - wp_step. eapply wp_discardReadBytes; [done|done|done| |].
    + intros Hlt. apply Hserved. simpl. rewrite Hpend, andb_true_iff, !Z.ltb_lt. lia.
    + intros w' v' Hu Hlen Hread. apply wp_ret. eapply outcome_update; [done|done| |exact Hu].
      unfold queue_of at 2. rewrite Hlen, Hread. cbn [writerIndex readerIndex].
      pose proof (step_discard (memory s) (queue_of v i)) as H. simpl in H.
      by replace (Z.of_nat (length v) - (writerIndex i - readerIndex i))
        with (readerIndex i + (Z.of_nat (length v) - writerIndex i)) by lia.
  - wp_step. eapply wp_clear; [done|done|]. intros Hu. apply wp_ret.
    eapply outcome_update; [done|done| |exact Hu].
    pose proof (step_clear (memory s) (queue_of v i)) as H. rewrite Htot in H.
    unfold queue_of at 2. simpl. by rewrite Z.sub_0_r.
Qed.

Lemma queues_Some w x o : queues w !! x = Some o →
  ∃ u i, abs (storage w) !! x = Some u ∧ (u = None ∧ o = None ∨ ∃ v, u = Some v ∧ cursors w !! x = Some i ∧ o = Some (queue_of v i)).
Proof.
  rewrite queues_lookup. unfold entry.
  destruct (abs (storage w) !! x) as [[v|]|], (cursors w !! x) as [i|]; try done; intros [= <-].
  - exists (Some v), i. split; [done|]. right. by exists v.
  - exists None, i. split; [done|]. by left.
  - exists None, (mkIndices 0 0). split; [done|]. by left.
Qed.

Lemma queues_None w x : world_ok w → queues w !! x = None → abs (storage w) !! x = None.
Proof. intros Hw Hx. apply not_elem_of_dom. rewrite <- queues_size by done. by apply not_elem_of_dom. Qed.

Lemma cursors_there w x u : world_ok w → abs (storage w) !! x = Some u → is_Some (cursors w !! x).
Proof. intros Hw Hx. apply elem_of_dom. rewrite world_dom by done. by apply elem_of_dom. Qed.

(** A special member that the drawing allows is one the values allow. *)
Lemma member_special w o bs : world_ok w → member_step (queues w) o bs →
  ∃ a cs, special_spec (abs (storage w)) (cursors w) o a cs.
Proof.
  intros Hw Hstep. inversion Hstep as [x al cap n Hal Hcap Hx Hn|x y q Hx Hy|x y u Hx Hy|x y u q Hx Hy
    |x y u u' Hx Hy|x u Hx]; subst;
    repeat match goal with
    | H : queues w !! _ = None |- _ => apply queues_None in H; [|done]
    | H : queues w !! _ = Some _ |- _ => apply queues_Some in H as (? & ? & ? & H)
    end; try (destruct Hy as [[_ ?]|(? & -> & ? & ?)]; [done|]).
  - do 2 eexists. apply (sp_new _ _ x al cap []); [done..|by left].
  - do 2 eexists. by eapply sp_copy.
  - destruct (cursors_there w y _ Hw ltac:(done)) as [i Hi]. do 2 eexists. by eapply sp_move.
  - do 2 eexists. by eapply sp_assign.
  - destruct (cursors_there w y _ Hw ltac:(done)) as [i Hi]. do 2 eexists. by eapply sp_move_assign.
  - do 2 eexists. by eapply sp_destroy.
Qed.

(** And what it does to the values is what the drawing says. *)
Lemma special_member w w' o a cs : world_ok w → special_spec (abs (storage w)) (cursors w) o a cs →
  abs (storage w') = a → cursors w' = cs → member_step (queues w) o (queues w').
Proof.
  intros Hw Hs <- <-. 
  assert (∀ x, abs (storage w) !! x = None → queues w !! x = None) as Hnone.
  { intros x Hx. rewrite queues_lookup, Hx. by destruct (cursors w !! x). }
  assert (∀ x u i, abs (storage w) !! x = Some u → cursors w !! x = Some i →
    queues w !! x = Some (default None (entry (Some u) (Some i)))) as Hsome.
  { intros x u i Hx Hi. rewrite queues_lookup, Hx, Hi. by destruct u. }
  assert (∀ z, queues w' !! z = entry (abs (storage w') !! z) (cursors w' !! z)) as Hz by (intros; apply queues_lookup).
  inversion Hs as [x al cap v Hal Hcap Hx Hv Ho Ha Hc|x y v i Hx Hy Hi Ho Ha Hc|x y u i Hx Hy Hi Ho Ha Hc
    |x y u v i Hx Hy Hi Ho Ha Hc|x y u u' i Hx Hy Hi Ho Ha Hc|x u Hx Ho Ha Hc]; subst; clear Hs.
  - rewrite (queues_insert w w' x (Some v) (mkIndices 0 0)) by done. apply step_new; [done|done|by apply Hnone|].
    destruct Hv as [->|Hv]; [by left|right]. simpl. lia.
  - rewrite (queues_insert w w' x (Some v) i) by done. apply (step_copy _ x y); [by apply Hnone|by rewrite (Hsome y (Some v) i)].
  - assert (x ≠ y) by congruence.
    replace (queues w') with (<[y := None]> (<[x := default None (entry (Some u) (Some i))]> (queues w))).
    + apply step_move; [by apply Hnone|by apply Hsome].
    + apply map_eq. intros z. rewrite Hz, <- Ha, <- Hc.
      destruct (decide (z = y)) as [->|Hzy]; [|destruct (decide (z = x)) as [->|Hzx]].
      * by rewrite !lookup_insert_eq, lookup_insert_ne by done.
      * rewrite lookup_insert_ne, !lookup_insert_eq by done. rewrite lookup_insert_ne by done.
        rewrite lookup_insert_eq. by destruct u.
      * rewrite !lookup_insert_ne by done. apply queues_lookup.
  - rewrite (queues_insert w w' x (Some v) i) by done. destruct (cursors_there w x _ Hw Hx) as [j Hj].
    eapply (step_assign _ x y); [by apply (Hsome x u j)|by rewrite (Hsome y (Some v) i)].
  - destruct (cursors_there w x _ Hw Hx) as [j Hj].
    replace (queues w') with (if decide (x = y) then queues w else
      <[x := default None (entry (Some u') (Some i))]> (<[y := None]> (queues w))).
    + eapply step_move_assign; [by apply (Hsome x u j)|by apply Hsome].
    + apply map_eq. intros z. rewrite Hz, <- Ha, <- Hc. case_decide as Hxy.
      * subst y. rewrite insert_id by done. apply queues_lookup.
      * destruct (decide (z = x)) as [->|Hzx]; [|destruct (decide (z = y)) as [->|Hzy]].
        -- rewrite !lookup_insert_eq. by destruct u'.
        -- rewrite lookup_insert_ne, lookup_insert_eq by done. by rewrite lookup_insert_ne, lookup_insert_eq by done.
        -- rewrite !lookup_insert_ne by done. apply queues_lookup.
  - destruct (cursors_there w x _ Hw Hx) as [j Hj].
    replace (queues w') with (delete x (queues w)).
    + eapply step_destroy. by apply (Hsome x u j).
    + apply map_eq. intros z. rewrite Hz, <- Ha, <- Hc. destruct (decide (z = x)) as [->|Hzx].
      * by rewrite !lookup_delete_eq.
      * rewrite !lookup_delete_ne by done. apply queues_lookup.
Qed.

Lemma member_ok s w o :
  shows s w → (∃ bs, member_step (buffers s) o bs) → (∀ bs, member_step (buffers s) o bs → few bs) →
  wp (exec_special o) (λ _ w', ∃ bs, member_step (buffers s) o bs ∧ shows (mkClient bs (memory s)) w') w.
Proof.
  intros [Hw Hfit Hm Hb] [bs Hs] Hfew. rewrite <- Hb in *. apply member_special in Hs; [|done].
  eapply wp_mono; [by apply special_ok|]. intros [] w' (a & cs & Hsp & Hok & Ha & Hc & Ho).
  pose proof (special_member w w' o a cs Hw Hsp Ha Hc) as Hstep. exists (queues w'). split; [done|].
  split; [done| |by rewrite Ho|done]. apply few_fits; [done|]. by apply Hfew.
Qed.

(** ** Sequences *)

(** The next statement needs a block of its own, and is refused it. *)
Definition refused s w (o : statement) : Prop :=
  ∃ x m q, o = Call x m ∧ buffers s !! x = Some (Some q) ∧ takes_copy q m = true ∧
    0 < total q ∧ copy_refused (storage w) x.

Lemma perform_ok s w o : shows s w → statement_legal s o →
  refused s w o ∨ wp (perform o) (λ r w', ∃ s', client_step s o r s' ∧ shows s' w') w.
Proof.
  intros Hs Hl. destruct o as [o|x m]; simpl in *.
  - right. destruct Hl as [Hex Hfew]. wp_step. eapply wp_mono; [by apply member_ok|].
    intros [] w' (bs & Hstep & Hs'). apply wp_ret. destruct s. eexists. split; [by constructor|done].
  - destruct Hl as (q & Hq & Hl).
    assert ((takes_copy q m = true → copy_served (storage w) x) → wp (invoke x m) (λ r w', ∃ s', client_step s (Call x m) r s' ∧ shows s' w') w) as Hgo.
    { intros Hserved. eapply wp_mono; [by eapply invoke_ok|].
      intros r w' (q' & cm' & Hm & Hs'). destruct s. eexists. split; [by econstructor|done]. }
    destruct (shows_at _ _ _ _ Hs Hq) as (v & i & Hx & ->). pose proof (sh_ok _ _ Hs) as Hw.
    destruct (served_or_refused (storage w) x v) as [Hy|[Hn Hv]]; [apply Hw|apply Hx|right; by apply Hgo|].
    destruct (takes_copy (queue_of v i) m) eqn:Htakes; [left|right; by apply Hgo].
    exists x, m, (queue_of v i). split_and!; [done|done|done| |done].
    rewrite total_of by by eapply buffer_at_ok. destruct v; [done|simpl; lia].
Qed.

(** As far as private copies are provided. *)
Definition follows s w os : Prop := ∃ made left_ rs w' s',
  os = made ++ left_ ∧ performs made w = Done rs w' ∧ client_steps s made rs s' ∧ shows s' w' ∧
  match left_ with [] => True | o :: _ => refused s' w' o end.

Lemma performs_ok s w os : shows s w → legal s os → follows s w os.
Proof.
  revert s w. induction os as [|o os IH]; intros s w Hs Hl.
  { exists [], [], [], w, s. split_and!; [done|done|constructor|done|done]. }
  destruct Hl as [Ho Hl]. destruct (perform_ok s w o Hs Ho) as [Hr|Hgo].
  { exists [], (o :: os), [], w, s. split_and!; [done|done|constructor|done|done]. }
  apply wp_exec in Hgo as (r & w1 & Hrun & s1 & Hstep & Hs1).
  destruct (IH s1 w1 Hs1 (Hl r s1 Hstep)) as (made & left_ & rs & w' & s' & -> & Hruns & Hsteps & Hs' & Hleft).
  exists (o :: made), left_, (r :: rs), w', s'. split_and!; [done| |by econstructor|done|done].
  simpl. unfold mbind, prog_bind. by rewrite Hrun, Hruns.
Qed.

(** Nothing of a client's buffers is left when it has none. *)
Lemma shows_empty s w : shows s w → buffers s = ∅ → m_blocks (ext (storage w)) = memory s.
Proof.
  intros [Hw _ Hm Hb] He. rewrite <- Hm. apply world_empty; [done|].
  apply dom_empty_iff_L. by rewrite <- queues_size, Hb, He, dom_empty_L.
Qed.

(** ** Capacities *)

(** What [ByteBuffer.h] says of capacities, where they fit a [size_t]. *)
Definition rounded (n : Z) : Prop := n = 0 ∨ n = SIZE_MAX ∨ ∃ k, 0 ≤ k ≤ 63 ∧ n = 2 ^ k.

Definition well_formed (q : queue) : Prop := 0 ≤ past q ∧ 0 ≤ room q ∧ rounded (total q).

Definition well_formed_client (s : client) : Prop := map_Forall (λ _ o, from_option well_formed True o) (buffers s).

Lemma rounded_next n : 0 ≤ n ≤ SIZE_MAX → rounded (nextPowerOf2ClampedToMax n).
Proof.
  intros Hn. rewrite nextPowerOf2_spec by done. destruct (Z.leb_spec n 1).
  { right. right. by exists 0. }
  destruct (Z.leb_spec n (2 ^ 63)); [right; right|by right; left].
  exists (Z.log2_up n). split; [|done]. split; [apply Z.log2_up_nonneg|].
  change 63 with (Z.log2_up (2 ^ 63)). by apply Z.log2_up_le_mono.
Qed.

Lemma eaten_well_formed n q : 0 ≤ n → well_formed q → well_formed (eaten n q).
Proof.
  intros Hn (Hp & Hr & Ht). unfold eaten. cbv zeta. set (k := Z.min n (pending q)).
  assert (0 ≤ k ≤ pending q) as Hk by (unfold k, pending; lia).
  split; [simpl; lia|]. split; [done|]. unfold total, filled, pending in *. simpl. rewrite length_drop.
  by replace (past q + k + Z.of_nat (length (unread q) - Z.to_nat k) + room q)
    with (past q + Z.of_nat (length (unread q)) + room q) by lia.
Qed.

Lemma grown_well_formed q data : filled q + Z.of_nat (length data) ≤ SIZE_MAX → well_formed q →
  well_formed (grown q data).
Proof.
  intros Hmax (Hp & Hr & Ht). unfold grown. cbv zeta. set (n := Z.of_nat (length data)) in *.
  assert (0 ≤ filled q + n) by (unfold filled, pending; lia).
  destruct (nextPowerOf2_bounds (filled q + n)) as [Hb _]; [lia|].
  pose proof (rounded_next (filled q + n) ltac:(lia)) as Hn.
  split; [done|]. set (k := if n <=? room q then _ else _). cbn [past unread room].
  assert (total (Queue (past q) (unread q ++ data) (k - (filled q + n))) = k) as ->.
  { unfold total, filled, pending. cbn [past unread room]. rewrite length_app. lia. }
  unfold k. destruct (Z.leb_spec n (room q)); (split; [unfold total; lia|done]).
Qed.

Lemma method_well_formed cm m q r q' cm' : method_legal cm q m → method_step cm m q r q' cm' →
  well_formed q → well_formed q'.
Proof.
  intros Hl Hs Hq. pose proof Hq as (Hp & Hr & Ht).
  destruct Hs; simpl in Hl; try done; try (apply eaten_well_formed; [naive_solver lia|done]).
  - split; [done|]. split; [done|]. unfold total, filled, pending in *. simpl. by rewrite length_splice by lia.
  - by apply grown_well_formed.
  - split; [done|]. split; [simpl; lia|]. unfold total, filled, pending in *. simpl.
    by replace (0 + Z.of_nat (length (unread q)) + (past q + room q))
      with (past q + Z.of_nat (length (unread q)) + room q) by lia.
  - split; [done|]. split; [simpl; unfold total, filled, pending; lia|]. done.
Qed.

Lemma member_well_formed bs o bs' : member_step bs o bs' →
  map_Forall (λ _ o, from_option well_formed True o) bs → map_Forall (λ _ o, from_option well_formed True o) bs'.
Proof.
  intros Hs Hbs. destruct Hs as [x al cap n Hal Hcap Hx Hn|x y q Hx Hy|x y o Hx Hy|x y o q Hx Hy|x y o o' Hx Hy|x o Hx].
  - apply map_Forall_insert_2; [|done]. split; [done|].
    assert (total (Queue 0 [] n) = n) as -> by (unfold total, filled, pending; simpl; lia).
    pose proof (nextPowerOf2_bounds cap Hcap). split; [simpl; lia|].
    destruct Hn as [->| ->]; [by left|by apply rounded_next].
  - apply map_Forall_insert_2; [by apply (Hbs y)|done].
  - apply map_Forall_insert_2; [done|]. apply map_Forall_insert_2; [by apply (Hbs y)|done].
  - apply map_Forall_insert_2; [by apply (Hbs y)|done].
  - case_decide; [done|]. apply map_Forall_insert_2; [by apply (Hbs y)|]. by apply map_Forall_insert_2.
  - by apply map_Forall_delete.
Qed.

Lemma steps_well_formed s os rs s' : legal s os → client_steps s os rs s' →
  well_formed_client s → well_formed_client s'.
Proof.
  intros Hl Hs. induction Hs as [|s o os r s1 rs s' Hstep _ IH]; [done|]. destruct Hl as [Ho Hl].
  intros Hwf. apply IH; [by eapply Hl|]. clear IH Hl. destruct Hstep as [bs cm o bs' Hm|bs cm x m q r q' cm' Hx Hm].
  - by eapply (member_well_formed bs).
  - destruct Ho as (q0 & Hq0 & Hl). simpl in *. simplify_eq. apply map_Forall_insert_2; [|done].
    eapply method_well_formed; [done|done|]. exact (Hwf x (Some q0) Hq0).
Qed.

Lemma legal_app s os os' : legal s (os ++ os') → legal s os.
Proof.
  revert s. induction os as [|o os IH]; intros s; [done|]. intros [Ho Hl]. split; [done|].
  intros r s' Hs. by eapply IH, Hl.
Qed.

(** ** The properties *)

(** C3: Buffers are what [ByteBuffer.h] draws.  Take any client: any sequence of
    constructions with any allocators that keep their contract, copies, moves,
    assignments, destructions and calls of the member functions, on any number of
    buffers, whatever blocks they share and whatever requests for memory are
    refused.  The sequence runs without a fault and every result is that of
    buffers that share nothing, each with its own discardable, readable and
    writable region, and of the client's own memory; at most it comes to a call
    that needs the private copy of a shared block and is refused it.  A client
    that has destroyed its buffers has its own memory left and nothing else. *)
Theorem buffers_refine_queues s w os : shows s w → legal s os →
  ∃ made left_ rs w' s', os = made ++ left_ ∧ performs made w = Done rs w' ∧
    client_steps s made rs s' ∧ shows s' w' ∧
    match left_ with [] => True | o :: _ => refused s' w' o end ∧
    (buffers s' = ∅ → m_blocks (ext (storage w')) = memory s').
Proof.
  intros Hs Hl. destruct (performs_ok s w os Hs Hl) as (made & left_ & rs & w' & s' & -> & Hrun & Hsteps & Hs' & Hleft).
  exists made, left_, rs, w', s'. split_and!; try done. by apply shows_empty.
Qed.

(** C27: The cursors and the capacity of every buffer are well formed, at every
    point of every client up to a refused private copy: the reader is not past the
    writer, the writer not past the block, and the capacity is 0, a power of two
    or the greatest [size_t], as [ByteBuffer.h] says of capacities. *)
Theorem buffers_well_formed s w os : shows s w → well_formed_client s → legal s os →
  ∃ made left_ rs w' s', os = made ++ left_ ∧ performs made w = Done rs w' ∧
    match left_ with [] => True | o :: _ => refused s' w' o end ∧
    ∀ x v i, buffer_at w' x v i →
      0 ≤ readerIndex i ≤ writerIndex i ∧ writerIndex i ≤ Z.of_nat (length v) ≤ SIZE_MAX ∧
      rounded (Z.of_nat (length v)).
Proof.
  intros Hs Hwf Hl. destruct (performs_ok s w os Hs Hl) as (made & left_ & rs & w' & s' & -> & Hrun & Hsteps & Hs' & Hleft).
  exists made, left_, rs, w', s'. split_and!; try done. intros x v i Hx.
  destruct (buffer_at_ok _ _ _ _ (sh_ok _ _ Hs') Hx) as [Hi Hmax]. pose proof Hi as [Hr Hk].
  apply (steps_well_formed _ _ _ _ (legal_app _ _ _ Hl) Hsteps) in Hwf.
  assert (buffers s' !! x = Some (Some (queue_of v i))) as Hq.
  { destruct Hx as [Ha Hc]. by rewrite <- (sh_buffers _ _ Hs'), queues_lookup, Ha, Hc. }
  destruct (Hwf x _ Hq) as (_ & _ & Ht). by rewrite total_of in Ht.
Qed.

(** C37: What a refused private copy leaves behind is unreadable.  A shared buffer
    with bytes to read asks for a block of its own with [mutableBytes] and is
    refused: [readableBytes] still counts the bytes, but the block is gone, and
    reading any of them reads through a null pointer. *)
Theorem failed_copy_reads_null x v i size w :
  world_ok w → fits (storage w) → buffer_at w x v i → copy_refused (storage w) x →
  readerIndex i < writerIndex i → 0 < size →
  wp (p ← mutableBytes x; n ← readableBytes x; mret (p, n))
    (λ '(p, n) w', p = Null ∧ n = writerIndex i - readerIndex i ∧ halts (readString x size) FUndefined w') w.
Proof.
  intros Hw Hfit Hx Href Hlt Hsize. destruct (buffer_at_ok _ _ _ _ Hw Hx) as [[Hr Hk] Hmax]. destruct Hx as [Ha Hc].
  unfold mutableBytes, storage_unique. wp_step. apply wp_on_storage. wp_step.
  apply (wp_unique_value x v); [apply Hw|done..|].
  intros e t c1 Hok1 Hex Ht Hun Habs _ _ _ _ _.
  apply (copy_refused_empty _ _ _ _ Href) in Hun. rewrite Hun in Habs. simpl in Hun.
  pose proof (so_ok _ _ (ok_pool _ Hok1) e t Ht) as Htok.
  assert (Storage.bytes t = Null) as Hnull.
  { destruct Htok as [|a b cs m Hal Hb Hpos]; [done|]. rewrite (contents_block _ _ cs) in Hun by done. subst cs. simpl in Hpos. lia. }
  eapply wp_on_element_const; [done|]. unfold getBytes, this. wp_go. split; [done|]. rewrite Hnull.
  wp_step. eapply wp_readableBytes; [done|lia|lia|]. apply wp_ret. split_and!; [done|done|].
  unfold readString. apply halts_bind_r. eapply wp_readableBytes; [done|lia|lia|]. rewrite minimumOf_min.
  rewrite (proj2 (Z.eqb_neq _ 0)) by lia.
  apply halts_bind_r. unfold readableBytesView, bytes. wp_step. eapply wp_storage_read; [done|simpl; rewrite Habs; apply lookup_insert_eq|].
  intros u Hu _. assert (u = t) as ->.
  { apply (exclusive_element _ _ _ _ Hex) in Ht as (e1 & He1 & H1). destruct Hu as (e2 & He2 & H2). simpl in *. congruence. }
  unfold getBytes, this. wp_go. split; [done|]. rewrite Hnull. simpl. apply wp_ret.
  apply halts_bind_l. unfold on_storage, in_ext. unfold halts, zoom. done.
Qed.

(** ** A client *)

Definition demo_memory : gmap positive (list cell) := {[1%positive := demo_text; 2%positive := uninit 8]}.
Definition demo_client : client := mkClient ∅ demo_memory.

(** Two buffers share "hello, world!" until the second one writes. *)
Definition demo_program : list statement :=
  [Member (New 1 default_allocator 8);
   Call 1 (WriteCString (Ptr 1 0));
   Member (Copy 2 1);
   Call 1 (SkipBytes 6);
   Call 2 (WriteBytes (Ptr 1 5) 7);
   Call 1 (ReadBytes (Ptr 2 0) 6);
   Call 1 DiscardReadBytes;
   Member (MoveAssign_ 1 2);
   Call 1 (ReadString 5);
   Member (Destroy 2);
   Member (Destroy 1)].

Lemma demo_shows plan : shows demo_client (demo_start plan).
Proof.
  split; [apply demo_start_ok|vm_compute; reflexivity| |vm_compute; reflexivity].
  unfold out, demo_start. simpl. vm_compute. reflexivity.
Qed.

Example demo_results : match performs demo_program (demo_start []) with Done rs _ => rs | _ => [] end =
  [RUnit; RCount 12; RUnit; RCount 6; RCount 7; RCount 6; RUnit; RUnit;
   RBytes (some_cells [x68; x65; x6c; x6c; x6f]); RUnit; RUnit].
Proof. vm_compute. reflexivity. Qed.

(** Legal whichever way the statements go. *)
Lemma legal_member s o bs os : member_step (buffers s) o bs →
  (∀ bs, member_step (buffers s) o bs → few bs ∧ legal (mkClient bs (memory s)) os) →
  legal s (Member o :: os).
Proof.
  intros Ho Hos. split; [split; [by exists bs|]|].
  - intros bs' Hbs. by apply Hos.
  - intros r s' Hstep. inversion Hstep as [bs0 cm0 o0 bs' Hm|]; subst. by apply Hos.
Qed.

Lemma legal_call s x q m os : buffers s !! x = Some (Some q) → method_legal (memory s) q m →
  (∀ r q' cm', method_step (memory s) m q r q' cm' → legal (mkClient (<[x := Some q']> (buffers s)) cm') os) →
  legal s (Call x m :: os).
Proof.
  intros Hq Hl Hos. split; [by exists q|]. intros r s' Hstep.
  inversion Hstep as [|bs cm y m' r' q1 q' cm' Hq1 Hm]; subst. simpl in *. simplify_eq. by eapply Hos.
Qed.

Lemma legal_write s x q m data os : buffers s !! x = Some (Some q) → source (memory s) m = Some data →
  method_legal (memory s) q m →
  (∀ q', legal (mkClient (<[x := Some q']> (buffers s)) (memory s)) os) → legal s (Call x m :: os).
Proof.
  intros Hq Hsrc Hl Hos. eapply legal_call; [done|done|]. intros r q' cm' Hm.
  by destruct Hm; try (by simpl in Hsrc).
Qed.

(** The part of the program up to the second write and the first reads. *)
Definition demo_part : list statement :=
  [Member (New 1 default_allocator 8); Call 1 (WriteCString (Ptr 1 0)); Member (Copy 2 1);
   Call 2 (WriteBytes (Ptr 1 5) 7); Call 1 (ReadString 5); Call 2 DiscardReadBytes;
   Member (MoveAssign_ 1 2); Member (Destroy 1)].

Lemma demo_legal : legal demo_client demo_part.
Proof.
  eapply legal_member. { apply (step_new _ 1 _ 8 0); [apply _|vm_compute; by split|done|by left]. }
  intros bs Hm. inversion Hm; subst; clear Hm. split; [vm_compute; reflexivity|].
  eapply (legal_write _ 1); [reflexivity|vm_compute; reflexivity| |intros q1].
  { eexists. split; [vm_compute; reflexivity|]. vm_compute. discriminate. }
  eapply legal_member. { by apply (step_copy _ 2 1 q1). }
  intros bs Hm. inversion Hm as [|x y q Hx Hy| | | |]; subst; clear Hm. split; [vm_compute; reflexivity|].
  eapply (legal_write _ 2); [reflexivity|vm_compute; reflexivity| |intros q2].
  { split; [vm_compute; by split|]. eexists. vm_compute. reflexivity. }
  eapply (legal_call _ 1); [reflexivity|vm_compute; by split|]. intros r3 q3 cm3 Hm. inversion Hm; subst; clear Hm; try done.
  eapply (legal_call _ 2); [reflexivity|done|]. intros r4 q4 cm4 Hm. inversion Hm; subst; clear Hm; try done.
  eapply legal_member. { eapply (step_move_assign _ 1 2); reflexivity. }
  intros bs Hm. inversion Hm; subst; clear Hm. split; [vm_compute; reflexivity|].
  eapply legal_member. { eapply (step_destroy _ 1). reflexivity. }
  intros bs Hm. inversion Hm; subst; clear Hm. split; [vm_compute; reflexivity|done].
Qed.

Lemma demo_well_formed : well_formed_client demo_client.
Proof. apply map_Forall_empty. Qed.

Lemma buffers_refine_queues_witness :
  ∃ made left_ rs w' s', demo_part = made ++ left_ ∧ performs made (demo_start []) = Done rs w' ∧
    client_steps demo_client made rs s' ∧ shows s' w' ∧
    match left_ with [] => True | o :: _ => refused s' w' o end ∧
    (buffers s' = ∅ → m_blocks (ext (storage w')) = memory s').
Proof. exact (buffers_refine_queues demo_client (demo_start []) demo_part (demo_shows []) demo_legal). Defined.

Lemma buffers_well_formed_witness :
  ∃ made left_ rs w' s', demo_part = made ++ left_ ∧ performs made (demo_start []) = Done rs w' ∧
    match left_ with [] => True | o :: _ => refused s' w' o end ∧
    ∀ x v i, buffer_at w' x v i →
      0 ≤ readerIndex i ≤ writerIndex i ∧ writerIndex i ≤ Z.of_nat (length v) ≤ SIZE_MAX ∧
      rounded (Z.of_nat (length v)).
Proof.
  exact (buffers_well_formed demo_client (demo_start []) demo_part (demo_shows []) demo_well_formed demo_legal).
Defined.

Lemma failed_copy_reads_null_witness :
  wp (p ← mutableBytes 2; n ← readableBytes 2; mret (p, n))
    (λ '(p, n) w', p = Null ∧ n = writerIndex demo_indices - readerIndex demo_indices ∧
      halts (readString 2 1) FUndefined w') (demo_two [Move; Refuse]).
Proof.
  exact (failed_copy_reads_null 2 demo_value demo_indices 1 (demo_two [Move; Refuse]) (demo_two_ok [Refuse])
    ltac:(vm_compute; reflexivity) (demo_two_at [Refuse]) (demo_refused []) ltac:(reflexivity) ltac:(reflexivity)).
Defined.

End BufferClients.
