(* ===== verification/Diagnostics.v ===== *)
(** * [Diagnostics] of [Diagnostics.h] and [Diagnostics.cpp]

    Leveled messages, echoed to a stream and kept when they are errors.  The
    state is the object and the open streams; [printf] formatting is modelled
    for the conversions the library uses. *)

From Stdlib Require Import Ascii.
From stdpp Require Import pretty.
From S2P Require Import Prelude.

Module Diagnostics.

Inductive Behavior := debug_ | info_ | warning_ | error_.

#[export] Instance Behavior_eq_dec : EqDecision Behavior.
Proof. solve_decision. Defined.

Record Message := mkMessage { behavior : Behavior; text : string }.

Record Diagnostics := mkDiagnostics {
  stream : option positive;
  prefix : string;
  errors : list Message;
}.

(** What has been written to each open stream; [stderr] is always open. *)
Notation io := (gmap positive string).
Definition stderr : positive := 2.

(** Methods run on the object and the streams. *)
Definition dprog (A : Type) : Type := prog (Diagnostics * io) A.

Definition self : dprog Diagnostics := gets fst.
Definition set_errors (es : list Message) : dprog unit :=
  modify (λ s, (mkDiagnostics (stream s.1) (prefix s.1) es, s.2)).

(** The two constructors: a stream alone, and a prefix with a stream. *)
Definition diagnostics (stream : option positive) : Diagnostics := mkDiagnostics stream "" [].
Definition diagnostics_prefix (prefix : string) (stream : option positive) : Diagnostics :=
  mkDiagnostics stream prefix [].

(** ** The C library *)

(** A string as C sees it through [c_str()]: up to the first NUL. *)
Fixpoint c_str (s : string) : string :=
  match s with
  | EmptyString => EmptyString
  | String c s => if decide (c = zero) then EmptyString else String c (c_str s)
  end.

(** Writing to an open stream. *)
Definition fputs (f : positive) (s : string) : dprog unit :=
  files ← gets snd;
  old ← of_option FUndefined (files !! f);
  modify (λ st, (st.1, <[f := (old +:+ s)%string]> files)).

(** The arguments of a format: [int], [unsigned long], [const char *]. *)
Inductive arg :=
| AInt (z : Z)
| AULong (z : Z)
| AStr (s : string).

Definition hex_digit (d : Z) : ascii :=
  ascii_of_nat (Z.to_nat (if d <? 10 then 48 + d else 55 + d)).

(** Upper-case hexadecimal, most significant digit first, for 64-bit values. *)
Fixpoint hex (fuel : nat) (z : Z) (acc : string) : string :=
  match fuel with
  | O => acc
  | S n => let acc := String (hex_digit (z `mod` 16)) acc in
           if z <? 16 then acc else hex n (z / 16) acc
  end.

(** The text of [%d], [%s], [%lX] (the 0 flag of [%0lX] has no effect without a
    width) and [%%]; [None] for an argument of another type, or a conversion
    that the library does not use. *)
Fixpoint format_text (f : string) (args : list arg) : option string :=
  match f with
  | EmptyString => Some EmptyString
  | String "%" (String "d" f) =>
      match args with
      | AInt z :: args => t ← format_text f args; Some (pretty z +:+ t)%string
      | _ => None
      end
  | String "%" (String "s" f) =>
      match args with
      | AStr s :: args => t ← format_text f args; Some (c_str s +:+ t)%string
      | _ => None
      end
  | String "%" (String "0" (String "l" (String "X" f))) =>
      match args with
      | AULong z :: args => t ← format_text f args; Some (hex 16 z "" +:+ t)%string
      | _ => None
      end
  | String "%" (String "%" f) => t ← format_text f args; Some (String "%" t)
  | String "%" _ => None
  | String c f => t ← format_text f args; Some (String c t)
  end.

Definition INT_MAX : Z := 2 ^ 31 - 1.

(** [vsnprintf(nullptr, 0, ...)]: the length of the text, or a negative number
    when it is too long for an [int]. *)
Definition vsnprintf_length (f : string) (args : list arg) : dprog Z :=
  t ← of_option FUndefined (format_text f args);
  let n := Z.of_nat (String.length t) in
  mret (if n <=? INT_MAX then n else -1).

(** [vsnprintf(buf, size, ...)]: the first [size - 1] characters. *)
Definition vsnprintf (size : Z) (f : string) (args : list arg) : dprog string :=
  t ← of_option FUndefined (format_text f args);
  mret (String.substring 0 (Z.to_nat (size - 1)) t).

(** ** The methods *)

(** [append(const Message &)] *)
Definition append_message (message : Message) : dprog unit :=
  d ← self;
  match stream d with
  | Some f =>
      when (negb (bool_decide (prefix d = ""%string)))
        (fputs f ("[" +:+ c_str (prefix d) +:+ "] ")%string);;
      fputs f (c_str (text message) +:+ String (ascii_of_nat 10) "")%string
  | None => mret tt
  end;;
  when (bool_decide (behavior message = error_)) (set_errors (errors d ++ [message])).

(** [append(Behavior, const char *, va_list)] *)
Definition append_format (b : Behavior) (format : string) (args : list arg) : dprog unit :=
  length ← vsnprintf_length format args;
  if length <=? 0 then mret tt
  else
    size ← (if length + 1 <=? INT_MAX then mret (length + 1) else stop FOverflow);
    buf ← vsnprintf size format args;
    append_message (mkMessage b buf).

Definition debug (format : string) (args : list arg) : dprog unit := append_format debug_ format args.
Definition info (format : string) (args : list arg) : dprog unit := append_format info_ format args.
Definition warning (format : string) (args : list arg) : dprog unit := append_format warning_ format args.
Definition error (format : string) (args : list arg) : dprog unit := append_format error_ format args.

Definition hasError : dprog bool := d ← self; mret (negb (bool_decide (errors d = []))).
Definition noError : dprog bool := d ← self; mret (bool_decide (errors d = [])).
Definition getErrors : dprog (list Message) := d ← self; mret (errors d).
Definition clearError : dprog unit := set_errors [].

Fixpoint print_errors (out : positive) (ms : list Message) : dprog unit :=
  match ms with
  | [] => mret tt
  | message :: ms =>
      d ← self;
      when (negb (bool_decide (prefix d = ""%string)))
        (fputs out ("[" +:+ c_str (prefix d) +:+ "] ")%string);;
      fputs out ("assertNoError: " +:+ c_str (text message) +:+ String (ascii_of_nat 10) "")%string;;
      print_errors out ms
  end.

Definition assertNoError : dprog unit :=
  ok ← noError;
  if ok : bool then mret tt
  else
    d ← self;
    print_errors (default stderr (stream d)) (errors d);;
    stop FAbort.

(** ** What is echoed and what is kept *)

Definition newline : string := String (ascii_of_nat 10) "".

Definition tag (d : Diagnostics) : string :=
  if decide (prefix d = ""%string) then ""%string else ("[" +:+ c_str (prefix d) +:+ "] ")%string.

(** The line a message is echoed as, and the line [assertNoError] prints for it. *)
Definition echo (d : Diagnostics) (m : Message) : string :=
  (tag d +:+ c_str (text m) +:+ newline)%string.
Definition report (d : Diagnostics) (m : Message) : string :=
  (tag d +:+ "assertNoError: " +:+ c_str (text m) +:+ newline)%string.

Definition concat_strings (ss : list string) : string := foldr String.app ""%string ss.

Definition kept (ms : list Message) : list Message := filter (λ m, behavior m = error_) ms.

Definition with_errors (es : list Message) (d : Diagnostics) : Diagnostics :=
  mkDiagnostics (stream d) (prefix d) es.

(** The streams after writing [t] to the stream of [d], if it has one. *)
Definition written (d : Diagnostics) (t : string) (files : io) : io :=
  match stream d with
  | Some f => match files !! f with Some old => <[f := (old +:+ t)%string]> files | None => files end
  | None => files
  end.

(** The stream of the object, if any, is open. *)
Definition stream_open (d : Diagnostics) (files : io) : Prop :=
  ∀ f, stream d = Some f → is_Some (files !! f).

Lemma app_assoc_s (a b c : string) : ((a +:+ b) +:+ c = a +:+ b +:+ c)%string.
Proof. induction a as [|ch a IH]; [done|]. exact (f_equal (String ch) IH). Qed.

Lemma app_nil_s (a : string) : (a +:+ "" = a)%string.
Proof. induction a as [|ch a IH]; [done|]. exact (f_equal (String ch) IH). Qed.

Lemma written_app d t u files :
  written d u (written d t files) = written d (t +:+ u)%string files.
Proof.
  unfold written. destruct (stream d) as [f|]; [|done].
  destruct (files !! f) as [old|] eqn:E; [|by rewrite E].
  simpl. by rewrite lookup_insert_eq, insert_insert_eq, app_assoc_s.
Qed.

Lemma written_nil d files : written d ""%string files = files.
Proof.
  unfold written. destruct (stream d) as [f|]; [|done].
  destruct (files !! f) as [old|] eqn:E; [|done]. rewrite app_nil_s. by apply insert_id.
Qed.

Lemma written_open d d' t files : stream_open d' files → stream_open d' (written d t files).
Proof.
  intros Ho f Hf. specialize (Ho f Hf). unfold written. destruct (stream d) as [f'|]; [|done].
  destruct (files !! f') eqn:E; [|done]. apply lookup_insert_is_Some'. by right.
Qed.

Lemma wp_fputs f t Q d files old : files !! f = Some old →
  Q tt (d, <[f := (old +:+ t)%string]> files) → wp (fputs f t) Q (d, files).
Proof.
  intros Hf HQ. unfold fputs. wp_step. apply wp_gets. wp_step. simpl. rewrite Hf.
  eapply wp_of_option; [done|]. by apply wp_modify.
Qed.

(** The optional tag and then a text, on an open stream. *)
Lemma wp_tagged f t Q d files old : files !! f = Some old →
  Q tt (d, <[f := (old +:+ tag d +:+ t)%string]> files) →
  wp (when (negb (bool_decide (prefix d = ""%string)))
        (fputs f ("[" +:+ c_str (prefix d) +:+ "] ")%string);;
      fputs f t) Q (d, files).
Proof.
  intros Hf HQ. unfold tag in HQ. wp_step. apply wp_when; intros Ht; b2p.
  - rewrite decide_False in HQ by done. eapply wp_fputs; [done|].
    eapply wp_fputs; [apply lookup_insert_eq|]. by rewrite insert_insert_eq, app_assoc_s.
  - rewrite decide_True in HQ by done. by eapply wp_fputs.
Qed.

Lemma wp_append_message m Q d files :
  stream_open d files →
  Q tt (with_errors (errors d ++ kept [m]) d, written d (echo d m) files) →
  wp (append_message m) Q (d, files).
Proof.
  intros Ho HQ. unfold append_message, self. wp_step. apply wp_gets. wp_step. simpl.
  assert (∀ files', Q tt (with_errors (errors d ++ kept [m]) d, files') →
    wp (when (bool_decide (behavior m = error_)) (set_errors (errors d ++ [m]))) Q (d, files')) as Hend.
  { intros files' HQ'. unfold kept in HQ'. rewrite filter_cons, filter_nil in HQ'.
    apply wp_when; intros Hb; b2p.
    - rewrite decide_True in HQ' by done. by apply wp_modify.
    - rewrite decide_False, app_nil_r in HQ' by done. unfold with_errors in HQ'. by destruct d. }
  unfold written in HQ. destruct (stream d) as [f|] eqn:Hs; [|by apply wp_ret, Hend].
  destruct (Ho f Hs) as [old Hf]. rewrite Hf in HQ. eapply wp_tagged; [done|]. by apply Hend.
Qed.

(** ** Formatted messages *)

Lemma substring_all (t : string) n : (String.length t ≤ n)%nat → String.substring 0 n t = t.
Proof.
  revert n. induction t as [|ch t IH]; intros n Hn; destruct n; simpl in *; try done; [lia|].
  f_equal. apply IH. lia.
Qed.

Lemma wp_append_format b f args t Q d files :
  format_text f args = Some t → t ≠ ""%string → Z.of_nat (String.length t) < INT_MAX →
  wp (append_message (mkMessage b t)) Q (d, files) → wp (append_format b f args) Q (d, files).
Proof.
  intros Hf Hne Hlen Hm. unfold append_format, vsnprintf_length, vsnprintf. rewrite Hf.
  assert (0 < Z.of_nat (String.length t)) by (destruct t; [done|simpl; lia]).
  wp_step. wp_step. eapply wp_of_option; [done|]. wp_step.
  destruct (Z.leb_spec (Z.of_nat (String.length t)) INT_MAX); [|lia].
  destruct (Z.leb_spec (Z.of_nat (String.length t)) 0); [lia|].
  wp_step. destruct (Z.leb_spec (Z.of_nat (String.length t) + 1) INT_MAX); [|lia].
  wp_step. wp_step. wp_step. eapply wp_of_option; [done|]. wp_step.
  by rewrite substring_all by lia.
Qed.

(** A sequence of formatted logs. *)
Fixpoint log_all (es : list (Behavior * string * list arg)) : dprog unit :=
  match es with
  | [] => mret tt
  | (b, f, args) :: es => append_format b f args;; log_all es
  end.

(** The message an entry formats to, neither empty nor too long for [vsnprintf]. *)
Definition formats (e : Behavior * string * list arg) (m : Message) : Prop :=
  behavior m = e.1.1 ∧ format_text e.1.2 e.2 = Some (text m) ∧ text m ≠ ""%string ∧
  Z.of_nat (String.length (text m)) < INT_MAX.

Lemma wp_log_all es ms Q d files :
  Forall2 formats es ms → stream_open d files →
  Q tt (with_errors (errors d ++ kept ms) d, written d (concat_strings (echo d <$> ms)) files) →
  wp (log_all es) Q (d, files).
Proof.
  intros Hes. revert d files. induction Hes as [|[[b f] args] m es ms Hm _ IH]; intros d files Ho HQ.
  - apply wp_ret. unfold kept in HQ. rewrite filter_nil, app_nil_r in HQ. simpl in HQ.
    rewrite written_nil in HQ. by destruct d.
  - destruct Hm as (Hb & Hf & Hne & Hlen). simpl in *. wp_step.
    eapply wp_append_format; [done..|]. destruct m as [b' t]. simpl in *. subst b'.
    apply wp_append_message; [done|]. apply IH; [by apply written_open|].
    change (echo (with_errors ?es d)) with (echo d). simpl.
    unfold kept in *. unfold with_errors in *. simpl. rewrite <- app_assoc, <- filter_app. simpl.
    change (written (mkDiagnostics (stream d) (prefix d) ?es)) with (written d).
    by rewrite written_app.
Qed.

(** Running code that stops: the fault and the state it stops in. *)
Definition stops {S A} (m : prog S A) (f : fault) (s s' : S) : Prop := m s = Stop f s'.

Lemma stops_bind {S A B} (m : prog S A) (k : A → prog S B) f s s' :
  wp m (λ a s1, stops (k a) f s1 s') s → stops (m ≫= k) f s s'.
Proof. unfold stops, wp, mbind, prog_bind. by destruct (m s). Qed.

Lemma wp_print_errors out ms Q d files old :
  files !! out = Some old →
  Q tt (d, <[out := (old +:+ concat_strings (report d <$> ms))%string]> files) →
  wp (print_errors out ms) Q (d, files).
Proof.
  revert files old. induction ms as [|m ms IH]; intros files old Hf HQ; simpl.
  { apply wp_ret. simpl in HQ. by rewrite app_nil_s, insert_id in HQ. }
  unfold self. wp_step. apply wp_gets. simpl.
  assert (∀ (m1 m2 : dprog unit) (k : dprog unit) P s, wp (m1;; m2) (λ _ s', wp k P s') s →
    wp (m1;; m2;; k) P s) as Hassoc.
  { intros m1 m2 k P st Hw. wp_step. unfold wp, mbind, prog_bind in *. destruct (m1 st); [|done].
    by destruct (m2 s). }
  apply Hassoc. eapply wp_tagged; [done|]. eapply IH; [apply lookup_insert_eq|].
  rewrite insert_insert_eq. simpl in HQ. unfold report at 1 in HQ. by rewrite !app_assoc_s in *.
Qed.

(** ** A client of the class *)

(** The member functions with their arguments. *)
Inductive member :=
| Append (message : Message)
| AppendFormat (b : Behavior) (format : string) (args : list arg)
| Debug (format : string) (args : list arg)
| Info (format : string) (args : list arg)
| Warning_ (format : string) (args : list arg)
| Error_ (format : string) (args : list arg)
| HasError
| NoError
| GetErrors
| ClearError
| AssertNoError.

Inductive reply := Nothing | Flag (b : bool) | Messages (ms : list Message).

Definition call (c : member) : dprog reply :=
  match c with
  | Append message => append_message message;; mret Nothing
  | AppendFormat b format args => append_format b format args;; mret Nothing
  | Debug format args => debug format args;; mret Nothing
  | Info format args => info format args;; mret Nothing
  | Warning_ format args => warning format args;; mret Nothing
  | Error_ format args => error format args;; mret Nothing
  | HasError => b ← hasError; mret (Flag b)
  | NoError => b ← noError; mret (Flag b)
  | GetErrors => ms ← getErrors; mret (Messages ms)
  | ClearError => clearError;; mret Nothing
  | AssertNoError => assertNoError;; mret Nothing
  end.

Fixpoint calls (cs : list member) : dprog (list reply) :=
  match cs with
  | [] => mret []
  | c :: cs => r ← call c; rs ← calls cs; mret (r :: rs)
  end.

(** What a call logs: one message, or none if there is no text. *)
Definition formatted (b : Behavior) (format : string) (args : list arg) : option (list Message) :=
  t ← format_text format args;
  if INT_MAX <=? Z.of_nat (String.length t) then None
  else Some (if decide (t = ""%string) then [] else [mkMessage b t]).

Definition logged (c : member) : option (list Message) :=
  match c with
  | Append message => Some [message]
  | AppendFormat b format args => formatted b format args
  | Debug format args => formatted debug_ format args
  | Info format args => formatted info_ format args
  | Warning_ format args => formatted warning_ format args
  | Error_ format args => formatted error_ format args
  | _ => Some []
  end.

Definition answer (c : member) (es : list Message) : reply :=
  match c with
  | HasError => Flag (negb (bool_decide (es = [])))
  | NoError => Flag (bool_decide (es = []))
  | GetErrors => Messages es
  | _ => Nothing
  end.

Definition keep (c : member) (es ms : list Message) : list Message :=
  match c with ClearError => [] | _ => es ++ kept ms end.

Definition aborts (c : member) (es : list Message) : bool :=
  match c with AssertNoError => negb (bool_decide (es = [])) | _ => false end.

(** The transcript of a run: the answers, or [None] where the process aborts, the
    errors kept and the messages echoed. *)
Fixpoint transcript (cs : list member) (es : list Message) :
    option (option (list reply) * list Message * list Message) :=
  match cs with
  | [] => Some (Some [], es, [])
  | c :: cs =>
      ms ← logged c;
      if aborts c es then Some (None, es, [])
      else '(rs, es', ms') ← transcript cs (keep c es ms);
           Some (option_map (cons (answer c es)) rs, es', ms ++ ms')
  end.

(** What the object and the streams are then; an abort reports on the stream of
    the object or on [stderr]. *)
Definition echoed (d : Diagnostics) (ms : list Message) (files : io) : io :=
  written d (concat_strings (echo d <$> ms)) files.

Definition reported (d : Diagnostics) (es : list Message) (files : io) : io :=
  let out := default stderr (stream d) in
  <[out := (default "" (files !! out) +:+ concat_strings (report d <$> es))%string]> files.

Definition recorded (d : Diagnostics) (files : io) (x : option (list reply) * list Message * list Message) :
    outcome (Diagnostics * io) (list reply) :=
  let '(rs, es, ms) := x in
  match rs with
  | Some rs => Done rs (with_errors es d, echoed d ms files)
  | None => Stop FAbort (with_errors es d, reported d es (echoed d ms files))
  end.

Lemma formatted_run b f args ms d files : formatted b f args = Some ms → stream_open d files →
  append_format b f args (d, files) = Done tt (with_errors (errors d ++ kept ms) d, echoed d ms files).
Proof.
  unfold formatted. intros Hf Ho. destruct (format_text f args) as [t|] eqn:Ht; simpl in Hf; [|done].
  destruct (Z.leb_spec INT_MAX (Z.of_nat (String.length t))) as [|Hl]; [done|]. injection Hf as <-.
  assert (wp (append_format b f args) (λ _ s', s' = (with_errors (errors d ++ kept (if decide (t = ""%string) then [] else [mkMessage b t])) d,
    echoed d (if decide (t = ""%string) then [] else [mkMessage b t]) files)) (d, files)) as Hw.
  { case_decide as He.
    - subst t. unfold append_format, vsnprintf_length. rewrite Ht. wp_step. wp_step.
      eapply wp_of_option; [done|]. wp_step. simpl. apply wp_ret. unfold echoed, kept. simpl.
      rewrite filter_nil, app_nil_r, written_nil. by destruct d.
    - eapply wp_append_format; [done..|]. apply wp_append_message; [done|].
      unfold echoed. simpl. by rewrite app_nil_s. }
  apply wp_exec in Hw as ([] & s' & Hrun & ->). exact Hrun.
Qed.

Lemma call_run c ms d files : logged c = Some ms → stream_open d files → aborts c (errors d) = false →
  call c (d, files) = Done (answer c (errors d)) (with_errors (keep c (errors d) ms) d, echoed d ms files).
Proof.
  intros Hl Ho Ha.
  assert (with_errors (errors d) d = d) as Hd by by destruct d.
  assert (ms = [] → echoed d ms files = files) as Hnil by (intros ->; apply written_nil).
  destruct c; simpl in Hl; try (injection Hl as <-; rewrite Hnil by done);
    unfold call, debug, info, warning, error, hasError, noError, getErrors, clearError, mbind, prog_bind;
    try (by rewrite (formatted_run _ _ _ ms)).
  - injection Hl as <-. cbv beta. assert (wp (append_message message) (λ _ s', s' = (with_errors (errors d ++ kept [message]) d,
      echoed d [message] files)) (d, files)) as ([] & s' & -> & ->)%wp_exec; [|done].
    apply wp_append_message; [done|]. unfold echoed. simpl. by rewrite app_nil_s.
  - simpl. unfold kept. rewrite filter_nil, app_nil_r, Hd. done.
  - simpl. unfold kept. rewrite filter_nil, app_nil_r, Hd. done.
  - simpl. unfold kept. rewrite filter_nil, app_nil_r, Hd. done.
  - simpl. done.
  - simpl in Ha. apply negb_false_iff in Ha. apply bool_decide_eq_true in Ha.
    unfold assertNoError, noError, self, gets, mbind, prog_bind. simpl. rewrite bool_decide_eq_true_2 by done. simpl.
    unfold kept. rewrite filter_nil, app_nil_r, Hd. done.
Qed.

Lemma concat_strings_app ss ts : concat_strings (ss ++ ts) = (concat_strings ss +:+ concat_strings ts)%string.
Proof. induction ss as [|s ss IH]; [done|]. simpl. by rewrite IH, app_assoc_s. Qed.

Lemma written_there d t files f : is_Some (files !! f) → is_Some (written d t files !! f).
Proof.
  intros Hf. unfold written. destruct (stream d) as [f'|]; [|done].
  destruct (files !! f'); [|done]. apply lookup_insert_is_Some'. by right.
Qed.

(** ** The properties *)

(** [assertNoError] does nothing if no error has been kept; otherwise it
    prints every kept error, on the stream or on [stderr], and aborts. *)
Theorem assertNoError_correct d files old :
  files !! default stderr (stream d) = Some old →
  (errors d = [] → wp assertNoError (λ _ s', s' = (d, files)) (d, files)) ∧
  (errors d ≠ [] → stops assertNoError FAbort (d, files)
    (d, <[default stderr (stream d) :=
           (old +:+ concat_strings (report d <$> errors d))%string]> files)).
Proof.
  intros Hf. unfold assertNoError, noError, self. split; intros He.
  - wp_step. wp_step. apply wp_gets. wp_step. simpl. by rewrite bool_decide_eq_true_2.
  - apply stops_bind. wp_step. apply wp_gets. wp_step. simpl. rewrite bool_decide_eq_false_2 by done.
    apply stops_bind, wp_gets. apply stops_bind. simpl. by eapply wp_print_errors.
Qed.

(** C18: Whatever a program does with one [Diagnostics], it gets the answers of a
    list of the errors.  Any sequence of its member functions runs as [transcript]
    says: every message is echoed as one line with the prefix in brackets and
    never truncated; an error is kept, in order, until [clearError]; [hasError],
    [noError] and [getErrors] tell what is kept; a formatted message without text
    does nothing; and the first [assertNoError] with an error kept prints all of
    them, on the stream or [stderr], and aborts. *)
Theorem diagnostics_refines cs d files x :
  transcript cs (errors d) = Some x → stream_open d files → is_Some (files !! stderr) →
  calls cs (d, files) = recorded d files x.
Proof.
  revert d files x. induction cs as [|c cs IH]; intros d files x Hx Ho Hstd; simpl in Hx.
  { injection Hx as <-. simpl. unfold echoed. simpl. rewrite written_nil. by destruct d. }
  destruct (logged c) as [ms|] eqn:Hl; simpl in Hx; [|done]. simpl. unfold mbind, prog_bind.
  destruct (aborts c (errors d)) eqn:Ha.
  - injection Hx as <-. destruct c; try done. apply negb_true_iff, bool_decide_eq_false in Ha.
    assert (is_Some (files !! default stderr (stream d))) as [old Hold].
    { destruct (stream d) as [f|] eqn:Hf; [by apply Ho|done]. }
    pose proof (proj2 (assertNoError_correct d files old Hold) Ha) as Hstop. unfold stops in Hstop.
    cbn [call]. unfold mbind, prog_bind. rewrite Hstop. simpl. unfold reported, echoed. simpl.
    rewrite written_nil, Hold. simpl. by destruct d.
  - rewrite (call_run c ms) by done.
    destruct (transcript cs _) as [[[rs es'] ms']|] eqn:Ht; simpl in Hx; [|done]. injection Hx as <-.
    rewrite (IH (with_errors (keep c (errors d) ms) d) (echoed d ms files) (rs, es', ms'));
      [|done|by apply written_open|by apply written_there].
    assert (echoed d (ms ++ ms') files = echoed (with_errors (keep c (errors d) ms) d) ms' (echoed d ms files)) as Hms.
    { unfold echoed. rewrite fmap_app, concat_strings_app, <- written_app. done. }
    destruct rs; simpl; by rewrite Hms.
Qed.

(** In particular [debug], [info], [warning] and [error] keep exactly the errors:
    after any sequence of formatted messages the stream, if there is one, has
    received one line per message, [getErrors()] is what it was followed by the
    error messages, and [hasError()] says whether there are any. *)
Theorem diagnostics_collects es ms d files :
  Forall2 formats es ms → stream_open d files →
  wp (log_all es;; b ← hasError; l ← getErrors; mret (b, l)) (λ bl s',
    bl.2 = errors d ++ kept ms ∧ bl.1 = negb (bool_decide (errors d ++ kept ms = [])) ∧
    s'.2 = written d (concat_strings (echo d <$> ms)) files ∧
    s'.1 = with_errors (errors d ++ kept ms) d) (d, files).
Proof.
  intros Hes Ho. wp_step. eapply wp_log_all; [done|done|].
  unfold hasError, getErrors, self. wp_go. done.
Qed.

(** An error whose formatted text is empty is dropped: it is neither kept
    nor echoed, although [Diagnostics.h] says that messages logged at the error
    level are retained, and although [append] of the same message keeps it. *)
Theorem empty_error_dropped f args d files :
  format_text f args = Some ""%string → stream_open d files →
  wp (error f args) (λ _ s', s' = (d, files)) (d, files) ∧
  wp (append_message (mkMessage error_ "")) (λ _ s',
    errors s'.1 = errors d ++ [mkMessage error_ ""]) (d, files).
Proof.
  intros Hf Ho. split; [|by apply wp_append_message].
  unfold error, append_format, vsnprintf_length. rewrite Hf. wp_step. wp_step.
  eapply wp_of_option; [done|]. wp_step. simpl. done.
Qed.

(** ** Concrete runs *)

Definition test_entries : list (Behavior * string * list arg) :=
  [(debug_, "d"%string, []); (warning_, "w"%string, []); (error_, "e %d"%string, [AInt 1])].

Definition test_messages : list Message :=
  [mkMessage debug_ "d"; mkMessage warning_ "w"; mkMessage error_ "e 1"].

Definition test_diag : Diagnostics := diagnostics_prefix "np" (Some 3%positive).
Definition test_io : io := {[stderr := ""%string; 3%positive := ""%string]}.

Lemma test_formats : Forall2 formats test_entries test_messages.
Proof. repeat constructor; simpl; done || discriminate. Qed.

Lemma test_open : stream_open test_diag test_io.
Proof. intros f [= <-]. by eexists. Qed.

Example test_stream : snd <$> (match (log_all test_entries) (test_diag, test_io) with
    Done _ s => Some s | Stop _ _ => None end) =
  Some (<[3%positive := ("[np] d" +:+ newline +:+ "[np] w" +:+ newline +:+ "[np] e 1" +:+ newline)%string]> test_io).
Proof. vm_compute. reflexivity. Qed.

(** A program that checks at the end, and one that starts over. *)
Definition test_calls : list member :=
  [Warning_ "w" []; HasError; Error_ "e %d" [AInt 1]; Error_ "%s" [AStr ""]; GetErrors; AssertNoError; Debug "d" []].
Definition test_restart : list member :=
  [Error_ "e %d" [AInt 1]; ClearError; AssertNoError; NoError].

Example test_transcript : transcript test_calls [] =
  Some (None, [mkMessage error_ "e 1"], [mkMessage warning_ "w"; mkMessage error_ "e 1"]).
Proof. vm_compute. reflexivity. Qed.

Lemma diagnostics_refines_witness :
  calls test_restart (test_diag, test_io) =
    recorded test_diag test_io (Some [Nothing; Nothing; Nothing; Flag true], [], [mkMessage error_ "e 1"]).
Proof.
  apply (diagnostics_refines test_restart test_diag test_io).
  - vm_compute. reflexivity.
  - apply test_open.
  - by eexists.
Defined.

Lemma diagnostics_collects_witness :
  wp (log_all test_entries;; b ← hasError; l ← getErrors; mret (b, l)) (λ bl s',
    bl.2 = errors test_diag ++ kept test_messages ∧
    bl.1 = negb (bool_decide (errors test_diag ++ kept test_messages = [])) ∧
    s'.2 = written test_diag (concat_strings (echo test_diag <$> test_messages)) test_io ∧
    s'.1 = with_errors (errors test_diag ++ kept test_messages) test_diag) (test_diag, test_io).
Proof.
  apply (diagnostics_collects test_entries test_messages test_diag test_io).
  - apply test_formats.
  - apply test_open.
Defined.

Lemma assertNoError_correct_witness :
  (errors (with_errors [mkMessage error_ "e 1"] test_diag) = [] →
    wp assertNoError (λ _ s', s' = (with_errors [mkMessage error_ "e 1"] test_diag, test_io))
      (with_errors [mkMessage error_ "e 1"] test_diag, test_io)) ∧
  (errors (with_errors [mkMessage error_ "e 1"] test_diag) ≠ [] →
    stops assertNoError FAbort (with_errors [mkMessage error_ "e 1"] test_diag, test_io)
    (with_errors [mkMessage error_ "e 1"] test_diag, <[default stderr (stream test_diag) :=
       ("" +:+ concat_strings (report (with_errors [mkMessage error_ "e 1"] test_diag) <$>
                  errors (with_errors [mkMessage error_ "e 1"] test_diag)))%string]> test_io)).
Proof.
  apply (assertNoError_correct (with_errors [mkMessage error_ "e 1"] test_diag) test_io "").
  reflexivity.
Defined.

Lemma empty_error_dropped_witness :
  wp (error "%s" [AStr ""]) (λ _ s', s' = (test_diag, test_io)) (test_diag, test_io) ∧
  wp (append_message (mkMessage error_ "")) (λ _ s',
    errors s'.1 = errors test_diag ++ [mkMessage error_ ""]) (test_diag, test_io).
Proof.
  apply (empty_error_dropped "%s" [AStr ""] test_diag test_io); [reflexivity|apply test_open].
Defined.

(** The prefix gets brackets of its own, so the one of [README.md] gets two pairs. *)
Example readme_prefix :
  tag (diagnostics_prefix "[npfoundation] " None) = "[[npfoundation] ] "%string.
Proof. reflexivity. Qed.

End Diagnostics.
