(* ===== verification/Sys.v ===== *)
(** * The [Sys] wrappers of [sys.h] and [sys.cpp]

    POSIX calls whose failures are reported into a [Diagnostics].  The kernel is
    a parameter ([Kernel]): a state and an answer to every call.  Each call that
    is made is recorded with its answer in a trace, so that descriptors and
    mappings can be accounted for.  A retry loop runs with [fuel], a bound on how
    often in a row the kernel answers [EAGAIN] or [EINTR].  The constants are
    those of Darwin, the only platform with [F_GETPATH]. *)

From stdpp Require Import pretty.
From S2P Require Import Prelude Diagnostics.
Import Diagnostics.

(** [struct stat], as far as the code looks at it. *)
Record statbuf := mkStat { st_mode : Z; st_size : Z }.

(** The system calls, with their arguments. *)
Inductive call :=
| COpen (path : string) (flag mode : Z)
| CClose (fd : Z)
| CStat (path : string)
| CFstatat (fd : Z) (path : string) (flag : Z)
| CTruncate (path : string) (size : Z)
| CFtruncate (fd : Z) (size : Z)
| CGetPath (fd : Z)
| CMmap (len prot flags fd : Z)
| CMunmap (addr len : Z).

(** A return value, the [errno] of a failure, and what was written through the
    pointer argument of [stat] and [fcntl(F_GETPATH)]. *)
Record answer := mkAnswer { ret : Z; err : Z; out_stat : statbuf; out_path : string }.

Class Kernel (K : Type) := syscall : call → K → answer * K.

Module Sys.

Definition EINTR : Z := 4.
Definition EAGAIN : Z := 35.
Definition O_RDONLY : Z := 0.
Definition O_RDWR : Z := 2.
Definition O_CREAT : Z := 512.
Definition O_DIRECTORY : Z := 1048576.
Definition PROT_READ : Z := 1.
Definition PROT_WRITE : Z := 2.
Definition MAP_SHARED : Z := 1.
Definition MAP_PRIVATE : Z := 2.
Definition MAP_FAILED : Z := -1.
Definition S_ISDIR (m : Z) : bool := Z.land m 61440 =? 16384.
Definition S_ISREG (m : Z) : bool := Z.land m 61440 =? 32768.

Record sys (K : Type) := mkSys {
  kern : K;
  errno : Z;
  files : io;
  trace : list (call * answer);
  sizes : gmap positive Z;
  paths : gmap positive string;
}.
Arguments mkSys {K} _ _ _ _ _ _.
Arguments kern {K} _.
Arguments errno {K} _.
Arguments files {K} _.
Arguments trace {K} _.
Arguments sizes {K} _.
Arguments paths {K} _.

Section sys.
Context {K : Type} `{Kernel K} (strerror : Z → string) (fuel : nat).

(** Code with the caller's [Diagnostics &diag], and code without. *)
Definition sysprog (A : Type) : Type := prog (sys K) A.
Definition diagprog (A : Type) : Type := prog (Diagnostics * sys K) A.

Definition in_sys {A} (m : sysprog A) : diagprog A := zoom snd (λ s st, (st.1, s)) m.
Definition set_files (f : io) (s : sys K) : sys K :=
  mkSys (kern s) (errno s) f (trace s) (sizes s) (paths s).
Definition in_diag {A} (m : dprog A) : diagprog A :=
  zoom (λ st, (st.1, files st.2)) (λ df st, (df.1, set_files df.2 st.2)) m.

(** A local [Diagnostics] object. *)
Definition with_diag {A} (d : Diagnostics) (m : diagprog A) : sysprog A :=
  zoom (λ s, (d, s)) (λ ds _, ds.2) m.

(** [errno] is set by a call that fails. *)
Definition do_call (c : call) : sysprog answer := λ s,
  let '(a, k) := syscall c (kern s) in
  Done a (mkSys k (if ret a <? 0 then err a else errno s) (files s) (trace s ++ [(c, a)])
    (sizes s) (paths s)).

Definition get_errno : diagprog Z := in_sys (gets errno).

(** [*p = v] for a [size_t *], and writing a path into a buffer. *)
Definition set_size (p : positive) (v : Z) : diagprog unit :=
  in_sys (modify (λ s, mkSys (kern s) (errno s) (files s) (trace s) (<[p := v]> (sizes s)) (paths s))).
Definition set_path (p : positive) (v : string) : diagprog unit :=
  in_sys (modify (λ s, mkSys (kern s) (errno s) (files s) (trace s) (sizes s) (<[p := v]> (paths s)))).

(** [do { result = call } while (bad result && (errno == EAGAIN || errno == EINTR))] *)
Definition retry_body (bad : Z → bool) (c : call) (_ : unit) : diagprog (unit + answer) :=
  a ← in_sys (do_call c);
  e ← get_errno;
  mret (if bad (ret a) && ((e =? EAGAIN) || (e =? EINTR)) then inl tt else inr a).

Definition retry (bad : Z → bool) (c : call) : diagprog answer := loop fuel (retry_body bad c) tt.

Definition negative (r : Z) : bool := r <? 0.
Definition minus_one (r : Z) : bool := r =? -1.

Definition open (path : string) (flag other : Z) : diagprog Z :=
  a ← retry negative (COpen path flag other);
  let fd := ret a in
  when (fd <? 0)
    (err ← get_errno;
     in_diag (error "open() failed with errno=%d, %s" [AInt err; AStr (strerror err)]));;
  mret fd.

Definition close (fd : Z) : diagprog unit :=
  a ← in_sys (do_call (CClose fd));
  e ← get_errno;
  when (negb (ret a =? 0) && negb (e =? EINTR))
    (in_diag (error "close() failed with errno=%d, %s" [AInt e; AStr (strerror e)])).

(** The result is what was written to [*buf]: nothing on failure. *)
Definition stat (path : string) : diagprog (option statbuf) :=
  a ← retry minus_one (CStat path);
  when (negb (ret a =? 0))
    (err ← get_errno;
     in_diag (error "stat() failed with errno=%d, %s" [AInt err; AStr (strerror err)]));;
  mret (if ret a =? 0 then Some (out_stat a) else None).

Definition fstatat (fd : Z) (path : string) (flag : Z) : diagprog (option statbuf) :=
  a ← retry minus_one (CFstatat fd path flag);
  when (negb (ret a =? 0))
    (err ← get_errno;
     in_diag (error "fstatat() failed with errno=%d, %s" [AInt err; AStr (strerror err)]));;
  mret (if ret a =? 0 then Some (out_stat a) else None).

(** The size is converted from [size_t] to [off_t]. *)
Definition truncate (path : string) (size : Z) : diagprog unit :=
  a ← retry minus_one (CTruncate path (to_i64 size));
  when (negb (ret a =? 0))
    (err ← get_errno;
     in_diag (error "truncate() failed with errno=%d, %s" [AInt err; AStr (strerror err)])).

Definition ftruncate (fd : Z) (size : Z) : diagprog unit :=
  a ← retry minus_one (CFtruncate fd (to_i64 size));
  when (negb (ret a =? 0))
    (err ← get_errno;
     in_diag (error "ftruncate() failed with errno=%d, %s" [AInt err; AStr (strerror err)])).

(** [fcntl(fd, F_GETPATH, output)] and the report of its failure. *)
Definition getpath (fd : Z) (output : positive) : diagprog unit :=
  a ← in_sys (do_call (CGetPath fd));
  when (ret a =? 0) (set_path output (out_path a));;
  when (negb (ret a =? 0))
    (err ← get_errno;
     in_diag (error "fcntl(F_GETPATH) failed with errno=%d, %s" [AInt err; AStr (strerror err)])).

Definition cwd (output : positive) : diagprog unit :=
  fd ← open "." (Z.lor O_RDONLY O_DIRECTORY) 0;
  if fd <? 0 then mret tt
  else getpath fd output;; close fd.

Definition realpath (input : string) (output : positive) : diagprog unit :=
  fd ← open input O_RDONLY 0;
  if fd <? 0 then mret tt
  else getpath fd output;; close fd.

Definition dirExists (path : string) : sysprog bool :=
  with_diag (diagnostics None)
    (buf ← stat path;
     e ← in_diag hasError;
     if e : bool then mret false
     else st ← of_option FUndefined buf; mret (S_ISDIR (st_mode st))).

Definition fileExists (path : string) : sysprog bool :=
  with_diag (diagnostics None)
    (buf ← stat path;
     e ← in_diag hasError;
     if e : bool then mret false
     else st ← of_option FUndefined buf; mret (S_ISREG (st_mode st))).

Definition resolveRealerPath (path : string) (realerPath : option positive) : diagprog unit :=
  match realerPath with
  | None => mret tt
  | Some p =>
      set_path p "";;
      in_sys (with_diag (diagnostics None) (realpath path p))
  end.

Definition store_size (size : option positive) (v : Z) : diagprog unit :=
  match size with Some p => set_size p v | None => mret tt end.

Definition munmap (buf size : Z) : diagprog unit :=
  a ← in_sys (do_call (CMunmap buf size));
  when (negb (ret a =? 0))
    (e ← get_errno;
     in_diag (error "munmap() failed with errno=%d, %s" [AInt e; AStr (strerror e)])).

(** [::mmap(nullptr, ...)] with the report of its failure, after which the
    descriptor is closed; an address of 0 is [nullptr]. *)
Definition map_file (mappedSize prot flags fd : Z) (size : option positive) (path : string)
    (realerPath : option positive) : diagprog Z :=
  a ← in_sys (do_call (CMmap mappedSize prot flags fd));
  if ret a =? MAP_FAILED then
    err ← get_errno;
    in_diag (error "mmap(size=0x%0lX) failed with errno=%d, %s"
      [AULong mappedSize; AInt err; AStr (strerror err)]);;
    close fd;;
    mret 0
  else
    store_size size mappedSize;;
    resolveRealerPath path realerPath;;
    close fd;;
    mret (ret a).

Definition mmapReadOnly (path : string) (size realerPath : option positive) : diagprog Z :=
  buf ← stat path;
  e ← in_diag hasError;
  if e : bool then mret 0
  else
    st ← of_option FUndefined buf;
    if st_size st <=? 0 then store_size size 0;; mret 0
    else
      fd ← open path O_RDONLY 0;
      if fd <? 0 then mret 0
      else map_file (to_size (st_size st)) PROT_READ MAP_PRIVATE fd size path realerPath.

(** The locals [mappedSize] and [realerPath] are variables of their own. *)
Definition withMmapReadOnly (path : string) (handler : Z → Z → string → diagprog unit) : diagprog unit :=
  psize ← in_sys (gets (λ s, fresh (dom (sizes s))));
  set_size psize 0;;
  ppath ← in_sys (gets (λ s, fresh (dom (paths s))));
  set_path ppath "";;
  mapping ← mmapReadOnly path (Some psize) (Some ppath);
  if mapping =? 0 then mret tt
  else
    mappedSize ← in_sys (ss ← gets sizes; of_option FUndefined (ss !! psize));
    realerPath ← in_sys (ps ← gets paths; of_option FUndefined (ps !! ppath));
    handler mapping mappedSize realerPath;;
    munmap mapping mappedSize.

Definition mmapReadWrite (path : string) (size realerPath : option positive) : diagprog Z :=
  fd ← open path (Z.lor O_RDWR O_CREAT) 438;
  if fd <? 0 then mret 0
  else
    buf ← stat path;
    e ← in_diag hasError;
    if e : bool then close fd;; mret 0
    else
      st ← of_option FUndefined buf;
      if st_size st <=? 0 then
        let mappedSize := 1024 * 4 in
        ftruncate fd mappedSize;;
        e ← in_diag hasError;
        if e : bool then close fd;; mret 0
        else map_file mappedSize (Z.lor PROT_READ PROT_WRITE) MAP_SHARED fd size path realerPath
      else map_file (to_size (st_size st)) (Z.lor PROT_READ PROT_WRITE) MAP_SHARED fd size path realerPath.

(** ** How often a call is made *)

Definition interrupted (bad : Z → bool) (a : answer) : bool :=
  bad (ret a) && ((err a =? EAGAIN) || (err a =? EINTR)).

(** The interrupted answers to a call, the first other one, and the kernel then;
    nothing if the first [n] answers are all interrupted. *)
Fixpoint tries (bad : Z → bool) (n : nat) (c : call) (k : K) : option (list answer * answer * K) :=
  match n with
  | O => None
  | S n =>
      let '(a, k') := syscall c k in
      if interrupted bad a then
        '(l, b, k'') ← tries bad n c k'; Some (a :: l, b, k'')
      else Some ([], a, k')
  end.

(** What POSIX says of the answers: -1 with an error number, or success, which is
    0 except for [open] and [mmap]; [mmap] never chooses address 0. *)
Class KernelLaws : Prop := {
  ret_range : ∀ c k, ret (fst (syscall c k)) = -1 ∨ 0 ≤ ret (fst (syscall c k));
  ret_plain : ∀ c k, match c with COpen _ _ _ | CMmap _ _ _ _ => True
    | _ => ret (fst (syscall c k)) = -1 ∨ ret (fst (syscall c k)) = 0 end;
  ret_mmap : ∀ l p f fd k, ret (fst (syscall (CMmap l p f fd) k)) ≠ 0;
  err_range : ∀ c k, 0 ≤ err (fst (syscall c k)) < 4096;
}.

(** No call is interrupted [fuel] times in a row, and messages are not huge. *)
Definition responsive : Prop := ∀ bad c k, is_Some (tries bad fuel c k).
Definition strerror_short : Prop := ∀ e, (String.length (c_str (strerror e)) < 1000)%nat.

Context `{KL : KernelLaws} (Hresp : responsive) (Hshort : strerror_short).
Implicit Types (st : Diagnostics * sys K) (t : list (call * answer)) (es : list Message).

(** ** What a piece of code adds to the trace and to the errors *)

Record grows st st' t es (σ : gmap positive Z) : Prop := {
  gr_trace : trace st'.2 = trace st.2 ++ t;
  gr_diag : st'.1 = with_errors (errors st.1 ++ es) st.1;
  gr_files : ∀ f, is_Some (files st.2 !! f) → is_Some (files st'.2 !! f);
  gr_sizes : sizes st'.2 = σ;
  gr_paths : ∀ p, is_Some (paths st.2 !! p) → is_Some (paths st'.2 !! p);
}.

(** The stream that messages are echoed to is open. *)
Definition echoes st : Prop := stream_open st.1 (files st.2).

Lemma grows_refl st : grows st st [] [] (sizes st.2).
Proof. split; try done; rewrite app_nil_r; [done|]. by destruct st as [[]]. Qed.

Lemma grows_trans st st1 st2 t1 t2 es1 es2 σ1 σ2 :
  grows st st1 t1 es1 σ1 → grows st1 st2 t2 es2 σ2 → grows st st2 (t1 ++ t2) (es1 ++ es2) σ2.
Proof.
  intros [T1 D1 F1 S1 P1] [T2 D2 F2 S2 P2]. split; auto.
  - by rewrite T2, T1, app_assoc.
  - rewrite D2, D1. unfold with_errors. simpl. by rewrite app_assoc.
Qed.

Lemma grows_echoes st st' t es σ : grows st st' t es σ → echoes st → echoes st'.
Proof. intros [_ D F _ _] He f Hf. apply F, He. by rewrite D in Hf. Qed.

Lemma wp_in_sys {A} (m : sysprog A) Q st :
  wp m (λ a s, Q a (st.1, s)) st.2 → wp (in_sys m) Q st.
Proof. intros Hm. unfold in_sys. apply wp_zoom. exact Hm. Qed.

(** The state after a call. *)
Definition called (c : call) (s : sys K) : sys K :=
  let '(a, k) := syscall c (kern s) in
  mkSys k (if ret a <? 0 then err a else errno s) (files s) (trace s ++ [(c, a)]) (sizes s) (paths s).

Lemma wp_do_call c Q st :
  Q (fst (syscall c (kern st.2))) (st.1, called c st.2) → wp (in_sys (do_call c)) Q st.
Proof.
  intros HQ. apply wp_in_sys. unfold do_call, called, wp in *. by destruct (syscall c (kern st.2)).
Qed.

Lemma called_grows c st : grows st (st.1, called c st.2) [(c, fst (syscall c (kern st.2)))] [] (sizes st.2).
Proof.
  unfold called. destruct (syscall c (kern st.2)) as [a k]. split; simpl; try done.
  rewrite app_nil_r. by destruct st as [[]].
Qed.

(** The state after the retry loop has answered. *)
Record answered (c : call) (bad : Z → bool) st st' (l : list answer) (a : answer) : Prop := {
  an_grows : grows st st' ((λ b, (c, b)) <$> l ++ [a]) [] (sizes st.2);
  an_last : ∃ k, a = fst (syscall c k);
  an_errno : ret a = -1 → errno st'.2 = err a;
  an_bad : Forall (λ b, interrupted bad b = true) l;
  an_good : interrupted bad a = false;
}.

Lemma wp_retry bad c Q st :
  (∀ r, bad r = true → r < 0) →
  (∀ l a st', answered c bad st st' l a → Q a st') → wp (retry bad c) Q st.
Proof.
  intros Hbad. pose proof Hresp as Hr. unfold responsive in Hr. unfold retry.
  generalize (Hr bad c (kern st.2)). clear Hr. generalize fuel as n. intros n. revert Q st.
  induction n as [|n IH]; intros Q st Ht HQ; simpl in *; [by destruct Ht|].
  wp_step. unfold retry_body. wp_step. apply wp_do_call.
  pose proof (called_grows c st) as Hg. pose proof (ret_range c (kern st.2)) as Hret.
  destruct (syscall c (kern st.2)) as [a k] eqn:Hk. simpl in *.
  assert (called c st.2 = mkSys k (if ret a <? 0 then err a else errno st.2) (files st.2)
    (trace st.2 ++ [(c, a)]) (sizes st.2) (paths st.2)) as Hc by (unfold called; by rewrite Hk).
  wp_step. apply wp_in_sys. wp_step. wp_step. rewrite Hc at 1 2. simpl.
  assert (bad (ret a) && (((if ret a <? 0 then err a else errno st.2) =? EAGAIN)
    || ((if ret a <? 0 then err a else errno st.2) =? EINTR)) = interrupted bad a) as Hint.
  { unfold interrupted. destruct (bad (ret a)) eqn:Hb; [|done].
    apply Hbad, Z.ltb_lt in Hb. by rewrite Hb. }
  rewrite Hint. destruct (interrupted bad a) eqn:Hi.
  - rewrite Hc in *. apply IH.
    + simpl. destruct Ht as [x Hx]. destruct (tries bad n c k) as [[[l b] k'']|]; [by eexists|discriminate Hx].
    + intros l b st' [Hg' Hlast Herr Hbs Hgood]. apply (HQ (a :: l)). split; try done.
      * exact (grows_trans _ _ _ _ _ _ _ _ _ Hg Hg').
      * by constructor.
  - apply wp_ret, (HQ []). split; simpl; try done.
    + exists (kern st.2). by rewrite Hk.
    + intros Hm. rewrite Hc. simpl. by rewrite Hm.
Qed.

(** ** Reports *)

Definition fail_text (name : string) (e : Z) : string :=
  (name +:+ " failed with errno=" +:+ pretty e +:+ ", " +:+ c_str (strerror e))%string.

Ltac fmt_ok := intros; cbn -[pretty c_str]; rewrite app_nil_s; reflexivity.

(** The message for a failed call, none for a successful one. *)
Definition failure (name : string) (a : answer) : list Message :=
  if ret a <? 0 then [mkMessage error_ (fail_text name (err a))] else [].

Lemma length_app_s (a b : string) : String.length (a +:+ b) = (String.length a + String.length b)%nat.
Proof. induction a as [|ch a IH]; [done|]. exact (f_equal S IH). Qed.

Lemma pretty_errno e : 0 ≤ e < 4096 → (String.length (pretty e) ≤ 4)%nat.
Proof.
  intros He.
  assert (Forall (λ z, (String.length (pretty z) <=? 4)%nat = true) (seqZ 0 4096)) as Hall.
  { apply (bool_decide_eq_true_1 (Forall _ _)). vm_compute. reflexivity. }
  rewrite Forall_forall in Hall. apply Nat.leb_le, Hall. by apply elem_of_seqZ.
Qed.

Lemma wp_error f args (txt : string) Q st :
  format_text f args = Some txt → txt ≠ ""%string → Z.of_nat (String.length txt) < INT_MAX → echoes st →
  (∀ st', grows st st' [] [mkMessage error_ txt] (sizes st.2) → Q tt st') →
  wp (in_diag (error f args)) Q st.
Proof.
  intros Hf Hne Hlen He HQ. unfold in_diag. apply wp_zoom. eapply wp_append_format; [done..|].
  apply wp_append_message; [done|]. apply HQ. split; simpl; try done.
  - by rewrite app_nil_r.
  - intros f' Hf'. unfold written. destruct (stream st.1) as [g|]; [|done].
    destruct (files st.2 !! g) eqn:E; [|done]. apply lookup_insert_is_Some'. by right.
Qed.

Lemma fail_text_nonempty name e : fail_text name e ≠ ""%string.
Proof.
  unfold fail_text. intros Ht. apply (f_equal String.length) in Ht.
  rewrite !length_app_s in Ht. simpl in Ht. lia.
Qed.

Lemma fail_text_short name e : (String.length name < 1000)%nat → 0 ≤ e < 4096 →
  Z.of_nat (String.length (fail_text name e)) < INT_MAX.
Proof.
  intros Hname He. pose proof (pretty_errno e He) as Hp. pose proof (Hshort e) as Hs.
  unfold fail_text. rewrite !length_app_s. simpl. unfold INT_MAX. lia.
Qed.

Lemma wp_fail name f e Q st :
  format_text f [AInt e; AStr (strerror e)] = Some (fail_text name e) →
  (String.length name < 1000)%nat → 0 ≤ e < 4096 → echoes st →
  (∀ st', grows st st' [] [mkMessage error_ (fail_text name e)] (sizes st.2) → Q tt st') →
  wp (in_diag (error f [AInt e; AStr (strerror e)])) Q st.
Proof.
  intros Hf Hname He Hec HQ. eapply wp_error; [done|apply fail_text_nonempty|by apply fail_text_short|done|done].
Qed.

Lemma wp_get_errno Q st : Q (errno st.2) st → wp get_errno Q st.
Proof. intros HQ. unfold get_errno. apply wp_in_sys, wp_gets. by destruct st. Qed.

Lemma answer_range c a : (∃ k, a = fst (syscall c k)) →
  (ret a = -1 ∨ 0 ≤ ret a) ∧ 0 ≤ err a < 4096.
Proof. intros [k ->]. split; [apply ret_range|apply err_range]. Qed.

Lemma answer_plain c a : (∃ k, a = fst (syscall c k)) →
  match c with COpen _ _ _ | CMmap _ _ _ _ => True | _ => ret a = -1 ∨ ret a = 0 end.
Proof. intros [k ->]. apply ret_plain. Qed.

(** The report that follows a call. *)
Lemma wp_when_failed (b : bool) name f a Q st :
  b = (ret a <? 0) → (ret a < 0 → errno st.2 = err a) →
  (∀ e, format_text f [AInt e; AStr (strerror e)] = Some (fail_text name e)) →
  (String.length name < 1000)%nat → 0 ≤ err a < 4096 → echoes st →
  (∀ st', grows st st' [] (failure name a) (sizes st.2) → Q tt st') →
  wp (when b (e ← get_errno; in_diag (error f [AInt e; AStr (strerror e)]))) Q st.
Proof.
  intros -> Herr Hf Hn Hr He HQ. unfold failure in HQ. apply wp_when; intros Hb; rewrite Hb in HQ.
  - wp_step. apply wp_get_errno. rewrite Herr by by apply Z.ltb_lt. by eapply wp_fail.
  - apply HQ, grows_refl.
Qed.

(** A retried call and its report: failed tries, a final answer [a], and one
    message if that is a failure. *)
Record retried (c : call) (name : string) st st' (l : list answer) (a : answer) : Prop := {
  re_grows : grows st st' ((λ b, (c, b)) <$> l ++ [a]) (failure name a) (sizes st.2);
  re_tries : Forall (λ b, ret b < 0 ∧ (err b = EAGAIN ∨ err b = EINTR)) l;
  re_last : ∃ k, a = fst (syscall c k);
  re_final : ret a < 0 → err a ≠ EAGAIN ∧ err a ≠ EINTR;
}.

Lemma interrupted_tries bad l : (∀ r, bad r = true → r < 0) →
  Forall (λ b, interrupted bad b = true) l → Forall (λ b, ret b < 0 ∧ (err b = EAGAIN ∨ err b = EINTR)) l.
Proof.
  intros Hbad Hl. eapply Forall_impl; [exact Hl|]. unfold interrupted. intros b Hb.
  apply andb_true_iff in Hb as [Hb He]. split; [by apply Hbad|].
  apply orb_true_iff in He as [?|?]; b2p; auto.
Qed.

(** The two tests agree on what a kernel answers. *)
Lemma final_answer bad c a : bad = negative ∨ bad = minus_one → (∃ k, a = fst (syscall c k)) →
  interrupted bad a = false → ret a < 0 → err a ≠ EAGAIN ∧ err a ≠ EINTR.
Proof.
  intros Hbad Ha Hi Hlt. destruct (answer_range c a Ha) as [[Hm|?] _]; [|lia].
  unfold interrupted in Hi. assert (bad (ret a) = true) as Hb by (destruct Hbad; subst; rewrite Hm; done).
  rewrite Hb in Hi. simpl in Hi. apply orb_false_iff in Hi as [??]. by b2p.
Qed.

Lemma bad_negative r : negative r = true → r < 0.
Proof. unfold negative. intros. by b2p. Qed.
Lemma bad_minus_one r : minus_one r = true → r < 0.
Proof. unfold minus_one. intros. b2p. lia. Qed.

Lemma wp_retried {A} (bad : Z → bool) (test : Z → bool) c name f (k : answer → diagprog A) Q st :
  bad = negative ∨ bad = minus_one →
  (∀ a, (∃ k, a = fst (syscall c k)) → test (ret a) = (ret a <? 0)) →
  (∀ e, format_text f [AInt e; AStr (strerror e)] = Some (fail_text name e)) →
  (String.length name < 1000)%nat → echoes st →
  (∀ l a st', retried c name st st' l a → echoes st' → wp (k a) Q st') →
  wp (a ← retry bad c;
      when (test (ret a)) (e ← get_errno; in_diag (error f [AInt e; AStr (strerror e)]));;
      k a) Q st.
Proof.
  intros Hbad Htest Hf Hn Hec HQ.
  assert (∀ r, bad r = true → r < 0) as Hb.
  { destruct Hbad as [->| ->]; [apply bad_negative|apply bad_minus_one]. }
  wp_step. apply wp_retry; [done|]. intros l a st1 [Hg Hlast Herr Hl Hgood].
  destruct (answer_range c a Hlast) as [Hrange Herange]. wp_step.
  apply (wp_when_failed _ name f a); try done.
  - by apply Htest.
  - intros. apply Herr. lia.
  - by eapply grows_echoes.
  - intros st2 Hg2. rewrite (gr_sizes _ _ _ _ _ Hg) in Hg2.
    pose proof (grows_trans _ _ _ _ _ _ _ _ _ Hg Hg2) as Hg3. rewrite app_nil_r in Hg3.
    apply (HQ l a st2); [|by eapply grows_echoes]. split; [done| |done|].
    + by eapply interrupted_tries.
    + by eapply final_answer.
Qed.

Lemma plain_test c a : match c with COpen _ _ _ | CMmap _ _ _ _ => False | _ => True end →
  (∃ k, a = fst (syscall c k)) → negb (ret a =? 0) = (ret a <? 0).
Proof.
  intros Hc Ha. apply answer_plain in Ha. destruct c; try done; destruct Ha as [-> | ->]; done.
Qed.

Lemma wp_ret_unit {S} (m : prog S unit) Q s : wp (m;; mret tt) Q s → wp m Q s.
Proof. unfold wp, mbind, prog_bind. by destruct (m s) as [[] ?|]. Qed.

Lemma wp_retried_unit c name f Q st :
  match c with COpen _ _ _ | CMmap _ _ _ _ => False | _ => True end →
  (∀ e, format_text f [AInt e; AStr (strerror e)] = Some (fail_text name e)) →
  (String.length name < 1000)%nat → echoes st →
  (∀ l a st', retried c name st st' l a → echoes st' → Q tt st') →
  wp (a ← retry minus_one c;
      when (negb (ret a =? 0)) (e ← get_errno; in_diag (error f [AInt e; AStr (strerror e)]))) Q st.
Proof.
  intros Hc Hf Hn Hec HQ. wp_step.
  assert (wp (a ← retry minus_one c;
    when (negb (ret a =? 0)) (e ← get_errno; in_diag (error f [AInt e; AStr (strerror e)]));;
    mret tt) Q st) as Hw.
  { apply (wp_retried minus_one (λ r, negb (r =? 0)) c name f (λ _, mret tt)); [by right| |done..|].
    - intros a. by apply plain_test.
    - intros l a st' Hr Hec'. by eapply wp_ret, HQ. }
  eapply wp_mono; [exact (wp_bind_inv _ _ _ _ Hw)|]. intros a st' Hw'. by apply wp_ret_unit.
Qed.

Lemma wp_open path flag other Q st :
  echoes st →
  (∀ l a st', retried (COpen path flag other) "open()" st st' l a → echoes st' → Q (ret a) st') →
  wp (open path flag other) Q st.
Proof.
  intros Hec HQ. apply (wp_retried negative negative _ "open()"); [by left|done|fmt_ok|simpl; lia|done|].
  intros. by eapply wp_ret, HQ.
Qed.

Lemma wp_stat path Q st :
  echoes st →
  (∀ l a st', retried (CStat path) "stat()" st st' l a → echoes st' →
    Q (if ret a =? 0 then Some (out_stat a) else None) st') →
  wp (stat path) Q st.
Proof.
  intros Hec HQ. apply (wp_retried minus_one (λ r, negb (r =? 0)) _ "stat()"); [by right| |fmt_ok|simpl; lia|done|].
  - intros a. by apply plain_test.
  - intros. by eapply wp_ret, HQ.
Qed.

Lemma wp_ftruncate fd size Q st :
  echoes st →
  (∀ l a st', retried (CFtruncate fd (to_i64 size)) "ftruncate()" st st' l a → echoes st' → Q tt st') →
  wp (ftruncate fd size) Q st.
Proof.
  intros Hec HQ. apply (wp_retried_unit _ "ftruncate()"); [done|fmt_ok|simpl; lia|done|done].
Qed.

Lemma wp_truncate path size Q st :
  echoes st →
  (∀ l a st', retried (CTruncate path (to_i64 size)) "truncate()" st st' l a → echoes st' → Q tt st') →
  wp (truncate path size) Q st.
Proof.
  intros Hec HQ. apply (wp_retried_unit _ "truncate()"); [done|fmt_ok|simpl; lia|done|done].
Qed.

Lemma wp_fstatat fd path flag Q st :
  echoes st →
  (∀ l a st', retried (CFstatat fd path flag) "fstatat()" st st' l a → echoes st' →
    Q (if ret a =? 0 then Some (out_stat a) else None) st') →
  wp (fstatat fd path flag) Q st.
Proof.
  intros Hec HQ. apply (wp_retried minus_one (λ r, negb (r =? 0)) _ "fstatat()"); [by right| |fmt_ok|simpl; lia|done|].
  - intros a. by apply plain_test.
  - intros. by eapply wp_ret, HQ.
Qed.

(** ** Calls that are made once *)

Lemma wp_once c name f Q st :
  match c with COpen _ _ _ | CMmap _ _ _ _ => False | _ => True end →
  (∀ e, format_text f [AInt e; AStr (strerror e)] = Some (fail_text name e)) →
  (String.length name < 1000)%nat → echoes st →
  (∀ a st', (∃ k, a = fst (syscall c k)) → grows st st' [(c, a)] (failure name a) (sizes st.2) →
    echoes st' → Q tt st') →
  wp (a ← in_sys (do_call c);
      when (negb (ret a =? 0)) (e ← get_errno; in_diag (error f [AInt e; AStr (strerror e)]))) Q st.
Proof.
  intros Hc Hf Hn Hec HQ. wp_step. apply wp_do_call. pose proof (called_grows c st) as Hg.
  assert (∃ k, fst (syscall c (kern st.2)) = fst (syscall c k)) as Ha by by eexists.
  set (a := fst (syscall c (kern st.2))) in *.
  apply (wp_when_failed _ name f a); try done.
  - by apply (plain_test c).
  - intros Hlt. unfold called. destruct (syscall c (kern st.2)) as [b k] eqn:Hk. subst a. simpl in *.
    by rewrite (proj2 (Z.ltb_lt _ _) Hlt).
  - exact (proj2 (answer_range c a Ha)).
  - by eapply grows_echoes.
  - intros st2 Hg2. pose proof (gr_sizes _ _ _ _ _ Hg) as Hsz. simpl in Hsz, Hg2. rewrite Hsz in Hg2.
    pose proof (grows_trans _ _ _ _ _ _ _ _ _ Hg Hg2) as Hg3.
    apply (HQ a st2); [done|exact Hg3|by eapply grows_echoes].
Qed.

Lemma wp_munmap buf size Q st :
  echoes st →
  (∀ a st', (∃ k, a = fst (syscall (CMunmap buf size) k)) →
    grows st st' [(CMunmap buf size, a)] (failure "munmap()" a) (sizes st.2) → echoes st' → Q tt st') →
  wp (munmap buf size) Q st.
Proof. intros Hec HQ. apply (wp_once _ "munmap()"); [done|fmt_ok|simpl; lia|done|done]. Qed.

(** [close] reports a failure unless it was interrupted. *)
Definition close_failure (a : answer) : list Message :=
  if err a =? EINTR then [] else failure "close()" a.

Lemma wp_close fd Q st :
  echoes st →
  (∀ a st', (∃ k, a = fst (syscall (CClose fd) k)) →
    grows st st' [(CClose fd, a)] (close_failure a) (sizes st.2) → echoes st' → Q tt st') →
  wp (close fd) Q st.
Proof.
  intros Hec HQ. unfold close. wp_step. apply wp_do_call.
  pose proof (called_grows (CClose fd) st) as Hg.
  assert (∃ k, fst (syscall (CClose fd) (kern st.2)) = fst (syscall (CClose fd) k)) as Ha by by eexists.
  assert (ret (fst (syscall (CClose fd) (kern st.2))) < 0 →
    errno (called (CClose fd) st.2) = err (fst (syscall (CClose fd) (kern st.2)))) as Herr.
  { unfold called. destruct (syscall (CClose fd) (kern st.2)) as [b k]. simpl. intros Hlt.
    by rewrite (proj2 (Z.ltb_lt _ _) Hlt). }
  set (a := fst (syscall (CClose fd) (kern st.2))) in *.
  assert (∀ st2, grows (st.1, called (CClose fd) st.2) st2 [] (close_failure a) (sizes st.2) →
    Q tt st2) as Hend.
  { intros st2 Hg2. pose proof (grows_trans _ _ _ _ _ _ _ _ _ Hg Hg2) as Hg3.
    apply (HQ a st2); [done|exact Hg3|by eapply grows_echoes]. }
  pose proof (answer_plain (CClose fd) a Ha) as Hp. simpl in Hp.
  unfold close_failure, failure in Hend. wp_step. apply wp_get_errno. simpl.
  apply wp_when; intros Hb.
  - apply andb_true_iff in Hb as [Hb1 Hb2]. destruct Hp as [Hm|Hz]; [|rewrite Hz in Hb1; discriminate Hb1].
    rewrite Hm in Hend, Herr. rewrite Herr in Hb2 |- * by lia. apply negb_true_iff in Hb2.
    rewrite Hb2 in Hend. simpl in Hend.
    apply (wp_fail "close()"); [fmt_ok|simpl; lia|by apply (answer_range (CClose fd))|by eapply grows_echoes|].
    intros st2 Hg2. apply Hend. by rewrite (gr_sizes _ _ _ _ _ Hg) in Hg2.
  - apply Hend. destruct Hp as [Hm|Hz].
    + rewrite Hm in Hb, Herr |- *. rewrite Herr in Hb by lia. simpl in Hb.
      apply negb_false_iff in Hb. rewrite Hb. simpl.
      pose proof (grows_refl (st.1, called (CClose fd) st.2)) as Hr. by rewrite (gr_sizes _ _ _ _ _ Hg) in Hr.
    + rewrite Hz. simpl. pose proof (grows_refl (st.1, called (CClose fd) st.2)) as Hr.
      rewrite (gr_sizes _ _ _ _ _ Hg) in Hr. by destruct (err a =? EINTR).
Qed.

(** ** Descriptors and mappings that are held *)

Fixpoint remove_first {A} `{EqDecision A} (x : A) (l : list A) : list A :=
  match l with
  | [] => []
  | y :: l => if decide (x = y) then l else y :: remove_first x l
  end.

(** The descriptors open after [t] when [h] were open before; a closed
    descriptor is gone even if [close] reports a failure. *)
Fixpoint held (h : list Z) (t : list (call * answer)) : list Z :=
  match t with
  | [] => h
  | (COpen _ _ _, a) :: t => held (if ret a <? 0 then h else ret a :: h) t
  | (CClose fd, _) :: t => held (remove_first fd h) t
  | _ :: t => held h t
  end.

(** The mappings, as address and length. *)
Fixpoint mapped (h : list (Z * Z)) (t : list (call * answer)) : list (Z * Z) :=
  match t with
  | [] => h
  | (CMmap len _ _ _, a) :: t => mapped (if ret a <? 0 then h else (ret a, len) :: h) t
  | (CMunmap addr len, a) :: t => mapped (if ret a =? 0 then remove_first (addr, len) h else h) t
  | _ :: t => mapped h t
  end.

Lemma held_app h t1 t2 : held h (t1 ++ t2) = held (held h t1) t2.
Proof. revert h. induction t1 as [|[[] a] t1 IH]; intros h; simpl; auto. Qed.

Lemma mapped_app h t1 t2 : mapped h (t1 ++ t2) = mapped (mapped h t1) t2.
Proof. revert h. induction t1 as [|[[] a] t1 IH]; intros h; simpl; auto. Qed.

Lemma remove_first_head {A} `{EqDecision A} (x : A) l : remove_first x (x :: l) = l.
Proof. simpl. by rewrite decide_True. Qed.

(** Code that leaves nothing open and nothing mapped. *)
Definition balanced t : Prop := (∀ h, held h t = h) ∧ (∀ h, mapped h t = h).

Lemma balanced_nil : balanced [].
Proof. done. Qed.

Lemma balanced_app t1 t2 : balanced t1 → balanced t2 → balanced (t1 ++ t2).
Proof. intros [H1 M1] [H2 M2]. split; intros h; by rewrite ?held_app, ?mapped_app, ?H1, ?H2, ?M1, ?M2. Qed.

(** Calls that neither open, close, map nor unmap. *)
Definition neutral_call (c : call) : Prop :=
  match c with COpen _ _ _ | CClose _ | CMmap _ _ _ _ | CMunmap _ _ => False | _ => True end.

Lemma balanced_calls c l : neutral_call c → balanced ((λ b, (c, b)) <$> l).
Proof. intros Hc. induction l as [|b l [IH1 IH2]]; [done|]. split; intros h; destruct c; simpl in *; auto; done. Qed.

(** The failed tries of an [open], and the descriptor of the last one. *)
Lemma held_open p f m l a h : Forall (λ b, ret b < 0 ∧ (err b = EAGAIN ∨ err b = EINTR)) l →
  held h ((λ b, (COpen p f m, b)) <$> l ++ [a]) = (if ret a <? 0 then h else ret a :: h).
Proof.
  intros Hl. rewrite fmap_app, held_app. assert (held h ((λ b, (COpen p f m, b)) <$> l) = h) as ->; [|done].
  induction Hl as [|b l [Hb _] _ IH]; simpl; [done|]. by rewrite (proj2 (Z.ltb_lt _ _) Hb).
Qed.

Lemma mapped_calls c l h : match c with CMmap _ _ _ _ | CMunmap _ _ => False | _ => True end →
  mapped h ((λ b, (c, b)) <$> l) = h.
Proof. intros Hc. induction l as [|b l IH]; [done|]. destruct c; simpl in *; done. Qed.

(** [open ... close] around balanced code is balanced. *)
Lemma balanced_open_close p f m l a t b :
  Forall (λ b, ret b < 0 ∧ (err b = EAGAIN ∨ err b = EINTR)) l → 0 ≤ ret a → balanced t →
  balanced (((λ b, (COpen p f m, b)) <$> l ++ [a]) ++ t ++ [(CClose (ret a), b)]).
Proof.
  intros Hl Ha [Ht Mt]. split; intros h.
  - rewrite !held_app, held_open, Ht by done. rewrite (proj2 (Z.ltb_ge _ _) Ha). apply remove_first_head.
  - by rewrite !mapped_app, mapped_calls, Mt by done.
Qed.

(** ** Paths *)

Lemma wp_set_path p v Q st :
  (∀ st', grows st st' [] [] (sizes st.2) → paths st'.2 !! p = Some v → Q tt st') →
  wp (set_path p v) Q st.
Proof.
  intros HQ. unfold set_path. apply wp_in_sys, wp_modify. apply HQ; simpl; [|apply lookup_insert_eq].
  split; simpl; try done; rewrite ?app_nil_r; [done|by destruct st as [[]]|].
  intros q Hq. apply lookup_insert_is_Some'. by right.
Qed.

Lemma wp_getpath fd output Q st :
  echoes st →
  (∀ a st', (∃ k, a = fst (syscall (CGetPath fd) k)) →
    grows st st' [(CGetPath fd, a)] (failure "fcntl(F_GETPATH)" a) (sizes st.2) → echoes st' →
    (ret a = 0 → is_Some (paths st'.2 !! output)) → Q tt st') →
  wp (getpath fd output) Q st.
Proof.
  intros Hec HQ. unfold getpath. wp_step. apply wp_do_call. pose proof (called_grows (CGetPath fd) st) as Hg.
  assert (∃ k, fst (syscall (CGetPath fd) (kern st.2)) = fst (syscall (CGetPath fd) k)) as Ha by by eexists.
  assert (ret (fst (syscall (CGetPath fd) (kern st.2))) < 0 →
    errno (called (CGetPath fd) st.2) = err (fst (syscall (CGetPath fd) (kern st.2)))) as Herr.
  { unfold called. destruct (syscall (CGetPath fd) (kern st.2)) as [b k]. simpl. intros Hlt.
    by rewrite (proj2 (Z.ltb_lt _ _) Hlt). }
  set (a := fst (syscall (CGetPath fd) (kern st.2))) in *.
  pose proof (plain_test (CGetPath fd) a I Ha) as Htest.
  destruct (ret a =? 0) eqn:Hz.
  - wp_step. apply wp_when; [intros _|done]. apply wp_set_path. intros st2 Hg2 Hp. apply wp_ret.
    pose proof (gr_sizes _ _ _ _ _ Hg) as Hsz. simpl in Hsz, Hg2. rewrite Hsz in Hg2.
    pose proof (grows_trans _ _ _ _ _ _ _ _ _ Hg Hg2) as Hg3.
    apply (HQ a); [done| |by eapply grows_echoes|by eexists].
    unfold failure. rewrite <- Htest. exact Hg3.
  - wp_step. apply wp_ret.
    eapply (wp_when_failed _ "fcntl(F_GETPATH)" _ a); [by rewrite <- Htest|done|fmt_ok|simpl; lia| | |].
    + exact (proj2 (answer_range (CGetPath fd) a Ha)).
    + by eapply grows_echoes.
    + intros st2 Hg2. pose proof (gr_sizes _ _ _ _ _ Hg) as Hsz. simpl in Hsz, Hg2. rewrite Hsz in Hg2.
      pose proof (grows_trans _ _ _ _ _ _ _ _ _ Hg Hg2) as Hg3.
      apply (HQ a); [done|exact Hg3|by eapply grows_echoes|].
      intros H0. rewrite H0 in Hz. discriminate Hz.
Qed.

(** [cwd] and [realpath]: the path of a descriptor opened for the purpose. *)
Record resolved (p : string) (flag : Z) (output : positive) st st' t es : Prop := {
  rs_grows : grows st st' t es (sizes st.2);
  rs_balanced : balanced t;
  rs_path : es = [] → is_Some (paths st'.2 !! output);
}.

Lemma wp_resolve p flag output st :
  echoes st →
  wp (fd ← open p flag 0; if fd <? 0 then mret tt else getpath fd output;; close fd)
    (λ _ st', echoes st' ∧ ∃ t es, resolved p flag output st st' t es) st.
Proof.
  intros Hec. wp_step. apply wp_open; [done|]. intros l a st1 [Hg1 Hl Ha _] Hec1.
  destruct (ret a <? 0) eqn:Hneg.
  - apply wp_ret. split; [done|]. do 2 eexists. split; [exact Hg1| |].
    + split; intros h; [|by apply mapped_calls]. rewrite held_open by done. by rewrite Hneg.
    + unfold failure. by rewrite Hneg.
  - wp_step. apply wp_getpath; [done|]. intros b st2 Hb Hg2 Hec2 Hp2.
    apply wp_close; [done|]. intros d st3 Hd Hg3 Hec3.
    rewrite (gr_sizes _ _ _ _ _ Hg1) in Hg2. rewrite (gr_sizes _ _ _ _ _ Hg2) in Hg3.
    pose proof (grows_trans _ _ _ _ _ _ _ _ _ Hg1 (grows_trans _ _ _ _ _ _ _ _ _ Hg2 Hg3)) as Hg.
    split; [done|]. do 2 eexists. split; [exact Hg| |].
    + apply (balanced_open_close p flag 0 l a [(CGetPath (ret a), b)] d); [done|by apply Z.ltb_ge|done].
    + intros Hnil. apply app_eq_nil in Hnil as [_ Hnil]. apply app_eq_nil in Hnil as [Hnil _].
      apply (gr_paths _ _ _ _ _ Hg3), Hp2.
      destruct (answer_plain _ b Hb) as [Hm|]; [|done]. unfold failure in Hnil. by rewrite Hm in Hnil.
Qed.

(** Resolving into the caller's buffer does not touch the caller's diagnostics. *)
Lemma wp_resolveRealerPath p output Q st :
  (∀ t st', grows st st' t [] (sizes st.2) → balanced t →
    (∀ q, output = Some q → is_Some (paths st'.2 !! q)) → Q tt st') →
  wp (resolveRealerPath p output) Q st.
Proof.
  intros HQ. unfold resolveRealerPath. destruct output as [q|].
  2: { apply wp_ret. apply (HQ []); [apply grows_refl|done|done]. }
  wp_step. apply wp_set_path. intros st1 Hg1 Hq. apply wp_in_sys. unfold with_diag. apply wp_zoom.
  eapply wp_mono; [apply (wp_resolve p O_RDONLY q); by intros f Hf|].
  intros [] [d2 s2] (_ & t & es & [[T D F Sz P] Hbal _]). simpl in *.
  apply (HQ t); [|done|].
  - eapply (grows_trans st st1 (st1.1, s2) [] t [] []); [exact Hg1|]. split; simpl; try done.
    + rewrite app_nil_r. by destruct st1 as [[]].
    + by rewrite Sz, (gr_sizes _ _ _ _ _ Hg1).
  - intros ? [= <-]. simpl. apply P. by eexists.
Qed.

(** ** Mappings *)

Lemma length_hex n z acc : (String.length (hex n z acc) ≤ n + String.length acc)%nat.
Proof.
  revert z acc. induction n as [|n IH]; intros z acc; [done|]. simpl.
  destruct (z <? 16); simpl; [lia|]. etransitivity; [apply IH|]. simpl. lia.
Qed.

Definition mmap_text (len e : Z) : string :=
  ("mmap(size=0x" +:+ hex 16 len "" +:+ ") failed with errno=" +:+ pretty e +:+ ", " +:+
   c_str (strerror e))%string.

Lemma wp_mmap_error len e Q st :
  0 ≤ e < 4096 → echoes st →
  (∀ st', grows st st' [] [mkMessage error_ (mmap_text len e)] (sizes st.2) → Q tt st') →
  wp (in_diag (error "mmap(size=0x%0lX) failed with errno=%d, %s"
    [AULong len; AInt e; AStr (strerror e)])) Q st.
Proof.
  intros He Hec HQ. pose proof (pretty_errno e He). pose proof (Hshort e). pose proof (length_hex 16 len "").
  eapply (wp_error _ _ (mmap_text len e)); [| | |done|done].
  - cbn -[pretty c_str hex]. by rewrite app_nil_s.
  - discriminate.
  - unfold mmap_text. rewrite !length_app_s. simpl in *. unfold INT_MAX. lia.
Qed.

Definition sized (size : option positive) (len : Z) (σ : gmap positive Z) : gmap positive Z :=
  match size with Some p => <[p := len]> σ | None => σ end.

Lemma wp_store_size size v Q st :
  (∀ st', grows st st' [] [] (sized size v (sizes st.2)) → Q tt st') → wp (store_size size v) Q st.
Proof.
  intros HQ. destruct size as [p|]; simpl.
  - apply wp_in_sys, wp_modify, HQ. split; simpl; try done; rewrite app_nil_r; [done|by destruct st as [[]]].
  - apply wp_ret, HQ, grows_refl.
Qed.

(** What a function that maps a file leaves behind: no mapping and an error (or
    [empty], an empty file), or one mapping, whose size is stored. *)
Definition map_result (len : Z) (size realerPath : option positive) st st' t es (σ : gmap positive Z)
    (r : Z) : Prop :=
  (r = 0 ∧ es ≠ [] ∧ (∀ h, mapped h t = h) ∧ σ = sizes st.2) ∨
  (0 < r ∧ (∀ h, mapped h t = (r, len) :: h) ∧ σ = sized size len (sizes st.2) ∧
   ∀ q, realerPath = Some q → is_Some (paths st'.2 !! q)).

Lemma wp_map_file len prot flags fd size p output Q st :
  echoes st →
  (∀ r st' t es σ, grows st st' t es σ → echoes st' → (∀ h, held (fd :: h) t = h) →
    map_result len size output st st' t es σ r → Q r st') →
  wp (map_file len prot flags fd size p output) Q st.
Proof.
  intros Hec HQ. unfold map_file. wp_step. apply wp_do_call.
  set (c := CMmap len prot flags fd). pose proof (called_grows c st) as Hg.
  assert (∃ k, fst (syscall c (kern st.2)) = fst (syscall c k)) as Ha by by eexists.
  assert (ret (fst (syscall c (kern st.2))) < 0 →
    errno (called c st.2) = err (fst (syscall c (kern st.2)))) as Herr.
  { unfold called. destruct (syscall c (kern st.2)) as [b k]. simpl. intros Hlt.
    by rewrite (proj2 (Z.ltb_lt _ _) Hlt). }
  set (a := fst (syscall c (kern st.2))) in *.
  assert (ret a ≠ 0) as Hnz by (destruct Ha as [k ->]; apply ret_mmap).
  destruct (answer_range c a Ha) as [Hr He]. unfold MAP_FAILED.
  destruct (Z.eqb_spec (ret a) (-1)) as [Hm|Hok].
  - assert (ret a < 0) as Hneg by lia. specialize (Herr Hneg).
    wp_step. apply wp_get_errno. simpl. rewrite Herr. wp_step.
    apply wp_mmap_error; [done|by eapply grows_echoes|]. intros st2 Hg2.
    assert (echoes st2) as Hec2 by (eapply grows_echoes; [exact Hg2|by eapply grows_echoes]).
    wp_step. apply wp_close; [done|]. intros d st3 _ Hg3 Hec3. apply wp_ret.
    rewrite (gr_sizes _ _ _ _ _ Hg2) in Hg3. pose proof (gr_sizes _ _ _ _ _ Hg) as Hsz.
    simpl in Hsz. simpl in Hg3. rewrite Hsz in Hg3.
    pose proof (grows_trans _ _ _ _ _ _ _ _ _ Hg (grows_trans _ _ _ _ _ _ _ _ _ Hg2 Hg3)) as Hgg.
    eapply HQ; [exact Hgg|done| |left; split_and!; [done|discriminate| |done]].
    + intros h. simpl. by rewrite decide_True.
    + intros h. simpl. by rewrite (proj2 (Z.ltb_lt _ _) Hneg).
  - wp_step. apply wp_store_size. intros st2 Hg2. wp_step. apply wp_resolveRealerPath.
    intros t st3 Hg3 [Ht Mt] Hp. rewrite (gr_sizes _ _ _ _ _ Hg2) in Hg3.
    pose proof (grows_trans _ _ _ _ _ _ _ _ _ Hg (grows_trans _ _ _ _ _ _ _ _ _ Hg2 Hg3)) as Hg23.
    wp_step. apply wp_close; [by eapply grows_echoes|]. intros d st4 _ Hg4 Hec4. apply wp_ret.
    rewrite (gr_sizes _ _ _ _ _ Hg3) in Hg4.
    pose proof (grows_trans _ _ _ _ _ _ _ _ _ Hg23 Hg4) as Hgg.
    pose proof (gr_sizes _ _ _ _ _ Hg) as Hsz. simpl in Hsz.
    assert ((ret a <? 0) = false) as Hpos by (apply Z.ltb_ge; lia).
    eapply HQ; [exact Hgg|done| |right; split_and!; [lia| | |]].
    + intros h. rewrite !held_app. simpl. rewrite Ht. by apply remove_first_head.
    + intros h. rewrite !mapped_app. simpl. rewrite Hpos. apply Mt.
    + simpl. by rewrite Hsz.
    + intros q Hq. apply (gr_paths _ _ _ _ _ Hg4). by apply Hp.
Qed.

Lemma wp_hasError Q st : Q (negb (bool_decide (errors st.1 = []))) st → wp (in_diag hasError) Q st.
Proof.
  intros HQ. unfold in_diag. apply wp_zoom. unfold hasError, self. wp_go.
  destruct st as [d s]. unfold set_files. simpl. by destruct s.
Qed.

(** The attributes a successful [stat] of the path reported. *)
Definition attributes (path : string) t (b : statbuf) : Prop :=
  ∃ a, (CStat path, a) ∈ t ∧ ret a = 0 ∧ b = out_stat a.

Lemma attributes_app path t1 t2 b : attributes path t1 b → attributes path (t1 ++ t2) b.
Proof. intros (a & Ha & H1 & H2). exists a. split_and!; [apply elem_of_app; by left|done|done]. Qed.

Lemma attributes_last path t l a : ret a = 0 →
  attributes path (t ++ ((λ b, (CStat path, b)) <$> l ++ [a])) (out_stat a).
Proof. intros Ha. exists a. split_and!; [|done|done]. rewrite fmap_app. set_solver. Qed.

(** How much of a file is mapped, by its attributes: [mmapReadOnly] maps nothing
    of an empty file, which [mmapReadWrite] first extends by a page. *)
Definition whole_file (b : statbuf) : option Z :=
  if st_size b <=? 0 then None else Some (to_size (st_size b)).
Definition whole_or_page (b : statbuf) : option Z :=
  if st_size b <=? 0 then Some (1024 * 4) else Some (to_size (st_size b)).

(** What a mapping function leaves behind: no descriptor; and no mapping, because
    of an error of its own, an error from before, or a file with nothing to map
    (whose size is then stored as 0), or exactly the mapping it returns, as long
    as the file's attributes say, with its length stored. *)
Definition map_outcome (path : string) (extent : statbuf → option Z) (size realerPath : option positive)
    st st' (r : Z) : Prop :=
  ∃ t es σ, grows st st' t es σ ∧ (∀ h, held h t = h) ∧
    ((r = 0 ∧ (∀ h, mapped h t = h) ∧
      (es ≠ [] ∨ errors st.1 ≠ [] ∨
       (∃ b, attributes path t b ∧ extent b = None) ∧ σ = sized size 0 (sizes st.2))) ∨
     (0 < r ∧ ∃ b len, attributes path t b ∧ extent b = Some len ∧ (∀ h, mapped h t = (r, len) :: h) ∧
      σ = sized size len (sizes st.2) ∧ ∀ q, realerPath = Some q → is_Some (paths st'.2 !! q))).

(** [t0] opened the descriptor [fd] and did nothing else. *)
Definition opened fd st0 st t es : Prop :=
  grows st0 st t es (sizes st0.2) ∧ (∀ h, held h t = fd :: h) ∧ (∀ h, mapped h t = h).

Lemma opened_more fd st0 st st' t es c l es' :
  opened fd st0 st t es → neutral_call c → grows st st' ((λ b, (c, b)) <$> l) es' (sizes st.2) →
  opened fd st0 st' (t ++ ((λ b, (c, b)) <$> l)) (es ++ es').
Proof.
  intros (Hg0 & H0 & M0) Hc Hg. rewrite (gr_sizes _ _ _ _ _ Hg0) in Hg.
  destruct (balanced_calls c l Hc) as [H1 M1]. split_and!.
  - exact (grows_trans _ _ _ _ _ _ _ _ _ Hg0 Hg).
  - intros h. by rewrite held_app, H0, H1.
  - intros h. by rewrite mapped_app, M0, M1.
Qed.

Lemma wp_opened_map em fd prot flags len size p output b st0 t0 es0 Q st :
  echoes st → opened fd st0 st t0 es0 → attributes p t0 b → em b = Some len →
  (∀ r st', map_outcome p em size output st0 st' r → echoes st' → Q r st') →
  wp (map_file len prot flags fd size p output) Q st.
Proof.
  intros Hec (Hg0 & H0 & M0) Hb Hlen HQ. pose proof (gr_sizes _ _ _ _ _ Hg0) as Hsz0.
  apply wp_map_file; [done|]. intros r st' t es σ Hg Hec' Hheld Hres. apply HQ; [|done].
  do 3 eexists. split; [exact (grows_trans _ _ _ _ _ _ _ _ _ Hg0 Hg)|]. split.
  { intros h. by rewrite held_app, H0, Hheld. }
  destruct Hres as [(-> & Hes & Hm & _)|(Hr & Hm & -> & Hp)]; [left|right].
  - split_and!; [done| |left; destruct es; [done|intros He; by apply app_eq_nil in He as [_ ?]]].
    intros h. by rewrite mapped_app, M0, Hm.
  - split; [done|]. exists b, len. split_and!; [by apply attributes_app|done| |by rewrite Hsz0|done].
    intros h. by rewrite mapped_app, M0, Hm.
Qed.

(** Giving up after an error: the descriptor is closed. *)
Lemma wp_opened_close p em fd size output st0 t0 es0 (Q : Z → Diagnostics * sys K → Prop) st :
  echoes st → opened fd st0 st t0 es0 → errors st0.1 ++ es0 ≠ [] →
  (∀ r st', map_outcome p em size output st0 st' r → echoes st' → Q r st') →
  wp (close fd;; mret 0) Q st.
Proof.
  intros Hec (Hg0 & H0 & M0) Herr HQ. wp_step. apply wp_close; [done|]. intros b st' _ Hg Hec'.
  rewrite (gr_sizes _ _ _ _ _ Hg0) in Hg. apply wp_ret, HQ; [|done].
  do 3 eexists. split; [exact (grows_trans _ _ _ _ _ _ _ _ _ Hg0 Hg)|]. split; [|left; split_and!; [done| |]].
  - intros h. rewrite held_app, H0. apply remove_first_head.
  - intros h. by rewrite mapped_app, M0.
  - destruct es0 as [|e es0]; [right; left; by rewrite app_nil_r in Herr|by left].
Qed.

(** [open], and either giving up or going on with the descriptor. *)
Lemma wp_open_then em p flag m (k : Z → diagprog Z) size output st0 t0 es0 Q st :
  echoes st → grows st0 st t0 es0 (sizes st0.2) → balanced t0 →
  (∀ fd st' t es, 0 ≤ fd → echoes st' → opened fd st0 st' (t0 ++ t) es → wp (k fd) Q st') →
  (∀ r st', map_outcome p em size output st0 st' r → echoes st' → Q r st') →
  wp (fd ← open p flag m; if fd <? 0 then mret 0 else k fd) Q st.
Proof.
  intros Hec Hg0 [H0 M0] Hk HQ. pose proof (gr_sizes _ _ _ _ _ Hg0) as Hsz0.
  wp_step. apply wp_open; [done|]. intros l a st1 [Hg1 Hl Ha _] Hec1. rewrite Hsz0 in Hg1.
  pose proof (grows_trans _ _ _ _ _ _ _ _ _ Hg0 Hg1) as Hg.
  assert (∀ h, mapped h (t0 ++ ((λ b, (COpen p flag m, b)) <$> l ++ [a])) = h) as HM.
  { intros h. by rewrite mapped_app, M0, mapped_calls. }
  destruct (ret a <? 0) eqn:Hneg.
  - apply wp_ret, HQ; [|done]. do 3 eexists. split; [exact Hg|]. split; [|left; split_and!; [done|done|]].
    + intros h. by rewrite held_app, H0, held_open, Hneg by done.
    + left. unfold failure. rewrite Hneg. by destruct es0.
  - eapply Hk; [by apply Z.ltb_ge|done|]. split_and!; [exact Hg| |done].
    intros h. by rewrite held_app, H0, held_open, Hneg by done.
Qed.

Lemma wp_mmapReadOnly p size output Q st :
  echoes st → (∀ r st', map_outcome p whole_file size output st st' r → echoes st' → Q r st') →
  wp (mmapReadOnly p size output) Q st.
Proof.
  intros Hec HQ. unfold mmapReadOnly. wp_step. apply wp_stat; [done|].
  intros l a st1 Hre Hec1. pose proof (balanced_calls (CStat p) (l ++ [a]) I) as Hbal.
  destruct Hre as [Hg1 Hl Ha _]. wp_step. apply wp_hasError.
  rewrite (gr_diag _ _ _ _ _ Hg1). simpl. pose proof (answer_plain _ a Ha) as Hp. simpl in Hp.
  destruct (bool_decide (errors st.1 ++ failure "stat()" a = [])) eqn:Hno; simpl; b2p.
  - apply app_eq_nil in Hno as [Hno Hf]. unfold failure in Hf.
    destruct Hp as [Hm|Hz]; [by rewrite Hm in Hf|]. rewrite Hz. apply wp_bind.
    eapply wp_of_option; [reflexivity|]. cbv beta. pose proof (attributes_last p [] l a Hz) as Hat.
    destruct (st_size (out_stat a) <=? 0) eqn:Hempty.
    + wp_step. apply wp_store_size. intros st2 Hg2. apply wp_ret, HQ; [|by eapply grows_echoes].
      do 3 eexists. split; [exact (grows_trans _ _ _ _ _ _ _ _ _ Hg1 Hg2)|]. rewrite app_nil_r.
      split; [apply Hbal|left]. split_and!; [done|apply Hbal|]. right. right. split; [|by rewrite (gr_sizes _ _ _ _ _ Hg1)].
      exists (out_stat a). split; [exact Hat|]. unfold whole_file. by rewrite Hempty.
    + eapply wp_open_then; [done|exact Hg1|exact Hbal| |exact HQ].
      intros fd st2 t es _ Hec2 Hop.
      eapply (wp_opened_map whole_file); [done|exact Hop|by apply attributes_app| |exact HQ].
      unfold whole_file. by rewrite Hempty.
  - apply wp_ret, HQ; [|done]. do 3 eexists. split; [exact Hg1|].
    split; [apply Hbal|left]. split_and!; [done|apply Hbal|].
    destruct (errors st.1) eqn:He; [left; by rewrite app_nil_l in Hno|by right; left].
Qed.

Lemma wp_mmapReadWrite p size output Q st :
  echoes st → (∀ r st', map_outcome p whole_or_page size output st st' r → echoes st' → Q r st') →
  wp (mmapReadWrite p size output) Q st.
Proof.
  intros Hec HQ. unfold mmapReadWrite.
  eapply wp_open_then; [done|apply grows_refl|apply balanced_nil| |exact HQ].
  intros fd st1 t1 es1 _ Hec1 Hop1. wp_step. apply wp_stat; [done|].
  intros l a st2 [Hg2 Hl Ha _] Hec2.
  pose proof (opened_more fd st st1 st2 t1 es1 (CStat p) _ _ Hop1 I Hg2) as Hop2.
  pose proof (answer_plain _ a Ha) as Hp. simpl in Hp.
  apply wp_bind, wp_hasError. rewrite (gr_diag _ _ _ _ _ (proj1 Hop2)). simpl.
  destruct (bool_decide (errors st.1 ++ _ = [])) eqn:Hno; simpl; b2p.
  2: { by eapply wp_opened_close. }
  apply app_eq_nil in Hno as [Hno Hf]. apply app_eq_nil in Hf as [_ Hf]. unfold failure in Hf.
  destruct Hp as [Hm|Hz]; [by rewrite Hm in Hf|]. rewrite Hz. apply wp_bind.
  eapply wp_of_option; [reflexivity|]. cbv beta.
  pose proof (attributes_last p ([] ++ t1) l a Hz) as Hat.
  destruct (st_size (out_stat a) <=? 0) eqn:Hempty.
  2: { eapply (wp_opened_map whole_or_page); [done|exact Hop2|exact Hat| |exact HQ].
    unfold whole_or_page. by rewrite Hempty. }
  apply wp_bind, wp_ftruncate; [done|]. intros l3 a3 st3 [Hg3 _ _ _] Hec3.
  pose proof (opened_more fd st st2 st3 _ _ (CFtruncate fd _) _ _ Hop2 I Hg3) as Hop3.
  apply wp_bind, wp_hasError. rewrite (gr_diag _ _ _ _ _ (proj1 Hop3)). simpl.
  destruct (bool_decide _) eqn:Hno3; simpl; b2p; [|by eapply wp_opened_close].
  eapply (wp_opened_map whole_or_page); [done|exact Hop3|by apply attributes_app| |exact HQ].
  unfold whole_or_page. by rewrite (proj2 (Z.leb_le _ _) Hempty).
Qed.

Lemma wp_set_size p v Q st :
  (∀ st', grows st st' [] [] (<[p := v]> (sizes st.2)) → Q tt st') → wp (set_size p v) Q st.
Proof. apply (wp_store_size (Some p)). Qed.

(** A handler that is safe to run while its mapping is live, and that leaves
    neither descriptors nor mappings of its own behind. *)
Definition handler_ok (handler : Z → Z → string → diagprog unit) st : Prop :=
  ∀ r len rp st1 t es σ, echoes st1 → 0 < r → grows st st1 t es σ →
    (∀ h, mapped h t = (r, len) :: h) →
    wp (handler r len rp) (λ _ st2, echoes st2 ∧ ∃ t' es' σ', grows st1 st2 t' es' σ' ∧ balanced t') st1.

(** The last call is a [munmap] of what was mapped; it failed, and the last
    message says so. *)
Definition unmap_refused t es : Prop :=
  ∃ t0 es0 r len a, t = t0 ++ [(CMunmap r len, a)] ∧ ret a < 0 ∧ (∀ h, mapped h t0 = (r, len) :: h) ∧
    es = es0 ++ [mkMessage error_ (fail_text "munmap()" (err a))].

Lemma unmap_refused_left t es : unmap_refused t es → es ≠ [] ∧ ∃ x, ∀ h, mapped h t = x :: h.
Proof.
  intros (t0 & es0 & r & len & a & -> & Ha & Hm & ->). split.
  - intros Hnil. by apply app_eq_nil in Hnil as [_ ?].
  - exists (r, len). intros h. rewrite mapped_app, Hm. simpl.
    by rewrite (proj2 (Z.eqb_neq (ret a) 0)) by lia.
Qed.

(** The handler was given a live mapping, and [munmap] of it was the next call. *)
Definition handled (handler : Z → Z → string → diagprog unit) st st' : Prop :=
  ∃ r len rp st1 st2 t es σ a, grows st st1 t es σ ∧ 0 < r ∧ (∀ h, mapped h t = (r, len) :: h) ∧
    handler r len rp st1 = Done tt st2 ∧ trace st'.2 = trace st2.2 ++ [(CMunmap r len, a)].

(** Why there may be no mapping of a whole file. *)
Definition unmappable (path : string) st t es : Prop :=
  es ≠ [] ∨ errors st.1 ≠ [] ∨ ∃ b, attributes path t b ∧ whole_file b = None.

Lemma wp_withMmapReadOnly p handler st :
  echoes st → handler_ok handler st →
  wp (withMmapReadOnly p handler) (λ _ st', echoes st' ∧ ∃ t es σ, grows st st' t es σ ∧ (∀ h, held h t = h) ∧
    ((∀ h, mapped h t = h) ∨ unmap_refused t es) ∧ (handled handler st st' ∨ unmappable p st t es)) st.
Proof.
  intros Hec Hh. unfold withMmapReadOnly. wp_step. apply wp_in_sys, wp_gets.
  set (ps := fresh _). apply wp_bind. cbn [fst]. replace (st.1, st.2) with st by by destruct st.
  apply wp_set_size. intros st1 Hg1. assert (echoes st1) as Hec1 by by eapply grows_echoes.
  wp_step. apply wp_in_sys, wp_gets. set (pp := fresh _). apply wp_bind.
  replace (st1.1, st1.2) with st1 by by destruct st1.
  apply wp_set_path. intros st2 Hg2 _. assert (echoes st2) as Hec2 by by eapply grows_echoes.
  apply wp_bind, wp_mmapReadOnly; [done|]. intros r st3 (t & es & σ & Hg3 & Hheld & Hr) Hec3.
  pose proof (grows_trans _ _ _ _ _ _ _ _ _ Hg1 (grows_trans _ _ _ _ _ _ _ _ _ Hg2 Hg3)) as Hg.
  simpl in Hg. destruct Hr as [(-> & Hm & Hwhy)|(Hpos & b & len & _ & _ & Hm & Hσ & Hpath)].
  { apply wp_ret. split; [done|]. do 3 eexists. split; [exact Hg|]. split_and!; [done|by left|]. right.
    unfold unmappable. assert (errors st2.1 = errors st.1) as <-
      by (rewrite (gr_diag _ _ _ _ _ Hg2), (gr_diag _ _ _ _ _ Hg1); simpl; by rewrite !app_nil_r).
    naive_solver. }
  destruct (Z.eqb_spec r 0) as [|_]; [lia|]. wp_step. apply wp_in_sys. wp_step. apply wp_gets.
  eapply wp_of_option; [rewrite (gr_sizes _ _ _ _ _ Hg3), Hσ; apply lookup_insert_eq|].
  destruct (Hpath pp eq_refl) as [rp Hrp]. wp_step. apply wp_in_sys. wp_step. apply wp_gets.
  eapply wp_of_option; [exact Hrp|]. simpl. replace (st3.1, st3.2) with st3 by by destruct st3.
  wp_step. apply wp_run. eapply wp_mono; [by eapply (Hh r len rp st3 t es σ)|].
  intros [] st4 (Hec4 & t' & es' & σ' & Hg4 & [Ht' Mt']) Hrun. apply wp_munmap; [done|].
  intros a st5 Ha Hg5 Hec5. rewrite (gr_sizes _ _ _ _ _ Hg4) in Hg5.
  pose proof (grows_trans _ _ _ _ _ _ _ _ _ Hg (grows_trans _ _ _ _ _ _ _ _ _ Hg4 Hg5)) as Hgg.
  split; [done|]. do 3 eexists. split; [exact Hgg|]. split_and!.
  - intros h. by rewrite !held_app, Hheld, Ht'.
  - pose proof (answer_plain _ a Ha) as Hp. simpl in Hp. destruct Hp as [Hfail|Hok].
    + right. exists (t ++ t'), (es ++ es'), r, len, a. rewrite Hfail, !app_assoc.
      split_and!; [done|lia| |].
      * intros h. by rewrite mapped_app, Hm, Mt'.
      * unfold failure. by rewrite Hfail.
    + left. intros h. rewrite !mapped_app, Hm, Mt'. simpl. rewrite Hok. simpl. by rewrite decide_True.
  - left. exists r, len, rp, st3, st4, t, es, σ, a. split_and!; [exact Hg|done..|apply Hg5].
Qed.

(** ** The properties *)

(** C32: [open] retries while the kernel says [EAGAIN] or [EINTR] and no longer:
    it makes as many calls as it takes, returns the first other answer, and adds
    one message with that answer's error to the diagnostics if it is a failure
    and none otherwise. *)
Theorem open_correct path flag other st :
  echoes st →
  wp (open path flag other) (λ fd st', ∃ l a, fd = ret a ∧
    trace st'.2 = trace st.2 ++ ((λ b, (COpen path flag other, b)) <$> l ++ [a]) ∧
    Forall (λ b, ret b < 0 ∧ (err b = EAGAIN ∨ err b = EINTR)) l ∧
    (ret a < 0 → err a ≠ EAGAIN ∧ err a ≠ EINTR) ∧
    st'.1 = with_errors (errors st.1 ++
      (if ret a <? 0 then [mkMessage error_ (fail_text "open()" (err a))] else [])) st.1) st.
Proof.
  intros Hec. apply wp_open; [done|]. intros l a st' [Hg Hl _ Hfin] _. exists l, a.
  split_and!; [done|apply Hg|done|done|apply Hg].
Qed.

(** [stat], [fstatat], [truncate] and [ftruncate] do the same; the first two
    deliver the attributes exactly when the last answer is a success. *)
Theorem metadata_calls_correct path fd flag size st :
  echoes st →
  wp (stat path) (λ buf st', ∃ l a, retried (CStat path) "stat()" st st' l a ∧
    buf = if ret a =? 0 then Some (out_stat a) else None) st ∧
  wp (fstatat fd path flag) (λ buf st', ∃ l a, retried (CFstatat fd path flag) "fstatat()" st st' l a ∧
    buf = if ret a =? 0 then Some (out_stat a) else None) st ∧
  wp (truncate path size) (λ _ st', ∃ l a,
    retried (CTruncate path (to_i64 size)) "truncate()" st st' l a) st ∧
  wp (ftruncate fd size) (λ _ st', ∃ l a,
    retried (CFtruncate fd (to_i64 size)) "ftruncate()" st st' l a) st.
Proof.
  intros Hec. split_and!; [apply wp_stat|apply wp_fstatat|apply wp_truncate|apply wp_ftruncate]; eauto.
Qed.

(** [close] calls the kernel exactly once, whatever the answer; a failure is
    reported unless it is an interruption. *)
Theorem close_once fd st :
  echoes st →
  wp (close fd) (λ _ st', ∃ a, trace st'.2 = trace st.2 ++ [(CClose fd, a)] ∧
    st'.1 = with_errors (errors st.1 ++
      (if (ret a <? 0) && negb (err a =? EINTR)
       then [mkMessage error_ (fail_text "close()" (err a))] else [])) st.1) st.
Proof.
  intros Hec. apply wp_close; [done|]. intros a st' _ Hg _. exists a. split; [apply Hg|].
  rewrite (gr_diag _ _ _ _ _ Hg). unfold close_failure, failure.
  by destruct (err a =? EINTR), (ret a <? 0).
Qed.

(** [cwd] and [realpath] close the descriptor they open on every path, and
    when they report no error the output buffer has been filled. *)
Theorem resolve_closes path output st :
  echoes st →
  wp (cwd output) (λ _ st', ∃ t es, grows st st' t es (sizes st.2) ∧ balanced t ∧
    (es = [] → is_Some (paths st'.2 !! output))) st ∧
  wp (realpath path output) (λ _ st', ∃ t es, grows st st' t es (sizes st.2) ∧ balanced t ∧
    (es = [] → is_Some (paths st'.2 !! output))) st.
Proof.
  intros Hec.
  split; (eapply wp_mono; [by apply wp_resolve|]); intros [] st' (_ & t & es & [Hg Hb Hp]); eauto.
Qed.

(** C15: [mmapReadOnly] and [mmapReadWrite] on every path, each interrupted or
    failing call included: no descriptor stays open; the result is null with
    nothing mapped, and then there is an error, of the call or from before, or,
    for [mmapReadOnly], the file's attributes say that it is empty, and the size
    is set to 0; or the result is the one mapping that was made, of the length the
    attributes say (for [mmapReadWrite] a page if the file was empty), the length
    is stored, and the path buffer has been filled. *)
Theorem mmap_correct path size realerPath st :
  echoes st →
  wp (mmapReadOnly path size realerPath) (λ r st', map_outcome path whole_file size realerPath st st' r) st ∧
  wp (mmapReadWrite path size realerPath) (λ r st', map_outcome path whole_or_page size realerPath st st' r) st.
Proof. intros Hec. split; [apply wp_mmapReadOnly|apply wp_mmapReadWrite]; auto. Qed.

(** C31: [withMmapReadOnly] runs the handler on the live mapping and then unmaps it,
    or there is an error, or the file's attributes say that it is empty.  It leaves
    no descriptor open; nothing stays mapped, whatever the handler reports, unless
    the final [munmap] itself fails, which is the last thing reported. *)
Theorem withMmapReadOnly_unmaps path handler st :
  echoes st → handler_ok handler st →
  wp (withMmapReadOnly path handler) (λ _ st', ∃ t es σ, grows st st' t es σ ∧
    (∀ h, held h t = h) ∧ ((∀ h, mapped h t = h) ∨ unmap_refused t es) ∧
    (handled handler st st' ∨ unmappable path st t es)) st.
Proof.
  intros Hec Hh. eapply wp_mono; [by apply wp_withMmapReadOnly|].
  intros [] st' (_ & t & es & σ & Hg & Ht & Hm & Hr). by exists t, es, σ.
Qed.

(** [dirExists] and [fileExists] never read the attributes of a failed
    [stat]: they answer whether the file exists and is of that kind, open
    nothing, and write to no diagnostics of the caller. *)
Theorem exists_correct path s :
  wp (dirExists path) (λ r s', ∃ l a, trace s' = trace s ++ ((λ b, (CStat path, b)) <$> l ++ [a]) ∧
    r = (ret a =? 0) && S_ISDIR (st_mode (out_stat a))) s ∧
  wp (fileExists path) (λ r s', ∃ l a, trace s' = trace s ++ ((λ b, (CStat path, b)) <$> l ++ [a]) ∧
    r = (ret a =? 0) && S_ISREG (st_mode (out_stat a))) s.
Proof.
  split; unfold dirExists, fileExists, with_diag; apply wp_zoom;
    apply wp_bind, wp_stat; try (by intros f Hf); intros l a st1 [Hg _ Ha _] _;
    apply wp_bind, wp_hasError; rewrite (gr_diag _ _ _ _ _ Hg);
    pose proof (answer_plain _ a Ha) as Hp; simpl in Hp |- *; unfold failure;
    destruct Hp as [Hp|Hp]; rewrite Hp; simpl.
  all: exists l, a; rewrite Hp; split; [apply Hg|done].
Qed.

(** C38: An error that the diagnostics already hold makes [mmapReadOnly] give up
    after a [stat] that succeeded: it returns null, opens and maps nothing, and
    reports nothing, although [README.md] says that a sequence of calls can be
    written straight through and checked once at the end. *)
Theorem mmapReadOnly_stale_error path size realerPath st :
  echoes st → errors st.1 ≠ [] →
  wp (mmapReadOnly path size realerPath) (λ r st', r = 0 ∧ ∃ l a,
    retried (CStat path) "stat()" st st' l a) st.
Proof.
  intros Hec He. unfold mmapReadOnly. wp_step. apply wp_stat; [done|].
  intros l a st1 Hre _. apply wp_bind, wp_hasError. rewrite (gr_diag _ _ _ _ _ (re_grows _ _ _ _ _ _ Hre)).
  simpl. rewrite bool_decide_eq_false_2 by (destruct (errors st.1); done). simpl. apply wp_ret. eauto.
Qed.

End sys.

(** ** A kernel that interrupts *)

(** A retried call may be interrupted twice before it succeeds; there is one
    regular file of 100 bytes. *)
Inductive phase := First | Second | Third.

Definition next_phase (p : phase) : phase :=
  match p with First => Second | Second => Third | Third => First end.

#[export] Instance busy_kernel : Kernel phase := λ c k,
  let ok r := mkAnswer r 0 (mkStat 33188 100) "/tmp/file" in
  let try_ r := match k with Third => ok r | _ => mkAnswer (-1) EINTR (mkStat 0 0) "" end in
  (match c with
   | COpen _ _ _ => try_ 3
   | CMmap _ _ _ _ => ok 4096
   | CStat _ | CFstatat _ _ _ | CTruncate _ _ | CFtruncate _ _ => try_ 0
   | _ => ok 0
   end, next_phase k).

#[export] Instance busy_laws : KernelLaws.
Proof.
  split; [intros [] []; cbn; lia|intros [] []; cbn; auto|intros ? ? ? ? []; cbn; lia|].
  intros [] []; cbn; unfold EINTR; lia.
Qed.

(** Three tries are always enough. *)
Lemma busy_responsive : responsive 3.
Proof.
  intros bad [] []; cbn; unfold interrupted; cbn; destruct (bad (-1)), (bad 0), (bad 3), (bad 4096); cbn;
    by eexists.
Qed.

Definition busy_strerror (e : Z) : string := "error".

Lemma busy_short : strerror_short busy_strerror.
Proof. intros e. vm_compute. lia. Qed.

(** ** Concrete runs *)

Definition busy_state (es : list Message) : Diagnostics * sys phase :=
  (with_errors es (diagnostics None), mkSys First 0 ∅ [] ∅ ∅).

Lemma busy_echoes es : echoes (busy_state es).
Proof. by intros f Hf. Qed.

(** The handler of a client that does nothing. *)
Definition no_handler (_ _ : Z) (_ : string) : diagprog (K := phase) unit := mret tt.

Lemma no_handler_ok st : handler_ok no_handler st.
Proof.
  intros r len rp st1 t es σ Hec _ _ _. apply wp_ret. split; [done|].
  do 3 eexists. split; [apply grows_refl|apply balanced_nil].
Qed.

Example busy_map : fst <$> (match mmapReadOnly busy_strerror 3 "/tmp/file" (Some 1%positive) None (busy_state []) with
    Done r s => Some (r, sizes s.2 !! 1%positive) | Stop _ _ => None end) = Some 4096.
Proof. vm_compute. reflexivity. Qed.

Lemma open_correct_witness :
  wp (open busy_strerror 3 "/tmp/file" O_RDONLY 0) (λ fd st', ∃ l a, fd = ret a ∧
    trace st'.2 = trace (busy_state []).2 ++ ((λ b, (COpen "/tmp/file" O_RDONLY 0, b)) <$> l ++ [a]) ∧
    Forall (λ b, ret b < 0 ∧ (err b = EAGAIN ∨ err b = EINTR)) l ∧
    (ret a < 0 → err a ≠ EAGAIN ∧ err a ≠ EINTR) ∧
    st'.1 = with_errors (errors (busy_state []).1 ++
      (if ret a <? 0 then [mkMessage error_ (fail_text busy_strerror "open()" (err a))] else []))
      (busy_state []).1) (busy_state []).
Proof.
  apply (open_correct busy_strerror 3 busy_responsive busy_short "/tmp/file" O_RDONLY 0 (busy_state [])).
  apply busy_echoes.
Defined.

Lemma metadata_calls_correct_witness :
  wp (stat busy_strerror 3 "/tmp/file") (λ buf st', ∃ l a,
    retried busy_strerror (CStat "/tmp/file") "stat()" (busy_state []) st' l a ∧
    buf = if ret a =? 0 then Some (out_stat a) else None) (busy_state []) ∧
  wp (fstatat busy_strerror 3 3 "file" 0) (λ buf st', ∃ l a,
    retried busy_strerror (CFstatat 3 "file" 0) "fstatat()" (busy_state []) st' l a ∧
    buf = if ret a =? 0 then Some (out_stat a) else None) (busy_state []) ∧
  wp (truncate busy_strerror 3 "/tmp/file" 10) (λ _ st', ∃ l a,
    retried busy_strerror (CTruncate "/tmp/file" (to_i64 10)) "truncate()" (busy_state []) st' l a) (busy_state []) ∧
  wp (ftruncate busy_strerror 3 3 10) (λ _ st', ∃ l a,
    retried busy_strerror (CFtruncate 3 (to_i64 10)) "ftruncate()" (busy_state []) st' l a) (busy_state []).
Proof.
  pose proof (metadata_calls_correct busy_strerror 3 busy_responsive busy_short "/tmp/file" 3 0 10
    (busy_state []) (busy_echoes [])) as (H1 & _ & H3 & H4).
  pose proof (metadata_calls_correct busy_strerror 3 busy_responsive busy_short "file" 3 0 10
    (busy_state []) (busy_echoes [])) as (_ & H2 & _).
  split; [exact H1|]. split; [exact H2|]. split; [exact H3|exact H4].
Defined.

Lemma close_once_witness :
  wp (close busy_strerror 3) (λ _ st', ∃ a, trace st'.2 = trace (busy_state []).2 ++ [(CClose 3, a)] ∧
    st'.1 = with_errors (errors (busy_state []).1 ++
      (if (ret a <? 0) && negb (err a =? EINTR)
       then [mkMessage error_ (fail_text busy_strerror "close()" (err a))] else [])) (busy_state []).1) (busy_state []).
Proof. apply (close_once busy_strerror busy_short 3 (busy_state [])). apply busy_echoes. Defined.

Lemma resolve_closes_witness :
  wp (cwd busy_strerror 3 1) (λ _ st', ∃ t es, grows (busy_state []) st' t es ∅ ∧ balanced t ∧
    (es = [] → is_Some (paths st'.2 !! 1%positive))) (busy_state []) ∧
  wp (realpath busy_strerror 3 "/tmp/file" 1) (λ _ st', ∃ t es, grows (busy_state []) st' t es ∅ ∧ balanced t ∧
    (es = [] → is_Some (paths st'.2 !! 1%positive))) (busy_state []).
Proof.
  apply (resolve_closes busy_strerror 3 busy_responsive busy_short "/tmp/file" 1 (busy_state [])). apply busy_echoes.
Defined.

Lemma mmap_correct_witness :
  wp (mmapReadOnly busy_strerror 3 "/tmp/file" (Some 1%positive) None)
    (λ r st', map_outcome "/tmp/file" whole_file (Some 1%positive) None (busy_state []) st' r) (busy_state []) ∧
  wp (mmapReadWrite busy_strerror 3 "/tmp/file" (Some 1%positive) None)
    (λ r st', map_outcome "/tmp/file" whole_or_page (Some 1%positive) None (busy_state []) st' r) (busy_state []).
Proof.
  apply (mmap_correct busy_strerror 3 busy_responsive busy_short "/tmp/file" (Some 1%positive) None (busy_state [])).
  apply busy_echoes.
Defined.

Lemma withMmapReadOnly_unmaps_witness :
  wp (withMmapReadOnly busy_strerror 3 "/tmp/file" no_handler) (λ _ st', ∃ t es σ,
    grows (busy_state []) st' t es σ ∧ (∀ h, held h t = h) ∧
    ((∀ h, mapped h t = h) ∨ unmap_refused busy_strerror t es) ∧
    (handled no_handler (busy_state []) st' ∨ unmappable "/tmp/file" (busy_state []) t es)) (busy_state []).
Proof.
  apply (withMmapReadOnly_unmaps busy_strerror 3 busy_responsive busy_short "/tmp/file" no_handler (busy_state [])).
  - apply busy_echoes.
  - apply no_handler_ok.
Defined.

Lemma exists_correct_witness :
  wp (dirExists busy_strerror 3 "/tmp/file") (λ r s', ∃ l a,
    trace s' = trace (busy_state []).2 ++ ((λ b, (CStat "/tmp/file", b)) <$> l ++ [a]) ∧
    r = (ret a =? 0) && S_ISDIR (st_mode (out_stat a))) (busy_state []).2 ∧
  wp (fileExists busy_strerror 3 "/tmp/file") (λ r s', ∃ l a,
    trace s' = trace (busy_state []).2 ++ ((λ b, (CStat "/tmp/file", b)) <$> l ++ [a]) ∧
    r = (ret a =? 0) && S_ISREG (st_mode (out_stat a))) (busy_state []).2.
Proof. apply (exists_correct busy_strerror 3 busy_responsive busy_short "/tmp/file" (busy_state []).2). Defined.

Lemma mmapReadOnly_stale_error_witness :
  wp (mmapReadOnly busy_strerror 3 "/tmp/file" None None) (λ r st', r = 0 ∧ ∃ l a,
    retried busy_strerror (CStat "/tmp/file") "stat()" (busy_state [mkMessage error_ "old"]) st' l a)
    (busy_state [mkMessage error_ "old"]).
Proof.
  apply (mmapReadOnly_stale_error busy_strerror 3 busy_responsive busy_short "/tmp/file" None None
    (busy_state [mkMessage error_ "old"])).
  - apply busy_echoes.
  - discriminate.
Defined.

End Sys.
