(* ===== verification/SysSession.v ===== *)
(** * SysSession: straight-line code over the [Sys] wrappers

    The wrappers of [sys.h] report into one [Diagnostics], so that a caller "can
    run a sequence of calls and check [hasError()] once at the end instead of
    testing each one" ([Diagnostics.h]).  Here a caller is a session: a call of
    the interface and what is done next, which may depend on the reply.  A session
    run straight through is compared with one that tests after every call, and
    what it holds in the end with what its replies say. *)

From S2P Require Import Prelude Diagnostics.
Import Diagnostics.
From S2P Require Import Sys.

Module SysSession.
Import Sys.

Section session.
Context {K : Type} `{Kernel K} (strerror : Z → string) (fuel : nat).

(** The functions of [sys.h] with their arguments. *)
Inductive request :=
| Open (path : string) (flag other : Z)
| Close (fd : Z)
| Stat (path : string)
| Fstatat (fd : Z) (path : string) (flag : Z)
| Truncate (path : string) (size : Z)
| Ftruncate (fd size : Z)
| Cwd (output : positive)
| Realpath (input : string) (output : positive)
| DirExists (path : string)
| FileExists (path : string)
| MmapReadOnly (path : string) (size realerPath : option positive)
| WithMmapReadOnly (path : string) (handler : Z → Z → string → diagprog (K := K) unit)
| MmapReadWrite (path : string) (size realerPath : option positive)
| Munmap (buf size : Z).

(** What a call returns: nothing, an [int] or a pointer, what was written to
    [*buf], or a [bool]. *)
Inductive reply := Nothing | Int (z : Z) | Attributes (b : option statbuf) | Bool (b : bool).

Definition serve (r : request) : diagprog reply :=
  match r with
  | Open path flag other => x ← open strerror fuel path flag other; mret (Int x)
  | Close fd => close strerror fd;; mret Nothing
  | Stat path => x ← stat strerror fuel path; mret (Attributes x)
  | Fstatat fd path flag => x ← fstatat strerror fuel fd path flag; mret (Attributes x)
  | Truncate path size => truncate strerror fuel path size;; mret Nothing
  | Ftruncate fd size => ftruncate strerror fuel fd size;; mret Nothing
  | Cwd output => cwd strerror fuel output;; mret Nothing
  | Realpath input output => realpath strerror fuel input output;; mret Nothing
  | DirExists path => x ← in_sys (dirExists strerror fuel path); mret (Bool x)
  | FileExists path => x ← in_sys (fileExists strerror fuel path); mret (Bool x)
  | MmapReadOnly path size realerPath => x ← mmapReadOnly strerror fuel path size realerPath; mret (Int x)
  | WithMmapReadOnly path handler => withMmapReadOnly strerror fuel path handler;; mret Nothing
  | MmapReadWrite path size realerPath => x ← mmapReadWrite strerror fuel path size realerPath; mret (Int x)
  | Munmap buf size => munmap strerror buf size;; mret Nothing
  end.

(** A caller: done, or a call and what follows its reply. *)
Inductive session := Finish | Ask (r : request) (k : reply → session).

(** The calls made and their replies. *)
Notation log := (list (request * reply)).

(** Straight through. *)
Fixpoint straight (c : session) : diagprog log :=
  match c with
  | Finish => mret []
  | Ask r k => a ← serve r; l ← straight (k a); mret ((r, a) :: l)
  end.

(** Testing [hasError()] after every call, and leaving at the first error; with
    whether the end was reached. *)
Fixpoint careful (c : session) : diagprog (log * bool) :=
  match c with
  | Finish => mret ([], true)
  | Ask r k =>
      a ← serve r;
      e ← in_diag hasError;
      if (e : bool) then mret ([(r, a)], false)
      else '(l, b) ← careful (k a); mret ((r, a) :: l, b)
  end.

(** ** What a caller holds *)

(** Descriptors that are open, and mappings by address and length. *)
Record holding := Holding { fds : list Z; maps : list (Z * Z) }.

(** What the replies say happened to it; [es] is what the call reported. *)
Inductive effect (es : list Message) (h : holding) : request → reply → holding → Prop :=
| open_effect path flag other fd :
    effect es h (Open path flag other) (Int fd) (if fd <? 0 then h else Holding (fd :: fds h) (maps h))
| close_effect fd : effect es h (Close fd) Nothing (Holding (remove_first fd (fds h)) (maps h))
| map_effect r path size realerPath p len :
    r = MmapReadOnly path size realerPath ∨ r = MmapReadWrite path size realerPath → 0 < p →
    effect es h r (Int p) (Holding (fds h) ((p, len) :: maps h))
| map_none r path size realerPath :
    r = MmapReadOnly path size realerPath ∨ r = MmapReadWrite path size realerPath →
    effect es h r (Int 0) h
| unmap_effect buf size : effect es h (Munmap buf size) Nothing (Holding (fds h) (remove_first (buf, size) (maps h)))
| unmap_failed r x :
    es ≠ [] → (∃ buf size, r = Munmap buf size ∧ x = []) ∨ (∃ path f m, r = WithMmapReadOnly path f ∧ x = [m]) →
    effect es h r Nothing (Holding (fds h) (x ++ maps h))
| other_effect r a :
    match r with
    | Open _ _ _ | Close _ | MmapReadOnly _ _ _ | MmapReadWrite _ _ _ | Munmap _ _ => False
    | _ => True
    end → effect es h r a h.

(** What the calls of a trace make of it. *)
Definition after (h : holding) (t : list (call * answer)) : holding :=
  Holding (held (fds h) t) (mapped (maps h) t).

Lemma after_app h t1 t2 : after h (t1 ++ t2) = after (after h t1) t2.
Proof. unfold after. simpl. by rewrite held_app, mapped_app. Qed.

Lemma after_balanced h t : balanced t → after h t = h.
Proof. intros [H1 H2]. unfold after. rewrite H1, H2. by destruct h. Qed.

Context {KL : @KernelLaws K _} (Hresp : responsive fuel) (Hshort : strerror_short strerror).
Implicit Types (st : Diagnostics * sys K) (t : list (call * answer)) (es : list Message).

(** A handler may be anything that keeps to the rules of [Sys.v]. *)
Definition request_ok (r : request) : Prop :=
  match r with WithMmapReadOnly _ handler => ∀ st, handler_ok handler st | _ => True end.

(** What a call adds to the state, and its effect on what the caller holds. *)
Definition served (r : request) st (a : reply) st' : Prop :=
  echoes st' ∧ ∃ t es σ, grows st st' t es σ ∧ ∀ h, effect es h r a (after h t).

Lemma retried_served r c name st st' l a x :
  neutral_call c → (∀ es h, effect es h r x h) →
  retried strerror c name st st' l a → echoes st' → served r st x st'.
Proof.
  intros Hc He [Hg _ _ _] Hec. split; [done|]. do 3 eexists. split; [exact Hg|].
  intros h. rewrite after_balanced; [apply He|by apply balanced_calls].
Qed.

Lemma resolved_served r p flag output st st' t es :
  (∀ es h, effect es h r Nothing h) → echoes st' → resolved p flag output st st' t es →
  served r st Nothing st'.
Proof.
  intros He Hec [Hg Hb _]. split; [done|]. do 3 eexists. split; [exact Hg|].
  intros h. by rewrite after_balanced.
Qed.

Lemma mapped_served em r path size realerPath st st' p :
  r = MmapReadOnly path size realerPath ∨ r = MmapReadWrite path size realerPath →
  echoes st' → map_outcome path em size realerPath st st' p → served r st (Int p) st'.
Proof.
  intros Hr Hec (t & es & σ & Hg & Hh & Hm). split; [done|]. exists t, es, σ. split; [done|].
  intros h. unfold after. rewrite Hh. destruct Hm as [(-> & Hm & _)|(Hp & b & len & _ & _ & Hm & _)]; rewrite Hm.
  - destruct h. by eapply map_none.
  - by eapply map_effect.
Qed.

(** [dirExists] and [fileExists]: a diagnostics of their own. *)
Lemma exists_served (test : Z → bool) r (b : string → sysprog bool) path st :
  (∀ es h x, effect es h r (Bool x) h) →
  b path = with_diag (diagnostics None)
    (buf ← stat strerror fuel path;
     e ← in_diag hasError;
     if e : bool then mret false
     else s ← of_option FUndefined buf; mret (test (st_mode s))) →
  echoes st → wp (in_sys (b path)) (λ x st', served r st (Bool x) st') st.
Proof.
  intros He -> Hec. apply wp_in_sys. unfold with_diag. apply wp_zoom.
  apply wp_bind, (wp_stat _ _ Hresp Hshort); [by intros f Hf|]. intros l a st1 [Hg _ Ha _] _.
  assert (∀ x, served r st (Bool x) (st.1, st1.2)) as Hs.
  { intros x. destruct Hg as [T D F Sz P]. simpl in *. split.
    - intros f Hf. by apply F, Hec.
    - do 3 eexists. split; [split; simpl; [exact T| |done|exact Sz|done]|].
      + by rewrite app_nil_r; destruct st as [[]].
      + intros h. rewrite after_balanced; [apply He|by apply balanced_calls]. }
  apply wp_bind, wp_hasError. rewrite (gr_diag _ _ _ _ _ Hg). simpl.
  pose proof (answer_plain _ a Ha) as Hp. simpl in Hp. unfold failure.
  destruct Hp as [Hp|Hp]; rewrite Hp; simpl; apply Hs.
Qed.

Lemma wp_serve r st :
  echoes st → request_ok r → wp (serve r) (λ a st', served r st a st') st.
Proof.
  intros Hec Hok. destruct r as [path flag other|fd|path|fd path flag|path size|fd size|output|input output
    |path|path|path size rp|path f|path size rp|buf size]; simpl.
  - wp_step. apply (wp_open _ _ Hresp Hshort); [done|]. intros l a st' [Hg Hl _ _] Hec'. apply wp_ret.
    split; [done|]. do 3 eexists. split; [exact Hg|]. intros h. unfold after.
    rewrite held_open, mapped_calls by done. pose proof (open_effect (failure strerror "open()" a) h path flag other (ret a)) as He.
    destruct h. by destruct (ret a <? 0).
  - wp_step. apply (wp_close _ Hshort); [done|]. intros a st' _ Hg Hec'. apply wp_ret.
    split; [done|]. do 3 eexists. split; [exact Hg|]. intros h. apply close_effect.
  - wp_step. apply (wp_stat _ _ Hresp Hshort); [done|]. intros l a st' Hre Hec'. apply wp_ret.
    eapply retried_served; [| |done|done]; [done|by constructor].
  - wp_step. apply (wp_fstatat _ _ Hresp Hshort); [done|]. intros l a st' Hre Hec'. apply wp_ret.
    eapply retried_served; [| |done|done]; [done|by constructor].
  - wp_step. apply (wp_truncate _ _ Hresp Hshort); [done|]. intros l a st' Hre Hec'. apply wp_ret.
    eapply retried_served; [| |done|done]; [done|by constructor].
  - wp_step. apply (wp_ftruncate _ _ Hresp Hshort); [done|]. intros l a st' Hre Hec'. apply wp_ret.
    eapply retried_served; [| |done|done]; [done|by constructor].
  - wp_step. eapply wp_mono; [by apply (wp_resolve _ _ Hresp Hshort)|].
    intros [] st' (Hec' & t & es & Hrs). apply wp_ret. by eapply resolved_served; [constructor|..].
  - wp_step. eapply wp_mono; [by apply (wp_resolve _ _ Hresp Hshort)|].
    intros [] st' (Hec' & t & es & Hrs). apply wp_ret. by eapply resolved_served; [constructor|..].
  - wp_step. eapply wp_mono; [by apply (exists_served S_ISDIR (DirExists path) (dirExists strerror fuel) path); [constructor|..]|].
    intros x st' Hs. by apply wp_ret.
  - wp_step. eapply wp_mono; [by apply (exists_served S_ISREG (FileExists path) (fileExists strerror fuel) path); [constructor|..]|].
    intros x st' Hs. by apply wp_ret.
  - wp_step. apply (wp_mmapReadOnly _ _ Hresp Hshort); [done|]. intros x st' Hm Hec'. apply wp_ret.
    eapply mapped_served; [by left|done|done].
  - wp_step. eapply wp_mono; [by apply (wp_withMmapReadOnly _ _ Hresp Hshort)|].
    intros [] st' (Hec' & t & es & σ & Hg & Hh & Hm & _). apply wp_ret. split; [done|].
    exists t, es, σ. split; [done|]. intros h. unfold after. rewrite Hh.
    destruct Hm as [Hm|[Hes [x Hm]]%unmap_refused_left]; rewrite Hm.
    + destruct h. by apply other_effect.
    + apply (unmap_failed _ h _ [x] Hes). right. by exists path, f, x.
  - wp_step. apply (wp_mmapReadWrite _ _ Hresp Hshort); [done|]. intros x st' Hm Hec'. apply wp_ret.
    eapply mapped_served; [by right|done|done].
  - wp_step. apply (wp_munmap _ Hshort); [done|]. intros a st' Ha Hg Hec'. apply wp_ret. split; [done|].
    do 3 eexists. split; [exact Hg|]. intros h. unfold after, failure. simpl.
    pose proof (answer_plain _ a Ha) as Hp. simpl in Hp. destruct Hp as [Hp|Hp]; rewrite Hp; simpl.
    + apply (unmap_failed _ h (Munmap buf size) []); [done|]. left. by exists buf, size.
    + apply unmap_effect.
Qed.

(** ** Sessions *)

Fixpoint session_ok (c : session) : Prop :=
  match c with
  | Finish => True
  | Ask r k => request_ok r ∧ ∀ a, session_ok (k a)
  end.

(** The effects of a session's calls, one after the other, with all they reported. *)
Inductive effects : log → list Message → holding → holding → Prop :=
| effects_nil h : effects [] [] h h
| effects_cons r a l es es' h h1 h' :
    effect es h r a h1 → effects l es' h1 h' → effects ((r, a) :: l) (es ++ es') h h'.

Definition session_done st (l : log) st' : Prop :=
  echoes st' ∧ ∃ t es, trace st'.2 = trace st.2 ++ t ∧ errors st'.1 = errors st.1 ++ es ∧
    ∀ h, effects l es h (after h t).

Lemma straight_done c st : echoes st → session_ok c → wp (straight c) (session_done st) st.
Proof.
  revert st. induction c as [|r k IH]; intros st Hec Hok; simpl in *.
  - apply wp_ret. split; [done|]. exists [], []. rewrite !app_nil_r. split_and!; [done..|].
    intros []. apply effects_nil.
  - destruct Hok as [Hr Hk]. wp_step. eapply wp_mono; [by apply wp_serve|].
    intros a st1 (Hec1 & t1 & es1 & σ & Hg & He). wp_step. eapply wp_mono; [by apply IH|].
    intros l st2 (Hec2 & t2 & es2 & Ht & Hes & Hh). apply wp_ret. split; [done|].
    exists (t1 ++ t2), (es1 ++ es2). split_and!.
    + by rewrite Ht, (gr_trace _ _ _ _ _ Hg), app_assoc.
    + rewrite Hes, (gr_diag _ _ _ _ _ Hg). simpl. by rewrite app_assoc.
    + intros h. rewrite after_app. by eapply effects_cons.
Qed.


(** What [careful] ends with, next to a straight run. *)
Definition agrees (l : log) st1 (lb : log * bool) st2 : Prop :=
  lb.1 `prefix_of` l ∧ errors st2.1 `prefix_of` errors st1.1 ∧
  if lb.2 then lb.1 = l ∧ st2 = st1 ∧ errors st1.1 = [] else errors st2.1 ≠ [].

Lemma careful_agrees c st :
  echoes st → errors st.1 = [] → session_ok c →
  wp (straight c) (λ l st1, wp (careful c) (agrees l st1) st) st.
Proof.
  revert st. induction c as [|r k IH]; intros st Hec Hno Hok; simpl in *.
  { apply wp_ret, wp_ret. by split_and!. }
  destruct Hok as [Hr Hk]. pose proof (wp_serve r st Hec Hr) as Hs.
  apply wp_exec in Hs as (a & st1 & Hrun & Hec1 & _).
  apply wp_bind. unfold wp at 1. rewrite Hrun. apply wp_bind.
  destruct (decide (errors st1.1 = [])) as [Hno1|Hyes].
  - eapply wp_mono; [by apply IH|]. intros l st2 Hcare. apply wp_ret.
    apply wp_bind. unfold wp at 1. rewrite Hrun. apply wp_bind, wp_hasError.
    rewrite bool_decide_eq_true_2 by done. simpl. wp_step. eapply wp_mono; [exact Hcare|].
    intros [l2 b] st3 (Hl & He & Hb). apply wp_ret. split; [by apply prefix_cons|]. split; [done|].
    simpl in *. destruct b; [|done]. by destruct Hb as (-> & -> & ?).
  - eapply wp_mono; [by apply straight_done|]. intros l st2 (_ & t & es & _ & Hes & _). apply wp_ret.
    apply wp_bind. unfold wp at 1. rewrite Hrun. apply wp_bind, wp_hasError.
    rewrite bool_decide_eq_false_2 by done. simpl. apply wp_ret. split_and!; simpl; [|by exists es|done].
    by exists l.
Qed.

(** C12: testing [hasError()] once at the end is as good as testing it after every
    call.  From diagnostics without errors the two ways to run a session end;
    there is an error at the end of the one exactly if the other had to leave
    early; if there is none, both made the same calls with the same replies and
    end in the same state; if there is one, they agree up to the call that failed
    and the errors reported there are the first of those found at the end. *)
Theorem check_once c st :
  echoes st → errors st.1 = [] → session_ok c →
  ∃ l st1 l2 through st2, straight c st = Done l st1 ∧ careful c st = Done (l2, through) st2 ∧
    (through = true ↔ errors st1.1 = []) ∧
    (through = true → l2 = l ∧ st2 = st1) ∧
    l2 `prefix_of` l ∧ errors st2.1 `prefix_of` errors st1.1 ∧ (through = false → errors st2.1 ≠ []).
Proof.
  intros Hec Hno Hok.
  destruct (proj1 (wp_exec _ _ _) (careful_agrees c st Hec Hno Hok)) as (l & st1 & Hs & Hw).
  destruct (proj1 (wp_exec _ _ _) Hw) as ([l2 b] & st2 & Hc & Hl & He & Hb). simpl in *.
  exists l, st1, l2, b, st2. split_and!; try done.
  - destruct b; [naive_solver|]. split; [done|]. intros Hnil. rewrite Hnil in He.
    destruct Hb. by apply prefix_nil_inv.
  - destruct b; [naive_solver|done].
  - by intros ->.
Qed.
End session.

(** ** The session of [README.md], and one that maps the file as well *)

Arguments Finish {K}.
Arguments Ask {K} r k.
Arguments Open {K}.
Arguments Close {K}.
Arguments Ftruncate {K}.
Arguments MmapReadOnly {K}.
Arguments Munmap {K}.

Definition fd_of (a : reply) : Z := if a is Int z then z else -1.

Definition readme_session : session (K := phase) :=
  Ask (Open "/tmp/file" O_RDWR 0) (λ a,
  Ask (Ftruncate (fd_of a) 0) (λ _,
  Ask (Close (fd_of a)) (λ _, Finish))).

Definition mapping_session : session (K := phase) :=
  Ask (Open "/tmp/file" O_RDWR 0) (λ _,
  Ask (MmapReadOnly "/tmp/file" None None) (λ a,
  Ask (Munmap (fd_of a) 100) (λ _, Finish))).

Example mapping_session_holds :
  match straight busy_strerror 3 mapping_session (busy_state []) with
  | Done _ st => after (Holding [] []) (trace st.2)
  | Stop _ _ => Holding [] []
  end = Holding [3] [].
Proof. vm_compute. reflexivity. Qed.


Lemma check_once_witness :
  ∃ l st1 l2 through st2, straight busy_strerror 3 readme_session (busy_state []) = Done l st1 ∧
    careful busy_strerror 3 readme_session (busy_state []) = Done (l2, through) st2 ∧
    (through = true ↔ errors st1.1 = []) ∧ (through = true → l2 = l ∧ st2 = st1) ∧
    l2 `prefix_of` l ∧ errors st2.1 `prefix_of` errors st1.1 ∧ (through = false → errors st2.1 ≠ []).
Proof.
  exact (check_once busy_strerror 3 busy_responsive busy_short readme_session (busy_state [])
    (busy_echoes []) eq_refl ltac:(repeat constructor)).
Defined.
End SysSession.
