(* ===== verification/SysFiles.v ===== *)
(** * SysFiles: what the mappings of [sys.h] show and change

    The kernel of [Sys.v] answers calls; here it also keeps files.  A view of it
    tells what the files hold, what the descriptors refer to and what is mapped,
    and [allowed] is what POSIX says a call does to these.  The theorem follows
    the bytes: through a shared mapping into the file, and out of it again through
    a private one. *)

From stdpp Require Import pretty.
From S2P Require Import Prelude Diagnostics.
Import Diagnostics.
From S2P Require Import Sys.

Module SysFiles.
Import Sys.

(** ** Files *)

(** A regular file with its bytes, or something else a path may name. *)
Inductive file := Regular (bytes : list Z) | Special.

(** Mapped pages: those of a file, as many bytes of it and whether they may be
    written, or a copy of its bytes.  (What a private mapping shows of later
    changes of the file is unspecified; the client here makes none.) *)
Inductive mapping := Shared (path : string) (len : nat) (writable : bool) | Private (bytes : list Z).

Record fsview := View {
  content : gmap string file;
  descriptors : gmap Z string;
  mappings : gmap Z mapping;
}.

(** Bits of the flags of [open] and of the protections of [mmap]. *)
Definition creates (flag : Z) : bool := Z.testbit flag 9.
Definition truncates (flag : Z) : bool := Z.testbit flag 10.
Definition may_write (prot : Z) : bool := Z.testbit prot 1.

(** A file made longer with zeros, or cut off. *)
Definition resized (n : nat) (bytes : list Z) : list Z := take n bytes ++ replicate (n - length bytes) 0.

(** What a call may do: nothing if it fails, except that [close] may give up the
    descriptor all the same. *)
Definition allowed (c : call) (a : answer) (v v' : fsview) : Prop :=
  match c with
  | CClose fd =>
      content v' = content v ∧ mappings v' = mappings v ∧
      ∀ fd', fd' ≠ fd → descriptors v' !! fd' = descriptors v !! fd'
  | _ =>
    if ret a <? 0 then v' = v else
    match c with
    | COpen path flag _ =>
        descriptors v' = <[ret a := path]> (descriptors v) ∧ mappings v' = mappings v ∧
        (truncates flag = false → content v' =
          match content v !! path with
          | None => if creates flag then <[path := Regular []]> (content v) else content v
          | Some _ => content v
          end)
    | CStat path =>
        v' = v ∧ st_size (out_stat a) ≤ INT64_MAX ∧
        ∀ bytes, content v !! path = Some (Regular bytes) → st_size (out_stat a) = Z.of_nat (length bytes)
    | CFtruncate fd size =>
        descriptors v' = descriptors v ∧
        ∀ path bytes, descriptors v !! fd = Some path → content v !! path = Some (Regular bytes) → 0 ≤ size →
          content v' = <[path := Regular (resized (Z.to_nat size) bytes)]> (content v)
    | CMmap len prot flags fd =>
        content v' = content v ∧ descriptors v' = descriptors v ∧
        ∀ path bytes, descriptors v !! fd = Some path → content v !! path = Some (Regular bytes) →
          0 < len ≤ Z.of_nat (length bytes) →
          mappings v' = <[ret a := if flags =? MAP_SHARED then Shared path (Z.to_nat len) (may_write prot)
                                   else Private (take (Z.to_nat len) bytes)]> (mappings v)
    | CMunmap _ _ => content v' = content v ∧ descriptors v' = descriptors v
    | CTruncate path size =>
        descriptors v' = descriptors v ∧
        ∀ bytes, content v !! path = Some (Regular bytes) → 0 ≤ size →
          content v' = <[path := Regular (resized (Z.to_nat size) bytes)]> (content v)
    | CFstatat _ _ _ | CGetPath _ | CClose _ => v' = v
    end
  end.

(** The bytes the process finds at a mapping. *)
Definition peek (v : fsview) (p : Z) : option (list Z) :=
  m ← mappings v !! p;
  match m with
  | Private bytes => Some bytes
  | Shared path len _ => match content v !! path with Some (Regular bytes) => Some (take len bytes) | _ => None end
  end.

(** A kernel that keeps files, and a process's stores to what is mapped. *)
Class FileKernel (K : Type) `{Kernel K} := {
  view : K → fsview;
  poke : Z → list Z → K → K;
  view_call c k : allowed c (fst (syscall c k)) (view k) (view (snd (syscall c k)));
  view_poke p data k path len bytes :
    mappings (view k) !! p = Some (Shared path len true) → content (view k) !! path = Some (Regular bytes) →
    (length data ≤ len)%nat → (len ≤ length bytes)%nat →
    content (view (poke p data k)) = <[path := Regular (data ++ drop (length data) bytes)]> (content (view k));
}.

(** ** Two clients *)

Section files.
Context {K : Type} `{FileKernel K} (strerror : Z → string) (fuel : nat).
Implicit Types (st : Diagnostics * sys K) (v : fsview) (σ : gmap positive Z).

Definition size_at (p : positive) : diagprog (K := K) Z :=
  in_sys (ss ← gets sizes; of_option FUndefined (ss !! p)).

(** Puts [data] at the start of the file, through a mapping of it. *)
Definition write_file (path : string) (data : list Z) (size : positive) (realerPath : option positive) :
    diagprog (K := K) bool :=
  p ← mmapReadWrite strerror fuel path (Some size) realerPath;
  if p =? 0 then mret false
  else
    n ← size_at size;
    if n <? Z.of_nat (length data) then munmap strerror p n;; mret false
    else
      in_sys (modify (λ s, mkSys (poke p data (kern s)) (errno s) (files s) (trace s) (sizes s) (paths s)));;
      munmap strerror p n;;
      mret true.

(** The bytes of the file, through a mapping of it. *)
Definition read_file (path : string) (size : positive) (realerPath : option positive) :
    diagprog (K := K) (option (list Z)) :=
  p ← mmapReadOnly strerror fuel path (Some size) realerPath;
  if p =? 0 then mret None
  else
    n ← size_at size;
    bytes ← in_sys (k ← gets kern; of_option FUndefined (peek (view k) p));
    munmap strerror p n;;
    mret (Some bytes).

(** What a mapping for writing shows at first: the file, or a page of zeros for a
    file that is empty or was not there. *)
Definition first_page (o : option file) : list Z :=
  match o with Some (Regular (b :: bytes)) => b :: bytes | _ => replicate (Z.to_nat 4096) 0 end.

(** ** Following the view

    [ensures P m Q]: if [m] finishes from a state with [P], it leaves one with [Q];
    that it finishes is shown in Sys.v. *)

Definition ensures {A} (P : fsview → gmap positive Z → Prop) (m : diagprog (K := K) A)
    (Q : A → fsview → gmap positive Z → Prop) : Prop :=
  ∀ st a st', P (view (kern st.2)) (sizes st.2) → m st = Done a st' → Q a (view (kern st'.2)) (sizes st'.2).

Lemma ensures_bind {A B} P (m : diagprog A) (k : A → diagprog B) R Q :
  ensures P m R → (∀ a, ensures (R a) (k a) Q) → ensures P (m ≫= k) Q.
Proof.
  intros Hm Hk st b st' HP. unfold mbind, prog_bind. destruct (m st) as [a s|] eqn:Hrun; [|done].
  intros Hb. by eapply Hk; [eapply Hm|].
Qed.

Lemma ensures_then {A B} P R (m : diagprog A) (k : A → diagprog B) Q :
  ensures P m (λ _, R) → (∀ a, ensures R (k a) Q) → ensures P (m ≫= k) Q.
Proof. apply ensures_bind. Qed.

Lemma ensures_mono {A} (P P' : fsview → gmap positive Z → Prop) (m : diagprog A) (Q Q' : A → fsview → gmap positive Z → Prop) :
  ensures P m Q → (∀ v σ, P' v σ → P v σ) → (∀ a v σ, Q a v σ → Q' a v σ) → ensures P' m Q'.
Proof. intros Hm HP HQ st a st' H1 H2. eapply HQ, Hm; [by apply HP|done]. Qed.

Lemma ensures_ret {A} (P : fsview → gmap positive Z → Prop) (a : A) Q :
  (∀ v σ, P v σ → Q a v σ) → ensures P (mret a) Q.
Proof. intros HQ st b st' HP [= <- <-]. by apply HQ. Qed.

(** Code that neither calls nor stores. *)
Lemma ensures_quiet {A} (P : fsview → gmap positive Z → Prop) (m : diagprog A) :
  (∀ st a st', m st = Done a st' → kern st'.2 = kern st.2 ∧ sizes st'.2 = sizes st.2) → ensures P m (λ _, P).
Proof. intros Hm st a st' HP Hrun. by destruct (Hm _ _ _ Hrun) as [-> ->]. Qed.

Lemma ensures_diag {A} P (m : dprog A) : ensures P (in_diag m) (λ _, P).
Proof.
  apply ensures_quiet. intros st a st'. unfold in_diag, zoom.
  destruct (m _) as [x df|]; [|done]. by intros [= <- <-].
Qed.

Lemma ensures_errno P : ensures P get_errno (λ _, P).
Proof. apply ensures_quiet. by intros st a st' [= <- <-]. Qed.

Lemma ensures_set_path P p s : ensures P (set_path p s) (λ _, P).
Proof. apply ensures_quiet. by intros st a st' [= <- <-]. Qed.

Lemma ensures_when P (b : bool) (m : diagprog unit) Q :
  ensures P m Q → (∀ v σ, P v σ → Q tt v σ) → ensures P (when b m) Q.
Proof. intros Hm HQ. destruct b; [done|]. by apply ensures_ret. Qed.

(** The report of a failure. *)
Lemma ensures_report P (b : bool) (f : Z → dprog unit) :
  ensures P (when b (e ← get_errno; in_diag (f e))) (λ _, P).
Proof. apply ensures_when; [|done]. eapply ensures_bind; [apply ensures_errno|]. intros e. apply ensures_diag. Qed.

Lemma ensures_of_option {A} P f (o : option A) (Q : A → fsview → gmap positive Z → Prop) :
  (∀ a v σ, o = Some a → P v σ → Q a v σ) → ensures P (of_option f o) Q.
Proof.
  intros HQ st a st' HP. destruct o as [x|]; [|done]. intros [= <- <-]. by apply HQ.
Qed.

Definition after_call (P : fsview → gmap positive Z → Prop) (c : call) (a : answer) (v' : fsview) σ : Prop :=
  ∃ v, P v σ ∧ allowed c a v v' ∧ ∃ k, a = fst (syscall c k).

Lemma ensures_call P c : ensures P (in_sys (do_call c)) (after_call P c).
Proof.
  intros st a st' HP. pose proof (view_call c (kern st.2)) as Hc. unfold in_sys, zoom, do_call.
  destruct (syscall c (kern st.2)) as [b k] eqn:Hk. intros [= <- <-].
  exists (view (kern st.2)). split_and!; [done..|]. exists (kern st.2). by rewrite Hk.
Qed.

Lemma allowed_failed c a v v' : match c with CClose _ => False | _ => True end →
  allowed c a v v' → ret a < 0 → v' = v.
Proof. intros Hc Ha Hneg%Z.ltb_lt. destruct c; try done; simpl in Ha; by rewrite Hneg in Ha. Qed.

Lemma ensures_retry P bad c : match c with CClose _ => False | _ => True end →
  (∀ r, bad r = true → r < 0) → ensures P (retry fuel bad c) (after_call P c).
Proof.
  intros Hc Hbad. unfold retry. generalize fuel as n. intros n. induction n as [|n IH]; [by intros st a st' _|].
  simpl. apply ensures_bind with (R := λ r, match r with inl _ => P | inr a => after_call P c a end).
  - unfold retry_body. eapply ensures_bind; [apply ensures_call|]. intros a.
    eapply ensures_bind; [apply ensures_errno|]. intros e. apply ensures_ret. intros v' σ Ha.
    destruct (bad (ret a)) eqn:Hb; simpl; [|done]. destruct ((e =? EAGAIN) || (e =? EINTR)); [|done].
    destruct Ha as (v & HP & Ha & _). by rewrite (allowed_failed c a v v' Hc Ha (Hbad _ Hb)).
  - intros [[]|a]; [apply IH|]. by apply ensures_ret.
Qed.

(** ** The calls of [sys.h] *)

(** The caller's files and mappings do not change. *)
Definition same_files v v' : Prop := content v' = content v ∧ mappings v' = mappings v.

Lemma same_files_trans v1 v2 v3 : same_files v1 v2 → same_files v2 v3 → same_files v1 v3.
Proof. intros [H1 H2] [H3 H4]. split; congruence. Qed.

(** From a view, to one that has the same files. *)
Definition from v0 σ0 v σ : Prop := same_files v0 v ∧ σ = σ0.

Lemma from_call v0 σ0 c a v σ :
  match c with
  | COpen _ flag _ => creates flag = false ∧ truncates flag = false
  | CClose _ | CGetPath _ | CStat _ => True
  | _ => False
  end → after_call (from v0 σ0) c a v σ → from v0 σ0 v σ.
Proof.
  intros Hc (v1 & [Hsame ->] & Ha & _). split; [|done]. eapply same_files_trans; [done|].
  destruct c as [path flag mode|fd|path| | | |fd| |]; try done; unfold allowed in Ha.
  - destruct (ret a <? 0); [by subst|]. destruct Hc as [Hcr Htr], Ha as (_ & Hm & Hcon).
    specialize (Hcon Htr). rewrite Hcr in Hcon. split; [|done]. by destruct (content v1 !! path).
  - by destruct Ha as (? & ? & _).
  - destruct (ret a <? 0); [by subst|]. by destruct Ha as [-> _].
  - destruct (ret a <? 0); by subst.
Qed.

(** [open], with what the call answered. *)
Lemma ensures_open P path flag other :
  ensures P (open strerror fuel path flag other)
    (λ fd v σ, ∃ a, fd = ret a ∧ after_call P (COpen path flag other) a v σ).
Proof.
  unfold open. eapply ensures_bind; [apply ensures_retry; [exact I|exact bad_negative]|]. intros a.
  eapply ensures_bind; [apply ensures_report|]. intros []. cbv beta. apply ensures_ret. intros v σ HP. by exists a.
Qed.

Lemma ensures_stat P path :
  ensures P (stat strerror fuel path)
    (λ b v σ, ∃ a, b = (if ret a =? 0 then Some (out_stat a) else None) ∧ after_call P (CStat path) a v σ).
Proof.
  unfold stat. eapply ensures_bind; [apply ensures_retry; [exact I|exact bad_minus_one]|]. intros a.
  eapply ensures_bind; [apply ensures_report|]. intros []. cbv beta. apply ensures_ret. intros v σ HP. by exists a.
Qed.

Lemma ensures_ftruncate P fd size :
  ensures P (ftruncate strerror fuel fd size) (λ _ v σ, ∃ a, after_call P (CFtruncate fd (to_i64 size)) a v σ).
Proof.
  unfold ftruncate. eapply ensures_bind; [apply ensures_retry; [exact I|exact bad_minus_one]|]. intros a.
  eapply ensures_mono; [apply ensures_report|done|]. intros [] v σ HP. by exists a.
Qed.

Lemma ensures_close v0 σ0 fd : ensures (from v0 σ0) (close strerror fd) (λ _, from v0 σ0).
Proof.
  unfold close. eapply ensures_bind; [apply ensures_call|]. intros a. cbv beta.
  eapply ensures_bind; [apply ensures_errno|]. intros e. cbv beta.
  apply ensures_mono with (P := from v0 σ0) (Q := λ _, from v0 σ0); [|by intros v σ; apply from_call|done].
  apply ensures_when; [apply ensures_diag|done].
Qed.

Lemma ensures_munmap P buf size :
  ensures P (munmap strerror buf size) (λ _ v σ, ∃ v1, P v1 σ ∧ content v = content v1).
Proof.
  unfold munmap. eapply ensures_bind; [apply ensures_call|]. intros a.
  eapply ensures_mono; [apply ensures_report|done|]. intros [] v σ (v1 & HP & Ha & _). exists v1. split; [done|].
  simpl in Ha. destruct (ret a <? 0); [by subst|]. by destruct Ha.
Qed.

Lemma ensures_resolve v0 σ0 path output :
  ensures (from v0 σ0) (resolveRealerPath strerror fuel path output) (λ _, from v0 σ0).
Proof.
  unfold resolveRealerPath. destruct output as [p|]; [|by apply ensures_ret].
  eapply ensures_bind; [apply ensures_set_path|]. intros []. cbv beta.
  assert (ensures (from v0 σ0) (realpath strerror fuel path p) (λ _, from v0 σ0)) as Hr.
  { unfold realpath. eapply ensures_bind; [apply ensures_open|]. intros fd.
    apply ensures_mono with (P := from v0 σ0) (Q := λ _, from v0 σ0); [|intros v σ (a & _ & Ha); by eapply from_call; [|exact Ha]|done].
    destruct (fd <? 0); [by apply ensures_ret|].
    eapply ensures_then; [|intros []; apply ensures_close]. unfold getpath.
    eapply ensures_bind; [apply ensures_call|]. intros a.
    apply ensures_mono with (P := from v0 σ0) (Q := λ _, from v0 σ0); [|by intros v σ; apply from_call|done].
    eapply ensures_bind; [apply ensures_when; [apply ensures_set_path|done]|]. intros []. apply ensures_report. }
  intros st a st' HP. unfold in_sys, with_diag, zoom.
  destruct (realpath strerror fuel path p _) as [[] ds|] eqn:Hrun; [|done]. intros [= <- <-].
  exact (Hr (diagnostics None, st.2) tt ds HP Hrun).
Qed.

(** Code that keeps the files keeps what depends on nothing else. *)
Definition stable (P : fsview → gmap positive Z → Prop) : Prop :=
  ∀ v v' σ, same_files v v' → P v σ → P v' σ.

Lemma ensures_stable {A} P (m : diagprog A) :
  (∀ v0 σ0, ensures (from v0 σ0) m (λ _, from v0 σ0)) → stable P → ensures P m (λ _, P).
Proof.
  intros Hm HP st a st' H1 H2.
  destruct (Hm (view (kern st.2)) (sizes st.2) st a st') as [Hsame ->]; [by repeat split|done|].
  by eapply HP.
Qed.

Lemma ensures_store_size P size len :
  ensures (λ v σ, P v (sized size len σ)) (store_size size len) (λ _, P).
Proof. intros st a st' HP. destruct size as [p|]; by intros [= <- <-]. Qed.

Lemma ensures_pure {A} (P : fsview → gmap positive Z → Prop) (φ : Prop) (m : diagprog A) Q :
  (∀ v σ, P v σ → φ) → (φ → ensures P m Q) → ensures P m Q.
Proof. intros Hφ Hm st a st' HP. by apply Hm; [eapply Hφ|]. Qed.

Lemma ensures_any {A} P (m : diagprog A) : ensures P m (λ _ _ _, True).
Proof. done. Qed.

(** ** With the laws of the kernel *)

Context `{KL : !KernelLaws} (Hresp : responsive fuel) (Hshort : strerror_short strerror).

(** What an answer means when the call is to have succeeded. *)
Lemma after_call_ok P c a v' σ : after_call P c a v' σ → ret a ≠ -1 →
  0 ≤ ret a ∧ ∃ v, P v σ ∧ allowed c a v v'.
Proof.
  intros (v & HP & Ha & k & Hk) Hne. destruct (answer_range c a) as [Hr _]; [by exists k|].
  split; [lia|]. by exists v.
Qed.

(** The pages of a regular file, shared or copied. *)
Definition pages (path : string) (bytes : list Z) (len prot flags : Z) : mapping :=
  if flags =? MAP_SHARED then Shared path (Z.to_nat len) (may_write prot) else Private (take (Z.to_nat len) bytes).

Lemma ensures_map_file C path bytes σ0 len prot flags fd size realerPath :
  C !! path = Some (Regular bytes) → 0 < len ≤ Z.of_nat (length bytes) →
  ensures (λ v σ, content v = C ∧ descriptors v !! fd = Some path ∧ σ = σ0)
    (map_file strerror fuel len prot flags fd size path realerPath)
    (λ p v σ, content v = C ∧
      if p =? 0 then σ = σ0
      else mappings v !! p = Some (pages path bytes len prot flags) ∧ σ = sized size len σ0).
Proof.
  intros HC Hlen. unfold map_file. eapply ensures_bind; [apply ensures_call|]. intros a. cbv beta.
  unfold MAP_FAILED. destruct (Z.eqb_spec (ret a) (-1)) as [Hf|Hok].
  { apply ensures_mono with (P := λ v σ, content v = C ∧ σ = σ0) (Q := λ p v σ, p = 0 ∧ content v = C ∧ σ = σ0).
    - eapply ensures_then; [apply ensures_errno|]. intros e.
      eapply ensures_then; [apply ensures_diag|]. intros _.
      eapply ensures_then; [apply ensures_stable; [intros v0 σ1; apply ensures_close|]|]; [|by intros _; apply ensures_ret].
      intros v v' σ [Hc _]. by rewrite Hc.
    - intros v' σ (v & (HCv & _ & ->) & Ha & _). by rewrite (allowed_failed (CMmap len prot flags fd) a v v' I Ha) by lia.
    - by intros p v σ (-> & ? & ?). }
  apply ensures_pure with (φ := ret a ≠ 0); [by intros v' σ (v & _ & _ & k & ->); apply ret_mmap|]. intros Hnz.
  set (R := λ v σ, content v = C ∧ mappings v !! ret a = Some (pages path bytes len prot flags) ∧
    σ = sized size len σ0).
  assert (stable R) as HR by (intros v v' σ [Hc Hm]; unfold R; by rewrite Hc, Hm).
  apply ensures_mono with (P := λ v σ, R v (sized size len σ)) (Q := λ p v σ, p = ret a ∧ R v σ).
  - eapply ensures_then; [apply ensures_store_size|]. intros _.
    eapply ensures_then; [apply ensures_stable; [intros v0 σ1; apply ensures_resolve|exact HR]|]. intros _.
    eapply ensures_then; [apply ensures_stable; [intros v0 σ1; apply ensures_close|exact HR]|]. intros _.
    by apply ensures_ret.
  - intros v' σ Ha. apply after_call_ok in Ha as (Hpos & v & (HCv & Hfd & ->) & Ha); [|done].
    simpl in Ha. rewrite (proj2 (Z.ltb_ge _ _) Hpos) in Ha. destruct Ha as (Hcon & _ & Hmap).
    split_and!; [congruence| |done].
    rewrite (Hmap path bytes) by first [done|congruence]. apply lookup_insert_eq.
  - intros p v σ [-> (H1 & H2 & H3)]. split; [done|]. by rewrite (proj2 (Z.eqb_neq _ _) Hnz).
Qed.

(** [ftruncate] and the test after it: no error means that the file has its size. *)
Lemma append_format_run b f args t s :
  format_text f args = Some t → t ≠ ""%string → Z.of_nat (String.length t) < INT_MAX →
  append_format b f args s = append_message (mkMessage b t) s.
Proof.
  intros Hf Hne Hlen.
  assert (0 < Z.of_nat (String.length t)) by (destruct t; [done|simpl; lia]).
  unfold append_format, vsnprintf_length, vsnprintf, mbind, prog_bind. rewrite Hf. simpl.
  rewrite (proj2 (Z.leb_le (Z.of_nat (String.length t)) INT_MAX)) by lia.
  rewrite (proj2 (Z.leb_gt (Z.of_nat (String.length t)) 0)) by lia.
  rewrite (proj2 (Z.leb_le (Z.of_nat (String.length t) + 1) INT_MAX)) by lia.
  simpl. by rewrite substring_all by lia.
Qed.

Lemma done_bind {S A B} (m : prog S A) (k : A → prog S B) s b s' :
  (m ≫= k) s = Done b s' → ∃ a s1, m s = Done a s1 ∧ k a s1 = Done b s'.
Proof. unfold mbind, prog_bind. destruct (m s) as [a s1|]; [|done]. by exists a, s1. Qed.

Lemma error_done f args t st st' :
  format_text f args = Some t → t ≠ ""%string → Z.of_nat (String.length t) < INT_MAX →
  in_diag (error f args) st = Done tt st' → errors st'.1 ≠ [].
Proof.
  intros Hf Hne Hlen. unfold in_diag, zoom, error. rewrite (append_format_run _ _ _ t) by done.
  destruct (append_message _ _) as [[] [d fs]|] eqn:Hrun; [|done]. intros [= <-]. simpl.
  unfold append_message in Hrun. apply done_bind in Hrun as (d0 & s0 & _ & Hrun).
  apply done_bind in Hrun as ([] & s1 & _ & Hrun). injection Hrun as <- _. by destruct (errors d0).
Qed.

Lemma hasError_run st : in_diag hasError st = Done (negb (bool_decide (errors st.1 = []))) st.
Proof. by destruct st as [d []]. Qed.

Lemma ensures_assoc {A B C} P (m : diagprog A) (h : A → diagprog B) (k : B → diagprog C) Q :
  ensures P ((m ≫= h) ≫= k) Q → ensures P (m ≫= λ a, h a ≫= k) Q.
Proof.
  intros Hm st c st' HP Hrun. apply (Hm st c st' HP). unfold mbind, prog_bind in *. by destruct (m st).
Qed.

Lemma ensures_resized P fd size :
  ensures P (ftruncate strerror fuel fd size;; in_diag hasError)
    (λ e v σ, ∃ a, after_call P (CFtruncate fd (to_i64 size)) a v σ ∧ (e = false → ret a ≠ -1)).
Proof.
  intros st e st' HP Hrun. apply done_bind in Hrun as ([] & st2 & Hrun & He).
  unfold ftruncate in Hrun. apply done_bind in Hrun as (a & st1 & Hretry & Hrep). exists a.
  pose proof (ensures_retry P minus_one (CFtruncate fd (to_i64 size)) I bad_minus_one st a st1 HP Hretry) as Ha.
  pose proof (ensures_report _ _ _ st1 tt st2 Ha Hrep) as Ha2.
  rewrite hasError_run in He. injection He as <- <-. split; [done|]. intros He Hm.
  assert (∃ l, answered (CFtruncate fd (to_i64 size)) minus_one st st1 l a) as [l Hl].
  { eapply wp_done with (Q := λ a st', ∃ l, answered _ minus_one st st' l a); [|exact Hretry].
    apply (wp_retry fuel Hresp); [exact bad_minus_one|]. intros l b st' Hb. by exists l. }
  destruct Hl as [_ Hlast Herr _ _]. specialize (Herr Hm).
  rewrite Hm in Hrep. apply done_bind in Hrep as (e & st3 & Hget & Hrep).
  injection Hget as <- <-. rewrite Herr in Hrep.
  apply error_done with (t := fail_text strerror "ftruncate()" (err a)) in Hrep.
  - by apply negb_false_iff, bool_decide_eq_true_1 in He.
  - cbn -[pretty c_str]. by rewrite app_nil_s.
  - apply fail_text_nonempty.
  - apply fail_text_short; [done|simpl; lia|apply (answer_range _ _ Hlast)].
Qed.

(** ** The two functions that map *)

Lemma ensures_fail {A} P (m : diagprog A) (Q : Z → fsview → gmap positive Z → Prop) :
  (∀ v σ, Q 0 v σ) → ensures P (m;; mret 0) Q.
Proof. intros HQ. eapply ensures_bind; [apply ensures_any|]. intros a. by apply ensures_ret. Qed.

(** [stat], the test after it and the attributes: the size of the file. *)
Lemma ensures_attributes {A} P path bytes (failed : diagprog A) (k : statbuf → diagprog A) Q :
  (∀ v σ, P v σ → content v !! path = Some (Regular bytes)) →
  ensures P failed Q →
  (∀ s, st_size s = Z.of_nat (length bytes) → st_size s ≤ INT64_MAX → ensures P (k s) Q) →
  ensures P
    (buf ← stat strerror fuel path;
     e ← in_diag hasError;
     if e : bool then failed else st ← of_option FUndefined buf; k st) Q.
Proof.
  intros HC Hfail Hk.
  eapply ensures_bind with (R := λ buf v σ, P v σ ∧ ∀ s, buf = Some s →
    st_size s = Z.of_nat (length bytes) ∧ st_size s ≤ INT64_MAX).
  { eapply ensures_mono; [apply ensures_stat|done|]. intros buf v' σ (a & -> & v & HP & Ha & _). simpl in Ha.
    destruct (Z.ltb_spec (ret a) 0) as [Hneg|Hpos]; [subst v'|destruct Ha as (-> & Hmax & Hsize)]; split; try done.
    - intros s. by rewrite (proj2 (Z.eqb_neq _ _)) by lia.
    - intros s. destruct (ret a =? 0); [|done]. intros [= <-]. eauto. }
  intros buf. eapply ensures_bind; [apply ensures_diag|]. intros []; cbv beta.
  { by eapply ensures_mono; [exact Hfail|naive_solver|done]. }
  eapply ensures_bind with (R := λ s v σ, P v σ ∧ st_size s = Z.of_nat (length bytes) ∧ st_size s ≤ INT64_MAX).
  - apply ensures_of_option. intros s v σ -> [HP Hs]. by destruct (Hs s eq_refl).
  - intros s. apply ensures_pure with (φ := st_size s = Z.of_nat (length bytes) ∧ st_size s ≤ INT64_MAX); [tauto|].
    intros [H1 H2]. eapply ensures_mono; [by apply Hk|tauto|done].
Qed.

(** The bytes of a file that can be mapped; none if it is not there. *)
Definition old_bytes (o : option file) : list Z := match o with Some (Regular bytes) => bytes | _ => [] end.

Lemma first_page_old o : first_page o = (if decide (old_bytes o = []) then replicate (Z.to_nat 4096) 0 else old_bytes o).
Proof. by destruct o as [[[]|]|]. Qed.

Lemma to_size_small n : 0 ≤ n ≤ INT64_MAX → to_size n = n.
Proof. unfold to_size, INT64_MAX. intros Hn. apply Z.mod_small. lia. Qed.

Lemma ensures_mmapReadWrite v0 σ0 path size realerPath :
  content v0 !! path ≠ Some Special →
  let bytes := first_page (content v0 !! path) in
  ensures (λ v σ, v = v0 ∧ σ = σ0) (mmapReadWrite strerror fuel path size realerPath)
    (λ p v σ, p ≠ 0 → content v = <[path := Regular bytes]> (content v0) ∧
      mappings v !! p = Some (Shared path (length bytes) true) ∧
      σ = sized size (Z.of_nat (length bytes)) σ0).
Proof.
  intros Hreg bytes. unfold mmapReadWrite. eapply ensures_bind; [apply ensures_open|]. intros fd. cbv beta.
  destruct (Z.ltb_spec fd 0) as [|Hfd]; [by apply ensures_ret|].
  set (old := old_bytes (content v0 !! path)). set (C := <[path := Regular old]> (content v0)).
  apply ensures_mono with (P := λ v σ, content v = C ∧ descriptors v !! fd = Some path ∧ σ = σ0)
    (Q := λ p v σ, p ≠ 0 → content v = <[path := Regular bytes]> (content v0) ∧
      mappings v !! p = Some (Shared path (length bytes) true) ∧
      σ = sized size (Z.of_nat (length bytes)) σ0); [| |done].
  2: { intros v σ (a & -> & v1 & [-> ->] & Ha & _). simpl in Ha. rewrite (proj2 (Z.ltb_ge _ _) Hfd) in Ha.
    destruct Ha as (Hd & _ & Hc). split_and!; [|by rewrite Hd; apply lookup_insert_eq|done].
    rewrite Hc by done. unfold C, old. destruct (content v0 !! path) as [[b|]|] eqn:Hp; [|done..].
    simpl. by rewrite insert_id. }
  assert (C !! path = Some (Regular old)) as HC by apply lookup_insert_eq.
  apply (ensures_attributes _ path old); [by intros v σ (-> & _)|by apply ensures_fail|]. intros s Hs Hmax.
  pose proof (first_page_old (content v0 !! path)) as Hfp. fold bytes old in Hfp.
  destruct (Z.leb_spec (st_size s) 0) as [Hle|Hgt].
  - rewrite decide_True in Hfp by (apply length_zero_iff_nil; lia).
    apply ensures_assoc. eapply ensures_bind; [apply ensures_resized|]. intros []; [by apply ensures_fail|]. cbv beta.
    eapply ensures_mono; [apply (ensures_map_file (<[path := Regular bytes]> (content v0)) path bytes σ0)| |].
    + apply lookup_insert_eq.
    + rewrite Hfp, length_replicate. lia.
    + intros v' σ (a & Ha & Hok). apply after_call_ok in Ha as (Hpos & v & (HCv & Hd & ->) & Ha); [|by apply Hok].
      simpl in Ha. rewrite (proj2 (Z.ltb_ge _ _) Hpos) in Ha. destruct Ha as (Hd' & Hc).
      split_and!; [|congruence|done].
      rewrite (Hc path old) by first [done|congruence]. rewrite HCv. unfold C. rewrite insert_insert_eq.
      assert (old = []) as -> by (apply length_zero_iff_nil; lia). by rewrite Hfp.
    + intros p v σ Hv Hp. destruct Hv as [H1 Hv]. rewrite (proj2 (Z.eqb_neq _ _) Hp) in Hv. destruct Hv as [H2 H3]. split_and!; [done| |].
      * rewrite H2, Hfp, length_replicate. done.
      * by rewrite H3, Hfp, length_replicate.
  - rewrite decide_False in Hfp by (intros Hnil; rewrite Hnil in Hs; simpl in Hs; lia).
    rewrite (to_size_small (st_size s)) by lia.
    eapply ensures_mono; [apply (ensures_map_file C path old σ0); [done|lia]|done|].
    intros p v σ Hv Hp. destruct Hv as [H1 Hv]. rewrite (proj2 (Z.eqb_neq _ _) Hp) in Hv. destruct Hv as [H2 H3]. rewrite Hfp, <- Hs. split_and!; [done| |done].
    rewrite H2. unfold pages. simpl. by rewrite Hs, Nat2Z.id.
Qed.

Lemma ensures_mmapReadOnly v0 σ0 path bytes size realerPath :
  content v0 !! path = Some (Regular bytes) →
  ensures (λ v σ, v = v0 ∧ σ = σ0) (mmapReadOnly strerror fuel path size realerPath)
    (λ p v σ, content v = content v0 ∧
      if p =? 0 then σ = σ0 ∨ bytes = [] ∧ σ = sized size 0 σ0
      else mappings v !! p = Some (Private bytes) ∧ σ = sized size (Z.of_nat (length bytes)) σ0).
Proof.
  intros HC. unfold mmapReadOnly.
  apply (ensures_attributes _ path bytes); [by intros v σ [-> _]| |].
  { apply ensures_ret. intros v σ [-> ->]. split; [done|by left]. }
  intros s Hs Hmax. destruct (Z.leb_spec (st_size s) 0) as [Hle|Hgt].
  { assert (bytes = []) as Hnil by (apply length_zero_iff_nil; lia).
    apply ensures_mono with (P := λ v σ, content v = content v0 ∧ sized size 0 σ = sized size 0 σ0)
      (Q := λ p v σ, p = 0 ∧ content v = content v0 ∧ σ = sized size 0 σ0).
    - eapply ensures_then with (R := λ v σ, content v = content v0 ∧ σ = sized size 0 σ0);
        [|by intros _; apply ensures_ret].
      apply (ensures_store_size (λ v σ, content v = content v0 ∧ σ = sized size 0 σ0)).
    - by intros v σ [-> ->].
    - intros p v σ (-> & H1 & H2). split; [done|by right]. }
  eapply ensures_bind; [apply ensures_open|]. intros fd. cbv beta.
  destruct (Z.ltb_spec fd 0) as [Hneg|Hpos].
  { apply ensures_ret. intros v σ (a & -> & v1 & [-> ->] & Ha & _). rewrite (allowed_failed (COpen path O_RDONLY 0) a v0 v I Ha Hneg).
    split; [done|by left]. }
  rewrite (to_size_small (st_size s)) by lia.
  eapply ensures_mono; [apply (ensures_map_file (content v0) path bytes σ0); [done|lia]| |].
  - intros v σ (a & -> & v1 & [-> ->] & Ha & _). simpl in Ha. rewrite (proj2 (Z.ltb_ge _ _) Hpos) in Ha.
    destruct Ha as (Hd & _ & Hc). split_and!; [|by rewrite Hd; apply lookup_insert_eq|done].
    rewrite Hc by done. by rewrite HC.
  - intros p v σ [H1 H2]. split; [done|]. destruct (p =? 0); [by left|]. destruct H2 as [H2 H3]. rewrite <- Hs.
    split; [|done]. rewrite H2. unfold pages. simpl. by rewrite take_ge by lia.
Qed.

(** ** Writing a file and reading it back *)

(** A run that is known to finish, with what it ensures. *)
Lemma wp_ensures {A} (m : diagprog A) v0 σ0 Q R st :
  ensures (λ v σ, v = v0 ∧ σ = σ0) m Q → view (kern st.2) = v0 → sizes st.2 = σ0 →
  wp m (λ a st', Q a (view (kern st'.2)) (sizes st'.2) → R a st') st → wp m R st.
Proof.
  intros Hm Hv Hσ Hw. apply wp_run. eapply wp_mono; [exact Hw|]. intros a st' HR Hrun. by eapply HR, Hm.
Qed.

(** The first bytes are replaced. *)
Definition overwrite (data bytes : list Z) : list Z := data ++ drop (length data) bytes.

(** The errors of [st] are still there. *)
Definition later st st' : Prop := echoes st' ∧ ∃ es, errors st'.1 = errors st.1 ++ es.

Lemma grows_later st st' t es σ : echoes st → grows st st' t es σ → later st st'.
Proof. intros He Hg. split; [by eapply grows_echoes|]. exists es. by rewrite (gr_diag _ _ _ _ _ Hg). Qed.

Lemma later_trans st1 st2 st3 : later st1 st2 → later st2 st3 → later st1 st3.
Proof. intros [_ [e1 H1]] [Hec [e2 H2]]. split; [done|]. exists (e1 ++ e2). by rewrite H2, H1, app_assoc. Qed.

Lemma later_errors st st' : later st st' → errors st.1 ≠ [] → errors st'.1 ≠ [].
Proof. intros [_ [es ->]] Hne Happ. by apply app_eq_nil in Happ as [? _]. Qed.

Lemma wp_later_munmap p n C (Q : unit → Diagnostics * sys K → Prop) st :
  echoes st → content (view (kern st.2)) = C →
  (∀ st', later st st' → content (view (kern st'.2)) = C → sizes st'.2 = sizes st.2 → Q tt st') →
  wp (munmap strerror p n) Q st.
Proof.
  intros Hec HC HQ. eapply (wp_ensures _ (view (kern st.2)) (sizes st.2)); [apply ensures_munmap|done|done|].
  apply (wp_munmap strerror Hshort); [done|]. intros a st' _ Hg _ (v1 & [-> _] & Hv). apply HQ.
  - by eapply grows_later.
  - by rewrite Hv.
  - apply Hg.
Qed.

Lemma wp_size_at p n (Q : Z → Diagnostics * sys K → Prop) st :
  sizes st.2 !! p = Some n → Q n st → wp (size_at p) Q st.
Proof.
  intros Hn HQ. unfold size_at. apply wp_in_sys, wp_bind, wp_gets. eapply wp_of_option; [done|]. by destruct st.
Qed.

(** Writing: the file has the data at its start, or there is an error, or the
    data does not fit into the pages that were mapped. *)
Lemma wp_write_file path data size realerPath st :
  echoes st → content (view (kern st.2)) !! path ≠ Some Special →
  let bytes := first_page (content (view (kern st.2)) !! path) in
  wp (write_file path data size realerPath) (λ ok st', later st st' ∧
    if ok : bool then
      (length data ≤ length bytes)%nat ∧
      content (view (kern st'.2)) = <[path := Regular (overwrite data bytes)]> (content (view (kern st.2))) ∧
      sizes st'.2 !! size = Some (Z.of_nat (length bytes))
    else errors st'.1 ≠ [] ∨ (length bytes < length data)%nat) st.
Proof.
  intros Hec Hreg bytes. unfold write_file. apply wp_bind.
  eapply (wp_ensures _ (view (kern st.2)) (sizes st.2)); [by apply ensures_mmapReadWrite|done|done|].
  apply (wp_mmapReadWrite strerror fuel Hresp Hshort); [done|]. intros p st1 (t & es & σ & Hg & _ & Hr) Hec1 Hfiles.
  fold bytes in Hfiles. pose proof (grows_later _ _ _ _ _ Hec Hg) as Hlater.
  destruct Hr as [(-> & _ & Herr)|(Hpos & _)].
  { apply wp_ret. split; [done|left]. rewrite (gr_diag _ _ _ _ _ Hg). simpl. intros Hnil.
    apply app_eq_nil in Hnil as [H1 H2]. destruct Herr as [?|[?|[(b & _ & Hb) _]]]; [done..|].
    unfold whole_or_page in Hb. by destruct (st_size b <=? 0). }
  destruct Hfiles as (HC & HM & Hσ); [lia|]. rewrite (proj2 (Z.eqb_neq p 0)) by lia.
  apply wp_bind, (wp_size_at size (Z.of_nat (length bytes))); [rewrite Hσ; apply lookup_insert_eq|].
  destruct (Z.ltb_spec (Z.of_nat (length bytes)) (Z.of_nat (length data))) as [Hlt|Hle].
  { apply wp_bind. eapply wp_later_munmap; [done|done|]. intros st2 Hl2 _ _. apply wp_ret.
    split; [by eapply later_trans|right; lia]. }
  apply wp_bind, wp_in_sys, wp_modify. apply wp_bind.
  eapply (wp_later_munmap _ _ (<[path := Regular (overwrite data bytes)]> (content (view (kern st.2))))); [done| |].
  - simpl. rewrite (view_poke p data _ path (length bytes) bytes); [|done|..|lia|lia].
    + by rewrite HC, insert_insert_eq.
    + rewrite HC. apply lookup_insert_eq.
  - intros st2 Hl2 HC2 Hs2. apply wp_ret. split; [by eapply later_trans; [exact Hlater|]|].
    split_and!; [lia|done|]. rewrite Hs2. simpl. rewrite Hσ. apply lookup_insert_eq.
Qed.

(** Reading: exactly the bytes of the file, which does not change. *)
Lemma wp_read_file path bytes size realerPath st :
  echoes st → content (view (kern st.2)) !! path = Some (Regular bytes) → sizes st.2 !! size ≠ Some 0 →
  wp (read_file path size realerPath) (λ r st', later st st' ∧
    content (view (kern st'.2)) = content (view (kern st.2)) ∧
    match r with Some l => l = bytes | None => errors st'.1 ≠ [] ∨ bytes = [] end) st.
Proof.
  intros Hec HC Hsz. unfold read_file. apply wp_bind.
  eapply (wp_ensures _ (view (kern st.2)) (sizes st.2)); [by apply ensures_mmapReadOnly|done|done|].
  apply (wp_mmapReadOnly strerror fuel Hresp Hshort); [done|]. intros p st1 (t & es & σ & Hg & _ & Hr) Hec1 [HC1 Hfiles].
  pose proof (grows_later _ _ _ _ _ Hec Hg) as Hlater.
  destruct Hr as [(-> & _ & Herr)|(Hpos & _)].
  { apply wp_ret. split_and!; [done|done|]. rewrite (gr_diag _ _ _ _ _ Hg). simpl.
    destruct Hfiles as [Hσ|[-> _]]; [left|by right].
    destruct Herr as [He|[He|[_ Hσ0]]].
    - intros Hnil. by apply app_eq_nil in Hnil as [_ ?].
    - intros Hnil. by apply app_eq_nil in Hnil as [? _].
    - destruct Hsz. rewrite <- Hσ, (gr_sizes _ _ _ _ _ Hg), Hσ0. apply lookup_insert_eq. }
  rewrite (proj2 (Z.eqb_neq p 0)) in Hfiles |- * by lia. destruct Hfiles as [HM Hσ].
  apply wp_bind, (wp_size_at size (Z.of_nat (length bytes))); [rewrite Hσ; apply lookup_insert_eq|].
  apply wp_bind, wp_in_sys, wp_bind, wp_gets.
  apply wp_of_option with (a := bytes); [unfold peek; by rewrite HM|].
  apply wp_bind. eapply (wp_later_munmap _ _ (content (view (kern st.2)))); [by destruct st1|done|].
  intros st2 Hl2 HC2 _. apply wp_ret. split_and!; [|done|done].
  by eapply later_trans; [exact Hlater|].
Qed.

(** A caller that writes and then reads. *)
Definition save_and_load (path : string) (data : list Z) (size : positive) (realerPath : option positive) :
    diagprog (K := K) (option (list Z)) :=
  ok ← write_file path data size realerPath;
  if ok : bool then read_file path size realerPath else mret None.

Lemma length_first_page o : (0 < length (first_page o))%nat.
Proof. by destruct o as [[[|b bytes]|]|]; simpl; rewrite ?length_replicate; lia. Qed.

Lemma length_overwrite data bytes : (length data ≤ length bytes)%nat → length (overwrite data bytes) = length bytes.
Proof. intros Hle. unfold overwrite. rewrite length_app, length_drop. lia. Qed.

(** C21: What is stored through a mapping made by [mmapReadWrite] is what a
    mapping made by [mmapReadOnly] shows afterwards: the data, followed by what the
    file held behind it, or by the zeros of the page that a new or empty file is
    extended to; the file holds these bytes and no other file changes.  When
    nothing is read back, there is an error or the data did not fit. *)
Theorem mapped_roundtrip path data size realerPath st :
  echoes st → content (view (kern st.2)) !! path ≠ Some Special →
  let bytes := first_page (content (view (kern st.2)) !! path) in
  wp (save_and_load path data size realerPath) (λ r st',
    match r with
    | Some l => l = overwrite data bytes ∧ (length data ≤ length bytes)%nat ∧
        content (view (kern st'.2)) = <[path := Regular l]> (content (view (kern st.2)))
    | None => errors st'.1 ≠ [] ∨ (length bytes < length data)%nat
    end) st.
Proof.
  intros Hec Hreg bytes. unfold save_and_load. apply wp_bind.
  eapply wp_mono; [by apply wp_write_file|]. fold bytes. intros [] st1 [Hl1 Hw]; [|by apply wp_ret].
  destruct Hw as (Hlen & HC & Hs). pose proof (length_first_page (content (view (kern st.2)) !! path)) as Hpos.
  fold bytes in Hpos. eapply wp_mono.
  - apply (wp_read_file path (overwrite data bytes)); [apply Hl1|rewrite HC; apply lookup_insert_eq|].
    rewrite Hs. intros [= Hz]. lia.
  - intros [l|] st2 (Hl2 & HC2 & Hr); [|left].
    + rewrite HC2, HC, Hr. by split_and!.
    + destruct Hr as [Hr|Hr]; [done|]. apply (f_equal length) in Hr. rewrite length_overwrite in Hr by done. simpl in Hr. lia.
Qed.
End files.

(** ** A kernel that keeps its files *)

(** It is never interrupted; descriptors and addresses are not used twice. *)
Record disk := Disk { shown : fsview; uses : nat }.

Definition refused : answer := mkAnswer (-1) 2 (mkStat 0 0) "".
Definition granted (r : Z) : answer := mkAnswer r 0 (mkStat 0 0) "".

(** The bytes of the regular file that a descriptor or a path names. *)
Definition bytes_at (v : fsview) (path : option string) : option (string * list Z) :=
  p ← path; f ← content v !! p; match f with Regular bytes => Some (p, bytes) | Special => None end.

Definition set_content (path : string) (bytes : list Z) (v : fsview) : fsview :=
  View (<[path := Regular bytes]> (content v)) (descriptors v) (mappings v).

#[export] Instance disk_kernel : Kernel disk := λ c k,
  let v := shown k in
  let fresh := Z.of_nat (uses k) in
  let no := (refused, k) in
  match c with
  | COpen path flag _ =>
      match content v !! path with
      | None => if creates flag
                then (granted fresh, Disk (View (<[path := Regular []]> (content v)) (<[fresh := path]> (descriptors v)) (mappings v)) (S (uses k)))
                else no
      | Some f => (granted fresh, Disk (View (if truncates flag then <[path := Regular []]> (content v) else content v)
                    (<[fresh := path]> (descriptors v)) (mappings v)) (S (uses k)))
      end
  | CClose fd => (granted 0, Disk (View (content v) (delete fd (descriptors v)) (mappings v)) (uses k))
  | CStat path =>
      match bytes_at v (Some path) with
      | Some (_, bytes) =>
          if Z.of_nat (length bytes) <=? INT64_MAX
          then (mkAnswer 0 0 (mkStat 33188 (Z.of_nat (length bytes))) "", k) else no
      | None => no
      end
  | CFstatat _ _ _ => no
  | CTruncate path size =>
      match bytes_at v (Some path) with
      | Some (_, bytes) => if 0 <=? size then (granted 0, Disk (set_content path (resized (Z.to_nat size) bytes) v) (uses k)) else no
      | None => no
      end
  | CFtruncate fd size =>
      match bytes_at v (descriptors v !! fd) with
      | Some (path, bytes) => if 0 <=? size then (granted 0, Disk (set_content path (resized (Z.to_nat size) bytes) v) (uses k)) else no
      | None => no
      end
  | CGetPath fd =>
      match descriptors v !! fd with Some path => (mkAnswer 0 0 (mkStat 0 0) path, k) | None => no end
  | CMmap len prot flags fd =>
      match bytes_at v (descriptors v !! fd) with
      | Some (path, bytes) =>
          if (0 <? len) && (len <=? Z.of_nat (length bytes))
          then let p := 4096 * (1 + fresh) in
            (granted p, Disk (View (content v) (descriptors v)
              (<[p := if flags =? MAP_SHARED then Shared path (Z.to_nat len) (may_write prot)
                      else Private (take (Z.to_nat len) bytes)]> (mappings v))) (S (uses k)))
          else no
      | None => no
      end
  | CMunmap p _ => (granted 0, Disk (View (content v) (descriptors v) (delete p (mappings v))) (uses k))
  end.

Definition disk_poke (p : Z) (data : list Z) (k : disk) : disk :=
  match mappings (shown k) !! p with
  | Some (Shared path _ true) =>
      match content (shown k) !! path with
      | Some (Regular bytes) => Disk (set_content path (overwrite data bytes) (shown k)) (uses k)
      | _ => k
      end
  | _ => k
  end.

(** The cases of an answer of this kernel. *)
Ltac disk_cases :=
  repeat match goal with
  | |- context [match bytes_at ?v ?o with _ => _ end] => let E := fresh "E" in destruct (bytes_at v o) as [[? ?]|] eqn:E
  | |- context [match ?m !! ?i with _ => _ end] => let E := fresh "E" in destruct (m !! i) eqn:E
  | |- context [if ?b then _ else _] => let E := fresh "E" in destruct b eqn:E
  end.

#[export] Instance disk_laws : KernelLaws (K := disk).
Proof.
  split; intros; unfold syscall, disk_kernel; try destruct c; disk_cases; cbn; auto; lia.
Qed.

Lemma disk_err c (k : disk) : err (fst (syscall c k)) = 0 ∨ err (fst (syscall c k)) = 2.
Proof. unfold syscall, disk_kernel. destruct c; disk_cases; cbn; auto. Qed.

Lemma disk_responsive : responsive (K := disk) 1.
Proof.
  intros bad c k. simpl. pose proof (disk_err c k) as He. destruct (syscall c k) as [a k']. simpl in He.
  unfold interrupted. destruct He as [-> | ->]; simpl; rewrite andb_false_r; by eexists.
Qed.

Lemma bytes_at_spec v o path bytes : bytes_at v o = Some (path, bytes) →
  o = Some path ∧ content v !! path = Some (Regular bytes).
Proof.
  unfold bytes_at. destruct o as [p|]; [|done]. simpl. destruct (content v !! p) as [[b|]|] eqn:Hp; try done.
  simpl. by intros [= -> ->].
Qed.

Lemma disk_call c k : allowed c (fst (syscall c k)) (shown k) (shown (snd (syscall c k))).
Proof.
  destruct c; unfold syscall, disk_kernel; disk_cases;
    repeat match goal with E : bytes_at _ _ = Some _ |- _ => apply bytes_at_spec in E as [??] end;
    unfold allowed; cbn -[resized creates truncates may_write Z.mul]; b2p;
    try (rewrite (proj2 (Z.ltb_ge _ 0)) by lia); try done.
  all: split_and!; try done; intros; simplify_eq; try done.
  all: first [congruence|by apply lookup_delete_ne|by rewrite (proj2 (Z.eqb_neq _ _))
    |repeat case_match; congruence].
Qed.

#[export] Instance disk_files : FileKernel disk.
Proof.
  refine {| view := shown; poke := disk_poke; view_call := disk_call |}.
  intros p data k path len bytes Hm Hc Hd Hl. unfold disk_poke. by rewrite Hm, Hc.
Defined.

(** ** A concrete run *)

Definition disk_state : Diagnostics * sys disk :=
  (diagnostics None,
   mkSys (Disk (View {[ "/log" := Regular [1; 2; 3]; "/other" := Regular [9] ]} ∅ ∅) 3) 0 ∅ [] ∅ ∅).

Definition loaded (path : string) (data : list Z) : option (option (list Z) * option (list Z)) :=
  match save_and_load busy_strerror 1 path data 1 None disk_state with
  | Done r st => Some (take 5 <$> r, match content (shown (kern st.2)) !! "/other" with Some (Regular l) => Some l | _ => None end)
  | Stop _ _ => None
  end.

(** An old file keeps its other bytes, a new one has a page of zeros, and data
    that does not fit is refused. *)
Example loaded_old : loaded "/log" [7; 8] = Some (Some [7; 8; 3], Some [9]).
Proof. vm_compute. reflexivity. Qed.
Example loaded_new : loaded "/new" [7; 8] = Some (Some [7; 8; 0; 0; 0], Some [9]).
Proof. vm_compute. reflexivity. Qed.
Example loaded_long : loaded "/log" [7; 8; 9; 10] = Some (None, Some [9]).
Proof. vm_compute. reflexivity. Qed.

Lemma mapped_roundtrip_witness :
  wp (save_and_load busy_strerror 1 "/log" [7; 8] 1 None) (λ r st',
    match r with
    | Some l => l = overwrite [7; 8] [1; 2; 3] ∧ (length [7; 8]%Z ≤ length [1; 2; 3]%Z)%nat ∧
        content (view (kern st'.2)) = <["/log" := Regular l]> (content (view (kern disk_state.2)))
    | None => errors st'.1 ≠ [] ∨ (length [1; 2; 3]%Z < length [7; 8]%Z)%nat
    end) disk_state.
Proof.
  assert (first_page (content (view (kern disk_state.2)) !! "/log") = [1; 2; 3]) as <- by (vm_compute; reflexivity).
  apply (mapped_roundtrip busy_strerror 1 disk_responsive busy_short "/log" [7; 8] 1 None disk_state).
  - by intros f Hf.
  - vm_compute. discriminate.
Defined.

End SysFiles.
