(* ===== verification/Concur.v ===== *)
(** * Concur: atomic steps, threads and their interleavings

    Code that several threads run at once is a sequence of atomic steps on the
    shared state.  The same code has two readings: [run] executes it alone, as a
    [prog] of the prelude, and [step] interleaves the threads of a pool.  Both
    are shared by the timer, the deallocation observers and the counters of the
    copy-on-write blocks.  The lemmas here carry an invariant from the single
    steps of one thread to every reachable configuration of a pool. *)

From S2P Require Import Prelude.

Module Concur.

(** The rest of a thread over a shared state [S]: an atomic step answers a value
    of [R] that the remaining code may depend on.  A step that yields [None]
    cannot be taken in that state: the lock it takes is held, or it is a call that
    would end the process. *)
Inductive code (S R : Type) : Type :=
| Ret
| Act (m : S → option (R * S)) (k : R → code S R).
Arguments Ret {S R}.
Arguments Act {S R} m k.

Notation "x <~ m ; k" := (Act m (λ x, k)) (at level 100, m at next level, right associativity).

(** One piece of code after another. *)
Fixpoint seq {S R} (c d : code S R) : code S R :=
  match c with
  | Ret => d
  | Act m k => Act m (λ r, seq (k r) d)
  end.

Notation "c ;~ d" := (seq c d) (at level 100, d at level 200, right associativity).

(** An atomic step whose answer nobody looks at. *)
Definition act {S R} (m : S → option (R * S)) : code S R := Act m (λ _, Ret).

(** [if (b) c] *)
Definition cwhen {S R} (b : bool) (c : code S R) : code S R := if b then c else Ret.

(** The code run alone: a thread that waits for a lock it holds itself never goes
    on, and one whose call ends the process does not either. *)
Fixpoint run {S R} (c : code S R) : prog S unit := λ s,
  match c with
  | Ret => Done tt s
  | Act m k =>
      match m s with
      | Some (r, s') => run (k r) s'
      | None => Stop FAbort s
      end
  end.

(** ** Interleaving *)

(** The threads by number, and the state they share. *)
Definition config (S R : Type) : Type := list (code S R) * S.

Inductive step {S R} : config S R → config S R → Prop :=
| step_act P s i m k r s' :
    P !! i = Some (Act m k) → m s = Some (r, s') →
    step (P, s) (<[i:=k r]> P, s').

Definition is_ret {S R} (c : code S R) : bool := if c is Ret then true else false.

(** Every thread has come to its end. *)
Definition finished {S R} (P : list (code S R)) : Prop := Forall (λ c, c = Ret) P.

(** Let the threads take one step each in the order of the list. *)
Fixpoint schedule {S R} (l : list nat) (c : config S R) : option (config S R) :=
  match l with
  | [] => Some c
  | i :: l =>
      match c.1 !! i with
      | Some (Act m k) =>
          match m c.2 with
          | Some (r, s') => schedule l (<[i:=k r]> c.1, s')
          | None => None
          end
      | _ => None
      end
  end.

Section facts.
Context {S R : Type}.
Implicit Types (c d : code S R) (P : list (code S R)) (s : S).

Lemma schedule_sound l (x y : config S R) : schedule l x = Some y → rtc step x y.
Proof.
  revert x. induction l as [|i l IH]; intros [P s] H; simpl in H.
  { by injection H as <-. }
  destruct (P !! i) as [[|m k]|] eqn:Hi; try done.
  destruct (m s) as [[r s']|] eqn:Hm; [|done].
  eapply rtc_l; [by econstructor|]. by apply IH.
Qed.

Lemma run_seq c d : ∀ s, run (seq c d) s = (run c ≫= λ _, run d) s.
Proof.
  induction c as [|m k IH]; intros s; [done|]. simpl.
  unfold mbind, prog_bind in *. simpl. destruct (m s) as [[r s']|]; [|done]. apply IH.
Qed.

(** A thread alone in its pool does what [run] does. *)
Lemma run_alone c s s' : run c s = Done tt s' → rtc step ([c], s) ([Ret], s').
Proof.
  revert s. induction c as [|m k IH]; intros s H; simpl in H.
  { by injection H as <-. }
  destruct (m s) as [[r t]|] eqn:Hm; [|done].
  eapply rtc_l; [by apply (step_act [Act m k] s 0 m k r t)|]. by apply IH.
Qed.

Lemma finished_lookup P : finished P ↔ ∀ i c, P !! i = Some c → c = Ret.
Proof. apply Forall_lookup. Qed.
End facts.

(** ** Invariants by phases

    A client names the places where a thread of its code can stand: a phase.
    [code_of] gives the code that is left there and [pstep] what a single step
    from a phase does.  Every run of the pool is then a run on phases. *)
Section phases.
Context {S R Ph : Type} (code_of : Ph → code S R).
Context (pstep : Ph → S → Ph → S → Prop).

Inductive phase_step : list Ph * S → list Ph * S → Prop :=
| phase_step_at phs s i ph ph' s' :
    phs !! i = Some ph → pstep ph s ph' s' →
    phase_step (phs, s) (<[i:=ph']> phs, s').

Context (pstep_complete : ∀ ph m k r s s',
  code_of ph = Act m k → m s = Some (r, s') → ∃ ph', k r = code_of ph' ∧ pstep ph s ph' s').

Lemma steps_phases phs s P' s' :
  rtc step (code_of <$> phs, s) (P', s') →
  ∃ phs', P' = code_of <$> phs' ∧ rtc phase_step (phs, s) (phs', s').
Proof.
  remember (code_of <$> phs, s) as x eqn:Hx. remember (P', s') as y eqn:Hy.
  intros H. revert phs s Hx.
  induction H as [x|x y' z Hxy _ IH]; intros phs s ->.
  { injection Hy as <- <-. by exists phs. }
  inversion Hxy as [P s0 i m k r s1 Hi Hm HP Hy']; subst.
  rewrite list_lookup_fmap in Hi.
  destruct (phs !! i) as [ph|] eqn:Hph; [|done]. simpl in Hi. injection Hi as Hi.
  destruct (pstep_complete ph m k r s s1) as (ph' & Hk & Hstep); [done|done|].
  destruct (IH eq_refl (<[i:=ph']> phs) s1) as (phs' & -> & Hsteps).
  { f_equal. rewrite Hk. symmetry. apply list_fmap_insert. }
  exists phs'. split; [done|]. eapply rtc_l; [|done]. by econstructor.
Qed.

(** An invariant of the phases and the state that each step keeps holds wherever
    the pool can get. *)
Lemma phases_invariant (I : list Ph → S → Prop) phs s P' s' :
  (∀ phs s i ph ph' s', phs !! i = Some ph → pstep ph s ph' s' → I phs s → I (<[i:=ph']> phs) s') →
  I phs s → rtc step (code_of <$> phs, s) (P', s') →
  ∃ phs', P' = code_of <$> phs' ∧ I phs' s'.
Proof.
  intros HI H0 Hsteps. apply steps_phases in Hsteps as (phs' & -> & Hsteps).
  exists phs'. split; [done|].
  assert (∀ x y, rtc phase_step x y → I x.1 x.2 → I y.1 y.2) as Hrtc.
  { induction 1 as [|x y z Hxy _ IH]; [done|]. intros Hx. apply IH.
    inversion Hxy; subst; simpl in *. by eapply HI. }
  by apply (Hrtc (phs, s) (phs', s')).
Qed.

(** If every step lowers a measure of its thread, no interleaving goes on for ever. *)
Lemma phases_sn (μ : Ph → nat) :
  (∀ ph s ph' s', pstep ph s ph' s' → (μ ph' < μ ph)%nat) →
  ∀ phs s, sn step (code_of <$> phs, s).
Proof.
  intros Hμ phs. remember (sum_list_with μ phs) as n eqn:Hn. revert phs Hn.
  induction (lt_wf n) as [n _ IH]. intros phs -> s. constructor. unfold flip.
  intros y Hy. inversion Hy as [P s0 i m k r s' Hi Hm]; subst.
  rewrite list_lookup_fmap in Hi.
  destruct (phs !! i) as [ph|] eqn:Hph; [|done]. simpl in Hi. injection Hi as Hi.
  destruct (pstep_complete ph m k r s s') as (ph' & -> & Hstep); [done|done|].
  pose proof (list_fmap_insert code_of phs i ph') as Hins. rewrite <-Hins.
  eapply IH; [|done].
  apply Hμ in Hstep. clear -Hph Hstep. revert i Hph.
  induction phs as [|x phs IH]; intros [|i] H; simpl in *; try done.
  - injection H as ->. lia.
  - specialize (IH i H). lia.
Qed.
End phases.

(** ** Sums over the threads *)

Definition zsum {A} (f : A → Z) (l : list A) : Z := foldr (λ x z, f x + z) 0 l.

Section zsum.
Context {A : Type} (f : A → Z).

Lemma zsum_insert l i a b :
  l !! i = Some a → zsum f (<[i:=b]> l) = zsum f l - f a + f b.
Proof.
  revert i. induction l as [|x l IH]; intros [|i] H; simpl in *; [done|done|naive_solver lia|].
  rewrite (IH _ H). lia.
Qed.

Lemma zsum_delete l i a :
  l !! i = Some a → zsum f (delete i l) = zsum f l - f a.
Proof.
  revert i. induction l as [|x l IH]; intros [|i] H; simpl in *; [done|done|naive_solver lia|].
  rewrite (IH _ H). lia.
Qed.

Lemma zsum_app l k : zsum f (l ++ k) = zsum f l + zsum f k.
Proof. induction l as [|x l IH]; simpl; [done|]. rewrite IH. lia. Qed.

Lemma zsum_nonneg l : (∀ x, x ∈ l → 0 ≤ f x) → 0 ≤ zsum f l.
Proof.
  induction l as [|x l IH]; intros H; simpl; [lia|].
  pose proof (H x ltac:(by left)). assert (0 ≤ zsum f l); [|lia].
  apply IH. intros y Hy. apply H. by right.
Qed.

(** A positive sum has a positive term. *)
Lemma zsum_pos l : 0 < zsum f l → ∃ x, x ∈ l ∧ 0 < f x.
Proof.
  induction l as [|x l IH]; simpl; [lia|]. intros H. destruct (decide (0 < f x)) as [Hx|Hx].
  - exists x. split; [by left|done].
  - destruct IH as (y & Hy & Hf); [lia|]. exists y. split; [by right|done].
Qed.

(** With non-negative terms, one term is at most the sum, two at most the sum. *)
Lemma zsum_lookup l i x :
  (∀ y, 0 ≤ f y) → l !! i = Some x → f x ≤ zsum f l.
Proof.
  intros Hf. revert i. induction l as [|y l IH]; intros [|i] H; simpl in *; try done.
  - injection H as ->. pose proof (zsum_nonneg l (λ x _, Hf x)). lia.
  - specialize (IH i H). pose proof (Hf y). lia.
Qed.

Lemma zsum_lookup_2 l i j x y :
  (∀ z, 0 ≤ f z) → i ≠ j → l !! i = Some x → l !! j = Some y → f x + f y ≤ zsum f l.
Proof.
  intros Hf. revert i j. induction l as [|z l IH]; intros [|i] [|j] Hij Hi Hj; simpl in *; try done.
  - injection Hi as ->. pose proof (zsum_lookup l j y Hf Hj). lia.
  - injection Hj as ->. pose proof (zsum_lookup l i x Hf Hi). lia.
  - specialize (IH i j ltac:(lia) Hi Hj). pose proof (Hf z). lia.
Qed.

(** Without one term the rest is still not negative. *)
Lemma zsum_others l i x :
  (∀ y, 0 ≤ f y) → l !! i = Some x → 0 ≤ zsum f l - f x.
Proof. intros Hf Hi. pose proof (zsum_lookup l i x Hf Hi). lia. Qed.

Lemma zsum_zero l : (∀ x, x ∈ l → f x = 0) → zsum f l = 0.
Proof.
  induction l as [|x l IH]; intros H; simpl; [done|].
  rewrite (H x) by (by left). apply IH. intros y Hy. apply H. by right.
Qed.

Lemma zsum_fmap {B} (g : B → A) l : zsum f (g <$> l) = zsum (λ x, f (g x)) l.
Proof. induction l as [|x l IH]; [done|]. simpl. by f_equal. Qed.
End zsum.

Lemma zsum_imap {A B} (f : B → Z) (g : nat → A → B) (h : A → Z) l :
  (∀ n x, f (g n x) = h x) → zsum f (imap g l) = zsum h l.
Proof.
  revert g. induction l as [|x l IH]; intros g H; [done|].
  rewrite imap_cons. simpl. rewrite H. f_equal. apply IH. intros n y. apply H.
Qed.

Lemma zsum_le {A} (f g : A → Z) l : (∀ x, f x ≤ g x) → zsum f l ≤ zsum g l.
Proof. intros H. induction l as [|x l IH]; simpl; [lia|]. specialize (H x). lia. Qed.

Lemma zsum_others_le {A} (f g : A → Z) l i x :
  (∀ y, f y ≤ g y) → l !! i = Some x → zsum f l - f x ≤ zsum g l - g x.
Proof.
  intros H Hi. rewrite <-(zsum_delete f l i x Hi), <-(zsum_delete g l i x Hi). by apply zsum_le.
Qed.

(** ** What the threads still have, gathered *)

Definition gather {A B} (f : A → list B) (l : list A) : list B := l ≫= f.

Section gather.
Context {A B : Type} (f : A → list B).

(** Replacing one thread exchanges its part and keeps the rest. *)
Lemma gather_insert l i a :
  l !! i = Some a →
  ∃ rest, gather f l ≡ₚ f a ++ rest ∧ ∀ b, gather f (<[i:=b]> l) ≡ₚ f b ++ rest.
Proof.
  unfold gather. revert i. induction l as [|x l IH]; intros [|i] H; simpl in *; try done.
  { injection H as ->. by exists (l ≫= f). }
  destruct (IH i H) as (rest & Hl & Hb). exists (f x ++ rest). split.
  - rewrite Hl. solve_Permutation.
  - intros b. rewrite (Hb b). solve_Permutation.
Qed.

Lemma gather_nil l : (∀ x, x ∈ l → f x = []) → gather f l = [].
Proof.
  unfold gather. induction l as [|x l IH]; intros H; simpl; [done|].
  rewrite (H x) by (by left). apply IH. intros y Hy. apply H. by right.
Qed.

Lemma gather_fmap {C} (g : C → A) l : gather f (g <$> l) = gather (λ x, f (g x)) l.
Proof. unfold gather. induction l as [|x l IH]; [done|]. simpl. by f_equal. Qed.
End gather.
End Concur.
