(* ===== verification/Dispatch.v ===== *)
(** * Dispatch: what the timer and the schedules share of the platform

    Both files of [dispatch/] take durations as [double] seconds and hand them
    to libdispatch as integers of nanoseconds.  The doubles here are IEEE 754
    binary64 values with rounding to nearest even ([SpecFloat]), so that every
    operation of the source can be evaluated, its rounding included.  libdispatch
    itself is not under [src/]: a call to it is an entry in a list of calls, and
    the timer's theorems speak of that list. *)

From Stdlib Require Export SpecFloat.
From S2P Require Import Prelude.

Module Dispatch.

(** ** Doubles *)

Notation double := spec_float.

Definition dmul : double → double → double := SFmul 53 1024.
Definition ddiv : double → double → double := SFdiv 53 1024.
Definition dsub : double → double → double := SFsub 53 1024.

(** [x >= y], false when either is not a number. *)
Definition dge (x y : double) : bool := SFleb y x.

(** [(double)z] *)
Definition of_int (z : Z) : double := binary_normalize 53 1024 z 0 false.

(** The integer part, none for an infinity or a NaN. *)
Definition trunc (d : double) : option Z :=
  match d with
  | S754_zero _ => Some 0
  | S754_finite sg m e =>
      let a := if 0 <=? e then Z.pos m * 2 ^ e else Z.pos m / 2 ^ (- e) in
      Some (if sg then - a else a)
  | S754_infinity _ | S754_nan => None
  end.

(** The conversions to [uint64_t] and to [int64_t], undefined when the integer
    part does not fit. *)
Definition to_uint64 (d : double) : option Z :=
  z ← trunc d; if (0 <=? z) && (z <=? SIZE_MAX) then Some z else None.
Definition to_int64 (d : double) : option Z :=
  z ← trunc d; if (INT64_MIN <=? z) && (z <=? INT64_MAX) then Some z else None.

(** The constant that stands for the present in a [dispatch_time_t]. *)
Definition DISPATCH_TIME_NOW : Z := 0.

Definition NSEC_PER_SEC : Z := 1000000000.

(** [seconds * NSEC_PER_SEC] *)
Definition nanoseconds (seconds : double) : double := dmul seconds (of_int NSEC_PER_SEC).

Example half_a_second : to_uint64 (nanoseconds (ddiv (of_int 1) (of_int 2))) = Some 500000000.
Proof. vm_compute. reflexivity. Qed.

Example a_tenth_of_a_second : to_uint64 (nanoseconds (ddiv (of_int 1) (of_int 10))) = Some 100000000.
Proof. vm_compute. reflexivity. Qed.

Example negative_seconds : to_uint64 (nanoseconds (of_int (-1))) = None.
Proof. vm_compute. reflexivity. Qed.

(** What converts lies within the width of the integer. *)
Lemma to_uint64_range d z : to_uint64 d = Some z → 0 ≤ z ≤ SIZE_MAX.
Proof.
  unfold to_uint64. intros H. apply bind_Some in H as (y & _ & Hy).
  destruct ((0 <=? y) && (y <=? SIZE_MAX)) eqn:E; [|done]. b2p. injection Hy as <-. lia.
Qed.

Lemma to_int64_range d z : to_int64 d = Some z → INT64_MIN ≤ z ≤ INT64_MAX.
Proof.
  unfold to_int64. intros H. apply bind_Some in H as (y & _ & Hy).
  destruct ((INT64_MIN <=? y) && (y <=? INT64_MAX)) eqn:E; [|done]. b2p. injection Hy as <-. lia.
Qed.
End Dispatch.
