(* ===== verification/Observing.v ===== *)
(** * Observing: handlers that run when an object is deallocated

    Models [objc/NSValueObserving.m]: the object that keeps the handlers of an
    observable as its associated object, and [NPAttachDeallocationHandler], whose
    lookup and creation of that object run under [@synchronized].  The handlers
    are a type of their own, with what calling one does as a parameter. *)

From stdpp Require Import sets.
From S2P Require Import Prelude Concur.

Module Observing.
Import Concur.

(** An [NPNSValueObserving]: its array of handlers. *)
Record NPNSValueObserving (B : Type) := { handlers : list B }.
Arguments Build_NPNSValueObserving {B} handlers.
Arguments handlers {B} _.

Notation table B := (gmap positive (NPNSValueObserving B)).

(** What the runtime keeps: the object associated with each observable under
    the key of this file, the observables some thread is synchronized on, and
    the rest of the program's state. *)
Record objc (B X : Type) := {
  associations : table B;
  monitors : gset positive;
  rest : X;
}.
Arguments Build_objc {B X} associations monitors rest.
Arguments associations {B X} _.
Arguments monitors {B X} _.
Arguments rest {B X} _.

(** [-init] *)
Definition init {B} : NPNSValueObserving B := {| handlers := [] |}.

(** [-addObserverHandler:]: the array owns a copy of the block. *)
Definition addObserverHandler {B} (handler : B) (self : NPNSValueObserving B) : NPNSValueObserving B :=
  {| handlers := handlers self ++ [handler] |}.

Section Observing.
Context {B X : Type}.
Notation state := (objc B X).

(** [@synchronized (observable) {] and its end *)
Definition monitor_enter (o : positive) (s : state) : option (bool * state) :=
  if decide (o ∈ monitors s) then None
  else Some (true, {| associations := associations s; monitors := {[o]} ∪ monitors s; rest := rest s |}).

Definition monitor_exit (o : positive) (s : state) : option (bool * state) :=
  Some (true, {| associations := associations s; monitors := monitors s ∖ {[o]}; rest := rest s |}).

(** [objc_getAssociatedObject(observable, &key)]: whether there is an object. *)
Definition getAssociatedObject (o : positive) (s : state) : option (bool * state) :=
  Some (if associations s !! o is Some _ then true else false, s).

(** [objc_setAssociatedObject(observable, &key, observing, ...)] *)
Definition setAssociatedObject (o : positive) (v : NPNSValueObserving B) (s : state) : option (bool * state) :=
  Some (true, {| associations := <[o:=v]> (associations s); monitors := monitors s; rest := rest s |}).

(** [[observing addObserverHandler:handler]], where a message to [nil] does nothing *)
Definition send_addObserverHandler (o : positive) (handler : B) (s : state) : option (bool * state) :=
  Some (true, {| associations := alter (addObserverHandler handler) o (associations s);
                 monitors := monitors s; rest := rest s |}).

Context (call : B → code state bool).

Definition NPAttachDeallocationHandler (observable : option positive) (handler : B) : code state bool :=
  match observable with
  | None => call handler
  | Some o =>
      _ <~ monitor_enter o;
      observing <~ getAssociatedObject o;
      cwhen (negb observing) (act (setAssociatedObject o init)) ;~
      act (send_addObserverHandler o handler) ;~
      act (monitor_exit o)
  end.

(** [-dealloc]: the handlers in order.  Nobody can reach the array by then, so
    that emptying it afterwards is not observed. *)
Fixpoint call_handlers (l : list B) : code state bool :=
  match l with
  | [] => Ret
  | handler :: l => call handler ;~ call_handlers l
  end.

Definition dealloc (self : NPNSValueObserving B) : code state bool :=
  call_handlers (handlers self).

(** The deallocation of an observable: the runtime drops its association, which
    held the only reference to the object with the handlers. *)
Definition erase_association (o : positive) (s : state) : option (bool * state) :=
  Some (true, {| associations := delete o (associations s); monitors := monitors s; rest := rest s |}).

Definition deallocate (o : positive) : prog state unit :=
  s ← get;
  run (act (erase_association o));;
  match associations s !! o with
  | Some self => run (dealloc self)
  | None => mret tt
  end.

(** The handlers that wait for the end of an observable. *)
Definition attached (o : positive) (s : state) : list B :=
  default [] (handlers <$> associations s !! o).

(** ** Threads that attach handlers *)

(** A thread that attaches these handlers to these objects. *)
Definition attach_all (todo : list (positive * B)) : code state bool :=
  foldr (λ oh c, NPAttachDeallocationHandler (Some oh.1) oh.2 ;~ c) Ret todo.

(** Where such a thread can stand: before the next attachment, about to look the
    object up, about to create it, about to add the handler, about to leave. *)
Inductive stage :=
| SNext
| SGet (o : positive) (h : B)
| SCreate (o : positive) (h : B)
| SAdd (o : positive) (h : B)
| SExit (o : positive).

Notation phase := (stage * list (positive * B))%type.
Implicit Types (phs : list phase) (threads : list (list (positive * B))) (s : state).

Definition stage_code (g : stage) : code state bool :=
  match g with
  | SNext => Ret
  | SGet o h =>
      observing <~ getAssociatedObject o;
      cwhen (negb observing) (act (setAssociatedObject o init)) ;~
      act (send_addObserverHandler o h) ;~ act (monitor_exit o)
  | SCreate o h =>
      act (setAssociatedObject o init) ;~
      act (send_addObserverHandler o h) ;~ act (monitor_exit o)
  | SAdd o h => act (send_addObserverHandler o h) ;~ act (monitor_exit o)
  | SExit o => act (monitor_exit o)
  end.

Definition code_of (ph : phase) : code state bool := stage_code ph.1 ;~ attach_all ph.2.

Inductive pstep : phase → state → phase → state → Prop :=
| p_enter o h todo s :
    o ∉ monitors s →
    pstep (SNext, (o, h) :: todo) s (SGet o h, todo)
      {| associations := associations s; monitors := {[o]} ∪ monitors s; rest := rest s |}
| p_found o h todo s v :
    associations s !! o = Some v → pstep (SGet o h, todo) s (SAdd o h, todo) s
| p_missing o h todo s :
    associations s !! o = None → pstep (SGet o h, todo) s (SCreate o h, todo) s
| p_create o h todo s :
    pstep (SCreate o h, todo) s (SAdd o h, todo)
      {| associations := <[o:=init]> (associations s); monitors := monitors s; rest := rest s |}
| p_add o h todo s :
    pstep (SAdd o h, todo) s (SExit o, todo)
      {| associations := alter (addObserverHandler h) o (associations s);
         monitors := monitors s; rest := rest s |}
| p_exit o todo s :
    pstep (SExit o, todo) s (SNext, todo)
      {| associations := associations s; monitors := monitors s ∖ {[o]}; rest := rest s |}.

Lemma attach_pstep_complete ph m k r s s' :
  code_of ph = Act m k → m s = Some (r, s') → ∃ ph', k r = code_of ph' ∧ pstep ph s ph' s'.
Proof.
  destruct ph as [g todo]. unfold code_of; simpl.
  destruct g as [|o h|o h|o h|o]; simpl.
  - destruct todo as [|[o h] todo]; [done|]. simpl. intros [= <- <-].
    unfold monitor_enter. case_decide; [done|]. intros [= <- <-].
    exists (SGet o h, todo). split; [done|by constructor].
  - intros [= <- <-] [= <- <-]. destruct (associations s !! o) as [v|] eqn:Ho; simpl.
    + exists (SAdd o h, todo). split; [done|by econstructor].
    + exists (SCreate o h, todo). split; [done|by constructor].
  - intros [= <- <-] [= <- <-]. exists (SAdd o h, todo). split; [done|constructor].
  - intros [= <- <-] [= <- <-]. exists (SExit o, todo). split; [done|constructor].
  - intros [= <- <-] [= <- <-]. exists (SNext, todo). split; [done|constructor].
Qed.

(** Whether a thread is inside the synchronized region of [o]. *)
Definition holds (o : positive) (ph : phase) : Z :=
  match ph.1 with
  | SNext => 0
  | SGet o' _ | SCreate o' _ | SAdd o' _ | SExit o' => if decide (o = o') then 1 else 0
  end.

(** The handlers a thread will still attach to [o]. *)
Definition mine (o : positive) (oh : positive * B) : list B := if decide (oh.1 = o) then [oh.2] else [].
Definition pending (o : positive) (ph : phase) : list B :=
  match ph.1 with
  | SGet o' h | SCreate o' h | SAdd o' h => mine o (o', h)
  | SNext | SExit _ => []
  end ++ gather (mine o) ph.2.

(** What a thread in the region knows about the associated object. *)
Definition knows (ph : phase) (s : state) : Prop :=
  match ph.1 with
  | SCreate o _ => associations s !! o = None
  | SAdd o _ => is_Some (associations s !! o)
  | _ => True
  end.

Record attach_inv (total : positive → list B) (phs : list phase) (s : state) : Prop := {
  ai_lock : ∀ o, zsum (holds o) phs = if decide (o ∈ monitors s) then 1 else 0;
  ai_knows : ∀ i ph, phs !! i = Some ph → knows ph s;
  ai_total : ∀ o, attached o s ++ gather (pending o) phs ≡ₚ total o;
}.

Lemma attach_holds_nonneg o ph : 0 ≤ holds o ph.
Proof. unfold holds. destruct ph as [[]]; simpl; try case_decide; lia. Qed.

Lemma pstep_holds o ph s ph' s' :
  pstep ph s ph' s' → (holds o ph = 1 → o ∈ monitors s) →
  holds o ph' + (if decide (o ∈ monitors s) then 1 else 0) =
  holds o ph + (if decide (o ∈ monitors s') then 1 else 0).
Proof.
  intros Hstep Hin.
  destruct Hstep; unfold holds in *; simpl in *; repeat case_decide; subst; try lia;
    exfalso; set_solver by lia.
Qed.

(** A step changes what is associated only with an object the thread is synchronized on. *)
Lemma pstep_frame o ph s ph' s' :
  pstep ph s ph' s' → holds o ph = 0 → associations s' !! o = associations s !! o.
Proof.
  destruct 1; unfold holds; simpl; intros Hh; try done; case_decide; try lia.
  - by rewrite lookup_insert_ne.
  - by rewrite lookup_alter_ne.
Qed.

Lemma pstep_knows ph s ph' s' : pstep ph s ph' s' → knows ph' s'.
Proof.
  destruct 1; unfold knows; simpl; try done.
  by rewrite lookup_insert_eq.
Qed.

Lemma knows_frame ph s s' :
  (∀ o, holds o ph = 1 → associations s' !! o = associations s !! o) → knows ph s → knows ph s'.
Proof.
  unfold knows, holds. destruct ph as [[|o h|o h|o h|o] todo]; simpl; try done;
    intros Hf; rewrite (Hf o); try done; by rewrite decide_True.
Qed.

Lemma pstep_total o ph s ph' s' :
  pstep ph s ph' s' → knows ph s →
  attached o s' ++ pending o ph' ≡ₚ attached o s ++ pending o ph.
Proof.
  intros Hstep Hk. destruct Hstep; unfold pending, mine; simpl; try done; unfold attached; simpl.
  - unfold knows in Hk; simpl in Hk. destruct (decide (o0 = o)) as [->|Ho].
    + by rewrite Hk, lookup_insert_eq.
    + by rewrite lookup_insert_ne.
  - unfold knows in Hk; simpl in Hk. destruct (decide (o0 = o)) as [->|Ho].
    + destruct Hk as [v Hv]. rewrite lookup_alter_eq, Hv. simpl. solve_Permutation.
    + by rewrite lookup_alter_ne.
Qed.

Lemma attach_inv_step total phs s i ph ph' s' :
  phs !! i = Some ph → pstep ph s ph' s' → attach_inv total phs s →
  attach_inv total (<[i:=ph']> phs) s'.
Proof.
  intros Hi Hstep [Hlock Hknows Htotal].
  assert (∀ o, holds o ph = 1 → o ∈ monitors s) as Hin.
  { intros o Ho. pose proof (zsum_lookup _ _ _ _ (attach_holds_nonneg o) Hi) as Hle.
    rewrite Hlock in Hle. case_decide; [done|lia]. }
  split.
  - intros o. rewrite (zsum_insert _ _ _ _ _ Hi), Hlock.
    pose proof (pstep_holds o _ _ _ _ Hstep (Hin o)). lia.
  - intros j ph2 Hj. destruct (decide (i = j)) as [<-|Hij].
    { rewrite list_lookup_insert_eq in Hj by (by eapply lookup_lt_Some).
      injection Hj as <-. by eapply pstep_knows. }
    rewrite list_lookup_insert_ne in Hj by done.
    apply (knows_frame _ s); [|by eauto].
    intros o Ho. apply (pstep_frame _ _ _ _ _ Hstep).
    pose proof (zsum_lookup_2 _ _ _ _ _ _ (attach_holds_nonneg o) Hij Hi Hj) as Hle.
    rewrite Hlock in Hle. pose proof (attach_holds_nonneg o ph). case_decide; lia.
  - intros o. destruct (gather_insert (pending o) _ _ _ Hi) as (rst & Hl & Hb).
    rewrite (Hb ph'), <-(Htotal o), Hl, !(assoc_L (++)).
    by rewrite (pstep_total o _ _ _ _ Hstep (Hknows _ _ Hi)).
Qed.

Lemma finished_phases phs :
  finished (code_of <$> phs) → ∀ i ph, phs !! i = Some ph → ph = (SNext, []).
Proof.
  intros Hf i [g todo] Hi. rewrite finished_lookup in Hf.
  assert ((code_of <$> phs) !! i = Some (code_of (g, todo))) as Hc
    by (by rewrite list_lookup_fmap, Hi).
  specialize (Hf i _ Hc). unfold code_of in Hf; simpl in Hf.
  destruct g; simpl in Hf; try done. by destruct todo.
Qed.

Definition weight (ph : phase) : nat :=
  match ph.1 with
  | SNext => 0
  | SExit _ => 1
  | SAdd _ _ => 2
  | SCreate _ _ => 3
  | SGet _ _ => 4
  end + 5 * length ph.2.

Lemma attach_pstep_weight ph s ph' s' : pstep ph s ph' s' → (weight ph' < weight ph)%nat.
Proof. destruct 1; unfold weight; simpl; lia. Qed.

(** A thread that is inside a region can always go on. *)
Lemma holder_steps ph s o :
  holds o ph ≠ 0 → ∃ m k r s', code_of ph = Act m k ∧ m s = Some (r, s').
Proof.
  destruct ph as [g todo]. unfold holds, code_of; simpl.
  destruct g as [|o' h|o' h|o' h|o']; simpl; intros H; try done; eexists _, _, _, _; split; try done.
Qed.

Lemma Exists_or_Forall phs :
  (∃ i ph o, phs !! i = Some ph ∧ holds o ph ≠ 0) ∨
  (∀ i ph, phs !! i = Some ph → ph.1 = SNext).
Proof.
  induction phs as [|[g todo] phs IH]; [by right|].
  destruct g as [|o h|o h|o h|o].
  2-5: left; exists 0%nat; eexists; exists o; split; [done|];
    unfold holds; simpl; by rewrite decide_True.
  destruct IH as [(i & ph & o & H)|H]; [left; by exists (S i), ph, o|].
  right. intros [|i] ph; simpl; [by intros [= <-]|by apply H].
Qed.

Lemma attach_progress total phs s :
  attach_inv total phs s →
  finished (code_of <$> phs) ∨ ∃ y, step (code_of <$> phs, s) y.
Proof.
  intros [Hlock _ _].
  assert (∀ i ph m k r s', phs !! i = Some ph → code_of ph = Act m k → m s = Some (r, s') →
    ∃ y, step (code_of <$> phs, s) y) as Hgo.
  { intros i ph m k r s' Hi Hc Hm. eexists. apply (step_act _ _ i m k r s'); [|done].
    rewrite list_lookup_fmap, Hi. simpl. by f_equal. }
  destruct (Exists_or_Forall phs) as [(i & ph & o & Hi & Ho)|Hall].
  { right. destruct (holder_steps ph s o Ho) as (m & k & r & s' & Hc & Hm). by eapply Hgo. }
  assert (∀ o, o ∉ monitors s) as Hfree.
  { intros o Hin. specialize (Hlock o). rewrite decide_True in Hlock by done.
    rewrite zsum_zero in Hlock; [done|]. intros ph Hel.
    apply list_elem_of_lookup in Hel as [i Hi]. unfold holds. by rewrite (Hall i ph Hi). }
  destruct (decide (Forall (λ ph : phase, ph.2 = []) phs)) as [Hnil|Hmore].
  { left. apply finished_lookup. intros i c Hc.
    rewrite list_lookup_fmap in Hc. destruct (phs !! i) as [[g todo]|] eqn:Hi; [|done].
    simpl in Hc. injection Hc as <-. rewrite Forall_lookup in Hnil.
    specialize (Hall _ _ Hi). specialize (Hnil _ _ Hi). simpl in *. by subst. }
  right. apply not_Forall_Exists in Hmore; [|intros [? []]; [by left|by right]].
  apply list.Exists_exists in Hmore as ([g todo] & Hel & Hne).
  apply list_elem_of_lookup in Hel as [i Hi].
  specialize (Hall _ _ Hi). simpl in *. subst g. destruct todo as [|[o h] todo]; [done|].
  eapply (Hgo i _ _ _ _ _ Hi); [done|].
  unfold monitor_enter. by rewrite decide_False by apply Hfree.
Qed.

Lemma attach_inv_init threads s :
  monitors s = ∅ →
  attach_inv (λ o, attached o s ++ gather (gather (mine o)) threads)
    ((λ todo, (SNext, todo)) <$> threads) s.
Proof.
  intros Hm. split.
  - intros o. rewrite Hm, decide_False by set_solver. apply zsum_zero.
    intros ph Hel. by apply list_elem_of_fmap in Hel as (todo & -> & _).
  - intros i ph Hi. rewrite list_lookup_fmap in Hi.
    destruct (threads !! i); [|done]. by injection Hi as <-.
  - intros o. by rewrite gather_fmap.
Qed.

(** C17: however the threads that attach handlers are interleaved, the run ends,
    no thread is ever stuck before its end, and when all have ended every object
    keeps exactly the handlers it had and those the threads attached to it: the
    lookup and the creation of the handler array never lose one, and no object
    is left locked. *)
Theorem attach_interleaving threads s P' s' :
  monitors s = ∅ →
  rtc step (attach_all <$> threads, s) (P', s') →
  sn step (P', s') ∧
  (finished P' ∨ ∃ y, step (P', s') y) ∧
  (finished P' → monitors s' = ∅ ∧ rest s' = rest s ∧
    ∀ o, attached o s' ≡ₚ attached o s ++ gather (gather (mine o)) threads).
Proof.
  intros Hm Hsteps.
  assert (attach_all <$> threads = code_of <$> ((λ todo, (SNext, todo)) <$> threads)) as Heq.
  { rewrite <-list_fmap_compose. by apply list_fmap_ext. }
  rewrite Heq in Hsteps.
  eapply (phases_invariant code_of pstep attach_pstep_complete
    (λ phs t, attach_inv (λ o, attached o s ++ gather (gather (mine o)) threads) phs t ∧ rest t = rest s))
    in Hsteps as (phs & -> & Hinv & Hrest).
  - split; [by apply (phases_sn code_of pstep attach_pstep_complete weight attach_pstep_weight)|].
    split; [by eapply attach_progress|]. intros Hf.
    pose proof (finished_phases _ Hf) as Hend. destruct Hinv as [Hlock _ Htotal].
    split; [|split; [done|]].
    + apply set_eq. intros o. specialize (Hlock o). rewrite zsum_zero in Hlock.
      * case_decide; [done|]. set_solver.
      * intros ph Hel. apply list_elem_of_lookup in Hel as [i Hi]. by rewrite (Hend i ph Hi).
    + intros o. rewrite <-(Htotal o), gather_nil, app_nil_r; [done|].
      intros ph Hel. apply list_elem_of_lookup in Hel as [i Hi]. by rewrite (Hend i ph Hi).
  - intros phs t i ph ph' t' Hi Hstep [Hinv Hr]. split; [by eapply attach_inv_step|].
    rewrite <-Hr. by destruct Hstep.
  - split; [by apply attach_inv_init|done].
Qed.
End Observing.

(** ** A concrete interleaving *)

Definition no_call (h : nat) : code (objc nat unit) bool := Ret.
Definition demo_threads : list (list (positive * nat)) := [[(1%positive, 10%nat)]; [(2%positive, 30%nat); (1%positive, 20%nat)]].
Definition demo_start : objc nat unit := {| associations := ∅; monitors := ∅; rest := tt |}.
Definition demo_order : list nat := [0; 1; 1; 0; 0; 1; 1; 0; 0; 1; 1; 1; 1; 1]%nat.
Definition demo_end : objc nat unit :=
  {| associations := <[1%positive := {| handlers := [10; 20]%nat |}]>
       (<[2%positive := {| handlers := [30]%nat |}]> ∅);
     monitors := ∅; rest := tt |}.

Lemma attach_interleaving_witness :
  rtc step (attach_all no_call <$> demo_threads, demo_start) ([Ret; Ret], demo_end) ∧
  attached 1 demo_end ≡ₚ attached 1 demo_start ++ [10; 20]%nat.
Proof.
  assert (rtc step (attach_all no_call <$> demo_threads, demo_start) ([Ret; Ret], demo_end)) as Hs
    by (apply (schedule_sound demo_order); vm_compute; reflexivity).
  split; [exact Hs|].
  pose proof (attach_interleaving no_call demo_threads demo_start [Ret; Ret] demo_end
    eq_refl Hs) as (_ & _ & Hf).
  apply Hf. repeat constructor.
Defined.
End Observing.
