(* ===== verification/Timer.v ===== *)
(** * Timer: a dispatch source with a state of its own

    Models [dispatch/timer.m]: the object [_NPTimer] whose flags, read and
    written under its lock, decide which calls on the source are made after the
    lock is released, and the functions that create, resume, suspend and cancel
    a timer.  A method is [code] of Concur, so that the same definition runs
    alone and interleaved with other threads.  libdispatch is a list of the
    calls made to it, and traps on a resume of a source that is not suspended. *)

From stdpp Require Import sets fin_maps fin_map_dom.
From S2P Require Import Prelude Concur Dispatch Observing.

Module Timer.
Import Concur Dispatch Observing.

(** ** State *)

Record _NPTimer := {
  _isCancelled : bool;
  _isSuspended : bool;
  _unfair_lock : bool;
}.

(** A queue a client may pass, and the global one used for [NULL]. *)
Inductive queue :=
| global_queue
| client_queue (q : positive).

(** A call on a dispatch source. *)
Inductive dcall :=
| dispatch_source_create (target : queue)
| dispatch_source_set_timer (start interval leeway : Z)
| dispatch_source_set_event_handler (handler : nat)
| dispatch_activate
| dispatch_suspend
| dispatch_resume
| dispatch_source_cancel.

#[export] Instance queue_eq_dec : EqDecision queue.
Proof. solve_decision. Defined.
#[export] Instance dcall_eq_dec : EqDecision dcall.
Proof. solve_decision. Defined.

(** The object associated with each source, and the calls made, oldest first. *)
Record sources := {
  timers : gmap positive _NPTimer;
  calls : list (positive * dcall);
}.

Definition on_object (t : positive) (f : _NPTimer → option (bool * _NPTimer)) (s : sources) : option (bool * sources) :=
  o ← timers s !! t;
  '(b, o') ← f o;
  Some (b, {| timers := <[t:=o']> (timers s); calls := calls s |}).

(** Reading and writing the fields of the object that receives the message. *)
Definition test (t : positive) (p : _NPTimer → bool) : sources → option (bool * sources) :=
  on_object t (λ o, Some (p o, o)).
Definition store (t : positive) (f : _NPTimer → _NPTimer) : sources → option (bool * sources) :=
  on_object t (λ o, Some (true, f o)).

Definition set_isCancelled (b : bool) (o : _NPTimer) : _NPTimer :=
  {| _isCancelled := b; _isSuspended := _isSuspended o; _unfair_lock := _unfair_lock o |}.
Definition set_isSuspended (b : bool) (o : _NPTimer) : _NPTimer :=
  {| _isCancelled := _isCancelled o; _isSuspended := b; _unfair_lock := _unfair_lock o |}.
Definition set_unfair_lock (b : bool) (o : _NPTimer) : _NPTimer :=
  {| _isCancelled := _isCancelled o; _isSuspended := _isSuspended o; _unfair_lock := b |}.

Definition os_unfair_lock_lock (t : positive) : sources → option (bool * sources) :=
  on_object t (λ o, if _unfair_lock o then None else Some (true, set_unfair_lock true o)).
Definition os_unfair_lock_unlock (t : positive) : sources → option (bool * sources) :=
  store t (set_unfair_lock false).

(** How often the source is suspended: libdispatch counts one up for a suspend
    and one down for a resume. *)
Definition suspension (t : positive) (c : positive * dcall) : Z :=
  if decide (c = (t, dispatch_suspend)) then 1
  else if decide (c = (t, dispatch_resume)) then -1 else 0.
Definition suspensions (t : positive) (cs : list (positive * dcall)) : Z := zsum (suspension t) cs.

(** A resume of a source that is not suspended: libdispatch traps, which ends the
    process. *)
Definition over_resumes (t : positive) (d : dcall) (cs : list (positive * dcall)) : bool :=
  match d with dispatch_resume => suspensions t cs <=? 0 | _ => false end.

(** A call of libdispatch on the source; one that traps does not return. *)
Definition dispatch (t : positive) (d : dcall) (s : sources) : option (bool * sources) :=
  if over_resumes t d (calls s) then None
  else Some (true, {| timers := timers s; calls := calls s ++ [(t, d)] |}).

(** ** The object's methods *)

(** [-init] *)
Definition init : _NPTimer := {| _isCancelled := false; _isSuspended := false; _unfair_lock := false |}.

(** [-resume:] *)
Definition resume (t : positive) : code sources bool :=
  _ <~ os_unfair_lock_lock t;
  isExecutable <~ test t (λ o, negb (_isCancelled o) && _isSuspended o);
  cwhen isExecutable (act (store t (set_isSuspended false))) ;~
  act (os_unfair_lock_unlock t) ;~
  cwhen isExecutable (act (dispatch t dispatch_resume)).

(** [-suspend:] *)
Definition suspend (t : positive) : code sources bool :=
  _ <~ os_unfair_lock_lock t;
  isExecutable <~ test t (λ o, negb (_isCancelled o) && negb (_isSuspended o));
  cwhen isExecutable (act (store t (set_isSuspended true))) ;~
  act (os_unfair_lock_unlock t) ;~
  cwhen isExecutable (act (dispatch t dispatch_suspend)).

(** [-cancel:], from the end of its critical section on *)
Definition cancel_leave (t : positive) (isExecutable wasSuspended : bool) : code sources bool :=
  act (os_unfair_lock_unlock t) ;~
  cwhen isExecutable
    (act (dispatch t dispatch_source_cancel) ;~
     cwhen wasSuspended (act (dispatch t dispatch_resume))).

(** [-cancel:] *)
Definition cancel (t : positive) : code sources bool :=
  _ <~ os_unfair_lock_lock t;
  isExecutable <~ test t (λ o, negb (_isCancelled o));
  if isExecutable then
    _ <~ store t (set_isCancelled true);
    wasSuspended <~ test t _isSuspended;
    _ <~ store t (set_isSuspended false);
    cancel_leave t true wasSuspended
  else cancel_leave t false false.

(** ** The functions *)

(** [setAssociated] *)
Definition setAssociated (t : positive) (s : sources) : option (bool * sources) :=
  Some (true, {| timers := <[t:=init]> (timers s); calls := calls s |}).

(** [associated], and sending a message to its result, which may be [nil] *)
Definition associated (t : positive) (s : sources) : option (bool * sources) :=
  Some (bool_decide (is_Some (timers s !! t)), s).

Definition NPDispatchTimerResume (t : positive) : code sources bool :=
  found <~ associated t; cwhen found (resume t).
Definition NPDispatchTimerSuspend (t : positive) : code sources bool :=
  found <~ associated t; cwhen found (suspend t).
Definition NPDispatchTimerCancel (t : positive) : code sources bool :=
  found <~ associated t; cwhen found (cancel t).

(** Which source [dispatch_source_create] makes is up to libdispatch: a source
    nobody has. *)
Class Sources := {
  new_source : sources → positive;
  new_source_fresh s : timers s !! new_source s = None ∧ ∀ d, (new_source s, d) ∉ calls s;
}.

Definition NPDispatchTimer `{Sources} (dispatchQueue : option positive)
    (intervalInSeconds leewayInSeconds : double) (block : nat) : prog sources positive :=
  let target := match dispatchQueue with None => global_queue | Some q => client_queue q end in
  t ← gets new_source;
  run (act (dispatch t (dispatch_source_create target)));;
  interval ← of_option FUndefined (to_uint64 (nanoseconds intervalInSeconds));
  leeway ← of_option FUndefined (to_uint64 (nanoseconds leewayInSeconds));
  run (act (dispatch t (dispatch_source_set_timer DISPATCH_TIME_NOW interval leeway)));;
  run (act (dispatch t (dispatch_source_set_event_handler block)));;
  run (act (dispatch t dispatch_activate));;
  run (act (setAssociated t));;
  mret t.

(** ** Timers bound to an object *)

(** The blocks that wait for the deallocation of an object: a client's own, or
    the one [NPDispatchTimerObservable] attaches, which captures the timer. *)
Inductive block_t :=
| client_block (n : nat)
| cancel_block (t : positive).

Notation state := (objc block_t sources).

Definition set_rest (x : sources) (s : state) : state :=
  {| associations := associations s; monitors := monitors s; rest := x |}.

(** Timer code as a part of the whole program. *)
Fixpoint lift (c : code sources bool) : code state bool :=
  match c with
  | Ret => Ret
  | Act m k => Act (λ s, '(r, x) ← m (rest s); Some (r, set_rest x s)) (λ r, lift (k r))
  end.

Section Observable.
Context `{Sources} (client_code : nat → code state bool).

Definition call_block (b : block_t) : code state bool :=
  match b with
  | client_block n => client_code n
  | cancel_block t => lift (NPDispatchTimerCancel t)
  end.

Definition NPDispatchTimerObservable (observable dispatchQueue : option positive)
    (intervalInSeconds leewayInSeconds : double) (block : nat) : prog state positive :=
  t ← zoom rest set_rest (NPDispatchTimer dispatchQueue intervalInSeconds leewayInSeconds block);
  run (NPAttachDeallocationHandler call_block observable (cancel_block t));;
  mret t.
End Observable.

(** ** Clients *)

Inductive op := OResume | OSuspend | OCancel.

#[export] Instance op_eq_dec : EqDecision op.
Proof. solve_decision. Defined.

Definition op_code (t : positive) (o : op) : code sources bool :=
  match o with
  | OResume => NPDispatchTimerResume t
  | OSuspend => NPDispatchTimerSuspend t
  | OCancel => NPDispatchTimerCancel t
  end.

(** A thread that calls these functions on the timer, one after another. *)
Definition client (t : positive) (ops : list op) : code sources bool :=
  foldr (λ o c, op_code t o ;~ c) Ret ops.

(** ** What the calls on a source come to *)

Definition cancels (t : positive) (cs : list (positive * dcall)) : Z :=
  zsum (λ c, if decide (c = (t, dispatch_source_cancel)) then 1 else 0) cs.

(** ** A timer as a state machine *)

Inductive tstate := Running | Suspended | Cancelled.

Definition spec_step (st : tstate) (o : op) : tstate * list dcall :=
  match st, o with
  | Running, OSuspend => (Suspended, [dispatch_suspend])
  | Running, OCancel => (Cancelled, [dispatch_source_cancel])
  | Suspended, OResume => (Running, [dispatch_resume])
  | Suspended, OCancel => (Cancelled, [dispatch_source_cancel; dispatch_resume])
  | _, _ => (st, [])
  end.

Fixpoint spec_run (st : tstate) (ops : list op) : tstate * list dcall :=
  match ops with
  | [] => (st, [])
  | o :: ops =>
      let '(st', ds) := spec_step st o in
      let '(st'', ds') := spec_run st' ops in
      (st'', ds ++ ds')
  end.

#[export] Instance tstate_eq_dec : EqDecision tstate.
Proof. solve_decision. Defined.

Definition object_of (st : tstate) : _NPTimer :=
  {| _isCancelled := bool_decide (st = Cancelled);
     _isSuspended := bool_decide (st = Suspended);
     _unfair_lock := false |}.

(** ** Timers used from one thread *)

(** How deep a source is suspended in each state of the machine. *)
Definition level (st : tstate) : Z := if decide (st = Suspended) then 1 else 0.

Lemma suspensions_app t cs ds : suspensions t (cs ++ ds) = suspensions t cs + suspensions t ds.
Proof. apply zsum_app. Qed.

Lemma suspensions_fresh t cs : (∀ d, (t, d) ∉ cs) → suspensions t cs = 0.
Proof.
  intros H. apply zsum_zero. intros [t' d] Hel. unfold suspension.
  repeat case_decide; simplify_eq; try done; by destruct (H _ Hel).
Qed.

(** Of one operation: the calls never take the source below zero or above one,
    and leave it as deep as the state says. *)
Lemma spec_step_level t st o n :
  0 ≤ level st + suspensions t (take n ((t,.) <$> (spec_step st o).2)) ≤ 1 ∧
  level (spec_step st o).1 = level st + suspensions t ((t,.) <$> (spec_step st o).2).
Proof.
  destruct st, o, n as [|[|n]]; unfold level, suspensions, suspension; simpl; 
    rewrite ?take_nil; simpl; repeat case_decide; simplify_eq; lia.
Qed.

Lemma dispatch_run t d s : over_resumes t d (calls s) = false →
  dispatch t d s = Some (true, {| timers := timers s; calls := calls s ++ [(t, d)] |}).
Proof. intros H. unfold dispatch. by rewrite H. Qed.

Lemma suspension_other t t' d : d ≠ dispatch_suspend → d ≠ dispatch_resume → suspension t (t', d) = 0.
Proof. intros H1 H2. unfold suspension. repeat case_decide; by simplify_eq. Qed.

(** The calls of an operation on a source as deep as its state says do not trap. *)
Lemma level_resumes t st o s :
  suspensions t (calls s) = level st → (spec_step st o).2 ≠ [] → o ≠ OSuspend → st = Suspended →
  over_resumes t dispatch_resume (calls s) = false ∧
  over_resumes t dispatch_resume (calls s ++ [(t, dispatch_source_cancel)]) = false.
Proof.
  intros Hs _ _ ->. unfold level in Hs. simpl in Hs. unfold over_resumes. rewrite suspensions_app, Hs.
  unfold suspensions, zsum, foldr. by rewrite suspension_other.
Qed.

Lemma run_op t st o s :
  timers s !! t = Some (object_of st) → suspensions t (calls s) = level st →
  run (op_code t o) s =
    Done tt {| timers := <[t:=object_of (spec_step st o).1]> (timers s);
               calls := calls s ++ ((t,.) <$> (spec_step st o).2) |}.
Proof.
  intros Ht Hs.
  assert (st = Suspended → over_resumes t dispatch_resume (calls s) = false ∧
    over_resumes t dispatch_resume (calls s ++ [(t, dispatch_source_cancel)]) = false) as Hr
    by (intros ->; by apply (level_resumes t Suspended OCancel s)).
  destruct o, st; simpl; rewrite Ht;
    try (destruct (Hr eq_refl) as [Hr1 Hr2]);
    repeat first
      [ progress simpl | rewrite lookup_insert_eq | rewrite insert_insert_eq | rewrite Ht
      | progress unfold os_unfair_lock_lock, os_unfair_lock_unlock, test, store, on_object
      | rewrite dispatch_run by done ];
    rewrite ?app_nil_r, <-?(assoc_L (++)); done.
Qed.

Lemma run_client t st ops s :
  timers s !! t = Some (object_of st) → suspensions t (calls s) = level st →
  run (client t ops) s =
    Done tt {| timers := <[t:=object_of (spec_run st ops).1]> (timers s);
               calls := calls s ++ ((t,.) <$> (spec_run st ops).2) |}.
Proof.
  revert st s. induction ops as [|o ops IH]; intros st s Ht Hs; simpl.
  { rewrite insert_id, app_nil_r by done. by destruct s. }
  rewrite run_seq. unfold mbind, prog_bind. rewrite (run_op t st o s Ht Hs).
  rewrite (IH (spec_step st o).1).
  2: { simpl. apply lookup_insert_eq. }
  2: { simpl. rewrite suspensions_app, Hs. symmetry. apply (spec_step_level t st o 0). }
  simpl. rewrite insert_insert_eq, <-(assoc_L (++)), <-fmap_app.
  destruct (spec_step st o) as [st' ds]; simpl. by destruct (spec_run st' ops).
Qed.

Lemma spec_run_level t st ops n :
  0 ≤ level st + suspensions t (take n ((t,.) <$> (spec_run st ops).2)) ≤ 1 ∧
  level (spec_run st ops).1 = level st + suspensions t ((t,.) <$> (spec_run st ops).2).
Proof.
  revert st n. induction ops as [|o ops IH]; intros st n; simpl.
  { rewrite take_nil. unfold suspensions, level; simpl. case_decide; lia. }
  pose proof (spec_step_level t st o n) as [H1 H2].
  destruct (spec_step st o) as [st' ds]; simpl in *.
  pose proof (λ n, proj1 (IH st' n)) as IH1. pose proof (proj2 (IH st' 0%nat)) as IH2.
  destruct (spec_run st' ops) as [st'' ds']; simpl in *.
  rewrite fmap_app, take_app, !suspensions_app. split; [|lia].
  destruct (decide (n ≤ length ((t,.) <$> ds))%nat) as [Hn|Hn].
  - replace (n - length ((t,.) <$> ds))%nat with 0%nat by lia.
    change (suspensions t (take 0 ((t,.) <$> ds'))) with 0. lia.
  - rewrite (take_ge ((t,.) <$> ds)) by lia.
    specialize (IH1 (n - length ((t,.) <$> ds))%nat). lia.
Qed.

(** A cancelled machine makes no more calls; before that it cancels once. *)
Lemma spec_run_cancelled ops : spec_run Cancelled ops = (Cancelled, []).
Proof. induction ops as [|o ops IH]; simpl; [done|]. destruct o; by rewrite IH. Qed.

Lemma cancels_app t cs ds : cancels t (cs ++ ds) = cancels t cs + cancels t ds.
Proof. apply zsum_app. Qed.

Lemma cancels_fresh t cs : (∀ d, (t, d) ∉ cs) → cancels t cs = 0.
Proof.
  intros H. apply zsum_zero. intros [t' d] Hel.
  case_decide; [|done]. simplify_eq. by destruct (H _ Hel).
Qed.

Lemma spec_step_cancels t st o :
  st ≠ Cancelled →
  (o = OCancel → (spec_step st o).1 = Cancelled ∧ cancels t ((t,.) <$> (spec_step st o).2) = 1) ∧
  (o ≠ OCancel → (spec_step st o).1 ≠ Cancelled ∧ cancels t ((t,.) <$> (spec_step st o).2) = 0).
Proof.
  intros Hst. destruct st, o; try done; unfold cancels; simpl;
    repeat case_decide; simplify_eq; naive_solver lia.
Qed.

Lemma spec_run_cancels t st ops :
  st ≠ Cancelled →
  cancels t ((t,.) <$> (spec_run st ops).2) = if decide (OCancel ∈ ops) then 1 else 0.
Proof.
  revert st. induction ops as [|o ops IH]; intros st Hst; cbn [spec_run]; [done|].
  destruct (spec_step_cancels t st o Hst) as [Hc Hn].
  destruct (spec_step st o) as [st' ds]; simpl in *.
  destruct (decide (o = OCancel)) as [->|Ho].
  - destruct (Hc eq_refl) as [-> Hds].
    rewrite spec_run_cancelled, decide_True by (by left). simpl. by rewrite app_nil_r.
  - destruct (Hn Ho) as [Hst' Hds]. specialize (IH st' Hst').
    destruct (spec_run st' ops) as [st'' ds']; simpl in *.
    rewrite fmap_app, cancels_app, Hds, IH. simpl.
    apply decide_ext. rewrite elem_of_cons. naive_solver.
Qed.

Definition target_of (dispatchQueue : option positive) : queue :=
  match dispatchQueue with None => global_queue | Some q => client_queue q end.

(** The calls that set a timer up. *)
Definition creation (dispatchQueue : option positive) (interval leeway : Z) (block : nat) : list dcall :=
  [dispatch_source_create (target_of dispatchQueue);
   dispatch_source_set_timer DISPATCH_TIME_NOW interval leeway;
   dispatch_source_set_event_handler block;
   dispatch_activate].
Arguments creation : simpl never.

Lemma NPDispatchTimer_run `{Sources} q i l block s interval leeway :
  to_uint64 (nanoseconds i) = Some interval → to_uint64 (nanoseconds l) = Some leeway →
  NPDispatchTimer q i l block s =
    Done (new_source s)
      {| timers := <[new_source s:=object_of Running]> (timers s);
         calls := calls s ++ ((new_source s,.) <$> creation q interval leeway block) |}.
Proof.
  intros Hi Hl. unfold NPDispatchTimer, gets, mbind, prog_bind, of_option.
  simpl. rewrite Hi, Hl. simpl. by rewrite <-!(assoc_L (++)).
Qed.

(** At no point below zero or above one. *)
Definition banded (t : positive) (cs : list (positive * dcall)) : Prop :=
  ∀ n, 0 ≤ suspensions t (take n cs) ≤ 1.

Lemma banded_app t cs ds :
  banded t cs → suspensions t cs = 0 → banded t ds → banded t (cs ++ ds).
Proof.
  intros Hc H0 Hd n. rewrite take_app, suspensions_app.
  destruct (decide (n ≤ length cs)%nat) as [Hn|Hn].
  - replace (n - length cs)%nat with 0%nat by lia.
    change (suspensions t (take 0 ds)) with 0. specialize (Hc n). lia.
  - rewrite take_ge by lia. specialize (Hd (n - length cs)%nat). lia.
Qed.

(** Calls of which none suspends or resumes the source. *)
Lemma banded_zero t cs :
  (∀ c, c ∈ cs → suspension t c = 0) → banded t cs ∧ suspensions t cs = 0.
Proof.
  intros H. split; [|by apply zsum_zero].
  intros n. unfold suspensions. rewrite zsum_zero; [lia|].
  intros c Hc. apply H. by apply (subseteq_take n).
Qed.

Lemma creation_zero t q interval leeway block c :
  c ∈ (t,.) <$> creation q interval leeway block → suspension t c = 0.
Proof.
  unfold creation; simpl. rewrite !elem_of_cons. unfold suspension.
  intros [->|[->|[->|[->|H]]]]; [..|by apply not_elem_of_nil in H];
    repeat case_decide; by simplify_eq.
Qed.

Lemma fresh_zero t (cs : list (positive * dcall)) c : (∀ d, (t, d) ∉ cs) → c ∈ cs → suspension t c = 0.
Proof.
  intros Hn Hc. unfold suspension. destruct c as [t' d].
  repeat case_decide; simplify_eq; try done; by destruct (Hn _ Hc).
Qed.

(** The calls of the whole life of a timer. *)
Lemma created_calls t cs q interval leeway block ops :
  (∀ d, (t, d) ∉ cs) →
  let all := cs ++ ((t,.) <$> creation q interval leeway block ++ (spec_run Running ops).2) in
  banded t all ∧ suspensions t all = level (spec_run Running ops).1 ∧
  cancels t all = if decide (OCancel ∈ ops) then 1 else 0.
Proof.
  intros Hfresh. cbn zeta.
  destruct (banded_zero t cs) as [Hb0 Hz0]; [by eauto using fresh_zero|].
  destruct (banded_zero t ((t,.) <$> creation q interval leeway block))
    as [Hb1 Hz1]; [intros; by eapply creation_zero|].
  rewrite fmap_app, (assoc_L (++)), !suspensions_app, !cancels_app.
  split; [|split].
  - apply banded_app; [by apply banded_app|rewrite suspensions_app; lia|].
    intros n. pose proof (proj1 (spec_run_level t Running ops n)) as Hl'.
    unfold level in Hl'. simpl in Hl'. lia.
  - pose proof (proj2 (spec_run_level t Running ops 0)) as Hl'.
    unfold level in *. simpl in Hl'. lia.
  - rewrite (cancels_fresh _ cs), spec_run_cancels by done.
    unfold cancels, creation; simpl. repeat case_decide; simplify_eq; lia.
Qed.

(** A source that has just been set up is not suspended. *)
Lemma created_level t cs q interval leeway block : (∀ d, (t, d) ∉ cs) →
  suspensions t (cs ++ ((t,.) <$> creation q interval leeway block)) = level Running.
Proof.
  intros Hf. destruct (created_calls t cs q interval leeway block [] Hf) as (_ & Hs & _).
  cbn [spec_run fst snd] in Hs. by rewrite app_nil_r in Hs.
Qed.

(** A timer that one thread creates and then resumes, suspends and cancels
    in any order makes exactly the calls of the state machine: nothing for an
    operation that changes nothing, and a cancel of a suspended timer resumes
    the source after cancelling it, so that it can be reclaimed.  At no point is
    the source resumed more often than suspended, nor suspended twice, and in
    the end it is suspended just when the machine is. *)
Theorem timer_correct `{Sources} q i l block ops s interval leeway :
  to_uint64 (nanoseconds i) = Some interval → to_uint64 (nanoseconds l) = Some leeway →
  wp (t ← NPDispatchTimer q i l block; run (client t ops);; mret t)
    (λ t s',
      calls s' = calls s ++ ((t,.) <$> creation q interval leeway block ++ (spec_run Running ops).2) ∧
      timers s' = <[t:=object_of (spec_run Running ops).1]> (timers s) ∧
      banded t (calls s') ∧
      suspensions t (calls s') = (if decide ((spec_run Running ops).1 = Suspended) then 1 else 0) ∧
      cancels t (calls s') = (if decide (OCancel ∈ ops) then 1 else 0)) s.
Proof.
  intros Hi Hl. unfold wp, mbind, prog_bind.
  rewrite (NPDispatchTimer_run q i l block s interval leeway Hi Hl).
  rewrite (run_client _ Running)
    by (simpl; first [apply lookup_insert_eq | apply created_level, new_source_fresh]).
  cbn [timers calls mret prog_ret].
  destruct (created_calls (new_source s) (calls s) q interval leeway block ops) as (Hb & Hs & Hc);
    [apply new_source_fresh|].
  by rewrite <-(assoc_L (++)), <-fmap_app, insert_insert_eq.
Qed.

(** Sources numbered by the first number not in use. *)
Definition used_sources (s : sources) : gset positive :=
  dom (timers s) ∪ list_to_set (calls s).*1.

#[export] Instance numbered_sources : Sources.
Proof.
  refine {| new_source s := fresh (used_sources s) |}.
  intros s. pose proof (is_fresh (used_sources s)) as H. unfold used_sources in *.
  split; [apply not_elem_of_dom; set_solver|].
  intros d Hd. apply H, elem_of_union_r, elem_of_list_to_set.
  by apply (list_elem_of_fmap_2 fst) in Hd.
Defined.

Definition no_sources : sources := {| timers := ∅; calls := [] |}.
Definition demo_ops : list op := [OSuspend; OSuspend; OResume; OResume; OSuspend; OCancel; OSuspend].

Lemma timer_correct_witness :
  to_uint64 (nanoseconds (of_int 1)) = Some 1000000000 ∧
  to_uint64 (nanoseconds (of_int 0)) = Some 0 ∧
  wp (t ← NPDispatchTimer None (of_int 1) (of_int 0) 7; run (client t demo_ops);; mret t)
    (λ t s', calls s' = (t,.) <$> creation None 1000000000 0 7 ++
        [dispatch_suspend; dispatch_resume; dispatch_suspend; dispatch_source_cancel; dispatch_resume]
      ∧ suspensions t (calls s') = 0) no_sources.
Proof.
  assert (to_uint64 (nanoseconds (of_int 1)) = Some 1000000000) as H1 by (vm_compute; reflexivity).
  assert (to_uint64 (nanoseconds (of_int 0)) = Some 0) as H0 by (vm_compute; reflexivity).
  split; [exact H1|]. split; [exact H0|].
  eapply wp_mono; [exact (timer_correct None (of_int 1) (of_int 0) 7 demo_ops no_sources _ _ H1 H0)|].
  intros t s' (Hc & _ & _ & Hs & _). split; [exact Hc|exact Hs].
Defined.

(** ** Timers used from several threads *)

(** Where a thread of [client] can stand: [SCall] with calls it still owes the
    source, its lock released; about to lock; and, with the lock held, about to
    test, to write, to read the old flag, to clear it, and to unlock. *)
Inductive stage :=
| SCall (ds : list dcall)
| SLock (o : op)
| STest (o : op)
| SSet (o : op)
| SRead
| SClear (was : bool)
| SLeave (o : op) (isExecutable was : bool).

Notation phase := (stage * list op)%type.

(** The calls a thread makes after its critical section. *)
Definition owed (o : op) (isExecutable was : bool) : list dcall :=
  if isExecutable then
    match o with
    | OResume => [dispatch_resume]
    | OSuspend => [dispatch_suspend]
    | OCancel => dispatch_source_cancel :: if was then [dispatch_resume] else []
    end
  else [].

Definition dispatch_all (t : positive) (ds : list dcall) : code sources bool :=
  foldr (λ d c, act (dispatch t d) ;~ c) Ret ds.

Definition leave_code (t : positive) (o : op) (isExecutable was : bool) : code sources bool :=
  match o with
  | OResume => act (os_unfair_lock_unlock t) ;~ cwhen isExecutable (act (dispatch t dispatch_resume))
  | OSuspend => act (os_unfair_lock_unlock t) ;~ cwhen isExecutable (act (dispatch t dispatch_suspend))
  | OCancel => cancel_leave t isExecutable was
  end.

Definition stage_code (t : positive) (g : stage) : code sources bool :=
  match g with
  | SCall ds => dispatch_all t ds
  | SLock o => match o with OResume => resume t | OSuspend => suspend t | OCancel => cancel t end
  | STest OResume =>
      isExecutable <~ test t (λ o, negb (_isCancelled o) && _isSuspended o);
      cwhen isExecutable (act (store t (set_isSuspended false))) ;~ leave_code t OResume isExecutable false
  | STest OSuspend =>
      isExecutable <~ test t (λ o, negb (_isCancelled o) && negb (_isSuspended o));
      cwhen isExecutable (act (store t (set_isSuspended true))) ;~ leave_code t OSuspend isExecutable false
  | STest OCancel =>
      isExecutable <~ test t (λ o, negb (_isCancelled o));
      if isExecutable then
        _ <~ store t (set_isCancelled true);
        wasSuspended <~ test t _isSuspended;
        _ <~ store t (set_isSuspended false);
        cancel_leave t true wasSuspended
      else cancel_leave t false false
  | SSet OResume => act (store t (set_isSuspended false)) ;~ leave_code t OResume true false
  | SSet OSuspend => act (store t (set_isSuspended true)) ;~ leave_code t OSuspend true false
  | SSet OCancel =>
      _ <~ store t (set_isCancelled true);
      wasSuspended <~ test t _isSuspended;
      _ <~ store t (set_isSuspended false);
      cancel_leave t true wasSuspended
  | SRead =>
      wasSuspended <~ test t _isSuspended;
      _ <~ store t (set_isSuspended false);
      cancel_leave t true wasSuspended
  | SClear was => _ <~ store t (set_isSuspended false); cancel_leave t true was
  | SLeave o isExecutable was => leave_code t o isExecutable was
  end.

Definition code_of (t : positive) (ph : phase) : code sources bool :=
  stage_code t ph.1 ;~ client t ph.2.

(** Whether an operation has something to do. *)
Definition executable (o : op) (ob : _NPTimer) : bool :=
  match o with
  | OResume => negb (_isCancelled ob) && _isSuspended ob
  | OSuspend => negb (_isCancelled ob) && negb (_isSuspended ob)
  | OCancel => negb (_isCancelled ob)
  end.

(** The steps that read and write the object. *)
Inductive ostep : stage → _NPTimer → stage → _NPTimer → Prop :=
| o_lock o ob : _unfair_lock ob = false → ostep (SLock o) ob (STest o) (set_unfair_lock true ob)
| o_test_true o ob : executable o ob = true → ostep (STest o) ob (SSet o) ob
| o_test_false o ob : executable o ob = false → ostep (STest o) ob (SLeave o false false) ob
| o_set_resume ob : ostep (SSet OResume) ob (SLeave OResume true false) (set_isSuspended false ob)
| o_set_suspend ob : ostep (SSet OSuspend) ob (SLeave OSuspend true false) (set_isSuspended true ob)
| o_set_cancel ob : ostep (SSet OCancel) ob SRead (set_isCancelled true ob)
| o_read ob : ostep SRead ob (SClear (_isSuspended ob)) ob
| o_clear was ob : ostep (SClear was) ob (SLeave OCancel true was) (set_isSuspended false ob)
| o_leave o b was ob : ostep (SLeave o b was) ob (SCall (owed o b was)) (set_unfair_lock false ob).

Inductive pstep (t : positive) : phase → sources → phase → sources → Prop :=
| p_call d ds ops s : over_resumes t d (calls s) = false →
    pstep t (SCall (d :: ds), ops) s (SCall ds, ops) {| timers := timers s; calls := calls s ++ [(t, d)] |}
| p_begin o ops s :
    is_Some (timers s !! t) → pstep t (SCall [], o :: ops) s (SLock o, ops) s
| p_nil o ops s :
    timers s !! t = None → pstep t (SCall [], o :: ops) s (SCall [], ops) s
| p_object g ops s ob g' ob' :
    timers s !! t = Some ob → ostep g ob g' ob' →
    pstep t (g, ops) s (g', ops) {| timers := <[t:=ob']> (timers s); calls := calls s |}.

Lemma on_object_inv t f s r s' :
  on_object t f s = Some (r, s') →
  ∃ ob ob', timers s !! t = Some ob ∧ f ob = Some (r, ob') ∧
    s' = {| timers := <[t:=ob']> (timers s); calls := calls s |}.
Proof.
  unfold on_object. intros H. apply bind_Some in H as (ob & Hob & H).
  apply bind_Some in H as ([b ob'] & Hf & [= <- <-]). by exists ob, ob'.
Qed.

Lemma pstep_complete t ph m k r s s' :
  code_of t ph = Act m k → m s = Some (r, s') →
  ∃ ph', k r = code_of t ph' ∧ pstep t ph s ph' s'.
Proof.
  destruct ph as [g ops]. unfold code_of; simpl.
  destruct g as [[|d ds]|[]|[]|[]| |was|[] b was]; simpl.
  { destruct ops as [|o ops]; [done|]. destruct o; simpl; intros [= <- <-];
      unfold associated; intros [= <- <-]; case_bool_decide as Ht; simpl;
      try (exists (SCall [], ops); split; [done|]; apply p_nil; by apply eq_None_not_Some).
    - exists (SLock OResume, ops). split; [done|by apply p_begin].
    - exists (SLock OSuspend, ops). split; [done|by apply p_begin].
    - exists (SLock OCancel, ops). split; [done|by apply p_begin]. }
  { intros [= <- <-] Hm. unfold dispatch in Hm. destruct (over_resumes t d (calls s)) eqn:Ho; [done|].
    injection Hm as <- <-. exists (SCall ds, ops). split; [done|by apply p_call]. }
  all: intros [= <- <-] Hm; apply on_object_inv in Hm as (ob & ob' & Hob & Hf & ->).
  1-3: destruct (_unfair_lock ob) eqn:Hl; [done|]; injection Hf as <- <-;
    eexists (STest _, ops); split; [|eapply p_object; [done|by constructor]]; done.
  all: injection Hf as <- <-.
  - change (negb (_isCancelled ob) && _isSuspended ob) with (executable OResume ob).
    destruct (executable OResume ob) eqn:He;
      [exists (SSet OResume, ops)|exists (SLeave OResume false false, ops)];
      (split; [done|]); (eapply p_object; [done|by constructor]).
  - change (negb (_isCancelled ob) && negb (_isSuspended ob)) with (executable OSuspend ob).
    destruct (executable OSuspend ob) eqn:He;
      [exists (SSet OSuspend, ops)|exists (SLeave OSuspend false false, ops)];
      (split; [done|]); (eapply p_object; [done|by constructor]).
  - change (negb (_isCancelled ob)) with (executable OCancel ob).
    destruct (executable OCancel ob) eqn:He;
      [exists (SSet OCancel, ops)|exists (SLeave OCancel false false, ops)];
      (split; [done|]); (eapply p_object; [done|by constructor]).
  - eexists (_, ops); split; [|eapply p_object; [done|apply o_set_resume]]; done.
  - eexists (_, ops); split; [|eapply p_object; [done|apply o_set_suspend]]; done.
  - eexists (_, ops); split; [|eapply p_object; [done|apply o_set_cancel]]; done.
  - eexists (_, ops); split; [|eapply p_object; [done|apply o_read]]; done.
  - eexists (_, ops); split; [|eapply p_object; [done|apply o_clear]]; done.
  - eexists (_, ops); split; [|eapply p_object; [done|apply o_leave]]. by destruct b.
  - eexists (_, ops); split; [|eapply p_object; [done|apply o_leave]]. by destruct b.
  - eexists (_, ops); split; [|eapply p_object; [done|apply o_leave]]. by destruct b, was.
Qed.

(** ** The invariant of the threads *)

Definition b2z (b : bool) : Z := if b then 1 else 0.

(** Whether a thread holds the lock. *)
Definition holds (ph : phase) : Z :=
  match ph.1 with SCall _ | SLock _ => 0 | _ => 1 end.

(** What the calls a thread still owes come to. *)
Definition owes_suspension (t : positive) (ph : phase) : Z :=
  match ph.1 with
  | SCall ds => suspensions t ((t,.) <$> ds)
  | SLeave o b was => suspensions t ((t,.) <$> owed o b was)
  | _ => 0
  end.
Definition owes_cancel (t : positive) (ph : phase) : Z :=
  match ph.1 with
  | SCall ds => cancels t ((t,.) <$> ds)
  | SLeave o b was => cancels t ((t,.) <$> owed o b was)
  | SRead | SClear _ => 1
  | _ => 0
  end.

(** Whether a thread has cancelled and is about to clear the other flag. *)
Definition clears (ph : phase) : Z :=
  match ph.1 with SRead | SClear _ => 1 | _ => 0 end.

(** How many cancels a thread has not come to yet. *)
Definition is_cancel (o : op) : Z := if o is OCancel then 1 else 0.
Definition wants (ph : phase) : Z :=
  match ph.1 with SLock o | STest o | SSet o => is_cancel o | _ => 0 end + zsum is_cancel ph.2.

(** What a thread can still owe once it has released the lock. *)
Definition tidy (ds : list dcall) : Prop :=
  ds ∈ [[]; [dispatch_suspend]; [dispatch_resume]; [dispatch_source_cancel];
        [dispatch_source_cancel; dispatch_resume]].

(** What a thread knows: of its calls, and about the object if it holds the lock. *)
Definition knows (ph : phase) (ob : _NPTimer) : Prop :=
  match ph.1 with
  | SCall ds => tidy ds
  | SSet o => executable o ob = true
  | SRead => _isCancelled ob = true
  | SClear was => _isCancelled ob = true ∧ was = _isSuspended ob
  | _ => True
  end.

Record timer_inv (t : positive) (total : Z) (phs : list phase) (s : sources) (ob : _NPTimer) : Prop := {
  ti_object : timers s !! t = Some ob;
  ti_lock : zsum holds phs = b2z (_unfair_lock ob);
  ti_knows : ∀ i ph, phs !! i = Some ph → knows ph ob;
  ti_suspended : suspensions t (calls s) + zsum (owes_suspension t) phs = b2z (_isSuspended ob);
  ti_cancelled : cancels t (calls s) + zsum (owes_cancel t) phs = b2z (_isCancelled ob);
  ti_clears : b2z (_isCancelled ob && _isSuspended ob) ≤ zsum clears phs;
  ti_wants : zsum wants phs ≤ total;
  ti_wants_all : _isCancelled ob = false → zsum wants phs = total;
  ti_total : _isCancelled ob = true → 1 ≤ total;
}.

Lemma holds_nonneg ph : 0 ≤ holds ph.
Proof. destruct ph as [[]]; unfold holds; simpl; lia. Qed.

Lemma clears_nonneg ph : 0 ≤ clears ph.
Proof. destruct ph as [[]]; unfold clears; simpl; lia. Qed.

Lemma wants_nonneg ph : 0 ≤ wants ph.
Proof.
  unfold wants. assert (0 ≤ zsum is_cancel ph.2) by (apply zsum_nonneg; intros [] _; simpl; lia).
  destruct ph as [[| [] | [] | [] | | |]]; simpl in *; lia.
Qed.

(** A step that is not taken under the lock leaves the object of the holder alone. *)
Lemma ostep_frame g ops ob g' ob' :
  ostep g ob g' ob' → holds (g, ops) = 0 → _unfair_lock ob = false.
Proof. by destruct 1. Qed.

Lemma ostep_knows g ops ob g' ob' :
  ostep g ob g' ob' → knows (g, ops) ob → knows (g', ops) ob'.
Proof.
  destruct 1; try done. intros _. unfold knows, tidy; simpl.
  destruct b; [|by left]. destruct o; simpl; [..|destruct was]; set_solver.
Qed.

Lemma tidy_tail d ds : tidy (d :: ds) → tidy ds.
Proof.
  unfold tidy. rewrite !elem_of_cons.
  intros [H|[H|[H|[H|[H|H]]]]]; [done|..|by apply not_elem_of_nil in H]; injection H as _ ->; set_solver.
Qed.

Lemma timer_inv_knows t total phs s ob i g ops g' ob' :
  timer_inv t total phs s ob → phs !! i = Some (g, ops) → ostep g ob g' ob' →
  ∀ j ph, <[i:=(g', ops)]> phs !! j = Some ph → knows ph ob'.
Proof.
  intros [_ Hlock Hknows _ _ _ _ _ _] Hi Hstep j ph Hj.
  destruct (decide (i = j)) as [<-|Hij].
  { rewrite list_lookup_insert_eq in Hj by (by eapply lookup_lt_Some).
    injection Hj as <-. eapply ostep_knows; [done|by eapply Hknows]. }
  rewrite list_lookup_insert_ne in Hj by done.
  pose proof (zsum_lookup_2 _ _ _ _ _ _ holds_nonneg Hij Hi Hj) as Hle.
  pose proof (zsum_lookup _ _ _ _ holds_nonneg Hj) as Hle1.
  pose proof (Hknows _ _ Hj) as Hk. destruct (holds (g, ops)) eqn:Hg.
  - apply (ostep_frame _ ops) in Hstep; [|done]. rewrite Hstep in Hlock. simpl in Hlock.
    destruct ph as [[]]; unfold holds in *; simpl in *; try done; lia.
  - assert (holds ph = 0) as Hz.
    { pose proof (holds_nonneg ph). destruct (_unfair_lock ob); simpl in Hlock; lia. }
    by destruct ph as [[]].
  - pose proof (holds_nonneg (g, ops)). lia.
Qed.

(** A step on the object moves the accounts of the thread as it moves the flags. *)
Lemma ostep_accounts t g ops ob g' ob' :
  ostep g ob g' ob' → knows (g, ops) ob → (holds (g, ops) = 1 → _unfair_lock ob = true) →
  holds (g', ops) - holds (g, ops) = b2z (_unfair_lock ob') - b2z (_unfair_lock ob) ∧
  owes_suspension t (g', ops) - owes_suspension t (g, ops) =
    b2z (_isSuspended ob') - b2z (_isSuspended ob) ∧
  owes_cancel t (g', ops) - owes_cancel t (g, ops) =
    b2z (_isCancelled ob') - b2z (_isCancelled ob) ∧
  (_isCancelled ob' && _isSuspended ob' = false ∨
   b2z (_isCancelled ob' && _isSuspended ob') - clears (g', ops) ≤
     b2z (_isCancelled ob && _isSuspended ob) - clears (g, ops)).
Proof.
  intros Hstep Hk Hl. destruct Hstep; unfold holds, owes_suspension, owes_cancel, clears, knows in *;
    simpl in *; rewrite ?Hl by done.
  all: try rewrite H; unfold suspensions, cancels, suspension.
  all: destruct ob as [c sp l]; unfold executable in *; simpl in *.
  all: repeat split; try done; try lia.
  all: try match type of Hk with _ ∧ _ => destruct Hk as [Hc ->] end;
    destruct c, sp; try done; simpl in *; repeat case_decide; simplify_eq;
    first [lia | by left | right; lia].
Qed.

Lemma ostep_wants g ops ob g' ob' :
  ostep g ob g' ob' → knows (g, ops) ob →
  wants (g', ops) ≤ wants (g, ops) ∧
  (_isCancelled ob' = false → _isCancelled ob = false ∧ wants (g', ops) = wants (g, ops)) ∧
  (_isCancelled ob' = true → _isCancelled ob = true ∨ 1 ≤ wants (g, ops)).
Proof.
  intros Hstep Hk. pose proof (wants_nonneg (SCall [], ops)) as Hops.
  destruct Hstep; unfold wants, knows in *; simpl in *;
    try (destruct o; unfold executable in *; simpl in *);
    destruct ob as [[] [] l]; simpl in *; try done; repeat split; intros; try done; try lia;
    first [by left|right; lia].
Qed.

(** A step that leaves the object alone: a call that was owed is made, or the
    next operation begins. *)
Lemma timer_inv_quiet t total phs s ob i ph ph' s' :
  phs !! i = Some ph → timer_inv t total phs s ob →
  timers s' = timers s → holds ph = 0 → holds ph' = 0 → knows ph' ob →
  suspensions t (calls s') + owes_suspension t ph' = suspensions t (calls s) + owes_suspension t ph →
  cancels t (calls s') + owes_cancel t ph' = cancels t (calls s) + owes_cancel t ph →
  wants ph' = wants ph →
  timer_inv t total (<[i:=ph']> phs) s' ob.
Proof.
  intros Hi [Hob Hlock Hknows Hsusp Hcanc Hclear Hw Hwa Ht] Htm H0 H0' Hk' Hs Hc Hwp.
  assert (clears ph = 0 ∧ clears ph' = 0) as [Hcl Hcl'] by (by destruct ph as [[]], ph' as [[]]).
  split; rewrite ?(zsum_insert _ _ _ _ _ Hi); rewrite ?Htm; try done; try lia.
  - intros j ph2 Hj. destruct (decide (i = j)) as [<-|Hij].
    + rewrite list_lookup_insert_eq in Hj by (by eapply lookup_lt_Some).
      by injection Hj as <-.
    + rewrite list_lookup_insert_ne in Hj by done. by eapply Hknows.
  - intros Hf. specialize (Hwa Hf). lia.
Qed.

Lemma timer_inv_object t total phs s ob i g ops g' ob' :
  phs !! i = Some (g, ops) → timer_inv t total phs s ob → ostep g ob g' ob' →
  timer_inv t total (<[i:=(g', ops)]> phs)
    {| timers := <[t:=ob']> (timers s); calls := calls s |} ob'.
Proof.
  intros Hi Hinv Hstep.
  pose proof (timer_inv_knows _ _ _ _ _ _ _ _ _ _ Hinv Hi Hstep) as Hk.
  destruct Hinv as [Hob Hlock Hknows Hsusp Hcanc Hclear Hw Hwa Ht].
  pose proof (Hknows _ _ Hi) as Hki.
  assert (holds (g, ops) = 1 → _unfair_lock ob = true) as Hl.
  { intros H1. pose proof (zsum_lookup _ _ _ _ holds_nonneg Hi).
    destruct (_unfair_lock ob); simpl in *; [done|lia]. }
  destruct (ostep_accounts t g ops ob g' ob' Hstep Hki Hl) as (A1 & A2 & A3 & A4).
  destruct (ostep_wants g ops ob g' ob' Hstep Hki) as (W1 & W2 & W3).
  pose proof (zsum_lookup _ _ _ _ wants_nonneg Hi) as Hwi.
  split; rewrite ?(zsum_insert _ _ _ _ _ Hi); simpl; try done; try lia.
  - apply lookup_insert_eq.
  - destruct A4 as [->|A4]; [|lia]. simpl.
    rewrite <-(zsum_insert clears _ _ _ (g', ops) Hi).
    apply zsum_nonneg. intros x _. apply clears_nonneg.
  - intros Hf. destruct (W2 Hf) as [Hf' ?]. specialize (Hwa Hf'). lia.
  - intros Hf. destruct (W3 Hf) as [Hf'|Hf']; [by apply Ht|lia].
Qed.

Lemma timer_inv_step t total phs s i ph ph' s' :
  phs !! i = Some ph → pstep t ph s ph' s' →
  (∃ ob, timer_inv t total phs s ob) → ∃ ob, timer_inv t total (<[i:=ph']> phs) s' ob.
Proof.
  intros Hi Hstep [ob Hinv]. destruct Hstep as [d ds ops s _|o ops s Hex|o ops s Hno|g ops s ob1 g' ob' Hob Ho].
  - pose proof (ti_knows _ _ _ _ _ Hinv _ _ Hi) as Hk. apply tidy_tail in Hk.
    exists ob. eapply timer_inv_quiet; [done..| | |done]; cbn [calls].
    + change (owes_suspension t (SCall (d :: ds), ops)) with (suspensions t ([(t, d)] ++ ((t,.) <$> ds))).
      change (owes_suspension t (SCall ds, ops)) with (suspensions t ((t,.) <$> ds)).
      rewrite !suspensions_app. lia.
    + change (owes_cancel t (SCall (d :: ds), ops)) with (cancels t ([(t, d)] ++ ((t,.) <$> ds))).
      change (owes_cancel t (SCall ds, ops)) with (cancels t ((t,.) <$> ds)).
      rewrite !cancels_app. lia.
  - exists ob. by eapply timer_inv_quiet.
  - pose proof (ti_object _ _ _ _ _ Hinv). congruence.
  - pose proof (ti_object _ _ _ _ _ Hinv). simplify_eq. exists ob'. by eapply timer_inv_object.
Qed.

(** ** Running to the end *)

Definition weight (ph : phase) : nat :=
  match ph.1 with
  | SCall ds => length ds
  | SLeave _ _ _ => 3
  | SClear _ => 4
  | SRead => 5
  | SSet _ => 6
  | STest _ => 7
  | SLock _ => 8
  end + 9 * length ph.2.

Lemma pstep_weight t ph s ph' s' : pstep t ph s ph' s' → (weight ph' < weight ph)%nat.
Proof.
  destruct 1 as [| | |g ops s ob g' ob' _ Ho]; unfold weight; simpl; try lia.
  destruct Ho as [| | | | | | | |o b was]; simpl; try lia.
  destruct o, b, was; simpl; lia.
Qed.

Lemma code_of_ret t ph : code_of t ph = Ret → ph = (SCall [], []).
Proof.
  destruct ph as [g ops]. unfold code_of; simpl.
  destruct g as [[|d ds]|[]|[]|[]| |was|[] b was]; simpl; try done.
  by destruct ops as [|[] ops].
Qed.

(** Whether the next step is a resume of a source that is not suspended. *)
Definition trapping (t : positive) (s : sources) (ph : phase) : bool :=
  match ph.1 with SCall (d :: _) => over_resumes t d (calls s) | _ => false end.

(** Every thread that has code left can go on, unless it waits for the lock or its
    call traps. *)
Lemma code_of_steps t ph s ob :
  timers s !! t = Some ob → ph ≠ (SCall [], []) → trapping t s ph = false →
  (_unfair_lock ob = false ∨ holds ph = 1) →
  ∃ m k r s', code_of t ph = Act m k ∧ m s = Some (r, s').
Proof.
  intros Hob Hne Htr Hl. destruct ph as [g ops]. unfold code_of; simpl.
  destruct g as [[|d ds]|o|o| o | |was|o b was].
  - destruct ops as [|o ops]; [done|].
    destruct o; simpl; eexists _, _, _, _; split; done.
  - simpl. eexists _, _, _, _; (split; [done|]). by apply dispatch_run.
  - destruct Hl as [Hl|Hl]; [|done]. assert (os_unfair_lock_lock t s =
      Some (true, {| timers := <[t:=set_unfair_lock true ob]> (timers s); calls := calls s |})) as Hs.
    { unfold os_unfair_lock_lock, on_object. rewrite Hob. simpl. by rewrite Hl. }
    destruct o; simpl; eexists _, _, _, _; (split; [done|exact Hs]).
  - destruct o; simpl; eexists _, _, _, _; (split; [done|]);
      unfold test, on_object; rewrite Hob; done.
  - destruct o; simpl; eexists _, _, _, _; (split; [done|]);
      unfold store, on_object; rewrite Hob; done.
  - simpl; eexists _, _, _, _; (split; [done|]); unfold test, on_object; rewrite Hob; done.
  - simpl; eexists _, _, _, _; (split; [done|]); unfold store, on_object; rewrite Hob; done.
  - destruct o; simpl; eexists _, _, _, _; (split; [done|]);
      unfold os_unfair_lock_unlock, store, on_object; rewrite Hob; done.
Qed.

Lemma find_phase (p : phase → bool) (phs : list phase) :
  (∃ i ph, phs !! i = Some ph ∧ p ph = true) ∨ (∀ i ph, phs !! i = Some ph → p ph = false).
Proof.
  induction phs as [|ph phs IH]; [by right|].
  destruct (p ph) eqn:Hp; [left; by exists 0%nat, ph|].
  destruct IH as [(i & ph' & H)|H]; [left; by exists (S i), ph'|].
  right. intros [|i] ph'; simpl; [by intros [= <-]|by apply H].
Qed.

Definition is_end (ph : phase) : bool :=
  match ph with (SCall [], []) => true | _ => false end.

(** A thread that has marked the timer suspended and not yet made the call. *)
Definition suspending (ph : phase) : Prop :=
  ph.1 = SCall [dispatch_suspend] ∨ ∃ was, ph.1 = SLeave OSuspend true was.

Lemma owes_positive t ph ob : knows ph ob → 0 < owes_suspension t ph → suspending ph.
Proof.
  destruct ph as [[ds|o|o|o| |was|o b was] ops]; unfold knows, owes_suspension; simpl; try done.
  - unfold tidy. rewrite !elem_of_cons. unfold suspensions.
    intros [->|[->|[->|[->|[->|H]]]]]; [..|by apply not_elem_of_nil in H];
      simpl; unfold suspension; repeat case_decide; simplify_eq; by left.
  - intros _. right. exists was. unfold suspensions in *.
    destruct o, b, was; simpl in *; unfold suspension in *; repeat case_decide; simplify_eq; done.
Qed.

(** A resume can only trap while another thread is about to make its suspend. *)
Lemma trapping_race t total phs s ob i ph :
  timer_inv t total phs s ob → phs !! i = Some ph → trapping t s ph = true →
  ∃ j ph', phs !! j = Some ph' ∧ suspending ph'.
Proof.
  intros Hinv Hi Htr. pose proof (ti_suspended _ _ _ _ _ Hinv) as Hs.
  assert (owes_suspension t ph = -1 ∧ suspensions t (calls s) ≤ 0) as [Ho H0].
  { pose proof (ti_knows _ _ _ _ _ Hinv _ _ Hi) as Hk. destruct ph as [[[|d ds]|o|o|o| |was|o b was] ops];
      unfold trapping in Htr; simpl in Htr; try done.
    destruct d; simpl in Htr; try done. b2p. unfold knows, tidy in Hk. simpl in Hk.
    assert (ds = []) as -> by set_solver.
    split; [|done]. unfold owes_suspension, suspensions, suspension; simpl.
    rewrite decide_False, decide_True by congruence. lia. }
  destruct (zsum_pos (owes_suspension t) (delete i phs)) as (ph' & Hel & Hpos).
  { rewrite (zsum_delete _ _ _ _ Hi). destruct (_isSuspended ob); simpl in Hs; lia. }
  apply list_elem_of_delete_inv in Hel. apply list_elem_of_lookup in Hel as [j Hj].
  exists j, ph'. split; [done|]. eapply owes_positive; [|done]. by eapply ti_knows.
Qed.

Lemma timer_progress t total phs s ob :
  timer_inv t total phs s ob →
  finished (code_of t <$> phs) ∨ ∃ y, step (code_of t <$> phs, s) y.
Proof.
  intros Hinv. pose proof (ti_object _ _ _ _ _ Hinv) as Hob.
  pose proof (ti_lock _ _ _ _ _ Hinv) as Hlock.
  assert (∀ i ph, phs !! i = Some ph → ph ≠ (SCall [], []) → trapping t s ph = false →
    (_unfair_lock ob = false ∨ holds ph = 1) → ∃ y, step (code_of t <$> phs, s) y) as Hgo.
  { intros i ph Hi Hne Htr Hl.
    destruct (code_of_steps t ph s ob Hob Hne Htr Hl) as (m & k & r & s' & Hc & Hm).
    eexists. apply (step_act _ _ i m k r s'); [|done]. rewrite list_lookup_fmap, Hi. simpl. by f_equal. }
  destruct (find_phase (λ ph, holds ph =? 1) phs) as [(i & ph & Hi & Hp)|Hnone]; b2p.
  { right. apply (Hgo i ph Hi); [by intros ->| |by right]. by destruct ph as [[]]. }
  assert (_unfair_lock ob = false) as Hfree.
  { rewrite zsum_zero in Hlock; [by destruct (_unfair_lock ob)|].
    intros ph Hel. apply list_elem_of_lookup in Hel as [i Hi]. specialize (Hnone _ _ Hi).
    b2p. unfold holds in *. by destruct ph as [[]]. }
  destruct (find_phase (λ ph, negb (is_end ph)) phs) as [(i & ph & Hi & Hp)|Hall].
  { right. destruct (trapping t s ph) eqn:Htr; [|by apply (Hgo i ph Hi); [intros ->| |left]].
    destruct (trapping_race _ _ _ _ _ _ _ Hinv Hi Htr) as (j & ph' & Hj & Hsp).
    apply (Hgo j ph' Hj); [..|by left]; destruct ph' as [g ops], Hsp as [Hg|[was Hg]];
      simpl in Hg; rewrite Hg; done. }
  left. apply finished_lookup. intros i c Hc. rewrite list_lookup_fmap in Hc.
  destruct (phs !! i) as [ph|] eqn:Hi; [|done]. simpl in Hc. injection Hc as <-.
  specialize (Hall _ _ Hi). b2p. by destruct ph as [[[|]| | | | | |] [|]].
Qed.

Lemma timer_inv_init t threads s :
  timers s !! t = Some init → suspensions t (calls s) = 0 → cancels t (calls s) = 0 →
  timer_inv t (zsum (zsum is_cancel) threads) ((λ ops, (SCall [], ops)) <$> threads) s init.
Proof.
  intros Hob Hs Hc.
  assert (∀ f : phase → Z, (∀ ops, f (SCall [], ops) = 0) →
    zsum f ((λ ops, (SCall [], ops)) <$> threads) = 0) as Hz.
  { intros f Hf. apply zsum_zero. intros ph Hel. by apply list_elem_of_fmap in Hel as (ops & -> & _). }
  assert (zsum wants ((λ ops, (SCall [], ops)) <$> threads) = zsum (zsum is_cancel) threads) as Hw.
  { by rewrite zsum_fmap. }
  split; rewrite ?Hz, ?Hs, ?Hc, ?Hw by done; try done.
  intros i ph Hi. rewrite list_lookup_fmap in Hi.
  destruct (threads !! i); [|done]. injection Hi as <-. by left.
Qed.

Lemma zsum_is_cancel threads :
  1 ≤ zsum (zsum is_cancel) threads ↔ ∃ ops, ops ∈ threads ∧ OCancel ∈ ops.
Proof.
  assert (∀ ops, 0 ≤ zsum is_cancel ops) as Hnn by (intros; apply zsum_nonneg; intros [] _; simpl; lia).
  assert (∀ ops, 1 ≤ zsum is_cancel ops ↔ OCancel ∈ ops) as Hops.
  { intros ops. induction ops as [|o ops IH]; simpl.
    - split; [lia|by intros ?%not_elem_of_nil].
    - rewrite elem_of_cons, <-IH. specialize (Hnn ops). destruct o; simpl; naive_solver lia. }
  induction threads as [|ops threads IH]; simpl.
  - split; [lia|by intros (? & ?%not_elem_of_nil & _)].
  - pose proof (zsum_nonneg _ threads (λ ops _, Hnn ops)). pose proof (Hnn ops). split.
    + intros H1. destruct (decide (1 ≤ zsum is_cancel ops)) as [Ho|Ho].
      * exists ops. split; [by left|by apply Hops].
      * destruct (proj1 IH) as (ops' & Hel & Hc); [lia|]. exists ops'. split; [by right|done].
    + intros (ops' & Hel & Hc). apply elem_of_cons in Hel as [->|Hel].
      * apply Hops in Hc. lia.
      * assert (1 ≤ zsum (zsum is_cancel) threads) by (apply IH; by exists ops'). lia.
Qed.

(** ** The trap *)

(** A thread whose next step is a resume of a source that is not suspended. *)
Definition traps (t : positive) (x : config sources bool) : Prop :=
  ∃ i k, x.1 !! i = Some (Act (dispatch t dispatch_resume) k) ∧
    over_resumes t dispatch_resume (calls x.2) = true.

(** What is left of a thread of [client] in [suspend] once it has set the flag:
    it still holds the lock, or has released it. *)
Definition about_to_suspend (t : positive) (c : code sources bool) : Prop :=
  ∃ ops,
    c = ((act (os_unfair_lock_unlock t) ;~ act (dispatch t dispatch_suspend)) ;~ client t ops) ∨
    c = (act (dispatch t dispatch_suspend) ;~ client t ops).

Lemma suspending_code t ph : suspending ph → about_to_suspend t (code_of t ph).
Proof.
  destruct ph as [g ops]. intros [Hg|[was Hg]]; simpl in Hg; subst; exists ops; [by right|by left].
Qed.

(** Only a resume cannot be made on an untouched source. *)
Lemma resume_trapping t s ph k :
  code_of t ph = Act (dispatch t dispatch_resume) k →
  over_resumes t dispatch_resume (calls s) = true → trapping t s ph = true.
Proof.
  intros Hc Ho. set (s0 := {| timers := {[t:=init]}; calls := [] |}).
  assert (∀ m k', code_of t ph = Act m k' → m s0 = None) as Hn.
  { intros m k' Hc'. rewrite Hc in Hc'. by injection Hc' as <- _. }
  assert (timers s0 !! t = Some init) as Hob by apply lookup_singleton_eq.
  destruct (trapping t s0 ph) eqn:Htr.
  - destruct ph as [[[|[] ds]|o|o|o| |was|o b was] ops]; unfold trapping in *; simpl in *; done.
  - destruct (code_of_steps t ph s0 init Hob) as (m & k' & r & s' & Hc' & Hm); [|done|by left|].
    + intros ->. done.
    + by rewrite (Hn m k' Hc') in Hm.
Qed.

Lemma traps_race t total phs s ob :
  timer_inv t total phs s ob → traps t (code_of t <$> phs, s) → Exists (about_to_suspend t) (code_of t <$> phs).
Proof.
  intros Hinv (i & k & Hi & Ho). simpl in Hi, Ho. rewrite list_lookup_fmap in Hi.
  destruct (phs !! i) as [ph|] eqn:Hph; [|done]. simpl in Hi. injection Hi as Hi.
  destruct (trapping_race _ _ _ _ _ _ _ Hinv Hph (resume_trapping t s ph k Hi Ho)) as (j & ph' & Hj & Hsp).
  apply Exists_exists. exists (code_of t ph'). split; [|by apply suspending_code].
  apply list_elem_of_lookup. exists j. by rewrite list_lookup_fmap, Hj.
Qed.

(** C16: however the threads that use one timer are interleaved, the run ends,
    and wherever it can get some thread can take a step until all have ended.  A
    resume can trap at a point only while another thread has marked the timer
    suspended and has not made its suspend yet.  When all have ended the lock is
    free, the source is suspended exactly if the object says so and is never
    left suspended once cancelled, it has been cancelled exactly once if any
    thread cancelled the timer, and not at all otherwise. *)
Theorem timer_interleaving t threads s P' s' :
  timers s !! t = Some init → suspensions t (calls s) = 0 → cancels t (calls s) = 0 →
  rtc step (client t <$> threads, s) (P', s') →
  sn step (P', s') ∧
  (finished P' ∨ ∃ y, step (P', s') y) ∧
  (traps t (P', s') → Exists (about_to_suspend t) P') ∧
  (finished P' → ∃ ob, timers s' !! t = Some ob ∧ _unfair_lock ob = false ∧
    suspensions t (calls s') = b2z (_isSuspended ob) ∧
    (_isCancelled ob = true → _isSuspended ob = false) ∧
    (_isCancelled ob = true ↔ ∃ ops, ops ∈ threads ∧ OCancel ∈ ops) ∧
    cancels t (calls s') = b2z (_isCancelled ob)).
Proof.
  intros Hob Hs Hc Hsteps.
  assert (client t <$> threads = code_of t <$> ((λ ops, (SCall [], ops)) <$> threads)) as Heq.
  { rewrite <-list_fmap_compose. by apply list_fmap_ext. }
  rewrite Heq in Hsteps.
  eapply (phases_invariant (code_of t) (pstep t) (pstep_complete t)
    (λ phs s, ∃ ob, timer_inv t (zsum (zsum is_cancel) threads) phs s ob))
    in Hsteps as (phs & -> & ob & Hinv);
    [|intros; by eapply timer_inv_step|exists init; by apply timer_inv_init].
  split; [by apply (phases_sn _ _ (pstep_complete t) weight (pstep_weight t))|].
  split; [by eapply timer_progress|]. split; [by eapply traps_race|]. intros Hf.
  assert (∀ ph, ph ∈ phs → ph = (SCall [], [])) as Hend.
  { intros ph Hel. apply (code_of_ret t). rewrite finished_lookup in Hf.
    apply list_elem_of_lookup in Hel as [i Hi]. apply (Hf i). by rewrite list_lookup_fmap, Hi. }
  assert (∀ f : phase → Z, f (SCall [], []) = 0 → zsum f phs = 0) as Hz.
  { intros f H0. apply zsum_zero. intros ph Hel. by rewrite (Hend ph Hel). }
  destruct Hinv as [Hob' Hlock _ Hsusp Hcanc Hclear _ Hwa Ht].
  rewrite Hz in Hlock, Hsusp, Hcanc, Hclear, Hwa by done.
  exists ob. rewrite <-zsum_is_cancel. destruct ob as [c sp l]; simpl in *.
  split; [done|]. split; [by destruct l|]. split; [lia|].
  split; [by destruct c, sp|]. split; [|lia].
  split; [done|]. intros H1. destruct c; [done|]. specialize (Hwa eq_refl). lia.
Qed.

(** A timer that has just been made, and two threads that use it. *)
Definition racing : list (list op) := [[OSuspend]; [OResume]].
Definition new_timer : sources :=
  {| timers := {[1%positive := init]};
     calls := (1%positive,.) <$> creation None 1000000000 0 7 |}.

(** The second thread takes the lock before the first has made its call, and
    comes to its own after it. *)
Definition close_order : list nat := [1; 0; 0; 0; 0; 0; 1; 0; 1; 1; 1; 1]%nat.
Definition settled : sources :=
  {| timers := {[1%positive := init]};
     calls := calls new_timer ++ [(1%positive, dispatch_suspend); (1%positive, dispatch_resume)] |}.

Lemma timer_interleaving_witness :
  rtc step (client 1 <$> racing, new_timer) ([Ret; Ret], settled) ∧
  suspensions 1 (calls settled) = 0.
Proof.
  assert (rtc step (client 1 <$> racing, new_timer) ([Ret; Ret], settled)) as Hs
    by (apply (schedule_sound close_order); vm_compute; reflexivity).
  split; [exact Hs|].
  destruct (timer_interleaving 1 racing new_timer [Ret; Ret] settled
    eq_refl eq_refl eq_refl Hs) as (_ & _ & _ & Hf).
  destruct (Hf ltac:(repeat constructor)) as (ob & Hob & _ & Hsusp & _).
  vm_compute in Hob. injection Hob as <-. exact Hsusp.
Defined.

(** The first thread is preempted between the end of its critical section and its
    call, until the second is about to make its own. *)
Definition race_order : list nat := [0; 0; 0; 0; 0; 1; 1; 1; 1; 1]%nat.

(** C39: the calls of two threads can reach the source in the other order than
    their critical sections: a thread that resumes after another thread has
    suspended can come to its resume first, on a source that is not suspended,
    where libdispatch traps. *)
Theorem timer_race_over_resumes :
  ∃ P' s', rtc step (client 1 <$> racing, new_timer) (P', s') ∧ traps 1 (P', s').
Proof.
  exists [act (dispatch 1 dispatch_suspend); act (dispatch 1 dispatch_resume)].
  exists {| timers := {[1%positive := init]}; calls := calls new_timer |}.
  split; [by apply (schedule_sound race_order); vm_compute|].
  by exists 1%nat, (λ _, Ret).
Qed.

(** ** Timers bound to an object *)

Lemma run_lift c s : run (lift c) s = zoom rest set_rest (run c) s.
Proof.
  revert s. induction c as [|m k IH]; intros s; unfold zoom in *; simpl; [by destruct s|].
  destruct (m (rest s)) as [[r x]|]; simpl; [|by destruct s]. rewrite IH. simpl.
  by destruct (run (k r) x) as [[]|].
Qed.

Lemma spec_run_app st ops ops' :
  spec_run st (ops ++ ops') =
    ((spec_run (spec_run st ops).1 ops').1, (spec_run st ops).2 ++ (spec_run (spec_run st ops).1 ops').2).
Proof.
  revert st. induction ops as [|o ops IH]; intros st; simpl; [by destruct (spec_run st ops')|].
  destruct (spec_step st o) as [st' ds]. rewrite IH.
  destruct (spec_run st' ops) as [st'' ds']; simpl. by rewrite (assoc_L (++)).
Qed.

Lemma spec_run_cancel_last st ops : (spec_run st (ops ++ [OCancel])).1 = Cancelled.
Proof. rewrite spec_run_app. simpl. by destruct (spec_run st ops).1. Qed.

(** Attaching the first handler to an object nobody is synchronized on. *)
Lemma attach_first {B X} (call : B → code (objc B X) bool) o h s :
  associations s !! o = None → o ∉ monitors s →
  run (NPAttachDeallocationHandler call (Some o) h) s =
    Done tt {| associations := <[o:={| handlers := [h] |}]> (associations s);
               monitors := monitors s; rest := rest s |}.
Proof.
  intros Ha Hm. simpl. unfold monitor_enter. rewrite decide_False by done. simpl. rewrite Ha. simpl.
  rewrite alter_insert_eq. unfold addObserverHandler; simpl. do 2 f_equal. set_solver.
Qed.

Lemma run_lift_client t st ops s :
  timers (rest s) !! t = Some (object_of st) → suspensions t (calls (rest s)) = level st →
  run (lift (client t ops)) s =
    Done tt (set_rest {| timers := <[t:=object_of (spec_run st ops).1]> (timers (rest s));
                         calls := calls (rest s) ++ ((t,.) <$> (spec_run st ops).2) |} s).
Proof. intros Ht Hs. rewrite run_lift. unfold zoom. by rewrite (run_client t st). Qed.

Lemma run_lift_seq c d s : run (lift (c ;~ d)) s = run (lift c ;~ lift d) s.
Proof.
  revert s. induction c as [|m k IH]; intros s; [done|]. simpl.
  by destruct (m (rest s)) as [[r x]|]; simpl.
Qed.

(** Running the block that cancels is a cancel by the client. *)
Lemma run_cancel_block `{Sources} user t s :
  run (call_handlers (call_block user) [cancel_block t]) s = run (lift (client t [OCancel])) s.
Proof. symmetry. apply (run_lift_seq (NPDispatchTimerCancel t) Ret). Qed.

Lemma NPDispatchTimerObservable_some `{Sources} user o q i l block s interval leeway :
  to_uint64 (nanoseconds i) = Some interval → to_uint64 (nanoseconds l) = Some leeway →
  associations s !! o = None → o ∉ monitors s →
  NPDispatchTimerObservable user (Some o) q i l block s =
    Done (new_source (rest s))
      {| associations := <[o:={| handlers := [cancel_block (new_source (rest s))] |}]> (associations s);
         monitors := monitors s;
         rest := {| timers := <[new_source (rest s):=object_of Running]> (timers (rest s));
                    calls := calls (rest s) ++
                      ((new_source (rest s),.) <$> creation q interval leeway block) |} |}.
Proof.
  intros Hi Hl Ha Hm. unfold NPDispatchTimerObservable, mbind, prog_bind, zoom.
  rewrite (NPDispatchTimer_run _ _ _ _ _ _ _ Hi Hl).
  by rewrite attach_first.
Qed.

(** A timer bound to an object with no handlers is cancelled when the object
    is deallocated, whatever its client did with it before: the source gets the
    calls the client's operations and a final cancel make, so it is cancelled
    exactly once, is not left suspended, and the object keeps nothing. *)
Theorem observable_cancels `{Sources} user o q i l block ops s interval leeway :
  to_uint64 (nanoseconds i) = Some interval → to_uint64 (nanoseconds l) = Some leeway →
  associations s !! o = None → o ∉ monitors s →
  wp (t ← NPDispatchTimerObservable user (Some o) q i l block;
      run (lift (client t ops));;
      deallocate (call_block user) o;;
      mret t)
    (λ t s',
      calls (rest s') = calls (rest s) ++
        ((t,.) <$> creation q interval leeway block ++ (spec_run Running (ops ++ [OCancel])).2) ∧
      timers (rest s') !! t = Some (object_of Cancelled) ∧
      suspensions t (calls (rest s')) = 0 ∧
      cancels t (calls (rest s')) = 1 ∧
      associations s' = associations s) s.
Proof.
  intros Hi Hl Ha Hm. unfold wp, mbind, prog_bind.
  rewrite (NPDispatchTimerObservable_some user o q i l block s interval leeway Hi Hl Ha Hm).
  set (t := new_source (rest s)).
  pose proof (new_source_fresh (rest s)) as [_ Hfresh]. fold t in Hfresh.
  rewrite (run_lift_client t Running)
    by (cbn [rest timers calls]; first [apply lookup_insert_eq | by apply created_level]).
  unfold deallocate, mbind, prog_bind, get. cbn [associations set_rest].
  rewrite lookup_insert_eq. cbn [act run erase_association associations monitors rest set_rest].
  unfold dealloc; cbn [handlers].
  rewrite run_cancel_block, (run_lift_client t (spec_run Running ops).1).
  2: { simpl. apply lookup_insert_eq. }
  2: { cbn [rest set_rest calls]. rewrite <-(assoc_L (++)), <-fmap_app. by apply created_calls. }
  cbn [associations monitors rest set_rest timers calls mret prog_ret].
  rewrite <-!(assoc_L (++)), <-!fmap_app.
  replace ((spec_run Running ops).2 ++ (spec_run (spec_run Running ops).1 [OCancel]).2)
    with (spec_run Running (ops ++ [OCancel])).2 by (by rewrite spec_run_app).
  destruct (created_calls t (calls (rest s)) q interval leeway block (ops ++ [OCancel]))
    as (_ & Hs & Hc); [apply new_source_fresh|].
  rewrite Hs, Hc, spec_run_cancel_last, decide_True by set_solver.
  split; [done|]. rewrite lookup_insert_eq, <-(spec_run_cancel_last Running ops), spec_run_app.
  split; [done|]. split; [by rewrite <-spec_run_app, spec_run_cancel_last|]. split; [done|].
  by rewrite delete_insert_id.
Qed.

Definition no_client (n : nat) : code state bool := Ret.
Definition empty_state : state := {| associations := ∅; monitors := ∅; rest := no_sources |}.

Lemma observable_cancels_witness :
  to_uint64 (nanoseconds (of_int 1)) = Some 1000000000 ∧
  to_uint64 (nanoseconds (of_int 0)) = Some 0 ∧
  wp (t ← NPDispatchTimerObservable no_client (Some 5%positive) None (of_int 1) (of_int 0) 7;
      run (lift (client t [OSuspend]));;
      deallocate (call_block no_client) 5%positive;;
      mret t)
    (λ t s', calls (rest s') = (t,.) <$> creation None 1000000000 0 7 ++
        [dispatch_suspend; dispatch_source_cancel; dispatch_resume]
      ∧ suspensions t (calls (rest s')) = 0) empty_state.
Proof.
  assert (to_uint64 (nanoseconds (of_int 1)) = Some 1000000000) as H1 by (vm_compute; reflexivity).
  assert (to_uint64 (nanoseconds (of_int 0)) = Some 0) as H0 by (vm_compute; reflexivity).
  split; [exact H1|]. split; [exact H0|].
  eapply wp_mono; [exact (observable_cancels no_client 5%positive None (of_int 1) (of_int 0) 7
    [OSuspend] empty_state 1000000000 0 H1 H0 eq_refl (not_elem_of_empty 5%positive))|].
  intros t s' (Hc & _ & Hs & _). split; [exact Hc|exact Hs].
Defined.
End Timer.
