(* ===== verification/TimerPrograms.v ===== *)
(** * Programs that use [timer.h]

    A client that makes any number of timers, bound to objects or not, resumes,
    suspends and cancels them in any order, and whose objects are deallocated on
    the way: [timer.m] and [NSValueObserving.m] together, against one three-state
    machine per timer.  (Several threads on one timer are in [Timer.v].) *)

From S2P Require Import Prelude Concur Observing Dispatch Timer.
Import Concur Observing Dispatch Timer.

Module TimerPrograms.

Section programs.
Context `{Sources} (user : nat → code state bool).
Implicit Types (m : gmap positive tstate) (bd : gmap positive (list positive)) (s : state) (t : positive)
  (cs : list (positive * dcall)) (st : tstate).

(** The functions of [timer.h] with their arguments, and the end of an object. *)
Inductive request :=
| DispatchTimer (dispatchQueue : option positive) (intervalInSeconds leewayInSeconds : double) (block : nat)
| DispatchTimerResume (timer : positive)
| DispatchTimerSuspend (timer : positive)
| DispatchTimerCancel (timer : positive)
| DispatchTimerObservable (observable dispatchQueue : option positive)
    (intervalInSeconds leewayInSeconds : double) (block : nat)
| Deallocate (observable : positive).

(** The result is the new timer. *)
Definition serve (r : request) : prog state (option positive) :=
  match r with
  | DispatchTimer q i l block => t ← zoom rest set_rest (NPDispatchTimer q i l block); mret (Some t)
  | DispatchTimerResume t => run (lift (NPDispatchTimerResume t));; mret None
  | DispatchTimerSuspend t => run (lift (NPDispatchTimerSuspend t));; mret None
  | DispatchTimerCancel t => run (lift (NPDispatchTimerCancel t));; mret None
  | DispatchTimerObservable o q i l block => t ← NPDispatchTimerObservable user o q i l block; mret (Some t)
  | Deallocate o => deallocate (call_block user) o;; mret None
  end.

Fixpoint serves (rs : list request) : prog state (list (option positive)) :=
  match rs with
  | [] => mret []
  | r :: rs => a ← serve r; l ← serves rs; mret (a :: l)
  end.

(** ** Machines *)

Definition turn (o : op) t m : gmap positive tstate := alter (λ st, (spec_step st o).1) t m.

(** The machines of the timers, and the timers bound to each object. *)
Inductive request_step : gmap positive tstate * gmap positive (list positive) → request → option positive →
    gmap positive tstate * gmap positive (list positive) → Prop :=
| step_timer m bd q i l block t : m !! t = None →
    request_step (m, bd) (DispatchTimer q i l block) (Some t) (<[t:=Running]> m, bd)
| step_resume m bd t : request_step (m, bd) (DispatchTimerResume t) None (turn OResume t m, bd)
| step_suspend m bd t : request_step (m, bd) (DispatchTimerSuspend t) None (turn OSuspend t m, bd)
| step_cancel m bd t : request_step (m, bd) (DispatchTimerCancel t) None (turn OCancel t m, bd)
| step_observable m bd o q i l block t : m !! t = None →
    request_step (m, bd) (DispatchTimerObservable (Some o) q i l block) (Some t)
      (<[t:=Running]> m, <[o:=default [] (bd !! o) ++ [t]]> bd)
| step_unobserved m bd q i l block t : m !! t = None →
    request_step (m, bd) (DispatchTimerObservable None q i l block) (Some t) (<[t:=Cancelled]> m, bd)
| step_deallocate m bd o :
    request_step (m, bd) (Deallocate o) None (foldl (λ m t, turn OCancel t m) m (default [] (bd !! o)), delete o bd).

Inductive request_steps : gmap positive tstate * gmap positive (list positive) → list request →
    list (option positive) → gmap positive tstate * gmap positive (list positive) → Prop :=
| steps_done x : request_steps x [] [] x
| steps_more x r rs a l y z : request_step x r a y → request_steps y rs l z → request_steps x (r :: rs) (a :: l) z.

(** The calls on a source keep to its machine: never resumed more often than
    suspended, never suspended twice, suspended now just when the machine is, and
    cancelled once or, while the machine is not, not at all. *)
Definition obeys t st cs : Prop :=
  banded t cs ∧ suspensions t cs = level st ∧ cancels t cs = if decide (st = Cancelled) then 1 else 0.

Record follows m bd s : Prop := {
  fo_timers : timers (rest s) = object_of <$> m;
  fo_bound : associations s = (λ ts, Build_NPNSValueObserving (cancel_block <$> ts)) <$> bd;
  fo_free : monitors s = ∅;
  fo_calls : ∀ t st, m !! t = Some st → obeys t st (calls (rest s));
}.

(** Durations that are a number of nanoseconds in [uint64_t]. *)
Definition durations_ok (r : request) : Prop :=
  match r with
  | DispatchTimer _ i l _ | DispatchTimerObservable _ _ i l _ =>
      is_Some (to_uint64 (nanoseconds i)) ∧ is_Some (to_uint64 (nanoseconds l))
  | _ => True
  end.

(** ** Calls on one source and on others *)

Lemma obeys_other t t' st cs ds : t ≠ t' → obeys t st cs → obeys t st (cs ++ ((t',.) <$> ds)).
Proof.
  intros Hne (Hb & Hs & Hc).
  assert (∀ n, suspensions t (take n ((t',.) <$> ds)) = 0) as Hz.
  { intros n. apply zsum_zero. intros c Hel%(subseteq_take n). apply list_elem_of_fmap in Hel as (d & -> & _).
    unfold suspension. by rewrite !decide_False by congruence. }
  split; [|split].
  - intros n. rewrite take_app, suspensions_app, Hz. specialize (Hb n). lia.
  - rewrite suspensions_app, Hs. specialize (Hz (length ((t',.) <$> ds))). rewrite firstn_all in Hz. lia.
  - rewrite cancels_app, Hc. assert (cancels t ((t',.) <$> ds) = 0) as ->; [|lia].
    apply zsum_zero. intros c Hel. apply list_elem_of_fmap in Hel as (d & -> & _). by rewrite decide_False by congruence.
Qed.

Lemma obeys_turn t st o cs : obeys t st cs → obeys t (spec_step st o).1 (cs ++ ((t,.) <$> (spec_step st o).2)).
Proof.
  intros (Hb & Hs & Hc). split; [|split].
  - intros n. rewrite take_app, suspensions_app. destruct (decide (n ≤ length cs)%nat) as [Hn|Hn].
    + replace (n - length cs)%nat with 0%nat by lia. specialize (Hb n).
      change (suspensions t (take 0 _)) with 0. lia.
    + rewrite take_ge by lia. rewrite Hs. apply spec_step_level.
  - rewrite suspensions_app, Hs. symmetry. by apply (spec_step_level t st o 0).
  - rewrite cancels_app, Hc. destruct (decide (st = Cancelled)) as [->|Hst].
    + by destruct o.
    + destruct (spec_step_cancels t st o Hst) as [H1 H2]. destruct (decide (o = OCancel)) as [Ho|Ho].
      * destruct (H1 Ho) as [-> ->]. done.
      * destruct (H2 Ho) as [Hn ->]. by rewrite decide_False.
Qed.

Lemma obeys_new t cs q interval leeway block : (∀ d, (t, d) ∉ cs) →
  obeys t Running (cs ++ ((t,.) <$> creation q interval leeway block)).
Proof.
  intros Hf. destruct (created_calls t cs q interval leeway block [] Hf) as (Hb & Hs & Hc).
  cbn [spec_run fst snd] in *. rewrite app_nil_r in Hb, Hs, Hc. by split.
Qed.

(** ** Single requests *)

Lemma turn_lookup o t m t' : turn o t m !! t' = if decide (t = t') then (λ st, (spec_step st o).1) <$> m !! t' else m !! t'.
Proof. unfold turn. case_decide; [subst; apply lookup_alter_eq|by apply lookup_alter_ne]. Qed.

Lemma follows_op m bd s o t : follows m bd s → wp (run (lift (op_code t o))) (λ _ s', follows (turn o t m) bd s') s.
Proof.
  intros [Ht Hb Hf Hc]. unfold wp. rewrite run_lift. unfold zoom.
  destruct (m !! t) as [st|] eqn:Hm.
  - rewrite (run_op t st o (rest s)) by (first [by rewrite Ht, lookup_fmap, Hm|by apply Hc]). split; simpl; [|done|done|].
    + rewrite Ht, <- fmap_insert. f_equal. apply map_eq. intros t'. rewrite turn_lookup.
      case_decide; [subst; by rewrite lookup_insert_eq, Hm|by rewrite lookup_insert_ne].
    + intros t' st' Ht'. rewrite turn_lookup in Ht'. case_decide as Hd.
      * subst t'. rewrite Hm in Ht'. injection Ht' as <-. by apply obeys_turn, Hc.
      * apply obeys_other; [congruence|by apply Hc].
  - assert (run (op_code t o) (rest s) = Done tt (rest s)) as ->.
    { assert (timers (rest s) !! t = None) as Hn by by rewrite Ht, lookup_fmap, Hm.
      destruct o; simpl; by rewrite Hn. }
    assert (turn o t m = m) as ->.
    { apply map_eq. intros t'. rewrite turn_lookup. case_decide; [subst; by rewrite Hm|done]. }
    by destruct s.
Qed.

(** A new source, with a machine that runs. *)
Lemma follows_new m bd s q i l block : follows m bd s →
  is_Some (to_uint64 (nanoseconds i)) → is_Some (to_uint64 (nanoseconds l)) →
  wp (zoom rest set_rest (NPDispatchTimer q i l block))
    (λ t s', m !! t = None ∧ follows (<[t:=Running]> m) bd s') s.
Proof.
  intros [Ht Hb Hf Hc] [interval Hi] [leeway Hl]. unfold wp, zoom.
  rewrite (NPDispatchTimer_run q i l block (rest s) interval leeway Hi Hl).
  destruct (new_source_fresh (rest s)) as [Hn Hnc]. set (t := new_source (rest s)) in *.
  assert (m !! t = None) as Hm by (rewrite Ht, lookup_fmap in Hn; by destruct (m !! t)).
  split; [done|]. split; cbn [set_rest rest associations monitors timers calls]; [by rewrite Ht, fmap_insert|done|done|].
  intros t' st' [[<- <-]|[Hne Ht']]%lookup_insert_Some; [by apply obeys_new|].
  by apply obeys_other; [|apply Hc].
Qed.

(** Attaching a block that cancels to an object, whatever it has already. *)
Lemma follows_attach m bd s o t : follows m bd s →
  wp (run (NPAttachDeallocationHandler (call_block user) (Some o) (cancel_block t)))
    (λ _ s', follows m (<[o:=default [] (bd !! o) ++ [t]]> bd) s') s.
Proof.
  intros [Ht Hb Hf Hc].
  assert (∀ s', associations s' = <[o:=Build_NPNSValueObserving (cancel_block <$> (default [] (bd !! o) ++ [t]))]> (associations s) →
    monitors s' = ∅ → rest s' = rest s → follows m (<[o:=default [] (bd !! o) ++ [t]]> bd) s') as Hend.
  { intros s' Ha Hm Hr. split; rewrite ?Hr; try done. by rewrite Ha, Hb, fmap_insert. }
  unfold wp. simpl. unfold monitor_enter. rewrite decide_False by (rewrite Hf; set_solver). simpl.
  rewrite Hb, lookup_fmap. destruct (bd !! o) as [ts|] eqn:Ho; simpl.
  - apply Hend; simpl; [|rewrite Hf; set_solver|done]. rewrite Hb. apply map_eq. intros o'.
    destruct (decide (o = o')) as [<-|Hne].
    + rewrite lookup_alter_eq, lookup_insert_eq, lookup_fmap, Ho. simpl. unfold addObserverHandler. simpl.
      by rewrite fmap_app.
    + by rewrite lookup_alter_ne, lookup_insert_ne by done.
  - apply Hend; simpl; [|rewrite Hf; set_solver|done]. rewrite Hb. apply map_eq. intros o'.
    destruct (decide (o = o')) as [<-|Hne].
    + by rewrite lookup_alter_eq, !lookup_insert_eq.
    + by rewrite lookup_alter_ne, !lookup_insert_ne by done.
Qed.

(** The end of an object cancels its timers in order. *)
Lemma follows_handlers m bd s ts : follows m bd s →
  wp (run (call_handlers (call_block user) (cancel_block <$> ts)))
    (λ _ s', follows (foldl (λ m t, turn OCancel t m) m ts) bd s') s.
Proof.
  revert m s. induction ts as [|t ts IH]; intros m s Hs; [done|].
  cbn [fmap list_fmap call_handlers call_block foldl].
  assert (∀ (c d : code state bool) (Q : unit → state → Prop), wp (run c;; run d) Q s → wp (run (c ;~ d)) Q s) as Hseq.
  { intros c d Q Hw. unfold wp in *. by rewrite run_seq. }
  apply Hseq, wp_bind. eapply wp_mono; [apply (follows_op m bd s OCancel t Hs)|].
  intros [] s1 Hs1. by apply IH.
Qed.

Lemma follows_deallocate m bd s o : follows m bd s →
  wp (deallocate (call_block user) o)
    (λ _ s', follows (foldl (λ m t, turn OCancel t m) m (default [] (bd !! o))) (delete o bd) s') s.
Proof.
  intros Hs. pose proof Hs as [Ht Hb Hf Hc].
  set (s1 := Build_objc (delete o (associations s)) (monitors s) (rest s)).
  assert (follows m (delete o bd) s1) as Hs1 by by split; simpl; [|rewrite Hb, fmap_delete|..].
  unfold deallocate. wp_step. wp_step. wp_step.
  change (run (act (erase_association o)) s) with (Done tt s1).
  change (wp (match associations s !! o with Some self => run (dealloc (call_block user) self) | None => mret tt end)
    (λ _ s', follows (foldl (λ m t, turn OCancel t m) m (default [] (bd !! o))) (delete o bd) s') s1).
  assert (associations s !! o = (λ ts, Build_NPNSValueObserving (cancel_block <$> ts)) <$> bd !! o) as ->
    by by rewrite Hb, lookup_fmap.
  destruct (bd !! o) as [ts|]; simpl; [|by apply wp_ret]. by apply (follows_handlers m (delete o bd) s1 ts).
Qed.

Lemma serve_follows m bd s r : follows m bd s → durations_ok r →
  wp (serve r) (λ a s', ∃ m' bd', request_step (m, bd) r a (m', bd') ∧ follows m' bd' s') s.
Proof.
  intros Hs Hr.
  assert (∀ o t, wp (run (lift (op_code t o));; mret None) (λ (a : option positive) s', ∃ m' bd',
    (a = None ∧ m' = turn o t m ∧ bd' = bd) ∧ follows m' bd' s') s) as Hop.
  { intros o t. wp_step. eapply wp_mono; [by apply follows_op|]. intros [] s' Hs'. apply wp_ret.
    by exists (turn o t m), bd. }
  destruct r as [q i l block|t|t|t|[o|] q i l block|o]; cbn [serve].
  - destruct Hr as [Hi Hl]. wp_step. eapply wp_mono; [by apply follows_new|].
    intros t s' [Hm Hs']. apply wp_ret. do 2 eexists. split; [by constructor|done].
  - eapply wp_mono; [apply (Hop OResume)|]. intros a s' (m' & bd' & (-> & -> & ->) & Hs').
    do 2 eexists. split; [constructor|done].
  - eapply wp_mono; [apply (Hop OSuspend)|]. intros a s' (m' & bd' & (-> & -> & ->) & Hs').
    do 2 eexists. split; [constructor|done].
  - eapply wp_mono; [apply (Hop OCancel)|]. intros a s' (m' & bd' & (-> & -> & ->) & Hs').
    do 2 eexists. split; [constructor|done].
  - destruct Hr as [Hi Hl]. unfold NPDispatchTimerObservable. wp_step. wp_step.
    eapply wp_mono; [by apply follows_new|]. intros t s1 [Hm Hs1]. wp_step.
    eapply wp_mono; [by apply follows_attach|]. intros [] s2 Hs2. apply wp_ret, wp_ret.
    do 2 eexists. split; [by constructor|done].
  - destruct Hr as [Hi Hl]. unfold NPDispatchTimerObservable. wp_step. wp_step.
    eapply wp_mono; [by apply follows_new|]. intros t s1 [Hm Hs1]. wp_step.
    eapply wp_mono; [apply (follows_op _ bd s1 OCancel t Hs1)|]. intros [] s2 Hs2. apply wp_ret, wp_ret.
    do 2 eexists. split; [by constructor|].
    assert (turn OCancel t (<[t:=Running]> m) = <[t:=Cancelled]> m) as Heq; [|by rewrite <- Heq].
    apply map_eq. intros t'. rewrite turn_lookup. case_decide; [subst; by rewrite !lookup_insert_eq|].
    by rewrite !lookup_insert_ne.
  - wp_step. eapply wp_mono; [by apply follows_deallocate|]. intros [] s' Hs'. apply wp_ret.
    do 2 eexists. split; [constructor|done].
Qed.

Lemma serves_follow m bd s rs : follows m bd s → Forall durations_ok rs →
  wp (serves rs) (λ l s', ∃ m' bd', request_steps (m, bd) rs l (m', bd') ∧ follows m' bd' s') s.
Proof.
  intros Hs Hrs. revert m bd s Hs. induction Hrs as [|r rs Hr Hrs IH]; intros m bd s Hs; simpl.
  { apply wp_ret. exists m, bd. split; [constructor|done]. }
  wp_step. eapply wp_mono; [by apply serve_follows|]. intros a s1 (m1 & bd1 & Hstep & Hs1).
  wp_step. eapply wp_mono; [by apply IH|]. intros l s2 (m2 & bd2 & Hsteps & Hs2). apply wp_ret.
  exists m2, bd2. split; [by econstructor|done].
Qed.

(** ** The properties *)

(** C13: Whatever a program does with [timer.h], each of its timers is a machine of
    three states that nothing but its own calls, and the end of the object it is
    bound to, moves.  Any sequence of calls, on timers old and new, with objects
    deallocated on the way, runs to its end; a call that changes nothing makes no
    call of libdispatch; a timer made for [nil] is cancelled at once.  At every
    source, at every moment, no more resumes than suspends have been made and at
    most one more suspend; the source is suspended now exactly if its machine is;
    it has been cancelled exactly once if its machine is, and otherwise not. *)
Theorem timers_follow_machines m bd s rs : follows m bd s → Forall durations_ok rs →
  wp (serves rs) (λ l s', ∃ m' bd', request_steps (m, bd) rs l (m', bd') ∧
    timers (rest s') = object_of <$> m' ∧ monitors s' = ∅ ∧
    ∀ t st, m' !! t = Some st → obeys t st (calls (rest s'))) s.
Proof.
  intros Hs Hrs. eapply wp_mono; [by apply serves_follow|]. intros l s' (m' & bd' & Hsteps & [Ht _ Hf Hc]).
  by exists m', bd'.
Qed.

End programs.

(** ** A program *)

(** A timer of the client's own, and one bound to object 5, which ends. *)
Definition demo_requests : list request :=
  [DispatchTimer None (of_int 1) (of_int 0) 7; DispatchTimerObservable (Some 5%positive) None (of_int 2) (of_int 0) 8;
   DispatchTimerSuspend 1; DispatchTimerSuspend 2; DispatchTimerSuspend 2; Deallocate 5; DispatchTimerResume 2;
   DispatchTimerResume 1; DispatchTimerObservable None None (of_int 3) (of_int 0) 9; DispatchTimerResume 9].

Lemma demo_durations : Forall durations_ok demo_requests.
Proof. repeat constructor; simpl; (eexists; vm_compute; reflexivity). Qed.

Lemma demo_follows : follows ∅ ∅ empty_state.
Proof. split; [vm_compute; reflexivity|vm_compute; reflexivity|done|]. intros t st Ht. by rewrite lookup_empty in Ht. Qed.

Example demo_calls :
  match serves no_client demo_requests empty_state with
  | Done l s => (l, filter (λ c, c.1 = 2%positive) (calls (rest s)))
  | Stop _ _ => ([], [])
  end =
  ([Some 1; Some 2; None; None; None; None; None; None; Some 3; None]%positive,
   (2%positive,.) <$> creation None 2000000000 0 8 ++ [dispatch_suspend; dispatch_source_cancel; dispatch_resume]).
Proof. vm_compute. reflexivity. Qed.

Lemma timers_follow_machines_witness :
  wp (serves no_client demo_requests) (λ l s', ∃ m' bd', request_steps (∅, ∅) demo_requests l (m', bd') ∧
    timers (rest s') = object_of <$> m' ∧ monitors s' = ∅ ∧
    ∀ t st, m' !! t = Some st → obeys t st (calls (rest s'))) empty_state.
Proof. exact (timers_follow_machines no_client ∅ ∅ empty_state demo_requests demo_follows demo_durations). Defined.

End TimerPrograms.
