(* ===== verification/Schedule.v ===== *)
(** * Schedule: throttled and debounced callbacks

    Models [dispatch/schedule.m]: the handle with its two blocks, and the two
    kinds of schedule a handle drives.  A schedule has captured variables and a
    serial queue of its own, on which its blocks run one at a time and in order;
    a debounce also makes one-shot timer sources that target this queue.  The
    steps of a schedule are what clients, the queue, the sources and the clock
    may do at any moment, and the theorems hold for every sequence of them. *)

From S2P Require Import Prelude Dispatch.

Module Schedule.
Import Dispatch.

(** ** Schedules *)

(** A block that waits on a schedule's queue: the block of a signal, the one of
    a cancel, or the event handler of the schedule's [n]th timer source. *)
Inductive job :=
| run_onSignal
| run_onCancel
| run_handler (source : nat).

Inductive source_status := Armed | Fired | Stopped.

(** A one-shot timer source with the [current] its handler captured, when it is
    due ([None]: never) and how late it may be. *)
Record source := {
  current : Z;
  deadline : option Z;
  leeway : Z;
  status : source_status;
}.

(** What has run on the queue, and [dispatch_async(on, callback)]. *)
Inductive entry := Signalled | Canceled | Called.

#[export] Instance entry_eq_dec : EqDecision entry.
Proof. solve_decision. Defined.
#[export] Instance source_status_eq_dec : EqDecision source_status.
Proof. solve_decision. Defined.

(** A schedule: its captured variables, its queue, its sources, and a log of
    what ran when, oldest first. *)
Record sched (V : Type) := {
  vars : V;
  queue : list job;
  sources : list source;
  log : list (Z * entry);
}.
Arguments Build_sched {V} vars queue sources log.
Arguments vars {V} _.
Arguments queue {V} _.
Arguments sources {V} _.
Arguments log {V} _.

Section sched.
Context {V : Type}.

Definition set_vars (v : V) (s : sched V) : sched V := Build_sched v (queue s) (sources s) (log s).
Definition set_queue (q : list job) (s : sched V) : sched V := Build_sched (vars s) q (sources s) (log s).
Definition set_sources (l : list source) (s : sched V) : sched V := Build_sched (vars s) (queue s) l (log s).
Definition note (clock : Z) (e : entry) (s : sched V) : sched V :=
  Build_sched (vars s) (queue s) (sources s) (log s ++ [(clock, e)]).

(** [dispatch_async(queue, block)] *)
Definition enqueue (j : job) (s : sched V) : sched V := set_queue (queue s ++ [j]) s.

(** [dispatch_async(on, callback)] *)
Definition call_back (clock : Z) : prog (sched V) unit := modify (note clock Called).

Definition set_status (st : source_status) (src : source) : source :=
  {| current := current src; deadline := deadline src; leeway := leeway src; status := st |}.
End sched.

(** *** Throttle *)

Record throttle_vars := { previous : double; hasFired : bool }.

(** [monotonicSeconds()], when the clock reads so many nanoseconds *)
Definition monotonicSeconds (clock : Z) : double := ddiv (of_int clock) (of_int NSEC_PER_SEC).

(** [onSignal] of a throttle *)
Definition throttle_onSignal (delayInSeconds : double) (clock : Z) : prog (sched throttle_vars) unit :=
  modify (note clock Signalled);;
  let timestamp := monotonicSeconds clock in
  s ← get;
  when (negb (hasFired (vars s)) || dge (dsub timestamp (previous (vars s))) delayInSeconds)
    (modify (set_vars {| previous := timestamp; hasFired := true |});;
     call_back clock).

(** The variables and the queue [NPDispatchScheduleThrottle] makes. *)
Definition throttle_new : sched throttle_vars :=
  Build_sched {| previous := S754_zero false; hasFired := false |} [] [] [].

(** The blocks of its handle. *)
Definition throttle_signal : sched throttle_vars → sched throttle_vars := enqueue run_onSignal.
Definition throttle_cancel : sched throttle_vars → sched throttle_vars := λ s, s.

Definition throttle_run (delayInSeconds : double) (clock : Z) (j : job) : prog (sched throttle_vars) unit :=
  match j with
  | run_onSignal => throttle_onSignal delayInSeconds clock
  | run_onCancel | run_handler _ => mret tt
  end.

(** *** Debounce *)

Record debounce_vars := { canceled : bool; generation : Z }.

(** The moment [dispatch_time(DISPATCH_TIME_NOW, delta)] stands for, read at
    [now]: not before [now + delta], and none when it is past the end of time. *)
Class DispatchTime := {
  dispatch_time : Z → Z → option Z;
  dispatch_time_spec now delta d : dispatch_time now delta = Some d → now + delta ≤ d;
}.

Section debounce.
Context `{DispatchTime}.

(** [onSignal] of a debounce *)
Definition debounce_onSignal (delayInSeconds leewayInSeconds : double) (clock : Z) : prog (sched debounce_vars) unit :=
  modify (note clock Signalled);;
  s ← get;
  let current := to_size (generation (vars s) + 1) in
  modify (set_vars {| canceled := false; generation := current |});;
  delta ← of_option FUndefined (to_int64 (nanoseconds delayInSeconds));
  leeway ← of_option FUndefined (to_uint64 (nanoseconds leewayInSeconds));
  modify (set_sources (sources s ++
    [{| current := current; deadline := dispatch_time clock delta; leeway := leeway; status := Armed |}])).

(** [onCancel] *)
Definition onCancel (clock : Z) : prog (sched debounce_vars) unit :=
  modify (note clock Canceled);;
  s ← get;
  modify (set_vars {| canceled := true; generation := generation (vars s) |}).

(** The event handler of a source *)
Definition timer_handler (i : nat) (clock : Z) : prog (sched debounce_vars) unit :=
  s ← get;
  src ← of_option FUndefined (sources s !! i);
  modify (set_sources (<[i:=set_status Stopped src]> (sources s)));;
  when (negb (canceled (vars s)) && (current src =? generation (vars s))) (call_back clock).

Definition debounce_run (delayInSeconds leewayInSeconds : double) (clock : Z) (j : job) : prog (sched debounce_vars) unit :=
  match j with
  | run_onSignal => debounce_onSignal delayInSeconds leewayInSeconds clock
  | run_onCancel => onCancel clock
  | run_handler i => timer_handler i clock
  end.
End debounce.

(** The variables and the queue [NPDispatchScheduleDebounce] makes. *)
Definition debounce_new : sched debounce_vars :=
  Build_sched {| canceled := false; generation := 0 |} [] [] [].

(** The blocks of its handle. *)
Definition debounce_signal : sched debounce_vars → sched debounce_vars := enqueue run_onSignal.
Definition debounce_cancel : sched debounce_vars → sched debounce_vars := enqueue run_onCancel.

(** ** Steps of a schedule *)

Section steps.
Context {V : Type}.
Context (signal_block cancel_block : sched V → sched V).
Context (run_job : Z → job → prog (sched V) unit).

(** The clock goes on; a client signals or cancels; a source that is due hands
    its event handler to the queue, once; the queue runs the block at its head. *)
Inductive sstep : Z * sched V → Z * sched V → Prop :=
| s_tick c c' s : c ≤ c' → sstep (c, s) (c', s)
| s_signal c s : sstep (c, s) (c, signal_block s)
| s_cancel c s : sstep (c, s) (c, cancel_block s)
| s_fire c s i src d :
    sources s !! i = Some src → status src = Armed → deadline src = Some d → d ≤ c →
    sstep (c, s) (c, enqueue (run_handler i) (set_sources (<[i:=set_status Fired src]> (sources s)) s))
| s_run c s j q s' :
    queue s = j :: q → run_job c j (set_queue q s) = Done tt s' →
    sstep (c, s) (c, s').
End steps.

(** What may happen next, as data, and the step it makes. *)
Inductive event := ETick (c : Z) | ESignal | ECancel | EFire (i : nat) | ERun.

Section exec.
Context {V : Type}.
Context (signal_block cancel_block : sched V → sched V).
Context (run_job : Z → job → prog (sched V) unit).

Definition exec_event (x : Z * sched V) (e : event) : option (Z * sched V) :=
  let '(c, s) := x in
  match e with
  | ETick c' => if c <=? c' then Some (c', s) else None
  | ESignal => Some (c, signal_block s)
  | ECancel => Some (c, cancel_block s)
  | EFire i =>
      src ← sources s !! i;
      d ← deadline src;
      if bool_decide (status src = Armed) && (d <=? c)
      then Some (c, enqueue (run_handler i) (set_sources (<[i:=set_status Fired src]> (sources s)) s))
      else None
  | ERun =>
      match queue s with
      | j :: q => match run_job c j (set_queue q s) with Done _ s' => Some (c, s') | Stop _ _ => None end
      | [] => None
      end
  end.

Fixpoint exec (x : Z * sched V) (l : list event) : option (Z * sched V) :=
  match l with
  | [] => Some x
  | e :: l => match exec_event x e with Some y => exec y l | None => None end
  end.

Lemma exec_sound l x y : exec x l = Some y → rtc (sstep signal_block cancel_block run_job) x y.
Proof.
  revert x. induction l as [|e l IH]; intros x H; simpl in H; [by injection H as ->|].
  destruct (exec_event x e) as [z|] eqn:He; [|done]. eapply rtc_l; [|by apply IH].
  destruct x as [c s], e as [c'| | |i|]; simpl in He.
  - destruct (Z.leb_spec c c'); [|done]. injection He as <-. by constructor.
  - injection He as <-. constructor.
  - injection He as <-. constructor.
  - destruct (sources s !! i) as [src|] eqn:Hi; simpl in He; [|done].
    destruct (deadline src) as [d|] eqn:Hd; simpl in He; [|done].
    destruct (bool_decide (status src = Armed) && (d <=? c)) eqn:E; [|done]. b2p.
    injection He as <-. by eapply s_fire.
  - destruct (queue s) as [|j q] eqn:Hq; [done|].
    destruct (run_job c j (set_queue q s)) as [[] s'|] eqn:Hr; [|done].
    injection He as <-. by eapply s_run.
Qed.
End exec.

(** ** Handles *)

(** A schedule of either kind with what its blocks captured. *)
Inductive schedule :=
| Throttle (delayInSeconds : double) (on : positive) (callback : nat) (s : sched throttle_vars)
| Debounce (delayInSeconds leewayInSeconds : double) (on : positive) (callback : nat) (s : sched debounce_vars).

(** The block of a handle: on which schedule it works, and whether it is the one
    of a signal or of a cancel. *)
Inductive block := signal_of (k : nat) | cancel_of (k : nat).

(** [struct NPScheduleWork]: the fields are [nil] in memory that is zeroed. *)
Record NPScheduleWork := { signal : option block; cancel : option block }.

Record program := {
  works : gmap positive NPScheduleWork;
  schedules : list schedule;
}.

Definition set_works (m : gmap positive NPScheduleWork) (s : program) : program :=
  {| works := m; schedules := schedules s |}.
Definition set_schedules (l : list schedule) (s : program) : program :=
  {| works := works s; schedules := l |}.

(** [calloc], which may refuse. *)
Class Calloc := {
  calloc : gmap positive NPScheduleWork → option positive;
  calloc_fresh m p : calloc m = Some p → m !! p = None;
}.

Definition store_work (p : positive) (f : NPScheduleWork → NPScheduleWork) : prog program unit :=
  s ← get;
  w ← of_option FUndefined (works s !! p);
  put (set_works (<[p:=f w]> (works s)) s).

(** [makeScheduleWork] *)
Definition makeScheduleWork `{Calloc} (sig can : block) : prog program (option positive) :=
  s ← get;
  match calloc (works s) with
  | None => mret None
  | Some work =>
      put (set_works (<[work:={| signal := None; cancel := None |}]> (works s)) s);;
      store_work work (λ w, {| signal := Some sig; cancel := cancel w |});;
      store_work work (λ w, {| signal := signal w; cancel := Some can |});;
      mret (Some work)
  end.

(** The two blocks a schedule gives its handle. *)
Definition signal_schedule (x : schedule) : schedule :=
  match x with
  | Throttle d on cb s => Throttle d on cb (throttle_signal s)
  | Debounce d l on cb s => Debounce d l on cb (debounce_signal s)
  end.
Definition cancel_schedule (x : schedule) : schedule :=
  match x with
  | Throttle d on cb s => Throttle d on cb (throttle_cancel s)
  | Debounce d l on cb s => Debounce d l on cb (debounce_cancel s)
  end.

Definition call (b : block) : prog program unit :=
  match b with
  | signal_of k => modify (λ s, set_schedules (alter signal_schedule k (schedules s)) s)
  | cancel_of k => modify (λ s, set_schedules (alter cancel_schedule k (schedules s)) s)
  end.

Definition NPScheduleWorkSignal (work : option positive) : prog program unit :=
  match work with
  | None => mret tt
  | Some p =>
      s ← get;
      w ← of_option FUndefined (works s !! p);
      b ← of_option FUndefined (signal w);
      call b
  end.

Definition NPScheduleWorkCancel (work : option positive) : prog program unit :=
  match work with
  | None => mret tt
  | Some p =>
      s ← get;
      w ← of_option FUndefined (works s !! p);
      b ← of_option FUndefined (cancel w);
      call b
  end.

Definition NPScheduleWorkFree (work : option positive) : prog program unit :=
  match work with
  | None => mret tt
  | Some p =>
      store_work p (λ w, {| signal := None; cancel := cancel w |});;
      store_work p (λ w, {| signal := signal w; cancel := None |});;
      modify (λ s, set_works (delete p (works s)) s)
  end.

(** A schedule is made before its handle. *)
Definition make_schedule `{Calloc} (x : schedule) : prog program (option positive) :=
  k ← gets (λ s, length (schedules s));
  modify (λ s, set_schedules (schedules s ++ [x]) s);;
  makeScheduleWork (signal_of k) (cancel_of k).

Definition NPDispatchScheduleThrottle `{Calloc} (delayInSeconds : double) (on : positive) (callback : nat) : prog program (option positive) :=
  make_schedule (Throttle delayInSeconds on callback throttle_new).

Definition NPDispatchScheduleDebounce `{Calloc} (delayInSeconds leewayInSeconds : double) (on : positive) (callback : nat) : prog program (option positive) :=
  make_schedule (Debounce delayInSeconds leewayInSeconds on callback debounce_new).

(** ** Positions in a log *)

(** A position of [l ++ k] lies in [l] or in [k]. *)
Lemma app_cons_split {A} (l k l1 l2 : list A) x :
  l ++ k = l1 ++ x :: l2 →
  (∃ r, l = l1 ++ x :: r ∧ l2 = r ++ k) ∨ (∃ r, l1 = l ++ r ∧ k = r ++ x :: l2).
Proof.
  intros H. apply app_eq_app in H as (m & [[Hl Hk]|[Hl Hk]]).
  - destruct m as [|y m]; simpl in *.
    + right. exists []. by rewrite app_nil_r in *.
    + left. injection Hk as -> ->. by exists m.
  - right. by exists m.
Qed.

(** When the callback was last handed over. *)
Definition last_called (l : list (Z * entry)) : option Z :=
  foldl (λ r e, if decide (e.2 = Called) then Some e.1 else r) None l.

Lemma last_called_snoc l c e :
  last_called (l ++ [(c, e)]) = if decide (e = Called) then Some c else last_called l.
Proof. unfold last_called. by rewrite foldl_app. Qed.

(** ** Throttle *)

(** Whether a signal at [c] is far enough from the last callback. *)
Definition window_over (delayInSeconds : double) (last : option Z) (c : Z) : bool :=
  match last with
  | None => true
  | Some c0 => dge (dsub (monotonicSeconds c) (monotonicSeconds c0)) delayInSeconds
  end.

Definition throttle_ok (delayInSeconds : double) (l : list (Z * entry)) : Prop :=
  ∀ l1 c e l2, l = l1 ++ (c, e) :: l2 →
    match e with
    | Signalled => head l2 = Some (c, Called) ↔ window_over delayInSeconds (last_called l1) c = true
    | Called => last l1 = Some (c, Signalled)
    | Canceled => False
    end.

Definition throttle_inv (delayInSeconds : double) (s : sched throttle_vars) : Prop :=
  throttle_ok delayInSeconds (log s) ∧
  hasFired (vars s) = bool_decide (is_Some (last_called (log s))) ∧
  (∀ c, last_called (log s) = Some c → previous (vars s) = monotonicSeconds c).

(** A signal after which the callback is not handed over. *)
Lemma throttle_ok_closed delay l c :
  throttle_ok delay l → window_over delay (last_called l) c = false →
  throttle_ok delay (l ++ [(c, Signalled)]).
Proof.
  intros Hl Hw l1 c' e l2 Heq. apply app_cons_split in Heq as [(r & Hr & ->)|(r & -> & Hr)].
  - specialize (Hl _ _ _ _ Hr). destruct e; try done. destruct r as [|x r]; [|done].
    simpl in *. rewrite <-Hl. by split.
  - destruct r as [|? [|]]; [|done..]. injection Hr as <- <- <-. rewrite app_nil_r.
    split; [done|]. congruence.
Qed.

(** A signal after which it is. *)
Lemma throttle_ok_open delay l c :
  throttle_ok delay l → window_over delay (last_called l) c = true →
  throttle_ok delay (l ++ [(c, Signalled); (c, Called)]).
Proof.
  intros Hl Hw l1 c' e l2 Heq. apply app_cons_split in Heq as [(r & Hr & ->)|(r & -> & Hr)].
  - specialize (Hl _ _ _ _ Hr). destruct e; try done. destruct r as [|x r]; [|done].
    simpl in *. rewrite <-Hl. by split.
  - destruct r as [|? [|? [|]]]; [| |done..].
    + injection Hr as <- <- <-. by rewrite app_nil_r.
    + injection Hr as <- <- <- <-. by rewrite last_snoc.
Qed.

Lemma throttle_onSignal_inv delay c s s' :
  throttle_inv delay s → throttle_onSignal delay c s = Done tt s' → throttle_inv delay s'.
Proof.
  intros (Hok & Hfired & Hprev).
  unfold throttle_onSignal, modify, get, when, call_back, mbind, prog_bind. simpl.
  assert (negb (hasFired (vars s)) || dge (dsub (monotonicSeconds c) (previous (vars s))) delay =
    window_over delay (last_called (log s)) c) as ->.
  { rewrite Hfired. unfold window_over. destruct (last_called (log s)) as [c0|]; [|done].
    simpl. by rewrite (Hprev c0). }
  destruct (window_over delay (last_called (log s)) c) eqn:Hw; intros [= <-];
    unfold throttle_inv, note, set_vars; simpl.
  - rewrite <-(assoc_L (++)), (assoc_L (++) _ [_] [_]), last_called_snoc. simpl.
    split; [by rewrite <-(assoc_L (++)); apply throttle_ok_open|]. split; [done|]. by intros ? [= <-].
  - rewrite last_called_snoc. simpl. split; [by apply throttle_ok_closed|done].
Qed.

Lemma throttle_step_inv delay x y :
  sstep throttle_signal throttle_cancel (throttle_run delay) x y →
  throttle_inv delay x.2 → throttle_inv delay y.2.
Proof.
  destruct 1 as [c c' s|c s|c s|c s i src d|c s j q s' Hq Hrun]; simpl; try done.
  intros Hinv. assert (throttle_inv delay (set_queue q s)) as Hinv' by done.
  destruct j; [by eapply throttle_onSignal_inv|by injection Hrun as <-..].
Qed.

(** How a throttle behaves. *)
Definition throttle_behaves (delay : double) (c : Z) (s : sched throttle_vars) : Prop :=
  (∀ l1 t l2, log s = l1 ++ (t, Signalled) :: l2 →
     (head l2 = Some (t, Called) ↔
      match last_called l1 with
      | None => True
      | Some t0 => dge (dsub (monotonicSeconds t) (monotonicSeconds t0)) delay = true
      end)) ∧
  (∀ l1 t l2, log s = l1 ++ (t, Called) :: l2 → last l1 = Some (t, Signalled)) ∧
  (∀ j q, queue s = j :: q → ∃ s', throttle_run delay c j (set_queue q s) = Done tt s').

Lemma throttle_reached delay c0 c s :
  rtc (sstep throttle_signal throttle_cancel (throttle_run delay)) (c0, throttle_new) (c, s) →
  throttle_behaves delay c s.
Proof.
  intros Hsteps.
  assert (throttle_inv delay s) as (Hok & _ & _).
  { change s with ((c, s).2). revert Hsteps. generalize (c, s). intros y Hsteps.
    assert (throttle_inv delay (c0, throttle_new).2) as H0.
    { split; [|done]. intros [|??] ????; done. }
    induction Hsteps as [|x y z Hxy _ IH]; [done|]. apply IH. by eapply throttle_step_inv. }
  split; [|split].
  - intros l1 t l2 Hl. specialize (Hok _ _ _ _ Hl). simpl in Hok. rewrite Hok.
    unfold window_over. by destruct (last_called l1).
  - intros l1 t l2 Hl. exact (Hok _ _ _ _ Hl).
  - intros [| |] q _; simpl; unfold throttle_onSignal, modify, get, when, call_back, mbind, prog_bind; simpl;
      [|by eexists..].
    destruct (_ || _); by eexists.
Qed.

(** Whatever clients, clock and queue do, a throttle hands its callback over
    exactly for the signals that find the window over: the first one, and each
    one at least the delay after the last that did, in the arithmetic of
    doubles.  A callback belongs to the signal just before it, so that no window
    sees two, and no block of the queue ever fails. *)
Theorem throttle_correct delay c0 c s :
  rtc (sstep throttle_signal throttle_cancel (throttle_run delay)) (c0, throttle_new) (c, s) →
  (∀ l1 t l2, log s = l1 ++ (t, Signalled) :: l2 →
     (head l2 = Some (t, Called) ↔
      match last_called l1 with
      | None => True
      | Some t0 => dge (dsub (monotonicSeconds t) (monotonicSeconds t0)) delay = true
      end)) ∧
  (∀ l1 t l2, log s = l1 ++ (t, Called) :: l2 → last l1 = Some (t, Signalled)) ∧
  (∀ j q, queue s = j :: q → ∃ s', throttle_run delay c j (set_queue q s) = Done tt s').
Proof. apply throttle_reached. Qed.

(** ** Debounce *)

(** The sources whose handlers wait on the queue. *)
Definition handlers (q : list job) : list nat :=
  omap (λ j, if j is run_handler i then Some i else None) q.

Lemma handlers_app q q' : handlers (q ++ q') = handlers q ++ handlers q'.
Proof. apply omap_app. Qed.

Definition signals (l : list (Z * entry)) : nat := length (filter (λ e, e.2 = Signalled) l).

Lemma signals_app l k : signals (l ++ k) = (signals l + signals k)%nat.
Proof. unfold signals. by rewrite filter_app, length_app. Qed.

(** Every callback stands right behind a signal, the delay after it. *)
Definition debounce_ok (delta : Z) (l : list (Z * entry)) : Prop :=
  ∀ l1 t l2, l = l1 ++ (t, Called) :: l2 →
    ∃ l0 t0, l1 = l0 ++ [(t0, Signalled)] ∧ t0 + delta ≤ t.

Lemma debounce_ok_other delta l c e :
  e ≠ Called → debounce_ok delta l → debounce_ok delta (l ++ [(c, e)]).
Proof.
  intros He Hl l1 t l2 Heq. apply app_cons_split in Heq as [(r & Hr & ->)|(r & -> & Hr)].
  - by eapply Hl.
  - destruct r as [|? [|]]; [|done..]. by injection Hr as _ ->.
Qed.

Lemma debounce_ok_called delta l t0 t :
  debounce_ok delta l → last l = Some (t0, Signalled) → t0 + delta ≤ t →
  debounce_ok delta (l ++ [(t, Called)]).
Proof.
  intros Hl Hlast Ht l1 t' l2 Heq. apply app_cons_split in Heq as [(r & Hr & ->)|(r & -> & Hr)].
  - by eapply Hl.
  - destruct r as [|? [|]]; [|done..]. injection Hr as <- <-. rewrite app_nil_r.
    apply last_Some in Hlast as [l0 ->]. by exists l0, t0.
Qed.

Section debounce_facts.
Context `{DispatchTime} (delta : Z).

(** Whether the last signal still waits for its answer: then nothing has been
    cancelled since and the newest source has not run; or it does not. *)
Definition pending_inv (s : sched debounce_vars) : Prop :=
  match last (log s) with
  | Some (t0, Signalled) =>
      canceled (vars s) = false ∧
      ∃ src, last (sources s) = Some src ∧ status src ≠ Stopped ∧ deadline src = dispatch_time t0 delta
  | _ =>
      canceled (vars s) = true ∨ sources s = [] ∨
      ∃ src, last (sources s) = Some src ∧ status src = Stopped
  end.

Record debounce_inv (c : Z) (s : sched debounce_vars) : Prop := {
  di_log : debounce_ok delta (log s);
  di_signals : signals (log s) = length (sources s);
  di_generation : generation (vars s) = Z.of_nat (length (sources s));
  di_current : ∀ i src, sources s !! i = Some src → current src = Z.of_nat i + 1;
  di_due : ∀ i src, sources s !! i = Some src → status src = Fired →
    ∃ d, deadline src = Some d ∧ d ≤ c;
  di_queue : ∀ i, i ∈ handlers (queue s) ↔ ∃ src, sources s !! i = Some src ∧ status src = Fired;
  di_nodup : NoDup (handlers (queue s));
  di_pending : pending_inv s;
}.

Lemma debounce_inv_new c : debounce_inv c debounce_new.
Proof.
  split; simpl; try done.
  - by intros [|??] ???.
  - intros i. split; [by intros ?%not_elem_of_nil|by intros (? & ? & _)].
  - constructor.
  - right. by left.
Qed.

(** Blocks that are not handlers may join the queue or leave it. *)
Lemma debounce_inv_queue c s q :
  handlers q = handlers (queue s) → debounce_inv c s → debounce_inv c (set_queue q s).
Proof. intros Hq [????? Hqueue Hnodup ?]. split; simpl; try done; by rewrite Hq. Qed.

Lemma debounce_inv_tick c c' s : c ≤ c' → debounce_inv c s → debounce_inv c' s.
Proof.
  intros Hc []. split; try done. intros i src Hi Hf.
  destruct (di_due0 i src Hi Hf) as (d & ? & ?). exists d. split; [done|lia].
Qed.

Lemma last_insert {A} (l : list A) i x :
  (i < length l)%nat → last (<[i:=x]> l) = if decide (S i = length l) then Some x else last l.
Proof.
  intros Hi. rewrite !last_lookup, length_insert. case_decide as Hl.
  - rewrite <-Hl. simpl. by apply list_lookup_insert_eq.
  - apply list_lookup_insert_ne. lia.
Qed.

(** A source that changes its status without stopping, or after it had stopped. *)
Lemma pending_inv_insert s i src st :
  sources s !! i = Some src → st ≠ Stopped → status src ≠ Stopped → pending_inv s →
  pending_inv (set_sources (<[i:=set_status st src]> (sources s)) s).
Proof.
  intros Hi Hst Hsrc. unfold pending_inv. simpl.
  pose proof (lookup_lt_Some _ _ _ Hi) as Hlt. rewrite last_insert by done.
  assert (S i = length (sources s) → last (sources s) = Some src) as Hlast.
  { intros Hl. rewrite last_lookup, <-Hl. done. }
  destruct (last (log s)) as [[t0 []]|]; [intros [Hc (src0 & H0 & H1 & H2)]; split; [done|]|..].
  { case_decide as Hl; [|by exists src0]. specialize (Hlast Hl). simplify_eq.
    by eexists. }
  all: intros [Hc|[Hnil|(src0 & H0 & H1)]]; [by left|by rewrite Hnil in Hi|right; right].
  all: case_decide as Hl; [|by exists src0]; specialize (Hlast Hl); simplify_eq.
Qed.

Lemma debounce_inv_fire c s i src d :
  sources s !! i = Some src → status src = Armed → deadline src = Some d → d ≤ c →
  debounce_inv c s →
  debounce_inv c (enqueue (run_handler i) (set_sources (<[i:=set_status Fired src]> (sources s)) s)).
Proof.
  intros Hi Ha Hd Hc [Hlog Hsig Hgen Hcur Hdue Hqueue Hnodup Hpend].
  assert (∀ j src', <[i:=set_status Fired src]> (sources s) !! j = Some src' →
    (j = i ∧ src' = set_status Fired src) ∨ (j ≠ i ∧ sources s !! j = Some src')) as Hins.
  { intros j src' Hj. destruct (decide (j = i)) as [->|Hji].
    - rewrite list_lookup_insert_eq in Hj by (by eapply lookup_lt_Some). left. by injection Hj.
    - rewrite list_lookup_insert_ne in Hj by done. by right. }
  split; simpl; rewrite ?length_insert; try done.
  - intros j src' [[-> ->]|[_ Hj]]%Hins; simpl; by eapply Hcur.
  - intros j src' [[-> ->]|[_ Hj]]%Hins; simpl; [by exists d|by eapply Hdue].
  - intros j. rewrite handlers_app. simpl. rewrite elem_of_app, list_elem_of_singleton, Hqueue. split.
    + intros [(src' & Hj & Hf)| ->].
      * exists src'. rewrite list_lookup_insert_ne; [done|]. intros ->. simplify_eq. congruence.
      * exists (set_status Fired src). by rewrite list_lookup_insert_eq by (by eapply lookup_lt_Some).
    + intros (src' & [[-> ->]|[_ Hj]]%Hins & Hf); [by right|left; by exists src'].
  - rewrite handlers_app. simpl. apply NoDup_app. split; [done|]. split; [|apply NoDup_singleton].
    intros j Hj ->%list_elem_of_singleton. apply Hqueue in Hj as (src' & Hj & Hf).
    simplify_eq. congruence.
  - apply (pending_inv_insert s i src Fired); [done|done|by destruct (status src)|done].
Qed.

Lemma debounce_inv_onSignal c s src :
  current src = Z.of_nat (length (sources s)) + 1 → deadline src = dispatch_time c delta →
  status src = Armed → debounce_inv c s →
  debounce_inv c (Build_sched {| canceled := false; generation := current src |}
    (queue s) (sources s ++ [src]) (log s ++ [(c, Signalled)])).
Proof.
  intros Hcur Hd Ha [Hlog Hsig Hgen Hcurs Hdue Hqueue Hnodup Hpend].
  assert (∀ i x, (sources s ++ [src]) !! i = Some x →
    sources s !! i = Some x ∨ (i = length (sources s) ∧ x = src)) as Hsnoc.
  { intros i x Hi. apply lookup_app_Some in Hi as [Hi|[Hl Hi]]; [by left|right].
    apply list_lookup_singleton_Some in Hi as [Hi <-]. split; [lia|done]. }
  split; simpl.
  - by apply debounce_ok_other.
  - rewrite signals_app, length_app, Hsig. done.
  - rewrite Hcur, length_app. simpl. lia.
  - intros i x [Hi|[-> ->]]%Hsnoc; [by eapply Hcurs|done].
  - intros i x [Hi|[-> ->]]%Hsnoc Hf; [by eapply Hdue|congruence].
  - intros i. rewrite Hqueue. split; intros (x & Hi & Hf).
    + exists x. split; [by apply lookup_app_l_Some|done].
    + apply Hsnoc in Hi as [Hi|[-> ->]]; [by exists x|congruence].
  - done.
  - unfold pending_inv. simpl. rewrite !last_snoc. split; [done|]. exists src. by rewrite Ha.
Qed.

Lemma debounce_inv_onCancel c s :
  debounce_inv c s →
  debounce_inv c (Build_sched {| canceled := true; generation := generation (vars s) |}
    (queue s) (sources s) (log s ++ [(c, Canceled)])).
Proof.
  intros []. split; simpl; try done.
  - by apply debounce_ok_other.
  - rewrite signals_app. simpl. unfold signals at 2. simpl. lia.
  - unfold pending_inv. simpl. rewrite last_snoc. by left.
Qed.

(** The handler of a source that waited at the head of the queue. *)
Lemma debounce_inv_handler c s i q src :
  queue s = run_handler i :: q → sources s !! i = Some src → debounce_inv c s →
  debounce_inv c (Build_sched (vars s) q (<[i:=set_status Stopped src]> (sources s))
    (if negb (canceled (vars s)) && (current src =? generation (vars s))
     then log s ++ [(c, Called)] else log s)).
Proof.
  intros Hq Hi [Hlog Hsig Hgen Hcur Hdue Hqueue Hnodup Hpend].
  assert (status src = Fired) as Hfired.
  { destruct (proj1 (Hqueue i)) as (x & Hx & Hf); [rewrite Hq; by left|]. by simplify_eq. }
  rewrite Hq in Hnodup. simpl in Hnodup. apply NoDup_cons in Hnodup as [Hni Hnodup].
  assert (∀ j x, <[i:=set_status Stopped src]> (sources s) !! j = Some x →
    (j = i ∧ x = set_status Stopped src) ∨ (j ≠ i ∧ sources s !! j = Some x)) as Hins.
  { intros j x Hj. destruct (decide (j = i)) as [->|Hji].
    - rewrite list_lookup_insert_eq in Hj by (by eapply lookup_lt_Some). left. by injection Hj.
    - rewrite list_lookup_insert_ne in Hj by done. by right. }
  pose proof (lookup_lt_Some _ _ _ Hi) as Hlt.
  assert (current src = generation (vars s) → last (sources s) = Some src) as Hnewest.
  { rewrite (Hcur _ _ Hi), Hgen, last_lookup. intros Hl.
    by replace (Init.Nat.pred (length (sources s))) with i by lia. }
  destruct (Hdue _ _ Hi Hfired) as (d & Hd & Hdc).
  split; cbn [log sources queue vars]; rewrite ?length_insert; try done.
  - destruct (_ && _) eqn:E; [|done]. b2p. specialize (Hnewest H1).
    unfold pending_inv in Hpend. destruct (last (log s)) as [[t0 []]|] eqn:Hlast; try (destruct Hpend as [?|[Hnil|(x & Hx & Hst)]];
      [congruence|by rewrite Hnil in Hi|congruence]).
    destruct Hpend as (_ & x & Hx & _ & Hdx). eapply debounce_ok_called; [done|done|].
    assert (t0 + delta ≤ d); [|lia]. apply dispatch_time_spec. congruence.
  - destruct (_ && _); [|done]. rewrite signals_app. unfold signals at 2. simpl. lia.
  - intros j x [[-> ->]|[_ Hj]]%Hins; simpl; by eapply Hcur.
  - intros j x [[-> ->]|[_ Hj]]%Hins; simpl; [done|by eapply Hdue].
  - intros j. split.
    + intros Hj. destruct (proj1 (Hqueue j)) as (x & Hx & Hf); [rewrite Hq; by right|].
      exists x. rewrite list_lookup_insert_ne; [done|]. by intros <-.
    + intros (x & [[-> ->]|[Hji Hj]]%Hins & Hf); [done|].
      assert (j ∈ handlers (queue s)) as Hin by (apply Hqueue; by exists x).
      rewrite Hq in Hin. simpl in Hin. by apply elem_of_cons in Hin as [?|?].
  - unfold pending_inv in *. cbn [log sources vars]. rewrite last_insert by done.
    assert (S i = length (sources s) ↔ current src = generation (vars s)) as Heq
      by (rewrite (Hcur _ _ Hi), Hgen; lia).
    destruct (_ && _) eqn:E; b2p.
    + rewrite last_snoc. right; right. rewrite decide_True by (by apply Heq). by eexists.
    + destruct (decide (S i = length (sources s))) as [Hl|Hl].
      2: { destruct (last (log s)) as [[t0 []]|]; [done|..];
             (destruct Hpend as [?|[?|?]]; [by left|by rewrite H0 in Hi|by right; right]). }
      assert (canceled (vars s) = true) as Hcan.
      { apply Heq in Hl. rewrite Hl, Z.eqb_refl, andb_true_r in E. by destruct (canceled (vars s)). }
      destruct (last (log s)) as [[t0 []]|]; [by destruct Hpend; congruence|by left..].
Qed.

(** *** The queue *)

Context (delayInSeconds leewayInSeconds : double) (lee : Z).
Context (Hdelay : to_int64 (nanoseconds delayInSeconds) = Some delta).
Context (Hleeway : to_uint64 (nanoseconds leewayInSeconds) = Some lee).

Lemma debounce_run_signals c j (s s' : sched debounce_vars) :
  debounce_run delayInSeconds leewayInSeconds c j s = Done tt s' →
  (signals (log s) ≤ signals (log s'))%nat.
Proof.
  assert (∀ e, (signals (log s) ≤ signals (log s ++ [(c, e)]))%nat) as Happ
    by (intros; rewrite signals_app; lia).
  destruct j as [| |i]; cbn [debounce_run].
  - unfold debounce_onSignal, modify, get, of_option, mbind, prog_bind. simpl.
    rewrite Hdelay, Hleeway. intros [= <-]. apply Happ.
  - intros [= <-]. apply Happ.
  - unfold timer_handler, modify, get, of_option, when, call_back, mbind, prog_bind.
    destruct (sources s !! i); cbn; [|done].
    destruct (_ && _); intros [= <-]; [apply Happ|done].
Qed.

Lemma debounce_run_inv c s j q :
  queue s = j :: q → debounce_inv c s → Z.of_nat (signals (log s)) < SIZE_MAX →
  ∃ s', debounce_run delayInSeconds leewayInSeconds c j (set_queue q s) = Done tt s' ∧ debounce_inv c s'.
Proof.
  intros Hq Hinv Hn. destruct j as [| |i]; simpl.
  - unfold debounce_onSignal, modify, get, of_option, mbind, prog_bind. simpl.
    rewrite Hdelay, Hleeway. simpl. eexists. split; [done|].
    assert (debounce_inv c (set_queue q s)) as Hinv'
      by (apply debounce_inv_queue; [by rewrite Hq|done]).
    rewrite (di_generation _ _ Hinv), <-(di_signals _ _ Hinv), to_size_id by lia.
    refine (debounce_inv_onSignal c (set_queue q s)
      {| current := _; deadline := _; leeway := lee; status := Armed |} _ eq_refl eq_refl Hinv').
    simpl. by rewrite (di_signals _ _ Hinv).
  - eexists. split; [done|]. apply (debounce_inv_onCancel c (set_queue q s)).
    apply debounce_inv_queue; [by rewrite Hq|done].
  - destruct (proj1 (di_queue _ _ Hinv i)) as (src & Hi & _); [rewrite Hq; by left|].
    pose proof (debounce_inv_handler c s i q src Hq Hi Hinv) as Hinv'.
    unfold timer_handler, modify, get, of_option, when, call_back, mbind, prog_bind. simpl.
    rewrite Hi. simpl. destruct (_ && _) eqn:E; eexists; (split; [done|]); exact Hinv'.
Qed.

Lemma debounce_step_inv x y :
  sstep debounce_signal debounce_cancel (debounce_run delayInSeconds leewayInSeconds) x y →
  (signals (log x.2) ≤ signals (log y.2))%nat ∧
  (debounce_inv x.1 x.2 → Z.of_nat (signals (log y.2)) < SIZE_MAX → debounce_inv y.1 y.2).
Proof.
  intros Hstep.
  destruct Hstep as [c c' s Hc|c s|c s|c s i src d|c s j q s' Hq Hrun]; simpl in *.
  - split; [done|]. intros Hinv _. by eapply debounce_inv_tick.
  - split; [done|]. intros Hinv _. apply debounce_inv_queue; [|done].
    rewrite handlers_app. simpl. by rewrite app_nil_r.
  - split; [done|]. intros Hinv _. apply debounce_inv_queue; [|done].
    rewrite handlers_app. simpl. by rewrite app_nil_r.
  - split; [done|]. intros Hinv _. by eapply debounce_inv_fire.
  - pose proof (debounce_run_signals _ _ _ _ Hrun) as Hle. simpl in Hle. split; [done|].
    intros Hinv Hn. destruct (debounce_run_inv c s j q Hq Hinv) as (s2 & Hrun2 & Hinv2); [lia|].
    rewrite Hrun in Hrun2. by injection Hrun2 as <-.
Qed.

Lemma debounce_reachable c0 x :
  rtc (sstep debounce_signal debounce_cancel (debounce_run delayInSeconds leewayInSeconds))
    (c0, debounce_new) x →
  Z.of_nat (signals (log x.2)) < SIZE_MAX → debounce_inv x.1 x.2.
Proof.
  revert x. apply (rtc_ind_r (λ x, Z.of_nat (signals (log x.2)) < SIZE_MAX → debounce_inv x.1 x.2)).
  - intros _. apply debounce_inv_new.
  - intros x y _ Hxy IH Hn. destruct (debounce_step_inv x y Hxy) as [Hle Hinv].
    apply Hinv; [|done]. apply IH. lia.
Qed.
End debounce_facts.

(** How a debounce behaves. *)
Definition debounce_behaves `{DispatchTime} (delayInSeconds leewayInSeconds : double) (delta c : Z)
    (s : sched debounce_vars) : Prop :=
  (∀ l1 t l2, log s = l1 ++ (t, Called) :: l2 →
     ∃ l0 t0, l1 = l0 ++ [(t0, Signalled)] ∧ t0 + delta ≤ t) ∧
  (queue s = [] → (∀ src, src ∈ sources s → status src ≠ Armed) →
     ∀ t0, last (log s) ≠ Some (t0, Signalled)) ∧
  (∀ j q, queue s = j :: q →
     ∃ s', debounce_run delayInSeconds leewayInSeconds c j (set_queue q s) = Done tt s').

Lemma debounce_reached `{DispatchTime} delayInSeconds leewayInSeconds delta lee c0 c s :
  to_int64 (nanoseconds delayInSeconds) = Some delta →
  to_uint64 (nanoseconds leewayInSeconds) = Some lee →
  Z.of_nat (signals (log s)) < SIZE_MAX →
  rtc (sstep debounce_signal debounce_cancel (debounce_run delayInSeconds leewayInSeconds))
    (c0, debounce_new) (c, s) →
  debounce_behaves delayInSeconds leewayInSeconds delta c s.
Proof.
  intros Hdelay Hleeway Hn Hsteps.
  pose proof (debounce_reachable delta delayInSeconds leewayInSeconds lee Hdelay Hleeway c0 (c, s)
    Hsteps Hn) as Hinv. simpl in Hinv.
  split; [exact (di_log _ _ _ Hinv)|]. split.
  - intros Hq Ha t0 Hl. pose proof (di_pending _ _ _ Hinv) as Hp. unfold pending_inv in Hp.
    rewrite Hl in Hp. destruct Hp as (_ & src & Hsrc & Hst & _).
    rewrite last_lookup in Hsrc.
    destruct (status src) eqn:Hs; [|..|done].
    + apply list_elem_of_lookup_2 in Hsrc. by destruct (Ha _ Hsrc).
    + assert (Init.Nat.pred (length (sources s)) ∈ handlers (queue s)) as Hin
        by (apply (di_queue _ _ _ Hinv); by exists src).
      rewrite Hq in Hin. by apply not_elem_of_nil in Hin.
  - intros j q Hq. destruct (debounce_run_inv delta delayInSeconds leewayInSeconds lee Hdelay Hleeway
      c s j q Hq Hinv Hn) as (s' & ? & _). by exists s'.
Qed.

(** C10: whatever clients, clock, sources and queue do, fewer than [SIZE_MAX]
    signals long, a debounce hands its callback over only when its delay has
    passed after a signal with nothing in between, neither a further signal nor
    a cancel nor another callback: a burst collapses into one callback, and a
    cancel calls a pending one off for good.  No signal is lost either: when the
    queue is empty and no source waits, the last signal has been answered.  And
    no block of the queue ever fails. *)
Theorem debounce_correct `{DispatchTime} delayInSeconds leewayInSeconds delta lee c0 c s :
  to_int64 (nanoseconds delayInSeconds) = Some delta →
  to_uint64 (nanoseconds leewayInSeconds) = Some lee →
  Z.of_nat (signals (log s)) < SIZE_MAX →
  rtc (sstep debounce_signal debounce_cancel (debounce_run delayInSeconds leewayInSeconds))
    (c0, debounce_new) (c, s) →
  (∀ l1 t l2, log s = l1 ++ (t, Called) :: l2 →
     ∃ l0 t0, l1 = l0 ++ [(t0, Signalled)] ∧ t0 + delta ≤ t) ∧
  (queue s = [] → (∀ src, src ∈ sources s → status src ≠ Armed) →
     ∀ t0, last (log s) ≠ Some (t0, Signalled)) ∧
  (∀ j q, queue s = j :: q →
     ∃ s', debounce_run delayInSeconds leewayInSeconds c j (set_queue q s) = Done tt s').
Proof. apply debounce_reached. Qed.

(** ** Handles *)

Inductive hop := HSignal | HCancel.

Definition work_op (work : option positive) (o : hop) : prog program unit :=
  match o with HSignal => NPScheduleWorkSignal work | HCancel => NPScheduleWorkCancel work end.
Definition work_ops (work : option positive) (ops : list hop) : prog program unit :=
  foldr (λ o m, work_op work o;; m) (mret tt) ops.

Definition apply_op (x : schedule) (o : hop) : schedule :=
  match o with HSignal => signal_schedule x | HCancel => cancel_schedule x end.

(** The life of a handle: made, used, freed. *)
Definition life (make : prog program (option positive)) (ops : list hop) : prog program (option positive) :=
  work ← make; work_ops work ops;; NPScheduleWorkFree work;; mret work.

(** A handle of the [k]th schedule. *)
Definition handle_of (k : nat) : NPScheduleWork :=
  {| signal := Some (signal_of k); cancel := Some (cancel_of k) |}.

Lemma makeScheduleWork_correct `{Calloc} k s :
  wp (makeScheduleWork (signal_of k) (cancel_of k))
    (λ w s', w = calloc (works s) ∧ schedules s' = schedules s ∧
      works s' = if w is Some p then <[p:=handle_of k]> (works s) else works s) s.
Proof.
  unfold makeScheduleWork, store_work, put, wp, get, mbind, prog_bind.
  destruct (calloc (works s)) as [p|] eqn:Hp; [|done]. simpl. rewrite lookup_insert_eq. simpl.
  rewrite lookup_insert_eq. simpl. by rewrite !insert_insert_eq.
Qed.

Lemma work_op_correct p k o s :
  works s !! p = Some (handle_of k) →
  work_op (Some p) o s =
    Done tt (set_schedules (alter (λ x, apply_op x o) k (schedules s)) s).
Proof.
  intros Hp. destruct o; simpl; unfold get, mbind, prog_bind; rewrite Hp; done.
Qed.

Lemma work_ops_correct p k ops s :
  works s !! p = Some (handle_of k) →
  work_ops (Some p) ops s =
    Done tt (set_schedules (alter (λ x, foldl apply_op x ops) k (schedules s)) s).
Proof.
  revert s. induction ops as [|o ops IH]; intros s Hp; simpl.
  { destruct s as [w l]. unfold set_schedules. simpl. by rewrite list_alter_id. }
  unfold mbind, prog_bind. rewrite (work_op_correct p k o s Hp). rewrite IH by done.
  unfold set_schedules. simpl. do 2 f_equal. by rewrite list_alter_alter_eq.
Qed.

Lemma work_ops_null ops s : work_ops None ops s = Done tt s.
Proof. induction ops as [|[] ops IH]; [done|..]; apply IH. Qed.

Lemma NPScheduleWorkFree_correct p w s :
  works s !! p = Some w →
  NPScheduleWorkFree (Some p) s = Done tt (set_works (delete p (works s)) s).
Proof.
  intros Hp. simpl. unfold store_work, get, mbind, prog_bind. rewrite Hp. simpl.
  rewrite lookup_insert_eq. simpl. unfold modify, set_works. simpl.
  by rewrite insert_insert_eq, delete_insert_eq.
Qed.

Definition life_outcome (x : schedule) (ops : list hop) (handle : option positive) (s : program)
    (w : option positive) (s' : program) : Prop :=
  w = handle ∧ works s' = works s ∧
  schedules s' = schedules s ++ [if w is Some _ then foldl apply_op x ops else x] ∧
  match w with
  | None => True
  | Some p =>
      halts (NPScheduleWorkSignal w) FUndefined s' ∧ halts (NPScheduleWorkCancel w) FUndefined s' ∧
      halts (NPScheduleWorkFree w) FUndefined s'
  end.

Lemma life_correct `{Calloc} x ops s :
  wp (life (make_schedule x) ops) (life_outcome x ops (calloc (works s)) s) s.
Proof.
  unfold life, make_schedule. apply wp_bind, wp_bind, wp_gets, wp_bind, wp_modify.
  eapply wp_mono; [apply makeScheduleWork_correct|].
  intros w s1 (Hw & Hl & Hworks). simpl in *. destruct w as [p|].
  - pose proof (calloc_fresh (works s) p (eq_sym Hw)) as Hfresh.
    assert (works s1 !! p = Some (handle_of (length (schedules s)))) as Hp
      by (rewrite Hworks; apply lookup_insert_eq).
    unfold wp, mbind, prog_bind. rewrite (work_ops_correct p _ ops s1 Hp).
    rewrite (NPScheduleWorkFree_correct p (handle_of (length (schedules s)))) by done.
    unfold life_outcome, halts, NPScheduleWorkSignal, NPScheduleWorkCancel, NPScheduleWorkFree,
      store_work, get, mbind, prog_bind. simpl. rewrite lookup_delete_eq. simpl.
    split; [done|]. split; [by rewrite Hworks, delete_insert_id|].
    split; [|done]. rewrite Hl. by rewrite alter_app_r_alt, Nat.sub_diag by lia.
  - unfold wp, mbind, prog_bind. rewrite work_ops_null. by repeat split.
Qed.

(** A handle, from its making to its end: signalling and cancelling it run
    the blocks of its own schedule, in order, and touch no other; freeing it
    gives back exactly its memory and leaves the schedule, with whatever is
    pending on it, as it was.  A handle that could not be allocated is [NULL],
    on which everything does nothing.  Using a handle after it was freed is
    undefined. *)
Theorem schedule_handle_correct `{Calloc} ops s :
  (∀ delayInSeconds on callback,
    wp (life (NPDispatchScheduleThrottle delayInSeconds on callback) ops)
      (life_outcome (Throttle delayInSeconds on callback throttle_new) ops (calloc (works s)) s) s) ∧
  (∀ delayInSeconds leewayInSeconds on callback,
    wp (life (NPDispatchScheduleDebounce delayInSeconds leewayInSeconds on callback) ops)
      (life_outcome (Debounce delayInSeconds leewayInSeconds on callback debounce_new) ops
        (calloc (works s)) s) s).
Proof. split; intros; apply life_correct. Qed.

(** ** Concrete runs *)

#[export] Instance plain_dispatch_time : DispatchTime.
Proof.
  refine {| dispatch_time now delta := if now + delta <=? SIZE_MAX then Some (now + delta) else None |}.
  intros now delta d. destruct (now + delta <=? SIZE_MAX); [|done]. intros [= <-]. lia.
Defined.

(** Four signals, of which the first and the last find the window over. *)
Definition throttle_events : list event :=
  [ESignal; ESignal; ERun; ERun; ETick 999999999; ESignal; ECancel; ERun; ETick 1000000000; ESignal; ERun].
Definition throttle_run_end : sched throttle_vars :=
  Build_sched {| previous := of_int 1; hasFired := true |} [] []
    [(0, Signalled); (0, Called); (0, Signalled); (999999999, Signalled);
     (1000000000, Signalled); (1000000000, Called)].

Lemma throttle_correct_witness :
  rtc (sstep throttle_signal throttle_cancel (throttle_run (of_int 1)))
    (0, throttle_new) (1000000000, throttle_run_end) ∧
  dge (dsub (monotonicSeconds 1000000000) (monotonicSeconds 0)) (of_int 1) = true.
Proof.
  assert (rtc (sstep throttle_signal throttle_cancel (throttle_run (of_int 1)))
    (0, throttle_new) (1000000000, throttle_run_end)) as Hs
    by (apply (exec_sound _ _ _ throttle_events); vm_compute; reflexivity).
  split; [exact Hs|].
  destruct (throttle_correct (of_int 1) 0 1000000000 throttle_run_end Hs) as (Hsig & _ & _).
  destruct (Hsig (take 4 (log throttle_run_end)) 1000000000 [(1000000000, Called)] eq_refl) as [Hd _].
  exact (Hd eq_refl).
Defined.

(** A burst of two signals, a cancelled signal, and one that is answered. *)
Definition debounce_events : list event :=
  [ESignal; ERun; ETick 500000000; ESignal; ERun; ETick 1500000000; EFire 0; EFire 1; ERun; ERun;
   ESignal; ECancel; ERun; ERun; ETick 3000000000; EFire 2; ERun].
Definition debounce_run_end : sched debounce_vars :=
  Build_sched {| canceled := true; generation := 3 |} []
    [{| current := 1; deadline := Some 1000000000; leeway := 0; status := Stopped |};
     {| current := 2; deadline := Some 1500000000; leeway := 0; status := Stopped |};
     {| current := 3; deadline := Some 2500000000; leeway := 0; status := Stopped |}]
    [(0, Signalled); (500000000, Signalled); (1500000000, Called);
     (1500000000, Signalled); (1500000000, Canceled)].

Lemma debounce_correct_witness :
  to_int64 (nanoseconds (of_int 1)) = Some 1000000000 ∧
  to_uint64 (nanoseconds (of_int 0)) = Some 0 ∧
  rtc (sstep debounce_signal debounce_cancel (debounce_run (of_int 1) (of_int 0)))
    (0, debounce_new) (3000000000, debounce_run_end) ∧
  ∃ l0 t0, take 2 (log debounce_run_end) = l0 ++ [(t0, Signalled)] ∧ t0 + 1000000000 ≤ 1500000000.
Proof.
  assert (to_int64 (nanoseconds (of_int 1)) = Some 1000000000) as H1 by (vm_compute; reflexivity).
  assert (to_uint64 (nanoseconds (of_int 0)) = Some 0) as H0 by (vm_compute; reflexivity).
  assert (rtc (sstep debounce_signal debounce_cancel (debounce_run (of_int 1) (of_int 0)))
    (0, debounce_new) (3000000000, debounce_run_end)) as Hs
    by (apply (exec_sound _ _ _ debounce_events); vm_compute; reflexivity).
  split; [exact H1|]. split; [exact H0|]. split; [exact Hs|].
  destruct (debounce_correct (of_int 1) (of_int 0) 1000000000 0 0 3000000000 debounce_run_end
    H1 H0 eq_refl Hs) as (Hc & _ & _).
  exact (Hc (take 2 (log debounce_run_end)) 1500000000 (drop 3 (log debounce_run_end)) eq_refl).
Defined.
End Schedule.
