(* ===== verification/ScheduleLive.v ===== *)
(** * ScheduleLive: a debounced signal is answered

    What Schedule.v leaves open is that the callback does come: here no client
    does anything any more, and only the clock, the sources and the queue go on.
    A signal that has run and was not called off is then answered exactly once,
    as soon as the system lets the queue run after the delay. *)

From S2P Require Import Prelude Dispatch Schedule.

Module ScheduleLive.
Import Dispatch Schedule.

Section live.
Context `{DispatchTime}.
Context (delayInSeconds leewayInSeconds : double) (delta lee : Z).
Context (Hdelay : to_int64 (nanoseconds delayInSeconds) = Some delta).
Context (Hleeway : to_uint64 (nanoseconds leewayInSeconds) = Some lee).

Notation run_job := (debounce_run delayInSeconds leewayInSeconds).

(** The steps when the handle is not used: signalling and cancelling do nothing. *)
Definition quiet : Z * sched debounce_vars → Z * sched debounce_vars → Prop :=
  sstep (λ s, s) (λ s, s) run_job.

Definition is_handler (j : job) : bool := if j is run_handler _ then true else false.

(** Only event handlers wait on the queue. *)
Definition only_handlers (s : sched debounce_vars) : Prop := Forall (λ j, is_handler j = true) (queue s).

(** The log after the handler of the [i]th source has run. *)
Definition handled (c : Z) (i : nat) (s : sched debounce_vars) : list (Z * entry) :=
  match last (log s) with
  | Some (_, Signalled) => if decide (S i = length (sources s)) then log s ++ [(c, Called)] else log s
  | _ => log s
  end.

Lemma newest_last {A} (l : list A) i x : l !! i = Some x → S i = length l → last l = Some x.
Proof. intros Hi Hl. by rewrite last_lookup, <-Hl. Qed.

Lemma run_handler_log c s i q :
  queue s = run_handler i :: q → debounce_inv delta c s →
  ∃ s', run_job c (run_handler i) (set_queue q s) = Done tt s' ∧ log s' = handled c i s ∧
    queue s' = q ∧ length (sources s') = length (sources s).
Proof.
  intros Hq Hinv. destruct (proj1 (di_queue _ _ _ Hinv i)) as (src & Hi & Hf); [rewrite Hq; by left|].
  assert (current src = generation (vars s) ↔ S i = length (sources s)) as Hcur.
  { rewrite (di_current _ _ _ Hinv i src Hi), (di_generation _ _ _ Hinv). lia. }
  pose proof (di_pending _ _ _ Hinv) as Hp. unfold pending_inv in Hp.
  assert (S i = length (sources s) → last (sources s) = Some src) as Hl by by eapply newest_last.
  unfold debounce_run, timer_handler, modify, get, of_option, when, call_back, mbind, prog_bind. simpl.
  rewrite Hi. simpl.
  assert (handled c i s = if negb (canceled (vars s)) && (current src =? generation (vars s))
    then log s ++ [(c, Called)] else log s) as ->.
  { unfold handled. destruct (decide (S i = length (sources s))) as [Hn|Hn].
    - rewrite (proj2 (Z.eqb_eq _ _)), andb_true_r by (by apply Hcur). specialize (Hl Hn).
      destruct (last (log s)) as [[t []]|]; [by destruct Hp as [-> _]|..];
        (destruct Hp as [->|[Hnil|(x & Hx & Hst)]]; [done|by rewrite Hnil in Hi|congruence]).
    - rewrite (proj2 (Z.eqb_neq _ _)), andb_false_r by (by rewrite Hcur).
      by destruct (last (log s)) as [[t []]|]. }
  destruct (_ && _); eexists; (split; [done|]); split_and!; simpl; try done; apply length_insert.
Qed.

(** ** While the signal waits for its answer, and after *)

(** The log when the handle was used last: it ends with a signal at [t0], due at [d]. *)
Context (l0 : list (Z * entry)) (t0 d : Z).
Context (Hlast : last l0 = Some (t0, Signalled)) (Hdue : dispatch_time t0 delta = Some d).
Context (Hroom : Z.of_nat (signals l0) < SIZE_MAX).

Definition answered (c : Z) (s : sched debounce_vars) : Prop :=
  ∃ t, d ≤ t ≤ c ∧ log s = l0 ++ [(t, Called)].

Record live_inv (c : Z) (s : sched debounce_vars) : Prop := {
  li_inv : debounce_inv delta c s;
  li_queue : only_handlers s;
  li_log : log s = l0 ∨ answered c s;
}.

Lemma live_signals c s : live_inv c s → Z.of_nat (signals (log s)) < SIZE_MAX.
Proof. intros [_ _ [->|(t & _ & ->)]]; [done|]. rewrite signals_app. unfold signals at 2; simpl. lia. Qed.

(** The newest source is due when the last signal says. *)
Lemma newest_due c s i :
  live_inv c s → log s = l0 → i ∈ handlers (queue s) → S i = length (sources s) → d ≤ c.
Proof.
  intros [Hinv _ _] Hl (src & Hi & Hf)%(di_queue _ _ _ Hinv) Hn.
  destruct (di_due _ _ _ Hinv i src Hi Hf) as (d' & Hd & Hle).
  pose proof (di_pending _ _ _ Hinv) as Hp. unfold pending_inv in Hp. rewrite Hl, Hlast in Hp.
  destruct Hp as (_ & src' & Hs & _ & Hd'). rewrite (newest_last _ _ _ Hi Hn) in Hs.
  injection Hs as <-. congruence.
Qed.

Lemma handled_inv c i s :
  live_inv c s → i ∈ handlers (queue s) → handled c i s = log s ∨
  (log s = l0 ∧ S i = length (sources s) ∧ d ≤ c ∧ handled c i s = l0 ++ [(c, Called)]).
Proof.
  intros Hlive Hi. unfold handled. destruct (li_log _ _ Hlive) as [Hl|(t & _ & Hl)].
  - rewrite Hl, Hlast. case_decide as Hn; [|by left]. right.
    split_and!; [done|done|by eapply newest_due|done].
  - rewrite Hl, last_snoc. by left.
Qed.

Lemma quiet_inv x y : quiet x y → live_inv x.1 x.2 → live_inv y.1 y.2.
Proof.
  destruct 1 as [c c' s Hc|c s|c s|c s i src e Hi Ha He Hle|c s j q s' Hq Hrun]; simpl; try done.
  - intros [Hinv Hqueue Hlog]. split; [by eapply debounce_inv_tick|done|].
    destruct Hlog as [?|(t & ? & ?)]; [by left|right]. exists t. split; [lia|done].
  - intros [Hinv Hqueue Hlog]. split; [by eapply debounce_inv_fire| |done].
    apply Forall_app. split; [done|by repeat constructor].
  - intros Hlive. pose proof Hlive as [Hinv Hqueue Hlog].
    destruct (debounce_run_inv delta delayInSeconds leewayInSeconds lee Hdelay Hleeway c s j q Hq Hinv
      (live_signals _ _ Hlive)) as (s1 & Hrun1 & Hinv1). rewrite Hrun in Hrun1. injection Hrun1 as <-.
    unfold only_handlers in Hqueue. rewrite Hq in Hqueue. apply Forall_cons in Hqueue as [Hj Hqueue].
    destruct j as [| |i]; [done..|].
    destruct (run_handler_log c s i q Hq Hinv) as (s2 & Hrun2 & Hl2 & Hq2 & _).
    rewrite Hrun in Hrun2. injection Hrun2 as <-.
    split; [done|by unfold only_handlers; rewrite Hq2|]. unfold answered. rewrite Hl2.
    destruct (handled_inv c i s Hlive) as [->|(_ & _ & Hd & ->)]; [rewrite Hq; by left|done|].
    right. by exists c.
Qed.

Lemma quiet_steps_inv x y : rtc quiet x y → live_inv x.1 x.2 → live_inv y.1 y.2.
Proof. induction 1 as [|x y z Hxy _ IH]; [done|]. intros Hx. by eapply IH, quiet_inv. Qed.

(** Once its handler waits on the queue, the answer is some runs of the queue away. *)
Lemma drain c s :
  live_inv c s → log s = l0 → (∃ i, i ∈ handlers (queue s) ∧ S i = length (sources s)) →
  ∃ y, rtc quiet (c, s) y ∧ answered y.1 y.2.
Proof.
  remember (queue s) as q eqn:Hq. revert s Hq. induction q as [|j q IH]; intros s Hq Hlive Hl (i & Hi & Hn).
  { by apply not_elem_of_nil in Hi. }
  symmetry in Hq. pose proof (li_queue _ _ Hlive) as Hj. unfold only_handlers in Hj. rewrite Hq in Hj.
  apply Forall_cons in Hj as [Hj _]. destruct j as [| |k]; [done..|].
  destruct (run_handler_log c s k q Hq (li_inv _ _ Hlive)) as (s' & Hrun & Hl' & Hq' & Hlen).
  assert (quiet (c, s) (c, s')) as Hstep by by eapply s_run.
  assert (k ∈ handlers (queue s)) as Hk by (rewrite Hq; by left).
  destruct (decide (S k = length (sources s))) as [Hkn|Hkn].
  - exists (c, s'). split; [by apply rtc_once|]. exists c. simpl.
    pose proof (newest_due c s k Hlive Hl Hk Hkn). split; [lia|].
    rewrite Hl'. unfold handled. rewrite Hl, Hlast. by rewrite decide_True.
  - destruct (IH s') as (y & Hsteps & Hy); [done|by apply (quiet_inv _ _ Hstep)| |exists i|].
    + rewrite Hl'. unfold handled. rewrite Hl, Hlast. by rewrite decide_False.
    + split; [|by rewrite Hlen]. simpl in Hi. apply elem_of_cons in Hi as [->|Hi]; done.
    + exists y. split; [by eapply rtc_l|done].
Qed.

Lemma comes_to_answer c s : live_inv c s → ∃ y, rtc quiet (c, s) y ∧ answered y.1 y.2.
Proof.
  intros Hlive. destruct (li_log _ _ Hlive) as [Hl|Ha]; [|by exists (c, s)].
  pose proof (li_inv _ _ Hlive) as Hinv. pose proof (di_pending _ _ _ Hinv) as Hp.
  unfold pending_inv in Hp. rewrite Hl, Hlast in Hp. destruct Hp as (_ & src & Hs & Hst & Hd).
  pose proof Hs as Hi. rewrite last_lookup in Hi. set (i := Init.Nat.pred (length (sources s))) in Hi.
  assert (S i = length (sources s)) as Hn.
  { unfold i. destruct (sources s); [done|simpl; lia]. }
  destruct (status src) eqn:Hsta; [| |done].
  - set (c' := Z.max c d). assert (quiet (c, s) (c', s)) as Htick by (constructor; lia).
    pose proof (quiet_inv _ _ Htick Hlive) as Hlive'. simpl in Hlive'.
    assert (quiet (c', s) (c', enqueue (run_handler i) (set_sources (<[i:=set_status Fired src]> (sources s)) s)))
      as Hfire by (eapply (s_fire _ _ _ _ _ _ src d); [done|done|by rewrite Hd|unfold c'; lia]).
    pose proof (quiet_inv _ _ Hfire Hlive') as Hlive2. simpl in Hlive2.
    destruct (drain _ _ Hlive2) as (y & Hsteps & Hy); [done| |].
    + exists i. simpl. rewrite handlers_app, length_insert. split; [|done].
      apply elem_of_app. right. by left.
    + exists y. split; [|done]. eapply rtc_l; [done|]. by eapply rtc_l.
  - apply (drain c s Hlive Hl). exists i. split; [|done]. apply (di_queue _ _ _ Hinv). by exists src.
Qed.
End live.

(** C20: after a signal has run and nothing the client did waits on the queue, and
    nobody uses the handle again: whatever the clock, the sources and the queue do
    from there, the callback is handed over at most once, not before it is due,
    and until it has been, it still can be: some further ticks, one event of the
    newest source and some runs of the queue always lead to it. *)
Theorem debounce_answers `{DispatchTime} delayInSeconds leewayInSeconds delta lee c0 c s t0 d c' s' :
  to_int64 (nanoseconds delayInSeconds) = Some delta →
  to_uint64 (nanoseconds leewayInSeconds) = Some lee →
  rtc (sstep debounce_signal debounce_cancel (debounce_run delayInSeconds leewayInSeconds))
    (c0, debounce_new) (c, s) →
  last (log s) = Some (t0, Signalled) → dispatch_time t0 delta = Some d →
  Z.of_nat (signals (log s)) < SIZE_MAX → only_handlers s →
  rtc (quiet delayInSeconds leewayInSeconds) (c, s) (c', s') →
  (log s' = log s ∨ answered (log s) d c' s') ∧
  ∃ c'' s'', rtc (quiet delayInSeconds leewayInSeconds) (c', s') (c'', s'') ∧ answered (log s) d c'' s''.
Proof.
  intros Hdelay Hleeway Hreach Hlast Hdue Hroom Hqueue Hsteps.
  assert (live_inv delta (log s) d c s) as Hlive.
  { split; [|done|by left]. by apply (debounce_reachable delta delayInSeconds leewayInSeconds lee Hdelay Hleeway c0 (c, s)). }
  assert (live_inv delta (log s) d c' s') as Hlive'
    by exact (quiet_steps_inv delayInSeconds leewayInSeconds delta lee Hdelay Hleeway (log s) t0 d
      Hlast Hdue Hroom _ _ Hsteps Hlive).
  split; [by apply Hlive'|].
  destruct (comes_to_answer delayInSeconds leewayInSeconds delta lee Hdelay Hleeway (log s) t0 d
    Hlast Hdue Hroom c' s' Hlive') as ([c'' s''] & ? & ?). by exists c'', s''.
Qed.

(** Two signals have run, half a second apart; the first source has fired since. *)
Definition live_events : list event :=
  [ESignal; ERun; ETick 500000000; ESignal; ERun; ETick 1100000000; EFire 0].
Definition live_state : sched debounce_vars :=
  Build_sched {| canceled := false; generation := 2 |} [run_handler 0]
    [{| current := 1; deadline := Some 1000000000; leeway := 0; status := Fired |};
     {| current := 2; deadline := Some 1500000000; leeway := 0; status := Armed |}]
    [(0, Signalled); (500000000, Signalled)].

Lemma debounce_answers_witness :
  to_int64 (nanoseconds (of_int 1)) = Some 1000000000 ∧
  to_uint64 (nanoseconds (of_int 0)) = Some 0 ∧
  ∃ c s, rtc (quiet (of_int 1) (of_int 0)) (1100000000, live_state) (c, s) ∧
    answered (log live_state) 1500000000 c s.
Proof.
  assert (to_int64 (nanoseconds (of_int 1)) = Some 1000000000) as H1 by (vm_compute; reflexivity).
  assert (to_uint64 (nanoseconds (of_int 0)) = Some 0) as H0 by (vm_compute; reflexivity).
  assert (rtc (sstep debounce_signal debounce_cancel (debounce_run (of_int 1) (of_int 0)))
    (0, debounce_new) (1100000000, live_state)) as Hs
    by (apply (exec_sound _ _ _ live_events); vm_compute; reflexivity).
  split; [exact H1|]. split; [exact H0|].
  exact (proj2 (debounce_answers (of_int 1) (of_int 0) 1000000000 0 0 1100000000 live_state
    500000000 1500000000 1100000000 live_state H1 H0 Hs eq_refl eq_refl eq_refl
    ltac:(repeat constructor) (rtc_refl _ _))).
Defined.
End ScheduleLive.
