(* ===== verification/ScheduleSystem.v ===== *)
(** * Programs that use [schedule.h]

    A whole program: any number of throttles and debounces made, signalled,
    cancelled and freed through the handles of [schedule.h], while the clock goes
    on, timer sources fire and every schedule's queue runs.  What [Schedule.v]
    shows of one schedule and of one handle is put together here. *)

From S2P Require Import Prelude Dispatch Schedule.
Import Dispatch Schedule.

Module ScheduleSystem.

Section system.
Context `{Calloc} `{DispatchTime}.
Implicit Types (p : program) (x : schedule) (work : option positive).

(** The functions of [schedule.h] with their arguments. *)
Inductive request :=
| DispatchScheduleThrottle (delayInSeconds : double) (on : positive) (callback : nat)
| DispatchScheduleDebounce (delayInSeconds leewayInSeconds : double) (on : positive) (callback : nat)
| WorkSignal (work : option positive)
| WorkCancel (work : option positive)
| WorkFree (work : option positive).

(** The result is the handle of a new schedule, [NULL] if there is none. *)
Definition serve (r : request) : prog program (option positive) :=
  match r with
  | DispatchScheduleThrottle d on callback => NPDispatchScheduleThrottle d on callback
  | DispatchScheduleDebounce d l on callback => NPDispatchScheduleDebounce d l on callback
  | WorkSignal work => NPScheduleWorkSignal work;; mret None
  | WorkCancel work => NPScheduleWorkCancel work;; mret None
  | WorkFree work => NPScheduleWorkFree work;; mret None
  end.

(** A source of a schedule fires, or its queue runs a block. *)
Definition work_on (c : Z) (e : event) (x : schedule) : option schedule :=
  match x with
  | Throttle d on cb s =>
      '(_, s') ← exec_event throttle_signal throttle_cancel (throttle_run d) (c, s) e; Some (Throttle d on cb s')
  | Debounce d l on cb s =>
      '(_, s') ← exec_event debounce_signal debounce_cancel (debounce_run d l) (c, s) e; Some (Debounce d l on cb s')
  end.

(** What may happen next in the program. *)
Inductive happening :=
| Tick (c : Z)
| Request (r : request)
| Fire (k i : nat)
| Run (k : nat).

Definition on_schedule (k : nat) (c : Z) (e : event) p : option (Z * program) :=
  x ← schedules p !! k;
  x' ← work_on c e x;
  Some (c, set_schedules (<[k:=x']> (schedules p)) p).

Definition happens (y : Z * program) (h : happening) : option (Z * program) :=
  let '(c, p) := y in
  match h with
  | Tick c' => if c <=? c' then Some (c', p) else None
  | Request r => match serve r p with Done _ p' => Some (c, p') | Stop _ _ => None end
  | Fire k i => on_schedule k c (EFire i) p
  | Run k => on_schedule k c ERun p
  end.

Fixpoint history (y : Z * program) (hs : list happening) : option (Z * program) :=
  match hs with
  | [] => Some y
  | h :: hs => match happens y h with Some y' => history y' hs | None => None end
  end.

Definition no_program : program := {| works := ∅; schedules := [] |}.

(** ** What holds of every program *)

(** A schedule as its own steps can make it. *)
Definition reached (c : Z) x : Prop :=
  match x with
  | Throttle d _ _ s => ∃ c0, rtc (sstep throttle_signal throttle_cancel (throttle_run d)) (c0, throttle_new) (c, s)
  | Debounce d l _ _ s => ∃ c0, rtc (sstep debounce_signal debounce_cancel (debounce_run d l)) (c0, debounce_new) (c, s)
  end.

(** Every handle is that of a schedule, and of one no other handle has. *)
Record handles_ok p : Prop := {
  ho_schedule : ∀ q w, works p !! q = Some w → ∃ k, w = handle_of k ∧ (k < length (schedules p))%nat;
  ho_apart : ∀ q q' w, works p !! q = Some w → works p !! q' = Some w → q = q';
}.

Record sound (c : Z) p : Prop := {
  so_reached : ∀ k x, schedules p !! k = Some x → reached c x;
  so_handles : handles_ok p;
}.

(** A handle that may be used: [NULL], or one that has not been freed. *)
Definition usable p work : Prop := match work with None => True | Some q => is_Some (works p !! q) end.

Definition request_ok p (r : request) : Prop :=
  match r with WorkSignal work | WorkCancel work | WorkFree work => usable p work | _ => True end.

(** What a request does to the program. *)
Inductive effect p : request → option positive → program → Prop :=
| throttle_effect d on cb work :
    work = calloc (works p) →
    effect p (DispatchScheduleThrottle d on cb) work (Build_program
      (if work is Some q then <[q:=handle_of (length (schedules p))]> (works p) else works p)
      (schedules p ++ [Throttle d on cb throttle_new]))
| debounce_effect d l on cb work :
    work = calloc (works p) →
    effect p (DispatchScheduleDebounce d l on cb) work (Build_program
      (if work is Some q then <[q:=handle_of (length (schedules p))]> (works p) else works p)
      (schedules p ++ [Debounce d l on cb debounce_new]))
| signal_effect q k :
    works p !! q = Some (handle_of k) →
    effect p (WorkSignal (Some q)) None (set_schedules (alter signal_schedule k (schedules p)) p)
| cancel_effect q k :
    works p !! q = Some (handle_of k) →
    effect p (WorkCancel (Some q)) None (set_schedules (alter cancel_schedule k (schedules p)) p)
| free_effect q : effect p (WorkFree (Some q)) None (set_works (delete q (works p)) p)
| null_effect r : r = WorkSignal None ∨ r = WorkCancel None ∨ r = WorkFree None → effect p r None p.

Lemma make_effect x p : wp (make_schedule x) (λ work p', work = calloc (works p) ∧
  p' = Build_program (if work is Some q then <[q:=handle_of (length (schedules p))]> (works p) else works p)
    (schedules p ++ [x])) p.
Proof.
  unfold make_schedule. wp_step. apply wp_gets. wp_step. apply wp_modify.
  eapply wp_mono; [apply makeScheduleWork_correct|]. intros w p' (Hw & Hs & Hworks). simpl in *.
  split; [done|]. destruct p'. simpl in *. by subst.
Qed.

Lemma serve_effect r p : handles_ok p → request_ok p r → wp (serve r) (λ work p', effect p r work p') p.
Proof.
  intros Hp Hr. destruct r as [d on cb|d l on cb|work|work|work]; simpl in *.
  - eapply wp_mono; [apply make_effect|]. intros work p' [-> ->]. by constructor.
  - eapply wp_mono; [apply make_effect|]. intros work p' [-> ->]. by constructor.
  - destruct work as [q|]; [|apply null_effect; by left]. destruct Hr as [w Hw].
    destruct (ho_schedule p Hp q w Hw) as (k & -> & _). pose proof (work_op_correct q k HSignal p Hw) as Hrun.
    change (NPScheduleWorkSignal (Some q)) with (work_op (Some q) HSignal).
    unfold wp, mbind, prog_bind. rewrite Hrun. by constructor.
  - destruct work as [q|]; [|apply null_effect; by right; left]. destruct Hr as [w Hw].
    destruct (ho_schedule p Hp q w Hw) as (k & -> & _). pose proof (work_op_correct q k HCancel p Hw) as Hrun.
    change (NPScheduleWorkCancel (Some q)) with (work_op (Some q) HCancel).
    unfold wp, mbind, prog_bind. rewrite Hrun. by constructor.
  - destruct work as [q|]; [|apply null_effect; by right; right]. destruct Hr as [w Hw].
    unfold wp, mbind, prog_bind. pose proof (NPScheduleWorkFree_correct q w p Hw) as Hrun.
    rewrite Hrun. by constructor.
Qed.

Lemma reached_work c e x x' : work_on c e x = Some x' → (∃ i, e = EFire i) ∨ e = ERun → reached c x → reached c x'.
Proof.
  assert (∀ V (sig can : sched V → sched V) run (s s' : sched V) c',
    exec_event sig can run (c, s) e = Some (c', s') → (∃ i, e = EFire i) ∨ e = ERun → c' = c) as Hc.
  { intros V sig can run s s' c' He [[i ->]| ->]; simpl in He.
    - destruct (sources s !! i) as [src|]; simpl in He; [|done]. destruct (deadline src); simpl in He; [|done].
      destruct (_ && _); [|done]. by injection He.
    - destruct (Schedule.queue s); [done|]. destruct (run c _ _); [|done]. by injection He. }
  assert (∀ V (sig can : sched V → sched V) run (s0 s s' : sched V) c0,
    exec_event sig can run (c, s) e = Some (c, s') → rtc (sstep sig can run) (c0, s0) (c, s) →
    rtc (sstep sig can run) (c0, s0) (c, s')) as Hstep.
  { intros V sig can run s0 s s' c0 He Hr. etrans; [exact Hr|].
    apply (exec_sound sig can run [e]). cbn [exec]. by rewrite He. }
  intros Hw He. destruct x as [d on cb s|d l on cb s]; cbn [work_on] in Hw;
    destruct (exec_event _ _ _ _ _) as [[c' s']|] eqn:Hev; simpl in Hw; try done; injection Hw as <-;
    pose proof (Hc _ _ _ _ _ _ _ Hev He) as ->; intros [c0 Hr]; exists c0; by eapply Hstep.
Qed.

Lemma reached_tick c c' x : c ≤ c' → reached c x → reached c' x.
Proof.
  intros Hc. destruct x; intros [c0 Hr]; exists c0; (etrans; [exact Hr|]); apply rtc_once; by constructor.
Qed.

Lemma reached_signal c x : reached c x → reached c (signal_schedule x).
Proof. destruct x; intros [c0 Hr]; exists c0; (etrans; [exact Hr|]); apply rtc_once, s_signal. Qed.

Lemma reached_cancel c x : reached c x → reached c (cancel_schedule x).
Proof. destruct x; intros [c0 Hr]; exists c0; (etrans; [exact Hr|]); apply rtc_once, s_cancel. Qed.

(** Another schedule and its handle. *)
Lemma handles_ok_make x p work : handles_ok p → work = calloc (works p) →
  handles_ok (Build_program (if work is Some q then <[q:=handle_of (length (schedules p))]> (works p) else works p)
    (schedules p ++ [x])).
Proof.
  intros [Hs Ha] Hw. assert (∀ q w, works p !! q = Some w →
    ∃ k, w = handle_of k ∧ (k < length (schedules p ++ [x]))%nat) as Hs'.
  { intros q w Hq. destruct (Hs q w Hq) as (k & -> & Hk). exists k. split; [done|]. rewrite length_app. simpl. lia. }
  destruct work as [q0|]; [|by split]. 
  assert (∀ q w, works p !! q = Some w → w ≠ handle_of (length (schedules p))) as Hne.
  { intros q w Hq ->. destruct (Hs q _ Hq) as (k & [= <-] & Hk). lia. }
  split; simpl.
  - intros q w [[<- <-]|[Hne' Hq]]%lookup_insert_Some; [|by apply (Hs' q)].
    exists (length (schedules p)). split; [done|]. rewrite length_app. simpl. lia.
  - intros q q' w [[<- <-]|[? Hq]]%lookup_insert_Some [[<- H2]|[? Hq']]%lookup_insert_Some; [done|..].
    + by destruct (Hne q' _ Hq').
    + subst w. by destruct (Hne q _ Hq).
    + by eapply Ha.
Qed.

Lemma handles_ok_set p l : length l = length (schedules p) → handles_ok p → handles_ok (set_schedules l p).
Proof. intros Hl [Hs Ha]. split; simpl; [rewrite Hl|]; done. Qed.

Lemma handles_ok_free q p : handles_ok p → handles_ok (set_works (delete q (works p)) p).
Proof.
  intros [Hs Ha]. split; simpl.
  - intros q' w [_ Hq]%lookup_delete_Some. by eapply Hs.
  - intros q1 q2 w [_ H1]%lookup_delete_Some [_ H2]%lookup_delete_Some. by eapply Ha.
Qed.

Lemma sound_effect c p r work p' : sound c p → effect p r work p' → sound c p'.
Proof.
  intros [Hr Hh] He.
  assert (∀ (x : schedule) l, l = schedules p ++ [x] → reached c x → ∀ k y, l !! k = Some y → reached c y) as Hmake.
  { intros x l -> Hx k y [Hk|[_ Hk]]%lookup_app_Some; [by eapply Hr|].
    destruct (k - length (schedules p))%nat; simpl in Hk; [by injection Hk as <-|done]. }
  assert (∀ (f : schedule → schedule) k, (∀ x, reached c x → reached c (f x)) →
    ∀ j y, alter f k (schedules p) !! j = Some y → reached c y) as Halter.
  { intros f k Hf j y. destruct (decide (k = j)) as [->|Hne].
    - rewrite list_lookup_alter_eq. destruct (schedules p !! j) as [x|] eqn:Hx; [|done].
      intros [= <-]. by eapply Hf, Hr.
    - rewrite list_lookup_alter_ne by done. apply Hr. }
  destruct He as [d on cb work Hw|d l on cb work Hw|q k Hq|q k Hq|q|r]; [| | | | |done].
  - split; [apply (Hmake _ _ eq_refl); by exists c|by apply handles_ok_make].
  - split; [apply (Hmake _ _ eq_refl); by exists c|by apply handles_ok_make].
  - split; [apply Halter, reached_signal|apply handles_ok_set; [by rewrite length_alter|done]].
  - split; [apply Halter, reached_cancel|apply handles_ok_set; [by rewrite length_alter|done]].
  - split; [exact Hr|by apply handles_ok_free].
Qed.

(** What is used is usable, or nothing happens. *)
Lemma serve_unusable r p : handles_ok p → ¬ request_ok p r → halts (serve r) FUndefined p.
Proof.
  intros _ Hr. destruct r as [d on cb|d l on cb|work|work|work]; simpl in Hr; try (by destruct Hr);
    destruct work as [q|]; try (by destruct Hr); apply eq_None_not_Some in Hr;
    unfold halts, serve, NPScheduleWorkSignal, NPScheduleWorkCancel, NPScheduleWorkFree, store_work, get, mbind, prog_bind;
    by rewrite Hr.
Qed.

Lemma usable_dec p r : request_ok p r ∨ ¬ request_ok p r.
Proof.
  assert (∀ work, usable p work ∨ ¬ usable p work) as Hu.
  { intros [q|]; [|by left]. simpl. destruct (works p !! q) as [w|]; [left; by exists w|right; by intros [? [=]]]. }
  destruct r; simpl; auto.
Qed.

Lemma sound_happens c p h c' p' : sound c p → happens (c, p) h = Some (c', p') → sound c' p'.
Proof.
  intros Hs Hh. pose proof Hs as [Hr Hok].
  assert (∀ k e, (∃ i, e = EFire i) ∨ e = ERun → on_schedule k c e p = Some (c', p') → sound c' p') as Hwork.
  { intros k e He Hk. unfold on_schedule in Hk. destruct (schedules p !! k) as [x|] eqn:Hx; simpl in Hk; [|done].
    destruct (work_on c e x) as [x'|] eqn:Hw; simpl in Hk; [|done]. injection Hk as <- <-.
    split; [|by apply handles_ok_set; [rewrite length_insert|]].
    intros j y Hj. simpl in Hj. apply list_lookup_insert_Some in Hj as [(<- & <- & _)|[_ Hj]]; [|by eapply Hr].
    eapply reached_work; [done|done|by eapply Hr]. }
  destruct h as [c1|r|k i|k]; simpl in Hh.
  - destruct (Z.leb_spec c c1); [|done]. injection Hh as <- <-.
    split; [|done]. intros k x Hx. eapply reached_tick; [done|by eapply Hr].
  - destruct (serve r p) as [work p1|] eqn:Hrun; [|done]. injection Hh as <- <-.
    destruct (usable_dec p r) as [Hu|Hu].
    + pose proof (serve_effect r p Hok Hu) as He. unfold wp in He. rewrite Hrun in He. by eapply sound_effect.
    + pose proof (serve_unusable r p Hok Hu) as He. unfold halts in He. by rewrite Hrun in He.
  - apply (Hwork k (EFire i)); [left; by exists i|done].
  - apply (Hwork k ERun); [by right|done].
Qed.

Lemma sound_history c0 p0 hs c p : sound c0 p0 → history (c0, p0) hs = Some (c, p) → sound c p.
Proof.
  revert c0 p0. induction hs as [|h hs IH]; intros c0 p0 Hs Hh; cbn [history] in Hh.
  { by injection Hh as <- <-. }
  destruct (happens (c0, p0) h) as [[c1 p1]|] eqn:He; [|done].
  eapply IH; [|exact Hh]. by eapply sound_happens.
Qed.

Lemma sound_no_program c : sound c no_program.
Proof. split; [by intros k x Hx|]. split; intros q; [intros w Hq|intros q' w Hq]; simpl in Hq; by rewrite lookup_empty in Hq. Qed.

(** ** The properties *)

(** C11: In a program with any number of schedules, made and used through
    [schedule.h] in any order and from any thread, while the clock goes on, sources
    fire and queues run: every throttle hands its callback over exactly for the
    signals that find its window over, every debounce only when its delay has
    passed after a signal with nothing in between, and a debounce at rest has
    answered its last signal; no block on any queue fails.  Freeing a handle,
    whenever it is done, changes none of this. *)
Theorem schedules_correct hs c0 c p k x :
  history (c0, no_program) hs = Some (c, p) → schedules p !! k = Some x →
  match x with
  | Throttle d _ _ s => throttle_behaves d c s
  | Debounce d l _ _ s => ∀ delta lee,
      to_int64 (nanoseconds d) = Some delta → to_uint64 (nanoseconds l) = Some lee →
      Z.of_nat (signals (log s)) < SIZE_MAX → debounce_behaves d l delta c s
  end.
Proof.
  intros Hh Hx. destruct (sound_history _ _ _ _ _ (sound_no_program c0) Hh) as [Hr _].
  specialize (Hr k x Hx). destruct x as [d on cb s|d l on cb s]; destruct Hr as [c1 Hr].
  - by eapply throttle_reached.
  - intros delta lee Hd Hl Hn. by eapply debounce_reached.
Qed.

(** C29: The handles of such a program.  At any time every handle that has not been
    freed belongs to one schedule, and no two to the same; every call of
    [schedule.h] on such a handle, or on [NULL], does what the header says and
    touches nothing else: signal and cancel run the blocks of the handle's own
    schedule, free gives back the handle's memory and leaves the schedule as it is,
    [NULL] does nothing; a call on a handle that was freed is undefined. *)
Theorem handles_correct hs c0 c p r :
  history (c0, no_program) hs = Some (c, p) →
  (∀ q w, works p !! q = Some w → ∃ k, w = handle_of k ∧ is_Some (schedules p !! k) ∧
     ∀ q', works p !! q' = Some w → q' = q) ∧
  (request_ok p r → wp (serve r) (λ work p', effect p r work p') p) ∧
  (¬ request_ok p r → halts (serve r) FUndefined p).
Proof.
  intros Hh. destruct (sound_history _ _ _ _ _ (sound_no_program c0) Hh) as [_ Hok]. split_and!.
  - intros q w Hq. destruct (ho_schedule p Hok q w Hq) as (k & -> & Hk). exists k. split; [done|].
    split; [by apply lookup_lt_is_Some|]. intros q' Hq'. by eapply (ho_apart p Hok).
  - by apply serve_effect.
  - by apply serve_unusable.
Qed.
End system.

(** ** A program *)

(** [calloc] hands out the first address that is free. *)
#[export] Instance plain_calloc : Calloc.
Proof.
  refine {| calloc m := Some (fresh (dom m)) |}.
  intros m q [= <-]. apply not_elem_of_dom, is_fresh.
Defined.

(** A throttle and a debounce; the debounce's handle is freed while it is pending. *)
Definition demo_history : list happening :=
  [Request (DispatchScheduleThrottle (of_int 1) 1 7); Request (DispatchScheduleDebounce (of_int 1) (of_int 0) 1 8);
   Request (WorkSignal (Some 1%positive)); Request (WorkSignal (Some 2%positive)); Request (WorkSignal None);
   Run 0; Run 1; Request (WorkFree (Some 2%positive)); Tick 1000000000; Fire 1 0; Run 1].

Definition demo_end : Z * program :=
  match history (0, no_program) demo_history with Some y => y | None => (0, no_program) end.

Example demo_debounce : (λ x, match x with Throttle _ _ _ s => log s | Debounce _ _ _ _ s => log s end) <$>
  schedules demo_end.2 = [[(0, Signalled); (0, Called)]; [(0, Signalled); (1000000000, Called)]].
Proof. vm_compute. reflexivity. Qed.

Lemma demo_history_runs : history (0, no_program) demo_history = Some (demo_end.1, demo_end.2).
Proof. vm_compute. reflexivity. Qed.

Lemma schedules_correct_witness : ∃ s,
  schedules demo_end.2 !! 1%nat = Some (Debounce (of_int 1) (of_int 0) 1 8 s) ∧
  debounce_behaves (of_int 1) (of_int 0) 1000000000 demo_end.1 s.
Proof.
  eexists. split; [vm_compute; reflexivity|].
  exact (schedules_correct demo_history 0 demo_end.1 demo_end.2 1 (Debounce (of_int 1) (of_int 0) 1 8 _)
    demo_history_runs ltac:(vm_compute; reflexivity) 1000000000 0
    ltac:(vm_compute; reflexivity) ltac:(vm_compute; reflexivity) ltac:(vm_compute; reflexivity)).
Defined.

Lemma handles_correct_witness :
  (∀ q w, works demo_end.2 !! q = Some w → ∃ k, w = handle_of k ∧ is_Some (schedules demo_end.2 !! k) ∧
     ∀ q', works demo_end.2 !! q' = Some w → q' = q) ∧
  wp (serve (WorkCancel (Some 1%positive))) (λ work p', effect demo_end.2 (WorkCancel (Some 1%positive)) work p') demo_end.2 ∧
  halts (serve (WorkSignal (Some 2%positive))) FUndefined demo_end.2.
Proof.
  split; [|split].
  - exact (proj1 (handles_correct demo_history 0 demo_end.1 demo_end.2 (WorkCancel None) demo_history_runs)).
  - refine (proj1 (proj2 (handles_correct demo_history 0 demo_end.1 demo_end.2 (WorkCancel (Some 1%positive)) demo_history_runs)) _).
    eexists. vm_compute. reflexivity.
  - refine (proj2 (proj2 (handles_correct demo_history 0 demo_end.1 demo_end.2 (WorkSignal (Some 2%positive)) demo_history_runs)) _).
    intros [w Hw]. vm_compute in Hw. discriminate.
Defined.
End ScheduleSystem.
