(* ===== verification/CowThreads.v ===== *)
(** * CowThreads: copy-on-write blocks shared by several threads

    The counters of the copy-on-write blocks are atomic so that distinct
    instances may be used from different threads.  Here the same methods of
    [CopyOnWriteBacked.h] are sequences of atomic steps, each a single access to
    the shared memory: an access to a counter, to an element, an allocation or a
    deletion.  A step that touches memory which has been freed cannot be taken.
    Each thread works on instances of its own; what they share are the blocks.
    The accesses are sequentially consistent here; the code leaves open what an
    access does, and CowOrder.v runs it on a memory that knows the memory orders. *)

From stdpp Require Import sets fin_map_dom.
From S2P Require Import Prelude Concur.

Module CowThreads.
Import Concur.

(** The memory: the counter of each block and the value of the element it
    points to; and the values read so far with the thread that read them. *)
Record memory := {
  counts : gmap positive Z;
  elements : gmap positive Z;
  seen : list (nat * Z);
}.

Inductive answer := AInt (z : Z) | APtr (p : positive).

(** ** The methods

    A method is a sequence of accesses; what an access does is left to the
    memory it runs on, so that the same code runs on the plain memory here and on
    one that keeps track of the order of accesses. *)

Inductive access :=
| fetch_add (p : positive)
| fetch_sub (p : positive)
| load (p : positive)
| delete_element (p : positive)
| delete_block (p : positive)
| new_copy (p : positive)
| read_element (p : positive)
| write_element (p : positive) (v : Z)
| nothing.

(** A memory: thread [t] performs an access. *)
Class Memory (S : Type) := perform : nat → access → S → option (answer * S).

Section methods.
Context {S : Type} `{Memory S}.

(** [Block::release] *)
Definition release (t : nat) (p : positive) : code S answer :=
  r <~ perform t (fetch_sub p);
  match r with
  | AInt 1 => act (perform t (delete_element p)) ;~ act (perform t (delete_block p))
  | _ => Ret
  end.

(** [unique], and what its caller does with the block the instance has then *)
Definition unique (t : nat) (p : positive) (k : positive → code S answer) : code S answer :=
  r <~ perform t (load p);
  match r with
  | AInt c =>
      if 1 <? c then
        q <~ perform t (new_copy p);
        match q with
        | APtr unshared => release t p ;~ k unshared
        | AInt _ => Ret
        end
      else k p
  | APtr _ => Ret
  end.

(** ** Clients *)

(** What a thread does with the [i]th of its instances: copy it, destroy it,
    read its element, write through [unique].  An operation on an instance the
    thread has not is a step that does nothing. *)
Inductive op := OCopy (i : nat) | ODrop (i : nat) | ORead (i : nat) | OWrite (i : nat) (v : Z).

(** Thread [t], its instances given by the blocks they point to. *)
Fixpoint client (t : nat) (ops : list op) (inst : list positive) : code S answer :=
  match ops with
  | [] => Ret
  | OCopy i :: ops =>
      match inst !! i with
      | Some p => _ <~ perform t (fetch_add p); client t ops (inst ++ [p])
      | None => _ <~ perform t nothing; client t ops inst
      end
  | ODrop i :: ops =>
      match inst !! i with
      | Some p => release t p ;~ client t ops (delete i inst)
      | None => _ <~ perform t nothing; client t ops inst
      end
  | ORead i :: ops =>
      match inst !! i with
      | Some p => _ <~ perform t (read_element p); client t ops inst
      | None => _ <~ perform t nothing; client t ops inst
      end
  | OWrite i v :: ops =>
      match inst !! i with
      | Some p => unique t p (λ q, _ <~ perform t (write_element q v); client t ops (<[i:=q]> inst))
      | None => _ <~ perform t nothing; client t ops inst
      end
  end.
End methods.

(** The same operations on values of the thread's own: what it reads, and the
    values it has in the end. *)
Fixpoint local (ops : list op) (vals : list Z) : list Z * list Z :=
  match ops with
  | [] => ([], vals)
  | OCopy i :: ops =>
      match vals !! i with Some v => local ops (vals ++ [v]) | None => local ops vals end
  | ODrop i :: ops => local ops (delete i vals)
  | ORead i :: ops =>
      match vals !! i with
      | Some v => (v :: (local ops vals).1, (local ops vals).2)
      | None => local ops vals
      end
  | OWrite i v :: ops => local ops (<[i:=v]> vals)
  end.

(** ** The plain memory *)

Definition do_fetch_add (p : positive) (s : memory) : option (answer * memory) :=
  c ← counts s !! p;
  Some (AInt c, {| counts := <[p:=to_u32 (c + 1)]> (counts s); elements := elements s; seen := seen s |}).

Definition do_fetch_sub (p : positive) (s : memory) : option (answer * memory) :=
  c ← counts s !! p;
  Some (AInt c, {| counts := <[p:=to_u32 (c - 1)]> (counts s); elements := elements s; seen := seen s |}).

Definition do_load (p : positive) (s : memory) : option (answer * memory) :=
  c ← counts s !! p; Some (AInt c, s).

Definition do_delete_element (p : positive) (s : memory) : option (answer * memory) :=
  _ ← elements s !! p;
  Some (AInt 0, {| counts := counts s; elements := delete p (elements s); seen := seen s |}).

Definition do_delete_block (p : positive) (s : memory) : option (answer * memory) :=
  _ ← counts s !! p;
  Some (AInt 0, {| counts := delete p (counts s); elements := elements s; seen := seen s |}).

(** An address that is not in use. *)
Definition new_address (s : memory) : positive := fresh (dom (counts s) ∪ dom (elements s)).

(** [new Block(new T( *element))] *)
Definition do_new_copy (p : positive) (s : memory) : option (answer * memory) :=
  v ← elements s !! p;
  let q := new_address s in
  Some (APtr q, {| counts := <[q:=1]> (counts s); elements := <[q:=v]> (elements s); seen := seen s |}).

Definition do_read_element (t : nat) (p : positive) (s : memory) : option (answer * memory) :=
  v ← elements s !! p;
  Some (AInt v, {| counts := counts s; elements := elements s; seen := seen s ++ [(t, v)] |}).

Definition do_write_element (p : positive) (v : Z) (s : memory) : option (answer * memory) :=
  _ ← elements s !! p;
  Some (AInt 0, {| counts := counts s; elements := <[p:=v]> (elements s); seen := seen s |}).

(** A step that does nothing. *)
Definition do_nothing : memory → option (answer * memory) := λ s, Some (AInt 0, s).

#[export] Instance plain_memory : Memory memory := λ t a,
  match a with
  | fetch_add p => do_fetch_add p
  | fetch_sub p => do_fetch_sub p
  | load p => do_load p
  | delete_element p => do_delete_element p
  | delete_block p => do_delete_block p
  | new_copy p => do_new_copy p
  | read_element p => do_read_element t p
  | write_element p v => do_write_element p v
  | nothing => do_nothing
  end.

(** A memory that does what the plain one does, and may keep more. *)
Class Over (S : Type) `{Memory S} := {
  plain : S → memory;
  plain_perform t a s r s' :
    perform t a s = Some (r, s') → plain_memory t a (plain s) = Some (r, plain s');
}.

#[export] Instance plain_over : Over memory := {| plain s := s; plain_perform t a s r s' H := H |}.

(** ** Phases *)

(** A write that is still to come: through which instance, to which block. *)
Definition write_next : Type := option (nat * positive * Z).

Inductive stage :=
| SNext
| SCopyElement (i : nat) (p : positive) (v : Z)
| SReleaseOld (i : nat) (p q : positive) (v : Z)
| SDeleteElement (p : positive) (next : write_next)
| SDeleteBlock (p : positive) (next : write_next)
| SWrite (i : nat) (q : positive) (v : Z).

Record phase := {
  tid : nat;
  at_stage : stage;
  todo : list op;
  inst : list positive;
  vals : list Z;
}.

Section phase_code.
Context {S : Type} `{Memory S}.

Definition next_code (t : nat) (ops : list op) (l : list positive) (next : write_next) : code S answer :=
  match next with
  | None => client t ops l
  | Some (i, q, v) => _ <~ perform t (write_element q v); client t ops l
  end.

Definition code_of (ph : phase) : code S answer :=
  match at_stage ph with
  | SNext => client (tid ph) (todo ph) (inst ph)
  | SCopyElement i p v =>
      q <~ perform (tid ph) (new_copy p);
      match q with
      | APtr unshared =>
          release (tid ph) p ;~ (_ <~ perform (tid ph) (write_element unshared v); client (tid ph) (todo ph) (<[i:=unshared]> (inst ph)))
      | AInt _ => Ret
      end
  | SReleaseOld i p q v =>
      release (tid ph) p ;~ (_ <~ perform (tid ph) (write_element q v); client (tid ph) (todo ph) (<[i:=q]> (inst ph)))
  | SDeleteElement p next =>
      act (perform (tid ph) (delete_element p)) ;~ act (perform (tid ph) (delete_block p)) ;~ next_code (tid ph) (todo ph) (inst ph) next
  | SDeleteBlock p next => act (perform (tid ph) (delete_block p)) ;~ next_code (tid ph) (todo ph) (inst ph) next
  | SWrite i q v => next_code (tid ph) (todo ph) (inst ph) (Some (i, q, v))
  end.
End phase_code.

(** After the write that is still to come, if any. *)
Definition next_stage (next : write_next) : stage :=
  match next with None => SNext | Some (i, q, v) => SWrite i q v end.

(** Where a release goes on, by the count it found. *)
Definition after_release (p : positive) (c : Z) (next : write_next) : stage :=
  if c =? 1 then SDeleteElement p next else next_stage next.

Definition with_counts (m : gmap positive Z) (s : memory) : memory :=
  {| counts := m; elements := elements s; seen := seen s |}.
Definition with_elements (m : gmap positive Z) (s : memory) : memory :=
  {| counts := counts s; elements := m; seen := seen s |}.

Definition op_index (o : op) : nat :=
  match o with OCopy i | ODrop i | ORead i | OWrite i _ => i end.

(** The steps of a thread, with the values its instances should have. *)
Inductive pstep : phase → memory → phase → memory → Prop :=
| p_nothing t o ops l vs s :
    l !! op_index o = None →
    pstep {| tid := t; at_stage := SNext; todo := o :: ops; inst := l; vals := vs |} s
          {| tid := t; at_stage := SNext; todo := ops; inst := l; vals := vs |} s
| p_copy t i ops l vs s p c v :
    l !! i = Some p → counts s !! p = Some c → vs !! i = v →
    pstep {| tid := t; at_stage := SNext; todo := OCopy i :: ops; inst := l; vals := vs |} s
          {| tid := t; at_stage := SNext; todo := ops; inst := l ++ [p]; vals := vs ++ option_list v |}
          (with_counts (<[p:=to_u32 (c + 1)]> (counts s)) s)
| p_drop t i ops l vs s p c :
    l !! i = Some p → counts s !! p = Some c →
    pstep {| tid := t; at_stage := SNext; todo := ODrop i :: ops; inst := l; vals := vs |} s
          {| tid := t; at_stage := after_release p c None; todo := ops; inst := delete i l; vals := delete i vs |}
          (with_counts (<[p:=to_u32 (c - 1)]> (counts s)) s)
| p_read t i ops l vs s p v :
    l !! i = Some p → elements s !! p = Some v →
    pstep {| tid := t; at_stage := SNext; todo := ORead i :: ops; inst := l; vals := vs |} s
          {| tid := t; at_stage := SNext; todo := ops; inst := l; vals := vs |}
          {| counts := counts s; elements := elements s; seen := seen s ++ [(t, v)] |}
| p_shared t i v ops l vs s p c :
    l !! i = Some p → counts s !! p = Some c → 1 < c →
    pstep {| tid := t; at_stage := SNext; todo := OWrite i v :: ops; inst := l; vals := vs |} s
          {| tid := t; at_stage := SCopyElement i p v; todo := ops; inst := l; vals := vs |} s
| p_sole t i v ops l vs s p c :
    l !! i = Some p → counts s !! p = Some c → c ≤ 1 →
    pstep {| tid := t; at_stage := SNext; todo := OWrite i v :: ops; inst := l; vals := vs |} s
          {| tid := t; at_stage := SWrite i p v; todo := ops; inst := <[i:=p]> l; vals := vs |} s
| p_copy_element t i p v ops l vs s x :
    elements s !! p = Some x →
    pstep {| tid := t; at_stage := SCopyElement i p v; todo := ops; inst := l; vals := vs |} s
          {| tid := t; at_stage := SReleaseOld i p (new_address s) v; todo := ops; inst := l; vals := vs |}
          {| counts := <[new_address s:=1]> (counts s);
             elements := <[new_address s:=x]> (elements s); seen := seen s |}
| p_release_old t i p q v ops l vs s c :
    counts s !! p = Some c →
    pstep {| tid := t; at_stage := SReleaseOld i p q v; todo := ops; inst := l; vals := vs |} s
          {| tid := t; at_stage := after_release p c (Some (i, q, v)); todo := ops;
             inst := <[i:=q]> l; vals := vs |}
          (with_counts (<[p:=to_u32 (c - 1)]> (counts s)) s)
| p_delete_element t p next ops l vs s x :
    elements s !! p = Some x →
    pstep {| tid := t; at_stage := SDeleteElement p next; todo := ops; inst := l; vals := vs |} s
          {| tid := t; at_stage := SDeleteBlock p next; todo := ops; inst := l; vals := vs |}
          (with_elements (delete p (elements s)) s)
| p_delete_block t p next ops l vs s c :
    counts s !! p = Some c →
    pstep {| tid := t; at_stage := SDeleteBlock p next; todo := ops; inst := l; vals := vs |} s
          {| tid := t; at_stage := next_stage next; todo := ops; inst := l; vals := vs |}
          (with_counts (delete p (counts s)) s)
| p_write t i q v ops l vs s x :
    elements s !! q = Some x →
    pstep {| tid := t; at_stage := SWrite i q v; todo := ops; inst := l; vals := vs |} s
          {| tid := t; at_stage := SNext; todo := ops; inst := l; vals := <[i:=v]> vs |}
          (with_elements (<[q:=v]> (elements s)) s).

(** The access a thread makes next. *)
Definition next_access (ph : phase) : option access :=
  match at_stage ph with
  | SNext =>
      match todo ph with
      | [] => None
      | o :: _ =>
          match inst ph !! op_index o, o with
          | None, _ => Some nothing
          | Some p, OCopy _ => Some (fetch_add p)
          | Some p, ODrop _ => Some (fetch_sub p)
          | Some p, ORead _ => Some (read_element p)
          | Some p, OWrite _ _ => Some (load p)
          end
      end
  | SCopyElement _ p _ => Some (new_copy p)
  | SReleaseOld _ p _ _ => Some (fetch_sub p)
  | SDeleteElement p _ => Some (delete_element p)
  | SDeleteBlock p _ => Some (delete_block p)
  | SWrite _ q v => Some (write_element q v)
  end.

Section completeness.
Context {S : Type} `{Over S}.

Lemma next_stage_code t ops l vs next :
  code_of (S := S) {| tid := t; at_stage := next_stage next; todo := ops; inst := l; vals := vs |} =
    next_code t ops l next.
Proof. by destruct next as [[[i q] v]|]. Qed.

(** What follows the decrement of [release]. *)
Lemma after_release_code t ops l vs p c next :
  (match c with
   | 1 => act (perform t (delete_element p)) ;~ act (perform t (delete_block p))
   | _ => Ret
   end ;~ next_code t ops l next) =
  code_of (S := S) {| tid := t; at_stage := after_release p c next; todo := ops; inst := l; vals := vs |}.
Proof.
  unfold after_release. destruct (Z.eqb_spec c 1) as [->|Hc]; [done|].
  rewrite next_stage_code. destruct c as [|[]|]; done.
Qed.

(** What a thread does is its next access, which on the plain memory is a step. *)
Lemma step_cases ph (m : S → option (answer * S)) k r s s' :
  code_of ph = Act m k → m s = Some (r, s') →
  ∃ ph' a, k r = code_of ph' ∧ pstep ph (plain s) ph' (plain s') ∧
    m = perform (tid ph) a ∧ next_access ph = Some a.
Proof.
  destruct ph as [t g ops l vs]. unfold code_of, next_access; simpl.
  destruct g as [|i p v|i p q v|p next|p next|i q v]; simpl.
  - destruct ops as [|[i|i|i|i v] ops]; [done|..]; simpl; destruct (l !! i) as [p|] eqn:Hi;
      intros [= <- <-] Hm; apply plain_perform in Hm; simpl in Hm;
      unfold do_nothing, do_fetch_add, do_fetch_sub, do_read_element, do_load in Hm;
      try (injection Hm as <- <-; eexists {| at_stage := SNext |}, _; split_and!;
        [done|by apply p_nothing|done|done]).
    + apply bind_Some in Hm as (c & Hc & [= <- <-]).
      eexists {| at_stage := SNext |}, _; split_and!; [|by eapply p_copy|done|done]. done.
    + apply bind_Some in Hm as (c & Hc & [= <- <-]).
      eexists _, _; split_and!; [|by eapply p_drop|done|done].
      apply (after_release_code _ _ _ _ _ _ None).
    + apply bind_Some in Hm as (c & Hc & [= <- <-]).
      eexists {| at_stage := SNext |}, _; split_and!; [|by eapply p_read|done|done]. done.
    + apply bind_Some in Hm as (c & Hc & [= <- <-]). destruct (Z.ltb_spec 1 c) as [H1|H1].
      * eexists _, _; split_and!; [|by eapply p_shared|done|done]. done.
      * eexists _, _; split_and!; [|by eapply p_sole|done|done]. done.
  - intros [= <- <-] Hm. apply plain_perform in Hm. apply bind_Some in Hm as (x & Hx & [= <- <-]).
    eexists _, _; split_and!; [|by eapply p_copy_element|done..]. done.
  - intros [= <- <-] Hm. apply plain_perform in Hm. apply bind_Some in Hm as (c & Hc & [= <- <-]).
    eexists _, _; split_and!; [|by eapply p_release_old|done..].
    apply (after_release_code _ _ _ _ _ _ (Some (i, q, v))).
  - intros [= <- <-] Hm. apply plain_perform in Hm. apply bind_Some in Hm as (x & Hx & [= <- <-]).
    eexists _, _; split_and!; [|by eapply p_delete_element|done..]. done.
  - intros [= <- <-] Hm. apply plain_perform in Hm. apply bind_Some in Hm as (x & Hx & [= <- <-]).
    eexists _, _; split_and!; [|by eapply p_delete_block|done..]. symmetry. apply next_stage_code.
  - intros [= <- <-] Hm. apply plain_perform in Hm. apply bind_Some in Hm as (x & Hx & [= <- <-]).
    eexists {| at_stage := SNext |}, _; split_and!; [|by eapply p_write|done..]. done.
Qed.
End completeness.

Lemma cow_pstep_complete ph m k r (s s' : memory) :
  code_of ph = Act m k → m s = Some (r, s') → ∃ ph', k r = code_of ph' ∧ pstep ph s ph' s'.
Proof. intros Hc Hm. destruct (step_cases ph m k r s s' Hc Hm) as (ph' & a & ? & ? & _). by exists ph'. Qed.

(** ** What the threads hold *)

Definition one (x p : positive) : Z := if decide (x = p) then 1 else 0.

(** The references a thread has to a block: its instances, and the private copy
    it is about to put in the place of one. *)
Definition occ (p : positive) (l : list positive) : Z := zsum (λ x, one x p) l.
Definition refs (p : positive) (ph : phase) : Z :=
  occ p (inst ph) + match at_stage ph with SReleaseOld _ _ q _ => one q p | _ => 0 end.

(** Whether a thread is deleting a block, and has deleted its element. *)
Definition dels (p : positive) (ph : phase) : Z :=
  match at_stage ph with SDeleteElement q _ | SDeleteBlock q _ => one q p | _ => 0 end.
Definition delb (p : positive) (ph : phase) : Z :=
  match at_stage ph with SDeleteBlock q _ => one q p | _ => 0 end.

Lemma one_range x p : 0 ≤ one x p ≤ 1.
Proof. unfold one. case_decide; lia. Qed.

Lemma one_eq x : one x x = 1.
Proof. unfold one. by rewrite decide_True. Qed.

Lemma one_ne x p : x ≠ p → one x p = 0.
Proof. intros. unfold one. by rewrite decide_False. Qed.

Lemma occ_nonneg p l : 0 ≤ occ p l.
Proof. apply zsum_nonneg. intros x _. pose proof (one_range x p). lia. Qed.

Lemma occ_lookup p l i x : l !! i = Some x → one x p ≤ occ p l.
Proof.
  intros H. apply (zsum_lookup (λ x, one x p) l i x); [|done].
  intros y. pose proof (one_range y p). lia.
Qed.

Lemma occ_insert p l i x y : l !! i = Some x → occ p (<[i:=y]> l) = occ p l - one x p + one y p.
Proof. intros H. by apply (zsum_insert (λ x, one x p)). Qed.

Lemma occ_delete p l i x : l !! i = Some x → occ p (delete i l) = occ p l - one x p.
Proof. intros H. by apply (zsum_delete (λ x, one x p)). Qed.

Lemma occ_snoc p l x : occ p (l ++ [x]) = occ p l + one x p.
Proof. unfold occ. rewrite zsum_app. simpl. lia. Qed.

Lemma refs_nonneg p ph : 0 ≤ refs p ph.
Proof.
  unfold refs. pose proof (occ_nonneg p (inst ph)).
  destruct (at_stage ph) as [| |i r q v| | |]; try pose proof (one_range q p); lia.
Qed.

Lemma dels_range p ph : 0 ≤ delb p ph ≤ dels p ph ∧ dels p ph ≤ 1.
Proof.
  unfold dels, delb. destruct (at_stage ph) as [| | |q|q|]; try pose proof (one_range q p); lia.
Qed.

(** The stage a release leads to has no reference of its own. *)
Lemma after_release_refs p c next r t ops l vs :
  refs r {| tid := t; at_stage := after_release p c next; todo := ops; inst := l; vals := vs |} = occ r l.
Proof.
  unfold refs, after_release, next_stage; simpl.
  destruct (c =? 1); simpl; [lia|]. destruct next as [[[]]|]; simpl; lia.
Qed.

Lemma after_release_dels p c next r t ops l vs :
  dels r {| tid := t; at_stage := after_release p c next; todo := ops; inst := l; vals := vs |} =
    if c =? 1 then one p r else 0.
Proof.
  unfold dels, after_release, next_stage; simpl. destruct (c =? 1); simpl; [lia|].
  by destruct next as [[[]]|].
Qed.

Lemma after_release_delb p c next r t ops l vs :
  delb r {| tid := t; at_stage := after_release p c next; todo := ops; inst := l; vals := vs |} = 0.
Proof.
  unfold delb, after_release, next_stage; simpl. destruct (c =? 1); simpl; [lia|].
  by destruct next as [[[]]|].
Qed.

Lemma next_stage_refs next r t ops l vs :
  refs r {| tid := t; at_stage := next_stage next; todo := ops; inst := l; vals := vs |} = occ r l ∧
  dels r {| tid := t; at_stage := next_stage next; todo := ops; inst := l; vals := vs |} = 0 ∧
  delb r {| tid := t; at_stage := next_stage next; todo := ops; inst := l; vals := vs |} = 0.
Proof. unfold refs, dels, delb. destruct next as [[[]]|]; simpl; lia. Qed.

(** ** The memory *)

(** With [R p] references to each block, [D p] threads deleting it and [E p] of
    them past its element: the counter is the number of references, a block is
    being deleted just when none is left, and its element lives until then. *)
Record memory_ok (R D E : positive → Z) (s : memory) : Prop := {
  mo_counts p : match counts s !! p with
    | Some c => c = R p ∧ D p = (if decide (c = 0) then 1 else 0)
    | None => R p = 0 ∧ D p = 0
    end;
  mo_elements p : is_Some (elements s !! p) ↔ is_Some (counts s !! p) ∧ E p = 0;
}.

(** A thread that holds a reference finds the block and its element. *)
Lemma memory_ok_live R D E s p :
  memory_ok R D E s → 1 ≤ R p → 0 ≤ E p ≤ D p →
  counts s !! p = Some (R p) ∧ is_Some (elements s !! p) ∧ D p = 0.
Proof.
  intros [Hc He] HR HE. specialize (Hc p). specialize (He p).
  destruct (counts s !! p) as [c|] eqn:Hp; [|lia]. destruct Hc as [-> HD].
  rewrite decide_False in HD by lia. split; [done|]. split; [|done]. apply He. split; [done|lia].
Qed.

Definition mine_next (R : positive → Z) (l : list positive) (next : write_next) : Prop :=
  match next with None => True | Some (i, q, _) => l !! i = Some q ∧ R q = 1 end.

(** What a thread knows: the values of its instances are where they point, and
    the block it is about to write to is its own. *)
Definition knows (R : positive → Z) (s : memory) (ph : phase) : Prop :=
  Forall2 (λ p v, elements s !! p = Some v) (inst ph) (vals ph) ∧
  match at_stage ph with
  | SNext => True
  | SCopyElement i p _ => inst ph !! i = Some p
  | SReleaseOld i p q _ =>
      inst ph !! i = Some p ∧ R q = 1 ∧ elements s !! q = vals ph !! i
  | SDeleteElement _ next | SDeleteBlock _ next => mine_next R (inst ph) next
  | SWrite i q v => mine_next R (inst ph) (Some (i, q, v))
  end.

Lemma new_address_fresh s :
  counts s !! new_address s = None ∧ elements s !! new_address s = None.
Proof.
  pose proof (is_fresh (dom (counts s) ∪ dom (elements s))) as H.
  unfold new_address. split; apply not_elem_of_dom; set_solver.
Qed.

Lemma memory_ok_ext R D E R' D' E' s :
  (∀ p, R' p = R p ∧ D' p = D p ∧ E' p = E p) → memory_ok R D E s → memory_ok R' D' E' s.
Proof.
  intros H [Hc He]. split; intros p; destruct (H p) as (H1 & H2 & H3);
    rewrite ?H1, ?H2, ?H3; [apply Hc|apply He].
Qed.

(** Counting one reference up or down; zero starts the deletion. *)
Lemma memory_ok_inc R D E s p c :
  memory_ok R D E s → counts s !! p = Some c → 1 ≤ R p → R p + 1 < 2 ^ 32 →
  memory_ok (λ r, R r + one p r) D E (with_counts (<[p:=to_u32 (c + 1)]> (counts s)) s).
Proof.
  intros [Hc He] Hp H1 Hlt. pose proof (Hc p) as Hcp. rewrite Hp in Hcp. destruct Hcp as [-> HD].
  rewrite to_u32_id by lia. split; intros r; simpl; destruct (decide (r = p)) as [->|Hr].
  - rewrite lookup_insert_eq, one_eq. rewrite decide_False in HD by lia.
    rewrite decide_False by lia. done.
  - rewrite lookup_insert_ne, one_ne, Z.add_0_r by done. apply Hc.
  - rewrite lookup_insert_eq. specialize (He p). rewrite Hp in He. rewrite He. split; by intros [_ ?].
  - rewrite lookup_insert_ne by done. apply He.
Qed.

Lemma memory_ok_dec R D E s p c :
  memory_ok R D E s → counts s !! p = Some c → 1 ≤ R p → R p < 2 ^ 32 →
  memory_ok (λ r, R r - one p r) (λ r, D r + if c =? 1 then one p r else 0) E
    (with_counts (<[p:=to_u32 (c - 1)]> (counts s)) s).
Proof.
  intros [Hc He] Hp H1 Hlt. pose proof (Hc p) as Hcp. rewrite Hp in Hcp. destruct Hcp as [-> HD].
  rewrite to_u32_id by lia. split; intros r; simpl; destruct (decide (r = p)) as [->|Hr].
  - rewrite lookup_insert_eq, one_eq. rewrite decide_False in HD by lia.
    split; [done|]. destruct (Z.eqb_spec (R p) 1); case_decide; lia.
  - rewrite lookup_insert_ne, one_ne, Z.sub_0_r by done. specialize (Hc r).
    destruct (R p =? 1); by rewrite Z.add_0_r.
  - rewrite lookup_insert_eq. specialize (He p). rewrite Hp in He. rewrite He. split; by intros [_ ?].
  - rewrite lookup_insert_ne by done. apply He.
Qed.

(** A new block has one reference. *)
Lemma memory_ok_new R D E s x :
  memory_ok R D E s → (∀ p, 0 ≤ E p ≤ D p) →
  memory_ok (λ r, R r + one (new_address s) r) D E
    {| counts := <[new_address s:=1]> (counts s);
       elements := <[new_address s:=x]> (elements s); seen := seen s |}.
Proof.
  intros [Hc He] HE. destruct (new_address_fresh s) as [Hq _]. set (q := new_address s) in *.
  pose proof (Hc q) as Hcq. rewrite Hq in Hcq. destruct Hcq as [HR HD]. specialize (HE q).
  split; intros r; simpl; destruct (decide (r = q)) as [->|Hr].
  - rewrite lookup_insert_eq, one_eq, decide_False by lia. lia.
  - rewrite lookup_insert_ne, one_ne, Z.add_0_r by done. apply Hc.
  - rewrite !lookup_insert_eq. split; [|by eexists]. intros _. split; [by eexists|lia].
  - rewrite !lookup_insert_ne by done. apply He.
Qed.

Lemma memory_ok_delete_element R D E s p :
  memory_ok R D E s → 1 ≤ D p → E p = 0 → 
  memory_ok R D (λ r, E r + one p r) (with_elements (delete p (elements s)) s).
Proof.
  intros [Hc He] HD HE. split; [apply Hc|]. intros r; simpl; destruct (decide (r = p)) as [->|Hr].
  - rewrite lookup_delete_eq, one_eq. split; [by intros []|]. lia.
  - rewrite lookup_delete_ne, one_ne, Z.add_0_r by done. apply He.
Qed.

Lemma memory_ok_delete_block R D E s p :
  memory_ok R D E s → D p = 1 → 1 ≤ E p → 
  memory_ok R (λ r, D r - one p r) (λ r, E r - one p r) (with_counts (delete p (counts s)) s).
Proof.
  intros [Hc He] HD HE. split; intros r; simpl; destruct (decide (r = p)) as [->|Hr].
  - rewrite lookup_delete_eq, one_eq. specialize (Hc p).
    destruct (counts s !! p) as [c|]; [|lia]. destruct Hc as [-> Hc]. case_decide; lia.
  - rewrite lookup_delete_ne, one_ne, Z.sub_0_r by done. apply Hc.
  - rewrite lookup_delete_eq. specialize (He p). rewrite He.
    split; [intros [_ H]; lia|by intros [[] _]].
  - rewrite lookup_delete_ne, one_ne, Z.sub_0_r by done. apply He.
Qed.

Lemma memory_ok_write R D E s p v x :
  memory_ok R D E s → elements s !! p = Some x →
  memory_ok R D E (with_elements (<[p:=v]> (elements s)) s).
Proof.
  intros [Hc He] Hp. split; [apply Hc|]. intros r; simpl; destruct (decide (r = p)) as [->|Hr].
  - rewrite lookup_insert_eq, <-He, Hp. split; by eexists.
  - rewrite lookup_insert_ne by done. apply He.
Qed.

(** The memory after the decrement of a release. *)
Lemma memory_ok_released R D E s p c next ph ph' :
  memory_ok R D E s → counts s !! p = Some c → 1 ≤ R p < 2 ^ 32 →
  at_stage ph' = after_release p c next → (∀ r, occ r (inst ph') = refs r ph - one p r) →
  (∀ r, dels r ph = 0 ∧ delb r ph = 0) →
  memory_ok (λ r, R r - refs r ph + refs r ph') (λ r, D r - dels r ph + dels r ph')
    (λ r, E r - delb r ph + delb r ph') (with_counts (<[p:=to_u32 (c - 1)]> (counts s)) s).
Proof.
  intros Hok Hc HR Hst Hocc Hno. destruct ph' as [t g ops l vs]; simpl in *; subst g.
  eapply memory_ok_ext; [|apply (memory_ok_dec R D E s p c Hok Hc); lia].
  intros r. rewrite after_release_refs, after_release_dels, after_release_delb, Hocc.
  destruct (Hno r) as [-> ->]. lia.
Qed.

(** A step keeps the memory in order. *)
Lemma pstep_memory R D E ph s ph' s' :
  pstep ph s ph' s' → memory_ok R D E s → knows R s ph →
  (∀ p, refs p ph ≤ R p < 2 ^ 32) → (∀ p, R p - refs p ph + refs p ph' < 2 ^ 32) →
  (∀ p, dels p ph ≤ D p ≤ 1) → (∀ p, delb p ph ≤ E p ≤ D p) → (∀ p, 0 ≤ E p - delb p ph ≤ D p - dels p ph) →
  memory_ok (λ p, R p - refs p ph + refs p ph') (λ p, D p - dels p ph + dels p ph')
    (λ p, E p - delb p ph + delb p ph') s'.
Proof.
  intros Hstep Hok Hk HR HR' HD HE HDE.
  assert (∀ p, 0 ≤ refs p ph) as Hnn by (intros; apply refs_nonneg).
  destruct Hstep as [t o ops l vs s Hi|t i ops l vs s p c v Hi Hc Hv|t i ops l vs s p c Hi Hc|t i ops l vs s p v Hi Hv
    |t i v ops l vs s p c Hi Hc H1|t i v ops l vs s p c Hi Hc H1|t i p v ops l vs s x Hx|t i p q v ops l vs s c Hc
    |t p next ops l vs s x Hx|t p next ops l vs s c Hc|t i q v ops l vs s x Hx];
    try (pose proof (occ_lookup p _ _ _ Hi) as Hocc; rewrite one_eq in Hocc).
  - eapply memory_ok_ext; [|exact Hok]. intros r. unfold refs, dels, delb; simpl. lia.
  - eapply memory_ok_ext; [|apply (memory_ok_inc _ _ _ _ p c Hok Hc)].
    + intros r. unfold refs, dels, delb; simpl. rewrite occ_snoc. lia.
    + specialize (HR p). unfold refs in HR; simpl in HR. lia.
    + specialize (HR' p). unfold refs in HR'; simpl in HR'. rewrite occ_snoc, one_eq in HR'. lia.
  - eapply (memory_ok_released _ _ _ _ p c None); [done|done| |done| |done].
    + specialize (HR p). unfold refs in HR; simpl in HR. lia.
    + intros r. unfold refs; simpl. rewrite (occ_delete _ _ _ _ Hi). lia.
  - destruct Hok as [Hmc Hme]. split; intros r; simpl.
    + specialize (Hmc r). unfold refs, dels; simpl. 
      replace (R r - (occ r l + 0) + (occ r l + 0)) with (R r) by lia.
      by replace (D r - 0 + 0) with (D r) by lia.
    + unfold delb; simpl. replace (E r - 0 + 0) with (E r) by lia. apply Hme.
  - eapply memory_ok_ext; [|exact Hok]. intros r. unfold refs, dels, delb; simpl. lia.
  - eapply memory_ok_ext; [|exact Hok]. intros r. unfold refs, dels, delb; simpl.
    rewrite list_insert_id by done. lia.
  - eapply memory_ok_ext; [|apply (memory_ok_new R D E s x Hok)].
    + intros r. unfold refs, dels, delb; simpl. lia.
    + intros r. specialize (HE r). unfold delb in HE; simpl in HE. lia.
  - destruct Hk as [_ (Hi & HRq & _)]; simpl in *.
    pose proof (occ_lookup p _ _ _ Hi) as Hocc. rewrite one_eq in Hocc.
    pose proof (one_range q p) as Hqp.
    eapply (memory_ok_released _ _ _ _ p c (Some (i, q, v))); [done|done| |done| |done].
    + specialize (HR p). unfold refs in HR; simpl in HR. lia.
    + intros r. unfold refs; simpl. rewrite (occ_insert _ _ _ _ _ Hi). lia.
  - eapply memory_ok_ext; [|apply (memory_ok_delete_element R D E s p Hok)].
    + intros r. unfold refs, dels, delb; simpl. lia.
    + specialize (HD p). unfold dels in HD; simpl in HD. rewrite one_eq in HD. lia.
    + specialize (HDE p). specialize (HD p). unfold dels, delb in *; simpl in *.
      rewrite one_eq in *. lia.
  - pose proof (HD p) as HDp. pose proof (HE p) as HEp. unfold dels, delb in HDp, HEp; simpl in HDp, HEp.
    rewrite one_eq in *.
    eapply memory_ok_ext; [|apply (memory_ok_delete_block R D E s p Hok); lia].
    intros r. destruct (next_stage_refs next r t ops l vs) as (-> & -> & ->).
    unfold refs, dels, delb; simpl. lia.
  - eapply memory_ok_ext; [|by eapply memory_ok_write]. intros r. unfold refs, dels, delb; simpl. lia.
Qed.

(** ** What the threads know *)

Lemma values_frame (el el' : gmap positive Z) l vs :
  (∀ p, p ∈ l → el' !! p = el !! p) →
  Forall2 (λ p v, el !! p = Some v) l vs → Forall2 (λ p v, el' !! p = Some v) l vs.
Proof.
  intros Hf H. induction H as [|p v l vs Hp _ IH]; constructor.
  - by rewrite Hf by (by left).
  - apply IH. intros r Hr. apply Hf. by right.
Qed.

Lemma elem_refs p ph : p ∈ inst ph → 1 ≤ refs p ph.
Proof.
  intros [i Hi]%list_elem_of_lookup. pose proof (occ_lookup p _ _ _ Hi) as Ho. rewrite one_eq in Ho.
  unfold refs. destruct (at_stage ph) as [| |j r q v| | |]; try pose proof (one_range q p); lia.
Qed.

(** What a thread knows depends only on the blocks it refers to. *)
Lemma cow_knows_frame R R' s s' ph :
  (∀ p, 1 ≤ refs p ph → elements s' !! p = elements s !! p) →
  (∀ p, 1 ≤ refs p ph → R p = 1 → R' p = 1) →
  knows R s ph → knows R' s' ph.
Proof.
  intros He HR [Hv Hk]. split.
  { eapply values_frame; [|done]. intros p Hp. by apply He, elem_refs. }
  assert (∀ next, mine_next R (inst ph) next → mine_next R' (inst ph) next) as Hnext.
  { intros [[[i q] v]|]; [|done]. intros [Hi Hq]. split; [done|].
    apply HR; [|done]. apply elem_refs. by eapply list_elem_of_lookup_2. }
  destruct ph as [t [|i p v|i p q v|p next|p next|i q v] ops l vs]; simpl in *;
    [done|done| |by auto|by auto|by apply (Hnext (Some (i, q, v)))].
  destruct Hk as (Hi & Hq & Hel). assert (1 ≤ refs q {| tid := t; at_stage := SReleaseOld i p q v;
    todo := ops; inst := l; vals := vs |}) as Hrq.
  { unfold refs; simpl. rewrite one_eq. pose proof (occ_nonneg q l). lia. }
  split; [done|]. split; [by apply HR|]. by rewrite He.
Qed.

(** A step leaves alone the elements of the blocks others refer to. *)
Lemma pstep_elements R D E ph s ph' s' p :
  pstep ph s ph' s' → memory_ok R D E s → knows R s ph → (∀ p, 0 ≤ E p ≤ D p) →
  (∀ p, dels p ph ≤ D p) →
  1 ≤ R p - refs p ph → elements s' !! p = elements s !! p.
Proof.
  intros Hstep Hok Hk HE HD Hp. pose proof (refs_nonneg p ph) as Hnn.
  assert (1 ≤ R p) as HRp by lia.
  pose proof (memory_ok_live R D E s p Hok HRp (HE p)) as (Hc & _ & HDp).
  destruct Hstep; simpl; try done.
  - apply lookup_insert_ne. intros <-. destruct (new_address_fresh s). congruence.
  - apply lookup_delete_ne. intros ->. specialize (HD p). unfold dels in HD; simpl in HD.
    rewrite one_eq in HD. lia.
  - apply lookup_insert_ne. intros ->. destruct Hk as [_ [Hi HR]]; simpl in *.
    pose proof (elem_refs p {| tid := t; at_stage := SWrite i p v; todo := ops; inst := l; vals := vs |}
      (list_elem_of_lookup_2 _ _ _ Hi)). lia.
Qed.

(** A step takes no reference to a block the thread had none to, unless it is new. *)
Lemma pstep_refs ph s ph' s' p :
  pstep ph s ph' s' → refs p ph = 0 → is_Some (counts s !! p) → refs p ph' = 0.
Proof.
  intros Hstep H0 [c0 Hc0].
  assert (∀ l i x, l !! i = Some x → occ p l = 0 → one x p = 0) as Hind.
  { intros l i x Hi Ho. pose proof (occ_lookup p _ _ _ Hi). pose proof (one_range x p). lia. }
  destruct Hstep as [t o ops l vs s Hi|t i ops l vs s q c v Hi Hc Hv|t i ops l vs s q c Hi Hc|t i ops l vs s q v Hi Hv
    |t i v ops l vs s q c Hi Hc H1|t i v ops l vs s q c Hi Hc H1|t i q v ops l vs s x Hx|t i r q v ops l vs s c Hc
    |t q next ops l vs s x Hx|t q next ops l vs s c Hc|t i q v ops l vs s x Hx];
    rewrite ?after_release_refs, ?(proj1 (next_stage_refs _ _ _ _ _ _));
    unfold refs in *; simpl in *; try lia.
  - rewrite occ_snoc. rewrite (Hind _ _ _ Hi); lia.
  - rewrite (occ_delete _ _ _ _ Hi), (Hind _ _ _ Hi); lia.
  - rewrite list_insert_id by done. lia.
  - rewrite one_ne; [lia|]. intros <-. destruct (new_address_fresh s). congruence.
  - pose proof (occ_nonneg p l). pose proof (one_range q p).
    destruct (l !! i) as [y|] eqn:Hi.
    + rewrite (occ_insert _ _ _ _ _ Hi). rewrite (Hind _ _ _ Hi) by lia. lia.
    + rewrite list_insert_ge; [lia|]. by apply lookup_ge_None.
Qed.

Lemma after_release_knows R s p c next t ops l vs :
  Forall2 (λ p v, elements s !! p = Some v) l vs → mine_next R l next →
  knows R s {| tid := t; at_stage := after_release p c next; todo := ops; inst := l; vals := vs |}.
Proof.
  intros Hv Hn. split; [done|]. unfold after_release. simpl.
  destruct (c =? 1); [done|]. by destruct next as [[[]]|].
Qed.

(** A write through the only instance of a block is seen by that instance alone. *)
Lemma values_write (el : gmap positive Z) l vs i q v :
  l !! i = Some q → occ q l ≤ 1 →
  Forall2 (λ p v, el !! p = Some v) l vs →
  Forall2 (λ p x, <[q:=v]> el !! p = Some x) l (<[i:=v]> vs).
Proof.
  intros Hi Hocc H. rewrite <-(list_insert_id l i q Hi).
  apply Forall2_same_length_lookup. rewrite !length_insert.
  apply Forall2_same_length_lookup in H as [Hlen H]. split; [done|].
  intros j p x Hp Hx. destruct (decide (i = j)) as [<-|Hij].
  - rewrite list_lookup_insert_eq in Hp by (by eapply lookup_lt_Some).
    rewrite list_lookup_insert_eq in Hx by (rewrite <-Hlen; by eapply lookup_lt_Some).
    simplify_eq. apply lookup_insert_eq.
  - rewrite list_lookup_insert_ne in Hp by done. rewrite list_lookup_insert_ne in Hx by done.
    rewrite lookup_insert_ne; [by eapply H|]. intros <-.
    pose proof (zsum_lookup_2 (λ x, one x q) l i j q q
      (λ y, proj1 (one_range y q)) Hij Hi Hp) as Hle.
    simpl in Hle. rewrite one_eq in Hle. unfold occ in Hocc. lia.
Qed.

(** After its own step a thread knows what it needs for the next. *)
Lemma cow_pstep_knows R D E ph s ph' s' :
  pstep ph s ph' s' → memory_ok R D E s → knows R s ph →
  (∀ p, refs p ph ≤ R p) → (∀ p, dels p ph ≤ D p) → (∀ p, 0 ≤ E p ≤ D p) →
  knows (λ p, R p - refs p ph + refs p ph') s' ph'.
Proof.
  intros Hstep Hok [Hv Hk] HR HD HE.
  destruct Hstep as [t o ops l vs s Hi|t i ops l vs s p c v Hi Hc Hvi|t i ops l vs s p c Hi Hc|t i ops l vs s p v Hi Hvi
    |t i v ops l vs s p c Hi Hc H1|t i v ops l vs s p c Hi Hc H1|t i p v ops l vs s x Hx|t i p q v ops l vs s c Hc
    |t p next ops l vs s x Hx|t p next ops l vs s c Hc|t i q v ops l vs s x Hx]; simpl in *.
  - by split.
  - destruct (Forall2_lookup_l _ _ _ _ _ Hv Hi) as (x & Hx & Hel). split; [|done]. simpl.
    rewrite <-Hvi, Hx. apply Forall2_app; [done|by repeat constructor].
  - apply after_release_knows; [|done]. by apply Forall2_delete.
  - by split.
  - by split.
  - rewrite list_insert_id by done. split; [done|]. simpl. split; [done|].
    pose proof (HR p) as HRp. unfold refs in *; simpl in *. pose proof (occ_lookup p _ _ _ Hi) as Ho.
    rewrite one_eq in Ho. pose proof (mo_counts _ _ _ _ Hok p) as Hm. rewrite Hc in Hm. lia.
  - destruct (new_address_fresh s) as [Hqc Hqe]. set (q := new_address s) in *.
    destruct (Forall2_lookup_l _ _ _ _ _ Hv Hk) as (y & Hy & Hel). split; simpl.
    + eapply values_frame; [|done]. intros r [j Hj]%list_elem_of_lookup.
      destruct (Forall2_lookup_l _ _ _ _ _ Hv Hj) as (z & _ & Hz).
      apply lookup_insert_ne. congruence.
    + split; [done|]. split.
      * pose proof (mo_counts _ _ _ _ Hok q) as Hm. rewrite Hqc in Hm.
        unfold refs; simpl. rewrite one_eq. lia.
      * rewrite lookup_insert_eq. congruence.
  - destruct Hk as (Hi & HRq & Hel). destruct (Forall2_lookup_l _ _ _ _ _ Hv Hi) as (y & Hy & Hely).
    apply after_release_knows.
    + rewrite <-(list_insert_id vs i y Hy). apply Forall2_insert; [done|]. simpl. congruence.
    + split; [apply list_lookup_insert_eq; by eapply lookup_lt_Some|].
      rewrite after_release_refs, (occ_insert _ _ _ _ _ Hi), one_eq.
      specialize (HR q). unfold refs in *; simpl in *. rewrite one_eq in *.
      pose proof (occ_nonneg q l). pose proof (occ_lookup q _ _ _ Hi). pose proof (one_range p q). lia.
  - specialize (HD p). unfold dels in HD; simpl in HD. rewrite one_eq in HD. split; simpl.
    + eapply values_frame; [|done]. intros r Hr. apply lookup_delete_ne. intros <-.
      pose proof (elem_refs p {| tid := t; at_stage := SDeleteElement p next; todo := ops; inst := l; vals := vs |} Hr).
      destruct (memory_ok_live R D E s p Hok) as (_ & _ & ?); [specialize (HR p); lia|done|lia].
    + destruct next as [[[i q] v]|]; [|done]. destruct Hk as [Hi Hq]. split; [done|].
      unfold refs; simpl. lia.
  - split; simpl; [by destruct next as [[[]]|]|].
    destruct next as [[[i q] v]|]; [|done]. destruct Hk as [Hi Hq]. split; [done|].
    unfold refs; simpl. lia.
  - destruct Hk as [Hi Hq]. split; [|done]. simpl. apply values_write; [done| |done].
    specialize (HR q). unfold refs in HR; simpl in HR. lia.
Qed.

(** ** The invariant of the threads *)

(** A bound of the references a thread will ever have at once. *)
Definition makes (o : op) : Z := match o with OCopy _ | OWrite _ _ => 1 | _ => 0 end.
Definition room (ph : phase) : Z :=
  Z.of_nat (length (inst ph)) + zsum makes (todo ph) +
  match at_stage ph with SCopyElement _ _ _ | SReleaseOld _ _ _ _ => 1 | _ => 0 end.

(** What a thread will still read, and the values it will end with. *)
Definition write_value (next : write_next) (vs : list Z) : list Z :=
  match next with None => vs | Some (i, _, v) => <[i:=v]> vs end.
Definition will (ph : phase) : list Z * list Z :=
  local (todo ph)
    match at_stage ph with
    | SNext => vals ph
    | SCopyElement i _ v | SReleaseOld i _ _ v | SWrite i _ v => <[i:=v]> (vals ph)
    | SDeleteElement _ next | SDeleteBlock _ next => write_value next (vals ph)
    end.

Definition seen_by (t : nat) (s : memory) : list Z :=
  omap (λ e, if decide (e.1 = t) then Some e.2 else None) (seen s).

Record cow_inv (N : Z) (total : nat → list Z * list Z) (phs : list phase) (s : memory) : Prop := {
  cv_memory : memory_ok (λ p, zsum (refs p) phs) (λ p, zsum (dels p) phs) (λ p, zsum (delb p) phs) s;
  cv_knows i ph : phs !! i = Some ph → knows (λ p, zsum (refs p) phs) s ph;
  cv_room : zsum room phs ≤ N;
  cv_seen i ph : phs !! i = Some ph →
    tid ph = i ∧ (seen_by i s ++ (will ph).1, (will ph).2) = total i;
}.

Lemma occ_length p l : occ p l ≤ Z.of_nat (length l).
Proof.
  induction l as [|x l IH]; simpl; [done|]. unfold occ in *; simpl.
  pose proof (one_range x p). lia.
Qed.

Lemma makes_nonneg ops : 0 ≤ zsum makes ops.
Proof. apply zsum_nonneg. intros [] _; simpl; lia. Qed.

Lemma refs_room p ph : refs p ph ≤ room ph.
Proof.
  unfold refs, room. pose proof (occ_length p (inst ph)). pose proof (makes_nonneg (todo ph)).
  destruct (at_stage ph) as [| |i r q v| | |]; try pose proof (one_range q p); lia.
Qed.

Lemma after_release_room p c next t ops l vs :
  room {| tid := t; at_stage := after_release p c next; todo := ops; inst := l; vals := vs |} =
    Z.of_nat (length l) + zsum makes ops.
Proof.
  unfold room, after_release; simpl. destruct (c =? 1); simpl; [lia|].
  destruct next as [[[]]|]; simpl; lia.
Qed.

Lemma pstep_room ph s ph' s' : pstep ph s ph' s' → room ph' ≤ room ph.
Proof.
  destruct 1 as [t o ops l vs s Hi| | | | | | | | |t p next ops l vs s c Hc|];
    rewrite ?after_release_room; unfold room; simpl; rewrite ?length_app, ?length_insert; simpl; try lia.
  - destruct o; simpl; lia.
  - rewrite length_delete by (by eexists). lia.
  - destruct next as [[[]]|]; simpl; lia.
Qed.

Lemma list_delete_ge {A} (l : list A) i : (length l ≤ i)%nat → delete i l = l.
Proof.
  revert i. induction l as [|x l IH]; intros [|i] H; simpl in *; [done|done|lia|].
  unfold delete in *; simpl. f_equal. apply IH. lia.
Qed.

Lemma seen_by_snoc t t' v (s s' : memory) :
  seen s' = seen s ++ [(t', v)] →
  seen_by t s' = seen_by t s ++ if decide (t' = t) then [v] else [].
Proof.
  unfold seen_by. intros ->. rewrite omap_app. simpl. by destruct (decide (t' = t)).
Qed.

Lemma after_release_will p c next t ops l vs :
  will {| tid := t; at_stage := after_release p c next; todo := ops; inst := l; vals := vs |} =
    local ops (write_value next vs).
Proof.
  unfold will, after_release; simpl. destruct (c =? 1); simpl; [done|].
  by destruct next as [[[]]|].
Qed.

(** A step makes good on what the thread will read. *)
Lemma pstep_will R ph s ph' s' :
  pstep ph s ph' s' → knows R s ph →
  tid ph' = tid ph ∧
  (seen_by (tid ph) s' ++ (will ph').1, (will ph').2) = (seen_by (tid ph) s ++ (will ph).1, (will ph).2).
Proof.
  intros Hstep [Hv _].
  destruct Hstep as [t o ops l vs s Hi|t i ops l vs s p c v Hi Hc Hvi|t i ops l vs s p c Hi Hc|t i ops l vs s p v Hi Hvi
    |t i v ops l vs s p c Hi Hc H1|t i v ops l vs s p c Hi Hc H1|t i p v ops l vs s x Hx|t i p q v ops l vs s c Hc
    |t p next ops l vs s x Hx|t p next ops l vs s c Hc|t i q v ops l vs s x Hx];
    rewrite ?after_release_will; (split; [done|]); simpl in *; try done.
  - assert (vs !! op_index o = None) as Hn
      by (apply lookup_ge_None; rewrite <-(Forall2_length _ _ _ Hv); by apply lookup_ge_None).
    destruct o as [i|i|i|i v]; unfold will; simpl in *; rewrite ?Hn; try done.
    + by rewrite list_delete_ge by (by apply lookup_ge_None).
    + by rewrite list_insert_ge by (by apply lookup_ge_None).
  - destruct (Forall2_lookup_l _ _ _ _ _ Hv Hi) as (x & Hx & _). unfold will; simpl.
    subst v. by rewrite Hx.
  - destruct (Forall2_lookup_l _ _ _ _ _ Hv Hi) as (x & Hx & Hel). simplify_eq.
    unfold will; simpl. rewrite Hx. simpl.
    rewrite (seen_by_snoc t t v s) by done. by rewrite decide_True, <-(assoc_L (++)).
  - by destruct next as [[[]]|].
Qed.

Lemma pstep_seen t ph s ph' s' : pstep ph s ph' s' → t ≠ tid ph → seen_by t s' = seen_by t s.
Proof.
  destruct 1; simpl; intros Ht; try done.
  rewrite (seen_by_snoc t t0 v s) by done. by rewrite decide_False, app_nil_r.
Qed.

(** What one thread holds against what all of them hold. *)
Lemma cow_sums N total phs s i ph p :
  cow_inv N total phs s → phs !! i = Some ph →
  refs p ph ≤ zsum (refs p) phs ≤ zsum room phs ∧
  dels p ph ≤ zsum (dels p) phs ≤ 1 ∧
  delb p ph ≤ zsum (delb p) phs ≤ zsum (dels p) phs ∧
  0 ≤ zsum (delb p) phs - delb p ph ≤ zsum (dels p) phs - dels p ph.
Proof.
  intros [Hmem _ _ _] Hi.
  assert (∀ x, 0 ≤ delb p x ≤ dels p x) as Hr by (intros x; pose proof (dels_range p x); lia).
  assert (∀ x, 0 ≤ dels p x) as Hd by (intros x; pose proof (Hr x); lia).
  assert (zsum (refs p) phs ≤ zsum room phs) by apply zsum_le, refs_room.
  assert (zsum (delb p) phs ≤ zsum (dels p) phs) by (apply zsum_le; intros x; apply Hr).
  pose proof (zsum_lookup (refs p) phs i ph (refs_nonneg p) Hi).
  pose proof (zsum_lookup (dels p) phs i ph Hd Hi).
  pose proof (zsum_lookup (delb p) phs i ph (λ x, proj1 (Hr x)) Hi).
  pose proof (zsum_others_le (delb p) (dels p) phs i ph (λ x, proj2 (Hr x)) Hi).
  assert (zsum (dels p) phs ≤ 1); [|lia].
  pose proof (mo_counts _ _ _ _ Hmem p) as Hc. simpl in Hc.
  destruct (counts s !! p); [destruct Hc as [_ ->]; case_decide|]; lia.
Qed.

(** What the threads have seen and will see stays what they would alone. *)
Lemma cow_seen_step N total phs s i ph ph' s' :
  cow_inv N total phs s → phs !! i = Some ph → pstep ph s ph' s' →
  ∀ j x, <[i:=ph']> phs !! j = Some x → tid x = j ∧ (seen_by j s' ++ (will x).1, (will x).2) = total j.
Proof.
  intros [_ Hknows _ Hseen] Hi Hstep j x Hj. destruct (Hseen _ _ Hi) as [Ht Hs].
  destruct (pstep_will _ _ _ _ _ Hstep (Hknows _ _ Hi)) as [Ht' Hw]. destruct (decide (i = j)) as [<-|Hij].
  - rewrite list_lookup_insert_eq in Hj by (by eapply lookup_lt_Some). injection Hj as <-.
    split; [congruence|]. rewrite <-Hs, <-Ht. exact Hw.
  - rewrite list_lookup_insert_ne in Hj by done. destruct (Hseen _ _ Hj) as [Ht2 Hs2].
    split; [done|]. rewrite (pstep_seen j _ _ _ _ Hstep); [done|congruence].
Qed.

Lemma cow_inv_step N total phs s i ph ph' s' :
  N < 2 ^ 32 → phs !! i = Some ph → pstep ph s ph' s' → cow_inv N total phs s →
  cow_inv N total (<[i:=ph']> phs) s'.
Proof.
  intros HN Hi Hstep Hinv. pose proof (λ p, cow_sums N total phs s i ph p Hinv Hi) as Hsums.
  pose proof (cow_seen_step N total phs s i ph ph' s' Hinv Hi Hstep) as Hseen'.
  destruct Hinv as [Hmem Hknows Hroom _]. pose proof (Hknows _ _ Hi) as Hk.
  set (R := λ p, zsum (refs p) phs) in *. set (D := λ p, zsum (dels p) phs) in *.
  set (E := λ p, zsum (delb p) phs) in *.
  assert (∀ p, refs p ph ≤ R p ∧ dels p ph ≤ D p ∧ 0 ≤ E p ≤ D p) as Hle.
  { intros p. specialize (Hsums p). pose proof (dels_range p ph). unfold R, D, E. lia. }
  assert (∀ p, zsum (refs p) (<[i:=ph']> phs) = R p - refs p ph + refs p ph') as HR'
    by (intros p; by apply zsum_insert).
  assert (zsum room (<[i:=ph']> phs) ≤ N) as Hroom'.
  { rewrite (zsum_insert _ _ _ _ _ Hi). pose proof (pstep_room _ _ _ _ Hstep). lia. }
  split; [| |done|done].
  - eapply memory_ok_ext; [|apply (pstep_memory R D E _ _ _ _ Hstep Hmem Hk)].
    + intros p. split; [apply HR'|]. split; by apply zsum_insert.
    + intros p. specialize (Hsums p). unfold R. lia.
    + intros p. rewrite <-HR'. assert (zsum (refs p) (<[i:=ph']> phs) ≤ N); [|lia].
      etransitivity; [|exact Hroom']. apply zsum_le, refs_room.
    + intros p. apply Hsums.
    + intros p. apply Hsums.
    + intros p. apply Hsums.
  - intros j ph2 Hj. destruct (decide (i = j)) as [<-|Hij].
    { rewrite list_lookup_insert_eq in Hj by (by eapply lookup_lt_Some). injection Hj as <-.
      eapply cow_knows_frame; [done| |eapply cow_pstep_knows; [done..| | |]; intros p; apply Hle].
      intros p _. by rewrite HR'. }
    rewrite list_lookup_insert_ne in Hj by done.
    assert (∀ p, refs p ph + refs p ph2 ≤ R p) as H2
      by (intros p; exact (zsum_lookup_2 (refs p) phs i j ph ph2 (refs_nonneg p) Hij Hi Hj)).
    apply (cow_knows_frame R _ s); [| |by eapply Hknows].
    + intros p Hp. eapply (pstep_elements R D E); [done..|intros; apply Hle|intros; apply Hle|].
      specialize (H2 p). lia.
    + intros p Hp HRp. specialize (H2 p). pose proof (refs_nonneg p ph). rewrite HR'.
      destruct (memory_ok_live R D E s p Hmem) as (Hc & _); [lia|apply Hle|].
      rewrite (pstep_refs _ _ _ _ p Hstep); [lia|lia|by eexists].
Qed.

(** ** Running to the end *)

Definition weight (ph : phase) : nat :=
  match at_stage ph with
  | SNext => 0
  | SWrite _ _ _ => 1
  | SDeleteBlock _ _ => 2
  | SDeleteElement _ _ => 3
  | SReleaseOld _ _ _ _ => 4
  | SCopyElement _ _ _ => 5
  end + 6 * length (todo ph).

Lemma cow_pstep_weight ph s ph' s' : pstep ph s ph' s' → (weight ph' < weight ph)%nat.
Proof.
  destruct 1 as [| |t i ops l vs s p c Hi Hc| | | | |t i p q v ops l vs s c Hc|
    |t p next ops l vs s c Hc|]; unfold weight, after_release; simpl; try lia.
  - destruct (c =? 1); simpl; lia.
  - destruct (c =? 1); simpl; lia.
  - destruct next as [[[]]|]; simpl; lia.
Qed.

(** No thread ever touches memory that is gone. *)
Lemma cow_progress N total phs s i ph m k :
  cow_inv N total phs s → phs !! i = Some ph → code_of ph = Act m k → is_Some (m s).
Proof.
  intros Hinv Hi Hc. pose proof (λ p, cow_sums N total phs s i ph p Hinv Hi) as Hsums.
  destruct Hinv as [Hmem Hknows _ _]. destruct (Hknows _ _ Hi) as [_ Hk].
  assert (∀ p j, inst ph !! j = Some p → is_Some (counts s !! p) ∧ is_Some (elements s !! p)) as Hlive.
  { intros p j Hj. specialize (Hsums p). pose proof (dels_range p ph).
    pose proof (elem_refs p ph (list_elem_of_lookup_2 _ _ _ Hj)).
    destruct (memory_ok_live _ _ _ s p Hmem) as (-> & ? & _); simpl; [lia|lia|]. split; [by eexists|done]. }
  assert (∀ p, dels p ph = 1 → is_Some (counts s !! p)) as Hdel.
  { intros p Hp. pose proof (mo_counts _ _ _ _ Hmem p) as Hm. specialize (Hsums p). simpl in Hm.
    destruct (counts s !! p); [done|lia]. }
  assert (∀ p, dels p ph = 1 → delb p ph = 0 → zsum (delb p) phs = 0) as HE0
    by (intros p Hp Hq; specialize (Hsums p); lia).
  destruct ph as [t [|j p v|j p q v|p next|p next|j q v] ops l vs]; unfold code_of in Hc; simpl in *.
  - destruct ops as [|[j|j|j|j v] ops]; [done|..]; simpl in Hc; destruct (l !! j) as [p|] eqn:Hj;
      injection Hc as <- <-; try (by eexists); destruct (Hlive p j Hj) as [[c Hcp] [x Hx]];
      unfold perform, plain_memory, do_fetch_add, do_fetch_sub, do_read_element, do_load; rewrite ?Hcp, ?Hx; by eexists.
  - injection Hc as <- <-. destruct (Hlive p j Hk) as [_ [x Hx]]. unfold perform, plain_memory, do_new_copy. rewrite Hx. by eexists.
  - injection Hc as <- <-. destruct (Hlive p j (proj1 Hk)) as [[c Hcp] _].
    unfold perform, plain_memory, do_fetch_sub. rewrite Hcp. by eexists.
  - injection Hc as <- <-. unfold perform, plain_memory, do_delete_element.
    destruct (proj2 (mo_elements _ _ _ _ Hmem p)) as [x ->]; [|by eexists].
    split; [apply Hdel; unfold dels; simpl; apply one_eq|].
    apply HE0; [unfold dels; simpl; apply one_eq|done].
  - injection Hc as <- <-. unfold perform, plain_memory, do_delete_block.
    destruct (Hdel p) as [c ->]; [unfold dels; simpl; apply one_eq|by eexists].
  - injection Hc as <- <-. destruct (Hlive q j (proj1 Hk)) as [_ [x Hx]].
    unfold perform, plain_memory, do_write_element. rewrite Hx. by eexists.
Qed.

Lemma cow_code_of_ret ph : code_of ph = Ret → at_stage ph = SNext ∧ todo ph = [].
Proof.
  destruct ph as [t [| | | | |] ops l vs]; unfold code_of; simpl; try done.
  destruct ops as [|[i|i|i|i v] ops]; simpl; [done|..]; by destruct (l !! i).
Qed.

(** ** The threads that start from one block *)

(** Thread [t] has [x.1] instances of block [p] and then does [x.2]. *)
Definition start {S} `{Memory S} (p : positive) (threads : list (nat * list op)) : list (code S answer) :=
  imap (λ t x, client t x.2 (replicate x.1 p)) threads.

Definition owners (threads : list (nat * list op)) : Z := zsum (λ x, Z.of_nat x.1) threads.
Definition made (threads : list (nat * list op)) : Z := zsum (λ x, zsum makes x.2) threads.

(** One block with so many references, and its element. *)
Definition shared_block (p : positive) (v n : Z) : memory :=
  {| counts := {[p := n]}; elements := {[p := v]}; seen := [] |}.

Definition start_phases (p : positive) (v : Z) (threads : list (nat * list op)) : list phase :=
  imap (λ t x, {| tid := t; at_stage := SNext; todo := x.2;
                  inst := replicate x.1 p; vals := replicate x.1 v |}) threads.

Definition start_total (v : Z) (threads : list (nat * list op)) (t : nat) : list Z * list Z :=
  match threads !! t with Some (k, ops) => local ops (replicate k v) | None => ([], []) end.

Lemma start_code {S} `{Memory S} p v threads : start p threads = code_of <$> start_phases p v threads.
Proof. unfold start, start_phases. rewrite fmap_imap. done. Qed.

Lemma occ_replicate r k p : occ r (replicate k p) = Z.of_nat k * one p r.
Proof. induction k as [|k IH]; [done|]. unfold occ in *; simpl. lia. Qed.

Lemma start_refs p v threads r : zsum (refs r) (start_phases p v threads) = owners threads * one p r.
Proof.
  unfold start_phases. rewrite (zsum_imap _ _ (λ x, Z.of_nat x.1 * one p r)).
  - unfold owners. induction threads as [|x l IH]; simpl; [done|]. rewrite IH. lia.
  - intros n x. unfold refs; simpl. rewrite occ_replicate. lia.
Qed.

Lemma cow_inv_start p v threads :
  1 ≤ owners threads →
  cow_inv (owners threads + made threads) (start_total v threads) (start_phases p v threads)
    (shared_block p v (owners threads)).
Proof.
  intros H1. split.
  - assert (∀ f : phase → Z, (∀ t ops l vs, f {| tid := t; at_stage := SNext; todo := ops; inst := l; vals := vs |} = 0) →
      zsum f (start_phases p v threads) = 0) as Hz.
    { intros f Hf. apply zsum_zero. intros ph Hel.
      unfold start_phases in Hel. apply elem_of_lookup_imap in Hel as (t & x & -> & _). apply Hf. }
    split; intros r; simpl; rewrite ?start_refs, ?(Hz (dels r)), ?(Hz (delb r)) by done.
    + destruct (decide (r = p)) as [->|Hr].
      * rewrite lookup_singleton_eq, one_eq, decide_False by lia. lia.
      * rewrite lookup_singleton_ne, one_ne by done. lia.
    + destruct (decide (r = p)) as [->|Hr].
      * rewrite !lookup_singleton_eq. split; [|by eexists]. intros _. split; [by eexists|done].
      * rewrite !lookup_singleton_ne by done. split; [by intros []|by intros [[] _]].
  - intros i ph Hi. unfold start_phases in Hi. rewrite list_lookup_imap in Hi.
    destruct (threads !! i) as [x|]; [|done]. injection Hi as <-. split; [|done]. simpl.
    apply Forall2_replicate. apply lookup_singleton_eq.
  - unfold start_phases. rewrite (zsum_imap _ _ (λ x, Z.of_nat x.1 + zsum makes x.2)).
    + apply Z.eq_le_incl. clear H1. unfold owners, made.
      induction threads as [|x l IH]; simpl in *; [done|]. lia.
    + intros n x. unfold room; simpl. rewrite length_replicate. lia.
  - intros i ph Hi. unfold start_phases in Hi. rewrite list_lookup_imap in Hi.
    unfold start_total. destruct (threads !! i) as [[k ops]|]; [|done].
    injection Hi as <-. split; [done|]. unfold will; simpl. by destruct (local ops _).
Qed.

(** When all threads have come to their end the memory holds what their
    instances refer to and do_nothing else. *)
Lemma cow_inv_end N total phs s :
  cow_inv N total phs s → finished (code_of <$> phs) →
  (∀ i ph, phs !! i = Some ph → total i = (seen_by i s, vals ph)) ∧
  ((∀ i ph, phs !! i = Some ph → vals ph = []) → counts s = ∅ ∧ elements s = ∅).
Proof.
  intros [Hmem Hknows _ Hseen] Hf.
  assert (∀ i ph, phs !! i = Some ph → at_stage ph = SNext ∧ todo ph = []) as Hend.
  { intros i ph Hi. rewrite finished_lookup in Hf. apply cow_code_of_ret, (Hf i).
    by rewrite list_lookup_fmap, Hi. }
  split.
  - intros i ph Hi. destruct (Hend i ph Hi) as [Hst Htd]. destruct (Hseen i ph Hi) as [_ <-].
    unfold will. rewrite Hst, Htd. simpl. by rewrite app_nil_r.
  - intros Hnil.
    assert (∀ f : phase → Z, (∀ ph, at_stage ph = SNext → inst ph = [] → f ph = 0) → zsum f phs = 0) as Hz.
    { intros f H0. apply zsum_zero. intros ph Hel. apply list_elem_of_lookup in Hel as [i Hi].
      destruct (Hend i ph Hi) as [Hst _]. apply H0; [done|].
      destruct (Hknows i ph Hi) as [Hv _]. rewrite (Hnil i ph Hi) in Hv. by inversion Hv. }
    assert (∀ p, counts s !! p = None) as Hc.
    { intros p. pose proof (mo_counts _ _ _ _ Hmem p) as Hm. destruct (counts s !! p) as [c|]; [|done].
      simpl in Hm. rewrite (Hz (refs p)), (Hz (dels p)) in Hm.
      - destruct Hm as [-> Hm]. by rewrite decide_True in Hm.
      - intros ph Hst _. unfold dels. by rewrite Hst.
      - intros ph Hst Hi. unfold refs. by rewrite Hst, Hi. }
    split; apply map_eq; intros p; rewrite lookup_empty; [apply Hc|].
    apply eq_None_not_Some. intros [H _]%(mo_elements _ _ _ _ Hmem). rewrite Hc in H. by destruct H.
Qed.

(** Every state that threads started together can reach. *)
Lemma cow_inv_reached p v threads P' s' :
  1 ≤ owners threads → owners threads + made threads < 2 ^ 32 →
  rtc step (start p threads, shared_block p v (owners threads)) (P', s') →
  ∃ phs, P' = code_of <$> phs ∧ length phs = length threads ∧
    cow_inv (owners threads + made threads) (start_total v threads) phs s'.
Proof.
  intros H1 HN Hsteps. rewrite (start_code p v) in Hsteps.
  eapply (phases_invariant code_of pstep cow_pstep_complete
    (λ phs s, length phs = length threads ∧
       cow_inv (owners threads + made threads) (start_total v threads) phs s))
    in Hsteps as (phs & -> & Hlen & Hinv); [by exists phs| |].
  - intros phs s i ph ph' s2 Hi Hstep [Hlen Hinv]. rewrite length_insert.
    split; [done|]. by eapply cow_inv_step.
  - unfold start_phases at 1. rewrite length_imap. split; [done|by apply cow_inv_start].
Qed.

(** In the end a thread has read what its values gave. *)
Lemma finished_seen N v threads phs s :
  cow_inv N (start_total v threads) phs s → length phs = length threads → finished (code_of <$> phs) →
  ∀ t k ops, threads !! t = Some (k, ops) → seen_by t s = (local ops (replicate k v)).1.
Proof.
  intros Hinv Hlen Hf t k ops Ht. destruct (lookup_lt_is_Some_2 phs t) as [ph Hph];
    [rewrite Hlen; by eapply lookup_lt_Some|].
  pose proof (proj1 (cow_inv_end _ _ _ _ Hinv Hf) t ph Hph) as Hread.
  unfold start_total in Hread. rewrite Ht in Hread. by rewrite Hread.
Qed.

(** C7: threads that share one element through instances of their own, in any
    interleaving of their accesses: the run ends; no thread ever touches a block
    or an element that has been deleted, or deletes one twice; each thread reads
    what it would read if its instances were values of its own, whatever the
    others write; and when all instances are destroyed everything has been
    deleted.  There are fewer than [2^32] references at any time. *)
Theorem cow_threads_correct p v threads P' s' :
  1 ≤ owners threads → owners threads + made threads < 2 ^ 32 →
  rtc step (start p threads, shared_block p v (owners threads)) (P', s') →
  sn step (P', s') ∧
  (∀ i m k, P' !! i = Some (Act m k) → is_Some (m s')) ∧
  (finished P' →
    (∀ t k ops, threads !! t = Some (k, ops) → seen_by t s' = (local ops (replicate k v)).1) ∧
    ((∀ t k ops, threads !! t = Some (k, ops) → (local ops (replicate k v)).2 = []) →
     counts s' = ∅ ∧ elements s' = ∅)).
Proof.
  intros H1 HN Hsteps. destruct (cow_inv_reached p v threads P' s' H1 HN Hsteps) as (phs & -> & Hlen & Hinv).
  split; [by apply (phases_sn code_of pstep cow_pstep_complete weight cow_pstep_weight)|]. split.
  - intros i m k Hi. rewrite list_lookup_fmap in Hi. destruct (phs !! i) as [ph|] eqn:Hph; [|done].
    injection Hi as Hi. by eapply cow_progress.
  - intros Hf. destruct (cow_inv_end _ _ _ _ Hinv Hf) as [_ Hempty]. split.
    + by eapply finished_seen.
    + intros Hnil. apply Hempty. intros i ph Hph.
      destruct (lookup_lt_is_Some_2 threads i) as [[k ops] Ht];
        [rewrite <-Hlen; by eapply lookup_lt_Some|].
      destruct (cow_inv_end _ _ _ _ Hinv Hf) as [Hread _].
      specialize (Hread i ph Hph). unfold start_total in Hread. rewrite Ht in Hread.
      specialize (Hnil i k ops Ht). rewrite Hread in Hnil. done.
Qed.

(** Two threads share the block; both find it shared, the second gives it up
    before the first has copied the element, so that the first deletes it. *)
Definition demo_threads : list (nat * list op) :=
  [(1%nat, [OWrite 0 5; ORead 0; ODrop 0]); (1%nat, [ORead 0; ODrop 0])].
Definition demo_order : list nat := [0; 1; 1; 0; 0; 0; 0; 0; 0; 0; 0; 0]%nat.
Definition demo_end : memory := {| counts := ∅; elements := ∅; seen := [(1%nat, 7); (0%nat, 5)] |}.

Lemma cow_threads_correct_witness :
  rtc step (start 1 demo_threads, shared_block 1 7 (owners demo_threads)) ([Ret; Ret], demo_end) ∧
  seen_by 0 demo_end = [5] ∧ seen_by 1 demo_end = [7].
Proof.
  assert (rtc step (start 1 demo_threads, shared_block 1 7 (owners demo_threads)) ([Ret; Ret], demo_end)) as Hs
    by (apply (schedule_sound demo_order); vm_compute; reflexivity).
  split; [exact Hs|].
  destruct (cow_threads_correct 1 7 demo_threads [Ret; Ret] demo_end
    ltac:(vm_compute; discriminate) ltac:(vm_compute; reflexivity) Hs) as (_ & _ & Hf).
  destruct (Hf ltac:(repeat constructor)) as [Hread _]. split.
  - exact (Hread 0%nat 1%nat _ eq_refl).
  - exact (Hread 1%nat 1%nat _ eq_refl).
Defined.
End CowThreads.
