(* ===== verification/CowSerial.v ===== *)
(** * CowSerial: a thread among others is like a program alone

    The two models of [CopyOnWriteBacked.h] meet: the methods of CopyOnWrite.v,
    each run in one go on named instances, and those of CowThreads.v, sequences
    of atomic accesses that other threads interrupt.  Here a thread's operations
    are run by the former, on instances that only this program has. *)

From stdpp Require Import fin_map_dom.
From S2P Require Import Prelude Concur CopyOnWrite CowSpec CowThreads.

Module CowSerial.
Import Concur Cow CowSpec.
Import (hints) CowThreads.
Notation thread_op := CowThreads.op.

(** The operations of a thread, with the names of its instances; what it reads. *)
Fixpoint serial (ops : list thread_op) (names : list positive) : prog (cow Z unit) (list Z) :=
  match ops with
  | [] => mret []
  | CowThreads.OCopy i :: ops =>
      match names !! i with
      | Some y =>
          r ← gets refs;
          let x := fresh (dom r) in
          copy_ctor x y;; serial ops (names ++ [x])
      | None => serial ops names
      end
  | CowThreads.ODrop i :: ops =>
      match names !! i with
      | Some x => destruct_ x;; serial ops (delete i names)
      | None => serial ops names
      end
  | CowThreads.ORead i :: ops =>
      match names !! i with
      | Some x => e ← read x; v ← get_element e; l ← serial ops names; mret (v :: l)
      | None => serial ops names
      end
  | CowThreads.OWrite i v :: ops =>
      match names !! i with
      | Some x => e ← unique x; on_element e (modify (λ tw, (v, tw.2)));; serial ops names
      | None => serial ops names
      end
  end.

Implicit Types (c : cow Z unit) (names : list positive) (vals : list Z).

(** The store has these instances, with these values, and no others. *)
Record owns c names vals : Prop := {
  owns_ok : cow_ok c;
  owns_distinct : NoDup names;
  owns_all x : x ∈ dom (abs c) ↔ x ∈ names;
  owns_values : (λ x, abs c !! x) <$> names = (λ v, Some (Some v)) <$> vals;
}.

Lemma owns_lookup c names vals i x : owns c names vals → names !! i = Some x →
  ∃ v, vals !! i = Some v ∧ abs c !! x = Some (Some v).
Proof.
  intros [_ _ _ Hv] Hx. apply (f_equal (lookup i)) in Hv. rewrite !list_lookup_fmap, Hx in Hv.
  destruct (vals !! i) as [v|]; [|done]. exists v. split; [done|]. by injection Hv.
Qed.

Lemma owns_none c names vals i : owns c names vals → names !! i = None → vals !! i = None.
Proof.
  intros [_ _ _ Hv] Hx. apply (f_equal (lookup i)) in Hv. rewrite !list_lookup_fmap, Hx in Hv.
  by destruct (vals !! i).
Qed.

Lemma owns_size c names vals : owns c names vals → size (refs c) = length names.
Proof.
  intros [_ Hnd Hall _]. rewrite <- size_abs, <- size_dom, <- (size_list_to_set (C := gset positive) names) by done.
  f_equal. apply set_eq. intros x. by rewrite Hall, elem_of_list_to_set.
Qed.

(** A new instance, one that changes its value, and one that goes. *)
Lemma owns_snoc c c' names vals x v :
  owns c names vals → cow_ok c' → abs c !! x = None → abs c' = <[x:=Some v]> (abs c) →
  owns c' (names ++ [x]) (vals ++ [v]).
Proof.
  intros [_ Hnd Hall Hv] Hok Hx Habs.
  assert (x ∉ names) as Hnew by by rewrite <- Hall, not_elem_of_dom.
  split; [done| | |].
  - apply NoDup_app. split; [done|]. split; [|apply NoDup_singleton].
    intros y Hy ->%list_elem_of_singleton. done.
  - intros y. rewrite Habs, dom_insert, elem_of_app, list_elem_of_singleton, <- Hall. set_solver.
  - rewrite Habs, !fmap_app, <- Hv. simpl. rewrite lookup_insert_eq. f_equal.
    apply list_fmap_ext. intros j y Hy. apply lookup_insert_ne. intros ->. by eapply Hnew, list_elem_of_lookup_2.
Qed.

Lemma owns_insert c c' names vals i x v :
  owns c names vals → cow_ok c' → names !! i = Some x → abs c' = <[x:=Some v]> (abs c) →
  owns c' names (<[i:=v]> vals).
Proof.
  intros Hs Hok Hx Habs. pose proof Hs as [_ Hnd Hall Hv].
  destruct (owns_lookup _ _ _ _ _ Hs Hx) as (u & Hu & Hxu). split; [done|done| |].
  - intros y. rewrite Habs, dom_insert_lookup_L by by eexists. apply Hall.
  - rewrite list_fmap_insert, <- Hv. apply list_eq. intros j. rewrite list_lookup_fmap, Habs.
    destruct (decide (i = j)) as [<-|Hij].
    + rewrite list_lookup_insert_eq by (rewrite length_fmap; by eapply lookup_lt_Some). rewrite Hx. simpl.
      by rewrite lookup_insert_eq.
    + rewrite list_lookup_insert_ne, list_lookup_fmap by done. destruct (names !! j) as [y|] eqn:Hy; [|done].
      simpl. rewrite lookup_insert_ne; [done|]. intros ->. by eapply Hij, NoDup_lookup.
Qed.

Lemma owns_delete c c' names vals i x :
  owns c names vals → cow_ok c' → names !! i = Some x → abs c' = delete x (abs c) →
  owns c' (delete i names) (delete i vals).
Proof.
  intros [_ Hnd Hall Hv] Hok Hx Habs. pose proof (delete_Permutation names i x Hx) as Hperm.
  assert (∀ y, y ∈ names ↔ y = x ∨ y ∈ delete i names) as Hmem by (intros y; rewrite Hperm at 1; apply elem_of_cons).
  rewrite Hperm in Hnd. apply NoDup_cons in Hnd as [Hout Hnd]. split; [done|done| |].
  - intros y. rewrite Habs, dom_delete, elem_of_difference, Hall, Hmem, elem_of_singleton. naive_solver.
  - rewrite !list_fmap_delete, <- Hv, <- !list_fmap_delete, Habs. apply list_fmap_ext. intros j y Hy.
    apply lookup_delete_ne. intros ->. by eapply Hout, list_elem_of_lookup_2.
Qed.

(** ** Run alone *)

(** Run alone, the operations read what values of the program's own would give,
    and leave its instances with these values. *)
Lemma serial_local ops names vals c :
  owns c names vals → Z.of_nat (length names) + zsum CowThreads.makes ops + 1 < 2 ^ 32 →
  wp (serial ops names) (λ l c', l = (CowThreads.local ops vals).1 ∧ ∃ names', owns c' names' (CowThreads.local ops vals).2) c.
Proof.
  revert names vals c. induction ops as [|o ops IH]; intros names vals c Hs Hroom.
  { apply wp_ret. split; [done|by exists names]. }
  pose proof (CowThreads.makes_nonneg ops) as Hn.
  assert (zsum CowThreads.makes (o :: ops) = CowThreads.makes o + zsum CowThreads.makes ops) as Hz by done.
  rewrite Hz in Hroom. clear Hz.
  assert (fits c) as Hfits.
  { unfold fits. rewrite (owns_size _ _ _ Hs). destruct o; simpl in Hroom; lia. }
  destruct o as [i|i|i|i v]; cbn [serial CowThreads.local CowThreads.makes] in *;
    (destruct (names !! i) as [x|] eqn:Hx;
     [destruct (owns_lookup _ _ _ _ _ Hs Hx) as (u & Hu & Hxu)
     |rewrite ?(owns_none _ _ _ _ Hs Hx), ?CowThreads.list_delete_ge, ?list_insert_ge
        by (by apply lookup_ge_None, (owns_none _ _ _ _ Hs)); apply IH; [done|lia]]).
  - rewrite Hu. apply wp_bind, wp_gets, wp_bind.
    assert (abs c !! fresh (dom (refs c)) = None) as Hfresh by (apply abs_lookup_None, not_elem_of_dom, is_fresh).
    eapply wp_copy_ctor_value; [by apply Hs|done|done|done|]. intros c' Hok' Habs _.
    apply IH; [by eapply owns_snoc|]. rewrite length_app. simpl. lia.
  - apply wp_bind. eapply wp_destruct_value; [by apply Hs|done|done|]. intros c' Hok' Habs _.
    apply IH; [by eapply owns_delete|]. rewrite length_delete by by eexists. lia.
  - rewrite Hu. apply wp_bind. eapply wp_read_value; [by apply Hs|done|]. intros e t He Ht ->.
    apply wp_bind. unfold get_element. apply wp_bind, wp_gets. eapply wp_of_option; [done|].
    apply wp_bind. eapply wp_mono; [by apply IH|]. intros l c' (-> & Hrest). by apply wp_ret.
  - apply wp_bind. eapply wp_unique_value; [by apply Hs|done|done|].
    intros e t c1 Hok1 Hex Ht _ Habs1 _ _ _ _ _. apply wp_bind.
    eapply wp_mutate_value; [done..|]. apply wp_modify. split_and!; [done|done|].
    intros c2 Hok2 Habs2 _ _. apply IH; [|lia]. eapply owns_insert; [done|done|done|].
    by rewrite Habs2, Habs1, insert_insert_eq.
Qed.

(** With no instance left nothing is left. *)
Lemma owns_nothing c : owns c [] [] → blocks c = ∅ ∧ elems c = ∅.
Proof.
  intros [Hok _ Hall _]. apply cow_ok_no_leak; [done|]. intros x v Hx.
  assert (x ∈ dom (abs c)) as Hd by (apply elem_of_dom; by eexists). apply Hall in Hd. by apply not_elem_of_nil in Hd.
Qed.

(** C19: A thread cannot tell that it shares.  Let threads that share an element run
    in any interleaving of their atomic accesses until all have come to their
    end.  Then each of them has read, in order, exactly what the methods of the
    class, run one after the other by a program with nothing but instances of
    that value of its own, read for the same operations; that program runs
    without a fault, is left with the values the thread's instances are left
    with, and with nothing allocated if it destroyed all of them. *)
Theorem thread_reads_serially p v threads P' s' t k ops names c :
  1 ≤ CowThreads.owners threads → CowThreads.owners threads + CowThreads.made threads < 2 ^ 32 →
  rtc step (CowThreads.start p threads, CowThreads.shared_block p v (CowThreads.owners threads)) (P', s') →
  finished P' → threads !! t = Some (k, ops) →
  owns c names (replicate k v) → Z.of_nat k + zsum CowThreads.makes ops + 1 < 2 ^ 32 →
  wp (serial ops names) (λ l c', l = CowThreads.seen_by t s' ∧
    ∃ names', owns c' names' (CowThreads.local ops (replicate k v)).2 ∧
      (names' = [] → blocks c' = ∅ ∧ elems c' = ∅)) c.
Proof.
  intros H1 HN Hsteps Hf Ht Hs Hroom.
  destruct (CowThreads.cow_inv_reached p v threads P' s' H1 HN Hsteps) as (phs & -> & Hlen & Hinv).
  rewrite (CowThreads.finished_seen _ _ _ _ _ Hinv Hlen Hf t k ops Ht).
  assert (length names = k) as Hk.
  { pose proof (f_equal length (owns_values _ _ _ Hs)) as Hk. by rewrite !length_fmap, length_replicate in Hk. }
  eapply wp_mono; [apply serial_local; [done|by rewrite Hk]|]. intros l c' [-> [names' Hs']].
  split; [done|]. exists names'. split; [done|]. intros ->. apply owns_nothing.
  pose proof (owns_values _ _ _ Hs') as Hv. by destruct (CowThreads.local ops (replicate k v)).2.
Qed.

(** ** A program *)

Definition demo_ops : list thread_op :=
  [CowThreads.OWrite 0 5; CowThreads.ORead 1; CowThreads.OCopy 0; CowThreads.ORead 2; CowThreads.ODrop 0;
   CowThreads.ODrop 0; CowThreads.ODrop 0].
Definition demo_threads : list (nat * list thread_op) :=
  [(2%nat, demo_ops); (1%nat, [CowThreads.ORead 0; CowThreads.ODrop 0])].
Definition demo_order : list nat := [0; 1; 0; 0; 0; 0; 1; 0; 0; 0; 0; 0; 0; 0; 0; 0]%nat.
Definition demo_end : CowThreads.memory :=
  {| CowThreads.counts := ∅; CowThreads.elements := ∅; CowThreads.seen := [(1%nat, 7); (0%nat, 7); (0%nat, 5)] |}.

Lemma demo_steps : rtc step
  (CowThreads.start 1 demo_threads, CowThreads.shared_block 1 7 (CowThreads.owners demo_threads)) ([Ret; Ret], demo_end).
Proof. apply (schedule_sound demo_order). vm_compute. reflexivity. Qed.

(** The same operations on a store of two instances that share one element. *)
Example demo_serial :
  match serial demo_ops [1; 2]%positive shared_store with
  | Done l c => Some (l, blocks c, elems c)
  | Stop _ _ => None
  end = Some ([7; 5], ∅, ∅).
Proof. vm_compute. reflexivity. Qed.

Lemma demo_owns : owns shared_store [1; 2]%positive (replicate 2 7).
Proof.
  split; [exact shared_store_ok| | |vm_compute; reflexivity].
  - apply NoDup_cons. split; [|apply NoDup_singleton]. by intros ?%list_elem_of_singleton.
  - intros x. assert (dom (abs shared_store) = {[1; 2]}%positive) as -> by (vm_compute; reflexivity). set_solver.
Qed.

Lemma thread_reads_serially_witness :
  wp (serial demo_ops [1; 2]%positive) (λ l c', l = CowThreads.seen_by 0 demo_end ∧
    ∃ names', owns c' names' (CowThreads.local demo_ops (replicate 2 7)).2 ∧
      (names' = [] → blocks c' = ∅ ∧ elems c' = ∅)) shared_store.
Proof.
  apply (thread_reads_serially 1 7 demo_threads [Ret; Ret] demo_end 0 2 demo_ops [1; 2]%positive shared_store).
  - vm_compute. discriminate.
  - vm_compute. reflexivity.
  - exact demo_steps.
  - repeat constructor.
  - reflexivity.
  - exact demo_owns.
  - vm_compute. reflexivity.
Defined.

End CowSerial.
