(* ===== verification/CowOrder.v ===== *)
(** * CowOrder: which accesses to an element are ordered

    The counter of a block is accessed with the memory orders the source gives:
    a copy adds with [memory_order_relaxed], a release subtracts with
    [memory_order_acq_rel], and [retainCount], which [unique] asks, loads with
    [memory_order_relaxed].  The element itself is not atomic, so two accesses
    to it by different threads, one of them a write or a deletion, must be
    ordered by happens-before.  This memory does what the plain one does and
    keeps vector clocks, the usual account of happens-before: a thread's clock
    counts the accesses of every thread it is ordered after.  The code of the
    methods is the one of [CowThreads]. *)

From stdpp Require Import sets fin_map_dom.
From S2P Require Import Prelude Concur CowThreads.

Module CowOrder.
Import Concur CowThreads.

(** A clock: how many accesses of each thread come before. *)
Notation vclock := (gmap nat nat).

Definition at_ (c : vclock) (t : nat) : nat := default 0%nat (c !! t).
Definition join (c d : vclock) : vclock := union_with (λ x y, Some (x `max` y)%nat) c d.
Definition tick (t : nat) (c : vclock) : vclock := <[t:=S (at_ c t)]> c.

(** An access that was made: by which thread, and the how-manyth of it. *)
Notation epoch := (nat * nat)%type.

(** Whether an access comes before everything a thread with this clock does. *)
Definition before (c : vclock) (e : epoch) : bool := (e.2 <=? at_ c e.1)%nat.

(** The clocks of the threads; of each block the clock its counter carries, the
    accesses to the counter, and the reads and the writes of the element; and
    whether two accesses have been found that conflict and are not ordered. *)
Record ordered := {
  mem : memory;
  clocks : gmap nat vclock;
  carried : gmap positive vclock;
  counted : gmap positive (list epoch);
  reads : gmap positive (list epoch);
  writes : gmap positive (list epoch);
  racy : bool;
}.

Definition clock_of (s : ordered) (t : nat) : vclock := default ∅ (clocks s !! t).
Definition carried_by (s : ordered) (p : positive) : vclock := default ∅ (carried s !! p).
Definition counted_at (s : ordered) (p : positive) : list epoch := default [] (counted s !! p).
Definition reads_of (s : ordered) (p : positive) : list epoch := default [] (reads s !! p).
Definition writes_of (s : ordered) (p : positive) : list epoch := default [] (writes s !! p).

Definition with_mem (m : memory) (s : ordered) : ordered :=
  {| mem := m; clocks := clocks s; carried := carried s; counted := counted s;
     reads := reads s; writes := writes s; racy := racy s |}.
Definition with_clock (t : nat) (c : vclock) (s : ordered) : ordered :=
  {| mem := mem s; clocks := <[t:=c]> (clocks s); carried := carried s; counted := counted s;
     reads := reads s; writes := writes s; racy := racy s |}.
Definition carry (p : positive) (c : vclock) (s : ordered) : ordered :=
  {| mem := mem s; clocks := clocks s; carried := <[p:=c]> (carried s); counted := counted s;
     reads := reads s; writes := writes s; racy := racy s |}.
Definition note_count (p : positive) (l : list epoch) (s : ordered) : ordered :=
  {| mem := mem s; clocks := clocks s; carried := carried s; counted := <[p:=l]> (counted s);
     reads := reads s; writes := writes s; racy := racy s |}.
Definition note_reads (p : positive) (l : list epoch) (s : ordered) : ordered :=
  {| mem := mem s; clocks := clocks s; carried := carried s; counted := counted s;
     reads := <[p:=l]> (reads s); writes := writes s; racy := racy s |}.
Definition note_writes (p : positive) (l : list epoch) (s : ordered) : ordered :=
  {| mem := mem s; clocks := clocks s; carried := carried s; counted := counted s;
     reads := reads s; writes := <[p:=l]> (writes s); racy := racy s |}.

(** The thread must be ordered after these accesses. *)
Definition require (t : nat) (l : list epoch) (s : ordered) : ordered :=
  {| mem := mem s; clocks := clocks s; carried := carried s; counted := counted s;
     reads := reads s; writes := writes s;
     racy := racy s || negb (forallb (before (clock_of s t)) l) |}.

(** The epoch of the access a thread is making. *)
Definition now (s : ordered) (t : nat) : epoch := (t, at_ (clock_of s t) t).

(** What an access means for the order, by its memory order; [r] is its answer.
    A subtraction acquires what the counter carries and releases the thread's
    clock to it; a relaxed addition or load does neither, and the addition lets
    the counter carry on what it carried. *)
Definition order (t : nat) (a : access) (r : answer) (s : ordered) : ordered :=
  let s := with_clock t (tick t (clock_of s t)) s in
  match a with
  | fetch_add p | load p => note_count p (now s t :: counted_at s p) s
  | fetch_sub p =>
      let c := join (clock_of s t) (carried_by s p) in
      note_count p (now s t :: counted_at s p) (carry p c (with_clock t c s))
  | read_element p => note_reads p (now s t :: reads_of s p) (require t (writes_of s p) s)
  | write_element p _ =>
      note_writes p (now s t :: writes_of s p) (require t (reads_of s p ++ writes_of s p) s)
  | delete_element p => require t (reads_of s p ++ writes_of s p) s
  | delete_block p => require t (counted_at s p) s
  | new_copy p =>
      let s := note_reads p (now s t :: reads_of s p) (require t (writes_of s p) s) in
      match r with
      | APtr q => carry q ∅ (note_count q [] (note_reads q [] (note_writes q [now s t] s)))
      | AInt _ => s
      end
  | nothing => s
  end.

#[export] Instance ordered_memory : Memory ordered := λ t a s,
  '(r, m) ← plain_memory t a (mem s); Some (r, order t a r (with_mem m s)).

Lemma order_mem t a r s : mem (order t a r s) = mem s.
Proof. destruct a; try done. by destruct r. Qed.

#[export] Instance ordered_over : Over ordered.
Proof.
  refine {| plain := mem |}. intros t a s r s' H.
  apply bind_Some in H as ([r' m] & Hm & [= <- <-]). by rewrite order_mem.
Defined.

(** The block the threads share was made before they started. *)
Definition ordered_start (m : memory) : ordered :=
  {| mem := m; clocks := ∅; carried := ∅; counted := ∅; reads := ∅; writes := ∅; racy := false |}.

(** ** A race *)

(** One thread reads the shared element and gives it up; the other asks for the
    element to write to it, finds that nobody shares it any more, and writes. *)
Definition racing : list (nat * list op) := [(1%nat, [OWrite 0 5]); (1%nat, [ORead 0; ODrop 0])].
Definition race_order : list nat := [1; 1; 0; 0]%nat.

(** C23: [unique] may hand out an element for writing that another thread has
    read, without the read being ordered before the write: the count it relies
    on is loaded with [memory_order_relaxed], which does not acquire what the
    other thread's release published, so that the two accesses are a data race. *)
Theorem unique_races :
  ∃ P' s', rtc step (start 1 racing, ordered_start (shared_block 1 7 (owners racing))) (P', s') ∧
    racy s' = true.
Proof.
  destruct (schedule race_order (start 1 racing, ordered_start (shared_block 1 7 (owners racing))))
    as [[P' s']|] eqn:Hs; [|by vm_compute in Hs].
  exists P', s'. split; [by eapply schedule_sound|].
  assert ((λ x, racy x.2) <$> schedule race_order
    (start 1 racing, ordered_start (shared_block 1 7 (owners racing))) = Some true) as Hr
    by (vm_compute; reflexivity).
  rewrite Hs in Hr. by injection Hr.
Qed.

(** ** Threads that do not write *)

Lemma at_join c d t : at_ (join c d) t = (at_ c t `max` at_ d t)%nat.
Proof.
  unfold at_, join. rewrite lookup_union_with.
  destruct (c !! t), (d !! t); simpl; lia.
Qed.

Lemma at_tick t c t' : at_ (tick t c) t' = if decide (t = t') then S (at_ c t) else at_ c t'.
Proof. unfold tick, at_ at 1. case_decide; subst; [by rewrite lookup_insert_eq|by rewrite lookup_insert_ne]. Qed.

(** The accesses to a block that a thread which deletes it must be ordered after. *)
Definition accesses_of (s : ordered) (p : positive) : list epoch := counted_at s p ++ reads_of s p.

Definition is_write (o : op) : bool := if o is OWrite _ _ then true else false.
Definition read_only (ph : phase) : Prop :=
  Forall (λ o, is_write o = false) (todo ph) ∧
  match at_stage ph with
  | SNext | SDeleteElement _ None | SDeleteBlock _ None => True
  | _ => False
  end.

(** Nobody has raced, every access to a block is the past of its thread, and is
    covered: its thread still refers to the block, or has released it and the
    counter carries the access; who deletes a block has acquired all of that. *)
Record order_inv (phs : list phase) (s : ordered) : Prop := {
  or_read_only i ph : phs !! i = Some ph → read_only ph;
  or_racy : racy s = false;
  or_writes p : writes_of s p = [];
  or_past p e : e ∈ accesses_of s p → (e.2 ≤ at_ (clock_of s e.1) e.1)%nat;
  or_covered p e : e ∈ accesses_of s p →
    (∃ ph, phs !! e.1 = Some ph ∧ 1 ≤ refs p ph) ∨ (e.2 ≤ at_ (carried_by s p) e.1)%nat;
  or_deleter i ph p : phs !! i = Some ph → dels p ph = 1 →
    ∀ t, (at_ (carried_by s p) t ≤ at_ (clock_of s i) t)%nat;
}.

(** What a step of thread [i] has to keep. *)
Record order_step (i : nat) (ph ph' : phase) (s s' : ordered) : Prop := {
  os_read_only : read_only ph';
  os_racy : racy s' = false;
  os_writes p : writes_of s' p = [];
  os_clocks t t' : (at_ (clock_of s t) t' ≤ at_ (clock_of s' t) t')%nat;
  os_carried p t : (at_ (carried_by s p) t ≤ at_ (carried_by s' p) t)%nat;
  os_accesses p e : e ∈ accesses_of s' p →
    e ∈ accesses_of s p ∨
    (e.1 = i ∧ (e.2 ≤ at_ (clock_of s' i) i)%nat ∧
     (1 ≤ refs p ph' ∨ (e.2 ≤ at_ (carried_by s' p) i)%nat));
  os_lost p : 1 ≤ refs p ph →
    1 ≤ refs p ph' ∨ (at_ (clock_of s i) i ≤ at_ (carried_by s' p) i)%nat;
  os_deleter p : dels p ph' = 1 → ∀ t, (at_ (carried_by s' p) t ≤ at_ (clock_of s' i) t)%nat;
  os_same p : carried_by s' p = carried_by s p ∨ 1 ≤ refs p ph;
}.

(** Nobody refers to a block that a thread is deleting. *)
Lemma deleted_unreferenced N total phs m i j ph phj p :
  cow_inv N total phs m → phs !! i = Some ph → phs !! j = Some phj →
  1 ≤ refs p ph → dels p phj = 1 → False.
Proof.
  intros Hcow Hi Hj Hr Hd. pose proof (mo_counts _ _ _ _ (cv_memory _ _ _ _ Hcow) p) as Hm. simpl in Hm.
  pose proof (cow_sums _ _ _ _ i ph p Hcow Hi). pose proof (cow_sums _ _ _ _ j phj p Hcow Hj).
  destruct (counts m !! p); [destruct Hm as [-> Hm]; case_decide|]; lia.
Qed.

(** Every access to a block comes before what its deleter does next. *)
Lemma deleter_after N total phs s i ph p e :
  cow_inv N total phs (mem s) → order_inv phs s → phs !! i = Some ph → dels p ph = 1 →
  e ∈ accesses_of s p → (e.2 ≤ at_ (clock_of s i) e.1)%nat.
Proof.
  intros Hcow Hinv Hi Hd He. destruct (or_covered _ _ Hinv p e He) as [(phe & Hphe & Hr)|Hc].
  - exfalso. by eapply (deleted_unreferenced N total phs (mem s) e.1 i).
  - pose proof (or_deleter _ _ Hinv i ph p Hi Hd e.1). lia.
Qed.

Lemma order_inv_step N total phs s i ph ph' s' :
  phs !! i = Some ph → cow_inv N total phs (mem s) → order_inv phs s → order_step i ph ph' s s' →
  order_inv (<[i:=ph']> phs) s'.
Proof.
  intros Hi Hcow [Hro _ _ Hpast Hcov Hdel] [Sro Srac Swr Scl Sca Sacc Slost Sdel Ssame].
  assert (i < length phs)%nat as Hlt by (by eapply lookup_lt_Some).
  split; try done.
  - intros j phj Hj. destruct (decide (i = j)) as [<-|Hij].
    + rewrite list_lookup_insert_eq in Hj by done. by injection Hj as <-.
    + rewrite list_lookup_insert_ne in Hj by done. by eapply Hro.
  - intros p e [He|(-> & He & _)]%Sacc; [|done].
    specialize (Hpast p e He). specialize (Scl e.1 e.1). lia.
  - intros p e [He|(He1 & _ & He)]%Sacc.
    + destruct (Hcov p e He) as [(phe & Hphe & Hr)|Hc].
      * destruct (decide (i = e.1)) as [Hie|Hie].
        -- rewrite <-Hie, Hi in Hphe. injection Hphe as <-. destruct (Slost p Hr) as [Hr'|Hc].
           ++ left. exists ph'. split; [|done]. rewrite <-Hie. by apply list_lookup_insert_eq.
           ++ right. specialize (Hpast p e He). rewrite <-Hie in *. lia.
        -- left. exists phe. by rewrite list_lookup_insert_ne.
      * right. specialize (Sca p e.1). lia.
    + rewrite He1. destruct He as [Hr|Hc]; [left|by right].
      exists ph'. by rewrite list_lookup_insert_eq.
  - intros j phj p Hj Hd t. destruct (decide (i = j)) as [<-|Hij].
    + rewrite list_lookup_insert_eq in Hj by done. injection Hj as <-. by apply Sdel.
    + rewrite list_lookup_insert_ne in Hj by done. destruct (Ssame p) as [->|Hr].
      * specialize (Hdel j phj p Hj Hd t). specialize (Scl j t). lia.
      * by edestruct (deleted_unreferenced N total phs (mem s) i j).
Qed.
(** *** What an access changes *)

Lemma clock_with_clock t c s t' :
  clock_of (with_clock t c s) t' = if decide (t = t') then c else clock_of s t'.
Proof. unfold clock_of; simpl. case_decide; subst; [by rewrite lookup_insert_eq|by rewrite lookup_insert_ne]. Qed.

Lemma carried_carry p c s q :
  carried_by (carry p c s) q = if decide (p = q) then c else carried_by s q.
Proof. unfold carried_by; simpl. case_decide; subst; [by rewrite lookup_insert_eq|by rewrite lookup_insert_ne]. Qed.

Lemma counted_note_count p l s q :
  counted_at (note_count p l s) q = if decide (p = q) then l else counted_at s q.
Proof. unfold counted_at; simpl. case_decide; subst; [by rewrite lookup_insert_eq|by rewrite lookup_insert_ne]. Qed.

Lemma reads_note_reads p l s q :
  reads_of (note_reads p l s) q = if decide (p = q) then l else reads_of s q.
Proof. unfold reads_of; simpl. case_decide; subst; [by rewrite lookup_insert_eq|by rewrite lookup_insert_ne]. Qed.

Lemma accesses_note_count p e l s q x :
  x ∈ accesses_of (note_count p (e :: l) s) q → l = counted_at s p → x ∈ accesses_of s q ∨ (x = e ∧ p = q).
Proof.
  intros Hx ->. revert Hx. unfold accesses_of. rewrite counted_note_count.
  change (reads_of (note_count _ _ s) q) with (reads_of s q). case_decide; subst; set_solver.
Qed.

Lemma accesses_note_reads p e l s q x :
  x ∈ accesses_of (note_reads p (e :: l) s) q → l = reads_of s p → x ∈ accesses_of s q ∨ (x = e ∧ p = q).
Proof.
  intros Hx ->. revert Hx. unfold accesses_of. rewrite reads_note_reads.
  change (counted_at (note_reads _ _ s) q) with (counted_at s q). case_decide; subst; set_solver.
Qed.

(** The accesses of a thread that is ordered after all of these are no race. *)
Lemma require_before t l s :
  (∀ e, e ∈ l → (e.2 ≤ at_ (clock_of s t) e.1)%nat) → racy (require t l s) = racy s.
Proof.
  intros H. simpl. rewrite (proj2 (forallb_forall _ _)); [apply orb_false_r|].
  intros e He. apply Nat.leb_le, H. by apply list_elem_of_In.
Qed.

Lemma clock_le_tick t c t' : (at_ c t' ≤ at_ (tick t c) t')%nat.
Proof. rewrite at_tick. case_decide; subst; lia. Qed.
(** The state in which the access of thread [t] is noted. *)
Definition ticked (t : nat) (s : ordered) : ordered := with_clock t (tick t (clock_of s t)) s.

Lemma ticked_le i s t t' : (at_ (clock_of s t) t' ≤ at_ (clock_of (ticked i s) t) t')%nat.
Proof. unfold ticked. rewrite clock_with_clock. case_decide; subst; [apply clock_le_tick|done]. Qed.

(** A step that publishes nothing through a counter. *)
Lemma quiet_step phs i ph ph' s s' :
  order_inv phs s → phs !! i = Some ph → read_only ph' →
  racy s' = false → (∀ p, writes_of s' p = writes_of s p) →
  (∀ t, clock_of s' t = clock_of (ticked i s) t) → (∀ p, carried_by s' p = carried_by s p) →
  (∀ p, refs p ph ≤ refs p ph') → (∀ p, dels p ph' = 1 → dels p ph = 1) →
  (∀ p e, e ∈ accesses_of s' p →
    e ∈ accesses_of s p ∨ (e = now (ticked i s) i ∧ 1 ≤ refs p ph')) →
  order_step i ph ph' s s'.
Proof.
  intros Hinv Hi Hro Hrac Hwr Hcl Hca Href Hdel Hacc. split; try done.
  - intros p. rewrite Hwr. apply (or_writes _ _ Hinv).
  - intros t t'. rewrite Hcl. apply ticked_le.
  - intros p t. by rewrite Hca.
  - intros p e [He|[-> Hr]]%Hacc; [by left|right]. simpl. rewrite Hcl. split_and!; [done|lia|by left].
  - intros p Hr. left. specialize (Href p). lia.
  - intros p Hd t. rewrite Hca, Hcl. etransitivity; [|apply ticked_le].
    by apply (or_deleter _ _ Hinv i ph p Hi (Hdel p Hd)).
  - intros p. by left.
Qed.

(** The subtraction acquires what the counter carries and publishes the thread's clock. *)
Lemma release_step phs i t ops l vs s m j p c :
  order_inv phs s → l !! j = Some p →
  phs !! i = Some {| tid := t; at_stage := SNext; todo := ODrop j :: ops; inst := l; vals := vs |} →
  order_step i {| tid := t; at_stage := SNext; todo := ODrop j :: ops; inst := l; vals := vs |}
    {| tid := t; at_stage := after_release p c None; todo := ops; inst := delete j l; vals := delete j vs |}
    s (order i (fetch_sub p) (AInt c) (with_mem m s)).
Proof.
  intros Hinv Hj Hi. destruct (or_read_only _ _ Hinv _ _ Hi) as [Hro _].
  set (s' := order _ _ _ _). set (c' := join (clock_of (ticked i s) i) (carried_by s p)).
  pose proof (occ_lookup p _ _ _ Hj) as Hocc. rewrite one_eq in Hocc.
  assert (∀ u, clock_of s' u = if decide (i = u) then c' else clock_of (ticked i s) u) as Hcl
    by exact (clock_with_clock i c' (ticked i s)).
  assert (∀ r, carried_by s' r = if decide (p = r) then c' else carried_by s r) as Hca
    by exact (carried_carry p c' (with_clock i c' (ticked i s))).
  split.
  - split; [by inversion Hro|]. simpl. unfold after_release. by destruct (c =? 1).
  - apply (or_racy _ _ Hinv).
  - apply (or_writes _ _ Hinv).
  - intros u u'. rewrite Hcl. pose proof (ticked_le i s u u'). case_decide; subst; [unfold c'; rewrite at_join|]; lia.
  - intros r u. rewrite Hca. case_decide; subst; [unfold c'; rewrite at_join|]; lia.
  - intros r e [He|[-> <-]]%accesses_note_count; [by left|right|reflexivity]. simpl. split; [done|].
    assert (at_ (clock_of (ticked i s) i) i ≤ at_ c' i)%nat as Hle by (unfold c'; rewrite at_join; lia).
    rewrite Hcl, Hca, !decide_True by done. by auto.
  - intros r Hr. destruct (decide (p = r)) as [<-|Hpr].
    + right. unfold c' in Hca. rewrite Hca, decide_True, at_join by done. pose proof (ticked_le i s i i). lia.
    + left. rewrite after_release_refs, (occ_delete _ _ _ _ Hj), one_ne by done.
      unfold refs in Hr; simpl in Hr. lia.
  - intros r Hd u. rewrite after_release_dels in Hd. destruct (c =? 1); [|done].
    assert (p = r) as <- by (destruct (decide (p = r)); [done|by rewrite one_ne in Hd]).
    by rewrite Hcl, Hca, !decide_True.
  - intros r. rewrite Hca. case_decide; subst; [right|by left]. unfold refs; simpl. lia.
Qed.

(** The steps of a thread that does not write keep the order. *)
Lemma order_step_of N total phs s i ph ph' a r m :
  cow_inv N total phs (mem s) → order_inv phs s → phs !! i = Some ph →
  pstep ph (mem s) ph' m → next_access ph = Some a → plain_memory i a (mem s) = Some (r, m) →
  order_step i ph ph' s (order i a r (with_mem m s)).
Proof.
  intros Hcow Hinv Hi Hstep Ha Hm.
  assert (∀ p, dels p ph = 1 → ∀ l, (∀ e, e ∈ l → e ∈ accesses_of s p) →
    racy (require i l (ticked i s)) = false) as Hrequire.
  { intros p Hd l Hl. rewrite require_before; [apply (or_racy _ _ Hinv)|].
    intros e He. etransitivity; [|apply ticked_le]. by eapply deleter_after, Hl. }
  destruct (or_read_only _ _ Hinv i ph Hi) as [Hro Hst].
  pose proof (or_racy _ _ Hinv) as Hrac. pose proof (or_writes _ _ Hinv) as Hwr.
  unfold next_access in Ha. remember (mem s) as m0 eqn:Hm0.
  destruct Hstep as [t o ops l vs m0 Hj|t j ops l vs m0 p c v Hj Hc Hv|t j ops l vs m0 p c Hj Hc|t j ops l vs m0 p v Hj Hv
    |t j v ops l vs m0 p c Hj Hc H1|t j v ops l vs m0 p c Hj Hc H1|t j p v ops l vs m0 x Hx|t j p q v ops l vs m0 c Hc
    |t p next ops l vs m0 x Hx|t p next ops l vs m0 c Hc|t j q v ops l vs m0 x Hx]; simpl in Ha, Hro, Hst;
    try done; try (rewrite Hj in Ha); injection Ha as <-; try (by inversion Hro);
    try (destruct next as [?|]; [done|]).
  - eapply (quiet_step phs); try done; [by split; [inversion Hro|]|]. by left.
  - eapply (quiet_step phs); try done; [by split; [inversion Hro|]|..].
    + intros q. unfold refs; simpl. rewrite occ_snoc. pose proof (one_range p q). lia.
    + intros q e [He|[-> <-]]%accesses_note_count; [by left| |reflexivity]. right. split; [reflexivity|].
      apply elem_refs; simpl. set_solver.
  - simpl in Hm. unfold do_fetch_sub in Hm. rewrite Hc in Hm. injection Hm as <-. by eapply release_step.
  - eapply (quiet_step phs); try done; [by split; [inversion Hro|]|..].
    + assert (racy (require i (writes_of s p) (ticked i s)) = false) as Hr; [|apply Hr].
      rewrite Hwr. simpl. by rewrite Hrac.
    + intros q e [He|[-> <-]]%accesses_note_reads; [by left| |reflexivity]. right. split; [reflexivity|].
      apply elem_refs; simpl. by eapply list_elem_of_lookup_2.
  - eapply (quiet_step phs); try done; [|by left]. apply (Hrequire p); [unfold dels; simpl; apply one_eq|].
    intros e [He|He]%elem_of_app; [by apply elem_of_app; right|].
    change (e ∈ writes_of s p) in He. rewrite Hwr in He. by inversion He.
  - eapply (quiet_step phs); try done; [|by left]. apply (Hrequire p); [unfold dels; simpl; apply one_eq|].
    intros e He. by apply elem_of_app; left.
Qed.
(** A step of a thread on this memory. *)
Definition ordered_step (ph : phase) (s : ordered) (ph' : phase) (s' : ordered) : Prop :=
  ∃ a r m, pstep ph (mem s) ph' m ∧ next_access ph = Some a ∧
    plain_memory (tid ph) a (mem s) = Some (r, m) ∧ s' = order (tid ph) a r (with_mem m s).

Lemma ordered_step_complete ph m k r (s s' : ordered) :
  code_of ph = Act m k → m s = Some (r, s') → ∃ ph', k r = code_of ph' ∧ ordered_step ph s ph' s'.
Proof.
  intros Hc Hm. destruct (step_cases ph m k r s s' Hc Hm) as (ph' & a & Hk & Hstep & -> & Ha).
  exists ph'. split; [done|]. apply bind_Some in Hm as ([r1 m1] & Hm & [= <- <-]).
  exists a, r1, m1. split_and!; try done. by rewrite order_mem in Hstep.
Qed.

Lemma order_inv_start p v threads n :
  Forall (λ x, Forall (λ o, is_write o = false) x.2) threads →
  order_inv (start_phases p v threads) (ordered_start (shared_block p v n)).
Proof.
  intros Hro. assert (∀ q, accesses_of (ordered_start (shared_block p v n)) q = []) as Hnone by done.
  assert (∀ i ph, start_phases p v threads !! i = Some ph → at_stage ph = SNext ∧
    Forall (λ o, is_write o = false) (todo ph)) as Hph.
  { intros i ph Hi. unfold start_phases in Hi. rewrite list_lookup_imap in Hi.
    destruct (threads !! i) as [x|] eqn:Hx; [|done]. injection Hi as <-.
    split; [done|]. by eapply (Forall_lookup_1 _ _ _ _ Hro). }
  split; try done.
  - intros i ph [Hst Htd]%Hph. split; [done|]. by rewrite Hst.
  - intros q e He. rewrite Hnone in He. by inversion He.
  - intros q e He. rewrite Hnone in He. by inversion He.
Qed.

(** C22: threads that copy, read and destroy instances of one element, but do not
    write through them, make no two accesses that conflict without being
    ordered: the reads, and the deletion of the element and of the block by
    whichever thread gives up the last reference, come after everything they
    have to.  The acquire-release subtraction is enough for that; the relaxed
    addition needs no order. *)
Theorem read_only_never_races p v threads P' s' :
  1 ≤ owners threads → owners threads + made threads < 2 ^ 32 →
  Forall (λ x, Forall (λ o, is_write o = false) x.2) threads →
  rtc step (start p threads, ordered_start (shared_block p v (owners threads))) (P', s') →
  racy s' = false.
Proof.
  intros H1 HN Hro Hsteps. rewrite (start_code p v) in Hsteps.
  eapply (phases_invariant code_of ordered_step ordered_step_complete
    (λ phs s, cow_inv (owners threads + made threads) (start_total v threads) phs (mem s) ∧ order_inv phs s))
    in Hsteps as (phs & -> & _ & Hinv).
  - apply (or_racy _ _ Hinv).
  - intros phs s i ph ph' s2 Hi (a & r & m & Hstep & Ha & Hm & ->) [Hcow Hord].
    destruct (cv_seen _ _ _ _ Hcow i ph Hi) as [Ht _]. rewrite Ht in Hm |- *. rewrite order_mem. split.
    + by eapply cow_inv_step.
    + eapply order_inv_step; [done|done|done|]. by eapply order_step_of.
  - split; [by apply cow_inv_start|by apply order_inv_start].
Qed.

Definition readers : list (nat * list op) :=
  [(1%nat, [ORead 0; ODrop 0]); (1%nat, [OCopy 0; ODrop 0; ORead 0; ODrop 0])].
Definition reader_order : list nat := [0; 1; 1; 0; 1; 1; 1; 1]%nat.

Lemma read_only_never_races_witness :
  (λ x, racy x.2) <$> schedule reader_order
    (start 1 readers, ordered_start (shared_block 1 7 (owners readers))) = Some false ∧
  ∀ P' s', rtc step (start 1 readers, ordered_start (shared_block 1 7 (owners readers))) (P', s') →
    racy s' = false.
Proof.
  split; [vm_compute; reflexivity|]. intros P' s'.
  exact (read_only_never_races 1 7 readers P' s' ltac:(vm_compute; discriminate)
    ltac:(vm_compute; reflexivity) ltac:(repeat constructor)).
Defined.
End CowOrder.
