(* ===== verification/Machine.v ===== *)
(** * Machine: the registers of a thread

    Models [machine/MachineContext.c].  The file is compiled for one of four
    architectures and one of several destinations; both are arguments here, so
    that every branch of the conditional compilation is a definition, the
    destination macros of [Definitions.h] included.  The Mach
    kernel, which hands out the registers of a thread, is a parameter. *)

From S2P Require Import Prelude.

Module Machine.

Inductive arch := arm | arm64 | i386 | x86_64.

(** The fields of a register state the file names; the rest of it, and the
    exception state, are kept as the kernel wrote them. *)
Inductive field :=
| __r (i : nat) | __fp | __sp | __lr | __pc | __ebp | __esp | __eip | __rbp | __rsp | __rip
| other (i : nat).

#[export] Instance field_eq_dec : EqDecision field.
Proof. solve_decision. Defined.

(** [_STRUCT_MCONTEXT] *)
Record mcontext := {
  __ss : field → Z;
  __es : field → Z;
}.

(** [struct NPMachineContext] *)
Record NPMachineContext := { data : mcontext }.

(** Which part of the context a call fills. *)
Inductive part := ss | es.

(** The state flavor and the count the kernel is asked for. *)
Inductive flavor := THREAD_STATE (a : arch) | EXCEPTION_STATE (a : arch).

(** [pthread_mach_thread_np], none for [MACH_PORT_NULL], and [thread_get_state],
    which writes the registers of that flavor or fails and leaves the buffer. *)
Class Mach := {
  pthread_mach_thread_np : positive → option positive;
  thread_get_state : positive → flavor → option (field → Z);
}.

(** ** Destinations *)

(** What [TargetConditionals.h] defines for a build, with whether there is such
    a header at all ([__APPLE__]). *)
Record target := {
  NP_PLATFORM_APPLE : bool;
  TARGET_OS_MAC : bool;
  TARGET_OS_IOS : bool;
  TARGET_OS_TV : bool;
  TARGET_OS_WATCH : bool;
  TARGET_OS_VISION : bool;
}.

Section destinations.
Variable t : target.

Definition NP_DESTINATION_XROS : bool := TARGET_OS_VISION t.
Definition NP_DESTINATION_IOS : bool := NP_PLATFORM_APPLE t && TARGET_OS_IOS t.
Definition NP_DESTINATION_TVOS : bool := NP_PLATFORM_APPLE t && TARGET_OS_TV t.
Definition NP_DESTINATION_WATCHOS : bool := NP_PLATFORM_APPLE t && TARGET_OS_WATCH t.
Definition NP_DESTINATION_MACOS : bool :=
  NP_PLATFORM_APPLE t && TARGET_OS_MAC t &&
  negb (TARGET_OS_IOS t || TARGET_OS_TV t || TARGET_OS_WATCH t || NP_DESTINATION_XROS).

Definition NP_HAS_UIKIT : bool :=
  NP_DESTINATION_IOS || NP_DESTINATION_TVOS || NP_DESTINATION_WATCHOS || NP_DESTINATION_XROS.

(** Whether [setState] asks the kernel or is the stub. *)
Definition available : bool :=
  NP_DESTINATION_IOS || NP_DESTINATION_TVOS || NP_DESTINATION_MACOS || NP_DESTINATION_XROS.
End destinations.

(** The flags as Apple's SDKs set them: [TARGET_OS_MAC] for every platform of
    theirs, one more for each that is not macOS, and none elsewhere. *)
Definition sdk (t : target) : Prop :=
  NP_PLATFORM_APPLE t = TARGET_OS_MAC t ∧
  (NP_PLATFORM_APPLE t = false →
    TARGET_OS_IOS t = false ∧ TARGET_OS_TV t = false ∧ TARGET_OS_WATCH t = false ∧ TARGET_OS_VISION t = false) ∧
  (length (filter (λ b, b = true) [TARGET_OS_IOS t; TARGET_OS_TV t; TARGET_OS_WATCH t; TARGET_OS_VISION t]) ≤ 1)%nat.

(** On Apple's platforms exactly one destination is chosen, elsewhere none;
    UIKit is there on all of them but macOS; and the registers of a thread can
    be asked for on all of them but watchOS. *)
Theorem destination_correct t :
  sdk t →
  length (filter (λ b, b = true) [NP_DESTINATION_XROS t; NP_DESTINATION_IOS t; NP_DESTINATION_TVOS t;
    NP_DESTINATION_WATCHOS t; NP_DESTINATION_MACOS t]) = (if NP_PLATFORM_APPLE t then 1 else 0)%nat ∧
  NP_HAS_UIKIT t = (NP_PLATFORM_APPLE t && negb (NP_DESTINATION_MACOS t)) ∧
  available t = (NP_PLATFORM_APPLE t && negb (NP_DESTINATION_WATCHOS t)).
Proof.
  destruct t as [[] [] [] [] [] []]; vm_compute; intros (H1 & H2 & H3); try done; try lia;
    by destruct (H2 eq_refl) as (? & ? & ? & ?).
Qed.

Section Machine.
Context `{Mach} (t : target).

Definition write_part (p : part) (v : field → Z) (context : NPMachineContext) : NPMachineContext :=
  match p with
  | ss => {| data := {| __ss := v; __es := __es (data context) |} |}
  | es => {| data := {| __ss := __ss (data context); __es := v |} |}
  end.

(** [setState], on the context as the memory it writes to *)
Definition setState (thread : positive) (state : part) (f : flavor) : prog NPMachineContext bool :=
  if available t then
    match thread_get_state thread f with
    | Some v => modify (write_part state v);; mret true
    | None => mret false
    end
  else mret false.

(** [NPMachineContextGet] on a context that is not null *)
Definition get_context (a : arch) (thread : positive) : prog NPMachineContext bool :=
  match pthread_mach_thread_np thread with
  | None => mret false
  | Some machThread =>
      r ← setState machThread ss (THREAD_STATE a);
      if (r : bool) then setState machThread es (EXCEPTION_STATE a) else mret false
  end.

(** [NPMachineContextGet]: the answer, and the context if there is one *)
Definition NPMachineContextGet (a : arch) (context : option NPMachineContext) (thread : positive) : bool * option NPMachineContext :=
  match context with
  | None => (false, None)
  | Some c =>
      match get_context a thread c with
      | Done r c' => (r, Some c')
      | Stop _ c' => (false, Some c')
      end
  end.

Definition NPMachineContextGetFramePointer (a : arch) (context : NPMachineContext) : Z :=
  match a with
  | arm => __ss (data context) (__r 7)
  | arm64 => __ss (data context) __fp
  | i386 => __ss (data context) __ebp
  | x86_64 => __ss (data context) __rbp
  end.

Definition NPMachineContextGetStackPointer (a : arch) (context : NPMachineContext) : Z :=
  match a with
  | arm => __ss (data context) __sp
  | arm64 => __ss (data context) __sp
  | i386 => __ss (data context) __esp
  | x86_64 => __ss (data context) __rsp
  end.

Definition NPMachineContextGetInstructionAddress (a : arch) (context : NPMachineContext) : Z :=
  match a with
  | arm => __ss (data context) __pc
  | arm64 => __ss (data context) __pc
  | i386 => __ss (data context) __eip
  | x86_64 => __ss (data context) __rip
  end.

Definition NPMachineContextGetLinkRegister (a : arch) (context : NPMachineContext) : Z :=
  match a with
  | arm => __ss (data context) __lr
  | arm64 => __ss (data context) __lr
  | i386 => 0
  | x86_64 => 0
  end.

(** The registers of a thread the kernel would report. *)
Definition thread_registers (a : arch) (thread : positive) : option (field → Z) :=
  if available t then machThread ← pthread_mach_thread_np thread; thread_get_state machThread (THREAD_STATE a)
  else None.

Definition thread_exception (a : arch) (thread : positive) : option (field → Z) :=
  if available t then machThread ← pthread_mach_thread_np thread; thread_get_state machThread (EXCEPTION_STATE a)
  else None.

(** C33: [NPMachineContextGet] answers true exactly when there is a context and the
    kernel gave both the registers and the exception state of the thread, and
    the context then holds both.  When the registers were not given the context
    is untouched; when only the exception state was not given the context has
    the new registers, although the answer is false. *)
Theorem NPMachineContextGet_correct a context thread :
  (NPMachineContextGet a context thread).1 =
    bool_decide (is_Some context ∧ is_Some (thread_registers a thread) ∧ is_Some (thread_exception a thread)) ∧
  (NPMachineContextGet a context thread).2 =
    (c ← context;
     Some (match thread_registers a thread, thread_exception a thread with
           | Some r, Some e => {| data := {| __ss := r; __es := e |} |}
           | Some r, None => write_part ss r c
           | None, _ => c
           end)).
Proof.
  unfold NPMachineContextGet, get_context, setState, thread_registers, thread_exception, modify, mbind, prog_bind.
  destruct context as [c|], (pthread_mach_thread_np thread) as [p|], (available t); simpl; try done;
    destruct (thread_get_state p (THREAD_STATE a)); simpl; try done;
    by destruct (thread_get_state p (EXCEPTION_STATE a)).
Qed.
End Machine.
End Machine.
