(* ===== verification/Runtime.v ===== *)
(** * Runtime: methods of Objective-C classes

    Models [objc/NSObjCRuntime.c] and the macros of [objc/NSObjCRuntime.h] that
    add, replace and override a method with a block.  The class table, the IMPs
    made from blocks and the method lists copied for a caller are the state of
    the Objective-C runtime.  What a message does is modelled by the IMPs it
    runs, in order. *)

From S2P Require Import Prelude.

Module Runtime.

(** ** The runtime's data *)

Notation Class_ := positive.
Notation SEL := positive.
Notation IMP := positive.

(** A method as [Method] gives access to it. *)
Record Method := {
  method_getName : SEL;
  method_imp : IMP;
  method_getTypeEncoding : nat;
}.

(** A class: its superclass and its own methods, as it lists them. *)
Record class_t := { super_ : option Class_; own : list Method }.

(** What an IMP is: compiled code, or a block one of the macros made: a block
    that stands alone, one that may call the implementation it replaced through
    the [__block] variable [_np_next_imp], or one that may send the message to
    the superclass of the class it was added to. *)
Inductive impl :=
| compiled
| add_block
| replace_block (next : positive)
| override_block (cls : Class_).

Record runtime := {
  classes : gmap Class_ class_t;
  imps : gmap IMP impl;
  next_imps : gmap positive (option IMP);
  lists : gmap positive (list Method);
}.

Definition set_classes (m : gmap Class_ class_t) (s : runtime) : runtime :=
  {| classes := m; imps := imps s; next_imps := next_imps s; lists := lists s |}.
Definition set_imps (m : gmap IMP impl) (s : runtime) : runtime :=
  {| classes := classes s; imps := m; next_imps := next_imps s; lists := lists s |}.
Definition set_next_imps (m : gmap positive (option IMP)) (s : runtime) : runtime :=
  {| classes := classes s; imps := imps s; next_imps := m; lists := lists s |}.
Definition set_lists (m : gmap positive (list Method)) (s : runtime) : runtime :=
  {| classes := classes s; imps := imps s; next_imps := next_imps s; lists := m |}.

(** ** The runtime's functions *)

(** The method of that name in a class's own list. *)
Definition find_own (sel : SEL) (l : list Method) : option Method :=
  head (filter (λ m, method_getName m = sel) l).

Definition own_method (s : runtime) (cls : Class_) (sel : SEL) : option Method :=
  c ← classes s !! cls; find_own sel (own c).

Definition class_getSuperclass (s : runtime) (cls : option Class_) : option Class_ :=
  cls ← cls; c ← classes s !! cls; super_ c.

(** A method of the class or of the nearest superclass that has one; the fuel
    bounds the height of the hierarchy. *)
Fixpoint find_method (fuel : nat) (s : runtime) (cls : Class_) (sel : SEL) : option Method :=
  match fuel with
  | O => None
  | S n =>
      c ← classes s !! cls;
      match find_own sel (own c) with
      | Some m => Some m
      | None => match super_ c with Some d => find_method n s d sel | None => None end
      end
  end.

Definition class_getInstanceMethod (s : runtime) (cls : Class_) (sel : SEL) : option Method :=
  find_method (size (classes s)) s cls sel.

(** An array of the class's own methods that the caller frees; [NULL] when there
    is no class or it has none. *)
Definition class_copyMethodList (cls : option Class_) : prog runtime (option positive * Z) :=
  s ← get;
  match cls ≫= λ c, classes s !! c with
  | Some c =>
      if decide (own c = []) then mret (None, 0)
      else
        let p := fresh (dom (lists s)) in
        put (set_lists (<[p:=own c]> (lists s)) s);;
        mret (Some p, Z.of_nat (length (own c)))
  | None => mret (None, 0)
  end.

Definition free (p : positive) : prog runtime unit :=
  s ← get;
  _ ← of_option FUndefined (lists s !! p);
  put (set_lists (delete p (lists s)) s).

(** [methods[idx]] *)
Definition list_at (p : positive) (idx : Z) : prog runtime Method :=
  s ← get;
  l ← of_option FUndefined (lists s !! p);
  of_option FUndefined (l !! Z.to_nat idx).

Definition imp_implementationWithBlock (b : impl) : prog runtime IMP :=
  s ← get;
  let i := fresh (dom (imps s)) in
  put (set_imps (<[i:=b]> (imps s)) s);;
  mret i.

(** Adds a method unless the class has its own of that name. *)
Definition class_addMethod (cls : Class_) (sel : SEL) (imp : IMP) (types : nat) : prog runtime bool :=
  s ← get;
  c ← of_option FUndefined (classes s !! cls);
  match find_own sel (own c) with
  | Some _ => mret false
  | None =>
      let m := {| method_getName := sel; method_imp := imp; method_getTypeEncoding := types |} in
      put (set_classes (<[cls:={| super_ := super_ c; own := m :: own c |}]> (classes s)) s);;
      mret true
  end.

Definition set_own_imp (sel : SEL) (imp : IMP) (l : list Method) : list Method :=
  (λ m, if decide (method_getName m = sel)
        then {| method_getName := sel; method_imp := imp; method_getTypeEncoding := method_getTypeEncoding m |}
        else m) <$> l.

(** Exchanges the implementation of the class's own method, whose types stay,
    and answers the old one; a class without one is given the method. *)
Definition class_replaceMethod (cls : Class_) (sel : SEL) (imp : IMP) (types : nat) : prog runtime (option IMP) :=
  s ← get;
  c ← of_option FUndefined (classes s !! cls);
  match find_own sel (own c) with
  | Some m =>
      put (set_classes (<[cls:={| super_ := super_ c; own := set_own_imp sel imp (own c) |}]> (classes s)) s);;
      mret (Some (method_imp m))
  | None =>
      class_addMethod cls sel imp types;; mret None
  end.

(** ** NSObjCRuntime.c *)

(** The value of an operation on [int], whose overflow is undefined. *)
Definition INT_MAX : Z := 2 ^ 31 - 1.
Definition int (z : Z) : prog runtime Z :=
  if (- 2 ^ 31 <=? z) && (z <=? INT_MAX) then mret z else stop FOverflow.

(** One round of the search: leave with the method found, its list freed, or
    with nothing when the list is exhausted, or go on to the next index. *)
Definition own_body (methods : positive) (outCount : Z) (name : SEL) (idx : Z) : prog runtime (Z + option Method) :=
  if idx <? outCount then
    method ← list_at methods idx;
    if decide (method_getName method = name) then
      free methods;; mret (inr (Some method))
    else idx ← int (idx + 1); mret (inl idx)
  else free methods;; mret (inr None).

Definition NPClassGetOwnMethod (cls : option Class_) (name : SEL) : prog runtime (option Method) :=
  '(methods, outCount) ← class_copyMethodList cls;
  match methods with
  | Some methods => loop (S (Z.to_nat outCount)) (own_body methods outCount name) 0
  | None => mret None
  end.

Definition NPClassGetSuperMethod (cls : option Class_) (name : SEL) : prog runtime (option Method) :=
  s ← get;
  match class_getSuperclass s cls with
  | None => mret None
  | Some super =>
      if decide (Some super = cls) then mret None
      else mret (class_getInstanceMethod s super name)
  end.

(** ** The macros of NSObjCRuntime.h *)

(** [NP_CLASS_ADDMETHOD]: [_np_success] *)
Definition NP_CLASS_ADDMETHOD (cls : option Class_) (sel : option SEL) (types : nat) : prog runtime bool :=
  match cls, sel with
  | Some _np_cls, Some _np_sel =>
      _np_imp ← imp_implementationWithBlock add_block;
      class_addMethod _np_cls _np_sel _np_imp types
  | _, _ => mret false
  end.

(** [__block _NP_NEXT_IMP _np_next_imp = NULL] *)
Definition new_next_imp : prog runtime positive :=
  s ← get;
  let v := fresh (dom (next_imps s)) in
  put (set_next_imps (<[v:=None]> (next_imps s)) s);;
  mret v.

(** A macro as the calls and assignments it makes one after another, each on the
    runtime as the last one left it. *)
Inductive steps :=
| Fin
| Then {A : Type} (m : prog runtime A) (k : A → steps).

Notation "x <- m ;~ c" := (Then m (λ x, c)) (at level 100, m at next level, right associativity).

(** All of them, with nothing in between. *)
Fixpoint runs (c : steps) : prog runtime unit :=
  match c with
  | Fin => mret tt
  | Then m k => a ← m; runs (k a)
  end.

(** One of them: what another thread finds afterwards is the state it leaves. *)
Inductive micro : steps * runtime → steps * runtime → Prop :=
| micro_then {A} (m : prog runtime A) k a s s' : m s = Done a s' → micro (Then m k, s) (k a, s').

(** The last statement of [NP_CLASS_REPLACEMETHOD]: the method is replaced, then
    the variable is assigned. *)
Definition replace_and_store (cls : Class_) (sel : SEL) (imp : IMP) (types : nat) (v : positive) : steps :=
  next <- class_replaceMethod cls sel imp types ;~
  _ <- modify (λ s, set_next_imps (<[v:=next]> (next_imps s)) s) ;~
  Fin.

(** The body of [NP_CLASS_REPLACEMETHOD]; [types] is [None] for [NULL]. *)
Definition NP_CLASS_REPLACEMETHOD_steps (cls : option Class_) (sel : option SEL) (types : option nat) : steps :=
  match cls, sel with
  | Some _np_cls, Some _np_sel =>
      _np_next_imp <- new_next_imp ;~
      _np_method <- NPClassGetOwnMethod cls _np_sel ;~
      match _np_method with
      | Some m =>
          let _np_types := default (method_getTypeEncoding m) types in
          _np_imp <- imp_implementationWithBlock (replace_block _np_next_imp) ;~
          replace_and_store _np_cls _np_sel _np_imp _np_types _np_next_imp
      | None => Fin
      end
  | _, _ => Fin
  end.

(** [NP_CLASS_REPLACEMETHOD] *)
Definition NP_CLASS_REPLACEMETHOD (cls : option Class_) (sel : option SEL) (types : option nat) : prog runtime unit :=
  runs (NP_CLASS_REPLACEMETHOD_steps cls sel types).

(** [NP_CLASS_OVERRIDEMETHOD]: [_np_success] *)
Definition NP_CLASS_OVERRIDEMETHOD (cls : option Class_) (sel : option SEL) (types : option nat) : prog runtime bool :=
  match cls, sel with
  | Some _np_cls, Some _np_sel =>
      _np_super_method ← NPClassGetSuperMethod cls _np_sel;
      match _np_super_method with
      | Some m =>
          let _np_types := default (method_getTypeEncoding m) types in
          _np_imp ← imp_implementationWithBlock (override_block _np_cls);
          class_addMethod _np_cls _np_sel _np_imp _np_types
      | None => mret false
      end
  | _, _ => mret false
  end.

(** ** Messages *)

(** Where [NP_METHOD_OVERLOAD] calls: what the block's variable holds.  None when
    it is [NULL]. *)
Definition NP_METHOD_OVERLOAD (s : runtime) (_np_next_imp : positive) : option IMP :=
  mjoin (next_imps s !! _np_next_imp).

(** Where [NP_METHOD_OVERRIDE] arrives: [objc_msgSendSuper2] looks the message up
    from the superclass of the class in its [_np_objc_super]. *)
Definition NP_METHOD_OVERRIDE (s : runtime) (_np_cls : Class_) (sel : SEL) : option IMP :=
  d ← class_getSuperclass s (Some _np_cls);
  method_imp <$> class_getInstanceMethod s d sel.

(** The IMPs that run when this one is called, where the blocks call on:
    [NP_METHOD_OVERLOAD] calls through [_np_next_imp], [NP_METHOD_OVERRIDE]
    sends to the superclass of the block's class.  None when the call crashes,
    through a [NULL] variable or for want of a method. *)
Fixpoint invoke (fuel : nat) (s : runtime) (sel : SEL) (i : IMP) : option (list IMP) :=
  match fuel with
  | O => None
  | S n =>
      b ← imps s !! i;
      match b with
      | compiled | add_block => Some [i]
      | replace_block v =>
          next ← NP_METHOD_OVERLOAD s v;
          l ← invoke n s sel next; Some (i :: l)
      | override_block cls =>
          next ← NP_METHOD_OVERRIDE s cls sel;
          l ← invoke n s sel next; Some (i :: l)
      end
  end.

(** A message to an instance of the class. *)
Definition send (fuel : nat) (s : runtime) (cls : Class_) (sel : SEL) : option (list IMP) :=
  m ← class_getInstanceMethod s cls sel; invoke fuel s sel (method_imp m).

(** ** Finding a class's own method *)

Lemma find_own_cons sel m l :
  find_own sel (m :: l) = if decide (method_getName m = sel) then Some m else find_own sel l.
Proof. unfold find_own. rewrite filter_cons. by case_decide. Qed.

Lemma find_own_elem sel l m : find_own sel l = Some m → m ∈ l ∧ method_getName m = sel.
Proof.
  induction l as [|x l IH]; [done|]. rewrite find_own_cons. case_decide as Hx.
  - intros [= <-]. split; [by left|done].
  - intros H. destruct (IH H). split; [by right|done].
Qed.

(** How many methods a class may have for the [int] index of the search. *)
Definition few_methods (s : runtime) (cls : option Class_) : Prop :=
  ∀ c k, cls = Some c → classes s !! c = Some k → Z.of_nat (length (own k)) ≤ INT_MAX.

Lemma wp_int z (Q : Z → runtime → Prop) s : - 2 ^ 31 ≤ z ≤ INT_MAX → Q z s → wp (int z) Q s.
Proof.
  intros [H1 H2] HQ. unfold int.
  by rewrite (proj2 (Z.leb_le _ _) H1), (proj2 (Z.leb_le _ _) H2).
Qed.

(** The search, with the list copied at [p]. *)
Lemma own_loop p l name s :
  lists s !! p = Some l → Z.of_nat (length l) ≤ INT_MAX →
  wp (loop (S (Z.to_nat (Z.of_nat (length l)))) (own_body p (Z.of_nat (length l)) name) 0)
    (λ r s', r = find_own name l ∧ s' = set_lists (delete p (lists s)) s) s.
Proof.
  intros Hp Hlen.
  apply (wp_loop (λ idx t, t = s ∧ 0 ≤ idx ≤ Z.of_nat (length l) ∧
      find_own name (drop (Z.to_nat idx) l) = find_own name l)
    (λ idx _, Z.to_nat (Z.of_nat (length l) - idx))); [|by rewrite drop_0; split_and!; try lia|lia].
  intros idx t (-> & Hidx & Hfind).
  assert (wp (free p) (λ _ s', s' = set_lists (delete p (lists s)) s) s) as Hfree.
  { unfold free. apply wp_bind, wp_get, wp_bind. by apply (wp_of_option _ _ l). }
  unfold own_body. destruct (Z.ltb_spec idx (Z.of_nat (length l))) as [Hlt|Hge].
  - destruct (lookup_lt_is_Some_2 l (Z.to_nat idx)) as [m Hm]; [lia|].
    rewrite (drop_S l m) in Hfind by done. rewrite find_own_cons in Hfind.
    apply wp_bind. unfold list_at. apply wp_bind, wp_get, wp_bind.
    apply (wp_of_option _ _ l); [done|]. apply (wp_of_option _ _ m); [done|].
    case_decide as Hname.
    + apply wp_bind. eapply wp_mono; [exact Hfree|]. intros [] s' ->. by apply wp_ret.
    + apply wp_bind, wp_int; [lia|]. apply wp_ret. split; [|lia].
      split; [done|]. split; [lia|]. by replace (Z.to_nat (idx + 1)) with (S (Z.to_nat idx)) by lia.
  - apply wp_bind. eapply wp_mono; [exact Hfree|]. intros [] s' ->. apply wp_ret.
    rewrite drop_ge in Hfind by lia. by split.
Qed.

Lemma set_lists_id s : set_lists (lists s) s = s.
Proof. by destruct s. Qed.

(** [NPClassGetOwnMethod] answers the first of the class's own methods with the
    name, never an inherited one, and nothing without a class; the list it had
    copied is freed exactly once on every path. *)
Theorem NPClassGetOwnMethod_correct cls name s :
  few_methods s cls →
  wp (NPClassGetOwnMethod cls name)
    (λ r s', r = (c ← cls; own_method s c name) ∧ s' = s) s.
Proof.
  intros Hfew. unfold NPClassGetOwnMethod. apply wp_bind. unfold class_copyMethodList.
  apply wp_bind, wp_get. unfold own_method.
  destruct cls as [c|]; simpl; [|by apply wp_ret, wp_ret].
  destruct (classes s !! c) as [k|] eqn:Hc; simpl; [|by apply wp_ret, wp_ret].
  case_decide as Hown; [apply wp_ret, wp_ret; by rewrite Hown|].
  set (p := fresh (dom (lists s))).
  assert (lists s !! p = None) as Hp by (apply not_elem_of_dom, is_fresh).
  apply wp_bind, wp_put, wp_ret.
  eapply wp_mono; [apply own_loop; [apply lookup_insert_eq|by eapply Hfew]|].
  intros r s' [-> ->]. split; [done|]. unfold set_lists; simpl.
  rewrite delete_insert_id by done. by destruct s.
Qed.

(** [NPClassGetSuperMethod] answers what the superclass has or inherits. *)
Lemma NPClassGetSuperMethod_run c name s k :
  classes s !! c = Some k →
  NPClassGetSuperMethod (Some c) name s =
    Done (match super_ k with
          | Some d => if decide (d = c) then None else class_getInstanceMethod s d name
          | None => None
          end) s.
Proof.
  intros Hc. unfold NPClassGetSuperMethod, get, mbind, prog_bind. simpl. rewrite Hc. simpl.
  destruct (super_ k) as [d|]; [|done].
  destruct (decide (d = c)) as [->|Hd]; [by rewrite decide_True|].
  by rewrite decide_False by congruence.
Qed.

(** ** Well-formed class tables *)

(** The IMP of a method of [cls]: compiled code or a block of the macros, one
    that replaced a method keeping what it replaced, one that overrides a method
    belonging to this class. *)
Inductive imp_of (s : runtime) (cls : Class_) : IMP → Prop :=
| imp_compiled i : imps s !! i = Some compiled → imp_of s cls i
| imp_add i : imps s !! i = Some add_block → imp_of s cls i
| imp_replace i v next :
    imps s !! i = Some (replace_block v) → next_imps s !! v = Some (Some next) →
    imp_of s cls next → imp_of s cls i
| imp_override i : imps s !! i = Some (override_block cls) → imp_of s cls i.

(** Superclasses exist and lead up to a root, and every method has an IMP. *)
Record wf (rank : Class_ → nat) (s : runtime) : Prop := {
  wf_super c k d : classes s !! c = Some k → super_ k = Some d →
    (rank d < rank c)%nat ∧ is_Some (classes s !! d);
  wf_rank c : is_Some (classes s !! c) → (rank c < size (classes s))%nat;
  wf_imps c k m : classes s !! c = Some k → m ∈ own k → imp_of s c (method_imp m);
}.

Section messages.
Context (rank : Class_ → nat).

(** Classes up to a rank are the same in both states. *)
Definition same_below (n : nat) (s s' : runtime) : Prop :=
  ∀ d, (rank d < n)%nat → classes s' !! d = classes s !! d.

Lemma find_method_frame n s s' fuel c sel :
  wf rank s → same_below n s s' → (rank c < n)%nat →
  find_method fuel s' c sel = find_method fuel s c sel.
Proof.
  intros Hwf Hsame. revert c. induction fuel as [|fuel IH]; intros c Hc; [done|]. simpl.
  rewrite (Hsame c Hc). destruct (classes s !! c) as [k|] eqn:Hk; [|done]. simpl.
  destruct (find_own sel (own k)); [done|]. destruct (super_ k) as [d|] eqn:Hd; [|done].
  apply IH. destruct (wf_super _ _ Hwf c k d Hk Hd). lia.
Qed.

(** A method that is found belongs to the class or to one above it. *)
Lemma find_method_own fuel s c sel m :
  wf rank s → find_method fuel s c sel = Some m →
  ∃ e k, classes s !! e = Some k ∧ find_own sel (own k) = Some m ∧ (rank e ≤ rank c)%nat.
Proof.
  intros Hwf. revert c. induction fuel as [|fuel IH]; intros c; [done|]. simpl.
  destruct (classes s !! c) as [k|] eqn:Hk; [|done]. simpl.
  destruct (find_own sel (own k)) as [m'|] eqn:Hm; [intros [= <-]; by exists c, k|].
  destruct (super_ k) as [d|] eqn:Hd; [|done]. intros H.
  destruct (IH d H) as (e & k' & He & Hf & Hr). exists e, k'.
  split; [done|]. split; [done|]. destruct (wf_super _ _ Hwf c k d Hk Hd). lia.
Qed.

(** The fuel is enough: more of it changes nothing. *)
Lemma find_method_fuel s c sel fuel fuel' :
  wf rank s → (rank c < fuel)%nat → (rank c < fuel')%nat →
  find_method fuel s c sel = find_method fuel' s c sel.
Proof.
  intros Hwf. revert c fuel'. induction fuel as [|fuel IH]; intros c fuel' H1 H2; [lia|].
  destruct fuel' as [|fuel']; [lia|]. simpl.
  destruct (classes s !! c) as [k|] eqn:Hk; [|done]. simpl.
  destruct (find_own sel (own k)); [done|]. destruct (super_ k) as [d|] eqn:Hd; [|done].
  destruct (wf_super _ _ Hwf c k d Hk Hd). apply IH; lia.
Qed.

(** A class's own method comes first, else the superclass is asked. *)
Lemma getInstanceMethod_unfold s c k sel :
  wf rank s → classes s !! c = Some k →
  class_getInstanceMethod s c sel =
    match find_own sel (own k) with
    | Some m => Some m
    | None => match super_ k with Some d => class_getInstanceMethod s d sel | None => None end
    end.
Proof.
  intros Hwf Hk. pose proof (wf_rank _ _ Hwf c ltac:(by eexists)) as Hr.
  unfold class_getInstanceMethod at 1.
  rewrite (find_method_fuel s c sel _ (S (size (classes s))) Hwf) by lia.
  cbn [find_method]. by rewrite Hk.
Qed.

(** Extending the IMPs and the [__block] variables keeps what there is. *)
Definition extends (s s' : runtime) : Prop :=
  imps s ⊆ imps s' ∧ ∀ v next, next_imps s !! v = Some (Some next) → next_imps s' !! v = Some (Some next).

Lemma imp_of_extends s s' c i : extends s s' → imp_of s c i → imp_of s' c i.
Proof.
  intros [Hi Hv]. induction 1 as [i H|i H|i v next H Hn _ IH|i H].
  - by eapply imp_compiled, lookup_weaken.
  - by eapply imp_add, lookup_weaken.
  - eapply imp_replace; [by eapply lookup_weaken|by apply Hv|done].
  - by eapply imp_override, lookup_weaken.
Qed.

(** What an IMP of a class runs depends on the classes above it only. *)
Lemma invoke_frame s s' fuel c sel i :
  wf rank s → extends s s' → size (classes s') = size (classes s) →
  (∃ k, classes s !! c = Some k ∧ ∃ k', classes s' !! c = Some k' ∧ super_ k' = super_ k) →
  same_below (rank c) s s' → imp_of s c i →
  invoke fuel s' sel i = invoke fuel s sel i.
Proof.
  intros Hwf Hext Hsize. revert c i.
  induction fuel as [|fuel IH]; intros c i Hc Hsame Hi; [done|]. cbn [invoke].
  unfold NP_METHOD_OVERLOAD, NP_METHOD_OVERRIDE.
  assert (∀ b, imps s !! i = Some b → imps s' !! i = Some b) as Hb
    by (intros b Hib; exact (lookup_weaken _ _ _ _ Hib (proj1 Hext))).
  destruct Hi as [i H|i H|i v next H Hn Hnext|i H]; rewrite (Hb _ H), H; simpl; try done.
  - rewrite (proj2 Hext _ _ Hn), Hn. simpl. by rewrite (IH c).
  - destruct Hc as (k & Hk & k' & Hk' & Hsup). rewrite Hk', Hk. simpl. rewrite Hsup.
    destruct (super_ k) as [d|] eqn:Hd; [|done]. simpl.
    destruct (wf_super _ _ Hwf c k d Hk Hd) as [Hlt _].
    unfold class_getInstanceMethod. rewrite Hsize, (find_method_frame (rank c) s s' _ d sel Hwf Hsame Hlt).
    destruct (find_method (size (classes s)) s d sel) as [m|] eqn:Hm; [|done]. simpl.
    destruct (find_method_own _ _ _ _ _ Hwf Hm) as (e & ke & He & Hf & Hre).
    rewrite (IH e); [done| | |].
    + exists ke. split; [done|]. exists ke. by rewrite Hsame by lia.
    + intros x Hx. apply Hsame. lia.
    + eapply wf_imps; [done..|]. by eapply find_own_elem.
Qed.

(** ** Giving a class an IMP *)

(** The state after the class was given a method list in which [sel] has the
    new IMP [i] and every other IMP was there before. *)
Record installed (s s' : runtime) (c : Class_) (k : class_t) (sel : SEL) (i : IMP) (l : list Method) : Prop := {
  in_class : classes s !! c = Some k;
  in_classes : classes s' = <[c:={| super_ := super_ k; own := l |}]> (classes s);
  in_extends : extends s s';
  in_list m : m ∈ l → method_imp m = i ∨ ∃ m0, m0 ∈ own k ∧ method_imp m = method_imp m0;
  in_imp : imp_of s' c i;
  in_found : method_imp <$> find_own sel l = Some i;
  in_others x : x ≠ sel → find_own x l = find_own x (own k);
}.

Lemma installed_size s s' c k sel i l : installed s s' c k sel i l → size (classes s') = size (classes s).
Proof. intros []. rewrite in_classes0. by rewrite map_size_insert_Some. Qed.

Lemma installed_wf s s' c k sel i l : wf rank s → installed s s' c k sel i l → wf rank s'.
Proof.
  intros Hwf Hin. pose proof (installed_size _ _ _ _ _ _ _ Hin) as Hsize.
  destruct Hin as [Hk Hcls Hext Hl Himp _ _].
  assert (∀ d, is_Some (classes s !! d) ↔ is_Some (classes s' !! d)) as Hsome.
  { intros d. rewrite Hcls. destruct (decide (d = c)) as [->|Hd].
    - rewrite lookup_insert_eq, Hk. split; by eexists.
    - by rewrite lookup_insert_ne. }
  split.
  - intros x kx d Hx Hd. rewrite <-Hsome. rewrite Hcls in Hx. destruct (decide (x = c)) as [->|Hxc].
    + rewrite lookup_insert_eq in Hx. injection Hx as <-. simpl in Hd. by eapply wf_super.
    + rewrite lookup_insert_ne in Hx by done. by eapply wf_super.
  - intros x Hx. rewrite Hsize. apply Hsome in Hx. by eapply wf_rank.
  - intros x kx m Hx Hm. rewrite Hcls in Hx. destruct (decide (x = c)) as [->|Hxc].
    + rewrite lookup_insert_eq in Hx. injection Hx as <-. simpl in Hm.
      destruct (Hl m Hm) as [->|(m0 & Hm0 & ->)]; [done|].
      eapply imp_of_extends; [done|by eapply wf_imps].
    + rewrite lookup_insert_ne in Hx by done.
      eapply imp_of_extends; [done|by eapply wf_imps].
Qed.

Lemma installed_same s s' c k sel i l : installed s s' c k sel i l → same_below (rank c) s s'.
Proof. intros [] d Hd. rewrite in_classes0. apply lookup_insert_ne. intros <-. lia. Qed.

(** A message of that name to the class runs the new IMP. *)
Lemma installed_send s s' c k sel i l n :
  wf rank s → installed s s' c k sel i l → send n s' c sel = invoke n s' sel i.
Proof.
  intros Hwf Hin. pose proof (installed_wf _ _ _ _ _ _ _ Hwf Hin) as Hwf'.
  unfold send. rewrite (getInstanceMethod_unfold s' c {| super_ := super_ k; own := l |} sel Hwf')
    by (destruct Hin; rewrite in_classes0; apply lookup_insert_eq). simpl.
  destruct Hin as [_ _ _ _ _ Hf _]. by destruct (find_own sel l); [injection Hf as <-|].
Qed.

(** What the class's own IMPs ran before, they still run. *)
Lemma installed_invoke s s' c k sel i l n j x :
  wf rank s → installed s s' c k sel i l → imp_of s c j → invoke n s' x j = invoke n s x j.
Proof.
  intros Hwf Hin Hj. eapply invoke_frame; [done|by destruct Hin|by eapply installed_size| | |done].
  - destruct Hin. exists k. split; [done|]. eexists. rewrite in_classes0.
    by rewrite lookup_insert_eq.
  - by eapply installed_same.
Qed.

Lemma installed_own s s' c k sel i l d x :
  installed s s' c k sel i l → (d, x) ≠ (c, sel) → own_method s' d x = own_method s d x.
Proof.
  intros [] Hne. unfold own_method. rewrite in_classes0. destruct (decide (d = c)) as [->|Hd].
  - rewrite lookup_insert_eq, in_class0. simpl. apply in_others0. congruence.
  - by rewrite lookup_insert_ne.
Qed.

Lemma find_own_set_own_imp sel i l m :
  find_own sel l = Some m →
  find_own sel (set_own_imp sel i l) =
    Some {| method_getName := sel; method_imp := i; method_getTypeEncoding := method_getTypeEncoding m |}.
Proof.
  induction l as [|x l IH]; [done|]. unfold set_own_imp in *; rewrite fmap_cons, !find_own_cons.
  destruct (decide (method_getName x = sel)) as [Hx|Hx]; simpl.
  - intros [= <-]. by rewrite decide_True.
  - rewrite decide_False by done. apply IH.
Qed.

Lemma find_own_set_own_imp_ne x sel i l :
  x ≠ sel → find_own x (set_own_imp sel i l) = find_own x l.
Proof.
  intros Hx. induction l as [|m l IH]; [done|].
  unfold set_own_imp in *; rewrite fmap_cons, !find_own_cons.
  destruct (decide (method_getName m = sel)) as [Hm|Hm]; simpl.
  - rewrite !decide_False by congruence. apply IH.
  - case_decide; [done|apply IH].
Qed.

Lemma elem_of_set_own_imp sel i l m :
  m ∈ set_own_imp sel i l → method_imp m = i ∨ ∃ m0, m0 ∈ l ∧ method_imp m = method_imp m0.
Proof.
  intros (m0 & -> & Hm0)%list_elem_of_fmap. case_decide; [by left|right]. by exists m0.
Qed.

(** ** The macros *)

(** After the macro a message of that name to the class runs a new block and
    then all it ran before; the table is well formed, and no other method of any
    class has changed. *)
Definition calls_on (s s' : runtime) (c : Class_) (sel : SEL) (n : nat) (l : list IMP) : Prop :=
  wf rank s' ∧ lists s' = lists s ∧
  (∃ i, imps s !! i = None ∧ send (S n) s' c sel = Some (i :: l)) ∧
  ∀ d x, (d, x) ≠ (c, sel) → own_method s' d x = own_method s d x.

Lemma new_next_imp_run s :
  ∃ v, next_imps s !! v = None ∧
    new_next_imp s = Done v (set_next_imps (<[v:=None]> (next_imps s)) s).
Proof.
  exists (fresh (dom (next_imps s))). split; [apply not_elem_of_dom, is_fresh|done].
Qed.

Lemma imp_implementationWithBlock_run b s :
  ∃ i, imps s !! i = None ∧
    imp_implementationWithBlock b s = Done i (set_imps (<[i:=b]> (imps s)) s).
Proof. exists (fresh (dom (imps s))). split; [apply not_elem_of_dom, is_fresh|done]. Qed.

(** A class with a method of its own is given a block that keeps what it
    replaced; the [__block] variable of the block holds it. *)
Lemma replace_installs c k sel types s m :
  wf rank s → few_methods s (Some c) → classes s !! c = Some k → find_own sel (own k) = Some m →
  wp (NP_CLASS_REPLACEMETHOD (Some c) (Some sel) types)
    (λ _ s', ∃ i v, imps s !! i = None ∧ imps s' !! i = Some (replace_block v) ∧
      next_imps s' !! v = Some (Some (method_imp m)) ∧ lists s' = lists s ∧
      installed s s' c k sel i (set_own_imp sel i (own k))) s.
Proof.
  intros Hwf Hfew Hk Hm. unfold NP_CLASS_REPLACEMETHOD; cbn [NP_CLASS_REPLACEMETHOD_steps runs].
  destruct (new_next_imp_run s) as (v & Hv & Hrun). apply wp_bind. unfold wp. rewrite Hrun. clear Hrun.
  set (s1 := set_next_imps (<[v:=None]> (next_imps s)) s).
  apply wp_bind. eapply wp_mono; [by apply NPClassGetOwnMethod_correct|].
  intros r s' [-> ->]. unfold own_method. simpl. rewrite Hk. simpl. rewrite Hm.
  destruct (imp_implementationWithBlock_run (replace_block v) s1) as (i & Hi & Hrun).
  apply wp_bind. unfold wp. rewrite Hrun. clear Hrun. cbn [replace_and_store runs].
  unfold class_replaceMethod. do 2 apply wp_bind. apply wp_get, wp_bind.
  eapply wp_of_option; [exact Hk|]. rewrite Hm. apply wp_bind, wp_put, wp_ret, wp_bind, wp_modify, wp_ret.
  match goal with |- ∃ _ _, _ ∧ imps ?t !! _ = _ ∧ _ => set (s' := t) end.
  assert (imp_of s c (method_imp m)) as Hnext
    by (eapply wf_imps; [done..|]; by eapply find_own_elem).
  assert (imps s' = <[i:=replace_block v]> (imps s)) as Himps by done.
  assert (next_imps s' = <[v:=Some (method_imp m)]> (next_imps s)) as Hnexts
    by (unfold s'; simpl; by rewrite insert_insert_eq).
  assert (extends s s') as Hext.
  { split; [by rewrite Himps; apply insert_subseteq|]. intros w next Hw. rewrite Hnexts.
    rewrite lookup_insert_ne; [done|]. intros <-. congruence. }
  exists i, v. rewrite Himps, Hnexts, !lookup_insert_eq. split_and!; [done..|].
  split; [done|done|done|apply elem_of_set_own_imp| | |].
  - apply (imp_replace s' c i v (method_imp m)); [by rewrite Himps; apply lookup_insert_eq|
      by rewrite Hnexts; apply lookup_insert_eq|by eapply imp_of_extends].
  - by rewrite (find_own_set_own_imp _ _ _ _ Hm).
  - intros x Hx. by apply find_own_set_own_imp_ne.
Qed.

Lemma replace_own c k sel types s m l n :
  wf rank s → few_methods s (Some c) → classes s !! c = Some k →
  find_own sel (own k) = Some m → send n s c sel = Some l →
  wp (NP_CLASS_REPLACEMETHOD (Some c) (Some sel) types) (λ _ s', calls_on s s' c sel n l) s.
Proof.
  intros Hwf Hfew Hk Hm Hsend. eapply wp_mono; [by eapply replace_installs|].
  intros _ s' (i & v & Hi & Himp & Hnext & Hlists & Hin).
  split; [by eapply installed_wf|]. split; [done|].
  split; [|intros d x Hne; by eapply installed_own].
  exists i. split; [done|]. rewrite (installed_send _ _ _ _ _ _ _ _ Hwf Hin). cbn [invoke].
  rewrite Himp. unfold NP_METHOD_OVERLOAD. simpl. rewrite Hnext. simpl.
  rewrite (installed_invoke _ _ _ _ _ _ _ _ _ sel Hwf Hin)
    by (eapply wf_imps; [done..|]; by eapply find_own_elem).
  unfold send in Hsend. rewrite (getInstanceMethod_unfold s c k sel Hwf Hk), Hm in Hsend.
  simpl in Hsend. by rewrite Hsend.
Qed.

(** Adding a method with a new block to a class that has none of its own. *)
Lemma add_installs c k sel types s b :
  classes s !! c = Some k → find_own sel (own k) = None → b = add_block ∨ b = override_block c →
  wp (i ← imp_implementationWithBlock b; class_addMethod c sel i types)
    (λ r s', r = true ∧ ∃ i, imps s !! i = None ∧ imps s' !! i = Some b ∧ lists s' = lists s ∧
      installed s s' c k sel i
        ({| method_getName := sel; method_imp := i; method_getTypeEncoding := types |} :: own k)) s.
Proof.
  intros Hk Hm Hb. destruct (imp_implementationWithBlock_run b s) as (i & Hi & Hrun).
  apply wp_bind. unfold wp. rewrite Hrun. clear Hrun.
  unfold class_addMethod. apply wp_bind, wp_get, wp_bind. eapply wp_of_option; [exact Hk|].
  rewrite Hm. apply wp_bind, wp_put, wp_ret. split; [done|]. exists i.
  match goal with |- _ ∧ imps ?t !! _ = _ ∧ _ => set (s' := t) end.
  assert (imps s' !! i = Some b) as Himp by apply lookup_insert_eq.
  split_and!; [done..|]. split; [done|done| | | | |].
  - split; [by apply insert_subseteq|done].
  - intros m [->|Hel]%elem_of_cons; [by left|right; by exists m].
  - destruct Hb as [-> | ->]; [by apply imp_add|by apply imp_override].
  - rewrite find_own_cons. by rewrite decide_True.
  - intros x Hx. rewrite find_own_cons. by rewrite decide_False by (simpl; congruence).
Qed.

(** What [NP_CLASS_OVERRIDEMETHOD] finds above the class. *)
Lemma override_run c k sel types s :
  wf rank s → classes s !! c = Some k →
  NP_CLASS_OVERRIDEMETHOD (Some c) (Some sel) types s =
    match super_ k ≫= λ d, class_getInstanceMethod s d sel with
    | Some m =>
        (i ← imp_implementationWithBlock (override_block c);
         class_addMethod c sel i (default (method_getTypeEncoding m) types)) s
    | None => Done false s
    end.
Proof.
  intros Hwf Hk. unfold NP_CLASS_OVERRIDEMETHOD. unfold mbind at 1, prog_bind at 1.
  rewrite (NPClassGetSuperMethod_run c sel s k Hk).
  destruct (super_ k) as [d|] eqn:Hd; [|done]. simpl.
  destruct (wf_super _ _ Hwf c k d Hk Hd) as [Hlt _]. rewrite decide_False by (intros ->; lia).
  by destruct (class_getInstanceMethod s d sel).
Qed.

(** A class that inherits a method: the overriding block sends to the superclass. *)
Lemma override_inherited c k sel types s l n :
  wf rank s → classes s !! c = Some k →
  find_own sel (own k) = None → send n s c sel = Some l →
  wp (NP_CLASS_OVERRIDEMETHOD (Some c) (Some sel) types)
    (λ r s', r = true ∧ calls_on s s' c sel n l) s.
Proof.
  intros Hwf Hk Hm Hsend. unfold send in Hsend.
  rewrite (getInstanceMethod_unfold s c k sel Hwf Hk), Hm in Hsend.
  unfold wp. rewrite (override_run c k sel types s Hwf Hk).
  destruct (super_ k) as [d|] eqn:Hd; [|done].
  destruct (wf_super _ _ Hwf c k d Hk Hd) as [Hlt _]. simpl.
  destruct (class_getInstanceMethod s d sel) as [ms|] eqn:Hms; [|done]. simpl in Hsend.
  eapply wp_mono; [apply (add_installs c k sel _ s (override_block c) Hk Hm); by right|].
  intros r s' (-> & i & Hi & Himp & Hlists & Hin). split; [done|].
  assert (extends s s') as Hext by by destruct Hin.
  split; [by eapply installed_wf|]. split; [done|].
  split; [|intros e x Hne; by eapply installed_own].
  exists i. split; [done|]. rewrite (installed_send _ _ _ _ _ _ _ _ Hwf Hin).
  cbn [invoke]. rewrite Himp. unfold NP_METHOD_OVERRIDE. simpl.
  rewrite (in_classes _ _ _ _ _ _ _ Hin), lookup_insert_eq. simpl. rewrite Hd. simpl.
  unfold class_getInstanceMethod in *. rewrite (installed_size _ _ _ _ _ _ _ Hin).
  rewrite (find_method_frame (rank c) s s' _ d sel Hwf (installed_same _ _ _ _ _ _ _ Hin) Hlt), Hms. simpl.
  destruct (find_method_own _ _ _ _ _ Hwf Hms) as (e & ke & He & Hf & Hre).
  rewrite (invoke_frame s s' n e sel (method_imp ms) Hwf Hext (installed_size _ _ _ _ _ _ _ Hin)).
  - by rewrite Hsend.
  - exists ke. split; [done|]. exists ke. split; [|done].
    rewrite (installed_same _ _ _ _ _ _ _ Hin e) by lia. done.
  - intros x Hx. apply (installed_same _ _ _ _ _ _ _ Hin). lia.
  - eapply wf_imps; [done..|]. by eapply find_own_elem.
Qed.

(** Neither macro touches the class table where it does not apply. *)
Lemma replace_inherited c k sel types s :
  few_methods s (Some c) → classes s !! c = Some k → find_own sel (own k) = None →
  wp (NP_CLASS_REPLACEMETHOD (Some c) (Some sel) types)
    (λ _ s', classes s' = classes s ∧ imps s' = imps s ∧ lists s' = lists s ∧ extends s s') s.
Proof.
  intros Hfew Hk Hm. unfold NP_CLASS_REPLACEMETHOD; cbn [NP_CLASS_REPLACEMETHOD_steps runs].
  destruct (new_next_imp_run s) as (v & Hv & Hrun). apply wp_bind. unfold wp. rewrite Hrun.
  apply wp_bind. eapply wp_mono; [by apply NPClassGetOwnMethod_correct|].
  intros r s' [-> ->]. unfold own_method. simpl. rewrite Hk. simpl. rewrite Hm.
  apply wp_ret. split_and!; [done..|]. split; [done|]. intros w next Hw. simpl.
  rewrite lookup_insert_ne; [done|]. intros <-. congruence.
Qed.

Lemma add_own c k sel types s m b :
  classes s !! c = Some k → find_own sel (own k) = Some m →
  wp (i ← imp_implementationWithBlock b; class_addMethod c sel i types)
    (λ r s', r = false ∧ classes s' = classes s ∧ lists s' = lists s ∧ extends s s') s.
Proof.
  intros Hk Hm. destruct (imp_implementationWithBlock_run b s) as (i & Hi & Hrun).
  apply wp_bind. unfold wp. rewrite Hrun. unfold class_addMethod, get, of_option, mbind, prog_bind.
  simpl. rewrite Hk. simpl. rewrite Hm. split_and!; [done..|]. by split; [apply insert_subseteq|].
Qed.

Lemma extends_refl s : extends s s.
Proof. by split. Qed.

Lemma override_own c k sel types s m :
  wf rank s → classes s !! c = Some k → find_own sel (own k) = Some m →
  wp (NP_CLASS_OVERRIDEMETHOD (Some c) (Some sel) types)
    (λ r s', r = false ∧ classes s' = classes s ∧ lists s' = lists s ∧ extends s s') s.
Proof.
  intros Hwf Hk Hm. unfold wp. rewrite (override_run c k sel types s Hwf Hk).
  destruct (super_ k ≫= _) as [ms|]; [by apply (add_own c k sel _ s m)|].
  split_and!; [done..|apply extends_refl].
Qed.

(** On a class whose instances answer a message, replacing applies exactly
    to a method of the class itself and overriding exactly to an inherited one.
    Where it applies, the message then runs the new block and, if the block
    calls on, everything it ran before, in the same order; where it does not,
    the class table is unchanged.  No other method of any class is affected, and
    the hierarchy stays well formed. *)
Theorem swizzle_correct c k sel types s l n :
  wf rank s → few_methods s (Some c) → classes s !! c = Some k → send n s c sel = Some l →
  match find_own sel (own k) with
  | Some _ =>
      wp (NP_CLASS_REPLACEMETHOD (Some c) (Some sel) types) (λ _ s', calls_on s s' c sel n l) s ∧
      wp (NP_CLASS_OVERRIDEMETHOD (Some c) (Some sel) types)
        (λ r s', r = false ∧ classes s' = classes s ∧ lists s' = lists s) s
  | None =>
      wp (NP_CLASS_OVERRIDEMETHOD (Some c) (Some sel) types)
        (λ r s', r = true ∧ calls_on s s' c sel n l) s ∧
      wp (NP_CLASS_REPLACEMETHOD (Some c) (Some sel) types)
        (λ _ s', classes s' = classes s ∧ imps s' = imps s ∧ lists s' = lists s) s
  end.
Proof.
  intros Hwf Hfew Hk Hsend. destruct (find_own sel (own k)) as [m|] eqn:Hm.
  - split; [by eapply replace_own|]. eapply wp_mono; [by eapply override_own|]. naive_solver.
  - split; [by eapply override_inherited|]. eapply wp_mono; [by eapply replace_inherited|]. naive_solver.
Qed.
End messages.

(** Adding a method: it is there afterwards, unless the class had one of its own. *)
Theorem NP_CLASS_ADDMETHOD_correct c k sel types s :
  classes s !! c = Some k →
  wp (NP_CLASS_ADDMETHOD (Some c) (Some sel) types)
    (λ r s', r = bool_decide (find_own sel (own k) = None) ∧
      (if r then ∃ i, imps s !! i = None ∧ imps s' !! i = Some add_block ∧
         method_imp <$> own_method s' c sel = Some i
       else classes s' = classes s)) s.
Proof.
  intros Hk. unfold NP_CLASS_ADDMETHOD.
  destruct (imp_implementationWithBlock_run add_block s) as (i & Hi & Hrun).
  apply wp_bind. unfold wp. rewrite Hrun. unfold class_addMethod, get, of_option, mbind, prog_bind.
  simpl. rewrite Hk. simpl. destruct (find_own sel (own k)) as [m|] eqn:Hm; simpl; [done|].
  split; [done|]. exists i. split; [done|]. split; [apply lookup_insert_eq|].
  unfold own_method. simpl. rewrite lookup_insert_eq. simpl. rewrite find_own_cons.
  by rewrite decide_True.
Qed.

(** Going on from any point of a macro ends where the whole macro ends. *)
Lemma micro_runs Q x y : rtc micro x y → wp (runs x.1) Q x.2 → wp (runs y.1) Q y.2.
Proof.
  induction 1 as [|x y z [A m k a s s' Hm] _ IH]; [done|]. intros Hw. apply IH.
  unfold wp in *. simpl in Hw. unfold mbind, prog_bind in Hw. by rewrite Hm in Hw.
Qed.

(** The point of [NP_CLASS_REPLACEMETHOD] between the call of [class_replaceMethod]
    and the assignment of its result. *)
Lemma replace_middle c k sel types s m :
  few_methods s (Some c) → classes s !! c = Some k → find_own sel (own k) = Some m →
  ∃ rest s1 i v, rtc micro (NP_CLASS_REPLACEMETHOD_steps (Some c) (Some sel) types, s) (rest, s1) ∧
    classes s1 = <[c:={| super_ := super_ k; own := set_own_imp sel i (own k) |}]> (classes s) ∧
    imps s1 !! i = Some (replace_block v) ∧ next_imps s1 !! v = Some None.
Proof.
  intros Hfew Hk Hm. destruct (new_next_imp_run s) as (v & Hv & Hrun).
  set (s1 := set_next_imps (<[v:=None]> (next_imps s)) s) in Hrun.
  pose proof (NPClassGetOwnMethod_correct (Some c) sel s1 Hfew) as Hown. unfold wp in Hown.
  destruct (NPClassGetOwnMethod (Some c) sel s1) as [r s2|] eqn:Hget; [|done].
  destruct Hown as [-> ->]. unfold own_method in Hget. simpl in Hget. rewrite Hk in Hget. simpl in Hget.
  rewrite Hm in Hget.
  destruct (imp_implementationWithBlock_run (replace_block v) s1) as (i & Hi & Himp).
  eexists _, _, i, v. split.
  { eapply rtc_l; [by apply micro_then|]. eapply rtc_l; [by apply micro_then|].
    eapply rtc_l; [by apply micro_then|]. eapply rtc_l; [|apply rtc_refl]. apply micro_then.
    unfold class_replaceMethod, get, of_option, put, mbind, prog_bind. simpl. rewrite Hk. simpl. by rewrite Hm. }
  simpl. by rewrite !lookup_insert_eq.
Qed.

(** C40: [NP_CLASS_REPLACEMETHOD], wherever it replaces a method, passes a point at
    which the class already answers with the new block while the block's variable
    is still [NULL]: a message that another thread sends there crashes where the
    block calls on, though it was answered before the macro and is after it. *)
Theorem replace_window rank c k sel types s m l n :
  wf rank s → few_methods s (Some c) → classes s !! c = Some k →
  find_own sel (own k) = Some m → send n s c sel = Some l →
  ∃ rest s1, rtc micro (NP_CLASS_REPLACEMETHOD_steps (Some c) (Some sel) types, s) (rest, s1) ∧
    (∃ i v, method_imp <$> class_getInstanceMethod s1 c sel = Some i ∧
       imps s1 !! i = Some (replace_block v) ∧ NP_METHOD_OVERLOAD s1 v = None) ∧
    (∀ n', send n' s1 c sel = None) ∧
    wp (runs rest) (λ _ s', calls_on rank s s' c sel n l) s1.
Proof.
  intros Hwf Hfew Hk Hm Hsend.
  destruct (replace_middle c k sel types s m Hfew Hk Hm) as (rest & s1 & i & v & Hsteps & Hcls & Hi & Hv).
  assert (method_imp <$> class_getInstanceMethod s1 c sel = Some i) as Hget.
  { unfold class_getInstanceMethod. rewrite Hcls, map_size_insert_Some by done.
    pose proof (wf_rank _ _ Hwf c ltac:(by eexists)) as Hr. destruct (size (classes s)) as [|f]; [lia|].
    cbn [find_method]. rewrite Hcls, lookup_insert_eq. simpl. by rewrite (find_own_set_own_imp _ _ _ _ Hm). }
  assert (NP_METHOD_OVERLOAD s1 v = None) as Hnull by (unfold NP_METHOD_OVERLOAD; by rewrite Hv).
  exists rest, s1. split; [done|]. split; [by exists i, v|]. split.
  - intros n'. unfold send. destruct (class_getInstanceMethod s1 c sel) as [m'|]; [|done].
    injection Hget as Hget. simpl. rewrite Hget. destruct n' as [|n']; [done|]. cbn [invoke].
    rewrite Hi. simpl. by rewrite Hnull.
  - by apply (micro_runs _ _ _ Hsteps), (replace_own rank c k sel types s m l n).
Qed.

(** ** A concrete hierarchy *)

(** Class 2 inherits from class 1, whose method 10 is compiled. *)
Definition demo_runtime : runtime :=
  {| classes := {[1%positive := {| super_ := None;
                    own := [{| method_getName := 10; method_imp := 1; method_getTypeEncoding := 0 |}] |};
                  2%positive := {| super_ := Some 1%positive; own := [] |}]};
     imps := {[1%positive := compiled]}; next_imps := ∅; lists := ∅ |}.

Definition demo_rank (c : Class_) : nat := Pos.to_nat c - 1.

Lemma demo_wf : wf demo_rank demo_runtime.
Proof.
  assert (∀ c k, classes demo_runtime !! c = Some k →
    (c = 1%positive ∧ k = {| super_ := None; own := [{| method_getName := 10; method_imp := 1; method_getTypeEncoding := 0 |}] |}) ∨
    (c = 2%positive ∧ k = {| super_ := Some 1%positive; own := [] |})) as Hc.
  { intros c k Hk. unfold demo_runtime in Hk; simpl in Hk.
    apply lookup_insert_Some in Hk as [[<- <-]|[_ Hk]]; [by left|right].
    by apply lookup_singleton_Some in Hk as [<- <-]. }
  split.
  - intros c k d Hk Hd. destruct (Hc c k Hk) as [[-> ->]|[-> ->]]; [done|].
    simpl in Hd. injection Hd as <-. split; [vm_compute; lia|by eexists].
  - intros c [k Hk]. replace (size (classes demo_runtime)) with 2%nat by done.
    destruct (Hc c k Hk) as [[-> _]|[-> _]]; vm_compute; lia.
  - intros c k m Hk Hm. destruct (Hc c k Hk) as [[-> ->]|[-> ->]]; simpl in Hm.
    + apply list_elem_of_singleton in Hm as ->. by apply imp_compiled.
    + by apply not_elem_of_nil in Hm.
Qed.

Lemma swizzle_correct_witness :
  send 1 demo_runtime 2 10 = Some [1%positive] ∧
  wp (NP_CLASS_OVERRIDEMETHOD (Some 2%positive) (Some 10%positive) None)
    (λ r s', r = true ∧ calls_on demo_rank demo_runtime s' 2 10 1 [1%positive]) demo_runtime.
Proof.
  assert (send 1 demo_runtime 2 10 = Some [1%positive]) as Hs by (vm_compute; reflexivity).
  split; [exact Hs|].
  assert (few_methods demo_runtime (Some 2%positive)) as Hfew.
  { intros c k Hc Hk. injection Hc as <-. vm_compute in Hk. injection Hk as <-.
    vm_compute. discriminate. }
  exact (proj1 (swizzle_correct demo_rank 2%positive {| super_ := Some 1%positive; own := [] |} 10%positive
    None demo_runtime [1%positive] 1 demo_wf Hfew eq_refl Hs)).
Defined.

Lemma replace_window_witness :
  send 1 demo_runtime 1 10 = Some [1%positive] ∧
  ∃ rest s1, rtc micro (NP_CLASS_REPLACEMETHOD_steps (Some 1%positive) (Some 10%positive) None, demo_runtime) (rest, s1) ∧
    ∀ n', send n' s1 1 10 = None.
Proof.
  assert (send 1 demo_runtime 1 10 = Some [1%positive]) as Hs by (vm_compute; reflexivity).
  split; [exact Hs|].
  assert (few_methods demo_runtime (Some 1%positive)) as Hfew.
  { intros c k Hc Hk. injection Hc as <-. vm_compute in Hk. injection Hk as <-.
    vm_compute. discriminate. }
  destruct (replace_window demo_rank 1%positive
    {| super_ := None; own := [{| method_getName := 10; method_imp := 1; method_getTypeEncoding := 0 |}] |}
    10%positive None demo_runtime {| method_getName := 10; method_imp := 1; method_getTypeEncoding := 0 |}
    [1%positive] 1 demo_wf Hfew eq_refl eq_refl Hs) as (rest & s1 & Hsteps & _ & Hn & _).
  exists rest, s1. split; [exact Hsteps|exact Hn].
Defined.

Lemma NPClassGetOwnMethod_correct_witness :
  wp (NPClassGetOwnMethod (Some 2%positive) 10%positive) (λ r s', r = None ∧ s' = demo_runtime) demo_runtime.
Proof.
  assert (few_methods demo_runtime (Some 2%positive)) as Hfew.
  { intros c k Hc Hk. injection Hc as <-. vm_compute in Hk. injection Hk as <-.
    vm_compute. discriminate. }
  exact (NPClassGetOwnMethod_correct (Some 2%positive) 10%positive demo_runtime Hfew).
Defined.
End Runtime.
