(* ===== verification/RuntimePrograms.v ===== *)
(** * RuntimePrograms: any use of the macros of NSObjCRuntime.h

    A program adds, replaces and overrides methods of any classes in any order.
    What its classes then do is described by a table with one entry for each
    method a class has of its own: the blocks that run when it is called, one on
    top of the other, and whether the last of them sends the message on to the
    superclass. *)

From stdpp Require Import functions.
From S2P Require Import Prelude Runtime.

Module RuntimePrograms.
Import Runtime.

(** ** Programs *)

(** One use of a macro; [None] is [NULL]. *)
Inductive request :=
| AddMethod (cls : option Class_) (sel : option SEL) (types : nat)
| ReplaceMethod (cls : option Class_) (sel : option SEL) (types : option nat)
| OverrideMethod (cls : option Class_) (sel : option SEL) (types : option nat).

(** [_np_success], where the macro has it. *)
Definition serve (r : request) : prog runtime (option bool) :=
  match r with
  | AddMethod cls sel types => _np_success ← NP_CLASS_ADDMETHOD cls sel types; mret (Some _np_success)
  | ReplaceMethod cls sel types => NP_CLASS_REPLACEMETHOD cls sel types;; mret None
  | OverrideMethod cls sel types => _np_success ← NP_CLASS_OVERRIDEMETHOD cls sel types; mret (Some _np_success)
  end.

Fixpoint serves (rs : list request) : prog runtime (list (option bool)) :=
  match rs with
  | [] => mret []
  | r :: rs => a ← serve r; l ← serves rs; mret (a :: l)
  end.

(** ** What the classes do *)

(** Code that runs: what the program was compiled with, or the block of the
    [k]th request. *)
Inductive layer := original (i : IMP) | block (k : nat).

(** A method of a class: what runs, in order, whether the message then goes on
    to the superclass, and the method's type encoding. *)
Record stack := { layers : list layer; upwards : bool; encoding : nat }.

Notation table := (Class_ * SEL → option stack).

Section hierarchy.
Context (height : nat) (superclass : Class_ → option Class_).

(** The method a message finds. *)
Fixpoint nearest (n : nat) (t : table) (c : Class_) (sel : SEL) : option stack :=
  match n with
  | O => None
  | S n => match t (c, sel) with
           | Some k => Some k
           | None => d ← superclass c; nearest n t d sel
           end
  end.

(** What a message runs. *)
Fixpoint answer (n : nat) (t : table) (c : Class_) (sel : SEL) : option (list layer) :=
  match n with
  | O => None
  | S n => match t (c, sel) with
           | Some k =>
               if upwards k then d ← superclass c; l ← answer n t d sel; Some (layers k ++ l)
               else Some (layers k)
           | None => d ← superclass c; answer n t d sel
           end
  end.

(** Adding and overriding make a method where there is none, overriding only if
    one is inherited; replacing puts a block on top of a method there is. *)
Definition request_step (t : table) (k : nat) (r : request) : option bool * table :=
  match r with
  | AddMethod (Some c) (Some sel) types =>
      match t (c, sel) with
      | None => (Some true, <[(c, sel) := Some {| layers := [block k]; upwards := false; encoding := types |}]> t)
      | Some _ => (Some false, t)
      end
  | ReplaceMethod (Some c) (Some sel) types =>
      match t (c, sel) with
      | Some m =>
          (None, <[(c, sel) := Some {| layers := block k :: layers m; upwards := upwards m; encoding := encoding m |}]> t)
      | None => (None, t)
      end
  | OverrideMethod (Some c) (Some sel) types =>
      match t (c, sel), d ← superclass c; nearest height t d sel with
      | None, Some m =>
          (Some true, <[(c, sel) := Some {| layers := [block k]; upwards := true;
                                            encoding := default (encoding m) types |}]> t)
      | _, _ => (Some false, t)
      end
  | ReplaceMethod _ _ _ => (None, t)
  | AddMethod _ _ _ | OverrideMethod _ _ _ => (Some false, t)
  end.

Fixpoint request_steps (t : table) (k : nat) (rs : list request) : list (option bool) * table :=
  match rs with
  | [] => ([], t)
  | r :: rs =>
      let '(a, t) := request_step t k r in
      let '(l, t) := request_steps t (S k) rs in (a :: l, t)
  end.
End hierarchy.

(** The methods a program is compiled with. *)
Definition compiled_table (s : runtime) : table := λ '(c, sel),
  (λ m, {| layers := [original (method_imp m)]; upwards := false; encoding := method_getTypeEncoding m |})
    <$> own_method s c sel.

Definition superclass_in (s : runtime) (c : Class_) : option Class_ := class_getSuperclass s (Some c).
#[local] Arguments superclass_in : simpl never.

(** ** The table of a state *)

Section programs.
Context (rank : Class_ → nat) (s0 : runtime).

Notation height := (size (classes s0)).
Notation superclass := (superclass_in s0).

(** Which request made an IMP. *)
Implicit Types (ρ : gmap IMP nat) (t : table).

Definition name ρ (i : IMP) : layer :=
  match ρ !! i with Some k => block k | None => original i end.

Definition names ρ (l : list IMP) : list layer := name ρ <$> l.

(** What an IMP of the class runs before the message leaves the class. *)
Inductive stacked (s : runtime) ρ (c : Class_) : IMP → list layer → bool → Prop :=
| stacked_compiled i : imps s !! i = Some compiled → stacked s ρ c i [name ρ i] false
| stacked_added i : imps s !! i = Some add_block → stacked s ρ c i [name ρ i] false
| stacked_override i : imps s !! i = Some (override_block c) → stacked s ρ c i [name ρ i] true
| stacked_replace i v next l up :
    imps s !! i = Some (replace_block v) → next_imps s !! v = Some (Some next) →
    stacked s ρ c next l up → stacked s ρ c i (name ρ i :: l) up.

Definition entry (s : runtime) ρ (c : Class_) (m : option Method) (k : option stack) : Prop :=
  match m, k with
  | Some m, Some k => stacked s ρ c (method_imp m) (layers k) (upwards k) ∧ method_getTypeEncoding m = encoding k
  | None, None => True
  | _, _ => False
  end.

(** The block a request makes. *)
Definition made (r : request) (b : impl) : Prop :=
  match r with
  | AddMethod _ _ _ => b = add_block
  | ReplaceMethod _ _ _ => ∃ v, b = replace_block v
  | OverrideMethod cls _ _ => ∃ c, cls = Some c ∧ b = override_block c
  end.

(** [ρ] tells the blocks of the requests [rs] apart. *)
Record naming (rs : list request) ρ (s : runtime) : Prop := {
  naming_inj i j k : ρ !! i = Some k → ρ !! j = Some k → i = j;
  naming_made i k : ρ !! i = Some k → ∃ r b, rs !! k = Some r ∧ imps s !! i = Some b ∧ made r b;
}.

(** A state in which the table holds, after the requests [rs] were served. *)
Record holds (rs : list request) t ρ (s : runtime) : Prop := {
  holds_wf : wf rank s;
  holds_super : super_ <$> classes s = super_ <$> classes s0;
  holds_naming : naming rs ρ s;
  holds_entry c sel : entry s ρ c (own_method s c sel) (t (c, sel));
  holds_up c sel k : t (c, sel) = Some k → upwards k = true →
    is_Some (d ← superclass c; nearest superclass height t d sel);
}.

Hypothesis Hwf0 : wf rank s0.

Lemma superclass_below c d : superclass c = Some d → (rank d < rank c)%nat ∧ (rank d < height)%nat.
Proof.
  unfold superclass_in. simpl. destruct (classes s0 !! c) as [k|] eqn:Hk; [|done]. simpl. intros Hd.
  destruct (wf_super _ _ Hwf0 c k d Hk Hd) as [Hlt Hsome]. split; [done|]. by eapply wf_rank.
Qed.

(** The height of the hierarchy is enough to search it. *)
Lemma nearest_fuel n n' t c sel : (rank c < n)%nat → (rank c < n')%nat →
  nearest superclass n t c sel = nearest superclass n' t c sel.
Proof.
  revert c n'. induction n as [|n IH]; intros c [|n'] H1 H2; [lia..|]. cbn [nearest].
  destruct (t (c, sel)); [done|]. destruct (superclass c) as [d|] eqn:Hd; [|done].
  destruct (superclass_below c d Hd). apply IH; lia.
Qed.

Lemma answer_fuel n n' t c sel : (rank c < n)%nat → (rank c < n')%nat →
  answer superclass n t c sel = answer superclass n' t c sel.
Proof.
  revert c n'. induction n as [|n IH]; intros c [|n'] H1 H2; [lia..|]. cbn [answer].
  destruct (superclass c) as [d|] eqn:Hd; [|done].
  destruct (superclass_below c d Hd). simpl. by rewrite (IH d n') by lia.
Qed.

(** With more methods a message still finds one. *)
Lemma nearest_mono n t t' c sel :
  (∀ x, is_Some (t x) → is_Some (t' x)) →
  is_Some (nearest superclass n t c sel) → is_Some (nearest superclass n t' c sel).
Proof.
  intros Ht. revert c. induction n as [|n IH]; intros c; [done|]. cbn [nearest]. specialize (Ht (c, sel)).
  destruct (t' (c, sel)) as [k'|]; [by eexists|]. destruct (t (c, sel)); [by destruct Ht|].
  destruct (superclass c) as [d|]; [apply IH|done].
Qed.

Section table.
Context (rs : list request) (t : table) (ρ : gmap IMP nat) (s : runtime).
Hypothesis Hs : holds rs t ρ s.

Lemma holds_superclass c : superclass_in s c = superclass c.
Proof.
  pose proof (f_equal (lookup c) (holds_super _ _ _ _ Hs)) as H. rewrite !lookup_fmap in H. unfold superclass_in. simpl.
  by destruct (classes s !! c), (classes s0 !! c); simplify_eq/=.
Qed.

Lemma holds_height : size (classes s) = height.
Proof. by rewrite <- (map_size_fmap super_ (classes s)), (holds_super _ _ _ _ Hs), map_size_fmap. Qed.

Lemma holds_known c : is_Some (classes s !! c) ↔ is_Some (classes s0 !! c).
Proof.
  pose proof (f_equal (lookup c) (holds_super _ _ _ _ Hs)) as H. rewrite !lookup_fmap in H.
  rewrite <- (fmap_is_Some super_ (classes s !! c)), H. apply fmap_is_Some.
Qed.

Lemma find_nearest n c sel : ∃ e, entry s ρ e (find_method n s c sel) (nearest superclass n t c sel).
Proof.
  revert c. induction n as [|n IH]; intros c; [by exists c|]. cbn [nearest find_method].
  pose proof (holds_entry _ _ _ _ Hs c sel) as He. unfold own_method in He. rewrite <- holds_superclass. unfold superclass_in. simpl.
  destruct (classes s !! c) as [k|] eqn:Hk; simpl in *.
  - destruct (find_own sel (own k)) as [m|], (t (c, sel)) as [x|]; try done; [by exists c|].
    destruct (super_ k) as [d|]; [apply IH|by exists c].
  - destruct (t (c, sel)); [done|]. by exists c.
Qed.

(** What is found can run. *)
Lemma nearest_answers n c sel : (rank c < n)%nat →
  is_Some (nearest superclass n t c sel) → is_Some (answer superclass n t c sel).
Proof.
  revert c. induction n as [|n IH]; intros c Hc; [lia|]. cbn [nearest answer].
  destruct (t (c, sel)) as [k|] eqn:Hk.
  - intros _. destruct (upwards k) eqn:Hup; [|by eexists].
    pose proof (holds_up _ _ _ _ Hs c sel k Hk Hup) as Hd.
    destruct (superclass c) as [d|] eqn:Hsup; [|by destruct Hd]. simpl in *.
    destruct (superclass_below c d Hsup). rewrite (nearest_fuel height n) in Hd by lia.
    destruct (IH d) as [l ->]; [lia|done|]. by eexists.
  - destruct (superclass c) as [d|] eqn:Hsup; [|by intros []]. destruct (superclass_below c d Hsup). apply IH. lia.
Qed.

(** An IMP runs its layers and then, if it says so, what the superclass does. *)
Lemma invoke_stacked c i l up n sel : stacked s ρ c i l up →
  names ρ <$> invoke (length l + n) s sel i =
    if up then d ← superclass c; l' ← names ρ <$> send n s d sel; Some (l ++ l') else Some l.
Proof.
  induction 1 as [i Hi|i Hi|i Hi|i v next l up Hi Hv _ IH]; cbn [length Nat.add invoke]; rewrite Hi; simpl; [done..| |].
  - rewrite <- holds_superclass. unfold superclass_in, NP_METHOD_OVERRIDE, send. simpl.
    destruct (classes s !! c) as [k|]; [|done]. simpl. destruct (super_ k) as [d|]; [|done]. simpl.
    destruct (class_getInstanceMethod s d sel) as [m|]; [|done]. simpl. by destruct (invoke n s sel (method_imp m)).
  - unfold NP_METHOD_OVERLOAD. rewrite Hv. simpl.
    assert (∀ o, names ρ <$> (l ← o; Some (i :: l)) = (l' ← names ρ <$> o; Some (name ρ i :: l')))
      as -> by by intros [].
    rewrite IH. destruct up; [|done]. destruct (superclass c) as [d|]; [|done]. simpl. by destruct (send n s d sel).
Qed.

Lemma invoke_layers c i l up m sel : stacked s ρ c i l up → (length l ≤ m)%nat →
  names ρ <$> invoke m s sel i =
    if up then d ← superclass c; l' ← names ρ <$> send (m - length l) s d sel; Some (l ++ l') else Some l.
Proof. intros Hi Hm. rewrite <- (invoke_stacked c i l up _ sel Hi). do 2 f_equal. lia. Qed.

(** With enough fuel a message runs what the table says. *)
Lemma send_answer c sel :
  ∃ n, ∀ m, (n ≤ m)%nat → names ρ <$> send m s c sel = answer superclass height t c sel.
Proof.
  induction c as [c IH] using (well_founded_induction (well_founded_ltof _ rank)). unfold ltof in IH.
  pose proof (holds_entry _ _ _ _ Hs c sel) as He. unfold own_method in He.
  destruct (classes s !! c) as [k|] eqn:Hk.
  - assert (rank c < height)%nat as Hc by (eapply wf_rank; [done|]; apply holds_known; by eexists).
    rewrite (answer_fuel height (S height)) by lia. cbn [answer]. simpl in He.
    assert (superclass c = super_ k) as Hsup by (rewrite <- holds_superclass; unfold superclass_in; simpl; by rewrite Hk).
    unfold send. rewrite (getInstanceMethod_unfold rank s c k sel (holds_wf _ _ _ _ Hs) Hk), Hsup.
    destruct (find_own sel (own k)) as [x|], (t (c, sel)) as [e|]; try done; simpl.
    + destruct He as [He _]. destruct (upwards e) eqn:Hup.
      * destruct (super_ k) as [d|] eqn:Hd; simpl.
        { destruct (IH d) as [n Hn]; [by apply superclass_below|]. exists (length (layers e) + n)%nat. intros m Hm.
          rewrite (invoke_layers c _ _ _ m sel He), Hsup by lia. simpl. by rewrite Hn by lia. }
        exists (length (layers e)). intros m Hm. by rewrite (invoke_layers c _ _ _ m sel He), Hsup by lia.
      * exists (length (layers e)). intros m Hm. by rewrite (invoke_layers c _ _ _ m sel He) by lia.
    + destruct (super_ k) as [d|] eqn:Hd; simpl; [|by exists O].
      apply IH. by apply superclass_below.
  - exists O. intros m _. unfold send, class_getInstanceMethod. simpl in He.
    pose proof (holds_superclass c) as Hsup. unfold superclass_in at 1 in Hsup. simpl in Hsup. rewrite Hk in Hsup. simpl in Hsup.
    assert (∀ n, find_method n s c sel = None) as -> by (intros []; cbn [find_method]; by rewrite ?Hk).
    destruct height; [done|]. cbn [answer]. destruct (t (c, sel)); [done|]. simpl. by rewrite <- Hsup.
Qed.
End table.

(** ** One request *)

Lemma naming_fresh rs ρ s i : naming rs ρ s → imps s !! i = None → ρ !! i = None.
Proof.
  intros Hn Hi. destruct (ρ !! i) as [k|] eqn:Hk; [|done].
  destruct (naming_made _ _ _ Hn i k Hk) as (r & b & _ & Hb & _). congruence.
Qed.

Lemma naming_extends rs ρ s s' r : naming rs ρ s → extends s s' → naming (rs ++ [r]) ρ s'.
Proof.
  intros [Hinj Hmade] [Himps _]. split; [done|]. intros i k Hk.
  destruct (Hmade i k Hk) as (q & b & Hq & Hb & Hqb). exists q, b. split; [by apply lookup_app_l_Some|].
  split; [by eapply lookup_weaken|done].
Qed.

(** The request gives the new block its name. *)
Lemma naming_new rs ρ s s' r i b :
  naming rs ρ s → extends s s' → imps s !! i = None → imps s' !! i = Some b → made r b →
  naming (rs ++ [r]) (<[i:=length rs]> ρ) s'.
Proof.
  intros Hn Hext Hi Hb Hr. pose proof (naming_extends rs ρ s s' r Hn Hext) as [Hinj Hmade].
  assert (∀ j, ρ !! j = Some (length rs) → False) as Hnew.
  { intros j Hj. destruct (naming_made _ _ _ Hn j _ Hj) as (q & _ & Hq & _). apply lookup_lt_Some in Hq. lia. }
  split.
  - intros x y k. rewrite !lookup_insert. repeat case_decide; naive_solver.
  - intros x k. rewrite lookup_insert. case_decide as Hx; [|apply Hmade]. intros [= <-]. subst x.
    exists r, b. split; [|done]. by apply list_lookup_middle.
Qed.

(** What was stacked before stays so. *)
Lemma stacked_extends s s' ρ ρ' c i l up :
  extends s s' → (∀ j, is_Some (imps s !! j) → name ρ' j = name ρ j) →
  stacked s ρ c i l up → stacked s' ρ' c i l up.
Proof.
  intros [Himps Hnexts] Hname.
  induction 1 as [i Hi|i Hi|i Hi|i v next l up Hi Hv _ IH]; rewrite <- (Hname _ (mk_is_Some _ _ Hi));
    [apply stacked_compiled|apply stacked_added|apply stacked_override|eapply stacked_replace];
    eauto using lookup_weaken.
Qed.

Lemma entry_extends s s' ρ ρ' c m k :
  extends s s' → (∀ j, is_Some (imps s !! j) → name ρ' j = name ρ j) →
  entry s ρ c m k → entry s' ρ' c m k.
Proof. destruct m, k; simpl; [|done..]. intros ? ? [? ?]. split; [by eapply stacked_extends|done]. Qed.

Lemma name_fresh s ρ i k j : imps s !! i = None → is_Some (imps s !! j) → name (<[i:=k]> ρ) j = name ρ j.
Proof. intros Hi [b Hj]. unfold name. rewrite lookup_insert_ne; [done|congruence]. Qed.

Lemma superclass_extends rs t ρ s s' c k sel i l : holds rs t ρ s → installed s s' c k sel i l →
  super_ <$> classes s' = super_ <$> classes s0.
Proof.
  intros Hs [Hk Hcls _ _ _ _ _]. rewrite <- (holds_super _ _ _ _ Hs), Hcls, fmap_insert. simpl.
  apply insert_id. by rewrite lookup_fmap, Hk.
Qed.

(** Served, with nothing changed. *)
Lemma holds_same rs t ρ s s' r : holds rs t ρ s → classes s' = classes s → extends s s' → holds (rs ++ [r]) t ρ s'.
Proof.
  intros [Hwf Hsup Hn He Hup] Hcls Hext. split; [|by rewrite Hcls|by eapply naming_extends| |done].
  - destruct Hwf as [H1 H2 H3]. split; rewrite Hcls; [done..|]. intros c k m Hk Hm.
    eapply imp_of_extends; [done|by eapply H3].
  - intros c sel. specialize (He c sel). unfold own_method in *. rewrite Hcls.
    by apply (entry_extends s s' ρ ρ).
Qed.

(** Served, with a method that runs the new block. *)
Lemma holds_installed rs t ρ s s' r c k sel i l b e :
  holds rs t ρ s → installed s s' c k sel i l →
  imps s !! i = None → imps s' !! i = Some b → made r b →
  stacked s' (<[i:=length rs]> ρ) c i (layers e) (upwards e) →
  method_getTypeEncoding <$> find_own sel l = Some (encoding e) →
  (upwards e = true → is_Some (d ← superclass c; nearest superclass height t d sel)) →
  holds (rs ++ [r]) (<[(c, sel):=Some e]> t) (<[i:=length rs]> ρ) s'.
Proof.
  intros Hs Hin Hi Hb Hr Hst Henc Hup. pose proof Hs as [Hwf _ Hn He Hups].
  assert (extends s s') as Hext by by destruct Hin.
  split; [by eapply installed_wf|by eapply superclass_extends|by eapply naming_new| |].
  - intros d x. destruct (decide ((d, x) = (c, sel))) as [[= -> ->]|Hne].
    + rewrite fn_lookup_insert. destruct Hin as [_ Hcls _ _ _ Hf _].
      unfold own_method. rewrite Hcls, lookup_insert_eq. simpl.
      destruct (find_own sel l) as [m|]; [|done]. simpl in *. injection Hf as ->. injection Henc as ->. done.
    + rewrite fn_lookup_insert_ne by done. rewrite (installed_own _ _ _ _ _ _ _ d x Hin) by done.
      apply (entry_extends s _ ρ); [done| |done]. intros j. by apply name_fresh.
  - assert (∀ d x, is_Some (d' ← superclass d; nearest superclass height t d' x) →
      is_Some (d' ← superclass d; nearest superclass height (<[(c, sel):=Some e]> t) d' x)) as Hmono.
    { intros d x. destruct (superclass d) as [d'|]; [|done]. apply nearest_mono. intros y Hy.
      destruct (decide ((c, sel) = y)) as [<-|]; [rewrite fn_lookup_insert; by eexists|by rewrite fn_lookup_insert_ne]. }
    intros d x k'. destruct (decide ((d, x) = (c, sel))) as [[= -> ->]|Hne].
    + rewrite fn_lookup_insert. intros [= <-] Hu. by apply Hmono, Hup.
    + rewrite fn_lookup_insert_ne by done. intros Hk' Hu. by eapply Hmono, Hups.
Qed.

(** The index of a search is an [int]: [n] more methods fit. *)
Definition room (n : nat) (s : runtime) : Prop :=
  ∀ c k, classes s !! c = Some k → Z.of_nat (length (own k) + n) ≤ INT_MAX.

Lemma room_few n s c : room n s → few_methods s c.
Proof. intros Hr d k _ Hk. specialize (Hr d k Hk). lia. Qed.

Lemma room_same n s s' : classes s' = classes s → room (S n) s → room n s'.
Proof. intros Hcls Hr c k Hk. rewrite Hcls in Hk. specialize (Hr c k Hk). lia. Qed.

Lemma room_installed n s s' c k sel i l :
  installed s s' c k sel i l → (length l ≤ S (length (own k)))%nat → room (S n) s → room n s'.
Proof.
  intros [Hk Hcls _ _ _ _ _] Hl Hr d x. rewrite Hcls, lookup_insert. case_decide as Hd.
  - intros [= <-]. simpl. specialize (Hr c k Hk). lia.
  - intros Hx. specialize (Hr d x Hx). lia.
Qed.

(** The classes a request names exist. *)
Definition known (r : request) : Prop :=
  match r with
  | AddMethod cls _ _ | ReplaceMethod cls _ _ | OverrideMethod cls _ _ =>
      ∀ c, cls = Some c → is_Some (classes s0 !! c)
  end.

(** The reply and the table the specification gives. *)
Definition served (rs : list request) (r : request) (n : nat) (s : runtime) (st : option bool * table)
    (a : option bool) (s' : runtime) : Prop :=
  a = st.1 ∧ lists s' = lists s ∧ room n s' ∧ ∃ ρ, holds (rs ++ [r]) st.2 ρ s'.

Lemma served_same rs t ρ s r n a s' :
  holds rs t ρ s → room (S n) s → classes s' = classes s → lists s' = lists s → extends s s' →
  served rs r n s (a, t) a s'.
Proof.
  intros Hs Hr Hcls Hl Hext. split; [done|]. split; [done|]. split; [by eapply room_same|].
  exists ρ. by eapply holds_same.
Qed.

Lemma served_installed rs t ρ s s' r n c k sel i l b e a :
  holds rs t ρ s → room (S n) s → lists s' = lists s → installed s s' c k sel i l →
  (length l ≤ S (length (own k)))%nat →
  imps s !! i = None → imps s' !! i = Some b → made r b →
  stacked s' (<[i:=length rs]> ρ) c i (layers e) (upwards e) →
  method_getTypeEncoding <$> find_own sel l = Some (encoding e) →
  (upwards e = true → is_Some (d ← superclass c; nearest superclass height t d sel)) →
  served rs r n s (a, <[(c, sel):=Some e]> t) a s'.
Proof.
  intros Hs Hroom Hlists Hin Hlen Hi Hb Hr Hst Henc Hup. split; [done|]. split; [done|].
  split; [by eapply room_installed|]. eexists. by eapply holds_installed.
Qed.

Lemma name_insert ρ i k : name (<[i:=k]> ρ) i = block k.
Proof. unfold name. by rewrite lookup_insert_eq. Qed.

Lemma own_entry rs t ρ s c k sel : holds rs t ρ s → classes s !! c = Some k →
  entry s ρ c (find_own sel (own k)) (t (c, sel)).
Proof. intros Hs Hk. pose proof (holds_entry _ _ _ _ Hs c sel) as He. unfold own_method in He. by rewrite Hk in He. Qed.

Lemma AddMethod_served rs t ρ s n c k sel types :
  holds rs t ρ s → room (S n) s → classes s !! c = Some k →
  wp (serve (AddMethod (Some c) (Some sel) types))
    (served rs (AddMethod (Some c) (Some sel) types) n s
       (request_step height superclass t (length rs) (AddMethod (Some c) (Some sel) types))) s.
Proof.
  intros Hs Hroom Hk. pose proof (own_entry _ _ _ _ _ _ sel Hs Hk) as He. cbn [serve request_step NP_CLASS_ADDMETHOD].
  apply wp_bind. destruct (find_own sel (own k)) as [m|] eqn:Hm, (t (c, sel)) as [e|] eqn:Ht; try done.
  - eapply wp_mono; [by eapply add_own|]. intros a s' (-> & Hcls & Hl & Hext). apply wp_ret. by eapply served_same.
  - eapply wp_mono; [apply (add_installs c k sel types s add_block Hk Hm); by left|].
    intros a s' (-> & i & Hi & Hb & Hl & Hin). apply wp_ret.
    eapply served_installed; [done..| | |]; simpl; [|by rewrite find_own_cons, decide_True|done].
    rewrite <- (name_insert ρ i). by apply stacked_added.
Qed.

Lemma ReplaceMethod_served rs t ρ s n c k sel types :
  holds rs t ρ s → room (S n) s → classes s !! c = Some k →
  wp (serve (ReplaceMethod (Some c) (Some sel) types))
    (served rs (ReplaceMethod (Some c) (Some sel) types) n s
       (request_step height superclass t (length rs) (ReplaceMethod (Some c) (Some sel) types))) s.
Proof.
  intros Hs Hroom Hk. pose proof (own_entry _ _ _ _ _ _ sel Hs Hk) as He. cbn [serve request_step].
  pose proof (room_few _ _ (Some c) Hroom) as Hfew. apply wp_bind.
  destruct (find_own sel (own k)) as [m|] eqn:Hm, (t (c, sel)) as [e|] eqn:Ht; try done.
  - destruct He as [He Henc].
    eapply wp_mono; [eapply (replace_installs rank); [by eapply holds_wf|done..]|].
    intros _ s' (i & v & Hi & Hb & Hv & Hl & Hin). apply wp_ret.
    eapply served_installed; [done|done|done|done| |done|done|by exists v| | |]; simpl.
    + unfold set_own_imp. rewrite length_fmap. lia.
    + rewrite <- (name_insert ρ i). eapply stacked_replace; [done..|].
      eapply stacked_extends; [by destruct Hin| |exact He]. intros j. by apply name_fresh.
    + rewrite (find_own_set_own_imp _ _ _ _ Hm). simpl. by rewrite Henc.
    + intros Hup. by eapply holds_up.
  - eapply wp_mono; [by eapply replace_inherited|]. intros a s' (Hcls & _ & Hl & Hext). apply wp_ret.
    by eapply served_same.
Qed.

Lemma OverrideMethod_served rs t ρ s n c k sel types :
  holds rs t ρ s → room (S n) s → classes s !! c = Some k →
  wp (serve (OverrideMethod (Some c) (Some sel) types))
    (served rs (OverrideMethod (Some c) (Some sel) types) n s
       (request_step height superclass t (length rs) (OverrideMethod (Some c) (Some sel) types))) s.
Proof.
  intros Hs Hroom Hk. pose proof (own_entry _ _ _ _ _ _ sel Hs Hk) as He. cbn [serve request_step].
  apply wp_bind. unfold wp at 1. rewrite (override_run rank c k sel types s (holds_wf _ _ _ _ Hs) Hk).
  assert (super_ k = superclass c) as ->
    by (rewrite <- (holds_superclass _ _ _ _ Hs); unfold superclass_in; simpl; by rewrite Hk).
  destruct (superclass c) as [d|] eqn:Hd; simpl.
  2: { destruct (t (c, sel)); apply wp_ret; by eapply served_same. }
  unfold class_getInstanceMethod. rewrite (holds_height _ _ _ _ Hs).
  destruct (find_nearest _ _ _ _ Hs height d sel) as [x Hx].
  destruct (find_method height s d sel) as [ms|], (nearest superclass height t d sel) as [es|] eqn:Hes; try done.
  2: { destruct (t (c, sel)); apply wp_ret; by eapply served_same. }
  destruct (find_own sel (own k)) as [m|] eqn:Hm, (t (c, sel)) as [e|] eqn:Ht; try done.
  - eapply wp_mono; [by eapply add_own|]. intros a s' (-> & Hcls & Hl & Hext). apply wp_ret. by eapply served_same.
  - eapply wp_mono; [eapply (add_installs c k sel _ s (override_block c) Hk Hm); by right|].
    intros a s' (-> & i & Hi & Hb & Hl & Hin). apply wp_ret.
    eapply served_installed; [done|done|done|done|done|done|done|by exists c| | |]; simpl.
    + rewrite <- (name_insert ρ i). by apply stacked_override.
    + rewrite find_own_cons, decide_True by done. simpl. by destruct Hx as [_ <-].
    + intros _. rewrite Hd. simpl. by rewrite Hes.
Qed.

Lemma serve_served rs t ρ s r n :
  holds rs t ρ s → known r → room (S n) s →
  wp (serve r) (served rs r n s (request_step height superclass t (length rs) r)) s.
Proof.
  intros Hs Hr Hroom.
  assert (∀ a, served rs r n s (a, t) a s) as Hnull by (intros a; by eapply served_same, extends_refl).
  destruct r as [[c|] [sel|] types|[c|] [sel|] types|[c|] [sel|] types];
    try (cbn [serve]; apply wp_bind, wp_ret, wp_ret, Hnull);
    destruct (proj2 (holds_known _ _ _ _ Hs c) (Hr c eq_refl)) as [k Hk];
    by eauto using AddMethod_served, ReplaceMethod_served, OverrideMethod_served.
Qed.

Lemma serves_hold past t ρ s rs :
  holds past t ρ s → Forall known rs → room (length rs) s →
  wp (serves rs) (λ l s', ∃ t' ρ', request_steps height superclass t (length past) rs = (l, t') ∧
    lists s' = lists s ∧ holds (past ++ rs) t' ρ' s') s.
Proof.
  intros Hs Hrs. revert past t ρ s Hs. induction Hrs as [|r rs Hr Hrs IH]; intros past t ρ s Hs Hroom.
  { apply wp_ret. exists t, ρ. by rewrite app_nil_r. }
  cbn [serves request_steps]. apply wp_bind. eapply wp_mono; [by eapply serve_served|].
  destruct (request_step height superclass t (length past) r) as [a0 t1].
  intros a s1 (-> & Hl1 & Hroom1 & ρ1 & Hs1). apply wp_bind.
  eapply wp_mono; [by eapply IH|]. intros l s2 (t2 & ρ2 & Hsteps & Hl2 & Hs2). apply wp_ret.
  exists t2, ρ2. rewrite length_app, Nat.add_1_r in Hsteps. simpl in Hsteps. rewrite Hsteps.
  split; [done|]. split; [congruence|]. by rewrite <- app_assoc in Hs2.
Qed.

(** Nothing but compiled code, as when a program starts. *)
Definition plain (s : runtime) : Prop := ∀ i b, imps s !! i = Some b → b = compiled.

Lemma holds_start : plain s0 → holds [] (compiled_table s0) ∅ s0.
Proof.
  intros Hplain. split; [done..| | |].
  - split; [intros i j k Hk|intros i k Hk]; by rewrite lookup_empty in Hk.
  - intros c sel. unfold entry, compiled_table. destruct (own_method s0 c sel) as [m|] eqn:Hm; [|done].
    split; [|done]. unfold own_method in Hm. destruct (classes s0 !! c) as [k|] eqn:Hk; [|done].
    assert (imp_of s0 c (method_imp m)) as Hi by (eapply wf_imps; [done..|]; by eapply find_own_elem).
    assert (imps s0 !! method_imp m = Some compiled) as Hc.
    { destruct Hi as [i Hi|i Hi|i v next Hi|i Hi]; [done|by apply Hplain in Hi..]. }
    exact (stacked_compiled s0 ∅ c _ Hc).
  - intros c sel k. unfold compiled_table. destruct (own_method s0 c sel); [|done]. by intros [= <-].
Qed.

(** ** The property *)

(** C14: However a program adds, replaces and overrides methods, its classes do
    what a table of stacks says.  Any sequence of the three macros, on any classes
    and selectors or on [NULL], over a hierarchy of compiled classes, runs to its
    end with the [_np_success] of the specification.  Adding succeeds exactly
    where the class has no method of its own, overriding exactly where it also
    inherits one, and replacing puts a block on top of a method the class has; a
    message runs the blocks of the class from the newest to the oldest and then,
    from an overriding block, whatever the superclass runs at that time; a method
    keeps its type encoding, given or inherited.  No message for which a method
    is found crashes, the hierarchy stays well formed, and no list of methods is
    left allocated. *)
Theorem swizzles_refine_stacks rs : plain s0 → Forall known rs → room (length rs) s0 →
  wp (serves rs) (λ l s', ∃ t ρ,
    request_steps height superclass (compiled_table s0) 0 rs = (l, t) ∧
    naming rs ρ s' ∧ wf rank s' ∧ lists s' = lists s0 ∧
    ∀ c sel,
      method_getTypeEncoding <$> class_getInstanceMethod s' c sel = encoding <$> nearest superclass height t c sel ∧
      (∃ n, ∀ m, (n ≤ m)%nat → names ρ <$> send m s' c sel = answer superclass height t c sel) ∧
      (is_Some (class_getInstanceMethod s' c sel) → is_Some (answer superclass height t c sel))) s0.
Proof.
  intros Hplain Hrs Hroom. eapply wp_mono; [by eapply (serves_hold []), Hroom; [apply holds_start|]|].
  intros l s' (t & ρ & Hsteps & Hl & Hs). exists t, ρ. pose proof Hs as [Hwf _ Hn _ _].
  split_and!; [done..|]. intros c sel. unfold class_getInstanceMethod. rewrite (holds_height _ _ _ _ Hs).
  destruct (find_nearest _ _ _ _ Hs height c sel) as [e He].
  split; [|split; [by eapply send_answer|]].
  - destruct (find_method height s' c sel), (nearest superclass height t c sel); try done. simpl.
    by destruct He as [_ ->].
  - destruct (find_method height s' c sel) as [m|] eqn:Hm; [|by intros []]. intros _.
    destruct (nearest superclass height t c sel) as [k|] eqn:Hk; [|done].
    apply (nearest_answers _ _ _ _ Hs); [|by rewrite Hk].
    assert (is_Some (classes s' !! c)) as Hc.
    { destruct height; [done|]. cbn [find_method] in Hm. destruct (classes s' !! c); [by eexists|done]. }
    eapply wf_rank; [done|]. by apply (holds_known _ _ _ _ Hs).
Qed.

End programs.

(** ** A program *)

(** Class 2 inherits method 10 from class 1. *)
Definition demo_requests : list request :=
  [OverrideMethod (Some 2%positive) (Some 10%positive) None; ReplaceMethod (Some 2%positive) (Some 10%positive) None;
   ReplaceMethod (Some 1%positive) (Some 10%positive) None; OverrideMethod (Some 1%positive) (Some 10%positive) None;
   ReplaceMethod (Some 2%positive) (Some 11%positive) None; AddMethod (Some 1%positive) (Some 11%positive) 3;
   OverrideMethod (Some 2%positive) (Some 11%positive) (Some 4%nat); AddMethod (Some 2%positive) None 0;
   AddMethod (Some 2%positive) (Some 10%positive) 0].

Definition demo_superclass : Class_ → option Class_ := superclass_in demo_runtime.

Example demo_replies :
  (request_steps 2 demo_superclass (compiled_table demo_runtime) 0 demo_requests).1 =
  [Some true; None; None; Some false; None; Some true; Some true; Some false; Some false].
Proof. vm_compute. reflexivity. Qed.

Example demo_answers :
  let t := (request_steps 2 demo_superclass (compiled_table demo_runtime) 0 demo_requests).2 in
  (answer demo_superclass 2 t 2 10, answer demo_superclass 2 t 2 11, answer demo_superclass 2 t 1 10) =
  (Some [block 1; block 0; block 2; original 1], Some [block 6; block 5], Some [block 2; original 1]).
Proof. vm_compute. reflexivity. Qed.

(** The same program on the classes themselves: the IMPs 2, 3 and 4 are the first
    three blocks. *)
Example demo_messages :
  match serves demo_requests demo_runtime with
  | Done l s => (l, send 5 s 2 10, send 5 s 1 10)
  | Stop _ _ => ([], None, None)
  end =
  ([Some true; None; None; Some false; None; Some true; Some true; Some false; Some false],
   Some [3; 2; 4; 1]%positive, Some [4; 1]%positive).
Proof. vm_compute. reflexivity. Qed.

Lemma demo_plain : plain demo_runtime.
Proof. intros i b Hb. unfold demo_runtime in Hb. simpl in Hb. by apply lookup_singleton_Some in Hb as [_ <-]. Qed.

Lemma demo_known : Forall (known demo_runtime) demo_requests.
Proof. repeat constructor; intros c [= <-]; vm_compute; by eexists. Qed.

Lemma demo_room : room (length demo_requests) demo_runtime.
Proof.
  intros c k Hk. unfold demo_runtime in Hk. simpl in Hk.
  apply lookup_insert_Some in Hk as [[_ <-]|[_ Hk]]; [by vm_compute|].
  apply lookup_singleton_Some in Hk as [_ <-]. by vm_compute.
Qed.

Lemma swizzles_refine_stacks_witness :
  wp (serves demo_requests) (λ l s', ∃ t ρ,
    request_steps (size (classes demo_runtime)) (superclass_in demo_runtime) (compiled_table demo_runtime) 0
      demo_requests = (l, t) ∧
    naming demo_requests ρ s' ∧ wf demo_rank s' ∧ lists s' = lists demo_runtime ∧
    ∀ c sel,
      method_getTypeEncoding <$> class_getInstanceMethod s' c sel =
        encoding <$> nearest (superclass_in demo_runtime) (size (classes demo_runtime)) t c sel ∧
      (∃ n, ∀ m, (n ≤ m)%nat →
        names ρ <$> send m s' c sel = answer (superclass_in demo_runtime) (size (classes demo_runtime)) t c sel) ∧
      (is_Some (class_getInstanceMethod s' c sel) →
        is_Some (answer (superclass_in demo_runtime) (size (classes demo_runtime)) t c sel))) demo_runtime.
Proof.
  exact (swizzles_refine_stacks demo_rank demo_runtime demo_wf demo_requests demo_plain demo_known demo_room).
Defined.

End RuntimePrograms.
